(* ===== verification/_CoqProject ===== *)
-Q . S2P
Prelude.v
GoStd.v
Utf8.v
Json.v
GoUrl.v
Config.v
StreamDetect.v
Scrub.v
JsonFuel.v
JsonGrammar.v
JsonString.v
JsonCompact.v
JsonEnc.v
JsonDecode.v
JsonMap.v
JsonScan.v
Token.v
Store.v
Usage.v
Persist.v
PersistRace.v
Management.v
ManagementTheorems.v
MemoryCache.v
Redis.v
CacheKey.v
Plugin.v
Engine.v
EngineProofs.v
EngineTheorems.v
OpenAIFormat.v
JsonAny.v
Anthropic.v
AnthropicTheorems.v
Gemini.v
GeminiTheorems.v
Transport.v
Native.v
TransportTheorems.v
NativeTheorems.v
Upstream.v
Bedrock.v
Sse.v
StreamTheorems.v
UpstreamTheorems.v
BedrockTheorems.v
HttpClient.v
NetIP.v
RateLimit.v
RequestLog.v
Observe.v
Guard.v
Sdk.v
Guests.v
Wasm.v
SdkTheorems.v
WasmTheorems.v
GuardTheorems.v
Assembly.v
AssemblyTheorems.v
Startup.v
Sent.v
Whole.v
Confined.v
WholeTheorems.v
Calm.v
Revoked.v
RateLimitTheorems.v
