(* ===== verification/Prelude.v ===== *)
(** * Butter: a verification library for the AI proxy gateway

    Butter is an HTTP gateway in front of language-model providers.  A request is
    authenticated by its application key, passes the plugins' hooks (rate limiting
    first, then logging, tracing and WASM guests) and reaches the proxy engine,
    which checks the key's scopes, routes the request to a list of candidate
    providers, looks in the response cache, and calls the candidates with retries,
    weighted key selection and failover.  Provider adapters translate the request
    to the format of the upstream and its answer or stream back.  Management
    requests vend, rotate, revoke and purge application keys; a persister mirrors
    the keys to a database file.  The configuration selects all of this.

    ** Files

    Shared:
    - Prelude: 64-bit integers, the state monad, run-time panics, strings, tactics
      and hint databases.
    - GoStd, Utf8, NetIP, GoUrl: what the code uses of Go's standard library,
      written out (UTF-8, strings, headers; addresses and prefixes; queries).
    - Json, JsonFuel, JsonGrammar, JsonString, JsonCompact, JsonEnc, JsonDecode,
      JsonMap, JsonAny, JsonScan: encoding/json.  [Json] has the scanner, the
      decoders and the encoders with their error cases; the others prove that the
      parser accepts exactly a declarative grammar, that what is encoded decodes to
      the same value, and what decoded values satisfy.

    Components, in the order in which a request meets them:
    - Config: internal/config (config.go, watcher.go).  The configuration tree,
      [applyDefaults], [expandEnv], [Load] with YAML decoding as a parameter, and
      the watcher as a state machine over observations of the file.
    - Token, Store, Usage, Persist, PersistRace: internal/appkey.  [Store] holds
      the records, the clock and the effects of callbacks in a state monad;
      [Persist] adds the database as a transactional bucket (the snapshot codec
      and the errors of bbolt are parameters, class [Storage]) and the start-up
      sequence of cmd/butter/main.go; [PersistRace] is the transition system of
      concurrent management requests and flushes, with records behind pointers.
    - Management, ManagementTheorems: internal/transport/handler_appkey.go, every
      handler as a computation on the key store that returns the reply.
    - StreamDetect, Transport, Native with TransportTheorems, NativeTheorems:
      internal/transport (stream_detect.go, server.go).  The scanner that decides
      whether a body asks for a stream, the key middleware, every handler, the
      route table and the relays, in a monad over the engine's environment, the key
      store and the goroutines started.
    - Plugin: internal/plugin (types.go, manager.go, chain.go).  Hooks act on a
      heap of request contexts, so that aliasing is as in the code.
    - RateLimit, RateLimitTheorems: internal/plugin/builtin/ratelimit.  Buckets are
      written against a class of numbers with instances for float64 and for the
      rationals.
    - RequestLog: internal/plugin/builtin/requestlog, with the shared pool of
      buffers.  Observe: internal/plugin/builtin/metrics and tracing; a metrics
      plugin is what it recorded, a tracer the spans it started.
    - Sdk, SdkTheorems, Wasm, WasmTheorems: plugin/sdk and internal/plugin/wasm.
      The messages between host and guests, and the host over an arbitrary runtime
      (class [Extism]).
    - Guard, Guests, GuardTheorems: plugins/prompt-injection-guard and
      plugins/example-wasm, from the input text of the hook to its output text.
    - Assembly, AssemblyTheorems: the plugins above as plugins of one manager,
      registered and initialised as cmd/butter/main.go does it.
    - MemoryCache, Redis, CacheKey: internal/cache.  The class [Cache] with its
      laws is the interface the engine is proved against; [Memory] (map and linked
      list, as pointers) and [Redis] (over a parameter server with laws) are
      instances.  [CacheKey] writes out SHA-256.
    - Engine, EngineProofs, EngineTheorems: internal/proxy/engine.go and the
      interface and registry of internal/provider.  The dispatchers run in a
      monad with panics whose state has the heap, the cache, the clock, the
      random source and a log of calls, sleeps and cache accesses; providers and
      plugins are arbitrary functions.  [EngineProofs] is a small program logic
      for that monad.
    - OpenAIFormat, Anthropic, Gemini, Scrub, Upstream, Bedrock with their theorem
      files, Sse and StreamTheorems: the adapters of internal/provider.  The
      translations are pure functions between decoded values; [Upstream] has the
      HTTP adapters over a parameter client, with bodies as readers that may fail,
      [Bedrock] the AWS adapter and the registration of providers in main.
    - HttpClient: internal/provider/httpclient.go, the idle timeout of an exchange
      as a transition system.
    - Startup: the cache, the server options, the server with its settings and the
      shutdown of cmd/butter/main.go, and internal/version.
    - Whole: the program.  [program] is main from a loaded configuration to the
      started server, with the adapters as the registry, the assembled plugins as
      the chain, and the key store with its database; [pstep] is what the started
      program does, one step after the other: serve a request, run a goroutine that
      a handler left, poll the configuration, flush the keys, evict buckets.
    - Sent, Confined, WholeTheorems, Calm, Revoked: the theorems on the whole
      program.  [Sent] is a logic for what handlers send, [Confined] applies it to
      the adapters over a network that notes every request.

    ** What the theorems show

    - Authorisation: dispatched calls stay inside the caller's scopes, a request
      outside them is refused before any effect (EngineTheorems); from the header
      on, an inactive key opens nothing and a key's scopes reach the upstream calls
      on every keyed endpoint (TransportTheorems, NativeTheorems); API keys travel
      in their header alone and are redacted from errors (UpstreamTheorems).
    - Key lifecycle: revocation is permanent in memory, across restarts once it is
      committed and under concurrent flushes; committed purges stay; rotation, expiry
      and usage accounting are exact under any other operations (Store).  The database
      may refuse snapshots and fail commits at any time: a crash loses no lifecycle
      change that was committed, and a shutdown whose last flush is committed loses
      nothing, while one that is not says so (Persist; operations in sequence).  The
      interleavings that do undo a purge or a revocation on disk are exhibited
      (PersistRace).  Management requests are all or nothing and do not reactivate a
      revoked key (ManagementTheorems).
    - Dispatch: order and number of upstream calls, weighted selection, cache
      soundness (EngineTheorems); hooks fail open (Plugin); usage is recorded once
      per answered request, with the counts of what the upstream answered in that
      run (TransportTheorems, NativeTheorems).
    - Adapters: a server that decodes what an adapter sends reads the request of
      the client, a client that decodes what it gets reads the answer of the
      server, and streams deliver every event in order and end on every input
      (AnthropicTheorems, GeminiTheorems, BedrockTheorems, UpstreamTheorems,
      StreamTheorems); an upstream that makes progress is not cut off and a silent
      one is (HttpClient).
    - Plugins: the limiter admits what its limit allows, separates clients and
      identifies them behind proxies (RateLimitTheorems; the bounds are about exact
      arithmetic, not float64 rounding); a captured body is the request's own
      (RequestLog); metrics count every trace and a trace ends its span (Observe);
      WASM instances do not leak and guests change no more than the ABI lets them
      (WasmTheorems); the guard's verdict is exact through host and encodings
      (GuardTheorems).  Together, a refused request reaches no other plugin, and a
      program that has started never panics in a hook (AssemblyTheorems).
    - The whole program, in every state it can reach: what it has sent upstream went
      to configured providers that the presented key allows, below their base URLs
      and with their own credentials (WholeTheorems); no plugin has panicked, no
      WASM instance is left, and a stream goes through the hooks of all plugins to the
      client chunk by chunk as it came (Calm); a revoked key stays out (Revoked).
    - Caching: the pointer structure refines an LRU list, is bounded and retains
      what it should (MemoryCache); equal key inputs mean equal canonical requests
      (CacheKey); either backend keeps the laws of the interface (Redis, Startup).
    - Parsing: the stream scanner agrees with the JSON decoder on plainly spelt
      boolean members, and where it does not is shown (StreamDetect);
      usage extraction does not depend on chunking (Usage); token syntax (Token);
      configuration expansion and defaults (Config).
    - Some theorems record behaviour that a reader would not expect, such as
      [EngineTheorems.passthrough_unscoped], [Store.SetExpiry_epoch] or
      [GuardTheorems.guard_skips_parts].

    ** Bounds and fuel

    Loops over input take fuel from the length of the input, and a lemma shows
    that it is enough: the scanners of StreamDetect ([nested_fuel_enough],
    [member_loop_is_some]), the JSON parser ([JsonFuel.parse_fuel_enough]),
    [Usage.write_loop] (one line per newline, [Write_chunking] relates it to the
    list of lines), the redaction loop ([Scrub.scrub_loop_ref]), the line loops of
    the adapters' streams (the lines left; [StreamTheorems.stream_ends]), UTF-8
    iteration (every rune has a width of at least one).  IPv6 parsing has at most
    nine rounds because there are eight groups; SHA-256 consumes its padded input
    in blocks.  The stream relay is bounded by a number of reads, and
    [Calm.stream_relayed] shows that one more than the number of
    chunks suffices.  Dispatch loops are structural on the number of attempts and
    on the list of candidates.  Integers are 64-bit where the code computes with
    them ([wrap64]); JSON values nest at most as deep as encoding/json allows
    ([max_depth]).

    ** Not modelled

    Command-line flags, signals, the wording of log lines and the listening socket
    of main; net/http below its handlers and clients (connections, the redirects
    of the mux); the scheduling of goroutines, except where a file says how steps
    interleave.  In [Whole] a handler runs in one go, and one that panics (net/http
    drops its connection) is no step.  Code outside the repository is a parameter
    with its assumptions stated: the YAML decoder, the database and its codec,
    Redis, the AWS client, the WASM runtime, OpenTelemetry, the decoding of
    timestamps, the decimal text of floats and lower case beyond ASCII.  Bedrock's
    requests are made by the AWS client and are not among those that [Confined]
    notes.  A panic of a plugin's hook is not part of the chain's monad;
    [AssemblyTheorems.plugins_calm], for hooks in any order, and [Calm.program_calm],
    for the program, show that the plugins of the program have none.  The test
    fixtures under internal/plugin/wasm are left out.

    ** Plan

    Every component is modelled, and the components meet in [Whole].  What the map
    does not cover is imports, logging and comments, and what is named above. *)
From Stdlib Require Export ZArith Lia Ascii.
From stdpp Require Export base gmap strings list numbers.

#[global] Set Default Proof Using "Type".
Open Scope Z_scope.

(** ** Machine integers

    Go's [int], [int64] and [time.Duration] are 64-bit two's complement on the
    supported targets.  A value is a [Z]; the operations that may leave the
    range say so with [wrap64]. *)

Definition two63 : Z := 9223372036854775808.
Definition two64 : Z := 18446744073709551616.

Definition wrap64 (z : Z) : Z := (z + two63) mod two64 - two63.

Definition in_int64 (z : Z) : Prop := - two63 <= z < two63.

#[global] Instance in_int64_dec z : Decision (in_int64 z).
Proof. unfold in_int64. apply _. Defined.

Lemma wrap64_id z : in_int64 z → wrap64 z = z.
Proof. unfold in_int64, wrap64, two63, two64. intros ?. rewrite Z.mod_small; lia. Qed.

Lemma wrap64_range z : in_int64 (wrap64 z).
Proof.
  unfold in_int64, wrap64. pose proof (Z.mod_pos_bound (z + two63) two64).
  unfold two63, two64 in *. lia.
Qed.

Lemma wrap64_add_l a b : wrap64 (wrap64 a + b) = wrap64 (a + b).
Proof.
  unfold wrap64. f_equal.
  replace ((a + two63) mod two64 - two63 + b + two63)
    with ((a + two63) mod two64 + b) by lia.
  rewrite Z.add_mod_idemp_l by done. f_equal. lia.
Qed.

Lemma wrap64_add_r a b : wrap64 (a + wrap64 b) = wrap64 (a + b).
Proof. rewrite Z.add_comm, wrap64_add_l. f_equal. lia. Qed.

(** ** A state monad

    Code that threads a mutable object through a sequence of calls is written
    in [ST]: stdpp's [x ← m; k] and [m;; k] notations then read like the
    source. *)

Definition ST (S A : Type) : Type := S → A * S.

#[global] Instance ST_ret S : MRet (ST S) := λ A a s, (a, s).
#[global] Instance ST_bind S : MBind (ST S) :=
  λ A B f m s, let '(a, s') := m s in f a s'.

Definition get_state {S} : ST S S := λ s, (s, s).
Definition put_state {S} (s : S) : ST S () := λ _, (tt, s).
Definition modify_state {S} (f : S → S) : ST S () := λ s, (tt, f s).
Definition gets_state {S A} (f : S → A) : ST S A := λ s, (f s, s).

Definition when {S} (b : bool) (m : ST S ()) : ST S () :=
  if b then m else mret tt.

Lemma ST_bind_unfold {S A B} (f : A → ST S B) (m : ST S A) (s : S) :
  (m ≫= f) s = f (m s).1 (m s).2.
Proof. unfold mbind, ST_bind. by destruct (m s). Qed.

(** ** Run-time panics

    Code that can panic (a nil map written to, an invalid argument) returns an
    [outcome]. *)
Inductive outcome (A : Type) : Type :=
| Ret (a : A)
| Panic.
Arguments Ret {A} a.
Arguments Panic {A}.

(** ** Automation *)

Create HintDb butter discriminated.

#[export] Hint Resolve wrap64_range : butter.

(** [st_simpl] unfolds the state monad's plumbing and reduces. *)
Ltac st_simpl :=
  unfold mret, mbind, ST_ret, ST_bind, get_state, put_state, modify_state,
    gets_state, when in *; simpl in *.

(** [split_ifs] opens every conditional and match on a variable in sight,
    keeping the equations. *)
Ltac split_ifs :=
  repeat (case_match || case_decide); simplify_eq/=.

(** A bounded statement about naturals, by evaluation. *)
Lemma forall_below (P : nat → Prop) `{∀ k, Decision (P k)} n :
  bool_decide (Forall P (seq 0 n)) = true → ∀ k, (k < n)%nat → P k.
Proof.
  intros Hb k Hk. apply bool_decide_eq_true, Forall_forall with (x := k) in Hb; [done|].
  apply in_seq. lia.
Qed.

(** ** Strings

    Go's [string] and [[]byte] are byte sequences: both are Rocq strings of
    8-bit characters.  Where the code distinguishes a nil slice from an empty
    one the value is a [slice]. *)

#[global] Arguments String.append !_ _ / : simpl nomatch.

Abbreviation slice := (option string).

Definition bytes_of (b : slice) : string := default "" b.

Definition code (c : ascii) : Z := Z.of_N (N_of_ascii c).

Fixpoint str_drop (n : nat) (s : string) : string :=
  match n, s with
  | O, _ => s
  | S n', String _ s' => str_drop n' s'
  | S _, EmptyString => EmptyString
  end.

Fixpoint str_take (n : nat) (s : string) : string :=
  match n, s with
  | O, _ => EmptyString
  | S n', String c s' => String c (str_take n' s')
  | S _, EmptyString => EmptyString
  end.

(** [dq s] writes JSON legibly: apostrophes stand for double quotes. *)
Fixpoint dq (s : string) : string :=
  match s with
  | EmptyString => EmptyString
  | String c s' =>
    String (if N_of_ascii c =? 39 then ascii_of_N 34 else c)%N (dq s')
  end.

(** [consumed s rest] is the part of [s] before its suffix [rest]. *)
Definition consumed (s rest : string) : string :=
  str_take (String.length s - String.length rest) s.

Lemma str_app_nil_r s : s +:+ "" = s.
Proof. induction s as [|c s IH]; simpl; [done|by rewrite IH]. Qed.

Lemma str_app_assoc s t u : (s +:+ t) +:+ u = s +:+ (t +:+ u).
Proof. induction s as [|c s IH]; simpl; [done|by rewrite IH]. Qed.

Lemma str_length_app s t :
  String.length (s +:+ t) = (String.length s + String.length t)%nat.
Proof. induction s as [|c s IH]; simpl; lia. Qed.

Lemma str_take_drop n s : str_take n s +:+ str_drop n s = s.
Proof. revert s. induction n as [|n IH]; intros [|c s]; simpl; [done..|]. by rewrite IH. Qed.

Lemma str_take_app s t : str_take (String.length s) (s +:+ t) = s.
Proof. induction s as [|c s IH]; simpl; [by destruct t|by rewrite IH]. Qed.

Lemma str_drop_app s t : str_drop (String.length s) (s +:+ t) = t.
Proof. by induction s as [|c s IH]; simpl. Qed.

Lemma str_drop_length n s :
  String.length (str_drop n s) = (String.length s - n)%nat.
Proof. revert s. induction n; intros [|c s]; simpl; auto. Qed.

Lemma consumed_app s t : consumed (s +:+ t) t = s.
Proof.
  unfold consumed. rewrite str_length_app.
  replace (String.length s + String.length t - String.length t)%nat
    with (String.length s) by lia.
  apply str_take_app.
Qed.

Lemma str_app_inj_l s t u : s +:+ t = s +:+ u → t = u.
Proof. induction s as [|c s IH]; simpl; intros; simplify_eq; auto. Qed.

Lemma prefix_app p s : String.prefix p (p +:+ s) = true.
Proof. induction p as [|c p IH]; simpl; [by destruct s|]. destruct (ascii_dec c c); [done|congruence]. Qed.

Lemma prefix_inv p s : String.prefix p s = true → ∃ t, s = p +:+ t.
Proof.
  revert s. induction p as [|c p IH]; intros s; [eauto|].
  destruct s as [|c' s]; simpl; [done|]. case_match; [|done]. subst.
  intros [t ->]%IH. by exists t.
Qed.

(** Induction on the length of a string, for loops that skip ahead. *)
Lemma str_len_ind (P : string → Prop) :
  (∀ s, (∀ t, (String.length t < String.length s)%nat → P t) → P s) → ∀ s, P s.
Proof.
  intros Hstep s. remember (String.length s) as n eqn:Hn. revert s Hn.
  induction (lt_wf n) as [n _ IH]. intros s ->. apply Hstep. eauto.
Qed.

Create Rewrite HintDb butter_str.

#[export] Hint Rewrite str_app_nil_r str_app_assoc str_length_app str_drop_app
  str_take_app consumed_app : butter_str.
