(* ===== verification/GoStd.v ===== *)
(** * What the code uses of Go's standard library

    [strings], [bytes], [unicode/utf8] and [net/http.Header], as executable
    functions on byte strings.  The JSON codec is in the file Json. *)
From S2P Require Import Prelude.

(** ** unicode/utf8 *)

Definition byte_of (z : Z) : ascii := ascii_of_N (Z.to_N z).

Definition rune_error : Z := 65533.

Definition in_range (lo hi z : Z) : bool := (lo <=? z) && (z <=? hi).

(** The admissible range of the second byte and the size, by first byte
    (utf8's [first] and [acceptRanges] tables). *)
Definition utf8_first (b : Z) : option (Z * Z * Z) :=
  if in_range 194 223 b then Some (2, 128, 191)
  else if b =? 224 then Some (3, 160, 191)
  else if in_range 225 236 b then Some (3, 128, 191)
  else if b =? 237 then Some (3, 128, 159)
  else if in_range 238 239 b then Some (3, 128, 191)
  else if b =? 240 then Some (4, 144, 191)
  else if in_range 241 243 b then Some (4, 128, 191)
  else if b =? 244 then Some (4, 128, 143)
  else None.

(** [utf8.DecodeRuneInString]: the first rune and its width; an invalid
    encoding is [RuneError] of width 1, the empty string has width 0. *)
Definition DecodeRune (s : string) : Z * nat :=
  match s with
  | EmptyString => (rune_error, 0%nat)
  | String c0 r0 =>
    let b0 := code c0 in
    if b0 <? 128 then (b0, 1%nat) else
    match utf8_first b0, r0 with
    | Some (n, lo, hi), String c1 r1 =>
      let b1 := code c1 in
      if negb (in_range lo hi b1) then (rune_error, 1%nat) else
      if (n =? 2) then ((b0 - 192) * 64 + (b1 - 128), 2%nat) else
      match r1 with
      | String c2 r2 =>
        let b2 := code c2 in
        if negb (in_range 128 191 b2) then (rune_error, 1%nat) else
        if (n =? 3)
        then ((b0 - 224) * 4096 + (b1 - 128) * 64 + (b2 - 128), 3%nat) else
        match r2 with
        | String c3 _ =>
          let b3 := code c3 in
          if negb (in_range 128 191 b3) then (rune_error, 1%nat)
          else ((b0 - 240) * 262144 + (b1 - 128) * 4096 + (b2 - 128) * 64
                + (b3 - 128), 4%nat)
        | EmptyString => (rune_error, 1%nat)
        end
      | EmptyString => (rune_error, 1%nat)
      end
    | _, _ => (rune_error, 1%nat)
    end
  end.

(** The runes a [for range] loop over a string visits. *)
Fixpoint runes_fuel (fuel : nat) (s : string) : list Z :=
  match fuel, s with
  | S fuel', String _ _ =>
    let '(r, n) := DecodeRune s in r :: runes_fuel fuel' (str_drop n s)
  | _, _ => []
  end.

Definition runes (s : string) : list Z := runes_fuel (String.length s) s.

(** [utf8.AppendRune]. *)
Definition EncodeRune (r : Z) : string :=
  let r := if (r <? 0) || (1114111 <? r) || in_range 55296 57343 r
           then rune_error else r in
  if r <? 128 then String (byte_of r) ""
  else if r <? 2048 then
    String (byte_of (192 + r / 64)) (String (byte_of (128 + r mod 64)) "")
  else if r <? 65536 then
    String (byte_of (224 + r / 4096))
      (String (byte_of (128 + (r / 64) mod 64))
        (String (byte_of (128 + r mod 64)) ""))
  else
    String (byte_of (240 + r / 262144))
      (String (byte_of (128 + (r / 4096) mod 64))
        (String (byte_of (128 + (r / 64) mod 64))
          (String (byte_of (128 + r mod 64)) ""))).

(** ** strings and bytes *)

Definition HasPrefix (s p : string) : bool := String.prefix p s.

Definition TrimPrefix (s p : string) : string :=
  if HasPrefix s p then str_drop (String.length p) s else s.

Fixpoint Contains (s sub : string) : bool :=
  String.prefix sub s ||
  match s with
  | EmptyString => false
  | String _ s' => Contains s' sub
  end.

(** [bytes.IndexByte], as the bytes before and after the first occurrence. *)
Fixpoint cut_byte (c : ascii) (s : string) : option (string * string) :=
  match s with
  | EmptyString => None
  | String d s' =>
    if ascii_dec c d then Some ("", s')
    else '(l, r) ← cut_byte c s'; Some (String d l, r)
  end.

(** [strings.Split] for a one-byte separator. *)
Fixpoint Split (s : string) (sep : ascii) : list string :=
  match s with
  | EmptyString => [""]
  | String c s' =>
    if ascii_dec c sep then "" :: Split s' sep
    else match Split s' sep with
         | [] => [String c ""]
         | h :: t => String c h :: t
         end
  end.

Definition Join (parts : list string) (sep : string) : string :=
  String.concat sep parts.

(** [unicode.IsSpace]. *)
Definition IsSpace (r : Z) : bool :=
  in_range 9 13 r || (r =? 32) || (r =? 133) || (r =? 160) || (r =? 5760)
  || in_range 8192 8202 r || (r =? 8232) || (r =? 8233) || (r =? 8239)
  || (r =? 8287) || (r =? 12288).

Fixpoint trim_left_fuel (fuel : nat) (s : string) : string :=
  match fuel, s with
  | S fuel', String _ _ =>
    let '(r, n) := DecodeRune s in
    if IsSpace r then trim_left_fuel fuel' (str_drop n s) else s
  | _, _ => s
  end.

Fixpoint trim_right_fuel (fuel : nat) (s : string) : string :=
  match fuel with
  | O => s
  | S fuel' =>
    if forallb IsSpace (runes s) then "" else
    let n := (DecodeRune s).2 in
    str_take n s +:+ trim_right_fuel fuel' (str_drop n s)
  end.

Definition TrimSpace (s : string) : string :=
  let s := trim_left_fuel (String.length s) s in
  trim_right_fuel (String.length s) s.

(** [bytes.TrimRight(line, "\r\n")]. *)
Fixpoint trim_crlf (s : string) : string :=
  match s with
  | EmptyString => EmptyString
  | String c s' =>
    match trim_crlf s' with
    | EmptyString => if (code c =? 13) || (code c =? 10) then "" else String c ""
    | t => String c t
    end
  end.

(** ** net/http.Header *)

Definition is_upper (c : ascii) : bool := in_range 65 90 (code c).
Definition is_lower (c : ascii) : bool := in_range 97 122 (code c).
Definition is_digit (c : ascii) : bool := in_range 48 57 (code c).

Definition to_lower (c : ascii) : ascii :=
  if is_upper c then byte_of (code c + 32) else c.
Definition to_upper (c : ascii) : ascii :=
  if is_lower c then byte_of (code c - 32) else c.

(** The bytes an HTTP field name may hold (RFC 7230 token). *)
Definition is_token_byte (c : ascii) : bool :=
  is_upper c || is_lower c || is_digit c ||
  existsb (λ d, code c =? d)
    [33; 35; 36; 37; 38; 39; 42; 43; 45; 46; 94; 95; 96; 124; 126].

Fixpoint str_forallb (p : ascii → bool) (s : string) : bool :=
  match s with
  | EmptyString => true
  | String c s' => p c && str_forallb p s'
  end.

Fixpoint canonical_loop (upper : bool) (s : string) : string :=
  match s with
  | EmptyString => EmptyString
  | String c s' =>
    String (if upper then to_upper c else to_lower c)
      (canonical_loop (code c =? 45) s')
  end.

(** [textproto.CanonicalMIMEHeaderKey]. *)
Definition CanonicalKey (s : string) : string :=
  if str_forallb is_token_byte s then canonical_loop true s else s.

Abbreviation Header := (gmap string (list string)).

Definition hdr_values (h : Header) (k : string) : list string :=
  default [] (h !! CanonicalKey k).
Definition hdr_get (h : Header) (k : string) : string :=
  match hdr_values h k with v :: _ => v | [] => "" end.
Definition hdr_set (h : Header) (k v : string) : Header :=
  <[CanonicalKey k := [v]]> h.
Definition hdr_add (h : Header) (k v : string) : Header :=
  <[CanonicalKey k := hdr_values h k ++ [v]]> h.
Definition hdr_del (h : Header) (k : string) : Header :=
  delete (CanonicalKey k) h.

(** ** Facts *)

Lemma DecodeRune_width s : s ≠ "" → ((DecodeRune s).2 ≥ 1)%nat.
Proof.
  destruct s as [|c s]; [done|]. intros _. unfold DecodeRune.
  repeat case_match; simpl; lia.
Qed.

Lemma DecodeRune_ascii c s :
  code c < 128 → DecodeRune (String c s) = (code c, 1%nat).
Proof. intros H. simpl. by rewrite (proj2 (Z.ltb_lt _ _) H). Qed.

Lemma code_range c : 0 <= code c < 256.
Proof. unfold code. pose proof (N_ascii_bounded c). lia. Qed.

Lemma code_byte_of z : 0 <= z < 256 → code (byte_of z) = z.
Proof.
  intros Hz. unfold code, byte_of. rewrite N_ascii_embedding by lia. lia.
Qed.

(** Characters by their code. *)
Lemma code_inj c c' : code c = code c' → c = c'.
Proof.
  unfold code. intros H. rewrite <-(ascii_N_embedding c), <-(ascii_N_embedding c'). f_equal. lia.
Qed.

Lemma utf8_first_range b n lo hi :
  utf8_first b = Some (n, lo, hi) →
  (n = 2 ∧ 194 <= b <= 223 ∧ lo = 128) ∨
  (n = 3 ∧ 224 <= b <= 239 ∧ (225 <= b ∨ 160 <= lo) ∧ 128 <= lo) ∨
  (n = 4 ∧ 240 <= b <= 244 ∧ (241 <= b ∨ 144 <= lo) ∧ 128 <= lo).
Proof. unfold utf8_first, in_range. intros H. repeat case_match; simplify_eq; lia. Qed.

(** A byte outside ASCII never decodes to an ASCII rune. *)
Lemma DecodeRune_non_ascii c s :
  128 <= code c → 128 <= (DecodeRune (String c s)).1.
Proof.
  intros H. unfold DecodeRune, in_range.
  destruct (Z.ltb_spec (code c) 128); [lia|].
  destruct (utf8_first (code c)) as [[[n lo] hi]|] eqn:E; [|simpl; unfold rune_error; lia].
  apply utf8_first_range in E.
  destruct s as [|c1 s]; [simpl; unfold rune_error; lia|].
  repeat case_match; simpl; unfold rune_error; try lia.
Qed.

Lemma str_forallb_app p s t :
  str_forallb p (s +:+ t) = str_forallb p s && str_forallb p t.
Proof. induction s as [|c s IH]; simpl; [done|]. by rewrite IH, andb_assoc. Qed.

Lemma str_forallb_impl (p q : ascii → bool) s :
  (∀ c, p c = true → q c = true) → str_forallb p s = true → str_forallb q s = true.
Proof.
  intros Hpq. induction s as [|c s IH]; simpl; [done|].
  intros [? ?]%andb_prop. apply andb_true_intro. auto.
Qed.

Lemma hdr_values_set_eq h k v : hdr_values (hdr_set h k v) k = [v].
Proof. unfold hdr_values, hdr_set. by rewrite lookup_insert_eq. Qed.

Lemma hdr_values_set_ne h k k' v :
  CanonicalKey k ≠ CanonicalKey k' →
  hdr_values (hdr_set h k v) k' = hdr_values h k'.
Proof. intros. unfold hdr_values, hdr_set. by rewrite lookup_insert_ne. Qed.

#[export] Hint Rewrite hdr_values_set_eq : butter_str.
