(* ===== verification/Utf8.v ===== *)
(** * UTF-8

    [DecodeRune] and [EncodeRune] are inverse to each other on the Unicode scalar
    values.  [sanitize] replaces every byte that is not part of a valid encoding
    by U+FFFD, which is what decoding a string and encoding it again does. *)
From S2P Require Import Prelude GoStd.

#[local] Ltac Zify.zify_post_hook ::= Z.div_mod_to_equations.

(** Unicode scalar values. *)
Definition scalar (r : Z) : Prop := 0 <= r <= 1114111 ∧ ~ (55296 <= r <= 57343).

Lemma byte_of_code c : byte_of (code c) = c.
Proof. apply code_inj, code_byte_of, code_range. Qed.

Lemma byte_of_eq c z : z = code c → byte_of z = c.
Proof. intros ->. apply byte_of_code. Qed.

(** The three cases of decoding. *)
Inductive decoded : string → Z → nat → Prop :=
| decoded_ascii c s : code c < 128 → decoded (String c s) (code c) 1
| decoded_bad c s : 128 <= code c → decoded (String c s) rune_error 1
| decoded_rune r s :
    scalar r → 128 <= r → decoded (EncodeRune r +:+ s) r (String.length (EncodeRune r)).

Lemma EncodeRune_scalar r : scalar r →
  EncodeRune r =
    if r <? 128 then String (byte_of r) ""
    else if r <? 2048 then
      String (byte_of (192 + r / 64)) (String (byte_of (128 + r mod 64)) "")
    else if r <? 65536 then
      String (byte_of (224 + r / 4096))
        (String (byte_of (128 + (r / 64) mod 64)) (String (byte_of (128 + r mod 64)) ""))
    else
      String (byte_of (240 + r / 262144))
        (String (byte_of (128 + (r / 4096) mod 64))
          (String (byte_of (128 + (r / 64) mod 64)) (String (byte_of (128 + r mod 64)) ""))).
Proof.
  intros [? ?]. unfold EncodeRune, in_range.
  destruct ((r <? 0) || (1114111 <? r) || ((55296 <=? r) && (r <=? 57343))) eqn:E; [lia|done].
Qed.

Lemma decoded_two c0 c1 s : let r := (code c0 - 192) * 64 + (code c1 - 128) in
  194 <= code c0 <= 223 → 128 <= code c1 <= 191 → decoded (String c0 (String c1 s)) r 2.
Proof.
  intros r H0 H1. assert (scalar r) as Hs by (unfold scalar; lia).
  assert (EncodeRune r = String c0 (String c1 "")) as E.
  { rewrite EncodeRune_scalar by done. destruct (Z.ltb_spec r 128); [lia|].
    destruct (Z.ltb_spec r 2048); [|lia]. rewrite (byte_of_eq c0), (byte_of_eq c1) by lia. done. }
  pose proof (decoded_rune r s Hs ltac:(lia)) as D. rewrite E in D. exact D.
Qed.

Lemma decoded_three c0 c1 c2 s :
  let r := (code c0 - 224) * 4096 + (code c1 - 128) * 64 + (code c2 - 128) in
  224 <= code c0 <= 239 → 128 <= code c1 <= 191 → 128 <= code c2 <= 191 →
  (224 < code c0 ∨ 160 <= code c1) → (code c0 ≠ 237 ∨ code c1 <= 159) →
  decoded (String c0 (String c1 (String c2 s))) r 3.
Proof.
  intros r H0 H1 H2 Ha Hb. assert (scalar r) as Hs by (unfold scalar; lia).
  assert (EncodeRune r = String c0 (String c1 (String c2 ""))) as E.
  { rewrite EncodeRune_scalar by done. destruct (Z.ltb_spec r 128); [lia|].
    destruct (Z.ltb_spec r 2048); [lia|]. destruct (Z.ltb_spec r 65536); [|lia].
    rewrite (byte_of_eq c0), (byte_of_eq c1), (byte_of_eq c2) by lia. done. }
  pose proof (decoded_rune r s Hs ltac:(lia)) as D. rewrite E in D. exact D.
Qed.

Lemma decoded_four c0 c1 c2 c3 s :
  let r := (code c0 - 240) * 262144 + (code c1 - 128) * 4096 + (code c2 - 128) * 64 + (code c3 - 128) in
  240 <= code c0 <= 244 → 128 <= code c1 <= 191 → 128 <= code c2 <= 191 → 128 <= code c3 <= 191 →
  (240 < code c0 ∨ 144 <= code c1) → (code c0 ≠ 244 ∨ code c1 <= 143) →
  decoded (String c0 (String c1 (String c2 (String c3 s)))) r 4.
Proof.
  intros r H0 H1 H2 H3 Ha Hb. assert (scalar r) as Hs by (unfold scalar; lia).
  assert (EncodeRune r = String c0 (String c1 (String c2 (String c3 "")))) as E.
  { rewrite EncodeRune_scalar by done. destruct (Z.ltb_spec r 128); [lia|].
    destruct (Z.ltb_spec r 2048); [lia|]. destruct (Z.ltb_spec r 65536); [lia|].
    rewrite (byte_of_eq c0), (byte_of_eq c1), (byte_of_eq c2), (byte_of_eq c3) by lia. done. }
  pose proof (decoded_rune r s Hs ltac:(lia)) as D. rewrite E in D. exact D.
Qed.

Lemma utf8_first_cases b n lo hi : utf8_first b = Some (n, lo, hi) →
  (n = 2 ∧ 194 <= b <= 223 ∧ 128 = lo ∧ hi = 191) ∨
  (n = 3 ∧ 224 <= b <= 239 ∧ 128 <= lo ∧ hi <= 191 ∧ (224 < b ∨ 160 <= lo) ∧ (b ≠ 237 ∨ hi <= 159)) ∨
  (n = 4 ∧ 240 <= b <= 244 ∧ 128 <= lo ∧ hi <= 191 ∧ (240 < b ∨ 144 <= lo) ∧ (b ≠ 244 ∨ hi <= 143)).
Proof. unfold utf8_first, in_range. intros H. repeat case_match; simplify_eq; lia. Qed.

Lemma DecodeRune_decoded s : s ≠ "" → decoded s (DecodeRune s).1 (DecodeRune s).2.
Proof.
  destruct s as [|c0 s]; [done|]. intros _. cbn [DecodeRune].
  destruct (Z.ltb_spec (code c0) 128); [by constructor|].
  destruct (utf8_first (code c0)) as [[[n lo] hi]|] eqn:E; [|by destruct s; constructor].
  apply utf8_first_cases in E. destruct s as [|c1 s]; [by constructor|]. unfold in_range.
  destruct ((lo <=? code c1) && (code c1 <=? hi)) eqn:E1; [|by constructor]. cbn [negb].
  destruct (Z.eqb_spec n 2); [apply decoded_two; lia|]. destruct s as [|c2 s]; [by constructor|].
  destruct ((128 <=? code c2) && (code c2 <=? 191)) eqn:E2; [|by constructor]. cbn [negb].
  destruct (Z.eqb_spec n 3); [apply decoded_three; lia|]. destruct s as [|c3 s]; [by constructor|].
  destruct ((128 <=? code c3) && (code c3 <=? 191)) eqn:E3; [|by constructor]. cbn [negb].
  apply decoded_four; lia.
Qed.

Lemma in_range_true lo hi z : lo <= z <= hi → in_range lo hi z = true.
Proof. unfold in_range. lia. Qed.

Lemma DecodeRune_EncodeRune r s : scalar r →
  DecodeRune (EncodeRune r +:+ s) = (r, String.length (EncodeRune r)).
Proof.
  intros Hs. pose proof Hs as [Hr Hns]. rewrite EncodeRune_scalar by done.
  destruct (Z.ltb_spec r 128); [|destruct (Z.ltb_spec r 2048); [|destruct (Z.ltb_spec r 65536)]];
    cbn [String.append DecodeRune String.length]; rewrite !code_byte_of by lia.
  - rewrite (proj2 (Z.ltb_lt _ _)) by lia. done.
  - rewrite (proj2 (Z.ltb_ge _ _)) by lia.
    destruct (utf8_first _) as [[[n lo] hi]|] eqn:E.
    2:{ exfalso. revert E. unfold utf8_first, in_range. repeat case_match; try done; lia. }
    apply utf8_first_cases in E. rewrite in_range_true by lia. cbn [negb].
    rewrite (proj2 (Z.eqb_eq _ _)) by lia. f_equal. lia.
  - rewrite (proj2 (Z.ltb_ge _ _)) by lia.
    destruct (utf8_first _) as [[[n lo] hi]|] eqn:E.
    2:{ exfalso. revert E. unfold utf8_first, in_range. repeat case_match; try done; lia. }
    assert (in_range lo hi (128 + (r / 64) mod 64) = true) as ->.
    { revert E. unfold utf8_first, in_range. repeat case_match; intros; simplify_eq; lia. }
    apply utf8_first_cases in E. cbn [negb]. rewrite (proj2 (Z.eqb_neq _ _)) by lia.
    rewrite in_range_true by lia. cbn [negb]. rewrite (proj2 (Z.eqb_eq _ _)) by lia. f_equal. lia.
  - rewrite (proj2 (Z.ltb_ge _ _)) by lia.
    destruct (utf8_first _) as [[[n lo] hi]|] eqn:E.
    2:{ exfalso. revert E. unfold utf8_first, in_range. repeat case_match; try done; lia. }
    assert (in_range lo hi (128 + (r / 4096) mod 64) = true) as ->.
    { revert E. unfold utf8_first, in_range. repeat case_match; intros; simplify_eq; lia. }
    apply utf8_first_cases in E. cbn [negb]. rewrite !(proj2 (Z.eqb_neq _ _)) by lia.
    rewrite !in_range_true by lia. cbn [negb]. f_equal. lia.
Qed.

Lemma EncodeRune_length r : (1 ≤ String.length (EncodeRune r))%nat.
Proof. unfold EncodeRune. repeat case_match; cbn; lia. Qed.

(** ** Sanitised strings *)

Fixpoint sanitize_fuel (fuel : nat) (s : string) : string :=
  match fuel, s with
  | S fuel', String _ _ =>
    let '(r, n) := DecodeRune s in EncodeRune r +:+ sanitize_fuel fuel' (str_drop n s)
  | _, _ => ""
  end.

Definition sanitize (s : string) : string := sanitize_fuel (String.length s) s.

(** Well-formed UTF-8. *)
Definition valid_utf8 (s : string) : Prop := sanitize s = s.

Lemma sanitize_fuel_enough n : ∀ m s,
  (String.length s ≤ n)%nat → (String.length s ≤ m)%nat → sanitize_fuel n s = sanitize_fuel m s.
Proof.
  induction n as [|n IH]; intros [|m] [|c s] Hn Hm; cbn [String.length] in *; try done; try lia.
  cbn [sanitize_fuel]. pose proof (DecodeRune_width (String c s) ltac:(done)) as Hw.
  destruct (DecodeRune (String c s)) as [r k]. cbn in Hw. f_equal.
  apply IH; rewrite str_drop_length; cbn [String.length]; lia.
Qed.

Lemma sanitize_step s : s ≠ "" →
  sanitize s = EncodeRune (DecodeRune s).1 +:+ sanitize (str_drop (DecodeRune s).2 s).
Proof.
  intros Hs. pose proof (DecodeRune_width s Hs) as Hw. unfold sanitize at 1.
  destruct s as [|c s]; [done|]. cbn [String.length sanitize_fuel].
  destruct (DecodeRune (String c s)) as [r k]. cbn [fst snd] in *. f_equal.
  apply sanitize_fuel_enough; rewrite str_drop_length; cbn [String.length]; lia.
Qed.

Lemma sanitize_rune r s : scalar r → sanitize (EncodeRune r +:+ s) = EncodeRune r +:+ sanitize s.
Proof.
  intros Hr. rewrite sanitize_step.
  - rewrite DecodeRune_EncodeRune by done. cbn [fst snd]. by rewrite str_drop_app.
  - intros E. apply (f_equal String.length) in E. rewrite str_length_app in E.
    pose proof (EncodeRune_length r). cbn in E. lia.
Qed.

Lemma scalar_ascii c : code c < 128 → scalar (code c) ∧ EncodeRune (code c) = String c "".
Proof.
  intros Hc. pose proof (code_range c). assert (scalar (code c)) as Hs by (unfold scalar; lia).
  split; [done|]. rewrite EncodeRune_scalar by done. destruct (Z.ltb_spec (code c) 128); [|lia].
  by rewrite byte_of_code.
Qed.

Lemma sanitize_ascii c s : code c < 128 → sanitize (String c s) = String c (sanitize s).
Proof.
  intros Hc. destruct (scalar_ascii c Hc) as [Hs E].
  pose proof (sanitize_rune (code c) s Hs) as H. by rewrite E in H.
Qed.

Lemma scalar_error : scalar rune_error.
Proof. unfold scalar, rune_error. lia. Qed.

(** Every rune that is decoded is a scalar value. *)
Lemma DecodeRune_scalar s : scalar (DecodeRune s).1.
Proof.
  destruct (decide (s = "")) as [->|Hs]; [apply scalar_error|].
  pose proof (code_range). destruct (DecodeRune_decoded s Hs); [|apply scalar_error|done].
  by apply scalar_ascii.
Qed.

(** [utf8.AppendRune] of any integer is the encoding of a scalar value. *)
Lemma EncodeRune_any r : ∃ r', scalar r' ∧ EncodeRune r = EncodeRune r'.
Proof.
  destruct ((r <? 0) || (1114111 <? r) || in_range 55296 57343 r) eqn:E.
  - exists rune_error. split; [apply scalar_error|]. unfold EncodeRune. by rewrite E.
  - exists r. split; [|done]. unfold in_range in E. unfold scalar. lia.
Qed.

Lemma valid_nil : valid_utf8 "".
Proof. done. Qed.

Lemma valid_rune r s : valid_utf8 s → valid_utf8 (EncodeRune r +:+ s).
Proof.
  unfold valid_utf8. intros Hs. destruct (EncodeRune_any r) as (r' & Hr & ->).
  by rewrite sanitize_rune, Hs.
Qed.

Lemma valid_ascii c s : code c < 128 → valid_utf8 s → valid_utf8 (String c s).
Proof. unfold valid_utf8. intros Hc Hs. by rewrite sanitize_ascii, Hs. Qed.

Lemma valid_sanitize s : valid_utf8 (sanitize s).
Proof.
  induction s as [s IH] using str_len_ind. destruct (decide (s = "")) as [->|Hs]; [done|].
  rewrite sanitize_step by done. apply valid_rune, IH. rewrite str_drop_length.
  pose proof (DecodeRune_width s Hs). destruct s; [done|]. cbn [String.length]. lia.
Qed.

Lemma sanitize_length s : (String.length s ≤ String.length (sanitize s))%nat.
Proof.
  induction s as [s IH] using str_len_ind. destruct (decide (s = "")) as [->|Hs]; [done|].
  rewrite sanitize_step by done. destruct (DecodeRune_decoded s Hs) as [c s Hc|c s Hc|r s Hr Hr'];
    cbn [str_drop].
  - rewrite str_length_app. specialize (IH s). pose proof (EncodeRune_length (code c)). cbn in *. lia.
  - rewrite str_length_app. specialize (IH s). cbn in *. lia.
  - rewrite str_drop_app, !str_length_app. specialize (IH s). rewrite str_length_app in IH.
    pose proof (EncodeRune_length r). lia.
Qed.

(** A prefix of valid text keeps what follows it apart. *)
Lemma sanitize_app s t : valid_utf8 s → sanitize (s +:+ t) = s +:+ sanitize t.
Proof.
  induction s as [s IH] using str_len_ind. intros Hv. destruct (decide (s = "")) as [->|Hs]; [done|].
  unfold valid_utf8 in Hv. pose proof (DecodeRune_decoded s Hs) as Hd.
  rewrite sanitize_step in Hv by done. destruct Hd as [c s Hc|c s Hc|r s Hr Hr'].
  - cbn [str_drop] in Hv. destruct (scalar_ascii c Hc) as [? E]. rewrite E in Hv. cbn in Hv. simplify_eq.
    cbn [String.append]. rewrite sanitize_ascii by done. f_equal. apply IH; [cbn; lia|done].
  - exfalso. cbn [str_drop] in Hv. apply (f_equal String.length) in Hv.
    rewrite str_length_app in Hv. pose proof (sanitize_length s). cbn in Hv. lia.
  - rewrite str_drop_app in Hv. apply str_app_inj_l in Hv.
    rewrite str_app_assoc, sanitize_rune by done. rewrite IH; [by rewrite str_app_assoc| |done].
    rewrite str_length_app. pose proof (EncodeRune_length r). lia.
Qed.

Lemma valid_app s t : valid_utf8 s → valid_utf8 t → valid_utf8 (s +:+ t).
Proof. intros Hs Ht. unfold valid_utf8. by rewrite sanitize_app, Ht. Qed.

#[export] Hint Resolve valid_nil valid_rune valid_ascii valid_sanitize valid_app : butter.
