(* ===== verification/Json.v ===== *)
(** * encoding/json

    The part of Go's JSON codec the gateway relies on, executable: a parser
    that accepts exactly the texts the scanner of encoding/json accepts (nesting
    limit included) and keeps the raw text of object members, decoders into
    strings, booleans, integers, pointers, slices, [RawMessage] and structs with
    the package's rules (null is a no-op or a nil, later members win, field
    names match exactly or else case-insensitively, a mismatched type is
    remembered while decoding goes on), and the encoder for strings, raw values
    and maps with sorted keys. *)
From S2P Require Import Prelude GoStd.

(** ** Syntax *)

(** A parsed value.  Numbers and strings keep their literal text; an object
    member is its raw key, the raw text of its value and the value. *)
#[warnings="-register-all"] Inductive json : Type :=
| JNull
| JBool (b : bool)
| JNum (lit : string)
| JStr (raw : string)
| JArr (l : list json)
| JObj (l : list (string * string * json)).

Definition c_quote : ascii := byte_of 34.
Definition c_backslash : ascii := byte_of 92.

Definition is_json_space (c : ascii) : bool :=
  (code c =? 32) || (code c =? 9) || (code c =? 10) || (code c =? 13).

Fixpoint skip_ws (s : string) : string :=
  match s with
  | EmptyString => EmptyString
  | String c s' => if is_json_space c then skip_ws s' else s
  end.

Definition is_hex (c : ascii) : bool :=
  is_digit c || in_range 97 102 (code c) || in_range 65 70 (code c).

(** The one-letter escapes: b f n r t backslash slash quote. *)
Definition is_simple_escape (c : ascii) : bool :=
  existsb (λ d, code c =? d) [98; 102; 110; 114; 116; 92; 47; 34].

(** The body of a string literal after its opening quote: the raw text up to
    the closing quote and what follows it. *)
Fixpoint scan_string (s : string) : option (string * string) :=
  match s with
  | EmptyString => None
  | String c r =>
    if code c =? 34 then Some ("", r)
    else if code c =? 92 then
      match r with
      | EmptyString => None
      | String e r' =>
        if is_simple_escape e then
          '(raw, rest) ← scan_string r'; Some (String c (String e raw), rest)
        else if code e =? 117 then
          match r' with
          | String h1 (String h2 (String h3 (String h4 r''))) =>
            if is_hex h1 && is_hex h2 && is_hex h3 && is_hex h4 then
              '(raw, rest) ← scan_string r'';
              Some (String c (String e (String h1 (String h2
                      (String h3 (String h4 raw))))), rest)
            else None
          | _ => None
          end
        else None
      end
    else if code c <? 32 then None
    else '(raw, rest) ← scan_string r; Some (String c raw, rest)
  end.

Fixpoint span_digits (s : string) : string * string :=
  match s with
  | EmptyString => ("", "")
  | String c r =>
    if is_digit c then let '(d, rest) := span_digits r in (String c d, rest)
    else ("", s)
  end.

Definition digits1 (s : string) : option (string * string) :=
  match span_digits s with
  | (EmptyString, _) => None
  | p => Some p
  end.

(** Integer part: a single zero, or digits that do not start with one. *)
Definition scan_int (s : string) : option (string * string) :=
  match s with
  | String c r => if code c =? 48 then Some (String c "", r) else digits1 s
  | EmptyString => None
  end.

Definition scan_frac (s : string) : option (string * string) :=
  match s with
  | String c r =>
    if code c =? 46 then '(d, rest) ← digits1 r; Some (String c d, rest)
    else Some ("", s)
  | EmptyString => Some ("", "")
  end.

Definition scan_exp (s : string) : option (string * string) :=
  match s with
  | String c r =>
    if (code c =? 101) || (code c =? 69) then
      match r with
      | String g r' =>
        if (code g =? 43) || (code g =? 45)
        then '(d, rest) ← digits1 r'; Some (String c (String g d), rest)
        else '(d, rest) ← digits1 r; Some (String c d, rest)
      | EmptyString => None
      end
    else Some ("", s)
  | EmptyString => Some ("", "")
  end.

Definition scan_number (s : string) : option (string * string) :=
  let '(sign, s1) :=
    match s with
    | String c r => if code c =? 45 then (String c "", r) else ("", s)
    | EmptyString => ("", "")
    end in
  '(i, s2) ← scan_int s1;
  '(f, s3) ← scan_frac s2;
  '(e, s4) ← scan_exp s3;
  Some (sign +:+ i +:+ f +:+ e, s4).

(** encoding/json's [maxNestingDepth]. *)
Definition max_depth : Z := 10000.

(** The recursive-descent parser.  [parse_value] starts on the first byte of
    the value, [parse_elems] and [parse_members] before the whitespace of an
    element or member. *)
Fixpoint parse_value (fuel : nat) (depth : Z) (s : string)
  : option (json * string) :=
  match fuel with
  | O => None
  | S fuel' =>
    match s with
    | EmptyString => None
    | String c r =>
      if code c =? 34 then '(raw, rest) ← scan_string r; Some (JStr raw, rest)
      else if code c =? 123 then
        if max_depth <=? depth then None else
        match skip_ws r with
        | String d r' =>
          if code d =? 125 then Some (JObj [], r')
          else '(ms, rest) ← parse_members fuel' (depth + 1) r;
               Some (JObj ms, rest)
        | EmptyString => None
        end
      else if code c =? 91 then
        if max_depth <=? depth then None else
        match skip_ws r with
        | String d r' =>
          if code d =? 93 then Some (JArr [], r')
          else '(vs, rest) ← parse_elems fuel' (depth + 1) r;
               Some (JArr vs, rest)
        | EmptyString => None
        end
      else if HasPrefix s "true" then Some (JBool true, str_drop 4 s)
      else if HasPrefix s "false" then Some (JBool false, str_drop 5 s)
      else if HasPrefix s "null" then Some (JNull, str_drop 4 s)
      else '(lit, rest) ← scan_number s; Some (JNum lit, rest)
    end
  end
with parse_elems (fuel : nat) (depth : Z) (s : string)
  : option (list json * string) :=
  match fuel with
  | O => None
  | S fuel' =>
    '(v, r) ← parse_value fuel' depth (skip_ws s);
    match skip_ws r with
    | String c r' =>
      if code c =? 44 then
        '(vs, rest) ← parse_elems fuel' depth r'; Some (v :: vs, rest)
      else if code c =? 93 then Some ([v], r')
      else None
    | EmptyString => None
    end
  end
with parse_members (fuel : nat) (depth : Z) (s : string)
  : option (list (string * string * json) * string) :=
  match fuel with
  | O => None
  | S fuel' =>
    match skip_ws s with
    | String q r =>
      if negb (code q =? 34) then None else
      '(key, r1) ← scan_string r;
      match skip_ws r1 with
      | String col r2 =>
        if negb (code col =? 58) then None else
        let t := skip_ws r2 in
        '(v, r3) ← parse_value fuel' depth t;
        match skip_ws r3 with
        | String c r4 =>
          if code c =? 44 then
            '(ms, rest) ← parse_members fuel' depth r4;
            Some ((key, consumed t r3, v) :: ms, rest)
          else if code c =? 125 then Some ([(key, consumed t r3, v)], r4)
          else None
        | EmptyString => None
        end
      | EmptyString => None
      end
    | EmptyString => None
    end
  end.

(** Two calls per byte at most. *)
Definition parse_fuel (s : string) : nat := S (S (2 * String.length s)).

(** A whole document: one value between whitespace. *)
Definition parse (s : string) : option json :=
  let t := skip_ws s in
  '(v, rest) ← parse_value (parse_fuel t) 0 t;
  if decide (skip_ws rest = "") then Some v else None.

(** ** String literals *)

Definition hex_val (c : ascii) : Z :=
  if is_digit c then code c - 48
  else if in_range 97 102 (code c) then code c - 87
  else code c - 55.

Definition hex4 (h1 h2 h3 h4 : ascii) : Z :=
  ((hex_val h1 * 16 + hex_val h2) * 16 + hex_val h3) * 16 + hex_val h4.

Definition is_surrogate (r : Z) : bool := in_range 55296 57343 r.

(** [utf16.DecodeRune]: [None] where it returns the replacement character. *)
Definition surrogate_pair (r1 r2 : Z) : option Z :=
  if in_range 55296 56319 r1 && in_range 56320 57343 r2
  then Some ((r1 - 55296) * 1024 + (r2 - 56320) + 65536)
  else None.

Definition simple_escape_byte (e : ascii) : ascii :=
  if code e =? 98 then byte_of 8
  else if code e =? 102 then byte_of 12
  else if code e =? 110 then byte_of 10
  else if code e =? 114 then byte_of 13
  else if code e =? 116 then byte_of 9
  else e.

(** [unquote]: the string a raw literal body denotes.  Unpaired surrogates and
    invalid UTF-8 become U+FFFD. *)
Fixpoint unquote_fuel (fuel : nat) (s : string) : string :=
  match fuel with
  | O => ""
  | S fuel' =>
    match s with
    | EmptyString => ""
    | String c r =>
      if code c =? 92 then
        match r with
        | String e r' =>
          if code e =? 117 then
            match r' with
            | String h1 (String h2 (String h3 (String h4 r''))) =>
              let rr := hex4 h1 h2 h3 h4 in
              if is_surrogate rr then
                match r'' with
                | String b (String u (String k1 (String k2
                    (String k3 (String k4 r3))))) =>
                  match
                    (if (code b =? 92) && (code u =? 117)
                     then surrogate_pair rr (hex4 k1 k2 k3 k4) else None)
                  with
                  | Some full => EncodeRune full +:+ unquote_fuel fuel' r3
                  | None => EncodeRune rune_error +:+ unquote_fuel fuel' r''
                  end
                | _ => EncodeRune rune_error +:+ unquote_fuel fuel' r''
                end
              else EncodeRune rr +:+ unquote_fuel fuel' r''
            | _ => ""
            end
          else String (simple_escape_byte e) (unquote_fuel fuel' r')
        | EmptyString => ""
        end
      else if code c <? 128 then String c (unquote_fuel fuel' r)
      else let '(rn, n) := DecodeRune s in
           EncodeRune rn +:+ unquote_fuel fuel' (str_drop n s)
    end
  end.

Definition unquote (raw : string) : string :=
  unquote_fuel (S (String.length raw)) raw.

(** ** Field names *)

(** [foldName], for comparison with an ASCII name: letters in lower case, with
    the two characters outside ASCII that fold into it (U+017F and U+212A). *)
Fixpoint fold_name (s : string) : string :=
  match s with
  | EmptyString => ""
  | String a r1 =>
    match r1 with
    | String b r2 =>
      if (code a =? 197) && (code b =? 191) then String "s" (fold_name r2)
      else match r2 with
      | String c r3 =>
        if (code a =? 226) && (code b =? 132) && (code c =? 170)
        then String "k" (fold_name r3)
        else String (to_lower a) (fold_name r1)
      | EmptyString => String (to_lower a) (fold_name r1)
      end
    | EmptyString => String (to_lower a) ""
    end
  end.

(** The field a key selects: the exact name first, else the folded one. *)
Definition find_field {A} (fields : list (string * A)) (key : string)
  : option A :=
  match list_find (λ f, f.1 = key) fields with
  | Some (_, f) => Some f.2
  | None =>
    (λ p, p.2.2) <$> list_find (λ f, fold_name f.1 = fold_name key) fields
  end.

(** ** Decoding

    A decoder takes the value, its raw text and the variable decoded into; it
    returns the updated variable and whether no type error occurred. *)

Definition dec (T : Type) : Type := json → string → T → T * bool.

Definition dec_string : dec string := λ j _ t,
  match j with
  | JNull => (t, true)
  | JStr raw => (unquote raw, true)
  | _ => (t, false)
  end.

Definition dec_bool : dec bool := λ j _ t,
  match j with
  | JNull => (t, true)
  | JBool b => (b, true)
  | _ => (t, false)
  end.

Fixpoint digits_val (acc : Z) (s : string) : Z :=
  match s with
  | EmptyString => acc
  | String c r => digits_val (acc * 10 + (code c - 48)) r
  end.

(** [strconv.ParseInt(lit, 10, 64)] on a JSON number literal. *)
Definition parse_int64 (lit : string) : option Z :=
  let '(neg, d) :=
    match lit with
    | String c r => if code c =? 45 then (true, r) else (false, lit)
    | EmptyString => (false, "")
    end in
  if negb (str_forallb is_digit d) then None else
  if decide (d = "") then None else
  let z := digits_val 0 d in
  let z := if (neg : bool) then - z else z in
  if decide (in_int64 z) then Some z else None.

Definition dec_int64 : dec Z := λ j _ t,
  match j with
  | JNull => (t, true)
  | JNum lit => match parse_int64 lit with
                | Some z => (z, true)
                | None => (t, false)
                end
  | _ => (t, false)
  end.

(** A pointer: null stores nil, anything else decodes into a fresh or the
    present target. *)
Definition dec_ptr {T} (zero : T) (d : dec T) : dec (option T) := λ j raw t,
  match j with
  | JNull => (None, true)
  | _ => let '(v, ok) := d j raw (default zero t) in (Some v, ok)
  end.

(** [json.RawMessage] keeps the text, null included. *)
Definition dec_raw : dec slice := λ _ raw _, (Some raw, true).

(** An element decodes into the one the variable has at its index ([old], the
    contents an earlier member of the same name left), else into a new one. *)
Fixpoint dec_list_go {T} (zero : T) (d : dec T) (l : list json) (old : list T)
  : list T * bool :=
  match l with
  | [] => ([], true)
  | j :: l' =>
    let '(v, ok) := d j "" (hd zero old) in
    let '(vs, ok') := dec_list_go zero d l' (tl old) in
    (v :: vs, ok && ok')
  end.

(** A slice: null stores nil, an array sets the contents.  The elements between
    the length and the capacity of a slice cut short by one member are not kept
    for the next. *)
Definition dec_slice {T} (zero : T) (d : dec T) : dec (option (list T)) :=
  λ j _ t,
  match j with
  | JNull => (None, true)
  | JArr l => let '(vs, ok) := dec_list_go zero d l (default [] t) in (Some vs, ok)
  | _ => (t, false)
  end.

Fixpoint dec_members {T} (fields : list (string * dec T))
  (ms : list (string * string * json)) (t : T) (ok : bool) : T * bool :=
  match ms with
  | [] => (t, ok)
  | (key, raw, v) :: ms' =>
    match find_field fields (unquote key) with
    | Some d => let '(t', ok') := d v raw t in dec_members fields ms' t' (ok && ok')
    | None => dec_members fields ms' t ok
    end
  end.

Definition dec_struct {T} (fields : list (string * dec T)) : dec T := λ j _ t,
  match j with
  | JNull => (t, true)
  | JObj ms => dec_members fields ms t true
  | _ => (t, false)
  end.

(** [field set get d] focuses a decoder on one field of a struct. *)
Definition field {S T} (get : S → T) (set : T → S → S) (d : dec T) : dec S :=
  λ j raw s, let '(v, ok) := d j raw (get s) in (set v s, ok).

(** [map[string]json.RawMessage]: [None] is the nil map. *)
Definition dec_rawmap : dec (option (gmap string string)) := λ j _ t,
  match j with
  | JNull => (None, true)
  | JObj ms =>
    (Some (foldl (λ m '(key, raw, _), <[unquote key := raw]> m)
             (default ∅ t) ms), true)
  | _ => (t, false)
  end.

(** [json.Unmarshal(data, &t)]: the variable afterwards and whether the error
    is nil.  A syntax error leaves the variable untouched. *)
Definition Unmarshal {T} (d : dec T) (data : string) (t : T) : T * bool :=
  match parse data with
  | None => (t, false)
  | Some j => d j (skip_ws data) t
  end.

(** ** Encoding *)

Definition hex_digit (z : Z) : ascii :=
  if z <? 10 then byte_of (48 + z) else byte_of (87 + z).

Definition u_escape (c : ascii) : string :=
  String c_backslash ("u00" +:+
    String (hex_digit (code c / 16)) (String (hex_digit (code c mod 16)) "")).

Definition is_html (c : ascii) : bool :=
  (code c =? 60) || (code c =? 62) || (code c =? 38).

(** [appendString] with HTML escaping on, without the surrounding quotes. *)
Fixpoint encode_fuel (fuel : nat) (s : string) : string :=
  match fuel with
  | O => ""
  | S fuel' =>
    match s with
    | EmptyString => ""
    | String c r =>
      if code c <? 128 then
        (if (code c =? 34) || (code c =? 92)
         then String c_backslash (String c "")
         else if code c =? 8 then String c_backslash "b"
         else if code c =? 12 then String c_backslash "f"
         else if code c =? 10 then String c_backslash "n"
         else if code c =? 13 then String c_backslash "r"
         else if code c =? 9 then String c_backslash "t"
         else if (code c <? 32) || is_html c then u_escape c
         else String c "") +:+ encode_fuel fuel' r
      else
        let '(rn, n) := DecodeRune s in
        if (rn =? rune_error) && (n =? 1)%nat
        then String c_backslash "ufffd" +:+ encode_fuel fuel' r
        else if rn =? 8232 then String c_backslash "u2028" +:+ encode_fuel fuel' (str_drop n s)
        else if rn =? 8233 then String c_backslash "u2029" +:+ encode_fuel fuel' (str_drop n s)
        else str_take n s +:+ encode_fuel fuel' (str_drop n s)
    end
  end.

Definition encode_string (s : string) : string :=
  String c_quote (encode_fuel (String.length s) s +:+ String c_quote "").

(** [compact] with HTML escaping on, for a raw value: drops the whitespace
    between tokens and escapes the HTML bytes and U+2028/U+2029. *)
Fixpoint compact_go (in_str esc : bool) (s : string) : string :=
  match s with
  | EmptyString => ""
  | String c r =>
    if is_html c then u_escape c +:+ compact_go in_str false r
    else match s with
    | String a (String b (String d r')) =>
      if (code a =? 226) && (code b =? 128) && in_range 168 169 (code d)
      then String c_backslash ("u202" +:+ String (hex_digit (code d - 160))
             (compact_go in_str false r'))
      else if negb in_str && is_json_space c then compact_go false false r
      else String c (compact_go (if in_str then esc || negb (code c =? 34)
                                 else code c =? 34)
                       (in_str && negb esc && (code c =? 92)) r)
    | _ =>
      if negb in_str && is_json_space c then compact_go false false r
      else String c (compact_go (if in_str then esc || negb (code c =? 34)
                                 else code c =? 34)
                       (in_str && negb esc && (code c =? 92)) r)
    end
  end.

Definition compact (s : string) : string := compact_go false false s.

Fixpoint insert_member (p : string * string) (l : list (string * string))
  : list (string * string) :=
  match l with
  | [] => [p]
  | q :: l' => if String.leb p.1 q.1 then p :: l else q :: insert_member p l'
  end.

Definition sort_members (l : list (string * string)) : list (string * string) :=
  foldr insert_member [] l.

(** [json.Marshal] of a [map[string]json.RawMessage]: members in key order. *)
Definition encode_rawmap (m : gmap string string) : string :=
  String "{" (Join ((λ p, encode_string p.1 +:+ String ":" (compact p.2))
                      <$> sort_members (map_to_list m)) "," +:+ "}").

(** ** The scanner consumes what it returns *)

Definition is_number_byte (c : ascii) : bool :=
  is_digit c || existsb (λ d, code c =? d) [43; 45; 46; 69; 101].

Lemma span_digits_spec s d r :
  span_digits s = (d, r) → s = d +:+ r ∧ str_forallb is_digit d = true.
Proof.
  revert d r. induction s as [|c s IH]; intros d r; simpl; [by intros [= <- <-]|].
  destruct (is_digit c) eqn:Hc; [|by intros [= <- <-]].
  destruct (span_digits s) as [d' r']. intros [= <- <-].
  destruct (IH d' r') as [-> ?]; [done|]. simpl. by rewrite Hc.
Qed.

Lemma digits1_spec s d r :
  digits1 s = Some (d, r) →
  s = d +:+ r ∧ str_forallb is_number_byte d = true ∧ d ≠ "".
Proof.
  unfold digits1. destruct (span_digits s) as [d' r'] eqn:E. intros H.
  apply span_digits_spec in E as [-> Hd]. destruct d'; simplify_eq.
  split; [done|]. split; [|done]. apply (str_forallb_impl is_digit); [|done].
  intros c' Hc. unfold is_number_byte. by rewrite Hc.
Qed.

Ltac number_step :=
  match goal with
  | H : (_ ← digits1 _; _) = Some _ |- _ =>
    apply bind_Some in H as [[? ?] [[-> [? _]]%digits1_spec ?]]; simplify_eq/=
  | H : digits1 _ = Some _ |- _ => apply digits1_spec in H as [-> [? _]]; simpl
  end.

Lemma scan_int_spec s i r :
  scan_int s = Some (i, r) →
  s = i +:+ r ∧ str_forallb is_number_byte i = true ∧ i ≠ "".
Proof.
  destruct s as [|c s]; simpl; [done|]. destruct (Z.eqb_spec (code c) 48) as [Hc|?].
  - intros [= <- <-]. simpl. split_and!; [done| |done].
    unfold is_number_byte, is_digit, in_range. by rewrite Hc.
  - intros H. by apply digits1_spec in H.
Qed.

Lemma scan_frac_spec s i r :
  scan_frac s = Some (i, r) → s = i +:+ r ∧ str_forallb is_number_byte i = true.
Proof.
  destruct s as [|c s]; simpl; [by intros [= <- <-]|].
  destruct (Z.eqb_spec (code c) 46) as [Hc|?]; [|by intros [= <- <-]].
  intros H. number_step. split; [done|].
  apply andb_true_intro; split; [|done]. unfold is_number_byte. rewrite Hc. by rewrite orb_true_r.
Qed.

Lemma scan_exp_spec s i r :
  scan_exp s = Some (i, r) → s = i +:+ r ∧ str_forallb is_number_byte i = true.
Proof.
  destruct s as [|c s]; simpl; [by intros [= <- <-]|].
  destruct ((code c =? 101) || (code c =? 69)) eqn:Hc; [|by intros [= <- <-]].
  assert (is_number_byte c = true) as Hn
    by (unfold is_number_byte; simpl; lia).
  destruct s as [|g s]; [done|].
  destruct ((code g =? 43) || (code g =? 45)) eqn:Hg; intros H; number_step;
    rewrite Hn; simpl; [|done].
  split; [done|]. apply andb_true_intro; split; [|done].
  unfold is_number_byte; simpl; lia.
Qed.

Lemma scan_number_spec s lit r :
  scan_number s = Some (lit, r) →
  s = lit +:+ r ∧ str_forallb is_number_byte lit = true ∧ lit ≠ "".
Proof.
  unfold scan_number. intros H.
  set (p := match s with
            | String c r => if code c =? 45 then (String c "", r) else ("", s)
            | EmptyString => ("", "") end) in H.
  assert (s = p.1 +:+ p.2 ∧ str_forallb is_number_byte p.1 = true) as [Hs Hp].
  { subst p. destruct s as [|c s']; [done|]. destruct (Z.eqb_spec (code c) 45) as [Hc|]; [|done].
    simpl. split; [done|]. unfold is_number_byte. rewrite Hc. by rewrite orb_true_r. }
  destruct p as [sign s1]; simpl in *. subst s.
  apply bind_Some in H as [[i s2] [[-> [Hi Hne]]%scan_int_spec H]].
  apply bind_Some in H as [[f s3] [[-> Hf]%scan_frac_spec H]].
  apply bind_Some in H as [[e s4] [[-> He]%scan_exp_spec H]]. simplify_eq/=.
  rewrite !str_app_assoc, !str_forallb_app. split_and!; [done| |].
  - by rewrite Hp, Hi, Hf, He.
  - by destruct sign, i.
Qed.

(** Sorting the members of a map keeps them. *)
Lemma insert_member_perm p l : insert_member p l ≡ₚ p :: l.
Proof.
  induction l as [|q l IH]; simpl; [done|]. case_match; [done|].
  by rewrite IH, Permutation_swap.
Qed.

Lemma sort_members_perm l : sort_members l ≡ₚ l.
Proof. induction l as [|p l IH]; simpl; [done|]. by rewrite insert_member_perm, IH. Qed.
