(* ===== verification/GoUrl.v ===== *)
(** * net/url queries

    [url.ParseQuery] and [Values.Encode], and where a URL's query starts.  The
    limit on the number of parameters of a query is not modelled. *)
From S2P Require Import Prelude GoStd Json.

(** The URL up to its query, and the query; what follows a number sign is not
    sent. *)
Definition cut_fragment (url : string) : string :=
  match cut_byte "#" url with Some (u, _) => u | None => url end.

Definition cut_query (url : string) : string * string :=
  match cut_byte "?" (cut_fragment url) with
  | Some (u, q) => (u, q)
  | None => (cut_fragment url, "")
  end.

(** ** Escaping *)

Definition hex_upper (z : Z) : ascii := if z <? 10 then byte_of (48 + z) else byte_of (55 + z).

Definition is_unreserved (c : ascii) : bool :=
  is_upper c || is_lower c || is_digit c || existsb (λ d, code c =? d) [45; 95; 46; 126].

Fixpoint QueryEscape (s : string) : string :=
  match s with
  | EmptyString => ""
  | String c r =>
    if is_unreserved c then String c (QueryEscape r)
    else if code c =? 32 then String "+" (QueryEscape r)
    else String "%" (String (hex_upper (code c / 16)) (String (hex_upper (code c mod 16)) (QueryEscape r)))
  end.

Fixpoint QueryUnescape (s : string) : option string :=
  match s with
  | EmptyString => Some ""
  | String c r =>
    if code c =? 37 then
      match r with
      | String h1 (String h2 r') =>
        if is_hex h1 && is_hex h2
        then String (byte_of (hex_val h1 * 16 + hex_val h2)) <$> QueryUnescape r'
        else None
      | _ => None
      end
    else if code c =? 43 then String " " <$> QueryUnescape r
    else String c <$> QueryUnescape r
  end.

(** ** Values *)

Abbreviation Values := (gmap string (list string)).

(** One parameter; those with a semicolon or a bad escape are dropped. *)
Definition parse_param (m : Values) (p : string) : Values :=
  if Contains p ";" then m
  else if decide (p = "") then m
  else
    let '(k, v) := match cut_byte "=" p with Some kv => kv | None => (p, "") end in
    match QueryUnescape k, QueryUnescape v with
    | Some k, Some v => <[k := default [] (m !! k) ++ [v]]> m
    | _, _ => m
    end.

Definition ParseQuery (q : string) : Values := foldl parse_param ∅ (Split q "&").

Definition encode_param (k v : string) : string := QueryEscape k +:+ String "=" (QueryEscape v).

(** The keys in order. *)
Fixpoint insert_key (k : string) (l : list string) : list string :=
  match l with
  | [] => [k]
  | k' :: l' => if String.leb k k' then k :: l else k' :: insert_key k l'
  end.
Definition sorted_keys (m : Values) : list string := foldr insert_key [] (elements (dom m)).

Definition Encode (m : Values) : string :=
  Join (flat_map (λ k, encode_param k <$> default [] (m !! k)) (sorted_keys m)) "&".

Definition values_set (m : Values) (k v : string) : Values := <[k := [v]]> m.

(** ** Round trip *)

Lemma hex_upper_spec z : 0 <= z < 16 → is_hex (hex_upper z) = true ∧ hex_val (hex_upper z) = z.
Proof.
  intros Hz. unfold hex_upper, is_hex, hex_val, is_digit, in_range.
  destruct (Z.ltb_spec z 10); rewrite code_byte_of by lia; (split; [lia|]).
  - destruct ((48 <=? 48 + z) && (48 + z <=? 57)) eqn:E; lia.
  - destruct ((48 <=? 55 + z) && (55 + z <=? 57)) eqn:E; [lia|].
    destruct ((97 <=? 55 + z) && (55 + z <=? 102)) eqn:E2; lia.
Qed.

Lemma QueryUnescape_Escape s : QueryUnescape (QueryEscape s) = Some s.
Proof.
  induction s as [|c s IH]; [done|]. cbn [QueryEscape]. pose proof (code_range c).
  destruct (is_unreserved c) eqn:Hu; [|destruct (Z.eqb_spec (code c) 32) as [Hs|Hs]].
  - cbn [QueryUnescape]. rewrite IH. unfold is_unreserved, is_upper, is_lower, is_digit, in_range in Hu.
    cbn [existsb] in Hu. by rewrite !(proj2 (Z.eqb_neq _ _)) by lia.
  - cbn [QueryUnescape]. rewrite IH. change (code "+" =? 37) with false. change (code "+" =? 43) with true.
    cbn. f_equal. f_equal. apply code_inj. by rewrite Hs.
  - cbn [QueryUnescape]. change (code "%" =? 37) with true. cbn iota.
    destruct (hex_upper_spec (code c / 16)) as [-> ->]; [Z.div_mod_to_equations; lia|].
    destruct (hex_upper_spec (code c mod 16)) as [-> ->]; [Z.div_mod_to_equations; lia|].
    cbn [andb]. rewrite IH. cbn. f_equal. f_equal. apply code_inj.
    rewrite code_byte_of; Z.div_mod_to_equations; lia.
Qed.

(** Escaped text has none of the separators. *)
Definition no_sep (c : ascii) : bool := negb (code c =? 38) && negb (code c =? 61) && negb (code c =? 59).

Lemma hex_upper_no_sep z : 0 <= z < 16 → no_sep (hex_upper z) = true.
Proof. intros. unfold no_sep, hex_upper. destruct (Z.ltb_spec z 10); rewrite code_byte_of by lia; lia. Qed.

Lemma QueryEscape_no_sep s : str_forallb no_sep (QueryEscape s) = true.
Proof.
  induction s as [|c s IH]; [done|]. cbn [QueryEscape]. pose proof (code_range c).
  destruct (is_unreserved c) eqn:Hu; [|destruct (code c =? 32)]; cbn [str_forallb]; rewrite ?IH.
  - unfold is_unreserved, is_upper, is_lower, is_digit, in_range in Hu. cbn [existsb] in Hu. unfold no_sep. lia.
  - done.
  - rewrite !hex_upper_no_sep by (Z.div_mod_to_equations; lia). done.
Qed.

Lemma Contains_none s (c : ascii) : str_forallb (λ d, negb (code d =? code c)) s = true →
  Contains s (String c "") = false.
Proof.
  induction s as [|d s IH]; [done|]. cbn [str_forallb]. intros [Hd Hs]%andb_prop.
  cbn [Contains String.prefix]. destruct (ascii_dec c d) as [->|]; [by rewrite Z.eqb_refl in Hd|]. cbn. auto.
Qed.

Lemma cut_byte_app (c : ascii) s t : str_forallb (λ d, negb (code d =? code c)) s = true →
  cut_byte c (s +:+ String c t) = Some (s, t).
Proof.
  induction s as [|d s IH]; cbn [str_forallb String.append cut_byte].
  - intros _. by destruct (ascii_dec c c).
  - intros [Hd Hs]%andb_prop. destruct (ascii_dec c d) as [->|]; [by rewrite Z.eqb_refl in Hd|].
    by rewrite IH.
Qed.

Lemma Split_one s (c : ascii) : str_forallb (λ d, negb (code d =? code c)) s = true → Split s c = [s].
Proof.
  induction s as [|d s IH]; [done|]. cbn [str_forallb Split]. intros [Hd Hs]%andb_prop.
  destruct (ascii_dec d c) as [->|]; [by rewrite Z.eqb_refl in Hd|]. by rewrite IH.
Qed.

Lemma Split_first s t (c : ascii) : str_forallb (λ d, negb (code d =? code c)) s = true →
  Split (s +:+ String c t) c = s :: Split t c.
Proof.
  induction s as [|d s IH]; cbn [str_forallb String.append Split].
  - intros _. by destruct (ascii_dec c c).
  - intros [Hd Hs]%andb_prop. destruct (ascii_dec d c) as [->|]; [by rewrite Z.eqb_refl in Hd|]. by rewrite IH.
Qed.

Lemma Split_Join l (c : ascii) : l ≠ [] →
  Forall (λ s, str_forallb (λ d, negb (code d =? code c)) s = true) l →
  Split (Join l (String c "")) c = l.
Proof.
  intros Hne Hl. unfold Join. induction Hl as [|s l Hs Hl IH]; [done|]. cbn [String.concat].
  destruct l as [|s' l]; [by apply Split_one|]. cbn [String.append].
  rewrite Split_first by done. f_equal. by apply IH.
Qed.

Lemma encode_param_sep k v (c : ascii) : code c = 38 ∨ code c = 59 →
  str_forallb (λ d, negb (code d =? code c)) (encode_param k v) = true.
Proof.
  intros Hc. unfold encode_param. rewrite str_forallb_app. cbn [str_forallb].
  assert (∀ s, str_forallb (λ d, negb (code d =? code c)) (QueryEscape s) = true) as Hs.
  { intros s. eapply str_forallb_impl, QueryEscape_no_sep. intros d. unfold no_sep. lia. }
  rewrite !Hs. change (code "=") with 61. lia.
Qed.

Lemma parse_param_encode m k v : parse_param m (encode_param k v) = <[k := default [] (m !! k) ++ [v]]> m.
Proof.
  unfold parse_param. rewrite Contains_none by (apply encode_param_sep; by right).
  destruct (decide (encode_param k v = "")) as [E|_].
  { exfalso. apply (f_equal String.length) in E. unfold encode_param in E. rewrite str_length_app in E. cbn in E. lia. }
  unfold encode_param. rewrite cut_byte_app.
  - by rewrite !QueryUnescape_Escape.
  - eapply str_forallb_impl, QueryEscape_no_sep. intros d. unfold no_sep. change (code "=") with 61. lia.
Qed.

Lemma parse_params_key k vs m :
  foldl parse_param m (encode_param k <$> vs) =
    if decide (vs = []) then m else <[k := default [] (m !! k) ++ vs]> m.
Proof.
  revert m. induction vs as [|v vs IH]; intros m; [done|]. cbn [fmap list_fmap foldl].
  rewrite parse_param_encode, IH, (decide_False (P := v :: vs = [])) by done. case_decide as E; [by subst|].
  rewrite lookup_insert_eq, insert_insert_eq. cbn. by rewrite <-app_assoc.
Qed.

Lemma insert_key_perm k l : insert_key k l ≡ₚ k :: l.
Proof. induction l as [|k' l IH]; cbn; [done|]. case_match; [done|]. by rewrite IH, Permutation_swap. Qed.

Lemma sorted_keys_perm m : sorted_keys m ≡ₚ elements (dom m).
Proof.
  unfold sorted_keys. induction (elements (dom m)) as [|k l IH]; cbn; [done|]. by rewrite insert_key_perm, IH.
Qed.

Lemma parse_params_keys (m : Values) l : ∀ m0 : Values, NoDup l →
  ∀ k, foldl parse_param m0 (flat_map (λ k, encode_param k <$> default [] (m !! k)) l) !! k =
    if decide (k ∈ l ∧ default [] (m !! k) ≠ []) then Some (default [] (m0 !! k) ++ default [] (m !! k))
    else m0 !! k.
Proof.
  induction l as [|k0 l IH]; intros m0 Hnd k; cbn [flat_map].
  { rewrite decide_False; [done|]. intros [?%elem_of_nil _]. done. }
  apply list.NoDup_cons in Hnd as [Hk0 Hnd]. rewrite foldl_app, IH, parse_params_key by done.
  destruct (decide (k = k0)) as [->|Hne].
  - rewrite (decide_False (P := k0 ∈ l ∧ _)) by (intros [? _]; done).
    generalize (default [] (m !! k0)) as vs. intros vs.
    destruct (decide (vs = [])) as [->|Hvs].
    + case_decide as Hk; [|done]. by destruct Hk.
    + rewrite lookup_insert_eq. case_decide as Hk; [done|]. destruct Hk. split; [by left|done].
  - assert ((if decide (default [] (m !! k0) = []) then m0
      else <[k0 := default [] (m0 !! k0) ++ default [] (m !! k0)]> m0) !! k = m0 !! k) as ->.
    { case_decide; [done|]. by rewrite lookup_insert_ne. }
    apply decide_ext. rewrite elem_of_cons. naive_solver.
Qed.

(** Encoding values and parsing them again. *)
Theorem ParseQuery_Encode (m : Values) : map_Forall (λ _ vs, vs ≠ []) m → ParseQuery (Encode m) = m.
Proof.
  intros Hm. unfold ParseQuery, Encode. set (ps := flat_map _ (sorted_keys m)).
  assert (foldl parse_param ∅ (Split (Join ps "&") "&") = foldl parse_param ∅ ps) as ->.
  { destruct (decide (ps = [])) as [->|Hne]; [done|]. rewrite Split_Join; [done|done|].
    subst ps. rewrite list.Forall_forall. intros s (k & _ & Hs)%list_elem_of_In%in_flat_map.
    apply list_elem_of_In, list_elem_of_fmap in Hs as (v & -> & _). apply encode_param_sep. by left. }
  apply map_eq. intros k. subst ps.
  rewrite parse_params_keys by (rewrite sorted_keys_perm; apply NoDup_elements).
  rewrite lookup_empty. destruct (m !! k) as [vs|] eqn:E; cbn.
  - rewrite decide_True; [done|]. split; [|by eapply Hm]. rewrite sorted_keys_perm, elem_of_elements.
    by apply elem_of_dom_2 in E.
  - rewrite decide_False; [done|]. by intros [_ ?].
Qed.

(** Values that come from a query have an entry for every key. *)
Lemma ParseQuery_nonempty q : map_Forall (λ _ vs, vs ≠ []) (ParseQuery q).
Proof.
  unfold ParseQuery. assert (map_Forall (λ _ (vs : list string), vs ≠ []) (∅ : Values)) as H0 by done.
  revert H0. generalize (∅ : Values). induction (Split q "&") as [|p l IH]; intros m Hm; [done|].
  apply IH. unfold parse_param. repeat case_match; try done;
    (apply map_Forall_insert_2; [|done]); by intros [_ ?]%app_eq_nil.
Qed.
