(* ===== verification/Config.v ===== *)
(** * Configuration (internal/config/config.go, internal/config/watcher.go)

    The configuration tree, the expansion of environment references in the
    file, the defaults, and the watcher that polls the file.

    The YAML decoder is a parameter, the environment a map, the file system a
    sequence of observations.  Durations are nanoseconds; a float64 is a
    [spec_float] of precision 53 and maximal exponent 1024. *)
From Stdlib Require Export SpecFloat.
From S2P Require Import Prelude GoStd.

(** ** The tree *)

Definition second : Z := 1000000000.
Definition millisecond : Z := 1000000.

Abbreviation float64 := spec_float.
Definition f64_of_Z (z : Z) : float64 := binary_normalize 53 1024 z 0 false.
Definition f64_mul : float64 → float64 → float64 := SFmul 53 1024.

Record AppKeyPersistence := mkPersistence {
  ap_Enabled : bool;
  ap_Path : string;
  ap_FlushInterval : Z
}.

Record AppKeyEntry := mkAppKeyEntry {
  ae_Key : string;
  ae_Label : string;
  ae_AllowedModels : list string;
  ae_AllowedProviders : list string
}.

Record AppKeysConfig := mkAppKeys {
  ak_Enabled : bool;
  ak_RequireKey : bool;
  ak_Header : string;
  ak_DefaultTTL : Z;
  ak_Keys : list AppKeyEntry;
  ak_Persistence : AppKeyPersistence
}.

Record WASMPluginConfig := mkWASM {
  wp_Name : string;
  wp_Path : string;
  wp_Config : gmap string string;
  wp_Timeout : Z;
  wp_MaxPages : Z
}.

Definition DefaultWASMTimeout : Z := 5 * second.
Definition DefaultWASMMaxPages : Z := 512.

Record RedisConfig := mkRedis {
  rd_Address : string;
  rd_Password : string;
  rd_DB : Z;
  rd_KeyPrefix : string
}.

Record CacheConfig := mkCacheConfig {
  cc_Enabled : bool;
  cc_Backend : string;
  cc_TTL : Z;
  cc_MaxEntries : Z;
  cc_Redis : RedisConfig
}.

Record ServerConfig := mkServer {
  sv_Address : string;
  sv_ReadTimeout : Z;
  sv_WriteTimeout : Z;
  sv_ReadHeaderTimeout : Z;
  sv_IdleTimeout : Z;
  sv_MaxHeaderBytes : Z;
  sv_MaxRequestBytes : Z
}.

Definition DefaultMaxRequestBytes : Z := 32 * 2 ^ 20.
Definition DefaultReadHeaderTimeout : Z := 10 * second.
Definition DefaultIdleTimeout : Z := 120 * second.
Definition DefaultMaxHeaderBytes : Z := 2 ^ 20.

Record KeyConfig := mkKey {
  k_Key : string;
  k_Weight : Z;
  k_Models : list string
}.

Record ProviderConfig := mkProviderConfig {
  pc_BaseURL : string;
  pc_Keys : list KeyConfig;
  pc_CredentialMode : string;
  pc_Region : string;
  pc_AWSProfile : string;
  pc_ModelMap : gmap string string;
  pc_APIVersion : string
}.

Record ModelRoute := mkRoute {
  rt_Providers : list string;
  rt_Strategy : string
}.

Record BackoffConfig := mkBackoff {
  bo_Initial : Z;
  bo_Multiplier : float64;
  bo_Max : Z
}.

Record FailoverConfig := mkFailover {
  fo_Enabled : bool;
  fo_MaxRetries : Z;
  fo_Backoff : BackoffConfig;
  fo_RetryOn : list Z
}.

Record RoutingConfig := mkRouting {
  rc_DefaultProvider : string;
  rc_Models : gmap string ModelRoute;
  rc_Failover : FailoverConfig
}.

(** [Config], without the settings of the built-in plugins, which only the
    plugins read. *)
Record Config := mkConfig {
  Server : ServerConfig;
  Providers : gmap string ProviderConfig;
  Routing : RoutingConfig;
  WASMPlugins : list WASMPluginConfig;
  CacheCfg : CacheConfig;
  AppKeys : AppKeysConfig
}.

(** ** Defaults *)

(** A field at its zero value takes the default. *)
Definition or_int (x d : Z) : Z := if x =? 0 then d else x.
Definition or_str (x d : string) : string := if decide (x = "") then d else x.
Definition or_float (x d : float64) : float64 := if SFeqb x (S754_zero false) then d else x.

Definition default_server (s : ServerConfig) : ServerConfig :=
  mkServer (or_str s.(sv_Address) ":8080")
    (or_int s.(sv_ReadTimeout) (30 * second))
    (or_int s.(sv_WriteTimeout) (120 * second))
    (or_int s.(sv_ReadHeaderTimeout) DefaultReadHeaderTimeout)
    (or_int s.(sv_IdleTimeout) DefaultIdleTimeout)
    (or_int s.(sv_MaxHeaderBytes) DefaultMaxHeaderBytes)
    (or_int s.(sv_MaxRequestBytes) DefaultMaxRequestBytes).

Definition default_failover (f : FailoverConfig) : FailoverConfig :=
  mkFailover f.(fo_Enabled) (or_int f.(fo_MaxRetries) 3)
    (mkBackoff (or_int f.(fo_Backoff).(bo_Initial) (100 * millisecond))
       (or_float f.(fo_Backoff).(bo_Multiplier) (f64_of_Z 2))
       (or_int f.(fo_Backoff).(bo_Max) (5 * second)))
    f.(fo_RetryOn).

Definition default_cache (c : CacheConfig) : CacheConfig :=
  if negb c.(cc_Enabled) then c else
  let backend := or_str c.(cc_Backend) "memory" in
  let r := c.(cc_Redis) in
  mkCacheConfig c.(cc_Enabled) backend (or_int c.(cc_TTL) (300 * second))
    (if decide (backend = "memory") then or_int c.(cc_MaxEntries) 10000 else c.(cc_MaxEntries))
    (if decide (backend = "redis")
     then mkRedis r.(rd_Address) r.(rd_Password) r.(rd_DB) (or_str r.(rd_KeyPrefix) "butter:")
     else r).

Definition default_persistence (p : AppKeyPersistence) : AppKeyPersistence :=
  if negb p.(ap_Enabled) then p else
  mkPersistence p.(ap_Enabled) (or_str p.(ap_Path) "butter-appkeys.db")
    (or_int p.(ap_FlushInterval) (30 * second)).

Definition default_appkeys (a : AppKeysConfig) : AppKeysConfig :=
  mkAppKeys a.(ak_Enabled) a.(ak_RequireKey) (or_str a.(ak_Header) "X-Butter-App-Key")
    a.(ak_DefaultTTL) a.(ak_Keys) (default_persistence a.(ak_Persistence)).

Definition default_wasm (w : WASMPluginConfig) : WASMPluginConfig :=
  mkWASM w.(wp_Name) w.(wp_Path) w.(wp_Config)
    (or_int w.(wp_Timeout) DefaultWASMTimeout) (or_int w.(wp_MaxPages) DefaultWASMMaxPages).

Definition default_key (k : KeyConfig) : KeyConfig :=
  mkKey k.(k_Key) (or_int k.(k_Weight) 1) k.(k_Models).

Definition default_provider (p : ProviderConfig) : ProviderConfig :=
  mkProviderConfig p.(pc_BaseURL) (default_key <$> p.(pc_Keys))
    (or_str p.(pc_CredentialMode) "stored") p.(pc_Region) p.(pc_AWSProfile)
    p.(pc_ModelMap) p.(pc_APIVersion).

Definition applyDefaults (c : Config) : Config :=
  mkConfig (default_server c.(Server)) (default_provider <$> c.(Providers))
    (mkRouting c.(Routing).(rc_DefaultProvider) c.(Routing).(rc_Models)
       (default_failover c.(Routing).(rc_Failover)))
    (default_wasm <$> c.(WASMPlugins)) (default_cache c.(CacheCfg))
    (default_appkeys c.(AppKeys)).

(** ** Environment references *)

Definition brace : ascii := byte_of 125.
Definition newline : ascii := byte_of 10.

(** The leftmost match of the expression for a reference at the start of a
    text: the name, and what follows the closing brace. *)
Definition match_ref (s : string) : option (string * string) :=
  if HasPrefix s "${" then
    match cut_byte brace (str_drop 2 s) with
    | Some (EmptyString, _) | None => None
    | Some (name, rest) => Some (name, rest)
    end
  else None.

(** [ReplaceAllStringFunc] on one line: the line with the references of set
    variables replaced, and the names of the others as they come. *)
Fixpoint replace_fuel (fuel : nat) (env : gmap string string) (s : string)
  : string * list string :=
  match fuel, s with
  | S fuel', String c s' =>
    match match_ref s with
    | Some (name, rest) =>
      let '(out, miss) := replace_fuel fuel' env rest in
      match env !! name with
      | Some val => (val +:+ out, miss)
      | None => ("${" +:+ name +:+ "}" +:+ out, name :: miss)
      end
    | None => let '(out, miss) := replace_fuel fuel' env s' in (String c out, miss)
    end
  | _, _ => (s, [])
  end.

Definition replace_line (env : gmap string string) (s : string) : string * list string :=
  replace_fuel (String.length s) env s.

Definition is_comment (line : string) : bool := HasPrefix (TrimSpace line) "#".

(** The loop over the lines, with the names already reported. *)
Fixpoint expand_lines (env : gmap string string) (missing : list string) (ls : list string)
  : list string * list string :=
  match ls with
  | [] => ([], missing)
  | line :: ls' =>
    let '(line', missing') :=
      if is_comment line then (line, missing)
      else
        let '(out, miss) := replace_line env line in
        (out, foldl (λ acc name, if decide (name ∈ acc) then acc else acc ++ [name]) missing miss)
    in
    let '(rest, missing'') := expand_lines env missing' ls' in
    (line' :: rest, missing'')
  end.

Definition expandEnv (env : gmap string string) (data : string) : string * list string :=
  let '(ls, missing) := expand_lines env [] (Split data newline) in
  (Join ls (String newline ""), missing).

Inductive load_error :=
| ErrRead
| ErrUnset (names : list string)
| ErrParse.

(** [Load]: the file's text ([None] if it cannot be read) and the YAML decoder
    are arguments. *)
Definition Load (yaml : string → option Config) (env : gmap string string)
    (file : option string) : load_error + Config :=
  match file with
  | None => inl ErrRead
  | Some data =>
    let '(expanded, missing) := expandEnv env data in
    if decide (missing = []) then
      match yaml expanded with
      | None => inl ErrParse
      | Some cfg => inr (applyDefaults cfg)
      end
    else inl (ErrUnset missing)
  end.

(** ** The watcher *)

(** What a poll of the file sees: [Stat] fails, or its time of modification and
    its text. *)
Record file_obs := mkObs {
  fo_stat : option Z;
  fo_text : option string
}.

(** The watcher's memory, and the configurations handed to [onChange], latest
    first. *)
Record Watcher := mkWatcher {
  lastMod : Z;
  delivered : list Config
}.

Definition WatcherStart (zero : Z) (obs : file_obs) : Watcher :=
  mkWatcher (default zero obs.(fo_stat)) [].

Definition check (yaml : string → option Config) (env : gmap string string)
    (obs : file_obs) (w : Watcher) : Watcher :=
  match obs.(fo_stat) with
  | None => w
  | Some mtime =>
    if negb (w.(lastMod) <? mtime) then w else
    match Load yaml env obs.(fo_text) with
    | inl _ => w
    | inr cfg => mkWatcher mtime (cfg :: w.(delivered))
    end
  end.

(** ** Facts *)

Lemma or_int_idem x d : d ≠ 0 → or_int (or_int x d) d = or_int x d.
Proof. unfold or_int. intros Hd. repeat case_match; lia. Qed.

Lemma or_int_nonzero x d : d ≠ 0 → or_int x d ≠ 0.
Proof. unfold or_int. intros Hd. case_match; lia. Qed.

Lemma or_str_idem x d : d ≠ "" → or_str (or_str x d) d = or_str x d.
Proof. unfold or_str. intros Hd. by repeat case_decide. Qed.

Lemma or_float_idem x d :
  SFeqb d (S754_zero false) = false → or_float (or_float x d) d = or_float x d.
Proof.
  unfold or_float. intros Hd. destruct (SFeqb x (S754_zero false)) eqn:E.
  - by rewrite Hd.
  - by rewrite E.
Qed.

Lemma default_cache_idem c : default_cache (default_cache c) = default_cache c.
Proof.
  unfold default_cache. destruct c as [[] b ttl mx [? ? ? kp]]; [|done]. cbn.
  rewrite or_str_idem, or_int_idem by done.
  destruct (decide (or_str b "memory" = "memory")), (decide (or_str b "memory" = "redis"));
    cbn; rewrite ?or_int_idem, ?or_str_idem by done; done.
Qed.

Lemma default_appkeys_idem a : default_appkeys (default_appkeys a) = default_appkeys a.
Proof.
  unfold default_appkeys, default_persistence. cbn. rewrite or_str_idem by done. f_equal.
  destruct (ap_Enabled (ak_Persistence a)) eqn:E; cbn; [|by rewrite E].
  by rewrite or_str_idem, or_int_idem.
Qed.

Lemma default_provider_idem p : default_provider (default_provider p) = default_provider p.
Proof.
  unfold default_provider. cbn. rewrite or_str_idem by done. f_equal.
  rewrite <-list_fmap_compose. apply list_fmap_ext. intros i k _. unfold default_key. cbn.
  by rewrite or_int_idem.
Qed.

Lemma default_wasm_idem w : default_wasm (default_wasm w) = default_wasm w.
Proof. unfold default_wasm. cbn. by rewrite !or_int_idem. Qed.

(** The variables a line refers to. *)
Fixpoint refs_fuel (fuel : nat) (s : string) : list string :=
  match fuel, s with
  | S fuel', String _ s' =>
    match match_ref s with
    | Some (name, rest) => name :: refs_fuel fuel' rest
    | None => refs_fuel fuel' s'
    end
  | _, _ => []
  end.

Definition line_refs (s : string) : list string := refs_fuel (String.length s) s.

Lemma replace_missing env fuel : ∀ s,
  (replace_fuel fuel env s).2 = filter (λ n, env !! n = None) (refs_fuel fuel s).
Proof.
  induction fuel as [|fuel IH]; intros s; [by destruct s|].
  destruct s as [|c s]; [done|]. cbn [replace_fuel refs_fuel].
  destruct (match_ref (String c s)) as [[name rest]|].
  - specialize (IH rest). destruct (replace_fuel fuel env rest) as [out miss]. cbn in IH.
    destruct (env !! name) as [val|] eqn:E; cbn [snd].
    + rewrite filter_cons_False by congruence. done.
    + rewrite filter_cons_True by done. by rewrite IH.
  - specialize (IH s). by destruct (replace_fuel fuel env s).
Qed.

(** Appending the names not yet reported. *)
Lemma fold_names miss : ∀ acc,
  NoDup acc →
  let out := foldl (λ acc name, if decide (name ∈ acc) then acc else acc ++ [name]) acc miss in
  NoDup out ∧ ∀ n, n ∈ out ↔ n ∈ acc ∨ n ∈ (miss : list string).
Proof.
  induction miss as [|m miss IH]; intros acc Hnd; cbn [foldl].
  - split; [done|]. intros n. rewrite elem_of_nil. tauto.
  - assert (NoDup (if decide (m ∈ acc) then acc else acc ++ [m]) ∧
      ∀ n, n ∈ (if decide (m ∈ acc) then acc else acc ++ [m]) ↔ n ∈ acc ∨ n = m) as [H1 H2].
    { case_decide.
      - split; [done|]. intros n. split; [tauto|]. by intros [?| ->].
      - split.
        + apply list.NoDup_app. split; [done|]. split; [|apply NoDup_singleton].
          intros x Hx ->%list_elem_of_singleton. done.
        + intros n. by rewrite elem_of_app, list_elem_of_singleton. }
    destruct (IH _ H1) as [? H3]. split; [done|]. intros n. rewrite H3, H2, elem_of_cons. tauto.
Qed.

Definition unset_ref (env : gmap string string) (ls : list string) (n : string) : Prop :=
  env !! n = None ∧ ∃ line, line ∈ ls ∧ is_comment line = false ∧ n ∈ line_refs line.

Lemma expand_lines_missing env ls : ∀ missing,
  NoDup missing →
  NoDup (expand_lines env missing ls).2 ∧
  ∀ n, n ∈ (expand_lines env missing ls).2 ↔ n ∈ missing ∨ unset_ref env ls n.
Proof.
  induction ls as [|line ls IH]; intros missing Hnd; cbn [expand_lines].
  - split; [done|]. intros n. split; [by left|]. intros [?|(_ & l & Hl & _)]; [done|].
    by apply elem_of_nil in Hl.
  - set (step := if is_comment line then (line, missing) else _).
    assert (NoDup step.2 ∧ ∀ n, n ∈ step.2 ↔ n ∈ missing ∨ unset_ref env [line] n) as [H1 H2].
    { subst step. destruct (is_comment line) eqn:Hc; cbn [snd].
      - split; [done|]. intros n. split; [by left|].
        intros [?|(_ & l & ->%list_elem_of_singleton & ? & _)]; [done|congruence].
      - unfold replace_line. pose proof (replace_missing env (String.length line) line) as Hm.
        destruct (replace_fuel _ env line) as [out miss]. cbn [snd] in *. subst miss.
        destruct (fold_names (filter (λ n, env !! n = None) (line_refs line)) missing Hnd)
          as [? Hf].
        split; [done|]. intros n. rewrite Hf, list_elem_of_filter. unfold unset_ref. split.
        + intros [?|[? ?]]; [by left|right]. split; [done|]. exists line. split; [by left|done].
        + intros [?|(? & l & ->%list_elem_of_singleton & _ & ?)]; auto. }
    destruct step as [line' missing']. cbn [snd] in *. destruct (IH missing' H1) as [H3 H4].
    destruct (expand_lines env missing' ls) as [rest missing'']. cbn [snd] in *.
    split; [done|]. intros n. rewrite H4, H2. unfold unset_ref. split.
    + intros [[?|(? & l & ->%list_elem_of_singleton & ?)]|(? & l & ? & ?)]; [by left|right..];
        (split; [done|]); eexists; split; [by left|done|by right|done].
    + intros [?|(? & l & [->|?]%elem_of_cons & ?)]; [auto|left; right|right];
        (split; [done|]); eexists; split; [by left|done|done|done].
Qed.

(** ** Theorems *)

(** Applying the defaults twice is applying them once, so a configuration
    that went through [Load] is a fixed point and a reload of the same file
    changes nothing. *)
Theorem applyDefaults_idempotent c : applyDefaults (applyDefaults c) = applyDefaults c.
Proof.
  unfold applyDefaults. cbn. f_equal.
  - unfold default_server. cbn. by rewrite or_str_idem, !or_int_idem.
  - rewrite <-map_fmap_compose. apply map_fmap_ext. intros. apply default_provider_idem.
  - f_equal. unfold default_failover. cbn. by rewrite !or_int_idem, or_float_idem.
  - rewrite <-list_fmap_compose. apply list_fmap_ext. intros. apply default_wasm_idem.
  - apply default_cache_idem.
  - apply default_appkeys_idem.
Qed.

(** [expandEnv] reports exactly the unset variables that lines other than
    comments refer to, each once. *)
Theorem expandEnv_missing env data :
  NoDup (expandEnv env data).2 ∧
  ∀ n, n ∈ (expandEnv env data).2 ↔ unset_ref env (Split data newline) n.
Proof.
  unfold expandEnv.
  destruct (expand_lines_missing env (Split data newline) []) as [H1 H2]; [constructor|].
  destruct (expand_lines env [] (Split data newline)) as [ls missing]. cbn [snd] in *.
  split; [done|]. intros n. rewrite H2, elem_of_nil. tauto.
Qed.
