(* ===== verification/StreamDetect.v ===== *)
(** * Stream detection (internal/transport/stream_detect.go)

    [isStreamRequest] decides whether a request body asks for a streamed
    answer without decoding it: it walks the outermost object and skips every
    value.  An index into the body is modelled by the suffix it starts, -1 by
    [None]. *)
From S2P Require Import Prelude GoStd Json.

(** ** The code *)

Fixpoint skipJSONSpace (b : string) : string :=
  match b with
  | String c r =>
    if (code c =? 32) || (code c =? 9) || (code c =? 10) || (code c =? 13)
    then skipJSONSpace r else b
  | EmptyString => b
  end.

(** The loop of [scanJSONString], past the opening quote.  A backslash skips
    two bytes, possibly past the end. *)
Fixpoint scan_loop (b : string) : option string :=
  match b with
  | EmptyString => None
  | String c r =>
    if code c =? 92 then
      match r with
      | String _ r' => scan_loop r'
      | EmptyString => None
      end
    else if code c =? 34 then Some r
    else scan_loop r
  end.

Definition scanJSONString (b : string) : option string :=
  scan_loop (str_drop 1 b).

(** The bracket-counting loop of [skipJSONValue]; every turn consumes a byte,
    so fuel above the length of [b] is enough ([nested_fuel_enough]). *)
Fixpoint nested_loop (fuel : nat) (depth : Z) (b : string) : option string :=
  match fuel with
  | O => None
  | S fuel' =>
    match b with
    | EmptyString => None
    | String c r =>
      if code c =? 34 then
        match scanJSONString b with
        | None => None
        | Some b' => nested_loop fuel' depth b'
        end
      else if (code c =? 123) || (code c =? 91) then
        nested_loop fuel' (depth + 1) r
      else if (code c =? 125) || (code c =? 93) then
        if depth - 1 =? 0 then Some r else nested_loop fuel' (depth - 1) r
      else nested_loop fuel' depth r
    end
  end.

Definition is_delimiter (c : ascii) : bool :=
  existsb (λ d, code c =? d) [44; 125; 93; 32; 9; 10; 13].

Fixpoint scalar_loop (b : string) : string :=
  match b with
  | String c r => if is_delimiter c then b else scalar_loop r
  | EmptyString => b
  end.

Definition skipJSONValue (b : string) : option string :=
  match b with
  | EmptyString => None
  | String c _ =>
    if code c =? 34 then scanJSONString b
    else if (code c =? 123) || (code c =? 91)
    then nested_loop (S (String.length b)) 0 b
    else Some (scalar_loop b)
  end.

(** The member loop of [isStreamRequest]; [None] means out of fuel, which
    [member_loop_is_some] excludes. *)
Fixpoint member_loop (fuel : nat) (stream : bool) (b : string) : option bool :=
  match fuel with
  | O => None
  | S fuel' =>
    match skipJSONSpace b with
    | EmptyString => Some stream
    | String c r =>
      if code c =? 44 then member_loop fuel' stream r
      else if negb (code c =? 34) then Some stream
      else match scanJSONString (String c r) with
      | None => Some stream
      | Some keyEnd =>
        let key := str_take (String.length r - String.length keyEnd - 1) r in
        match skipJSONSpace keyEnd with
        | EmptyString => Some stream
        | String col r' =>
          if negb (code col =? 58) then Some stream else
          let v := skipJSONSpace r' in
          let stream' :=
            if decide (key = "stream") then HasPrefix v "true" else stream in
          match skipJSONValue v with
          | None => Some stream'
          | Some rest => member_loop fuel' stream' rest
          end
        end
      end
    end
  end.

Definition isStreamRequest (body : string) : bool :=
  match skipJSONSpace body with
  | EmptyString => false
  | String c r =>
    if negb (code c =? 123) then false
    else default false (member_loop (S (String.length r)) false r)
  end.

(** ** Reference semantics

    What a JSON reader sees: the value of the last member spelt [stream]. *)

Definition is_true (j : json) : bool :=
  match j with JBool true => true | _ => false end.

Definition last_stream (acc : bool) (ms : list (string * string * json)) : bool :=
  foldl (λ acc '(key, _, v), if decide (key = "stream") then is_true v else acc)
    acc ms.

(** ** The scanners consume their input *)

Lemma skipJSONSpace_eq b : skipJSONSpace b = skip_ws b.
Proof. induction b as [|c b IH]; simpl; [done|]. unfold is_json_space. by case_match. Qed.

Lemma skip_ws_length b : (String.length (skip_ws b) ≤ String.length b)%nat.
Proof. induction b as [|c b IH]; simpl; [done|]. case_match; simpl; lia. Qed.

Lemma scan_loop_length b r :
  scan_loop b = Some r → (String.length r < String.length b)%nat.
Proof.
  induction b as [b IH] using str_len_ind. destruct b as [|c b]; simpl; [done|].
  intros H. repeat case_match; simplify_eq; simpl in *; try lia.
  all: apply IH in H; simpl in *; lia.
Qed.

Lemma scanJSONString_length b r :
  scanJSONString b = Some r → (String.length r < String.length b)%nat.
Proof.
  unfold scanJSONString. intros H%scan_loop_length.
  rewrite str_drop_length in H. lia.
Qed.

(** Any fuel above the length gives the same answer. *)
Lemma nested_fuel_enough b : ∀ n m depth,
  (String.length b < n)%nat → (String.length b < m)%nat →
  nested_loop n depth b = nested_loop m depth b.
Proof.
  induction b as [b IH] using str_len_ind. intros [|n] [|m] depth ??; [lia..|].
  destruct b as [|c b]; simpl in *; [done|].
  destruct (code c =? 34) eqn:?.
  - destruct (scanJSONString (String c b)) as [b'|] eqn:E; [|done].
    apply scanJSONString_length in E. simpl in E. apply IH; simpl; lia.
  - repeat case_match; try done; apply IH; simpl; lia.
Qed.

Definition nested (depth : Z) (b : string) : option string :=
  nested_loop (S (String.length b)) depth b.

Lemma nested_loop_S n depth c r :
  nested_loop (S n) depth (String c r) =
    if code c =? 34 then
      match scanJSONString (String c r) with
      | None => None
      | Some b' => nested_loop n depth b'
      end
    else if (code c =? 123) || (code c =? 91) then nested_loop n (depth + 1) r
    else if (code c =? 125) || (code c =? 93) then
      if depth - 1 =? 0 then Some r else nested_loop n (depth - 1) r
    else nested_loop n depth r.
Proof. done. Qed.

Lemma nested_unfold depth c r :
  nested depth (String c r) =
    if code c =? 34 then b' ← scanJSONString (String c r); nested depth b'
    else if (code c =? 123) || (code c =? 91) then nested (depth + 1) r
    else if (code c =? 125) || (code c =? 93) then
      if depth - 1 =? 0 then Some r else nested (depth - 1) r
    else nested depth r.
Proof.
  unfold nested. rewrite nested_loop_S. destruct (code c =? 34) eqn:?; [|done].
  destruct (scanJSONString (String c r)) as [b'|] eqn:E; [|done].
  apply scanJSONString_length in E. cbn [mbind option_bind String.length] in *.
  apply nested_fuel_enough; lia.
Qed.

Lemma nested_nil depth : nested depth "" = None.
Proof. done. Qed.

(** ** Agreement with the parser *)

Lemma is_hex_plain c : is_hex c = true → code c ≠ 92 ∧ code c ≠ 34.
Proof. unfold is_hex, is_digit, in_range. lia. Qed.

Lemma scan_string_spec s raw rest :
  scan_string s = Some (raw, rest) →
  s = raw +:+ String c_quote rest ∧ scan_loop s = Some rest.
Proof.
  revert raw rest. induction s as [s IH] using str_len_ind. intros raw rest.
  destruct s as [|c s]; simpl; [done|]. intros H.
  destruct (Z.eqb_spec (code c) 34) as [Hc|Hc].
  { simplify_eq/=. rewrite (proj2 (Z.eqb_neq (code c) 92)) by lia.
    split; [|done]. f_equal. unfold c_quote, byte_of, code in *.
    rewrite <-(ascii_N_embedding c). f_equal. lia. }
  destruct (Z.eqb_spec (code c) 92) as [Hb|Hb].
  - destruct s as [|e s]; [done|]. destruct (is_simple_escape e) eqn:He.
    { apply bind_Some in H as [[raw' rest'] [H ?]]. simplify_eq/=.
      apply IH in H as [-> ->]; [done|simpl; lia]. }
    destruct (Z.eqb_spec (code e) 117) as [Hu|Hu]; [|done].
    destruct s as [|h1 [|h2 [|h3 [|h4 s]]]]; try done.
    destruct (is_hex h1 && is_hex h2 && is_hex h3 && is_hex h4) eqn:Hh; [|done].
    apply andb_prop in Hh as [[[H1 H2]%andb_prop H3]%andb_prop H4].
    apply is_hex_plain in H1 as [??], H2 as [??], H3 as [??], H4 as [??].
    apply bind_Some in H as [[raw' rest'] [H ?]]. simplify_eq/=.
    apply IH in H as [-> ?]; [|simpl; lia]. split; [done|].
    by rewrite !(proj2 (Z.eqb_neq _ _)) by done.
  - destruct (code c <? 32); [done|].
    apply bind_Some in H as [[raw' rest'] [H ?]]. simplify_eq/=.
    apply IH in H as [-> ->]; [done|simpl; lia].
Qed.

(** Bytes the bracket counter steps over, and bytes that stop a scalar. *)
Definition is_plain (c : ascii) : bool :=
  negb (existsb (λ d, code c =? d) [34; 123; 91; 125; 93]).

Lemma nested_plain n c r : is_plain c = true → nested n (String c r) = nested n r.
Proof.
  unfold is_plain. simpl. intros H. rewrite nested_unfold.
  by destruct (code c =? 34), (code c =? 123), (code c =? 91), (code c =? 125),
    (code c =? 93).
Qed.

Lemma nested_plain_app n p r :
  str_forallb is_plain p = true → nested n (p +:+ r) = nested n r.
Proof.
  induction p as [|c p IH]; simpl; [done|]. intros [? ?]%andb_prop.
  rewrite nested_plain by done. auto.
Qed.

Lemma nested_skip_ws n s : nested n s = nested n (skip_ws s).
Proof.
  induction s as [|c s IH]; simpl; [done|]. case_match eqn:Hc; [|done].
  rewrite nested_plain; [done|]. unfold is_json_space, is_plain in *. simpl. lia.
Qed.

Lemma number_plain c : is_number_byte c = true → is_plain c = true.
Proof. unfold is_number_byte, is_digit, in_range, is_plain. simpl. lia. Qed.

Lemma number_not_delimiter c : is_number_byte c = true → is_delimiter c = false.
Proof. unfold is_number_byte, is_digit, in_range, is_delimiter. simpl. lia. Qed.

(** What follows a closing bracket at depth [n]. *)
Definition close_at (n : Z) (r : string) : option string :=
  if n - 1 =? 0 then Some r else nested (n - 1) r.

Lemma close_at_nested n c r :
  (code c =? 125) || (code c =? 93) = true → nested n (String c r) = close_at n r.
Proof.
  intros H. rewrite nested_unfold. unfold close_at. rewrite H.
  destruct (Z.eqb_spec (code c) 34); [lia|].
  destruct ((code c =? 123) || (code c =? 91)) eqn:?; [lia|done].
Qed.

(** Bytes of a scalar text: stepped over by both loops. *)
Definition is_scalar (c : ascii) : bool := is_plain c && negb (is_delimiter c).

(** The five shapes of a parsed value. *)
Inductive value_shape (f : nat) (d : Z) : string → json → string → Prop :=
| shape_str c t raw r :
    code c = 34 → scan_string t = Some (raw, r) →
    value_shape f d (String c t) (JStr raw) r
| shape_empty c t e r v :
    (code c =? 123) || (code c =? 91) = true → skip_ws t = String e r →
    (code e =? 125) || (code e =? 93) = true → is_true v = false →
    value_shape f d (String c t) v r
| shape_obj c t ms r :
    code c = 123 → parse_members f (d + 1) t = Some (ms, r) →
    value_shape f d (String c t) (JObj ms) r
| shape_arr c t vs r :
    code c = 91 → parse_elems f (d + 1) t = Some (vs, r) →
    value_shape f d (String c t) (JArr vs) r
| shape_scalar c lit v r :
    str_forallb is_scalar (String c lit) = true →
    HasPrefix (String c (lit +:+ r)) "true" = is_true v →
    value_shape f d (String c (lit +:+ r)) v r.

Lemma parse_value_shape f d s v r :
  parse_value (S f) d s = Some (v, r) → value_shape f d s v r.
Proof.
  destruct s as [|c s]; [done|]. cbn [parse_value].
  destruct (Z.eqb_spec (code c) 34) as [Hq|Hq].
  { intros ([raw rest] & ? & ?)%bind_Some. simplify_eq. by constructor. }
  destruct (Z.eqb_spec (code c) 123) as [Ho|Ho].
  { destruct (max_depth <=? d); [done|]. destruct (skip_ws s) as [|e r'] eqn:E; [done|].
    destruct (Z.eqb_spec (code e) 125) as [He|He].
    - intros [= <- <-]. eapply shape_empty; [|done| |done]; lia.
    - intros ([ms rest] & ? & ?)%bind_Some. simplify_eq. by constructor. }
  destruct (Z.eqb_spec (code c) 91) as [Ha|Ha].
  { destruct (max_depth <=? d); [done|]. destruct (skip_ws s) as [|e r'] eqn:E; [done|].
    destruct (Z.eqb_spec (code e) 93) as [He|He].
    - intros [= <- <-]. eapply shape_empty; [|done| |done]; lia.
    - intros ([ms rest] & ? & ?)%bind_Some. simplify_eq. by constructor. }
  destruct (HasPrefix (String c s) "true") eqn:Ht.
  { pose proof Ht as [t Heq]%prefix_inv. simpl in Heq. simplify_eq.
    intros [= <- <-]. by apply (shape_scalar _ _ _ "rue"). }
  destruct (HasPrefix (String c s) "false") eqn:Hf.
  { pose proof Hf as [t Heq]%prefix_inv. simpl in Heq. simplify_eq.
    intros [= <- <-]. by apply (shape_scalar _ _ _ "alse"). }
  destruct (HasPrefix (String c s) "null") eqn:Hn.
  { pose proof Hn as [t Heq]%prefix_inv. simpl in Heq. simplify_eq.
    intros [= <- <-]. by apply (shape_scalar _ _ _ "ull"). }
  intros ([lit rest] & (Heq & Hl & Hne)%scan_number_spec & ?)%bind_Some.
  destruct lit as [|c' lit]; [done|]. simplify_eq/=.
  apply shape_scalar; [|done]. apply (str_forallb_impl is_number_byte); [|done].
  intros b Hb. unfold is_scalar.
  by rewrite number_plain, number_not_delimiter by done.
Qed.

(** Inside brackets, the counter leaves a value where the parser does, and
    finds the bracket that closes a list of elements or members. *)
Definition value_nested f := ∀ d s v r n,
  0 < n → parse_value f d s = Some (v, r) → nested n s = nested n r.
Definition elems_nested f := ∀ d s vs r n,
  0 < n → parse_elems f d s = Some (vs, r) → nested n s = close_at n r.
Definition members_nested f := ∀ d s ms r n,
  0 < n → parse_members f d s = Some (ms, r) → nested n s = close_at n r.

Lemma close_at_succ n r : 0 < n → close_at (n + 1) r = nested n r.
Proof.
  intros. unfold close_at. destruct (Z.eqb_spec (n + 1 - 1) 0); [lia|]. f_equal. lia.
Qed.

Lemma nested_open n c r :
  (code c =? 123) || (code c =? 91) = true → nested n (String c r) = nested (n + 1) r.
Proof. intros H. rewrite nested_unfold, H. destruct (Z.eqb_spec (code c) 34); [lia|done]. Qed.

Lemma nested_comma n c r :
  code c = 44 ∨ code c = 58 → nested n (String c r) = nested n r.
Proof. intros H. apply nested_plain. unfold is_plain. by destruct H as [->| ->]. Qed.

Lemma nested_string n c t raw r :
  code c = 34 → scan_string t = Some (raw, r) → nested n (String c t) = nested n r.
Proof.
  intros Hc [_ Hs]%scan_string_spec. rewrite nested_unfold, Hc.
  unfold scanJSONString. simpl. by rewrite Hs.
Qed.

Lemma value_nested_S f : elems_nested f → members_nested f → value_nested (S f).
Proof.
  intros IHe IHm d s v r n Hn Hp. apply parse_value_shape in Hp.
  destruct Hp as [c t raw r Hc Hs|c t e r v Hc Ht He _|c t ms r Hc Hp|c t vs r Hc Hp
                 |c lit v r Hl _].
  - by eapply nested_string.
  - by rewrite nested_open, nested_skip_ws, Ht, close_at_nested, close_at_succ by done.
  - rewrite nested_open by lia. erewrite IHm; [|lia|done]. by apply close_at_succ.
  - rewrite nested_open by lia. erewrite IHe; [|lia|done]. by apply close_at_succ.
  - change (String c (lit +:+ r)) with (String c lit +:+ r).
    apply nested_plain_app. apply (str_forallb_impl is_scalar); [|done].
    unfold is_scalar. by intros ? [? _]%andb_prop.
Qed.

Lemma elems_nested_S f : value_nested f → elems_nested f → elems_nested (S f).
Proof.
  intros IHv IHe d s vs r n Hn. cbn [parse_elems].
  intros ([v r1] & Hv & H)%bind_Some. rewrite nested_skip_ws.
  rewrite (IHv _ _ _ _ n Hn Hv), nested_skip_ws. destruct (skip_ws r1) as [|c r2]; [done|].
  destruct (Z.eqb_spec (code c) 44) as [Hc|Hc].
  - apply bind_Some in H as ([vs' rest] & H & ?). simplify_eq.
    rewrite nested_comma by auto. eauto.
  - destruct (Z.eqb_spec (code c) 93) as [Hc'|]; [|done]. simplify_eq.
    apply close_at_nested. lia.
Qed.

Lemma members_nested_S f : value_nested f → members_nested f → members_nested (S f).
Proof.
  intros IHv IHm d s ms r n Hn. cbn [parse_members]. rewrite nested_skip_ws.
  destruct (skip_ws s) as [|q r0]; [done|]. destruct (Z.eqb_spec (code q) 34) as [Hq|]; [|done].
  simpl. intros ([key r1] & Hk & H)%bind_Some. erewrite nested_string by done.
  rewrite nested_skip_ws. destruct (skip_ws r1) as [|col r2]; [done|].
  destruct (Z.eqb_spec (code col) 58) as [Hcol|]; [|done]. simpl in H.
  rewrite nested_comma by auto.
  apply bind_Some in H as ([v r3] & Hv & H). rewrite nested_skip_ws.
  rewrite (IHv _ _ _ _ n Hn Hv), nested_skip_ws. destruct (skip_ws r3) as [|c r4]; [done|].
  destruct (Z.eqb_spec (code c) 44) as [Hc|Hc].
  - apply bind_Some in H as ([vs' rest] & H & ?). simplify_eq.
    rewrite nested_comma by auto. eauto.
  - destruct (Z.eqb_spec (code c) 125) as [Hc'|]; [|done]. simplify_eq.
    apply close_at_nested. lia.
Qed.

Lemma parse_nested f : value_nested f ∧ elems_nested f ∧ members_nested f.
Proof.
  induction f as [|f (IHv & IHe & IHm)]; [done|].
  split_and!; auto using value_nested_S, elems_nested_S, members_nested_S.
Qed.

(** What may follow a value inside an object. *)
Definition follows (r : string) : Prop :=
  match skip_ws r with
  | String c _ => code c = 44 ∨ code c = 125
  | EmptyString => False
  end.

Lemma scalar_loop_app p r :
  str_forallb is_scalar p = true → follows r → scalar_loop (p +:+ r) = r.
Proof.
  intros Hp Hr. induction p as [|c p IH]; simpl in *.
  - destruct r as [|c r]; [done|]. simpl.
    assert (is_delimiter c = true) as ->; [|done].
    unfold follows in Hr. simpl in Hr. unfold is_delimiter. simpl.
    destruct (is_json_space c) eqn:Hs; [|lia]. unfold is_json_space in Hs. lia.
  - apply andb_prop in Hp as [Hc Hp]. unfold is_scalar in Hc.
    apply andb_prop in Hc as [_ ->%negb_true_iff]. auto.
Qed.

(** [skipJSONValue] ends exactly where a JSON value ends. *)
Lemma skipJSONValue_parse f d s v r :
  parse_value f d s = Some (v, r) → follows r → skipJSONValue s = Some r.
Proof.
  destruct f as [|f]; [done|]. intros Hp Hr. apply parse_value_shape in Hp.
  destruct (parse_nested f) as (_ & IHe & IHm). unfold skipJSONValue.
  destruct Hp as [c t raw r Hc Hs|c t e r v Hc Ht He _|c t ms r Hc Hp|c t vs r Hc Hp
                 |c lit v r Hl _].
  - rewrite Hc. apply scan_string_spec in Hs as [_ Hs]. unfold scanJSONString. simpl. by rewrite Hs.
  - destruct (Z.eqb_spec (code c) 34); [lia|]. rewrite Hc.
    change (nested 0 (String c t) = Some r).
    by rewrite nested_open, nested_skip_ws, Ht, close_at_nested by done.
  - rewrite Hc. change (nested 0 (String c t) = Some r).
    rewrite nested_open by lia. by erewrite IHm.
  - rewrite Hc. change (nested 0 (String c t) = Some r).
    rewrite nested_open by lia. by erewrite IHe.
  - pose proof Hl as [Hc _]%andb_prop. unfold is_scalar, is_plain in Hc. simpl in Hc.
    destruct (Z.eqb_spec (code c) 34); [lia|].
    destruct ((code c =? 123) || (code c =? 91)) eqn:?; [lia|].
    f_equal. by apply (scalar_loop_app (String c lit)).
Qed.

Lemma is_true_prefix f d s v r :
  parse_value f d s = Some (v, r) → HasPrefix s "true" = is_true v.
Proof.
  destruct f as [|f]; [done|]. intros Hp%parse_value_shape.
  assert (∀ c t, code c ≠ 116 → HasPrefix (String c t) "true" = false) as Hno.
  { intros c t Hc. destruct (HasPrefix (String c t) "true") eqn:E; [|done].
    apply prefix_inv in E as [? E]. simpl in E. by simplify_eq. }
  destruct Hp; simplify_eq; try (rewrite Hno by lia); done.
Qed.

(** ** The member loop *)

Lemma nested_loop_length n depth b r :
  nested_loop n depth b = Some r → (String.length r < String.length b)%nat.
Proof.
  revert depth b. induction n as [|n IH]; intros depth [|c b]; try done.
  rewrite nested_loop_S. intros H.
  destruct (code c =? 34).
  { destruct (scanJSONString _) eqn:E; [|done].
    apply IH in H. apply scanJSONString_length in E. lia. }
  repeat case_match; simplify_eq; simpl; try lia; apply IH in H; lia.
Qed.

Lemma scalar_loop_length b : (String.length (scalar_loop b) ≤ String.length b)%nat.
Proof. induction b as [|c b IH]; simpl; [done|]. case_match; simpl; lia. Qed.

Lemma skipJSONValue_length b r :
  skipJSONValue b = Some r → (String.length r ≤ String.length b)%nat.
Proof.
  destruct b as [|c b]; [done|]. unfold skipJSONValue.
  repeat case_match; intros H'.
  - apply scanJSONString_length in H'. lia.
  - apply nested_loop_length in H'. lia.
  - simplify_eq. apply scalar_loop_length.
Qed.

Lemma str_length_skip s c r :
  skip_ws s = String c r → (String.length r < String.length s)%nat.
Proof. intros H. pose proof (skip_ws_length s) as Hl. rewrite H in Hl. simpl in Hl. lia. Qed.

(** The member loop always answers: fuel above the length never runs out. *)
Lemma member_loop_is_some b : ∀ fuel stream,
  (String.length b < fuel)%nat → is_Some (member_loop fuel stream b).
Proof.
  induction b as [b IH] using str_len_ind. intros [|fuel] stream Hf; [lia|].
  cbn [member_loop]. rewrite skipJSONSpace_eq.
  destruct (skip_ws b) as [|c r] eqn:Hb; [done|]. apply str_length_skip in Hb.
  destruct (code c =? 44); [apply IH; lia|]. destruct (negb _); [done|].
  destruct (scanJSONString (String c r)) as [k|] eqn:Hk; [|done].
  apply scanJSONString_length in Hk. simpl in Hk. rewrite !skipJSONSpace_eq.
  destruct (skip_ws k) as [|col r'] eqn:Hs; [done|]. apply str_length_skip in Hs.
  destruct (negb _); [done|]. rewrite skipJSONSpace_eq. pose proof (skip_ws_length r').
  destruct (skipJSONValue _) as [rest|] eqn:Hv; [|done].
  apply skipJSONValue_length in Hv. apply IH; lia.
Qed.

Lemma raw_key r raw k :
  r = raw +:+ String c_quote k →
  str_take (String.length r - String.length k - 1) r = raw.
Proof.
  intros ->. rewrite str_length_app. simpl.
  replace (_ - _ - 1)%nat with (String.length raw) by lia. apply str_take_app.
Qed.

Lemma member_loop_parse f : ∀ d s ms r fuel stream,
  (String.length s < fuel)%nat → parse_members f d s = Some (ms, r) →
  member_loop fuel stream s = Some (last_stream stream ms).
Proof.
  induction f as [|f IH]; [done|]. intros d s ms r [|fuel] stream Hf; [lia|].
  cbn [parse_members member_loop]. rewrite skipJSONSpace_eq.
  destruct (skip_ws s) as [|q r0] eqn:Hs; [done|]. apply str_length_skip in Hs.
  destruct (Z.eqb_spec (code q) 34) as [Hq|]; [|done]. rewrite Hq. simpl.
  intros ([key r1] & [Hr0 Hk]%scan_string_spec & H)%bind_Some.
  unfold scanJSONString. simpl. rewrite Hk, skipJSONSpace_eq, (raw_key _ key) by done.
  assert (String.length r1 < String.length r0)%nat
    by (rewrite Hr0, str_length_app; simpl; lia).
  destruct (skip_ws r1) as [|col r2] eqn:Hc; [done|]. apply str_length_skip in Hc.
  destruct (negb _); [done|]. rewrite skipJSONSpace_eq. pose proof (skip_ws_length r2).
  apply bind_Some in H as ([v r3] & Hv & H).
  assert (follows r3) as Hfo.
  { unfold follows. destruct (skip_ws r3) as [|c r4]; [done|].
    destruct (Z.eqb_spec (code c) 44); [auto|]. destruct (Z.eqb_spec (code c) 125); [auto|done]. }
  rewrite (is_true_prefix _ _ _ _ _ Hv).
  pose proof (skipJSONValue_parse _ _ _ _ _ Hv Hfo) as Hsk. rewrite Hsk.
  apply skipJSONValue_length in Hsk. destruct fuel as [|fuel]; [lia|].
  cbn [member_loop]. rewrite skipJSONSpace_eq.
  destruct (skip_ws r3) as [|c r4] eqn:H3; [done|]. apply str_length_skip in H3.
  destruct (Z.eqb_spec (code c) 44) as [Hc44|].
  - apply bind_Some in H as ([ms' rest] & Hm & ?). simplify_eq.
    unfold last_stream. simpl. erewrite IH; [done|lia|done].
  - destruct (Z.eqb_spec (code c) 125) as [Hc125|]; [|done]. simplify_eq.
    by rewrite Hc125.
Qed.

Lemma isStreamRequest_object body ms :
  parse body = Some (JObj ms) → isStreamRequest body = last_stream false ms.
Proof.
  unfold parse, isStreamRequest. rewrite skipJSONSpace_eq.
  intros ([v rest] & Hp & H)%bind_Some. case_decide; [|done]. simplify_eq.
  unfold parse_fuel in Hp. destruct (skip_ws body) as [|c s]; [done|].
  cbn [parse_value] in Hp.
  destruct (Z.eqb_spec (code c) 34); [by apply bind_Some in Hp as ([??] & ? & [=])|].
  destruct (Z.eqb_spec (code c) 123) as [Hc|].
  { change (max_depth <=? 0) with false in Hp. cbv beta iota in Hp.
    destruct (skip_ws s) as [|e r] eqn:Hs; [done|]. simpl.
    destruct (Z.eqb_spec (code e) 125) as [He|].
    - simplify_eq. rewrite skipJSONSpace_eq, Hs, He. done.
    - apply bind_Some in Hp as ([ms' r'] & Hm & ?). simplify_eq.
      change (default false (member_loop (S (String.length s)) false s)
        = last_stream false ms).
      erewrite member_loop_parse; [done| |done]. lia. }
  destruct (code c =? 91).
  { change (max_depth <=? 0) with false in Hp. cbv beta iota in Hp.
    destruct (skip_ws s) as [|e r]; [done|]. destruct (code e =? 93); [done|].
    by apply bind_Some in Hp as ([??] & ? & [=]). }
  repeat case_match; simplify_eq. by apply bind_Some in Hp as ([??] & ? & [=]).
Qed.

(** ** Agreement with encoding/json *)

(** [struct { Stream bool `json:`stream`` }]. *)
Definition dec_stream_flag : dec bool := dec_struct [("stream", dec_bool)].

(** Every member that encoding/json takes for the field, that is up to escapes and
    case, is spelt plainly and is a boolean. *)
Definition plain_streams (ms : list (string * string * json)) : bool :=
  forallb (λ '(key, _, v),
    if decide (fold_name (unquote key) = "stream")
    then bool_decide (key = "stream") && match v with JBool _ => true | _ => false end
    else true) ms.

Lemma find_stream key :
  find_field [("stream", dec_bool)] key =
  if decide (fold_name key = "stream") then Some dec_bool else None.
Proof.
  unfold find_field. cbn [list_find fst snd]. change (fold_name "stream") with "stream".
  destruct (decide ("stream" = key)) as [<-|Hne]; [done|].
  cbn [fmap option_fmap option_map list_find]. by repeat case_decide.
Qed.

Lemma last_stream_decodes ms : ∀ acc,
  plain_streams ms = true →
  dec_members [("stream", dec_bool)] ms acc true = (last_stream acc ms, true).
Proof.
  induction ms as [|[[key raw] v] ms IH]; intros acc; [done|].
  unfold plain_streams. cbn [forallb]. fold (plain_streams ms). intros [Hp Hms]%andb_prop.
  cbn [dec_members]. rewrite find_stream. unfold last_stream. cbn [foldl]. fold (last_stream acc ms).
  destruct (decide (fold_name (unquote key) = "stream")) as [Hf|Hf].
  - apply andb_prop in Hp as [->%bool_decide_eq_true Hv]. rewrite decide_True by done.
    destruct v; try done. cbn [dec_bool andb]. rewrite IH by done. by destruct b.
  - rewrite decide_False; [by apply IH|]. intros ->. by apply Hf.
Qed.

(** C21. On every body that is a JSON object, the allocation-free scan answers
    from the top level alone: true exactly when the last member spelt "stream" is
    the literal true, whatever nested values and string contents say.  And that is
    what decoding the body with encoding/json gives, provided each member that
    encoding/json takes for the field is spelt plainly and is a boolean: without
    that proviso it is false ([isStreamRequest_diverges]). *)
Theorem isStreamRequest_correct body ms :
  parse body = Some (JObj ms) →
  isStreamRequest body = last_stream false ms ∧
  (plain_streams ms = true → Unmarshal dec_stream_flag body false = (isStreamRequest body, true)).
Proof.
  intros Hp. pose proof (isStreamRequest_object body ms Hp) as E. split; [exact E|].
  intros Hs. rewrite E. unfold Unmarshal. rewrite Hp. by apply last_stream_decodes.
Qed.

(** The same at a body whose message text quotes a stream flag. *)
Lemma isStreamRequest_correct_witness :
  let body := dq "{'messages':[{'content':'\u0022stream\u0022:true'}], 'stream' : true}" in
  isStreamRequest body = true ∧ Unmarshal dec_stream_flag body false = (true, true).
Proof.
  intros body. destruct (isStreamRequest_correct body
    [("messages", dq "[{'content':'\u0022stream\u0022:true'}]",
      JArr [JObj [("content", dq "'\u0022stream\u0022:true'", JStr "\u0022stream\u0022:true")]]);
     ("stream", "true", JBool true)]) as [E Hd]; [vm_compute; reflexivity|].
  assert (isStreamRequest body = true) as Et by (rewrite E; vm_compute; reflexivity).
  split; [exact Et|]. rewrite <-Et. apply Hd. vm_compute. reflexivity.
Defined.

(** Where the scan and encoding/json disagree: a key with an escape, a key in
    another case, and a null after a boolean. *)
Theorem isStreamRequest_diverges :
  Forall (λ body, isStreamRequest body = false ∧ Unmarshal dec_stream_flag body false = (true, true))
    [dq "{'stre\u0061m':true}"; dq "{'Stream':true}"; dq "{'stream':true,'stream':null}"].
Proof. repeat constructor; vm_compute; reflexivity. Qed.
