(* ===== verification/Scrub.v ===== *)
(** * Redaction of API keys in error texts (internal/provider/gemini/gemini.go)

    [scrubKeyQuery] rewrites the value of every key= parameter of a URL that
    occurs in a text.  A reference definition reads the text once from left to
    right; the loop with positions agrees with it, and the result does not depend
    on the values that are replaced. *)
From S2P Require Import Prelude GoStd.

(** [strings.Index], as the text before and after the first occurrence. *)
Fixpoint cut_str (p s : string) : option (string * string) :=
  if String.prefix p s then Some ("", str_drop (String.length p) s)
  else match s with
       | EmptyString => None
       | String c s' => '(l, r) ← cut_str p s'; Some (String c l, r)
       end.

(** The byte before the rest of the text, after moving past [s]. *)
Fixpoint last_byte (prev : option ascii) (s : string) : option ascii :=
  match s with EmptyString => prev | String c s' => last_byte (Some c) s' end.

Definition delimits (c : option ascii) : bool :=
  match c with Some c => (code c =? 63) || (code c =? 38) | None => false end.

(** The bytes that end a value: ampersand, double quote, space. *)
Definition ends_value (c : ascii) : bool := (code c =? 38) || (code c =? 34) || (code c =? 32).

Fixpoint span_value (s : string) : string * string :=
  match s with
  | EmptyString => ("", "")
  | String c s' =>
    if ends_value c then ("", s) else let '(v, r) := span_value s' in (String c v, r)
  end.

Definition param : string := "key=".
Definition redacted : string := "REDACTED".

(** The loop: [prev] is the byte before position [pos], [rest] the text from it
    on.  Every round moves past an occurrence of the parameter. *)
Fixpoint scrub_loop (fuel : nat) (prev : option ascii) (rest : string) : string :=
  match fuel with
  | O => rest
  | S fuel' =>
    match rest with
    | EmptyString => ""
    | _ =>
      match cut_str param rest with
      | None => rest
      | Some (before, after) =>
        if negb (delimits (last_byte prev before)) then
          before +:+ param +:+ scrub_loop fuel' (Some "="%char) after
        else
          let '(v, rest') := span_value after in
          before +:+ param +:+ (if decide (v = "") then "" else redacted) +:+
            scrub_loop fuel' (last_byte (Some "="%char) v) rest'
      end
    end
  end.

Definition scrubKeyQuery (s : string) : string := scrub_loop (S (String.length s)) None s.

Example scrub_examples :
  (scrubKeyQuery "Post https://h/v1?alt=sse&key=SECRET&x=1 failed",
   scrubKeyQuery "monkey=1 ?key=&key=a", scrubKeyQuery "key=abc") =
  ("Post https://h/v1?alt=sse&key=REDACTED&x=1 failed", "monkey=1 ?key=&key=REDACTED", "key=abc").
Proof. vm_compute. reflexivity. Qed.

(** ** The reference: one pass *)

(** [skip] moves past a value to the byte that ends it. *)
Fixpoint scrub_ref (prev : option ascii) (s : string) : string :=
  match s with
  | EmptyString => ""
  | String c s' =>
    if delimits prev && String.prefix param s then
      match s' with
      | String _ (String _ (String e r)) =>
        param +:+ (if decide ((span_value r).1 = "") then "" else redacted) +:+
        (fix skip prev (r : string) : string :=
           match r with
           | EmptyString => ""
           | String f r' => if ends_value f then scrub_ref prev r else skip (Some f) r'
           end) (Some e) r
      | _ => s
      end
    else String c (scrub_ref (Some c) s')
  end.

Fixpoint skip (prev : option ascii) (r : string) : string :=
  match r with
  | EmptyString => ""
  | String f r' => if ends_value f then scrub_ref prev r else skip (Some f) r'
  end.

Lemma scrub_ref_param prev r : delimits prev = true →
  scrub_ref prev (param +:+ r) =
    param +:+ (if decide ((span_value r).1 = "") then "" else redacted) +:+ skip (Some "="%char) r.
Proof.
  intros Hp. cbn [param String.append scrub_ref]. rewrite Hp. cbn [andb].
  assert (String.prefix param (String "k" (String "e" (String "y" (String "=" r)))) = true) as ->
    by apply (prefix_app param r).
  done.
Qed.

Lemma scrub_ref_other prev c s : delimits prev && String.prefix param (String c s) = false →
  scrub_ref prev (String c s) = String c (scrub_ref (Some c) s).
Proof. intros H. cbn [scrub_ref]. by rewrite H. Qed.

Lemma prefix_param_head c s : c ≠ "k"%char → String.prefix param (String c s) = false.
Proof. intros Hc. unfold param. cbn [String.prefix]. by destruct (ascii_dec "k" c). Qed.

(** A byte that ends a value is copied whatever comes before it. *)
Lemma scrub_ref_end prev c s : ends_value c = true → scrub_ref prev (String c s) = String c (scrub_ref (Some c) s).
Proof.
  intros Hc. apply scrub_ref_other. rewrite prefix_param_head; [by rewrite andb_false_r|].
  intros ->. by vm_compute in Hc.
Qed.

Lemma span_value_app s : s = (span_value s).1 +:+ (span_value s).2.
Proof.
  induction s as [|c s IH]; cbn; [done|]. destruct (ends_value c); [done|].
  destruct (span_value s) as [v r]. cbn in *. congruence.
Qed.

Lemma skip_span prev s : skip prev s = scrub_ref (last_byte prev (span_value s).1) (span_value s).2.
Proof.
  revert prev. induction s as [|c s IH]; intros prev; cbn [skip span_value]; [done|].
  destruct (ends_value c); [done|]. rewrite IH. by destruct (span_value s).
Qed.

Lemma scrub_ref_plain prev r : delimits prev = false →
  scrub_ref prev (param +:+ r) = param +:+ scrub_ref (Some "="%char) r.
Proof.
  intros Hp. cbn [param String.append]. by rewrite !scrub_ref_other by (try rewrite Hp; done).
Qed.

Lemma scrub_ref_cut s : ∀ prev,
  match cut_str param s with
  | None => scrub_ref prev s = s
  | Some (l, r) => s = l +:+ param +:+ r ∧
      scrub_ref prev s = l +:+ scrub_ref (last_byte prev l) (param +:+ r)
  end.
Proof.
  induction s as [|c s IH]; intros prev; [done|]. cbn [cut_str].
  destruct (String.prefix param (String c s)) eqn:Hp.
  - apply prefix_inv in Hp as [t Ht]. rewrite Ht. rewrite str_drop_app. by split.
  - specialize (IH (Some c)). rewrite scrub_ref_other by by rewrite Hp, andb_false_r.
    destruct (cut_str param s) as [[l r]|]; cbn.
    + destruct IH as [-> ->]. done.
    + by rewrite IH.
Qed.

Lemma scrub_loop_ref fuel : ∀ prev s, (String.length s < fuel)%nat →
  scrub_loop fuel prev s = scrub_ref prev s.
Proof.
  induction fuel as [|fuel IH]; intros prev s Hs; [lia|]. cbn [scrub_loop].
  destruct s as [|c s]; [done|]. remember (String c s) as x eqn:Ex. clear Ex c s.
  pose proof (scrub_ref_cut x prev) as Hc. destruct (cut_str param x) as [[l r]|]; [|done].
  destruct Hc as [Hx ->]. assert (4 + String.length r ≤ String.length x)%nat as Hl.
  { rewrite Hx, !str_length_app. cbn. lia. }
  destruct (delimits (last_byte prev l)) eqn:Hd; cbn [negb].
  - rewrite scrub_ref_param, skip_span by done. pose proof (span_value_app r) as Hr.
    destruct (span_value r) as [v r'] eqn:Es. cbn [fst snd] in *. rewrite IH; [done|].
    rewrite Hr, str_length_app in Hl. lia.
  - rewrite scrub_ref_plain by done. by rewrite IH by lia.
Qed.

Lemma scrubKeyQuery_ref s : scrubKeyQuery s = scrub_ref None s.
Proof. apply scrub_loop_ref. lia. Qed.

(** ** What is redacted does not matter *)

Definition value_text (v : string) : Prop := v ≠ "" ∧ str_forallb (λ c, negb (ends_value c)) v = true.
Definition value_end (s : string) : Prop :=
  match s with String c _ => ends_value c = true | EmptyString => True end.

Lemma span_value_split v post : str_forallb (λ c, negb (ends_value c)) v = true → value_end post →
  span_value (v +:+ post) = (v, post).
Proof.
  intros Hv Hp. induction v as [|c v IH]; cbn in *.
  - destruct post as [|c post]; [done|]. cbn in *. by rewrite Hp.
  - apply andb_prop in Hv as [Hc Hv]. destruct (ends_value c); [done|]. by rewrite IH.
Qed.

Lemma scrub_ref_value_end p q s : value_end s → scrub_ref p s = scrub_ref q s.
Proof. destruct s as [|c s]; [done|]. intros Hc. by rewrite !scrub_ref_end. Qed.

Section redacted.
Context (d : ascii) (v1 v2 post : string).
Hypothesis Hd : delimits (Some d) = true.
Hypothesis Hv1 : value_text v1.
Hypothesis Hv2 : value_text v2.
Hypothesis Hpost : value_end post.

Definition tail (v : string) : string := String d (param +:+ v +:+ post).

Lemma d_not_k : d ≠ "k"%char ∧ d ≠ "e"%char ∧ d ≠ "y"%char ∧ d ≠ "="%char.
Proof using Hd. split_and!; intros E; rewrite E in Hd; by vm_compute in Hd. Qed.

(** Reading starts at the delimiter. *)
Lemma tail_ref prev : scrub_ref prev (tail v1) = scrub_ref prev (tail v2).
Proof using All.
  unfold tail. assert (∀ v, value_text v → scrub_ref prev (String d (param +:+ v +:+ post)) =
    String d (param +:+ redacted +:+ scrub_ref None post)) as H.
  { intros v [Hne Hv]. rewrite scrub_ref_other.
    2:{ rewrite prefix_param_head by apply d_not_k. apply andb_false_r. }
    rewrite scrub_ref_param by done. rewrite skip_span, span_value_split by done. cbn [fst snd].
    rewrite decide_False by done. by rewrite (scrub_ref_value_end _ None). }
  by rewrite !H.
Qed.

(** A value that began before the delimiter. *)
Lemma tail_skip pre :
  (∀ pre', (String.length pre' ≤ String.length pre)%nat →
    ∀ p, scrub_ref p (pre' +:+ tail v1) = scrub_ref p (pre' +:+ tail v2)) →
  ∀ p, skip p (pre +:+ tail v1) = skip p (pre +:+ tail v2).
Proof using All.
  induction pre as [|c pre IH]; intros Hpre p; cbn [String.append].
  - unfold tail. cbn [skip]. destruct (ends_value d) eqn:He; [apply tail_ref|].
    rewrite !skip_span. assert (∀ v, value_text v → span_value (param +:+ v +:+ post) = (param +:+ v, post)) as H.
    { intros v [_ Hv]. rewrite <-str_app_assoc. apply span_value_split; [|done]. by rewrite str_forallb_app, Hv. }
    rewrite !H by done. cbn [fst snd]. by apply scrub_ref_value_end.
  - cbn [skip]. destruct (ends_value c) eqn:Hc; [by apply (Hpre (String c pre))|].
    apply IH. intros pre' Hl. apply Hpre. cbn. lia.
Qed.

Lemma prefix_tail q pre t : str_forallb (λ c, negb (bool_decide (c = d))) q = true →
  String.prefix q (pre +:+ String d t) = String.prefix q pre.
Proof using Type.
  revert pre. induction q as [|c q IH]; intros pre Hq; [by destruct pre|]. cbn in Hq. apply andb_prop in Hq as [Hc Hq].
  destruct pre as [|e pre]; cbn.
  - destruct (ascii_dec c d); [|done]. by rewrite bool_decide_true in Hc.
  - destruct (ascii_dec c e); [by apply IH|done].
Qed.

Lemma span_value_nonempty c r : (span_value (String c r)).1 = "" ↔ ends_value c = true.
Proof using Type. cbn. destruct (ends_value c); [done|]. by destruct (span_value r). Qed.

Lemma span_tail pre : (span_value (pre +:+ tail v1)).1 = "" ↔ (span_value (pre +:+ tail v2)).1 = "".
Proof using Type. destruct pre; unfold tail; cbn [String.append]; by rewrite !span_value_nonempty. Qed.

Lemma scrub_ref_tail pre : ∀ p, scrub_ref p (pre +:+ tail v1) = scrub_ref p (pre +:+ tail v2).
Proof using All.
  induction pre as [pre IH] using str_len_ind. intros p. destruct pre as [|c pre]; [apply tail_ref|].
  assert (∀ v, String.prefix param (String c pre +:+ tail v) = String.prefix param (String c pre)) as Hpre.
  { intros v. apply prefix_tail. pose proof d_not_k. unfold param. cbn.
    rewrite !bool_decide_false by naive_solver. done. }
  destruct (delimits p && String.prefix param (String c pre)) eqn:E.
  - apply andb_prop in E as [Hp [t Ht]%prefix_inv]. rewrite Ht, !str_app_assoc, !scrub_ref_param by done.
    f_equal. f_equal.
    + pose proof (span_tail t). repeat case_decide; naive_solver.
    + apply tail_skip. intros pre' Hl. apply IH. rewrite Ht. cbn. lia.
  - cbn [String.append] in *. rewrite !scrub_ref_other by by rewrite Hpre. f_equal. apply IH. cbn. lia.
Qed.
End redacted.

(** The result is the same whatever the value of a key= parameter is: the value
    runs to the next ampersand, quote or space, and the parameter follows a
    question mark or an ampersand. *)
Lemma scrubKeyQuery_hides d pre v1 v2 post :
  delimits (Some d) = true → value_text v1 → value_text v2 → value_end post →
  scrubKeyQuery (pre +:+ String d (param +:+ v1 +:+ post)) =
  scrubKeyQuery (pre +:+ String d (param +:+ v2 +:+ post)).
Proof. intros. rewrite !scrubKeyQuery_ref. by apply (scrub_ref_tail d v1 v2 post). Qed.

(** Text without the parameter is not changed. *)
Lemma scrubKeyQuery_other s : cut_str param s = None → scrubKeyQuery s = s.
Proof. intros H. rewrite scrubKeyQuery_ref. pose proof (scrub_ref_cut s None) as Hc. by rewrite H in Hc. Qed.
