(* ===== verification/JsonFuel.v ===== *)
(** * The JSON parser's fuel is enough

    A value, and the elements or members between brackets, consume input; so
    two calls per byte suffice, and the failure of [Json.parse] is never a lack
    of fuel. *)
From S2P Require Import Prelude GoStd Json StreamDetect.

Definition value_shrinks f := ∀ d s v r,
  parse_value f d s = Some (v, r) → (String.length r < String.length s)%nat.
Definition elems_shrinks f := ∀ d s vs r,
  parse_elems f d s = Some (vs, r) → (String.length r < String.length s)%nat.
Definition members_shrinks f := ∀ d s ms r,
  parse_members f d s = Some (ms, r) → (String.length r < String.length s)%nat.

Lemma skip_ws_shrinks s c r :
  skip_ws s = String c r → (String.length r < String.length s)%nat.
Proof. intros E. pose proof (skip_ws_length s). rewrite E in *. simpl in *. lia. Qed.

Lemma scan_string_shrinks s raw r :
  scan_string s = Some (raw, r) → (String.length r < String.length s)%nat.
Proof. intros [-> _]%scan_string_spec. rewrite str_length_app. simpl. lia. Qed.

Lemma value_shrinks_S f : elems_shrinks f → members_shrinks f → value_shrinks (S f).
Proof.
  intros He Hm d s v r [] % parse_value_shape; simpl.
  all: repeat match goal with
  | H : scan_string _ = Some _ |- _ => apply scan_string_shrinks in H
  | H : parse_elems _ _ _ = Some _ |- _ => apply He in H
  | H : parse_members _ _ _ = Some _ |- _ => apply Hm in H
  | H : skip_ws _ = String _ _ |- _ => apply skip_ws_shrinks in H
  end; rewrite ?str_length_app; lia.
Qed.

Lemma elems_shrinks_S f : value_shrinks f → elems_shrinks f → elems_shrinks (S f).
Proof.
  intros Hv He d s vs r. cbn [parse_elems]. intros ([v r1] & H1 & H)%bind_Some.
  apply Hv in H1. pose proof (skip_ws_length s).
  destruct (skip_ws r1) as [|c r'] eqn:E; [done|]. apply skip_ws_shrinks in E.
  destruct (code c =? 44).
  - apply bind_Some in H as ([vs' rest] & H & ?). simplify_eq. apply He in H. lia.
  - destruct (code c =? 93); [|done]. simplify_eq. lia.
Qed.

Lemma members_shrinks_S f : value_shrinks f → members_shrinks f → members_shrinks (S f).
Proof.
  intros Hv Hm d s ms r. cbn [parse_members].
  destruct (skip_ws s) as [|q s1] eqn:E1; [done|]. apply skip_ws_shrinks in E1.
  destruct (negb _); [done|]. intros ([key r1] & H1 & H)%bind_Some.
  apply scan_string_shrinks in H1.
  destruct (skip_ws r1) as [|col r2] eqn:E2; [done|]. apply skip_ws_shrinks in E2.
  destruct (negb _); [done|]. apply bind_Some in H as ([v r3] & H3 & H). apply Hv in H3.
  pose proof (skip_ws_length r2).
  destruct (skip_ws r3) as [|c r4] eqn:E4; [done|]. apply skip_ws_shrinks in E4.
  destruct (code c =? 44).
  - apply bind_Some in H as ([ms' rest] & H & ?). simplify_eq. apply Hm in H. lia.
  - destruct (code c =? 125); [|done]. simplify_eq. lia.
Qed.

Lemma parse_shrinks f : value_shrinks f ∧ elems_shrinks f ∧ members_shrinks f.
Proof.
  induction f as [|f (Hv & He & Hm)]; [done|].
  split; [|split]; auto using value_shrinks_S, elems_shrinks_S, members_shrinks_S.
Qed.

Definition value_agree n := ∀ m d s,
  (2 * String.length s + 1 ≤ n)%nat → (2 * String.length s + 1 ≤ m)%nat →
  parse_value n d s = parse_value m d s.
Definition elems_agree n := ∀ m d s,
  (2 * String.length s + 2 ≤ n)%nat → (2 * String.length s + 2 ≤ m)%nat →
  parse_elems n d s = parse_elems m d s.
Definition members_agree n := ∀ m d s,
  (2 * String.length s + 2 ≤ n)%nat → (2 * String.length s + 2 ≤ m)%nat →
  parse_members n d s = parse_members m d s.

Lemma value_agree_S n : elems_agree n → members_agree n → value_agree (S n).
Proof.
  intros He Hm [|m] d s Hn Hm'; [lia|]. destruct s as [|c s]; [done|].
  cbn [String.length] in *. cbn [parse_value].
  by rewrite (He m (d + 1) s), (Hm m (d + 1) s) by lia.
Qed.

Lemma elems_agree_S n : value_agree n → elems_agree n → elems_agree (S n).
Proof.
  intros Hv He [|m] d s Hn Hm; [lia|]. cbn [parse_elems].
  pose proof (skip_ws_length s). rewrite (Hv m) by lia.
  destruct (parse_value m d (skip_ws s)) as [[v r]|] eqn:E; [|done]. cbn.
  apply (parse_shrinks m) in E. destruct (skip_ws r) as [|c r'] eqn:E2; [done|].
  apply skip_ws_shrinks in E2. by rewrite (He m d r') by lia.
Qed.

Lemma members_agree_S n : value_agree n → members_agree n → members_agree (S n).
Proof.
  intros Hv He [|m] d s Hn Hm; [lia|]. cbn [parse_members].
  destruct (skip_ws s) as [|q s1] eqn:E1; [done|]. apply skip_ws_shrinks in E1.
  destruct (negb _); [done|]. destruct (scan_string s1) as [[key r1]|] eqn:E; [|done].
  apply scan_string_shrinks in E. cbn.
  destruct (skip_ws r1) as [|col r2] eqn:E2; [done|]. apply skip_ws_shrinks in E2.
  destruct (negb _); [done|]. pose proof (skip_ws_length r2). rewrite (Hv m) by lia.
  destruct (parse_value m d (skip_ws r2)) as [[v r]|] eqn:E3; [|done]. cbn.
  apply (parse_shrinks m) in E3. destruct (skip_ws r) as [|c r'] eqn:E4; [done|].
  apply skip_ws_shrinks in E4. by rewrite (He m d r') by lia.
Qed.

(** Any fuel above twice the length of the text gives the same result. *)
Theorem parse_fuel_enough n : value_agree n ∧ elems_agree n ∧ members_agree n.
Proof.
  induction n as [|n (Hv & He & Hm)].
  - split; [|split]; intros m d s Hn; lia.
  - split; [|split]; auto using value_agree_S, elems_agree_S, members_agree_S.
Qed.
