(* ===== verification/JsonGrammar.v ===== *)
(** * The grammar of JSON texts

    A declarative grammar with the nesting limit of encoding/json, and the proof
    that [Json.parse] accepts exactly its texts, with the value the grammar gives
    them.  Facts about texts are then proved by rule induction: a member's raw
    text is itself a text of the member's value, and whatever follows a value
    does not change how it is read. *)
From S2P Require Import Prelude GoStd Json StreamDetect JsonFuel.

(** ** Tokens *)

Definition ws (w : string) : Prop := str_forallb is_json_space w = true.

(** The characters between the quotes of a string literal. *)
Inductive jchars : string → Prop :=
| jc_nil : jchars ""
| jc_plain c s :
    32 <= code c → code c ≠ 34 → code c ≠ 92 → jchars s → jchars (String c s)
| jc_escape e s :
    is_simple_escape e = true → jchars s → jchars (String c_backslash (String e s))
| jc_unicode h1 h2 h3 h4 s :
    is_hex h1 = true → is_hex h2 = true → is_hex h3 = true → is_hex h4 = true → jchars s →
    jchars (String c_backslash (String "u" (String h1 (String h2 (String h3 (String h4 s)))))).

Definition jdigits (s : string) : Prop := str_forallb is_digit s = true ∧ s ≠ "".

Definition jint (s : string) : Prop :=
  s = "0" ∨ (jdigits s ∧ ∀ r, s ≠ String "0" r).
Definition jfrac (s : string) : Prop := s = "" ∨ ∃ d, jdigits d ∧ s = String "." d.
Definition jexp (s : string) : Prop :=
  s = "" ∨ ∃ e g d, jdigits d ∧ (e = "e"%char ∨ e = "E"%char) ∧ (g = "" ∨ g = "+" ∨ g = "-") ∧
            s = String e (g +:+ d).

(** A number: sign, integer, fraction and exponent. *)
Inductive jnumber : string → Prop :=
| jnumber_intro sign i f e :
    (sign = "" ∨ sign = "-") → jint i → jfrac f → jexp e → jnumber (sign +:+ i +:+ f +:+ e).

(** ** Values

    [jvalue d t v]: below [d] open brackets the text [t] is the value [v].
    [jelems] and [jmembers] are what follows an opening bracket, up to and
    including the closing one. *)
Definition quoted (s : string) : string := String c_quote (s +:+ String c_quote "").

Inductive jvalue : Z → string → json → Prop :=
| jv_null d : jvalue d "null" JNull
| jv_bool d (b : bool) : jvalue d (if b then "true" else "false") (JBool b)
| jv_num d lit : jnumber lit → jvalue d lit (JNum lit)
| jv_str d raw : jchars raw → jvalue d (quoted raw) (JStr raw)
| jv_arr_nil d w : d < max_depth → ws w → jvalue d (String "[" (w +:+ "]")) (JArr [])
| jv_arr d t vs : d < max_depth → jelems (d + 1) t vs → jvalue d (String "[" t) (JArr vs)
| jv_obj_nil d w : d < max_depth → ws w → jvalue d (String "{" (w +:+ "}")) (JObj [])
| jv_obj d t ms : d < max_depth → jmembers (d + 1) t ms → jvalue d (String "{" t) (JObj ms)
with jelems : Z → string → list json → Prop :=
| je_last d w t v w' :
    ws w → jvalue d t v → ws w' → jelems d (w +:+ t +:+ w' +:+ "]") [v]
| je_cons d w t v w' u vs :
    ws w → jvalue d t v → ws w' → jelems d u vs →
    jelems d (w +:+ t +:+ w' +:+ String "," u) (v :: vs)
with jmembers : Z → string → list (string * string * json) → Prop :=
| jm_last d w k w1 w2 t v w3 :
    ws w → jchars k → ws w1 → ws w2 → jvalue d t v → ws w3 →
    jmembers d (w +:+ quoted k +:+ w1 +:+ String ":" (w2 +:+ t +:+ w3 +:+ "}")) [(k, t, v)]
| jm_cons d w k w1 w2 t v w3 u ms :
    ws w → jchars k → ws w1 → ws w2 → jvalue d t v → ws w3 → jmembers d u ms →
    jmembers d (w +:+ quoted k +:+ w1 +:+ String ":" (w2 +:+ t +:+ w3 +:+ String "," u))
      ((k, t, v) :: ms).

Scheme jvalue_rule := Induction for jvalue Sort Prop
  with jelems_rule := Induction for jelems Sort Prop
  with jmembers_rule := Induction for jmembers Sort Prop.
Combined Scheme jtext_rule from jvalue_rule, jelems_rule, jmembers_rule.

Create HintDb json discriminated.

#[export] Hint Constructors jchars jvalue jelems jmembers : json.

(** ** White space *)

Lemma ws_nil : ws "".
Proof. done. Qed.

Lemma ws_cons c w : ws (String c w) ↔ is_json_space c = true ∧ ws w.
Proof. unfold ws. cbn. by rewrite andb_true_iff. Qed.

Lemma skip_ws_split s : ∃ w, ws w ∧ s = w +:+ skip_ws s.
Proof.
  induction s as [|c s (w & Hw & Hs)]; [by exists ""|]. cbn [skip_ws].
  destruct (is_json_space c) eqn:E; [|by exists ""]. exists (String c w).
  rewrite ws_cons. cbn. by rewrite <-Hs.
Qed.

Definition starts_dark (s : string) : Prop :=
  match s with String c _ => is_json_space c = false | EmptyString => True end.

Lemma skip_ws_app w s : ws w → starts_dark s → skip_ws (w +:+ s) = s.
Proof.
  intros Hw Hs. induction w as [|c w IH]; cbn.
  - destruct s as [|c s]; cbn in *; [done|by rewrite Hs].
  - apply ws_cons in Hw as [-> Hw]. auto.
Qed.

Lemma skip_ws_all w : ws w → skip_ws w = "".
Proof. intros Hw. by rewrite <-(str_app_nil_r w), skip_ws_app. Qed.

Lemma skip_ws_nil s : skip_ws s = "" → ws s.
Proof. destruct (skip_ws_split s) as (w & Hw & Hs). intros E. rewrite E, str_app_nil_r in Hs. congruence. Qed.

#[export] Hint Resolve ws_nil : json.

Ltac char_eq c c' :=
  let H := fresh in
  assert (c = c') as H
    by (apply code_inj; let z := eval vm_compute in (code c') in change (code c') with z; assumption);
  subst c.

Ltac str_norm := repeat first [rewrite str_app_assoc | progress cbn [String.append]].

(** What may follow a number without becoming part of it. *)
Definition delimited (r : string) : Prop :=
  match r with String c _ => is_number_byte c = false | EmptyString => True end.

Lemma delimited_ws w s : ws w → delimited s → delimited (w +:+ s).
Proof.
  destruct w as [|c w]; [done|]. rewrite ws_cons. intros [Hc _] _. cbn.
  unfold is_json_space, is_number_byte, is_digit, in_range in *. cbn. lia.
Qed.

(** ** The parser reads grammatical texts *)

Lemma scan_string_jchars s : ∀ raw rest,
  scan_string s = Some (raw, rest) → s = raw +:+ String c_quote rest ∧ jchars raw.
Proof.
  induction s as [s IH] using str_len_ind. intros raw rest.
  destruct s as [|c s]; cbn [scan_string]; [done|]. intros Hs.
  destruct (Z.eqb_spec (code c) 34) as [Hc|Hc].
  { simplify_eq. char_eq c c_quote. split; [done|constructor]. }
  destruct (Z.eqb_spec (code c) 92) as [Hb|Hb].
  - char_eq c c_backslash. destruct s as [|e s]; [done|].
    destruct (is_simple_escape e) eqn:He.
    { apply bind_Some in Hs as ([raw' rest'] & Hs & ?). simplify_eq.
      apply IH in Hs as [-> ?]; [|cbn; lia]. split; [done|auto with json]. }
    destruct (Z.eqb_spec (code e) 117) as [Hu|]; [|done].
    char_eq e "u"%char.
    destruct s as [|h1 [|h2 [|h3 [|h4 s]]]]; try done.
    destruct (is_hex h1 && is_hex h2 && is_hex h3 && is_hex h4) eqn:Hh; [|done].
    apply bind_Some in Hs as ([raw' rest'] & Hs & ?). simplify_eq.
    apply IH in Hs as [-> ?]; [|cbn; lia]. rewrite !andb_true_iff in Hh. destruct_and!.
    split; [done|auto with json].
  - destruct (Z.ltb_spec (code c) 32); [done|].
    apply bind_Some in Hs as ([raw' rest'] & Hs & ?). simplify_eq.
    apply IH in Hs as [-> ?]; [|cbn; lia]. split; [done|auto with json].
Qed.

Lemma scan_string_complete raw rest :
  jchars raw → scan_string (raw +:+ String c_quote rest) = Some (raw, rest).
Proof.
  induction 1 as [|c s ??? _ IH|e s He _ IH|h1 h2 h3 h4 s H1 H2 H3 H4 _ IH]; [done|..].
  - cbn [String.append scan_string]. rewrite (proj2 (Z.eqb_neq _ _)), (proj2 (Z.eqb_neq (code c) 92)) by lia.
    rewrite (proj2 (Z.ltb_ge _ _)), IH by lia. done.
  - cbn [String.append scan_string]. by rewrite He, IH.
  - cbn [String.append scan_string]. by rewrite H1, H2, H3, H4, IH.
Qed.

(** Numbers. *)
Definition no_digit (r : string) : Prop :=
  match r with String c _ => is_digit c = false | EmptyString => True end.

Lemma span_digits_app d r :
  str_forallb is_digit d = true → no_digit r → span_digits (d +:+ r) = (d, r).
Proof.
  intros Hd Hr. induction d as [|c d IH]; cbn.
  - destruct r as [|c r]; cbn in *; [done|by rewrite Hr].
  - cbn in Hd. apply andb_prop in Hd as [-> Hd]. by rewrite IH.
Qed.

Lemma digits1_complete d r : jdigits d → no_digit r → digits1 (d +:+ r) = Some (d, r).
Proof.
  intros [Hd Hne] Hr. unfold digits1. rewrite span_digits_app by done. by destruct d.
Qed.

Lemma digits1_jdigits s d r : digits1 s = Some (d, r) → s = d +:+ r ∧ jdigits d.
Proof.
  unfold digits1. destruct (span_digits s) as [d' r'] eqn:E.
  apply span_digits_spec in E as [-> Hd]. intros H. destruct d'; simplify_eq. by repeat split.
Qed.

Lemma scan_int_jint s i r : scan_int s = Some (i, r) → s = i +:+ r ∧ jint i.
Proof.
  destruct s as [|c s]; cbn [scan_int]; [done|].
  destruct (Z.eqb_spec (code c) 48) as [Hc|Hc].
  - intros [= <- <-]. char_eq c "0"%char. split; [done|by left].
  - intros [Hs Hd]%digits1_jdigits. split; [done|]. right. split; [done|].
    intros r' ->. cbn in Hs. by simplify_eq.
Qed.

Lemma scan_int_complete i r : jint i → no_digit r → scan_int (i +:+ r) = Some (i, r).
Proof.
  intros [-> |[Hd Hz]] Hr; [done|]. destruct i as [|c i]; [by destruct Hd|].
  cbn [String.append scan_int]. destruct (Z.eqb_spec (code c) 48) as [Hc|Hc].
  - destruct (Hz i). by char_eq c "0"%char.
  - by apply (digits1_complete (String c i)).
Qed.

Lemma scan_frac_jfrac s f r : scan_frac s = Some (f, r) → s = f +:+ r ∧ jfrac f.
Proof.
  destruct s as [|c s]; cbn [scan_frac]; [intros [= <- <-]; split; [done|by left]|].
  destruct (Z.eqb_spec (code c) 46) as [Hc|Hc].
  - intros ([d r'] & [-> Hd]%digits1_jdigits & ?)%bind_Some. simplify_eq.
    char_eq c "."%char. split; [done|]. right. eauto.
  - intros [= <- <-]. split; [done|by left].
Qed.

(** What follows a fraction or an exponent. *)
Definition after_number (r : string) : Prop :=
  match r with
  | String c _ => is_digit c = false ∧ code c ≠ 46 ∧ code c ≠ 101 ∧ code c ≠ 69
  | EmptyString => True
  end.

Lemma delimited_after r : delimited r → after_number r.
Proof. destruct r as [|c r]; [done|]. cbn. unfold is_number_byte. cbn. destruct (is_digit c); [done|]. lia. Qed.

Lemma scan_frac_complete f r :
  jfrac f → no_digit r → (f = "" → ∀ s, r ≠ String "." s) → scan_frac (f +:+ r) = Some (f, r).
Proof.
  intros [-> |(d & Hd & ->)] Hr Hdot; cbn [String.append scan_frac].
  - destruct r as [|c r]; [done|]. cbn [scan_frac]. destruct (Z.eqb_spec (code c) 46); [|done].
    destruct (Hdot eq_refl r). by char_eq c "."%char.
  - by rewrite digits1_complete.
Qed.

Lemma scan_exp_jexp s e r : scan_exp s = Some (e, r) → s = e +:+ r ∧ jexp e.
Proof.
  destruct s as [|c s]; cbn [scan_exp]; [intros [= <- <-]; split; [done|by left]|].
  destruct ((code c =? 101) || (code c =? 69)) eqn:Hc; [|intros [= <- <-]; split; [done|by left]].
  assert (c = "e"%char ∨ c = "E"%char) as Hc'.
  { destruct (Z.eqb_spec (code c) 101); [left|right]; apply code_inj; [done|]. change (code "E") with 69. lia. }
  destruct s as [|g s]; [done|]. destruct ((code g =? 43) || (code g =? 45)) eqn:Hg;
    intros ([d r'] & [Hs Hd]%digits1_jdigits & ?)%bind_Some; simplify_eq; rewrite ?Hs.
  - split; [done|]. right. exists c, (String g ""), d. split_and!; [done..| |done].
    right. destruct (Z.eqb_spec (code g) 43); [left|right]; f_equal; apply code_inj; [done|]. change (code "-") with 45. lia.
  - split; [done|]. right. exists c, "", d. split_and!; [done..|by left|done].
Qed.

Lemma digit_not_sign c : is_digit c = true → (code c =? 43) || (code c =? 45) = false.
Proof. unfold is_digit, in_range. lia. Qed.

Lemma scan_exp_complete e r : jexp e → after_number r → scan_exp (e +:+ r) = Some (e, r).
Proof.
  assert (∀ d r, jdigits d → after_number r → digits1 (d +:+ r) = Some (d, r)) as Hdig.
  { intros d r' Hd Hr. apply digits1_complete; [done|]. destruct r'; [done|]. by destruct Hr. }
  intros [-> |(c & g & d & Hd & Hc & Hg & ->)] Hr.
  - destruct r as [|c r]; [done|]. destruct Hr as (_ & _ & ? & ?). cbn [String.append scan_exp].
    by rewrite !(proj2 (Z.eqb_neq _ _)).
  - assert ((code c =? 101) || (code c =? 69) = true) as Hc' by (by destruct Hc; subst).
    destruct Hg as [-> |[-> | ->]]; cbn [String.append scan_exp]; rewrite Hc'.
    + pose proof Hd as [Hd' Hne]. destruct d as [|c' d]; [done|]. cbn in Hd'. apply andb_prop in Hd' as [Hd' _].
      cbn [String.append]. rewrite digit_not_sign by done.
      specialize (Hdig _ r Hd Hr). cbn [String.append] in Hdig. by rewrite Hdig.
    + by rewrite Hdig.
    + by rewrite Hdig.
Qed.

Lemma scan_number_jnumber s lit r : scan_number s = Some (lit, r) → s = lit +:+ r ∧ jnumber lit.
Proof.
  unfold scan_number. intros H.
  set (p := match s with
            | String c r => if code c =? 45 then (String c "", r) else ("", s)
            | EmptyString => ("", "") end) in H.
  assert (s = p.1 +:+ p.2 ∧ (p.1 = "" ∨ p.1 = "-")) as [Hs Hp].
  { subst p. destruct s as [|c s']; [by auto|]. destruct (Z.eqb_spec (code c) 45) as [Hc|]; [|by auto].
    char_eq c "-"%char. by auto. }
  destruct p as [sign s1]; cbn in *. subst s.
  apply bind_Some in H as [[i s2] [[-> Hi]%scan_int_jint H]].
  apply bind_Some in H as [[f s3] [[-> Hf]%scan_frac_jfrac H]].
  apply bind_Some in H as [[e s4] [[-> He]%scan_exp_jexp H]]. simplify_eq.
  rewrite !str_app_assoc. by split.
Qed.

Lemma jint_head i : jint i → ∃ c j, i = String c j ∧ is_digit c = true.
Proof.
  intros [-> |[[Hd Hne] _]]; [by eexists _, _|]. destruct i as [|c i]; [done|].
  apply andb_prop in Hd as [? _]. eauto.
Qed.

Lemma exp_or_after e r : jexp e → after_number r →
  no_digit (e +:+ r) ∧ ∀ s, e +:+ r ≠ String "." s.
Proof.
  intros [-> |(c & g & d & _ & Hc & _ & ->)] Hr; cbn.
  - destruct r as [|c r]; [done|]. destruct Hr as (? & ? & _). split; [done|].
    intros s ?. by simplify_eq.
  - by destruct Hc; subst.
Qed.

Lemma scan_number_complete lit r :
  jnumber lit → delimited r → scan_number (lit +:+ r) = Some (lit, r).
Proof.
  intros Hn Hr%delimited_after. destruct Hn as [sign i f e Hsign Hi Hf He].
  destruct (exp_or_after e r He Hr) as [Her Hdot].
  assert (scan_int (i +:+ f +:+ e +:+ r) = Some (i, f +:+ e +:+ r)) as Ei.
  { apply scan_int_complete; [done|]. by destruct Hf as [-> |(d & ? & ->)]. }
  assert (scan_frac (f +:+ e +:+ r) = Some (f, e +:+ r)) as Ef by by apply scan_frac_complete.
  assert (scan_exp (e +:+ r) = Some (e, r)) as Ee by by apply scan_exp_complete.
  rewrite !str_app_assoc. unfold scan_number.
  destruct (jint_head i Hi) as (c & j & -> & Hc).
  destruct Hsign as [->| ->]; cbn [String.append].
  - destruct (Z.eqb_spec (code c) 45) as [Hc'|_].
    { unfold is_digit, in_range in Hc. lia. }
    cbn [String.append] in Ei. rewrite Ei. cbn. rewrite Ef. cbn. by rewrite Ee.
  - change (code "-" =? 45) with true. cbn iota beta zeta.
    cbn [String.append] in Ei. rewrite Ei. cbn. rewrite Ef. cbn. by rewrite Ee.
Qed.

Definition value_sound f := ∀ d s v r, parse_value f d s = Some (v, r) →
  ∃ t, s = t +:+ r ∧ jvalue d t v.
Definition elems_sound f := ∀ d s vs r, parse_elems f d s = Some (vs, r) →
  ∃ t, s = t +:+ r ∧ jelems d t vs.
Definition members_sound f := ∀ d s ms r, parse_members f d s = Some (ms, r) →
  ∃ t, s = t +:+ r ∧ jmembers d t ms.

(** White space and a known byte. *)
Lemma skip_ws_char s c r : skip_ws s = String c r → ∃ w, ws w ∧ s = w +:+ String c r.
Proof. destruct (skip_ws_split s) as (w & Hw & Hs). intros E. rewrite E in Hs. eauto. Qed.

Lemma value_sound_S f : elems_sound f → members_sound f → value_sound (S f).
Proof.
  intros IHe IHm d s v r. destruct s as [|c s]; [done|]. cbn [parse_value].
  destruct (Z.eqb_spec (code c) 34) as [Hq|Hq].
  { intros ([raw rest] & [-> Hraw]%scan_string_jchars & ?)%bind_Some. simplify_eq.
    char_eq c c_quote. exists (quoted raw). cbn. rewrite str_app_assoc. auto with json. }
  destruct (Z.eqb_spec (code c) 123) as [Ho|Ho].
  { char_eq c "{"%char. destruct (Z.leb_spec max_depth d); [done|].
    destruct (skip_ws s) as [|e r'] eqn:E; [done|]. destruct (Z.eqb_spec (code e) 125) as [He|He].
    - intros [= <- <-]. char_eq e "}"%char. apply skip_ws_char in E as (w & Hw & ->).
      exists (String "{" (w +:+ "}")). cbn. rewrite str_app_assoc. auto with json.
    - intros ([ms rest] & (t & -> & Ht)%IHm & ?)%bind_Some. simplify_eq.
      exists (String "{" t). auto with json. }
  destruct (Z.eqb_spec (code c) 91) as [Ha|Ha].
  { char_eq c "["%char. destruct (Z.leb_spec max_depth d); [done|].
    destruct (skip_ws s) as [|e r'] eqn:E; [done|]. destruct (Z.eqb_spec (code e) 93) as [He|He].
    - intros [= <- <-]. char_eq e "]"%char. apply skip_ws_char in E as (w & Hw & ->).
      exists (String "[" (w +:+ "]")). cbn. rewrite str_app_assoc. auto with json.
    - intros ([vs rest] & (t & -> & Ht)%IHe & ?)%bind_Some. simplify_eq.
      exists (String "[" t). auto with json. }
  destruct (HasPrefix (String c s) "true") eqn:Ht.
  { pose proof Ht as [t ->]%prefix_inv. intros [= <- <-]. exists "true". by split; [|apply (jv_bool d true)]. }
  destruct (HasPrefix (String c s) "false") eqn:Hf.
  { pose proof Hf as [t ->]%prefix_inv. intros [= <- <-]. exists "false". by split; [|apply (jv_bool d false)]. }
  destruct (HasPrefix (String c s) "null") eqn:Hn.
  { pose proof Hn as [t ->]%prefix_inv. intros [= <- <-]. exists "null". auto with json. }
  intros ([lit rest] & [-> Hl]%scan_number_jnumber & ?)%bind_Some. simplify_eq. eauto with json.
Qed.

Lemma elems_sound_S f : value_sound f → elems_sound f → elems_sound (S f).
Proof.
  intros IHv IHe d s vs r. cbn [parse_elems].
  intros ([v r1] & (t1 & H1 & Ht1)%IHv & Hp)%bind_Some.
  destruct (skip_ws_split s) as (w & Hw & ->). rewrite H1. clear H1.
  destruct (skip_ws r1) as [|c r2] eqn:E; [done|]. apply skip_ws_char in E as (w2 & Hw2 & ->).
  destruct (Z.eqb_spec (code c) 44) as [Hc|Hc].
  - char_eq c ","%char. apply bind_Some in Hp as ([vs' r3] & (t3 & -> & Ht3)%IHe & ?). simplify_eq.
    exists (w +:+ t1 +:+ w2 +:+ String "," t3). rewrite !str_app_assoc. auto with json.
  - destruct (Z.eqb_spec (code c) 93); [|done]. char_eq c "]"%char. simplify_eq.
    exists (w +:+ t1 +:+ w2 +:+ "]"). rewrite !str_app_assoc. auto with json.
Qed.

Lemma members_sound_S f : value_sound f → members_sound f → members_sound (S f).
Proof.
  intros IHv IHm d s ms r. cbn [parse_members].
  destruct (skip_ws s) as [|q s1] eqn:E0; [done|]. apply skip_ws_char in E0 as (w0 & Hw0 & ->).
  destruct (Z.eqb_spec (code q) 34) as [Hq|]; cbn [negb]; [|done]. char_eq q c_quote.
  intros ([key r1] & [-> Hk]%scan_string_jchars & Hp)%bind_Some.
  destruct (skip_ws r1) as [|col r2] eqn:E1; [done|]. apply skip_ws_char in E1 as (w1 & Hw1 & ->).
  destruct (Z.eqb_spec (code col) 58) as [Hcol|]; cbn [negb] in Hp; [|done]. char_eq col ":"%char.
  apply bind_Some in Hp as ([v r3] & (t2 & H2 & Ht2)%IHv & Hp).
  destruct (skip_ws_split r2) as (w2 & Hw2 & Hr2). rewrite H2 in *. subst r2. rewrite consumed_app in Hp.
  destruct (skip_ws r3) as [|c r4] eqn:E3; [done|]. apply skip_ws_char in E3 as (w3 & Hw3 & ->).
  destruct (Z.eqb_spec (code c) 44) as [Hc|Hc].
  - char_eq c ","%char. apply bind_Some in Hp as ([ms' r5] & (t5 & -> & Ht5)%IHm & ?). simplify_eq.
    exists (w0 +:+ quoted key +:+ w1 +:+ String ":" (w2 +:+ t2 +:+ w3 +:+ String "," t5)).
    split; [|auto with json]. unfold quoted. rewrite !str_app_assoc. cbn. by rewrite !str_app_assoc.
  - destruct (Z.eqb_spec (code c) 125); [|done]. char_eq c "}"%char. simplify_eq.
    exists (w0 +:+ quoted key +:+ w1 +:+ String ":" (w2 +:+ t2 +:+ w3 +:+ "}")).
    split; [|auto with json]. unfold quoted. rewrite !str_app_assoc. cbn. by rewrite !str_app_assoc.
Qed.

Lemma parser_sound f : value_sound f ∧ elems_sound f ∧ members_sound f.
Proof.
  induction f as [|f (IHv & IHe & IHm)]; [done|].
  auto using value_sound_S, elems_sound_S, members_sound_S.
Qed.

(** ** Grammatical texts are read *)

Lemma jnumber_head lit : jnumber lit →
  ∃ c r, lit = String c r ∧ (code c = 45 ∨ is_digit c = true).
Proof.
  intros [sign i f e [-> | ->] Hi _ _]; cbn; [|by eauto].
  destruct (jint_head i Hi) as (c & j & -> & ?). cbn. eauto.
Qed.

Lemma jvalue_dark d t v : jvalue d t v → starts_dark t ∧ t ≠ "".
Proof.
  destruct 1; try done.
  - by destruct b.
  - destruct (jnumber_head _ H) as (c & r & -> & Hc). split; [|done]. cbn.
    unfold is_json_space, is_digit, in_range in *. lia.
Qed.

Lemma starts_dark_app t r : t ≠ "" → starts_dark t → starts_dark (t +:+ r).
Proof. by destruct t. Qed.

Lemma jvalue_dark_app d t v r : jvalue d t v → starts_dark (t +:+ r).
Proof. intros [? ?]%jvalue_dark. by apply starts_dark_app. Qed.

(** What follows an opening bracket is not the closing one. *)
Lemma jvalue_open d t v c r : jvalue d t v → t = String c r → code c ≠ 93 ∧ code c ≠ 125.
Proof.
  destruct 1; intros E; try (injection E as <- _; by vm_compute).
  - destruct b; injection E as <- _; by vm_compute.
  - destruct (jnumber_head _ H) as (c' & r' & -> & Hc). simplify_eq.
    unfold is_digit, in_range in *. lia.
Qed.

Lemma parse_number f d lit r :
  jnumber lit → delimited r → parse_value (S f) d (lit +:+ r) = Some (JNum lit, r).
Proof.
  intros Hn Hr. pose proof (scan_number_complete lit r Hn Hr) as Hs.
  destruct (jnumber_head lit Hn) as (c & l & -> & Hc). cbn [String.append] in *. cbn [parse_value].
  unfold is_digit, in_range in Hc. rewrite !(proj2 (Z.eqb_neq _ _)) by lia.
  assert (∀ a p, 57 < code a → HasPrefix (String c (l +:+ r)) (String a p) = false) as Hp.
  { intros a p Ha. unfold HasPrefix. cbn. destruct (ascii_dec a c); [subst; lia|done]. }
  rewrite !Hp by done. by rewrite Hs.
Qed.

Definition value_complete d t v := ∀ f r,
  (2 * String.length t + 1 ≤ f)%nat → delimited r → parse_value f d (t +:+ r) = Some (v, r).
Definition elems_complete d t vs := ∀ f r,
  (2 * String.length t + 1 ≤ f)%nat → parse_elems f d (t +:+ r) = Some (vs, r).
Definition members_complete d t ms := ∀ f r,
  (2 * String.length t + 1 ≤ f)%nat → parse_members f d (t +:+ r) = Some (ms, r).

Lemma parse_string f d raw r : jchars raw → parse_value (S f) d (quoted raw +:+ r) = Some (JStr raw, r).
Proof.
  intros Hr. unfold quoted. cbn [String.append parse_value]. rewrite str_app_assoc.
  cbn [String.append]. by rewrite scan_string_complete.
Qed.

(** An opening bracket: the text after it starts with white space and a value
    or a key, so it is not an empty array or object. *)
Lemma jelems_open d t vs r : jelems d t vs →
  ∃ c u, skip_ws (t +:+ r) = String c u ∧ code c ≠ 93.
Proof.
  assert (∀ w u v s, ws w → jvalue d u v → ∃ c x, skip_ws (w +:+ u +:+ s) = String c x ∧ code c ≠ 93) as Hh.
  { intros w u v s Hw Hu. rewrite skip_ws_app; [|done|by eapply jvalue_dark_app].
    pose proof (jvalue_dark _ _ _ Hu) as [_ Hne]. destruct u as [|c u]; [done|].
    exists c. eexists. split; [done|]. by eapply jvalue_open in Hu as [? ?]. }
  destruct 1; rewrite !str_app_assoc; by eapply Hh.
Qed.

Lemma jmembers_open d t ms r : jmembers d t ms →
  ∃ u, skip_ws (t +:+ r) = String c_quote u.
Proof.
  destruct 1; rewrite !str_app_assoc; (rewrite skip_ws_app; [|done|done]); by eexists.
Qed.

Lemma parse_array f d t vs r : d < max_depth → jelems (d + 1) t vs →
  parse_elems f (d + 1) (t +:+ r) = Some (vs, r) →
  parse_value (S f) d (String "[" t +:+ r) = Some (JArr vs, r).
Proof.
  intros Hd Ht Hp. cbn [String.append parse_value]. change (code "[" =? 34) with false.
  change (code "[" =? 123) with false. change (code "[" =? 91) with true. cbn iota.
  destruct (Z.leb_spec max_depth d); [lia|]. destruct (jelems_open _ _ _ r Ht) as (c & u & -> & Hc).
  rewrite (proj2 (Z.eqb_neq _ _)) by done. by rewrite Hp.
Qed.

Lemma parse_object f d t ms r : d < max_depth → jmembers (d + 1) t ms →
  parse_members f (d + 1) (t +:+ r) = Some (ms, r) →
  parse_value (S f) d (String "{" t +:+ r) = Some (JObj ms, r).
Proof.
  intros Hd Ht Hp. cbn [String.append parse_value]. change (code "{" =? 34) with false.
  change (code "{" =? 123) with true. cbn iota.
  destruct (Z.leb_spec max_depth d); [lia|]. destruct (jmembers_open _ _ _ r Ht) as (u & ->).
  change (code c_quote =? 125) with false. cbn iota. by rewrite Hp.
Qed.

Lemma parse_empty f d w (c c' : ascii) v r :
  d < max_depth → ws w →
  (c = "["%char ∧ c' = "]"%char ∧ v = JArr [] ∨ c = "{"%char ∧ c' = "}"%char ∧ v = JObj []) →
  parse_value (S f) d (String c (w +:+ String c' "") +:+ r) = Some (v, r).
Proof.
  intros Hd Hw Hc. destruct Hc as [(-> & -> & ->)|(-> & -> & ->)]; cbn [String.append parse_value];
    rewrite str_app_assoc; (destruct (Z.leb_spec max_depth d); [lia|]);
    (rewrite skip_ws_app; [|done|done]); done.
Qed.

(** One element, one member. *)
Lemma parse_elems_step f d w t v w' c r :
  ws w → jvalue d t v → ws w' → is_number_byte c = false → is_json_space c = false →
  (∀ r, delimited r → parse_value f d (t +:+ r) = Some (v, r)) →
  parse_elems (S f) d (w +:+ t +:+ w' +:+ String c r) =
    if code c =? 44 then '(vs, rest) ← parse_elems f d r; Some (v :: vs, rest)
    else if code c =? 93 then Some ([v], r) else None.
Proof.
  intros Hw Ht Hw' Hn Hs Hp. cbn [parse_elems].
  rewrite (skip_ws_app w); [|done|by eapply jvalue_dark_app].
  rewrite Hp by (apply delimited_ws; done). cbn. by rewrite skip_ws_app.
Qed.

Lemma parse_members_step f d w k w1 w2 t v w3 c r :
  ws w → jchars k → ws w1 → ws w2 → jvalue d t v → ws w3 →
  is_number_byte c = false → is_json_space c = false →
  (∀ r, delimited r → parse_value f d (t +:+ r) = Some (v, r)) →
  parse_members (S f) d (w +:+ quoted k +:+ w1 +:+ String ":" (w2 +:+ t +:+ w3 +:+ String c r)) =
    if code c =? 44 then '(ms, rest) ← parse_members f d r; Some ((k, t, v) :: ms, rest)
    else if code c =? 125 then Some ([(k, t, v)], r) else None.
Proof.
  intros Hw Hk Hw1 Hw2 Ht Hw3 Hn Hs Hp. unfold quoted. cbn [String.append parse_members].
  rewrite (skip_ws_app w) by done. rewrite !str_app_assoc. cbn [String.append].
  change (negb (code c_quote =? 34)) with false. cbn iota. rewrite scan_string_complete by done.
  cbn -[parse_value parse_members code]. rewrite (skip_ws_app w1) by done.
  change (negb (code ":" =? 58)) with false. cbn iota.
  rewrite (skip_ws_app w2); [|done|by eapply jvalue_dark_app].
  rewrite Hp by (apply delimited_ws; done). cbn -[parse_value parse_members code].
  rewrite skip_ws_app, consumed_app by done. done.
Qed.

Ltac len_lia := unfold quoted in *; repeat (rewrite str_length_app in * || cbn [String.length] in * ); lia.

Lemma parser_complete :
  (∀ d t v, jvalue d t v → value_complete d t v) ∧
  (∀ d t vs, jelems d t vs → elems_complete d t vs) ∧
  (∀ d t ms, jmembers d t ms → members_complete d t ms).
Proof.
  apply jtext_rule; unfold value_complete, elems_complete, members_complete;
    intros d; intros; rewrite ?str_length_app in *; (destruct f as [|f]; [lia|]).
  - by destruct r.
  - by destruct b, r.
  - by apply parse_number.
  - by apply parse_string.
  - by apply parse_empty; auto.
  - apply parse_array; auto. apply H. len_lia.
  - apply parse_empty; auto 10.
  - apply parse_object; auto. apply H. len_lia.
  - str_norm. rewrite (parse_elems_step f d w t v w' "]"%char); try done.
    intros r' Hr'. apply H; [|done]. len_lia.
  - str_norm. rewrite (parse_elems_step f d w t v w' ","%char); try done.
    + cbn -[parse_elems]. rewrite H0; [done|]. len_lia.
    + intros r' Hr'. apply H; [|done]. len_lia.
  - str_norm.
    rewrite (parse_members_step f d w k w1 w2 t v w3 "}"%char); try done.
    intros r' Hr'. apply H; [|done]. len_lia.
  - str_norm.
    rewrite (parse_members_step f d w k w1 w2 t v w3 ","%char); try done.
    + cbn -[parse_members]. rewrite H0; [done|]. len_lia.
    + intros r' Hr'. apply H; [|done]. len_lia.
Qed.

(** ** The parser is the grammar *)

Theorem parse_grammar data v :
  parse data = Some v ↔ ∃ w t w', ws w ∧ ws w' ∧ data = w +:+ t +:+ w' ∧ jvalue 0 t v.
Proof.
  unfold parse. split.
  - intros ([v' rest] & (t & Ht & Hv)%(parser_sound _) & H)%bind_Some. case_decide as E; simplify_eq.
    destruct (skip_ws_split data) as (w & Hw & Hd). exists w, t, rest. rewrite <-Ht.
    auto using skip_ws_nil.
  - intros (w & t & w' & Hw & Hw' & -> & Hv).
    rewrite skip_ws_app; [|done|by eapply jvalue_dark_app].
    rewrite (proj1 parser_complete _ _ _ Hv).
    + cbn. rewrite skip_ws_all by done. by case_decide.
    + unfold parse_fuel. rewrite str_length_app. lia.
    + rewrite <-(str_app_nil_r w'). by apply delimited_ws.
Qed.

(** A value's text alone. *)
Lemma parse_jvalue t v : jvalue 0 t v → parse t = Some v.
Proof. intros Hv. apply parse_grammar. exists "", t, "". by rewrite str_app_nil_r. Qed.

(** A text that is a value deep inside another is one on its own. *)
Lemma jtext_shallower :
  (∀ d t v, jvalue d t v → ∀ d', d' <= d → jvalue d' t v) ∧
  (∀ d t vs, jelems d t vs → ∀ d', d' <= d → jelems d' t vs) ∧
  (∀ d t ms, jmembers d t ms → ∀ d', d' <= d → jmembers d' t ms).
Proof.
  apply jtext_rule; intros; try (by auto with json); try (constructor; auto; lia);
    (apply jv_arr || apply jv_obj); auto with zarith.
Qed.

(** The raw texts of an object's members are texts of their values. *)
Lemma jmembers_raw d t ms k raw x :
  jmembers d t ms → (k, raw, x) ∈ ms → jchars k ∧ jvalue d raw x.
Proof.
  induction 1; intros Hin.
  - apply list_elem_of_singleton in Hin. by simplify_eq.
  - apply elem_of_cons in Hin as [?|?]; [by simplify_eq|auto].
Qed.

Theorem parse_member data ms k raw x :
  parse data = Some (JObj ms) → (k, raw, x) ∈ ms → parse raw = Some x.
Proof.
  intros (w & t & w' & _ & _ & _ & Hv)%parse_grammar Hin.
  inversion Hv as [| | | | | |? ? ? ? |? ? ? ? Hm]; subst; [by apply elem_of_nil in Hin|].
  eapply jmembers_raw in Hm as [_ Hx]; [|done].
  apply parse_jvalue, (proj1 jtext_shallower _ _ _ Hx). lia.
Qed.
