(* ===== verification/JsonString.v ===== *)
(** * String literals: encoding and decoding

    [unquote] and [encode_string] by cases, that the encoder writes string
    literals of the grammar, and that decoding what was encoded gives the string
    back with invalid bytes replaced. *)
From S2P Require Import Prelude GoStd Utf8 Json StreamDetect JsonFuel JsonGrammar.

(** ** unquote *)

Lemma unquote_fuel_enough n : ∀ m s,
  (String.length s < n)%nat → (String.length s < m)%nat → unquote_fuel n s = unquote_fuel m s.
Proof.
  induction n as [|n IH]; intros [|m] s Hn Hm; try lia. destruct s as [|c s]; [done|].
  cbn [String.length] in *. cbn [unquote_fuel].
  assert (∀ t, (String.length t ≤ String.length s)%nat → unquote_fuel n t = unquote_fuel m t) as IH'
    by (intros; apply IH; lia).
  destruct (code c =? 92).
  - destruct s as [|e s]; [done|]. cbn [String.length] in *. destruct (code e =? 117).
    + destruct s as [|h1 [|h2 [|h3 [|h4 s]]]]; try done. cbn [String.length] in *.
      destruct (is_surrogate _); [|by rewrite IH' by lia].
      destruct s as [|b [|u [|k1 [|k2 [|k3 [|k4 s]]]]]]; cbn [String.length] in *;
        try (rewrite IH' by (cbn [String.length]; lia); done).
      destruct (if _ : bool then _ else _); by rewrite IH' by (cbn [String.length]; lia).
    + by rewrite IH' by lia.
  - destruct (code c <? 128); [by rewrite IH' by lia|].
    pose proof (DecodeRune_width (String c s) ltac:(done)) as Hw.
    destruct (DecodeRune (String c s)) as [r k]. cbn in Hw. f_equal.
    apply IH'. rewrite str_drop_length. cbn [String.length]. lia.
Qed.

Lemma unquote_fuel_S n s : unquote_fuel (S n) s =
  match s with
  | EmptyString => ""
  | String c r =>
    if code c =? 92 then
      match r with
      | String e r' =>
        if code e =? 117 then
          match r' with
          | String h1 (String h2 (String h3 (String h4 r''))) =>
            let rr := hex4 h1 h2 h3 h4 in
            if is_surrogate rr then
              match r'' with
              | String b (String u (String k1 (String k2 (String k3 (String k4 r3))))) =>
                match (if (code b =? 92) && (code u =? 117)
                       then surrogate_pair rr (hex4 k1 k2 k3 k4) else None) with
                | Some full => EncodeRune full +:+ unquote_fuel n r3
                | None => EncodeRune rune_error +:+ unquote_fuel n r''
                end
              | _ => EncodeRune rune_error +:+ unquote_fuel n r''
              end
            else EncodeRune rr +:+ unquote_fuel n r''
          | _ => ""
          end
        else String (simple_escape_byte e) (unquote_fuel n r')
      | EmptyString => ""
      end
    else if code c <? 128 then String c (unquote_fuel n r)
    else let '(rn, k) := DecodeRune s in EncodeRune rn +:+ unquote_fuel n (str_drop k s)
  end.
Proof. done. Qed.

#[local] Opaque unquote_fuel.

Lemma unquote_fuel_is n s : (String.length s < n)%nat → unquote_fuel n s = unquote s.
Proof. intros Hn. apply unquote_fuel_enough; [done|lia]. Qed.

Lemma unquote_plain c r : code c < 128 → code c ≠ 92 → unquote (String c r) = String c (unquote r).
Proof.
  intros H1 H2. unfold unquote at 1. rewrite unquote_fuel_S.
  rewrite (proj2 (Z.eqb_neq _ _)), (proj2 (Z.ltb_lt _ _)) by done.
  by rewrite unquote_fuel_is by (cbn; lia).
Qed.

Lemma unquote_escape e r : code e ≠ 117 →
  unquote (String c_backslash (String e r)) = String (simple_escape_byte e) (unquote r).
Proof.
  intros He. unfold unquote at 1. rewrite unquote_fuel_S. rewrite (proj2 (Z.eqb_eq (code c_backslash) 92) eq_refl).
  rewrite (proj2 (Z.eqb_neq _ _)) by done. by rewrite unquote_fuel_is by (cbn; lia).
Qed.

Lemma unquote_unicode h1 h2 h3 h4 r : is_surrogate (hex4 h1 h2 h3 h4) = false →
  unquote (String c_backslash (String "u" (String h1 (String h2 (String h3 (String h4 r)))))) =
    EncodeRune (hex4 h1 h2 h3 h4) +:+ unquote r.
Proof.
  intros Hs. unfold unquote at 1. rewrite unquote_fuel_S.
  rewrite (proj2 (Z.eqb_eq (code c_backslash) 92) eq_refl), (proj2 (Z.eqb_eq (code "u") 117) eq_refl).
  cbn zeta. rewrite Hs. by rewrite unquote_fuel_is by (cbn; lia).
Qed.

Lemma unquote_multi c s : 128 <= code c →
  unquote (String c s) =
    EncodeRune (DecodeRune (String c s)).1 +:+ unquote (str_drop (DecodeRune (String c s)).2 (String c s)).
Proof.
  intros Hc. unfold unquote at 1. rewrite unquote_fuel_S.
  rewrite (proj2 (Z.eqb_neq _ _)), (proj2 (Z.ltb_ge _ _)) by lia.
  pose proof (DecodeRune_width (String c s) ltac:(done)) as Hw.
  destruct (DecodeRune (String c s)) as [r k]. cbn [fst snd] in *. f_equal.
  apply unquote_fuel_is. rewrite str_drop_length. cbn [String.length]. lia.
Qed.

(** The first byte of an encoding outside ASCII. *)
Lemma EncodeRune_head r : scalar r → 128 <= r →
  ∃ c t, EncodeRune r = String c t ∧ 128 <= code c ∧ str_forallb (λ b, 128 <=? code b) t = true.
Proof.
  intros Hs Hr. pose proof Hs as [? ?]. rewrite EncodeRune_scalar by done.
  assert (∀ z, 128 <= 128 + z mod 64 < 192) as Hm.
  { intros z. pose proof (Z.mod_pos_bound z 64). lia. }
  pose proof (Hm r). pose proof (Hm (r / 64)). pose proof (Hm (r / 4096)).
  destruct (Z.ltb_spec r 128); [lia|].
  destruct (Z.ltb_spec r 2048); [|destruct (Z.ltb_spec r 65536)]; eexists _, _; (split; [done|]);
    cbn [str_forallb]; rewrite !code_byte_of; Z.div_mod_to_equations; lia.
Qed.

Lemma unquote_rune r s : scalar r → 128 <= r → unquote (EncodeRune r +:+ s) = EncodeRune r +:+ unquote s.
Proof.
  intros Hs Hr. pose proof (DecodeRune_EncodeRune r s Hs) as Hd.
  pose proof (str_drop_app (EncodeRune r) s) as Hdrop.
  destruct (EncodeRune_head r Hs Hr) as (c & t & E & Hc & _). rewrite E in *. cbn [String.append] in *.
  rewrite unquote_multi by done. rewrite Hd. cbn [fst snd]. by rewrite Hdrop, E.
Qed.

(** Bytes outside ASCII stand for themselves in a literal. *)
Abbreviation high t := (str_forallb (λ b, 128 <=? code b) t = true).

Lemma jchars_high t s : high t → jchars (t +:+ s) ↔ jchars s.
Proof.
  induction t as [|c t IH]; cbn; [done|]. intros [Hc Ht]%andb_prop.
  rewrite <-IH by done. split; [|intros; constructor; [lia..|done]].
  inversion 1; subst; [done|cbn in Hc; done..].
Qed.

Lemma EncodeRune_high r : scalar r → 128 <= r → high (EncodeRune r).
Proof.
  intros Hs Hr. destruct (EncodeRune_head r Hs Hr) as (c & t & -> & Hc & Ht). cbn. rewrite Ht. lia.
Qed.

Lemma jchars_drop_rune c s : 128 <= code c → jchars (String c s) →
  jchars (str_drop (DecodeRune (String c s)).2 (String c s)).
Proof.
  intros Hc Hj. remember (String c s) as x eqn:Ex.
  destruct (DecodeRune_decoded x ltac:(by subst)) as [? ? ?|? ? ?|r s' Hs Hr].
  - simplify_eq. lia.
  - simplify_eq. by inversion Hj; subst.
  - rewrite str_drop_app. by eapply jchars_high, Hj; apply EncodeRune_high.
Qed.

(** The decoder only produces well-formed UTF-8. *)
Lemma simple_escape_ascii e : is_simple_escape e = true →
  code e ≠ 117 ∧ code (simple_escape_byte e) < 128.
Proof.
  unfold is_simple_escape, simple_escape_byte. cbn [existsb]. intros He. split; [lia|].
  repeat case_match; try (rewrite code_byte_of; lia). lia.
Qed.

Lemma unquote_surrogate h1 h2 h3 h4 r : is_surrogate (hex4 h1 h2 h3 h4) = true → ∃ rn t,
  (String.length t ≤ String.length r)%nat ∧ (jchars r → jchars t) ∧
  unquote (String c_backslash (String "u" (String h1 (String h2 (String h3 (String h4 r)))))) =
    EncodeRune rn +:+ unquote t.
Proof.
  intros Hs. unfold unquote at 1. rewrite unquote_fuel_S.
  rewrite (proj2 (Z.eqb_eq (code c_backslash) 92) eq_refl), (proj2 (Z.eqb_eq (code "u") 117) eq_refl).
  cbn zeta. rewrite Hs.
  assert (∃ rn t, (String.length t ≤ String.length r)%nat ∧ (jchars r → jchars t) ∧
    EncodeRune rune_error +:+ unquote_fuel (String.length (String c_backslash (String "u"
      (String h1 (String h2 (String h3 (String h4 r))))))) r = EncodeRune rn +:+ unquote t) as Hdef.
  { exists rune_error, r. split_and!; [done..|]. by rewrite unquote_fuel_is by (cbn; lia). }
  destruct r as [|b [|u [|k1 [|k2 [|k3 [|k4 r]]]]]]; try exact Hdef.
  destruct ((code b =? 92) && (code u =? 117)) eqn:Ebu; [|exact Hdef].
  destruct (surrogate_pair _ _) as [full|]; [|exact Hdef]. exists full, r.
  split_and!; [cbn; lia| |by rewrite unquote_fuel_is by (cbn; lia)].
  intros Hj. apply andb_prop in Ebu as [Hb%Z.eqb_eq Hu%Z.eqb_eq].
  char_eq b c_backslash. char_eq u "u"%char.
  inversion Hj as [|? ? ? ? Hne| |]; [by destruct Hne| |done]. by exfalso.
Qed.

Lemma unquote_valid raw : jchars raw → valid_utf8 (unquote raw).
Proof.
  induction raw as [raw IH] using str_len_ind. intros Hj. destruct Hj as [|c s H1 H2 H3 Hj|e s He Hj|h1 h2 h3 h4 s ???? Hj].
  - done.
  - destruct (Z.ltb_spec (code c) 128).
    + rewrite unquote_plain by done. apply valid_ascii; [done|]. apply IH; [cbn; lia|done].
    + rewrite unquote_multi by done. apply valid_rune, IH.
      * rewrite str_drop_length. pose proof (DecodeRune_width (String c s) ltac:(done)). cbn [String.length]. lia.
      * apply jchars_drop_rune; [done|by constructor].
  - apply simple_escape_ascii in He as [? ?]. rewrite unquote_escape by done.
    apply valid_ascii; [done|]. apply IH; [cbn; lia|done].
  - destruct (is_surrogate (hex4 h1 h2 h3 h4)) eqn:Es.
    + destruct (unquote_surrogate _ _ _ _ s Es) as (rn & t & Hl & Ht & ->).
      apply valid_rune, IH; [cbn; lia|auto].
    + rewrite unquote_unicode by done. apply valid_rune, IH; [cbn; lia|done].
Qed.

(** ** Encoding *)

(** What the encoder writes for an ASCII byte, a bad byte and a rune. *)
Definition encode_ascii (c : ascii) : string :=
  if (code c =? 34) || (code c =? 92) then String c_backslash (String c "")
  else if code c =? 8 then String c_backslash "b"
  else if code c =? 12 then String c_backslash "f"
  else if code c =? 10 then String c_backslash "n"
  else if code c =? 13 then String c_backslash "r"
  else if code c =? 9 then String c_backslash "t"
  else if (code c <? 32) || is_html c then u_escape c
  else String c "".

Definition encode_rune (r : Z) : string :=
  if r =? 8232 then String c_backslash "u2028"
  else if r =? 8233 then String c_backslash "u2029" else EncodeRune r.

Lemma str_take_app_le s t n : n = String.length s → str_take n (s +:+ t) = s.
Proof. intros ->. apply str_take_app. Qed.

Lemma encode_fuel_ascii n c s : code c < 128 →
  encode_fuel (S n) (String c s) = encode_ascii c +:+ encode_fuel n s.
Proof. intros Hc. cbn [encode_fuel]. by rewrite (proj2 (Z.ltb_lt _ _)) by done. Qed.

Lemma EncodeRune_length_two r : scalar r → 128 <= r → (2 ≤ String.length (EncodeRune r))%nat.
Proof.
  intros Hs Hr. rewrite EncodeRune_scalar by done. destruct (Z.ltb_spec r 128); [lia|].
  repeat case_match; cbn; lia.
Qed.

Lemma encode_fuel_rune n r s : scalar r → 128 <= r →
  encode_fuel (S n) (EncodeRune r +:+ s) = encode_rune r +:+ encode_fuel n s.
Proof.
  intros Hs Hr. pose proof (DecodeRune_EncodeRune r s Hs) as Hd. pose proof (str_drop_app (EncodeRune r) s) as Hdrop.
  pose proof (str_take_app (EncodeRune r) s) as Htake. pose proof (EncodeRune_length_two r Hs Hr) as Hl.
  unfold encode_rune. destruct (EncodeRune_head r Hs Hr) as (c & t & E & Hc & _). rewrite E in *.
  cbn [String.append] in *. cbn [encode_fuel]. rewrite (proj2 (Z.ltb_ge _ _)) by done. rewrite Hd, Hdrop, Htake.
  rewrite (proj2 (Nat.eqb_neq _ 1)) by lia. rewrite andb_false_r. by repeat case_match.
Qed.

(** A string that does not start with a valid encoding. *)
Lemma encode_fuel_bad n c s : (DecodeRune (String c s)) = (rune_error, 1%nat) → 128 <= code c →
  encode_fuel (S n) (String c s) = String c_backslash "ufffd" +:+ encode_fuel n s.
Proof.
  intros Hd Hc. cbn [encode_fuel]. rewrite (proj2 (Z.ltb_ge _ _)) by done. by rewrite Hd.
Qed.

Lemma hex_digit_spec z : 0 <= z < 16 → is_hex (hex_digit z) = true ∧ hex_val (hex_digit z) = z.
Proof.
  intros Hz. unfold hex_digit, is_hex, hex_val, is_digit, in_range.
  destruct (Z.ltb_spec z 10); rewrite code_byte_of by lia; (split; [lia|]).
  - destruct ((48 <=? 48 + z) && (48 + z <=? 57)) eqn:E; lia.
  - destruct ((48 <=? 87 + z) && (87 + z <=? 57)) eqn:E; [lia|].
    destruct ((97 <=? 87 + z) && (87 + z <=? 102)) eqn:E2; lia.
Qed.

Lemma u_escape_spec c s : code c < 128 →
  (jchars s → jchars (u_escape c +:+ s)) ∧ unquote (u_escape c +:+ s) = String c (unquote s).
Proof.
  intros Hc. pose proof (code_range c). unfold u_escape. cbn [String.append].
  destruct (hex_digit_spec (code c / 16)) as [Hx1 Hv1]; [Z.div_mod_to_equations; lia|].
  destruct (hex_digit_spec (code c mod 16)) as [Hx2 Hv2]; [Z.div_mod_to_equations; lia|].
  assert (hex4 "0" "0" (hex_digit (code c / 16)) (hex_digit (code c mod 16)) = code c) as E.
  { unfold hex4. rewrite Hv1, Hv2. change (hex_val "0") with 0. Z.div_mod_to_equations. lia. }
  split; [by constructor|]. rewrite unquote_unicode; rewrite E.
  - destruct (scalar_ascii c Hc) as [_ ->]. done.
  - unfold is_surrogate, in_range. lia.
Qed.

Lemma encode_ascii_spec c s : code c < 128 →
  (jchars s → jchars (encode_ascii c +:+ s)) ∧ unquote (encode_ascii c +:+ s) = String c (unquote s).
Proof.
  intros Hc. unfold encode_ascii.
  assert (∀ e, is_simple_escape e = true → simple_escape_byte e = c →
    (jchars s → jchars (String c_backslash (String e s))) ∧
    unquote (String c_backslash (String e s)) = String c (unquote s)) as He.
  { intros e He <-. split; [by constructor|]. apply simple_escape_ascii in He as [? _]. by apply unquote_escape. }
  destruct ((code c =? 34) || (code c =? 92)) eqn:E1.
  { apply orb_prop in E1 as [E%Z.eqb_eq|E%Z.eqb_eq];
      [char_eq c c_quote|char_eq c c_backslash]; by apply He. }
  destruct (Z.eqb_spec (code c) 8) as [E|]; [by apply He; [|apply code_inj]|].
  destruct (Z.eqb_spec (code c) 12) as [E|]; [by apply He; [|apply code_inj]|].
  destruct (Z.eqb_spec (code c) 10) as [E|]; [by apply He; [|apply code_inj]|].
  destruct (Z.eqb_spec (code c) 13) as [E|]; [by apply He; [|apply code_inj]|].
  destruct (Z.eqb_spec (code c) 9) as [E|]; [by apply He; [|apply code_inj]|].
  destruct ((code c <? 32) || is_html c) eqn:E2; [by apply u_escape_spec|].
  cbn [String.append]. split; [intros; constructor; [lia..|done]|]. rewrite unquote_plain by lia. done.
Qed.

Lemma encode_rune_spec r s : scalar r → 128 <= r →
  (jchars s → jchars (encode_rune r +:+ s)) ∧ unquote (encode_rune r +:+ s) = EncodeRune r +:+ unquote s.
Proof.
  intros Hs Hr. unfold encode_rune.
  destruct (Z.eqb_spec r 8232) as [->|]; [|destruct (Z.eqb_spec r 8233) as [->|]].
  - split; [by constructor|]. cbn [String.append]. by rewrite unquote_unicode.
  - split; [by constructor|]. cbn [String.append]. by rewrite unquote_unicode.
  - split; [|by apply unquote_rune]. intros. apply jchars_high; [by apply EncodeRune_high|done].
Qed.

Lemma encode_fuel_spec n : ∀ s, (String.length s ≤ n)%nat →
  jchars (encode_fuel n s) ∧ unquote (encode_fuel n s) = sanitize s.
Proof.
  induction n as [|n IH]; intros s Hl.
  { destruct s; [|cbn in Hl; lia]. split; [constructor|done]. }
  destruct (decide (s = "")) as [->|Hs]; [split; [constructor|done]|].
  pose proof (DecodeRune_decoded s Hs) as Hd. rewrite (sanitize_step s Hs).
  remember (DecodeRune s).1 as r eqn:Er. remember (DecodeRune s).2 as k eqn:Ek.
  destruct Hd as [c s Hc|c s Hc|r s Hr Hr']; cbn [str_drop String.length] in *.
  - rewrite encode_fuel_ascii by done. destruct (IH s) as [Hj Hu]; [lia|].
    destruct (encode_ascii_spec c (encode_fuel n s) Hc) as [Hj' Hu']. split; [auto|].
    rewrite Hu', Hu. by destruct (scalar_ascii c Hc) as [_ ->].
  - rewrite encode_fuel_bad; [|by rewrite (surjective_pairing (DecodeRune _)), <-Er, <-Ek|done].
    destruct (IH s) as [Hj Hu]; [lia|]. split; [by constructor|]. cbn [String.append].
    by rewrite unquote_unicode, Hu.
  - rewrite str_length_app in Hl. pose proof (EncodeRune_length r). rewrite str_drop_app.
    rewrite encode_fuel_rune by done. destruct (IH s) as [Hj Hu]; [lia|].
    destruct (encode_rune_spec r (encode_fuel n s) Hr Hr') as [Hj' Hu']. split; [auto|].
    by rewrite Hu', Hu.
Qed.

(** The text between the quotes of an encoded string. *)
Definition encode_body (s : string) : string := encode_fuel (String.length s) s.

Lemma encode_string_quoted s : encode_string s = quoted (encode_body s).
Proof. done. Qed.

Lemma encode_body_jchars s : jchars (encode_body s).
Proof. by apply encode_fuel_spec. Qed.

(** Decoding an encoded string. *)
Lemma unquote_encode s : unquote (encode_body s) = sanitize s.
Proof. by apply encode_fuel_spec. Qed.

Lemma unquote_encode_valid s : valid_utf8 s → unquote (encode_body s) = s.
Proof. intros Hs. by rewrite unquote_encode. Qed.

Lemma encode_string_value d s : jvalue d (encode_string s) (JStr (encode_body s)).
Proof. constructor. apply encode_body_jchars. Qed.

#[export] Hint Resolve encode_string_value encode_body_jchars : json.
