(* ===== verification/JsonCompact.v ===== *)
(** * Compacting keeps the meaning of a text

    Encoding a [json.RawMessage] compacts it: white space between tokens goes and
    some characters of strings are written as escapes.  The result is a text of
    the same value. *)
From S2P Require Import Prelude GoStd Utf8 Json StreamDetect JsonFuel JsonGrammar JsonString.

(** ** The value of a text, independent of how its strings are written *)

#[warnings="-register-all"] Inductive sem : Type :=
| VNull
| VBool (b : bool)
| VNum (lit : string)
| VStr (s : string)
| VArr (l : list sem)
| VObj (l : list (string * sem)).

Fixpoint sem_of (j : json) : sem :=
  match j with
  | JNull => VNull
  | JBool b => VBool b
  | JNum lit => VNum lit
  | JStr raw => VStr (unquote raw)
  | JArr l => VArr ((fix go l := match l with [] => [] | x :: l' => sem_of x :: go l' end) l)
  | JObj ms => VObj ((fix go ms := match ms with
                       | [] => []
                       | (k, _, x) :: ms' => (unquote k, sem_of x) :: go ms'
                       end) ms)
  end.

Lemma sem_of_arr l : sem_of (JArr l) = VArr (sem_of <$> l).
Proof. done. Qed.

Lemma sem_of_obj ms : sem_of (JObj ms) = VObj ((λ '(k, _, x), (unquote k, sem_of x)) <$> ms).
Proof. cbn. f_equal. by induction ms as [|[[k raw] x] ms IH]; cbn; [|rewrite IH]. Qed.

(** ** Inside a string *)

(** Bytes that are no part of what compacting rewrites. *)
Definition inert (c : ascii) : Prop := is_html c = false ∧ code c ≠ 226.

Lemma compact_inert (st esc : bool) c s : inert c → (st = false → is_json_space c = false) →
  compact_go st esc (String c s) =
    String c (compact_go (if st then esc || negb (code c =? 34) else code c =? 34)
                (st && negb esc && (code c =? 92)) s).
Proof.
  intros [Hh H2] Hsp. cbn [compact_go]. rewrite Hh.
  assert (negb st && is_json_space c = false) as Hs by (destruct st; cbn; auto). rewrite Hs.
  destruct s as [|b [|d s]]; [done..|]. by rewrite (proj2 (Z.eqb_neq (code c) 226)).
Qed.

Lemma compact_html st esc c s : is_html c = true →
  compact_go st esc (String c s) = u_escape c +:+ compact_go st false s.
Proof. intros Hh. cbn [compact_go]. by rewrite Hh. Qed.

(** A character of a literal that is no quote or backslash. *)
Definition plain (c : ascii) : Prop := 32 <= code c ∧ code c ≠ 34 ∧ code c ≠ 92.

Lemma compact_plain c s : plain c → inert c →
  compact_go true false (String c s) = String c (compact_go true false s).
Proof.
  intros (? & ? & ?) Hi. rewrite compact_inert by done.
  rewrite !(proj2 (Z.eqb_neq _ _)) by done. done.
Qed.

Lemma compact_escape e s : inert e →
  compact_go true false (String c_backslash (String e s)) =
    String c_backslash (String e (compact_go true false s)).
Proof.
  intros He. rewrite compact_inert by done. f_equal.
  change (compact_go true true (String e s) = String e (compact_go true false s)).
  rewrite compact_inert by done. cbn. done.
Qed.

(** Compacting only touches the first byte of U+2028 and U+2029, which is no
    continuation byte. *)
Definition cont (c : ascii) : bool := in_range 128 191 (code c).

Lemma cont_inert c : cont c = true → plain c ∧ inert c.
Proof.
  unfold cont, plain, inert, is_html, in_range. intros. split; [lia|]. split; [|lia]. lia.
Qed.

Fixpoint cont_agree (n : nat) (x y : string) : Prop :=
  match n with
  | O => True
  | S n' =>
    match x, y with
    | String c x', String d y' => if cont c then c = d ∧ cont_agree n' x' y' else cont d = false
    | String c _, EmptyString => cont c = false
    | EmptyString, String d _ => cont d = false
    | EmptyString, EmptyString => True
    end
  end.

Lemma DecodeRune_agree c x y : cont_agree 3 x y → DecodeRune (String c x) = DecodeRune (String c y).
Proof.
  intros H. cbn [DecodeRune]. destruct (code c <? 128); [done|].
  destruct (utf8_first (code c)) as [[[n lo] hi]|] eqn:E; [|by destruct x, y].
  assert (∀ d, cont d = false → in_range lo hi (code d) = false) as Hno.
  { apply utf8_first_cases in E. unfold cont, in_range. intros. lia. }
  assert (∀ d, cont d = false → in_range 128 191 (code d) = false) as Hno' by done.
  destruct x as [|c1 x], y as [|d1 y]; cbn [cont_agree] in H; try done; rewrite ?Hno by done; [done..|].
  destruct (cont c1) eqn:E1; [|by rewrite !Hno]. destruct H as [<- H].
  destruct (in_range lo hi (code c1)); [cbn [negb]|done]. destruct (n =? 2); [done|].
  destruct x as [|c2 x], y as [|d2 y]; cbn [cont_agree] in H; try done; rewrite ?Hno' by done; [done..|].
  destruct (cont c2) eqn:E2; [|by rewrite !Hno']. destruct H as [<- H].
  destruct (in_range 128 191 (code c2)); [cbn [negb]|done]. destruct (n =? 3); [done|].
  destruct x as [|c3 x], y as [|d3 y]; cbn [cont_agree] in H; try done; rewrite ?Hno' by done; [done..|].
  destruct (cont c3) eqn:E3; [|by rewrite !Hno']. by destruct H as [<- _].
Qed.

Lemma compact_agree n : ∀ x, cont_agree n x (compact_go true false x).
Proof.
  induction n as [|n IH]; intros x; [done|]. destruct x as [|c x]; [done|]. cbn [cont_agree].
  destruct (cont c) eqn:Ec.
  - apply cont_inert in Ec as [? ?]. rewrite compact_plain by done. auto.
  - cbn [compact_go]. destruct (is_html c); [done|].
    destruct x as [|b [|d x]]; [done..|]. by destruct ((code c =? 226) && _ && _).
Qed.

(** How the characters of a literal are rewritten. *)
Inductive compacts : string → string → Prop :=
| cp_nil : compacts "" ""
| cp_plain c x y : code c < 128 → plain c → inert c → compacts x y → compacts (String c x) (String c y)
| cp_html c x y : is_html c = true → compacts x y → compacts (String c x) (u_escape c +:+ y)
| cp_line r x y : r = 8232 ∨ r = 8233 → compacts x y → compacts (EncodeRune r +:+ x) (encode_rune r +:+ y)
| cp_rune r x y : scalar r → 128 <= r → r ≠ 8232 → r ≠ 8233 → compacts x y →
    compacts (EncodeRune r +:+ x) (EncodeRune r +:+ y)
| cp_bad c x y : 128 <= code c → DecodeRune (String c x) = (rune_error, 1%nat) →
    DecodeRune (String c y) = (rune_error, 1%nat) → compacts x y → compacts (String c x) (String c y)
| cp_escape e x y : is_simple_escape e = true → compacts x y →
    compacts (String c_backslash (String e x)) (String c_backslash (String e y))
| cp_unicode h1 h2 h3 h4 x y :
    is_hex h1 = true → is_hex h2 = true → is_hex h3 = true → is_hex h4 = true → compacts x y →
    compacts (String c_backslash (String "u" (String h1 (String h2 (String h3 (String h4 x))))))
      (String c_backslash (String "u" (String h1 (String h2 (String h3 (String h4 y)))))).

Lemma compacts_jchars x y : compacts x y → jchars y.
Proof.
  induction 1 as [|c x y ? (? & ? & ?) _ _ IH|c x y Hh _ IH|r x y Hr _ IH|r x y ???? _ IH|c x y ??? _ IH|e x y ? _ IH|];
    try by constructor.
  - apply u_escape_spec; [|done]. unfold is_html in Hh. lia.
  - apply encode_rune_spec; [|destruct Hr; lia|done]. unfold scalar. destruct Hr; lia.
  - apply jchars_high; [by apply EncodeRune_high|done].
  - constructor; [lia..|done].
Qed.

#[local] Opaque unquote_fuel.

(** The second half of a surrogate pair, at the start of a text. *)
Definition pair_at (hi : Z) (x : string) : option (Z * string) :=
  match x with
  | String b (String u (String k1 (String k2 (String k3 (String k4 r))))) =>
    if (code b =? 92) && (code u =? 117)
    then (λ full, (full, r)) <$> surrogate_pair hi (hex4 k1 k2 k3 k4) else None
  | _ => None
  end.

Lemma unquote_pair h1 h2 h3 h4 x : is_surrogate (hex4 h1 h2 h3 h4) = true →
  unquote (String c_backslash (String "u" (String h1 (String h2 (String h3 (String h4 x)))))) =
    match pair_at (hex4 h1 h2 h3 h4) x with
    | Some (full, r) => EncodeRune full +:+ unquote r
    | None => EncodeRune rune_error +:+ unquote x
    end.
Proof.
  intros Hs. unfold unquote at 1. rewrite unquote_fuel_S.
  rewrite (proj2 (Z.eqb_eq (code c_backslash) 92) eq_refl), (proj2 (Z.eqb_eq (code "u") 117) eq_refl).
  cbn zeta. rewrite Hs.
  destruct x as [|b [|u [|k1 [|k2 [|k3 [|k4 x]]]]]]; unfold pair_at;
    try (rewrite unquote_fuel_is by (cbn; lia); done).
  destruct ((code b =? 92) && (code u =? 117)); [destruct (surrogate_pair _ _); cbn|];
    by rewrite unquote_fuel_is by (cbn; lia).
Qed.

Lemma pair_at_head hi c x : code c ≠ 92 → pair_at hi (String c x) = None.
Proof.
  intros Hc. destruct x as [|u [|k1 [|k2 [|k3 [|k4 x]]]]]; try done. cbn [pair_at].
  by rewrite (proj2 (Z.eqb_neq _ _)).
Qed.

Lemma pair_at_escape hi e x : is_simple_escape e = true → pair_at hi (String c_backslash (String e x)) = None.
Proof.
  intros [He _]%simple_escape_ascii. destruct x as [|k1 [|k2 [|k3 [|k4 x]]]]; try done. cbn [pair_at].
  by rewrite (proj2 (Z.eqb_neq (code e) 117)), andb_false_r.
Qed.

Lemma pair_at_low hi k1 k2 k3 k4 x : hex4 k1 k2 k3 k4 < 56320 →
  pair_at hi (String c_backslash (String "u" (String k1 (String k2 (String k3 (String k4 x)))))) = None.
Proof.
  intros Hk. cbn [pair_at]. case_match; [|done]. unfold surrogate_pair, in_range.
  rewrite (proj2 (Z.leb_gt 56320 _)) by done. cbn [andb]. by rewrite andb_false_r.
Qed.

Lemma pair_at_high hi r x : scalar r → 128 <= r → pair_at hi (EncodeRune r +:+ x) = None.
Proof.
  intros Hs Hr. destruct (EncodeRune_head r Hs Hr) as (c & t & -> & Hc & _). apply pair_at_head. lia.
Qed.

(** Rewriting does not make or break a pair. *)
Lemma pair_at_compacts hi x y : compacts x y →
  (∃ full x' y', pair_at hi x = Some (full, x') ∧ pair_at hi y = Some (full, y') ∧
     compacts x' y' ∧ (String.length x' < String.length x)%nat) ∨
  (pair_at hi x = None ∧ pair_at hi y = None).
Proof.
  destruct 1 as [|c x y ? (? & ? & ?) ? _|c x y Hh _|r x y Hr _|r x y ???? _|c x y ??? _|e x y ? _|k1 k2 k3 k4 x y ???? Hxy].
  1-7: right; split; try done.
  - by apply pair_at_head.
  - by apply pair_at_head.
  - apply pair_at_head. unfold is_html in Hh. lia.
  - assert (code c < 128) as Hc by (unfold is_html in Hh; lia). pose proof (code_range c).
    unfold u_escape. cbn [String.append]. apply pair_at_low. unfold hex4.
    destruct (hex_digit_spec (code c / 16)) as [_ ->]; [Z.div_mod_to_equations; lia|].
    destruct (hex_digit_spec (code c mod 16)) as [_ ->]; [Z.div_mod_to_equations; lia|].
    change (hex_val "0") with 0. Z.div_mod_to_equations. lia.
  - apply pair_at_high; unfold scalar; destruct Hr; lia.
  - destruct Hr; subst; by apply pair_at_low.
  - by apply pair_at_high.
  - by apply pair_at_high.
  - apply pair_at_head. lia.
  - apply pair_at_head. lia.
  - by apply pair_at_escape.
  - by apply pair_at_escape.
  - cbn [pair_at]. destruct ((code c_backslash =? 92) && (code "u" =? 117)); [|by right].
    destruct (surrogate_pair hi _) as [full|]; [|by right].
    left. exists full, x, y. split_and!; [done..|cbn; lia].
Qed.

Lemma unquote_bad c x : 128 <= code c → DecodeRune (String c x) = (rune_error, 1%nat) →
  unquote (String c x) = EncodeRune rune_error +:+ unquote x.
Proof. intros Hc Hd. rewrite unquote_multi by done. by rewrite Hd. Qed.

Lemma compacts_unquote x y : compacts x y → unquote y = unquote x.
Proof.
  revert y. induction x as [x IH] using str_len_ind. intros y Hxy.
  pose proof (EncodeRune_length) as Hlen. destruct Hxy as
    [|c x y Hc (? & ? & ?) ? Hxy|c x y Hh Hxy|r x y Hr Hxy|r x y ???? Hxy|c x y ??? Hxy|e x y He Hxy|h1 h2 h3 h4 x y ???? Hxy].
  - done.
  - rewrite !unquote_plain by done. f_equal. apply IH; [cbn; lia|done].
  - assert (code c < 128 ∧ code c ≠ 92) as [? ?] by (unfold is_html in Hh; lia).
    rewrite (proj2 (u_escape_spec c y ltac:(done))), unquote_plain by done.
    f_equal. apply IH; [cbn; lia|done].
  - assert (scalar r ∧ 128 <= r) as [? ?] by (unfold scalar; destruct Hr; lia).
    rewrite (proj2 (encode_rune_spec r y ltac:(done) ltac:(done))), unquote_rune by done.
    f_equal. apply IH; [|done]. rewrite str_length_app. specialize (Hlen r). lia.
  - rewrite !unquote_rune by done. f_equal. apply IH; [|done]. rewrite str_length_app. specialize (Hlen r). lia.
  - rewrite !unquote_bad by done. f_equal. apply IH; [cbn; lia|done].
  - apply simple_escape_ascii in He as [? _]. rewrite !unquote_escape by done. f_equal. apply IH; [cbn; lia|done].
  - destruct (is_surrogate (hex4 h1 h2 h3 h4)) eqn:Es.
    + rewrite !unquote_pair by done.
      destruct (pair_at_compacts (hex4 h1 h2 h3 h4) x y Hxy) as [(full & x' & y' & -> & -> & Hxy' & ?)|[-> ->]];
        f_equal; (apply IH; [cbn; lia|done]).
    + rewrite !unquote_unicode by done. f_equal. apply IH; [cbn; lia|done].
Qed.

Lemma str_app_cons_inv c s t r : String c s = t +:+ r → t ≠ "" → ∃ t', t = String c t' ∧ s = t' +:+ r.
Proof. destruct t as [|d t]; [done|]. cbn. intros E _. simplify_eq. eauto. Qed.

Lemma is_simple_escape_inert e : is_simple_escape e = true → inert e.
Proof. unfold is_simple_escape, inert, is_html. cbn [existsb]. intros. split; lia. Qed.

Lemma is_hex_inert h : is_hex h = true → plain h ∧ inert h.
Proof. unfold is_hex, inert, is_html, is_digit, in_range, plain. intros. split_and!; lia. Qed.

(** The encodings of U+2028 and U+2029. *)
Definition line_sep (s : string) : bool :=
  match s with
  | String a (String b (String d _)) => (code a =? 226) && (code b =? 128) && in_range 168 169 (code d)
  | _ => false
  end.

Lemma compact_lead c s : plain c → is_html c = false → line_sep (String c s) = false →
  compact_go true false (String c s) = String c (compact_go true false s).
Proof.
  intros (? & ? & ?) Hh Hl. cbn [compact_go]. rewrite Hh.
  destruct s as [|b [|d s]]; cbn [line_sep] in Hl; rewrite ?Hl; cbn [negb andb orb];
    by rewrite !(proj2 (Z.eqb_neq _ _)) by done.
Qed.

Lemma compact_sep r s : r = 8232 ∨ r = 8233 →
  compact_go true false (EncodeRune r +:+ s) = encode_rune r +:+ compact_go true false s.
Proof. intros [-> | ->]; reflexivity. Qed.

Lemma line_sep_app s t : line_sep (s +:+ String c_quote t) = true →
  ∃ r x, (r = 8232 ∨ r = 8233) ∧ s = EncodeRune r +:+ x.
Proof.
  assert (∀ a b d, (code a =? 226) && (code b =? 128) && in_range 168 169 (code d) = true →
    ∃ r, (r = 8232 ∨ r = 8233) ∧ String a (String b (String d "")) = EncodeRune r) as Hr.
  { intros a b d E. unfold in_range in E. assert (code a = 226 ∧ code b = 128 ∧ (code d = 168 ∨ code d = 169)) as (Ha & Hb & Hd) by lia.
    char_eq a (byte_of 226). char_eq b (byte_of 128).
    destruct Hd as [Hd|Hd]; [char_eq d (byte_of 168); exists 8232|char_eq d (byte_of 169); exists 8233]; auto. }
  destruct s as [|a [|b [|d s]]]; cbn [String.append line_sep].
  - destruct t as [|? [|? ?]]; done.
  - destruct t as [|? ?]; [done|]. change (code c_quote =? 128) with false. by rewrite andb_false_r.
  - change (in_range 168 169 (code c_quote)) with false. by rewrite andb_false_r.
  - intros (r & ? & E)%Hr. exists r, s. by rewrite <-E.
Qed.

Lemma compact_conts t s : str_forallb cont t = true → compact_go true false (t +:+ s) = t +:+ compact_go true false s.
Proof.
  induction t as [|c t IH]; cbn [str_forallb String.append]; [done|]. intros [Hc Ht]%andb_prop.
  apply cont_inert in Hc as [? ?]. by rewrite compact_plain, IH.
Qed.

Lemma EncodeRune_conts r : scalar r → 128 <= r →
  ∃ c t, EncodeRune r = String c t ∧ 128 <= code c ∧ str_forallb cont t = true.
Proof.
  intros Hs Hr. pose proof Hs as [? ?]. rewrite EncodeRune_scalar by done.
  assert (∀ z, cont (byte_of (128 + z mod 64)) = true) as Hm.
  { intros z. pose proof (Z.mod_pos_bound z 64). unfold cont, in_range. rewrite code_byte_of; lia. }
  destruct (Z.ltb_spec r 128); [lia|].
  destruct (Z.ltb_spec r 2048); [|destruct (Z.ltb_spec r 65536)]; eexists _, _; (split; [done|]);
    cbn [str_forallb]; rewrite !Hm; (split; [|done]); rewrite code_byte_of; Z.div_mod_to_equations; lia.
Qed.

Lemma compact_rune r x t : scalar r → 128 <= r → r ≠ 8232 → r ≠ 8233 →
  compact_go true false (EncodeRune r +:+ x +:+ String c_quote t) =
    EncodeRune r +:+ compact_go true false (x +:+ String c_quote t).
Proof.
  intros Hs Hr H1 H2. destruct (line_sep (EncodeRune r +:+ x +:+ String c_quote t)) eqn:E.
  { exfalso. rewrite <-str_app_assoc in E. apply line_sep_app in E as (r' & x' & Hr' & E).
    apply (f_equal DecodeRune) in E. rewrite !DecodeRune_EncodeRune in E; [|unfold scalar; lia|done].
    simplify_eq. lia. }
  destruct (EncodeRune_conts r Hs Hr) as (c & u & Eu & Hc & Hu). rewrite Eu in *. cbn [String.append] in *.
  rewrite compact_lead; [|unfold plain; lia|unfold is_html; lia|done]. by rewrite compact_conts.
Qed.

Lemma agree_quote n x : cont_agree n x (x +:+ String c_quote "").
Proof.
  revert x. induction n as [|n IH]; intros [|c x]; try done. cbn. by destruct (cont c) eqn:Ec.
Qed.

Lemma DecodeRune_compact c x y : (∀ s, compact_go true false (x +:+ String c_quote s) =
    y +:+ String c_quote (compact_go false false s)) →
  DecodeRune (String c y) = DecodeRune (String c x).
Proof.
  intros H. rewrite (DecodeRune_agree c y _ (agree_quote 3 y)), (DecodeRune_agree c x _ (agree_quote 3 x)).
  rewrite (DecodeRune_agree c _ _ (compact_agree 3 (x +:+ String c_quote ""))). by rewrite H.
Qed.

Lemma compact_chars raw : jchars raw → ∃ craw, compacts raw craw ∧
  ∀ s, compact_go true false (raw +:+ String c_quote s) = craw +:+ String c_quote (compact_go false false s).
Proof.
  induction raw as [raw IH] using str_len_ind. intros Hj.
  destruct Hj as [|c x H1 H2 H3 Hj|e x He Hj|h1 h2 h3 h4 x Hh1 Hh2 Hh3 Hh4 Hj].
  - exists "". split; [constructor|]. intros s. cbn [String.append]. by rewrite compact_inert.
  - destruct (is_html c) eqn:Hh.
    { destruct (IH x) as (y & Hxy & Hy); [cbn; lia|done|]. exists (u_escape c +:+ y).
      split; [by constructor|]. intros s. cbn [String.append]. by rewrite compact_html, Hy, str_app_assoc. }
    destruct (Z.ltb_spec (code c) 128) as [Hc|Hc].
    { destruct (IH x) as (y & Hxy & Hy); [cbn; lia|done|]. exists (String c y).
      assert (inert c) by (split; [done|lia]). split; [by constructor|]. intros s. cbn [String.append].
      by rewrite compact_plain, Hy. }
    remember (String c x) as raw eqn:Eraw. remember (DecodeRune raw) as rd eqn:Erd.
    pose proof (DecodeRune_decoded raw ltac:(by subst)) as Hd. rewrite <-Erd in Hd.
    remember rd.1 as r eqn:Er. remember rd.2 as k eqn:Ek.
    destruct Hd as [c' s' ?|c' s' ?|r s' Hs Hr]; [simplify_eq; lia|..].
    + simplify_eq. destruct (IH x) as (y & Hxy & Hy); [cbn; lia|done|]. exists (String c y).
      assert (DecodeRune (String c x) = (rune_error, 1%nat)) as Hbad
        by by rewrite (surjective_pairing (DecodeRune _)), <-Er, <-Ek.
      split; [apply cp_bad; [done..| |done]; by rewrite (DecodeRune_compact c x y Hy)|].
      intros s. cbn [String.append]. rewrite compact_lead, Hy; [done|by unfold plain|done|].
      apply not_true_iff_false. intros (r & z & Hr & E)%(line_sep_app (String c x)). rewrite E in Hbad.
      rewrite DecodeRune_EncodeRune in Hbad by (unfold scalar; lia). destruct Hr; by simplify_eq.
    + clear Er Ek Erd rd. assert (jchars s') as Hs'.
      { eapply jchars_high; [by apply EncodeRune_high|]. rewrite Eraw. by constructor. }
      destruct (IH s') as (y & Hxy & Hy); [|done|].
      { rewrite str_length_app. pose proof (EncodeRune_length r). lia. }
      destruct (decide (r = 8232 ∨ r = 8233)) as [Hsep|Hsep].
      * exists (encode_rune r +:+ y). split; [by apply cp_line|]. intros s.
        by rewrite !str_app_assoc, compact_sep, Hy.
      * exists (EncodeRune r +:+ y). split; [apply cp_rune; [done|done|lia|lia|done]|]. intros s.
        by rewrite !str_app_assoc, compact_rune, Hy by (done || lia).
  - destruct (IH x) as (y & Hxy & Hy); [cbn; lia|done|]. eexists. split; [by apply cp_escape|].
    intros s. cbn [String.append]. rewrite compact_escape by by apply is_simple_escape_inert. by rewrite Hy.
  - destruct (IH x) as (y & Hxy & Hy); [cbn; lia|done|]. eexists. split; [by apply cp_unicode|].
    intros s. cbn [String.append].
    apply is_hex_inert in Hh1 as [? ?], Hh2 as [? ?], Hh3 as [? ?], Hh4 as [? ?].
    rewrite compact_escape by done. by rewrite !compact_plain, Hy.
Qed.

(** ** Between strings *)

Definition token (c : ascii) : bool :=
  negb (is_html c) && negb (code c =? 226) && negb (is_json_space c) && negb (code c =? 34).

Lemma compact_ws w s : ws w → compact_go false false (w +:+ s) = compact_go false false s.
Proof.
  induction w as [|c w IH]; [done|]. rewrite ws_cons. intros [Hc Hw]. cbn [String.append compact_go].
  assert (is_html c = false) as -> by (unfold is_html, is_json_space in *; lia).
  rewrite Hc. cbn [negb andb].
  assert ((code c =? 226) = false) as E by (unfold is_json_space in *; lia).
  destruct (w +:+ s) as [|b [|d x]] eqn:Ew; rewrite ?E; cbn [andb]; by apply IH.
Qed.

Lemma compact_token t s : str_forallb token t = true →
  compact_go false false (t +:+ s) = t +:+ compact_go false false s.
Proof.
  induction t as [|c t IH]; cbn [str_forallb String.append]; [done|]. intros [Hc Ht]%andb_prop.
  unfold token in Hc. destruct (is_html c) eqn:Hh; [done|]. destruct (is_json_space c) eqn:Hs; [by rewrite andb_false_r in Hc|].
  rewrite compact_inert; [|split; [done|lia]|done]. rewrite (proj2 (Z.eqb_neq (code c) 34)) by lia. cbn [andb]. by rewrite IH.
Qed.

Lemma compact_char c s : token c = true → compact_go false false (String c s) = String c (compact_go false false s).
Proof. intros Hc. apply (compact_token (String c "")). cbn. by rewrite Hc. Qed.

Lemma compact_quoted raw : jchars raw → ∃ craw, jchars craw ∧ unquote craw = unquote raw ∧
  ∀ s, compact_go false false (quoted raw +:+ s) = quoted craw +:+ compact_go false false s.
Proof.
  intros (craw & Hc & Hs)%compact_chars. exists craw.
  split_and!; [by eapply compacts_jchars|by apply compacts_unquote|]. intros s. unfold quoted. str_norm.
  rewrite compact_inert by done. f_equal. apply Hs.
Qed.

Lemma jnumber_token lit : jnumber lit → str_forallb token lit = true.
Proof.
  intros Hn. pose proof (scan_number_complete lit "" Hn I) as Hs. rewrite str_app_nil_r in Hs.
  apply scan_number_spec in Hs as (_ & Hb & _). revert Hb. apply str_forallb_impl.
  intros c. unfold is_number_byte, token, is_html, is_json_space, is_digit, in_range. cbn [existsb]. lia.
Qed.

Definition value_compact d t v := ∃ t' v', jvalue d t' v' ∧ sem_of v' = sem_of v ∧
  ∀ s, compact_go false false (t +:+ s) = t' +:+ compact_go false false s.
Definition elems_compact d t vs := ∃ t' vs', jelems d t' vs' ∧ sem_of <$> vs' = sem_of <$> vs ∧
  ∀ s, compact_go false false (t +:+ s) = t' +:+ compact_go false false s.
Definition sem_member (m : string * string * json) : string * sem := (unquote m.1.1, sem_of m.2).
Definition members_compact d t ms := ∃ t' ms', jmembers d t' ms' ∧ sem_member <$> ms' = sem_member <$> ms ∧
  ∀ s, compact_go false false (t +:+ s) = t' +:+ compact_go false false s.

Lemma sem_of_members ms : sem_of (JObj ms) = VObj (sem_member <$> ms).
Proof. rewrite sem_of_obj. f_equal. apply list_fmap_ext. by intros i [[k raw] x] _. Qed.

Lemma compact_text :
  (∀ d t v, jvalue d t v → value_compact d t v) ∧
  (∀ d t vs, jelems d t vs → elems_compact d t vs) ∧
  (∀ d t ms, jmembers d t ms → members_compact d t ms).
Proof.
  apply jtext_rule; intros d.
  - exists "null", JNull. split_and!; [constructor|done|]. intros s. by apply compact_token.
  - intros b. exists (if b then "true" else "false"), (JBool b). split_and!; [constructor|done|].
    intros s. by apply compact_token; destruct b.
  - intros lit Hn. exists lit, (JNum lit). split_and!; [by constructor|done|].
    intros s. by apply compact_token, jnumber_token.
  - intros raw (craw & Hc & Hu & Hs)%compact_quoted. exists (quoted craw), (JStr craw).
    split_and!; [by constructor|cbn; by rewrite Hu|done].
  - intros w Hd Hw. exists "[]", (JArr []). split_and!; [by apply (jv_arr_nil d "")|done|].
    intros s. str_norm. by rewrite compact_char, compact_ws, compact_char.
  - intros t vs Hd Ht (t' & vs' & Ht' & Hvs & Hs). exists (String "[" t'), (JArr vs').
    split_and!; [by constructor|by rewrite !sem_of_arr, Hvs|]. intros s. str_norm. by rewrite compact_char, Hs.
  - intros w Hd Hw. exists "{}", (JObj []). split_and!; [by apply (jv_obj_nil d "")|done|].
    intros s. str_norm. by rewrite compact_char, compact_ws, compact_char.
  - intros t ms Hd Ht (t' & ms' & Ht' & Hms & Hs). exists (String "{" t'), (JObj ms').
    split_and!; [by constructor|by rewrite !sem_of_members, Hms|]. intros s. str_norm. by rewrite compact_char, Hs.
  - intros w t v w' Hw Ht (t' & v' & Hv' & Hsem & Hs) Hw'. exists (t' +:+ "]"), [v'].
    split_and!; [by apply (je_last d "" t' v' "")|by cbn; rewrite Hsem|].
    intros s. str_norm. by rewrite compact_ws, Hs, compact_ws, compact_char.
  - intros w t v w' u vs Hw Ht (t' & v' & Hv' & Hsem & Hs) Hw' Hu (u' & vs' & Hu' & Hvs & Hs').
    exists (t' +:+ String "," u'), (v' :: vs').
    split_and!; [by apply (je_cons d "" t' v' "")|by rewrite !fmap_cons, Hsem, Hvs|].
    intros s. str_norm. by rewrite compact_ws, Hs, compact_ws, compact_char, Hs'.
  - intros w k w1 w2 t v w3 Hw (k' & Hk' & Hku & Hks)%compact_quoted Hw1 Hw2 Ht (t' & v' & Hv' & Hsem & Hs) Hw3.
    exists (quoted k' +:+ String ":" (t' +:+ "}")), [(k', t', v')].
    split_and!; [by apply (jm_last d "" k' "" "" t' v' "")|unfold sem_member; cbn; by rewrite Hku, Hsem|].
    intros s. str_norm. by rewrite compact_ws, Hks, compact_ws, compact_char, compact_ws, Hs, compact_ws, compact_char.
  - intros w k w1 w2 t v w3 u ms Hw (k' & Hk' & Hku & Hks)%compact_quoted Hw1 Hw2 Ht (t' & v' & Hv' & Hsem & Hs) Hw3
      Hu (u' & ms' & Hu' & Hms & Hs').
    exists (quoted k' +:+ String ":" (t' +:+ String "," u')), ((k', t', v') :: ms').
    split_and!; [by apply (jm_cons d "" k' "" "" t' v' "")|rewrite !fmap_cons, Hms; unfold sem_member at 1 3; cbn; by rewrite Hku, Hsem|].
    intros s. str_norm. by rewrite compact_ws, Hks, compact_ws, compact_char, compact_ws, Hs, compact_ws, compact_char, Hs'.
Qed.

(** The compacted text of a value is a text of the same value. *)
Theorem compact_value d t v : jvalue d t v →
  ∃ v', jvalue d (compact t) v' ∧ sem_of v' = sem_of v.
Proof.
  intros (t' & v' & Ht' & Hsem & Hs)%(proj1 compact_text). exists v'. unfold compact.
  specialize (Hs ""). rewrite !str_app_nil_r in Hs. by rewrite Hs.
Qed.
