(* ===== verification/JsonEnc.v ===== *)
(** * encoding/json: structs, slices and numbers

    [json.Marshal] for the types of the provider adapters: fields in declaration
    order, [omitempty], slices and pointers that may be nil, raw messages.  Each
    encoder comes with the value its text denotes, and a decoder of the same type
    reads that value back. *)
From stdpp Require Import pretty.
From S2P Require Import Prelude GoStd Utf8 Json StreamDetect JsonFuel JsonGrammar JsonString JsonCompact.

(** ** Encoders *)

Definition encode_member (p : string * string) : string :=
  encode_string p.1 +:+ String ":" p.2.

Definition encode_obj (l : list (string * string)) : string :=
  String "{" (Join (encode_member <$> l) "," +:+ "}").

Definition encode_arr (l : list string) : string := String "[" (Join l "," +:+ "]").

Definition encode_int (z : Z) : string := pretty z.
Definition encode_bool (b : bool) : string := if b then "true" else "false".

(** A nil pointer or slice is null. *)
Definition encode_ptr {A} (enc : A → string) (p : option A) : string := from_option enc "null" p.
Definition encode_slice {A} (enc : A → string) (l : option (list A)) : string :=
  from_option (λ l, encode_arr (enc <$> l)) "null" l.

(** [json.RawMessage]: nil is null; other texts are checked and compacted. *)
Definition encode_raw (r : slice) : option string :=
  match r with
  | None => Some "null"
  | Some raw => _ ← parse raw; Some (compact raw)
  end.

(** A struct: its fields with what the tag [omitempty] leaves out. *)
Definition encode_struct (fields : list (option (string * string))) : string :=
  encode_obj (omap id fields).

Definition always (name text : string) : option (string * string) := Some (name, text).
Definition omitempty (empty : bool) (name text : string) : option (string * string) :=
  if empty then None else Some (name, text).

(** ** Integers *)

Lemma digits_val_app a s t : digits_val a (s +:+ t) = digits_val (digits_val a s) t.
Proof. revert a. induction s as [|c s IH]; intros a; cbn; [done|apply IH]. Qed.

Lemma pretty_N_char_spec (x : N) : (x < 10)%N →
  is_digit (pretty_N_char x) = true ∧ code (pretty_N_char x) = 48 + Z.of_N x.
Proof.
  intros Hx. rewrite <-(N2Nat.id x). assert (N.to_nat x < 10)%nat as Hn by lia. revert Hn.
  generalize (N.to_nat x). intros n Hn. do 10 (destruct n as [|n]; [done|]). lia.
Qed.

(** The digits in front of an accumulated text. *)
Lemma pretty_N_go_spec x : ∀ s, str_forallb is_digit s = true →
  (0 < x)%N ∨ s ≠ "" →
  str_forallb is_digit (pretty_N_go x s) = true ∧ pretty_N_go x s ≠ "" ∧
  (∀ a, ∃ b, digits_val a (pretty_N_go x s) = digits_val b s ∧ (a = 0 → b = Z.of_N x)) ∧
  ((0 < x)%N → ∃ c r, pretty_N_go x s = String c r ∧ code c ≠ 48).
Proof.
  induction (N.lt_wf_0 x) as [x _ IH]. intros s Hs Hne. destruct (decide (0 < x)%N) as [Hx|Hx].
  2:{ assert (x = 0%N) as -> by lia. rewrite pretty_N_go_0. destruct Hne as [?|?]; [lia|].
      split_and!; [done|done| |lia]. intros a. by exists a. }
  rewrite pretty_N_go_step by done.
  destruct (pretty_N_char_spec (x `mod` 10)%N) as [Hd Hc]; [apply N.mod_lt; lia|].
  pose proof (N.div_mod x 10 ltac:(lia)) as Hdm. pose proof (N.mod_lt x 10 ltac:(lia)) as Hml.
  destruct (IH (x `div` 10)%N) with (s := String (pretty_N_char (x `mod` 10)) s) as (H1 & H2 & H3 & H4).
  - apply N.div_lt; lia.
  - cbn. by rewrite Hd, Hs.
  - by right.
  - split_and!; [done|done| |].
    + intros a. destruct (H3 a) as (b & Hb & Hb0). cbn [digits_val] in Hb. eexists. split; [exact Hb|].
      intros Ha. rewrite Hb0, Hc by done. lia.
    + intros _. destruct (decide (0 < x `div` 10)%N) as [Hq|Hq]; [by apply H4|].
      assert (x `div` 10 = 0)%N as E by lia. rewrite E, pretty_N_go_0. eexists _, _. split; [done|].
      rewrite Hc. lia.
Qed.

Lemma pretty_N_spec x : jint (pretty x) ∧ str_forallb is_digit (pretty x) = true ∧ pretty x ≠ "" ∧
  digits_val 0 (pretty x) = Z.of_N x.
Proof.
  unfold pretty, pretty_N. case_decide as E; [subst; split_and!; [by left|done..]|].
  destruct (pretty_N_go_spec x "" eq_refl ltac:(left; lia)) as (H1 & H2 & H3 & H4).
  destruct (H3 0) as (b & Hb & Hb0). destruct H4 as (c & r & Hcr & Hc); [lia|].
  split_and!; [|done|done|by rewrite Hb; cbn; rewrite Hb0].
  right. split; [done|]. intros r' E'. rewrite E' in Hcr. by simplify_eq.
Qed.

Lemma encode_int_number z : jnumber (encode_int z).
Proof.
  assert (∀ n : N, jnumber (pretty n)) as Hn.
  { intros n. rewrite <-(str_app_nil_r (pretty n)). apply (jnumber_intro "" (pretty n) "" "");
      [by left|apply pretty_N_spec|by left|by left]. }
  assert (∀ n : N, jnumber (String "-" (pretty n))) as Hm.
  { intros n. rewrite <-(str_app_nil_r (pretty n)). apply (jnumber_intro "-" (pretty n) "" "");
      [by right|apply pretty_N_spec|by left|by left]. }
  unfold encode_int, pretty, pretty_Z. destruct z; [apply (Hn 0%N)|apply (Hn (Npos p))|apply (Hm (Npos p))].
Qed.

Lemma parse_encode_int z : in_int64 z → parse_int64 (encode_int z) = Some z.
Proof.
  intros Hz. unfold encode_int, parse_int64.
  assert (∀ n : N, pretty n ≠ "" ∧ ∀ c r, pretty n = String c r → code c ≠ 45) as Hp.
  { intros n. destruct (pretty_N_spec n) as (_ & Hd & Hne & _). split; [done|]. intros c r E. rewrite E in Hd.
    cbn in Hd. unfold is_digit, in_range in Hd. lia. }
  assert (∀ n : N, match pretty n with String c r => if code c =? 45 then (true, r) else (false, pretty n)
    | EmptyString => (false, "") end = (false, pretty n)) as Hs.
  { intros n. destruct (Hp n) as [Hne Hc]. destruct (pretty n) as [|c r]; [done|].
    by rewrite (proj2 (Z.eqb_neq _ _)) by by eapply Hc. }
  destruct z as [|p|p].
  - done.
  - change (pretty (Z.pos p)) with (pretty (N.pos p)).
    rewrite Hs. destruct (pretty_N_spec (N.pos p)) as (_ & -> & Hne & ->). cbn [negb].
    rewrite decide_False by done. by rewrite decide_True.
  - change (pretty (Z.neg p)) with (String "-" (pretty (N.pos p))).
    cbn iota beta. change (code "-" =? 45) with true. cbn iota beta.
    destruct (pretty_N_spec (N.pos p)) as (_ & -> & Hne & ->). cbn [negb].
    rewrite decide_False by done. by rewrite decide_True.
Qed.

(** ** The values of encoded texts *)

Lemma Join_cons x y l sep : Join (x :: y :: l) sep = x +:+ sep +:+ Join (y :: l) sep.
Proof. done. Qed.

Lemma encode_arr_elems d ts vs : ts ≠ [] → Forall2 (jvalue d) ts vs → jelems d (Join ts "," +:+ "]") vs.
Proof.
  intros Hne HF. induction HF as [|t v ts vs Ht HF IH]; [done|].
  destruct ts as [|t' ts].
  - inversion HF; subst. by apply (je_last d "" t v "").
  - rewrite Join_cons, !str_app_assoc. apply (je_cons d "" t v ""); auto using ws_nil.
Qed.

Lemma encode_arr_value d ts vs : d < max_depth → Forall2 (jvalue (d + 1)) ts vs →
  jvalue d (encode_arr ts) (JArr vs).
Proof.
  intros Hd HF. unfold encode_arr. destruct ts as [|t ts].
  - inversion HF; subst. by apply (jv_arr_nil d "").
  - apply jv_arr; [done|]. by apply encode_arr_elems.
Qed.

(** The members of an encoded object. *)
Definition obj_members (l : list (string * string)) (vs : list json) : list (string * string * json) :=
  zip_with (λ p v, (encode_body p.1, p.2, v)) l vs.

Lemma encode_obj_members d l vs : l ≠ [] → Forall2 (λ p v, jvalue d p.2 v) l vs →
  jmembers d (Join (encode_member <$> l) "," +:+ "}") (obj_members l vs).
Proof.
  intros Hne HF. induction HF as [|[k t] v l vs Ht HF IH]; [done|]. cbn [fst snd] in Ht.
  destruct l as [|p l].
  - inversion HF; subst. cbn -[encode_string]. unfold encode_member. rewrite encode_string_quoted. str_norm.
    apply (jm_last d "" (encode_body k) "" "" t v ""); auto using ws_nil with json.
  - cbn [fmap list_fmap]. rewrite Join_cons. unfold encode_member at 1. cbn [fst snd].
    rewrite encode_string_quoted. str_norm.
    apply (jm_cons d "" (encode_body k) "" "" t v ""); auto using ws_nil with json.
Qed.

Lemma encode_obj_value d l vs : d < max_depth → Forall2 (λ p v, jvalue (d + 1) p.2 v) l vs →
  jvalue d (encode_obj l) (JObj (obj_members l vs)).
Proof.
  intros Hd HF. unfold encode_obj. destruct l as [|p l].
  - inversion HF; subst. by apply (jv_obj_nil d "").
  - apply jv_obj; [done|]. by apply encode_obj_members.
Qed.

Lemma encode_int_value d z : jvalue d (encode_int z) (JNum (encode_int z)).
Proof. constructor. apply encode_int_number. Qed.

Lemma encode_bool_value d b : jvalue d (encode_bool b) (JBool b).
Proof. apply (jv_bool d b). Qed.

Lemma encode_raw_value d raw v : 0 <= d → jvalue d raw v →
  encode_raw (Some raw) = Some (compact raw) ∧ ∃ v', jvalue d (compact raw) v' ∧ sem_of v' = sem_of v.
Proof.
  intros Hd Hv. split; [|by apply compact_value]. unfold encode_raw.
  by rewrite (parse_jvalue raw v) by by apply (proj1 jtext_shallower _ _ _ Hv).
Qed.

#[export] Hint Resolve encode_int_value encode_bool_value encode_arr_value encode_obj_value : json.

(** ** Reading an encoded object back *)

(** A field of a struct with an ASCII name. *)
Definition ascii_name (s : string) : bool := str_forallb (λ c, code c <? 128) s.

Lemma ascii_valid s : ascii_name s = true → valid_utf8 s.
Proof.
  induction s as [|c s IH]; cbn; [done|]. intros [Hc Hs]%andb_prop. apply valid_ascii; [lia|auto].
Qed.

Lemma dec_members_cons {T} (fields : list (string * dec T)) k raw v ms t ok :
  dec_members fields ((k, raw, v) :: ms) t ok =
    match find_field fields (unquote k) with
    | Some d => dec_members fields ms (d v raw t).1 (ok && (d v raw t).2)
    | None => dec_members fields ms t ok
    end.
Proof. cbn [dec_members]. case_match; [|done]. by destruct (_ v raw t). Qed.

Lemma Unmarshal_value {T} (d : dec T) text v t : jvalue 0 text v → Unmarshal d text t = d v (skip_ws text) t.
Proof. intros Hv. unfold Unmarshal. by rewrite (parse_jvalue _ _ Hv). Qed.

(** [reads h D t text x]: below any depth that leaves room for [h] more brackets,
    [text] is a value from which [D], started on the variable [t], gives [x]
    without error. *)
Definition reads {T} (h : Z) (D : dec T) (t : T) (text : string) (x : T) : Prop :=
  ∀ d, d + h <= max_depth → ∃ v, jvalue d text v ∧ ∀ raw, D v raw t = (x, true).

Lemma Unmarshal_reads {T} h (D : dec T) t text x :
  reads h D t text x → h <= max_depth → Unmarshal D text t = (x, true).
Proof. intros Hr Hh. destruct (Hr 0) as (v & Hv & HD); [lia|]. by rewrite (Unmarshal_value D text v). Qed.

Lemma reads_string h t s : valid_utf8 s → reads h dec_string t (encode_string s) s.
Proof.
  intros Hs d _. eexists. split; [apply encode_string_value|]. intros raw. cbn [dec_string].
  by rewrite unquote_encode_valid.
Qed.

Lemma reads_int h t z : in_int64 z → reads h dec_int64 t (encode_int z) z.
Proof.
  intros Hz d _. eexists. split; [apply encode_int_value|]. intros raw. cbn [dec_int64].
  by rewrite parse_encode_int.
Qed.

Lemma reads_bool h t b : reads h dec_bool t (encode_bool b) b.
Proof. intros d _. eexists. split; [apply encode_bool_value|done]. Qed.

Lemma reads_nil_slice {T} h zero (D : dec T) t : reads h (dec_slice zero D) t "null" None.
Proof. intros d _. exists JNull. split; [constructor|done]. Qed.

Lemma reads_ptr {T} h zero (D : dec T) (enc : T → string) p :
  (∀ x, p = Some x → reads h D zero (enc x) x) →
  (∀ x d v, p = Some x → jvalue d (enc x) v → v ≠ JNull) →
  reads h (dec_ptr zero D) None (encode_ptr enc p) p.
Proof.
  intros Hx Hv d Hd. destruct p as [x|]; cbn [encode_ptr from_option].
  - destruct (Hx x eq_refl d Hd) as (v & Hjv & HD). exists v. split; [done|]. intros raw.
    unfold dec_ptr. cbn [default from_option id]. rewrite HD. specialize (Hv x d v eq_refl Hjv). by destruct v.
  - exists JNull. split; [constructor|done].
Qed.

(** A text that starts like a string or a number is not null. *)
Lemma encode_string_not_null s d v : jvalue d (encode_string s) v → v ≠ JNull.
Proof. intros Hv ->. by inversion Hv. Qed.

Lemma jnumber_not_null lit d v : jnumber lit → jvalue d lit v → v ≠ JNull.
Proof.
  intros Hn Hv ->. inversion Hv; subst. apply jnumber_head in Hn as (c & r & E & Hc). simplify_eq.
  by destruct Hc.
Qed.

Lemma reads_elems {T} h zero (D : dec T) ts xs d : d + h <= max_depth →
  Forall2 (reads h D zero) ts xs →
  ∃ vs, Forall2 (jvalue d) ts vs ∧ dec_list_go zero D vs [] = (xs, true).
Proof.
  intros Hd. induction 1 as [|t x ts xs Ht _ (vs & Hvs & Hgo)]; [by exists []|].
  destruct (Ht d Hd) as (v & Hv & HD). exists (v :: vs). split; [by constructor|].
  cbn. by rewrite HD, Hgo.
Qed.

Lemma reads_arr {T} h zero (D : dec T) t ts xs : 0 <= h → default [] t = [] →
  Forall2 (reads h D zero) ts xs → reads (h + 1) (dec_slice zero D) t (encode_arr ts) (Some xs).
Proof.
  intros Hh Ht HF d Hd. destruct (reads_elems h zero D ts xs (d + 1) ltac:(lia) HF) as (vs & Hvs & Hgo).
  exists (JArr vs). split; [apply encode_arr_value; [lia|done]|]. intros raw. cbn. by rewrite Ht, Hgo.
Qed.

(** The same for a decoder that keeps the text it is given. *)
Definition reads_text {T} (h : Z) (D : dec T) (t : T) (text : string) (x : T) : Prop :=
  ∀ d, d + h <= max_depth → ∃ v, jvalue d text v ∧ D v text t = (x, true).

Lemma reads_reads_text {T} h (D : dec T) t text x : reads h D t text x → reads_text h D t text x.
Proof. intros Hr d Hd. destruct (Hr d Hd) as (v & ? & ?). eauto. Qed.

(** The fields of a struct, in the order of the text. *)
Inductive reads_fields {T} (h : Z) (fields : list (string * dec T)) : list (string * string) → T → T → Prop :=
| rf_nil t : reads_fields h fields [] t t
| rf_cons name text l D t t' t'' :
    ascii_name name = true → find_field fields name = Some D → reads_text h D t text t' →
    reads_fields h fields l t' t'' → reads_fields h fields ((name, text) :: l) t t''.

Lemma reads_text_field {S T} h (get : S → T) set (D : dec T) s text x :
  reads_text h D (get s) text x → reads_text h (field get set D) s text (set x s).
Proof.
  intros Hr d Hd. destruct (Hr d Hd) as (v & Hv & HD). exists v. split; [done|].
  unfold field. by rewrite HD.
Qed.

Lemma reads_field {S T} h (get : S → T) set (D : dec T) s text x :
  reads h D (get s) text x → reads_text h (field get set D) s text (set x s).
Proof. intros Hr. by apply reads_text_field, reads_reads_text. Qed.

Lemma reads_members {T} h (fields : list (string * dec T)) l t x d : d + h <= max_depth →
  reads_fields h fields l t x → ∃ vs, Forall2 (λ p v, jvalue d p.2 v) l vs ∧
    ∀ ok, dec_members fields (obj_members l vs) t ok = (x, ok).
Proof.
  intros Hd. induction 1 as [|name text l D t t' t'' Hn Hf Ht _ (vs & Hvs & Hm)]; [by exists []|].
  destruct (Ht d Hd) as (v & Hv & HD). exists (v :: vs). split; [by constructor|]. intros ok.
  unfold obj_members. cbn [zip_with]. rewrite dec_members_cons. cbn [fst snd].
  rewrite unquote_encode_valid, Hf by by apply ascii_valid. rewrite HD. cbn [fst snd].
  rewrite andb_true_r. apply Hm.
Qed.

Lemma reads_struct {T} h (fields : list (string * dec T)) l t x : 0 <= h →
  reads_fields h fields l t x → reads (h + 1) (dec_struct fields) t (encode_obj l) x.
Proof.
  intros Hh Hf d Hd. destruct (reads_members h fields l t x (d + 1) ltac:(lia) Hf) as (vs & Hvs & Hm).
  exists (JObj (obj_members l vs)). split; [apply encode_obj_value; [lia|done]|]. intros raw. apply Hm.
Qed.

(** The fields of a struct with those that may be left out. *)
Lemma rf_always {T} h (fields : list (string * dec T)) name text l D t t' t'' :
  ascii_name name = true → find_field fields name = Some D → reads_text h D t text t' →
  reads_fields h fields (omap id l) t' t'' → reads_fields h fields (omap id (always name text :: l)) t t''.
Proof. intros. by eapply rf_cons. Qed.

Lemma rf_omitempty {T} h (fields : list (string * dec T)) (empty : bool) name text l D t t' t'' :
  ascii_name name = true → find_field fields name = Some D →
  (if empty then t' = t else reads_text h D t text t') →
  reads_fields h fields (omap id l) t' t'' → reads_fields h fields (omap id (omitempty empty name text :: l)) t t''.
Proof. intros ? ? He ?. destruct empty; cbn; [by subst|by eapply rf_cons]. Qed.

#[export] Hint Resolve reads_string reads_int reads_bool : json.
