(* ===== verification/JsonDecode.v ===== *)
(** * What decoded values satisfy

    Strings that come out of the decoder are valid UTF-8, integers are in range,
    and raw messages are texts of values: an invariant of the variable decoded
    into, propagated through slices and structs. *)
From S2P Require Import Prelude GoStd Utf8 Json StreamDetect JsonFuel JsonGrammar JsonString JsonCompact JsonEnc.

(** A parsed value at depth [d] whose strings, numbers and raw texts are as the
    grammar has them. *)
#[warnings="-register-all"] Inductive annotated : Z → json → Prop :=
| an_null d : annotated d JNull
| an_bool d b : annotated d (JBool b)
| an_num d lit : jnumber lit → annotated d (JNum lit)
| an_str d raw : jchars raw → annotated d (JStr raw)
| an_arr d l : Forall (annotated (d + 1)) l → annotated d (JArr l)
| an_obj d ms :
    Forall (λ m, jchars m.1.1 ∧ jvalue (d + 1) m.1.2 m.2 ∧ annotated (d + 1) m.2) ms →
    annotated d (JObj ms).

Lemma text_annotated :
  (∀ d t v, jvalue d t v → annotated d v) ∧
  (∀ d t vs, jelems d t vs → Forall (annotated d) vs) ∧
  (∀ d t ms, jmembers d t ms → Forall (λ m, jchars m.1.1 ∧ jvalue d m.1.2 m.2 ∧ annotated d m.2) ms).
Proof. apply jtext_rule; intros; try (by constructor); constructor; auto. Qed.

Lemma parse_annotated data v : parse data = Some v → annotated 0 v.
Proof. intros (w & t & w' & _ & _ & _ & Hv)%parse_grammar. by apply text_annotated in Hv. Qed.

(** A decoder at depth [d] that keeps an invariant. *)
Definition keeps {T} (d : Z) (D : dec T) (P : T → Prop) : Prop :=
  ∀ j raw t, annotated d j → jvalue d raw j → P t → P (D j raw t).1.

(** The same for the elements of an array, whose raw text is not kept. *)
Definition keeps_elem {T} (d : Z) (D : dec T) (P : T → Prop) : Prop :=
  ∀ j raw t, annotated d j → P t → P (D j raw t).1.

Lemma keeps_elem_keeps {T} d (D : dec T) P : keeps_elem d D P → keeps d D P.
Proof. intros H j raw t ? _. by apply H. Qed.

Lemma keeps_string d : keeps_elem d dec_string valid_utf8.
Proof. intros j raw t Hj Ht. destruct Hj; cbn; try done. by apply unquote_valid. Qed.

Lemma parse_int64_range lit z : parse_int64 lit = Some z → in_int64 z.
Proof. unfold parse_int64. repeat case_match; try done; intros; by simplify_eq. Qed.

Lemma keeps_int d : keeps_elem d dec_int64 in_int64.
Proof.
  intros j raw t Hj Ht. destruct Hj; cbn; try done.
  destruct (parse_int64 lit) eqn:E; [|done]. by apply parse_int64_range in E.
Qed.

Lemma keeps_raw d : keeps d dec_raw (λ r, ∀ raw, r = Some raw → ∃ v, jvalue d raw v).
Proof. intros j raw t _ Hv _ raw' [= <-]. eauto. Qed.

Lemma keeps_any {T} d (D : dec T) : keeps_elem d D (λ _, True).
Proof. done. Qed.

Lemma keeps_ptr {T} d zero (D : dec T) P :
  P zero → keeps_elem d D P → keeps_elem d (dec_ptr zero D) (λ p, ∀ x, p = Some x → P x).
Proof.
  intros Hz HD j raw t Hj Ht x. unfold dec_ptr. pose proof (HD j raw (default zero t) Hj) as H.
  assert (P (default zero t)) as Hd by (destruct t; cbn; auto).
  destruct j; try done; destruct (D _ raw _); cbn in *; intros [= <-]; auto.
Qed.

Lemma dec_list_keeps {T} d zero (D : dec T) P l : P zero → keeps_elem d D P →
  ∀ old, Forall P old → Forall (annotated d) l → Forall P (dec_list_go zero D l old).1.
Proof.
  intros Hz HD. induction l as [|j l IH]; intros old Hold Hl; cbn; [done|].
  apply Forall_cons_iff in Hl as [Hj Hl].
  assert (P (hd zero old) ∧ Forall P (tl old)) as [Hh Ht] by (destruct Hold; done).
  pose proof (HD j "" (hd zero old) Hj Hh) as H. specialize (IH (tl old) Ht Hl).
  destruct (D j "" _), (dec_list_go zero D l (tl old)). by constructor.
Qed.

Lemma keeps_slice {T} d zero (D : dec T) P : P zero → keeps_elem (d + 1) D P →
  keeps_elem d (dec_slice zero D) (λ l, Forall P (default [] l)).
Proof.
  intros Hz HD j raw t Hj Ht. destruct Hj as [| | | |d l Hl|]; cbn; try done.
  pose proof (dec_list_keeps _ zero D P l Hz HD (default [] t) Ht Hl).
  by destruct (dec_list_go zero D l (default [] t)).
Qed.

(** A field of a record, and a record. *)
Lemma keeps_field {S T} d (get : S → T) set (D : dec T) (P : T → Prop) (Q : S → Prop) :
  (∀ s, Q s → P (get s)) → (∀ v s, P v → Q s → Q (set v s)) →
  keeps d D P → keeps d (field get set D) Q.
Proof.
  intros Hg Hs HD j raw s Hj Hv HQ. unfold field. pose proof (HD j raw (get s) Hj Hv (Hg s HQ)).
  destruct (D j raw (get s)). by apply Hs.
Qed.

Lemma find_field_in {A} (fields : list (string * A)) key x : find_field fields key = Some x → ∃ n, (n, x) ∈ fields.
Proof.
  unfold find_field. destruct (list_find _ fields) as [[i [n f]]|] eqn:E.
  - intros [= <-]. apply list_find_Some in E as (E & _). exists n. by eapply list_elem_of_lookup_2.
  - intros ([i [n f]] & E' & Hx)%fmap_Some. cbn in Hx. subst.
    apply list_find_Some in E' as (E' & _). exists n. by eapply list_elem_of_lookup_2.
Qed.

Lemma keeps_struct {T} d (fields : list (string * dec T)) P :
  Forall (λ f, keeps (d + 1) f.2 P) fields → keeps_elem d (dec_struct fields) P.
Proof.
  intros HF j raw t Hj Ht. destruct Hj as [| | | | |d ms Hms]; cbn [dec_struct]; try done.
  generalize true. revert t Ht. induction Hms as [|[[k r] v] ms (Hk & Hv & Ha) Hms IH]; intros t Ht ok; [done|].
  rewrite dec_members_cons. destruct (find_field fields (unquote k)) as [D|] eqn:E; [|auto].
  apply IH. apply find_field_in in E as (n & Hin).
  rewrite list.Forall_forall in HF. by apply (HF (n, D) Hin).
Qed.

Lemma Unmarshal_keeps {T} (D : dec T) P data t : keeps_elem 0 D P → P t → P (Unmarshal D data t).1.
Proof.
  intros HD Ht. unfold Unmarshal. destruct (parse data) eqn:E; [|done].
  apply parse_annotated in E. by apply HD.
Qed.
