(* ===== verification/JsonMap.v ===== *)
(** * Bodies that are rewritten member by member

    [map[string]json.RawMessage]: what is decoded into such a map, and that its
    encoding decodes to the same map with compacted texts, which are texts of the
    same values. *)
From S2P Require Import Prelude GoStd Utf8 Json StreamDetect JsonFuel JsonGrammar JsonString JsonCompact JsonEnc JsonDecode.

(** The value of a raw text. *)
Definition raw_sem (raw : string) : option sem := sem_of <$> parse raw.

Definition ok_rawmap (m : gmap string string) : Prop :=
  map_Forall (λ k raw, valid_utf8 k ∧ ∃ v, jvalue 1 raw v) m.

Lemma compact_sem d raw v : 0 <= d → jvalue d raw v → raw_sem (compact raw) = raw_sem raw.
Proof.
  intros Hd Hv. destruct (compact_value d raw v Hv) as (v' & Hv' & Hs). unfold raw_sem.
  rewrite (parse_jvalue _ _ (proj1 jtext_shallower _ _ _ Hv 0 Hd)).
  rewrite (parse_jvalue _ _ (proj1 jtext_shallower _ _ _ Hv' 0 Hd)). cbn. by rewrite Hs.
Qed.

Lemma decoded_rawmap body raw : Unmarshal dec_rawmap body None = (Some raw, true) → ok_rawmap raw.
Proof.
  unfold Unmarshal. destruct (parse body) as [j|] eqn:E; [|done]. apply parse_annotated in E.
  inversion E as [| | | | |d ms Hms]; subst; cbn [dec_rawmap]; try done. intros [= <-]. clear E.
  cbn [default from_option]. assert (ok_rawmap ∅) as H0 by done. revert H0. generalize (∅ : gmap string string).
  induction Hms as [|[[k r] v] ms (Hk & Hv & _) _ IH]; intros m Hm; [done|]. cbn [foldl]. apply IH.
  apply map_Forall_insert_2; [|done]. split; [by apply unquote_valid|eauto].
Qed.

Definition compacted (p : string * string) : string * string := (p.1, compact p.2).

Lemma encode_rawmap_obj m : encode_rawmap m = encode_obj (compacted <$> sort_members (map_to_list m)).
Proof. unfold encode_rawmap, encode_obj. by rewrite <-list_fmap_compose. Qed.

(** Decoding the members of an encoded object into a map. *)
Lemma fold_members l vs : Forall (λ p, valid_utf8 p.1) l → length vs = length l → ∀ m : gmap string string,
  foldl (λ m '(key, raw, _), <[unquote key := raw]> m) m (obj_members l vs) =
  foldl (λ m p, <[p.1 := p.2]> m) m l.
Proof.
  intros Hl. revert vs. induction Hl as [|[k t] l Hk _ IH]; intros [|v vs] Hlen m; try done.
  unfold obj_members. cbn [zip_with foldl fst snd] in *. rewrite unquote_encode_valid by done. apply IH. cbn in Hlen. lia.
Qed.

Lemma fold_insert_lookup {A} (l : list (string * A)) : NoDup l.*1 → ∀ (m : gmap string A) k,
  foldl (λ m p, <[p.1 := p.2]> m) m l !! k = from_option Some (m !! k) ((list_to_map l : gmap string A) !! k).
Proof.
  induction l as [|[k' t] l IH]; intros Hnd m k; [by cbn; rewrite lookup_empty|].
  apply list.NoDup_cons in Hnd as [Hni Hnd]. rewrite list_to_map_cons. cbn [foldl fst snd]. rewrite IH by done.
  destruct (decide (k = k')) as [-> |Hne].
  - rewrite lookup_insert_eq, (not_elem_of_list_to_map_1 (M := gmap string)) by done. cbn. by rewrite lookup_insert_eq.
  - rewrite !lookup_insert_ne by congruence. done.
Qed.

Lemma rawmap_roundtrip m : ok_rawmap m → Unmarshal dec_rawmap (encode_rawmap m) None = (Some (compact <$> m), true).
Proof.
  intros Hm. rewrite encode_rawmap_obj. set (l := sort_members (map_to_list m)).
  assert (l ≡ₚ map_to_list m) as Hperm by apply sort_members_perm.
  assert (Forall (λ p, valid_utf8 p.1 ∧ ∃ v, jvalue 1 p.2 v) l) as Hl.
  { apply list.Forall_forall. intros [k raw] Hin. rewrite Hperm in Hin. by apply elem_of_map_to_list, Hm in Hin. }
  assert (∃ vs, Forall2 (λ p v, jvalue (0 + 1) p.2 v) (compacted <$> l) vs) as [vs Hvs].
  { clearbody l. clear Hperm. induction Hl as [|p l [_ [v Hv]] _ [vs IH]]; [by exists []|].
    destruct (compact_value _ _ _ Hv) as (v' & Hv' & _). exists (v' :: vs). by constructor. }
  rewrite (Unmarshal_value _ _ _ _ (encode_obj_value 0 _ vs ltac:(done) Hvs)). cbn [dec_rawmap default from_option].
  rewrite fold_members; [|clear -Hl; clearbody l; induction Hl as [|p l [? _] _ IH]; by constructor
    |by apply Forall2_length in Hvs].
  f_equal. f_equal. apply map_eq. intros k.
  assert ((compacted <$> l).*1 = l.*1) as Hk by (rewrite <-list_fmap_compose; done).
  rewrite fold_insert_lookup.
  2:{ rewrite Hk, Hperm. apply NoDup_fst_map_to_list. }
  rewrite lookup_empty, lookup_fmap.
  assert ((list_to_map (compacted <$> l) : gmap string string) = compact <$> list_to_map l) as ->.
  { clear. induction l as [|[k t] l IH]; cbn; [by rewrite fmap_empty|]. by rewrite fmap_insert, <-IH. }
  rewrite (list_to_map_proper l (map_to_list m)), list_to_map_to_list, lookup_fmap; [by destruct (m !! k)| |done].
  rewrite Hperm. apply NoDup_fst_map_to_list.
Qed.

(** What the encoded map says of a key. *)
Lemma rawmap_values m m' : ok_rawmap m → m' = compact <$> m → ∀ k, raw_sem <$> m' !! k = raw_sem <$> m !! k.
Proof.
  intros Hm -> k. rewrite lookup_fmap. destruct (m !! k) as [raw|] eqn:E; [|done]. cbn. f_equal.
  destruct (Hm k raw E) as [_ [v Hv]]. by apply (compact_sem 1 raw v).
Qed.
