(* ===== verification/JsonScan.v ===== *)
(** * encoding/json's scanner and stream decoder

    The state machine that accepts JSON byte by byte, which tells an incomplete
    text from a wrong one, and [json.NewDecoder(r).Decode(&v)] on a reader that
    may fail or be cut off. *)
From S2P Require Import Prelude GoStd Json.

(** ** The scanner *)

Inductive parse_state := ObjectKey | ObjectValue | ArrayValue.

Inductive scan_state :=
| BeginValueOrEmpty | BeginValue | BeginStringOrEmpty | BeginString | EndValue
| InString | InStringEsc | InStringEscU (k : nat)
| Neg | Digits1 | Digits0 | Dot | Dot0 | E | ESign | E0
| Literal (rest : string).

Definition scanner : Type := scan_state * list parse_state.

Definition push_state (p : parse_state) (stack : list parse_state) (st : scan_state)
  : option scanner :=
  if max_depth <=? Z.of_nat (length stack) then None else Some (st, p :: stack).

Definition begin_value (c : ascii) (stack : list parse_state) : option scanner :=
  let n := code c in
  if is_json_space c then Some (BeginValue, stack)
  else if n =? 123 then push_state ObjectKey stack BeginStringOrEmpty
  else if n =? 91 then push_state ArrayValue stack BeginValueOrEmpty
  else if n =? 34 then Some (InString, stack)
  else if n =? 45 then Some (Neg, stack)
  else if n =? 48 then Some (Digits0, stack)
  else if in_range 49 57 n then Some (Digits1, stack)
  else if n =? 116 then Some (Literal "rue", stack)
  else if n =? 102 then Some (Literal "alse", stack)
  else if n =? 110 then Some (Literal "ull", stack)
  else None.

(** After a value; at the top level the text is complete and the rest is not
    looked at. *)
Definition end_value (c : ascii) (stack : list parse_state) : option scanner :=
  let n := code c in
  match stack with
  | [] => Some (EndValue, [])
  | p :: stack' =>
    if is_json_space c then Some (EndValue, stack) else
    match p with
    | ObjectKey => if n =? 58 then Some (BeginValue, ObjectValue :: stack') else None
    | ObjectValue =>
      if n =? 44 then Some (BeginString, ObjectKey :: stack')
      else if n =? 125 then Some (EndValue, stack') else None
    | ArrayValue =>
      if n =? 44 then Some (BeginValue, stack)
      else if n =? 93 then Some (EndValue, stack') else None
    end
  end.

Definition after_int (c : ascii) (stack : list parse_state) : option scanner :=
  if code c =? 46 then Some (Dot, stack)
  else if (code c =? 101) || (code c =? 69) then Some (E, stack)
  else end_value c stack.

Definition exp_digit (c : ascii) (stack : list parse_state) : option scanner :=
  if is_digit c then Some (E0, stack) else None.

Definition scan_step (c : ascii) (s : scanner) : option scanner :=
  let '(st, stack) := s in
  let n := code c in
  match st with
  | BeginValue => begin_value c stack
  | BeginValueOrEmpty =>
    if is_json_space c then Some (BeginValueOrEmpty, stack)
    else if n =? 93 then end_value c stack
    else begin_value c stack
  | BeginString =>
    if is_json_space c then Some (BeginString, stack)
    else if n =? 34 then Some (InString, stack) else None
  | BeginStringOrEmpty =>
    if is_json_space c then Some (BeginStringOrEmpty, stack)
    else if n =? 125 then
      match stack with
      | _ :: stack' => end_value c (ObjectValue :: stack')
      | [] => None
      end
    else if n =? 34 then Some (InString, stack) else None
  | EndValue => end_value c stack
  | InString =>
    if n =? 34 then Some (EndValue, stack)
    else if n =? 92 then Some (InStringEsc, stack)
    else if n <? 32 then None else Some (InString, stack)
  | InStringEsc =>
    if is_simple_escape c then Some (InString, stack)
    else if n =? 117 then Some (InStringEscU 4, stack) else None
  | InStringEscU k =>
    if is_hex c then
      Some (match k with S (S k') => InStringEscU (S k') | _ => InString end, stack)
    else None
  | Neg =>
    if n =? 48 then Some (Digits0, stack)
    else if in_range 49 57 n then Some (Digits1, stack) else None
  | Digits1 => if is_digit c then Some (Digits1, stack) else after_int c stack
  | Digits0 => after_int c stack
  | Dot => if is_digit c then Some (Dot0, stack) else None
  | Dot0 =>
    if is_digit c then Some (Dot0, stack)
    else if (n =? 101) || (n =? 69) then Some (E, stack) else end_value c stack
  | E => if (n =? 43) || (n =? 45) then Some (ESign, stack) else exp_digit c stack
  | ESign => exp_digit c stack
  | E0 => if is_digit c then Some (E0, stack) else end_value c stack
  | Literal "" => end_value c stack
  | Literal (String d rest) =>
    if ascii_dec c d
    then Some (match rest with EmptyString => EndValue | _ => Literal rest end, stack)
    else None
  end.

Fixpoint scan (s : scanner) (text : string) : option scanner :=
  match text with
  | EmptyString => Some s
  | String c text' => s' ← scan_step c s; scan s' text'
  end.

(** No byte so far is a syntax error. *)
Definition viable (text : string) : bool :=
  match scan (BeginValue, []) text with Some _ => true | None => false end.

(** ** Readers *)

(** A request body: the bytes that arrive, and whether reading then fails instead
    of reaching the end. *)
Record Body := mkBody {
  b_data : string;
  b_fails : bool
}.

(** How a read of the whole ends: at the end of the body, in a
    [*http.MaxBytesError], or in another error. *)
Inductive read_end := REof | RTooLarge | RFailed.

(** [http.MaxBytesReader] with limit [n]: the bytes that can be read, and how it
    ends. *)
Definition MaxBytesReader (n : Z) (b : Body) : string * read_end :=
  if n <? Z.of_nat (String.length b.(b_data))
  then (str_take (Z.to_nat n) b.(b_data), RTooLarge)
  else (b.(b_data), if b.(b_fails) then RFailed else REof).

(** ** The stream decoder *)

Inductive decode_error := DETooLarge | DEOther.

Definition is_bracketed (j : json) : bool :=
  match j with JObj _ | JArr _ => true | _ => false end.

(** [Decode] reads until it has a value, a syntax error, or the end.  An object or
    array is complete at its closing bracket; another value only at the byte
    after it or at the end of the body.  What follows the value is not
    looked at. *)
Definition Decode {T} (d : dec T) (src : string * read_end) (t : T) : T * option decode_error :=
  let '(text, e) := src in
  let cut := match e with RTooLarge => DETooLarge | _ => DEOther end in
  match parse_value (parse_fuel (skip_ws text)) 0 (skip_ws text) with
  | Some (j, rest) =>
    if is_bracketed j || negb (bool_decide (rest = "")) || (match e with REof => true | _ => false end)
    then let '(t', ok) := d j (consumed (skip_ws text) rest) t in
         (t', if ok then None else Some DEOther)
    else (t, Some cut)
  | None => (t, Some (if viable text then cut else DEOther))
  end.

(** ** Examples *)

Example viable_examples :
  viable <$> [dq "{'a': [1, tr"; dq "{'a' 1"; "[1,]"; "01"; "-"; "-x"; dq "{'a':'\u12"; "nul"; "nule"]
  = [true; false; false; true; true; false; true; true; false].
Proof. vm_compute. reflexivity. Qed.

Example decode_cut :
  let d := dec_string in
  (Decode d (MaxBytesReader 3 (mkBody (dq "'abc'") false)) "",
   Decode d (MaxBytesReader 5 (mkBody (dq "'abc' x") false)) "",
   Decode d (MaxBytesReader 6 (mkBody (dq "'abc' x") false)) "",
   Decode d (MaxBytesReader 9 (mkBody (dq "'abc'") false)) "")
  = (("", Some DETooLarge), ("", Some DETooLarge), ("abc", None), ("abc", None)).
Proof. vm_compute. reflexivity. Qed.
