(* ===== verification/Token.v ===== *)
(** * Application-key tokens (internal/appkey/token.go)

    Generation of a [btr_] token from random bytes and its syntactic check. *)
From S2P Require Import Prelude GoStd.

Definition Prefix : string := "btr_".
Definition RandLen : nat := 20.
Definition TokenLen : nat := String.length Prefix + RandLen.

Definition charset : string :=
  "abcdefghijklmnopqrstuvwxyzABCDEFGHIJKLMNOPQRSTUVWXYZ0123456789".

(** [charset[int(b) % len(charset)]]. *)
Definition charset_at (b : Z) : ascii :=
  default Ascii.zero
    (String.get (Z.to_nat (b mod Z.of_nat (String.length charset))) charset).

Fixpoint map_bytes (f : Z → ascii) (b : list Z) : string :=
  match b with
  | [] => EmptyString
  | x :: b' => String (f x) (map_bytes f b')
  end.

(** [Generate]: [rnd] is what [rand.Read] filled the 20-byte buffer with, or
    [None] where it failed. *)
Definition Generate (rnd : option (list Z)) : option string :=
  b ← rnd; Some (Prefix +:+ map_bytes charset_at b).

Definition isAlphanumeric (c : Z) : bool :=
  in_range 97 122 c || in_range 65 90 c || in_range 48 57 c.

(** The loop ranges over the runes of the suffix, so a byte outside ASCII is
    seen as a rune outside ASCII. *)
Definition IsValid (key : string) : bool :=
  if negb (String.length key =? TokenLen)%nat then false
  else if negb (HasPrefix key Prefix) then false
  else forallb isAlphanumeric (runes (str_drop (String.length Prefix) key)).

(** What [rand.Read] guarantees: the whole buffer, of bytes. *)
Definition random_bytes (b : list Z) : Prop :=
  length b = RandLen ∧ Forall (λ x, 0 <= x < 256) b.

(** How many of the 256 byte values become a given character. *)
Definition preimages (c : ascii) : nat :=
  length (filter (λ b, charset_at b = c) (Z.of_nat <$> seq 0 256)).

Definition nth_char (i : nat) : ascii :=
  default Ascii.zero (String.get i charset).

(** ** Facts *)

Lemma charset_alnum b :
  isAlphanumeric (code (charset_at b)) = true ∧ code (charset_at b) < 128.
Proof.
  unfold charset_at. change (Z.of_nat (String.length charset)) with 62.
  assert (Z.to_nat (b mod 62) < 62)%nat as H
    by (pose proof (Z.mod_pos_bound b 62); lia).
  revert H. generalize (Z.to_nat (b mod 62)). intros i Hi.
  revert i Hi. apply (forall_below (λ k,
    isAlphanumeric (code (default Ascii.zero (String.get k charset))) = true ∧
    code (default Ascii.zero (String.get k charset)) < 128)). vm_compute. done.
Qed.

Lemma runes_fuel_bytes n : ∀ (b : list Z) (f : Z → ascii),
  (∀ x, code (f x) < 128) → (length b ≤ n)%nat →
  runes_fuel n (map_bytes f b) = (λ x, code (f x)) <$> b.
Proof.
  induction n as [|n IH]; intros [|x b] f Hf Hn; simpl in *; try done; [lia|].
  rewrite (proj2 (Z.ltb_lt _ _) (Hf x)). simpl. by rewrite IH by (auto; lia).
Qed.

Lemma map_bytes_length f b : String.length (map_bytes f b) = length b.
Proof. by induction b; simpl; f_equal. Qed.

(** A valid key's suffix holds only ASCII letters and digits, byte by byte. *)
Lemma runes_alnum_ascii s : ∀ n, (String.length s ≤ n)%nat →
  forallb isAlphanumeric (runes_fuel n s) = true →
  str_forallb (λ c, isAlphanumeric (code c)) s = true.
Proof.
  induction s as [|c s IH]; intros [|n] Hn; [done..|simpl in *; lia|].
  cbn [runes_fuel]. destruct (Z.lt_ge_cases (code c) 128) as [Hc|Hc].
  - rewrite DecodeRune_ascii by done. simpl. intros [-> H]%andb_prop. simpl.
    apply (IH n); [simpl in *; lia|done].
  - pose proof (DecodeRune_non_ascii c s Hc). destruct (DecodeRune (String c s)) as [r w].
    simpl in *. unfold isAlphanumeric at 1, in_range. intros [? _]%andb_prop. lia.
Qed.

Lemma Generate_prefix rnd k :
  Generate rnd = Some k → ∃ b, rnd = Some b ∧ k = Prefix +:+ map_bytes charset_at b.
Proof. unfold Generate. intros (b & -> & ?)%bind_Some. simplify_eq. eauto. Qed.

Lemma Generate_IsValid b k :
  random_bytes b → Generate (Some b) = Some k → IsValid k = true.
Proof.
  intros [Hl _] (b' & ? & ->)%Generate_prefix. simplify_eq. unfold IsValid, HasPrefix.
  rewrite str_length_app, map_bytes_length, Hl, prefix_app, str_drop_app. simpl.
  unfold runes. rewrite map_bytes_length, runes_fuel_bytes; [|apply charset_alnum|done].
  rewrite forallb_forall. intros x (y & -> & _)%list_elem_of_In%list_elem_of_fmap.
  apply charset_alnum.
Qed.

(** ** Properties *)

(** Every token that generation returns passes the syntactic check, so a
    vended key is never rejected by the header middleware for its format. *)
Theorem Generate_valid b k :
  random_bytes b → Generate (Some b) = Some k → IsValid k = true.
Proof. apply Generate_IsValid. Qed.

Lemma Generate_valid_witness : IsValid "btr_abcdefghijklmnopqrst" = true.
Proof.
  apply (Generate_valid (Z.of_nat <$> seq 62 20)); [|vm_compute; reflexivity].
  split; [done|]. apply (bool_decide_unpack _). vm_compute. done.
Defined.

(** The check accepts exactly the prefix followed by twenty ASCII letters
    or digits; in particular no byte outside ASCII gets through although the
    loop runs over runes. *)
Theorem IsValid_spec key :
  IsValid key = true ↔
  ∃ s, key = Prefix +:+ s ∧ String.length s = RandLen ∧
       str_forallb (λ c, isAlphanumeric (code c)) s = true.
Proof.
  unfold IsValid, HasPrefix. split.
  - destruct (Nat.eqb_spec (String.length key) TokenLen) as [Hl|]; [|done].
    destruct (String.prefix Prefix key) eqn:Hp; [|done]. cbn [negb].
    apply prefix_inv in Hp as [s ->]. rewrite str_drop_app. intros H. exists s.
    rewrite str_length_app in Hl. unfold TokenLen in Hl. split_and!; [done|lia|].
    by apply (runes_alnum_ascii s (String.length s)).
  - intros (s & -> & Hl & Hs). rewrite str_length_app, Hl, prefix_app, str_drop_app. simpl.
    unfold runes. generalize (String.length s) as n. clear Hl. intros n. revert n.
    induction s as [|c s IH]; intros [|n]; try done. simpl in Hs.
    apply andb_prop in Hs as [Hc Hs]. cbn [runes_fuel].
    rewrite DecodeRune_ascii by (unfold isAlphanumeric, in_range in Hc; lia).
    simpl. by rewrite Hc, IH.
Qed.

(** Reducing a uniform byte modulo the 62 characters is not uniform: the
    first eight characters have five preimages each and the other fifty-four
    have four.  No character is more than 5/4 as likely as another. *)
Theorem charset_bias i :
  (i < 62)%nat → preimages (nth_char i) = if decide (i < 8)%nat then 5%nat else 4%nat.
Proof.
  revert i. apply (forall_below (λ i,
    preimages (nth_char i) = if decide (i < 8)%nat then 5%nat else 4%nat)).
  vm_compute. done.
Qed.

Lemma charset_bias_witness :
  preimages (nth_char 7) = 5%nat ∧ preimages (nth_char 8) = 4%nat.
Proof. split; apply charset_bias; lia. Defined.
