(* ===== verification/Store.v ===== *)
(** * The application-key store (internal/appkey/store.go)

    Keys, their lifecycle (vend, revoke, expire, rotate, purge), their scopes
    and their usage counters.

    A method of [Store] is a computation in [ST World]: the world is the map of
    records, the readings the clock will give (one per [time.Now()]), and the
    effects the methods have outside the store, in order: the persistence
    callbacks and the audit log.  A [time.Time] is its distance from the Unix
    epoch in nanoseconds; the zero [time.Time] is [zero_time].  A method runs as
    one step: the locks and atomics of the source make each access to the map
    and to a counter indivisible, and the races between methods are studied in
    the file PersistRace. *)
From S2P Require Import Prelude GoStd Token.

(** ** Data *)

(** January 1 of year 1, UTC. *)
Definition zero_time : Z := -62135596800 * 1000000000.
Definition IsZero (t : Z) : bool := t =? zero_time.
Definition UnixNano (t : Z) : Z := wrap64 t.

Record KeyScopes := mkScopes {
  AllowedModels : list string;
  AllowedProviders : list string
}.

#[global] Instance KeyScopes_eq_dec : EqDecision KeyScopes.
Proof. solve_decision. Defined.

Record ModelUsage := mkUsage {
  mu_Requests : Z;
  mu_PromptTokens : Z;
  mu_CompletionTokens : Z
}.

#[global] Instance ModelUsage_eq_dec : EqDecision ModelUsage.
Proof. solve_decision. Defined.

Record UsageRecord := mkRecord {
  Key : string;
  Label : string;
  CreatedAt : Z;
  TotalRequests : Z;
  StreamRequests : Z;
  NonStreamRequests : Z;
  LastAccessedAt : Z;  (* UnixNano; 0 means never accessed *)
  ExpiresAt : Z;       (* UnixNano; 0 means never expires *)
  RevokedAt : Z;       (* UnixNano; 0 means not revoked *)
  scopes : option KeyScopes;
  modelUsage : gmap string ModelUsage
}.

Inductive Status := StActive | StRevoked | StExpired.

#[global] Instance Status_eq_dec : EqDecision Status.
Proof. solve_decision. Defined.

(** The JSON-serializable view.  A nil [*time.Time] is [None]; a present one is
    [time.Unix(0, ns)], that is [ns] itself. *)
Record UsageSnapshot := mkSnapshot {
  s_Key : string;
  s_Label : string;
  s_Status : Status;
  s_CreatedAt : Z;
  s_LastAccessedAt : option Z;
  s_ExpiresAt : option Z;
  s_RevokedAt : option Z;
  s_TotalRequests : Z;
  s_StreamRequests : Z;
  s_NonStreamRequests : Z;
  s_Models : gmap string ModelUsage;
  s_Scopes : option KeyScopes
}.

Inductive effect :=
| FireUpdate (snap : UsageSnapshot)
| FireDelete (key : string)
| Audit (event key : string).

Record Store := mkStore {
  records : gmap string UsageRecord;
  onUpdate : bool;  (* a callback is registered *)
  onDelete : bool
}.

Record World := mkWorld {
  store : Store;
  clock : nat → Z;
  effects : list effect
}.

Inductive store_error := ErrUnknownKey | ErrEntropy.

#[global] Instance store_error_eq_dec : EqDecision store_error.
Proof. solve_decision. Defined.

(** ** Plumbing *)

Definition now : ST World Z := λ w,
  (w.(clock) 0%nat, mkWorld w.(store) (λ n, w.(clock) (S n)) w.(effects)).

Definition emit (e : effect) : ST World () :=
  modify_state (λ w, mkWorld w.(store) w.(clock) (w.(effects) ++ [e])).

Definition get_records : ST World (gmap string UsageRecord) :=
  gets_state (λ w, w.(store).(records)).

Definition set_records (m : gmap string UsageRecord) : ST World () :=
  modify_state (λ w,
    mkWorld (mkStore m w.(store).(onUpdate) w.(store).(onDelete))
      w.(clock) w.(effects)).

(** Field updates of a record. *)
Definition set_ExpiresAt (t : Z) (r : UsageRecord) : UsageRecord :=
  mkRecord r.(Key) r.(Label) r.(CreatedAt) r.(TotalRequests) r.(StreamRequests)
    r.(NonStreamRequests) r.(LastAccessedAt) t r.(RevokedAt) r.(scopes) r.(modelUsage).
Definition set_RevokedAt (t : Z) (r : UsageRecord) : UsageRecord :=
  mkRecord r.(Key) r.(Label) r.(CreatedAt) r.(TotalRequests) r.(StreamRequests)
    r.(NonStreamRequests) r.(LastAccessedAt) r.(ExpiresAt) t r.(scopes) r.(modelUsage).
Definition SetScopes (s : option KeyScopes) (r : UsageRecord) : UsageRecord :=
  mkRecord r.(Key) r.(Label) r.(CreatedAt) r.(TotalRequests) r.(StreamRequests)
    r.(NonStreamRequests) r.(LastAccessedAt) r.(ExpiresAt) r.(RevokedAt) s r.(modelUsage).
Definition GetScopes (r : UsageRecord) : option KeyScopes := r.(scopes).

(** ** Scopes *)

(** Nil receiver or empty list: everything is allowed. *)
Definition IsModelAllowed (ks : option KeyScopes) (model : string) : bool :=
  match ks with
  | None => true
  | Some s =>
    if decide (s.(AllowedModels) = []) then true
    else existsb (λ m, bool_decide (m = model)) s.(AllowedModels)
  end.

Definition IsProviderAllowed (ks : option KeyScopes) (prov : string) : bool :=
  match ks with
  | None => true
  | Some s =>
    if decide (s.(AllowedProviders) = []) then true
    else existsb (λ p, bool_decide (p = prov)) s.(AllowedProviders)
  end.

(** ** Status and snapshots *)

(** [computeStatus] at the clock reading [t]; the code reads the clock only
    when the key has an expiry. *)
Definition status_at (t : Z) (r : UsageRecord) : Status :=
  if negb (r.(RevokedAt) =? 0) then StRevoked
  else if negb (r.(ExpiresAt) =? 0) && (r.(ExpiresAt) <=? UnixNano t)
  then StExpired else StActive.

Definition computeStatus (r : UsageRecord) : ST World Status :=
  if negb (r.(RevokedAt) =? 0) then mret StRevoked
  else if negb (r.(ExpiresAt) =? 0) then t ← now; mret (status_at t r)
  else mret StActive.

Definition opt_time (ns : Z) : option Z := if ns =? 0 then None else Some ns.

Definition snapshot_with (st : Status) (r : UsageRecord) : UsageSnapshot :=
  mkSnapshot r.(Key) r.(Label) st r.(CreatedAt)
    (opt_time r.(LastAccessedAt)) (opt_time r.(ExpiresAt)) (opt_time r.(RevokedAt))
    r.(TotalRequests) r.(StreamRequests) r.(NonStreamRequests)
    r.(modelUsage) r.(scopes).

Definition Snapshot (r : UsageRecord) : ST World UsageSnapshot :=
  st ← computeStatus r; mret (snapshot_with st r).

(** [if s.onUpdate != nil { s.onUpdate(rec.Snapshot()) }] *)
Definition fire_update (r : UsageRecord) : ST World () :=
  w ← get_state;
  when w.(store).(onUpdate) (snap ← Snapshot r; emit (FireUpdate snap)).

(** ** The store's methods *)

Definition NewStore : Store := mkStore ∅ false false.

Definition SetOnUpdate (s : Store) : Store := mkStore s.(records) true s.(onDelete).
Definition SetOnDelete (s : Store) : Store := mkStore s.(records) s.(onUpdate) true.

Definition fresh_record (key label : string) (created : Z) : UsageRecord :=
  mkRecord key label created 0 0 0 0 0 0 None ∅.

Definition Lookup (key : string) : ST World (option UsageRecord) :=
  m ← get_records; mret (m !! key).

Definition Provision (key label : string) : ST World () :=
  m ← get_records;
  match m !! key with
  | Some _ => mret tt
  | None => t ← now; set_records (<[key := fresh_record key label t]> m)
  end.

(** A [VendOption] mutates the record before it is published. *)
Definition VendOption : Type := UsageRecord → UsageRecord.
Definition WithScopes (s : KeyScopes) : VendOption := SetScopes (Some s).

Definition Vend (rnd : option (list Z)) (label : string) (ttl : Z)
    (opts : list VendOption) : ST World (store_error + UsageRecord) :=
  match Generate rnd with
  | None => mret (inl ErrEntropy)
  | Some key =>
    t ← now;
    let rec0 := fresh_record key label t in
    let rec1 := if 0 <? ttl then set_ExpiresAt (UnixNano (t + ttl)) rec0 else rec0 in
    let record := foldl (λ r opt, opt r) rec1 opts in
    m ← get_records;
    set_records (<[key := record]> m);;
    fire_update record;;
    emit (Audit "appkey.vend" key);;
    mret (inr record)
  end.

Definition IsActive (rec : option UsageRecord) : ST World bool :=
  match rec with
  | None => mret false
  | Some r =>
    if negb (r.(RevokedAt) =? 0) then mret false
    else if negb (r.(ExpiresAt) =? 0)
    then t ← now; mret (negb (r.(ExpiresAt) <=? UnixNano t))
    else mret true
  end.

Definition Revoke (key : string) : ST World (option store_error) :=
  rec ← Lookup key;
  match rec with
  | None => mret (Some ErrUnknownKey)
  | Some r =>
    t ← now;
    (if r.(RevokedAt) =? 0 then
       let r' := set_RevokedAt (UnixNano t) r in
       m ← get_records;
       set_records (<[key := r']> m);;
       fire_update r';;
       emit (Audit "appkey.revoke" key)
     else mret tt);;
    mret None
  end.

Definition SetExpiry (key : string) (expiresAt : Z) : ST World (option store_error) :=
  rec ← Lookup key;
  match rec with
  | None => mret (Some ErrUnknownKey)
  | Some r =>
    let r' := set_ExpiresAt (if IsZero expiresAt then 0 else UnixNano expiresAt) r in
    m ← get_records;
    set_records (<[key := r']> m);;
    fire_update r';;
    emit (Audit "appkey.set_expiry" key);;
    mret None
  end.

(** The remaining lifetime handed to the new key: [time.Duration(exp - now)]
    when positive, else none. *)
Definition remaining_ttl (exp t : Z) : Z :=
  let remaining := wrap64 (exp - UnixNano t) in
  if 0 <? remaining then remaining else 0.

(** [Rotate].  The old record is revoked through the pointer fetched at the
    start, which the map no longer holds if the new token collided with it. *)
Definition Rotate (rnd : option (list Z)) (oldKey newLabel : string)
  : ST World (store_error + UsageSnapshot * UsageSnapshot) :=
  rec ← Lookup oldKey;
  match rec with
  | None => mret (inl ErrUnknownKey)
  | Some old =>
    let label := if decide (newLabel = "") then old.(Label) else newLabel in
    ttl ← (if old.(ExpiresAt) =? 0 then mret 0
           else t ← now; mret (remaining_ttl old.(ExpiresAt) t));
    let opts := match GetScopes old with
                | Some sc => [WithScopes sc]
                | None => []
                end in
    v ← Vend rnd label ttl opts;
    match v with
    | inl e => mret (inl e)
    | inr newRec =>
      t ← now;
      let old' := if old.(RevokedAt) =? 0
                  then set_RevokedAt (UnixNano t) old else old in
      m ← get_records;
      set_records (if decide (newRec.(Key) = oldKey) then m else <[oldKey := old']> m);;
      when (old.(RevokedAt) =? 0) (fire_update old');;
      emit (Audit "appkey.rotate" oldKey);;
      oldSnap ← Snapshot old';
      newSnap ← Snapshot newRec;
      mret (inr (oldSnap, newSnap))
    end
  end.

Definition UpdateScopes (key : string) (sc : option KeyScopes)
  : ST World (option store_error) :=
  rec ← Lookup key;
  match rec with
  | None => mret (Some ErrUnknownKey)
  | Some r =>
    let r' := SetScopes sc r in
    m ← get_records;
    set_records (<[key := r']> m);;
    fire_update r';;
    emit (Audit "appkey.set_scopes" key);;
    mret None
  end.

Definition Delete (key : string) : ST World (option store_error) :=
  m ← get_records;
  match m !! key with
  | None => mret (Some ErrUnknownKey)
  | Some _ =>
    set_records (delete key m);;
    w ← get_state;
    when w.(store).(onDelete) (emit (FireDelete key));;
    emit (Audit "appkey.delete" key);;
    mret None
  end.

Fixpoint snapshot_all (rs : list UsageRecord) : ST World (list UsageSnapshot) :=
  match rs with
  | [] => mret []
  | r :: rs' => s ← Snapshot r; ss ← snapshot_all rs'; mret (s :: ss)
  end.

(** [List]: the map is ranged over in some order, here the map's own. *)
Definition List_ : ST World (list UsageSnapshot) :=
  m ← get_records; snapshot_all ((map_to_list m).*2).

(** The counters of one request: 64-bit atomics that wrap. *)
Definition add_usage (model : string) (pt ct : Z)
    (mu : gmap string ModelUsage) : gmap string ModelUsage :=
  if decide (model = "") then mu else
  let u := default (mkUsage 0 0 0) (mu !! model) in
  <[model := mkUsage
      (wrap64 (u.(mu_Requests) + 1))
      (if 0 <? pt then wrap64 (u.(mu_PromptTokens) + pt) else u.(mu_PromptTokens))
      (if 0 <? ct then wrap64 (u.(mu_CompletionTokens) + ct)
       else u.(mu_CompletionTokens))]> mu.

Definition record_request (t : Z) (model : string) (stream : bool) (pt ct : Z)
    (r : UsageRecord) : UsageRecord :=
  mkRecord r.(Key) r.(Label) r.(CreatedAt)
    (wrap64 (r.(TotalRequests) + 1))
    (if stream then wrap64 (r.(StreamRequests) + 1) else r.(StreamRequests))
    (if stream then r.(NonStreamRequests) else wrap64 (r.(NonStreamRequests) + 1))
    (UnixNano t) r.(ExpiresAt) r.(RevokedAt) r.(scopes)
    (add_usage model pt ct r.(modelUsage)).

Definition RecordRequest (key model : string) (stream : bool)
    (promptTokens completionTokens : Z) : ST World () :=
  rec ← Lookup key;
  match rec with
  | None => mret tt
  | Some r =>
    t ← now;
    m ← get_records;
    set_records
      (<[key := record_request t model stream promptTokens completionTokens r]> m)
  end.

(** [Restore] on the record already present, and on a key not yet known. *)
Definition merge_snapshot (snap : UsageSnapshot) (r : UsageRecord) : UsageRecord :=
  mkRecord r.(Key) r.(Label) snap.(s_CreatedAt)
    snap.(s_TotalRequests) snap.(s_StreamRequests) snap.(s_NonStreamRequests)
    (from_option UnixNano r.(LastAccessedAt) snap.(s_LastAccessedAt))
    (from_option UnixNano r.(ExpiresAt) snap.(s_ExpiresAt))
    (from_option UnixNano r.(RevokedAt) snap.(s_RevokedAt))
    (match snap.(s_Scopes) with Some sc => Some sc | None => r.(scopes) end)
    (snap.(s_Models) ∪ r.(modelUsage)).

Definition record_of_snapshot (snap : UsageSnapshot) : UsageRecord :=
  mkRecord snap.(s_Key) snap.(s_Label) snap.(s_CreatedAt)
    snap.(s_TotalRequests) snap.(s_StreamRequests) snap.(s_NonStreamRequests)
    (from_option UnixNano 0 snap.(s_LastAccessedAt))
    (from_option UnixNano 0 snap.(s_ExpiresAt))
    (from_option UnixNano 0 snap.(s_RevokedAt))
    snap.(s_Scopes) snap.(s_Models).

Definition Restore (snap : UsageSnapshot) : ST World () :=
  m ← get_records;
  set_records (<[snap.(s_Key) :=
    match m !! snap.(s_Key) with
    | Some r => merge_snapshot snap r
    | None => record_of_snapshot snap
    end]> m).

(** ** Operation sequences *)

Inductive op :=
| OProvision (key label : string)
| OVend (rnd : option (list Z)) (label : string) (ttl : Z) (sc : option KeyScopes)
| ORevoke (key : string)
| OSetExpiry (key : string) (expiresAt : Z)
| ORotate (rnd : option (list Z)) (oldKey newLabel : string)
| OUpdateScopes (key : string) (sc : option KeyScopes)
| ODelete (key : string)
| ORecord (key model : string) (stream : bool) (pt ct : Z)
| ORestore (snap : UsageSnapshot).

Definition vend_opts (sc : option KeyScopes) : list VendOption :=
  match sc with Some s => [WithScopes s] | None => [] end.

Definition run_op (o : op) (w : World) : World :=
  match o with
  | OProvision key label => (Provision key label w).2
  | OVend rnd label ttl sc => (Vend rnd label ttl (vend_opts sc) w).2
  | ORevoke key => (Revoke key w).2
  | OSetExpiry key t => (SetExpiry key t w).2
  | ORotate rnd key label => (Rotate rnd key label w).2
  | OUpdateScopes key sc => (UpdateScopes key sc w).2
  | ODelete key => (Delete key w).2
  | ORecord key model stream pt ct => (RecordRequest key model stream pt ct w).2
  | ORestore snap => (Restore snap w).2
  end.

Definition run_ops (os : list op) (w : World) : World := foldl (λ w o, run_op o w) w os.

(** ** Invariant *)

(** The counters are 64-bit, the total is the sum of the two kinds modulo their
    width, and a record sits under its own key. *)
Definition record_wf (key : string) (r : UsageRecord) : Prop :=
  r.(Key) = key ∧
  in_int64 r.(TotalRequests) ∧
  wrap64 (r.(StreamRequests) + r.(NonStreamRequests)) = r.(TotalRequests) ∧
  in_int64 r.(ExpiresAt) ∧ in_int64 r.(RevokedAt) ∧ in_int64 r.(LastAccessedAt).

Definition records_wf (m : gmap string UsageRecord) : Prop :=
  map_Forall record_wf m.

Definition snapshot_wf (snap : UsageSnapshot) : Prop :=
  in_int64 snap.(s_TotalRequests) ∧
  wrap64 (snap.(s_StreamRequests) + snap.(s_NonStreamRequests)) = snap.(s_TotalRequests).

#[global] Instance snapshot_wf_dec snap : Decision (snapshot_wf snap).
Proof. unfold snapshot_wf, in_int64. apply _. Defined.

(** ** Effect of each method on the map *)

Abbreviation recs w := (w.(store).(records)).

Lemma now_store w : (now w).2.(store) = w.(store).
Proof. done. Qed.

Lemma Snapshot_store r w : (Snapshot r w).2.(store) = w.(store).
Proof. unfold Snapshot, computeStatus. st_simpl. by repeat case_match; simplify_eq/=. Qed.

Lemma fire_update_store r w : (fire_update r w).2.(store) = w.(store).
Proof.
  unfold fire_update. st_simpl. destruct (onUpdate _); [|done].
  pose proof (Snapshot_store r w) as H. by destruct (Snapshot r w).
Qed.

Lemma when_fire_store b r w : (when b (fire_update r) w).2.(store) = w.(store).
Proof. destruct b; [apply fire_update_store|done]. Qed.

Lemma Snapshot_fst r w : ∃ st, (Snapshot r w).1 = snapshot_with st r.
Proof. unfold Snapshot. rewrite ST_bind_unfold. by eexists. Qed.

Lemma emit_store e w : (emit e w).2.(store) = w.(store).
Proof. done. Qed.

(** [step_store] runs the monad up to the calls whose effect on the map is
    known, and rewrites with it. *)
Create Rewrite HintDb store_run.
#[export] Hint Rewrite @ST_bind_unfold now_store Snapshot_store fire_update_store
  when_fire_store emit_store : store_run.

Ltac step_store :=
  repeat (progress (autorewrite with store_run; cbn [fst snd mret ST_ret gets_state
    get_records set_records modify_state get_state store records clock effects now])).

Lemma Lookup_run key w : Lookup key w = (recs w !! key, w).
Proof. done. Qed.

Lemma Provision_records key label w :
  recs (Provision key label w).2 =
    match recs w !! key with
    | Some _ => recs w
    | None => <[key := fresh_record key label (w.(clock) 0%nat)]> (recs w)
    end.
Proof. unfold Provision. step_store. by destruct (recs w !! key). Qed.

Lemma Revoke_records key w :
  recs (Revoke key w).2 =
    match recs w !! key with
    | Some r =>
      if r.(RevokedAt) =? 0
      then <[key := set_RevokedAt (UnixNano (w.(clock) 0%nat)) r]> (recs w) else recs w
    | None => recs w
    end.
Proof.
  unfold Revoke. step_store. rewrite Lookup_run. simpl.
  destruct (recs w !! key) as [r|]; [|done]. step_store.
  destruct (RevokedAt r =? 0); [|done]. by step_store.
Qed.

Lemma SetExpiry_records key t w :
  recs (SetExpiry key t w).2 =
    match recs w !! key with
    | Some r =>
      <[key := set_ExpiresAt (if IsZero t then 0 else UnixNano t) r]> (recs w)
    | None => recs w
    end.
Proof.
  unfold SetExpiry. step_store. rewrite Lookup_run. simpl.
  destruct (recs w !! key) as [r|]; [|done]. by step_store.
Qed.

Lemma UpdateScopes_records key sc w :
  recs (UpdateScopes key sc w).2 =
    match recs w !! key with
    | Some r => <[key := SetScopes sc r]> (recs w)
    | None => recs w
    end.
Proof.
  unfold UpdateScopes. step_store. rewrite Lookup_run. simpl.
  destruct (recs w !! key) as [r|]; [|done]. by step_store.
Qed.

Lemma Delete_records key w : recs (Delete key w).2 = delete key (recs w).
Proof.
  unfold Delete. step_store. destruct (recs w !! key) as [r|] eqn:E.
  - step_store. unfold when. by destruct (onDelete _).
  - simpl. by rewrite delete_id.
Qed.

Lemma RecordRequest_records key model stream pt ct w :
  recs (RecordRequest key model stream pt ct w).2 =
    match recs w !! key with
    | Some r => <[key := record_request (w.(clock) 0%nat) model stream pt ct r]> (recs w)
    | None => recs w
    end.
Proof.
  unfold RecordRequest. step_store. rewrite Lookup_run. simpl.
  by destruct (recs w !! key).
Qed.

Lemma Restore_records snap w :
  recs (Restore snap w).2 =
    <[snap.(s_Key) := match recs w !! snap.(s_Key) with
                      | Some r => merge_snapshot snap r
                      | None => record_of_snapshot snap
                      end]> (recs w).
Proof. done. Qed.

(** The record [Vend] publishes at clock reading [t]. *)
Definition vended (key label : string) (ttl t : Z) (opts : list VendOption) : UsageRecord :=
  foldl (λ r opt, opt r)
    (let r := fresh_record key label t in
     if 0 <? ttl then set_ExpiresAt (UnixNano (t + ttl)) r else r) opts.

Lemma Vend_records rnd label ttl opts w :
  recs (Vend rnd label ttl opts w).2 =
    match Generate rnd with
    | Some key => <[key := vended key label ttl (w.(clock) 0%nat) opts]> (recs w)
    | None => recs w
    end.
Proof. unfold Vend. destruct (Generate rnd); [|done]. by step_store. Qed.

Lemma Vend_result rnd label ttl opts w :
  (Vend rnd label ttl opts w).1 =
    match Generate rnd with
    | Some key => inr (vended key label ttl (w.(clock) 0%nat) opts)
    | None => inl ErrEntropy
    end.
Proof. unfold Vend. destruct (Generate rnd); [|done]. by step_store. Qed.

(** ** Clock readings *)

(** The readings left in [w'] are those of [w] after the first few. *)
Definition later (w w' : World) : Prop := ∃ n, ∀ i, w'.(clock) i = w.(clock) (n + i)%nat.

#[global] Instance later_preorder : PreOrder later.
Proof.
  split; [by exists 0%nat|]. intros a b c [n Hn] [m Hm]. exists (n + m)%nat. intros i.
  rewrite Hm, Hn. f_equal. lia.
Qed.

Lemma now_later w : later w (now w).2.
Proof. by exists 1%nat. Qed.

Lemma Snapshot_later r w : later w (Snapshot r w).2.
Proof.
  unfold Snapshot, computeStatus. st_simpl.
  repeat case_match; simplify_eq/=; try done; apply now_later.
Qed.

Lemma fire_update_later r w : later w (fire_update r w).2.
Proof.
  unfold fire_update. rewrite ST_bind_unfold. simpl. unfold when.
  destruct (onUpdate _); [|done]. rewrite ST_bind_unfold. simpl.
  etrans; [apply (Snapshot_later r)|by exists 0%nat].
Qed.

Lemma Vend_later rnd label ttl opts w : later w (Vend rnd label ttl opts w).2.
Proof.
  unfold Vend. destruct (Generate rnd); [|done]. step_store.
  etrans; [apply now_later|]. etrans; [|eapply fire_update_later]. by exists 0%nat.
Qed.

#[export] Hint Resolve now_later Snapshot_later fire_update_later Vend_later : butter.

(** ** Rotation *)

Section rotate.
Context (rnd : option (list Z)) (oldKey newLabel : string) (w : World).
Context (old : UsageRecord) (newKey : string).
Context (Hold : recs w !! oldKey = Some old) (Hgen : Generate rnd = Some newKey).

Definition rotate_label : string :=
  if decide (newLabel = "") then old.(Label) else newLabel.
Definition rotate_ttl : Z :=
  if old.(ExpiresAt) =? 0 then 0 else remaining_ttl old.(ExpiresAt) (w.(clock) 0%nat).
Definition rotate_created : Z :=
  if old.(ExpiresAt) =? 0 then w.(clock) 0%nat else w.(clock) 1%nat.
Definition rotate_new : UsageRecord :=
  vended newKey rotate_label rotate_ttl rotate_created (vend_opts old.(scopes)).

Lemma rotate_new_Key : rotate_new.(Key) = newKey.
Proof. unfold rotate_new, vended. by destruct (scopes old), (0 <? rotate_ttl). Qed.

Lemma Rotate_run : ∃ t,
  (∃ n, t = w.(clock) n) ∧
  let old' := if old.(RevokedAt) =? 0 then set_RevokedAt (UnixNano t) old else old in
  recs (Rotate rnd oldKey newLabel w).2 =
    (if decide (newKey = oldKey) then <[newKey := rotate_new]> (recs w)
     else <[oldKey := old']> (<[newKey := rotate_new]> (recs w))) ∧
  (∃ st st', (Rotate rnd oldKey newLabel w).1 =
    inr (snapshot_with st old', snapshot_with st' rotate_new)).
Proof using All.
  unfold Rotate. rewrite ST_bind_unfold, Lookup_run. simpl. rewrite Hold.
  rewrite ST_bind_unfold.
  set (p := (if old.(ExpiresAt) =? 0 then mret 0
             else t ← now; mret (remaining_ttl old.(ExpiresAt) t) : ST World Z) w).
  assert (p.1 = rotate_ttl ∧ p.2.(store) = w.(store) ∧ later w p.2 ∧
    p.2.(clock) 0%nat = rotate_created) as (Hp1 & Hp2 & Hp3 & Hp4).
  { subst p. unfold rotate_ttl, rotate_created.
    destruct (ExpiresAt old =? 0); split_and!; try done; by exists 1%nat. }
  destruct p as [ttl w1]; simpl in *. rewrite ST_bind_unfold, Vend_result, Hgen, Hp4, Hp1.
  change (match GetScopes old with Some sc => [WithScopes sc] | None => [] end)
    with (vend_opts (scopes old)).
  fold rotate_label. fold rotate_new.
  set (w2 := (Vend _ _ _ _ _).2). rewrite ST_bind_unfold. simpl.
  exists (w2.(clock) 0%nat). split.
  { assert (later w w2) as [n Hn] by (etrans; [done|apply Vend_later]).
    exists n. rewrite Hn. f_equal. lia. }
  assert (recs w2 = <[newKey := rotate_new]> (recs w)) as Hw2.
  { subst w2. rewrite Vend_records, Hgen, Hp4, Hp2. done. }
  set (old' := if RevokedAt old =? 0 then _ else old). rewrite rotate_new_Key. split.
  - step_store. by rewrite Hw2.
  - step_store.
    match goal with |- context [(Snapshot old' ?x).1] =>
      destruct (Snapshot_fst old' x) as [st ->] end.
    match goal with |- context [(Snapshot rotate_new ?x).1] =>
      destruct (Snapshot_fst rotate_new x) as [st' ->] end.
    eauto.
Qed.
End rotate.

Lemma Rotate_unknown rnd oldKey newLabel w :
  recs w !! oldKey = None →
  Rotate rnd oldKey newLabel w = (inl ErrUnknownKey, w).
Proof. intros H. unfold Rotate. by rewrite ST_bind_unfold, Lookup_run; simpl; rewrite H. Qed.

Lemma Rotate_no_entropy rnd oldKey newLabel w :
  Generate rnd = None → recs (Rotate rnd oldKey newLabel w).2 = recs w.
Proof.
  intros Hg. unfold Rotate. rewrite ST_bind_unfold, Lookup_run. simpl.
  destruct (recs w !! oldKey) as [old|]; [|done]. rewrite ST_bind_unfold.
  rewrite ST_bind_unfold, Vend_result, Hg. simpl. rewrite Vend_records, Hg.
  by destruct (ExpiresAt old =? 0).
Qed.

(** ** Invariant preservation *)

Lemma UnixNano_range t : in_int64 (UnixNano t).
Proof. apply wrap64_range. Qed.

Lemma in_int64_0 : in_int64 0.
Proof. by unfold in_int64, two63. Qed.

#[export] Hint Resolve UnixNano_range in_int64_0 : butter.

Lemma wf_fresh key label t : record_wf key (fresh_record key label t).
Proof. unfold record_wf. simpl. split_and!; auto with butter. Qed.

Lemma wf_set_ExpiresAt key t r :
  in_int64 t → record_wf key r → record_wf key (set_ExpiresAt t r).
Proof. unfold record_wf. simpl. tauto. Qed.

Lemma wf_set_RevokedAt key t r :
  in_int64 t → record_wf key r → record_wf key (set_RevokedAt t r).
Proof. unfold record_wf. simpl. tauto. Qed.

Lemma wf_SetScopes key sc r : record_wf key r → record_wf key (SetScopes sc r).
Proof. unfold record_wf. simpl. tauto. Qed.

Lemma wf_record_request key t model stream pt ct r :
  record_wf key r → record_wf key (record_request t model stream pt ct r).
Proof.
  intros (? & ? & Hs & ? & ? & ?). unfold record_wf. simpl.
  split_and!; auto with butter. rewrite <-Hs, wrap64_add_l.
  destruct stream; [rewrite wrap64_add_l|rewrite wrap64_add_r]; f_equal; lia.
Qed.

Lemma in_int64_opt d o : in_int64 d → in_int64 (from_option UnixNano d o).
Proof. destruct o; simpl; auto with butter. Qed.

#[export] Hint Resolve wf_fresh wf_set_ExpiresAt wf_set_RevokedAt wf_SetScopes
  wf_record_request in_int64_opt : butter.

Lemma wf_merge_snapshot key snap r :
  snapshot_wf snap → record_wf key r → record_wf key (merge_snapshot snap r).
Proof.
  intros [? ?] (? & ? & ? & ? & ? & ?). unfold record_wf. simpl. split_and!; auto with butter.
Qed.

Lemma wf_record_of_snapshot snap :
  snapshot_wf snap → record_wf snap.(s_Key) (record_of_snapshot snap).
Proof. intros [? ?]. unfold record_wf. simpl. split_and!; auto with butter. Qed.

Lemma wf_vended key label ttl t sc : record_wf key (vended key label ttl t (vend_opts sc)).
Proof.
  unfold vended. destruct sc, (0 <? ttl); simpl; unfold WithScopes; auto with butter.
Qed.

#[export] Hint Resolve wf_merge_snapshot wf_record_of_snapshot wf_vended : butter.

Lemma records_wf_insert key r m :
  record_wf key r → records_wf m → records_wf (<[key := r]> m).
Proof. intros. by apply map_Forall_insert_2. Qed.

Lemma records_wf_lookup m key r : records_wf m → m !! key = Some r → record_wf key r.
Proof. intros H ?. by apply H. Qed.

#[export] Hint Resolve records_wf_insert records_wf_lookup : butter.

(** An operation that replaces the record of [key]: purging it, restoring a
    snapshot of it, or drawing it again as a new token. *)
Definition replaces (key : string) (o : op) : Prop :=
  match o with
  | ODelete k => k = key
  | ORestore snap => snap.(s_Key) = key
  | OVend rnd _ _ _ => Generate rnd = Some key
  | ORotate rnd _ _ => Generate rnd = Some key
  | _ => False
  end.

Definition records_for (key : string) (o : op) : Prop :=
  match o with ORecord k _ _ _ _ => k = key | _ => False end.

(** The part of the invariant that no operation can break, and the counters. *)
Definition record_base (key : string) (r : UsageRecord) : Prop :=
  r.(Key) = key ∧ in_int64 r.(ExpiresAt) ∧ in_int64 r.(RevokedAt) ∧
  in_int64 r.(LastAccessedAt).
Definition add_up (r : UsageRecord) : Prop :=
  in_int64 r.(TotalRequests) ∧
  wrap64 (r.(StreamRequests) + r.(NonStreamRequests)) = r.(TotalRequests).
Definition counters (r : UsageRecord) : Z * Z * Z * gmap string ModelUsage :=
  (r.(TotalRequests), r.(StreamRequests), r.(NonStreamRequests), r.(modelUsage)).

(** What one operation can do to one key. *)
Inductive touched (key : string) (o : op)
  : option UsageRecord → option UsageRecord → Prop :=
| touched_not x : x = None ∨ ¬ records_for key o → touched key o x x
| touched_meta r r' :
    counters r' = counters r → (record_base key r → record_base key r') →
    ¬ records_for key o → touched key o (Some r) (Some r')
| touched_record r t model stream pt ct :
    o = ORecord key model stream pt ct →
    touched key o (Some r) (Some (record_request t model stream pt ct r))
| touched_new x r : record_wf key r → x = None ∨ replaces key o → touched key o x (Some r)
| touched_gone x : replaces key o → touched key o x None
| touched_restored x snap :
    o = ORestore snap → snap.(s_Key) = key →
    touched key o x (Some (match x with
                           | Some r => merge_snapshot snap r
                           | None => record_of_snapshot snap
                           end)).

(** An operation that leaves the key's record as it is. *)
Ltac untouched := apply touched_not; right; cbn [records_for]; first [done | intros []].

Lemma touched_insert_ne key o k r (m : gmap string UsageRecord) x :
  k ≠ key → touched key o x (m !! key) → touched key o x (<[k := r]> m !! key).
Proof. intros. by rewrite lookup_insert_ne. Qed.

Lemma touched_update key o k r r' (m : gmap string UsageRecord) :
  m !! k = Some r → counters r' = counters r → (record_base key r → record_base key r') →
  ¬ records_for key o → touched key o (m !! key) (<[k := r']> m !! key).
Proof.
  intros Hk Hc Hb Ho. destruct (decide (k = key)) as [->|].
  - rewrite Hk, lookup_insert_eq. by apply touched_meta.
  - rewrite lookup_insert_ne by done. untouched.
Qed.

Lemma base_set_ExpiresAt key t r :
  in_int64 t → record_base key r → record_base key (set_ExpiresAt t r).
Proof. unfold record_base. simpl. tauto. Qed.
Lemma base_set_RevokedAt key t r :
  in_int64 t → record_base key r → record_base key (set_RevokedAt t r).
Proof. unfold record_base. simpl. tauto. Qed.
#[export] Hint Resolve base_set_ExpiresAt base_set_RevokedAt : butter.

Lemma Rotate_touched rnd k label w key :
  touched key (ORotate rnd k label) (recs w !! key)
    (recs (Rotate rnd k label w).2 !! key).
Proof.
  destruct (recs w !! k) as [old|] eqn:Hold;
    [|rewrite Rotate_unknown by done; untouched].
  destruct (Generate rnd) as [nk|] eqn:Hg;
    [|rewrite Rotate_no_entropy by done; untouched].
  destruct (Rotate_run rnd k label w old nk Hold Hg) as (t & _ & -> & _).
  assert (record_wf nk (rotate_new label w old nk)) as Hn by apply wf_vended.
  destruct (decide (nk = key)) as [->|Hne].
  - assert (touched key (ORotate rnd k label) (recs w !! key)
      (<[key := rotate_new label w old key]> (recs w) !! key)) as Ht.
    { rewrite lookup_insert_eq. apply touched_new; [done|by right]. }
    case_decide; [done|]. by apply touched_insert_ne.
  - case_decide as Hd; [apply touched_insert_ne; [done|untouched]|].
    rewrite insert_insert_ne by done. apply touched_insert_ne; [done|].
    eapply touched_update; [done|by destruct (RevokedAt old =? 0)| |intros []].
    destruct (RevokedAt old =? 0); auto with butter.
Qed.

Lemma run_op_touched o w key : touched key o (recs w !! key) (recs (run_op o w) !! key).
Proof.
  destruct o; cbn [run_op].
  - rewrite Provision_records. destruct (recs w !! key0) eqn:E; [untouched|].
    destruct (decide (key0 = key)) as [->|].
    + rewrite lookup_insert_eq. apply touched_new; auto with butter.
    + apply touched_insert_ne; [done|]. untouched.
  - rewrite Vend_records. destruct (Generate rnd) as [k|] eqn:E; [|untouched].
    destruct (decide (k = key)) as [->|].
    + rewrite lookup_insert_eq. apply touched_new; [apply wf_vended|by right].
    + apply touched_insert_ne; [done|]. untouched.
  - rewrite Revoke_records. destruct (recs w !! key0) as [r|] eqn:E; [|untouched].
    destruct (RevokedAt r =? 0); [|untouched].
    eapply touched_update; [done..| |by intros []]. auto with butter.
  - rewrite SetExpiry_records.
    destruct (recs w !! key0) as [r|] eqn:E; [|untouched].
    eapply touched_update; [done..| |by intros []].
    intros Hb. apply base_set_ExpiresAt; [|done]. case_match; auto with butter.
  - apply Rotate_touched.
  - rewrite UpdateScopes_records.
    destruct (recs w !! key0) as [r|] eqn:E; [|untouched].
    by eapply touched_update; [done..| |intros []].
  - rewrite Delete_records. destruct (decide (key0 = key)) as [->|].
    + rewrite lookup_delete_eq. by apply touched_gone.
    + rewrite lookup_delete_ne by done. untouched.
  - rewrite RecordRequest_records. destruct (decide (key0 = key)) as [->|].
    + destruct (recs w !! key) as [r|] eqn:E; [|rewrite E; apply touched_not; by left].
      rewrite lookup_insert_eq. by apply touched_record.
    + destruct (recs w !! key0); [apply touched_insert_ne; [done|]|]; untouched.
  - rewrite Restore_records. destruct (decide (s_Key snap = key)) as [<-|].
    + rewrite lookup_insert_eq. by apply touched_restored.
    + apply touched_insert_ne; [done|]. untouched.
Qed.

Lemma record_wf_split key r : record_wf key r ↔ record_base key r ∧ add_up r.
Proof. unfold record_wf, record_base, add_up. tauto. Qed.

(** The invariant of one key, where [bad] says that a snapshot whose counters do
    not add up was restored. *)
Definition record_ok (bad : Prop) (key : string) (r : UsageRecord) : Prop :=
  record_base key r ∧ (bad ∨ add_up r).

Lemma touched_ok bad key o x x' :
  touched key o x x' →
  (∀ snap, o = ORestore snap → snap.(s_Key) = key → bad ∨ snapshot_wf snap) →
  (∀ r, x = Some r → record_ok bad key r) → ∀ r, x' = Some r → record_ok bad key r.
Proof.
  intros Ht Hsnap Hx r' Hr'. destruct Ht as [x Ho|r r0 Hc Hb Ho|r t model stream pt ct Ho|
    x r Hw _|x _|x snap Ho Hk]; simplify_eq; auto.
  - destruct (Hx r eq_refl) as [Hr [?|Ha]]; split; auto. right.
    unfold counters in Hc. simplify_eq. unfold add_up in *. congruence.
  - destruct (Hx r eq_refl) as [Hr [?|Ha]].
    + split; [|by left]. unfold record_base in *. simpl. intuition auto with butter.
    + assert (record_wf key (record_request t model stream pt ct r)) as Hw
        by (apply wf_record_request, record_wf_split; done).
      apply record_wf_split in Hw as [??]. split; auto.
  - apply record_wf_split in Hw as [??]. split; auto.
  - specialize (Hsnap snap eq_refl eq_refl). split.
    + destruct x as [r|]; [|by unfold record_base; simpl; split_and!; auto with butter].
      destruct (Hx r eq_refl) as [(? & ? & ? & ?) _]. unfold record_base. simpl.
      split_and!; auto with butter.
    + destruct Hsnap as [?|Hs]; [by left|right]. by destruct x.
Qed.

Lemma run_ops_ok bad key os : ∀ w,
  (∀ snap, ORestore snap ∈ os → snap.(s_Key) = key → bad ∨ snapshot_wf snap) →
  (∀ r, recs w !! key = Some r → record_ok bad key r) →
  ∀ r, recs (run_ops os w) !! key = Some r → record_ok bad key r.
Proof.
  induction os as [|o os IH]; intros w Hs Hw; [done|]. apply IH.
  - intros snap ?. apply Hs. by right.
  - eapply touched_ok; [apply run_op_touched| |done]. intros snap ->. apply Hs. by left.
Qed.

(** ** Revocation *)

Definition revoked_at (m : gmap string UsageRecord) (key : string) (t : Z) : Prop :=
  ∃ r, m !! key = Some r ∧ r.(RevokedAt) = t.

Lemma revoked_insert_ne m key k r t :
  k ≠ key → revoked_at m key t → revoked_at (<[k := r]> m) key t.
Proof. intros ? (r' & ? & ?). exists r'. by rewrite lookup_insert_ne. Qed.

Lemma revoked_insert m key k r r' t :
  m !! k = Some r → r'.(RevokedAt) = r.(RevokedAt) →
  revoked_at m key t → revoked_at (<[k := r']> m) key t.
Proof.
  intros Hr Heq (r0 & Hk & Ht). destruct (decide (k = key)) as [->|].
  - simplify_eq. exists r'. by rewrite lookup_insert_eq.
  - apply revoked_insert_ne; [done|]. by exists r0.
Qed.

Lemma revoked_insert_nonzero m key k r r' t :
  t ≠ 0 → m !! k = Some r → r.(RevokedAt) = 0 →
  revoked_at m key t → revoked_at (<[k := r']> m) key t.
Proof.
  intros Ht Hr Heq (r0 & Hk & ?). destruct (decide (k = key)) as [->|].
  - simplify_eq.
  - apply revoked_insert_ne; [done|]. by exists r0.
Qed.

Lemma Rotate_keeps_revoked rnd k label w key t :
  t ≠ 0 → Generate rnd ≠ Some key → revoked_at (recs w) key t →
  revoked_at (recs (Rotate rnd k label w).2) key t.
Proof.
  intros Ht Hg Hr. destruct (recs w !! k) as [old|] eqn:Hold; [|by rewrite Rotate_unknown].
  destruct (Generate rnd) as [nk|] eqn:Hgen; [|by rewrite Rotate_no_entropy].
  destruct (Rotate_run rnd k label w old nk Hold Hgen) as (t' & _ & -> & _).
  assert (nk ≠ key) by congruence. apply (revoked_insert_ne _ _ nk (rotate_new label w old nk)) in Hr; [|done].
  case_decide as Hd; [done|]. rewrite <-(lookup_insert_ne _ nk k (rotate_new label w old nk)) in Hold by done.
  destruct (Z.eqb_spec (RevokedAt old) 0); [by eapply revoked_insert_nonzero|].
  by eapply revoked_insert.
Qed.

Lemma run_op_keeps_revoked o w key t :
  t ≠ 0 → ¬ replaces key o → revoked_at (recs w) key t →
  revoked_at (recs (run_op o w)) key t.
Proof.
  intros Ht Ho Hr. destruct o; cbn [run_op replaces] in *.
  - rewrite Provision_records. case_match; [done|].
    apply revoked_insert_ne; [|done]. destruct Hr as (? & ? & _). congruence.
  - rewrite Vend_records. case_match; [|done]. apply revoked_insert_ne; [congruence|done].
  - rewrite Revoke_records. repeat case_match; try done.
    eapply revoked_insert_nonzero; [done|done|lia|done].
  - rewrite SetExpiry_records. case_match; [|done]. by eapply revoked_insert.
  - by apply Rotate_keeps_revoked.
  - rewrite UpdateScopes_records. case_match; [|done]. by eapply revoked_insert.
  - rewrite Delete_records. destruct Hr as (r & ? & ?). exists r.
    by rewrite lookup_delete_ne by done.
  - rewrite RecordRequest_records. case_match; [|done]. by eapply revoked_insert.
  - rewrite Restore_records. by apply revoked_insert_ne.
Qed.

Lemma run_ops_keeps_revoked os w key t :
  t ≠ 0 → Forall (λ o, ¬ replaces key o) os → revoked_at (recs w) key t →
  revoked_at (recs (run_ops os w)) key t.
Proof.
  intros Ht. revert w. induction os as [|o os IH]; intros w; [done|].
  intros [? ?]%Forall_cons_iff ?. simpl. apply IH; [done|]. by apply run_op_keeps_revoked.
Qed.

(** ** Usage accounting *)

(** The contribution of one operation to the counters of [key] and [model];
    a request without a model counts for no model. *)
Record tally := mkTally {
  t_total : Z; t_stream : Z; t_model : Z; t_prompt : Z; t_completion : Z
}.

Definition tally_op (key model : string) (o : op) : tally :=
  match o with
  | ORecord k m stream pt ct =>
    if decide (k = key) then
      mkTally 1 (if stream then 1 else 0)
        (if decide (m = model ∧ m ≠ "") then 1 else 0)
        (if decide (m = model ∧ m ≠ "") then Z.max 0 pt else 0)
        (if decide (m = model ∧ m ≠ "") then Z.max 0 ct else 0)
    else mkTally 0 0 0 0 0
  | _ => mkTally 0 0 0 0 0
  end.

Definition sum_of (f : tally → Z) (key model : string) (os : list op) : Z :=
  foldr (λ o acc, f (tally_op key model o) + acc) 0 os.

Definition usage_of (r : UsageRecord) (model : string) : ModelUsage :=
  default (mkUsage 0 0 0) (r.(modelUsage) !! model).

Definition bumped (key model : string) (os : list op) (r r' : UsageRecord) : Prop :=
  r'.(TotalRequests) = wrap64 (r.(TotalRequests) + sum_of t_total key model os) ∧
  r'.(StreamRequests) = wrap64 (r.(StreamRequests) + sum_of t_stream key model os) ∧
  usage_of r' model = mkUsage
    (wrap64 ((usage_of r model).(mu_Requests) + sum_of t_model key model os))
    (wrap64 ((usage_of r model).(mu_PromptTokens) + sum_of t_prompt key model os))
    (wrap64 ((usage_of r model).(mu_CompletionTokens) + sum_of t_completion key model os)).

(** Counters are 64-bit to begin with. *)
Definition counters_wf (r : UsageRecord) (model : string) : Prop :=
  in_int64 r.(TotalRequests) ∧ in_int64 r.(StreamRequests) ∧
  in_int64 (usage_of r model).(mu_Requests) ∧
  in_int64 (usage_of r model).(mu_PromptTokens) ∧
  in_int64 (usage_of r model).(mu_CompletionTokens).

Lemma lookup_add_usage_ne m model pt ct mu :
  m ≠ model → add_usage m pt ct mu !! model = mu !! model.
Proof. intros. unfold add_usage. case_decide; [done|]. by rewrite lookup_insert_ne. Qed.

Lemma bump_one key model t m stream pt ct r :
  counters_wf r model →
  bumped key model [ORecord key m stream pt ct] r (record_request t m stream pt ct r).
Proof.
  intros (H1 & H2 & H3 & H4 & H5). unfold bumped, sum_of, tally_op. simpl.
  rewrite decide_True by done. simpl. split_and!.
  - by f_equal; lia.
  - destruct stream; [f_equal; lia|]. rewrite Z.add_0_r. by rewrite wrap64_id.
  - unfold usage_of in *. simpl. case_decide as Hd.
    + destruct Hd as [-> Hm]. unfold add_usage. rewrite decide_False, lookup_insert_eq by done.
      simpl. destruct (Z.ltb_spec 0 pt), (Z.ltb_spec 0 ct);
        rewrite ?Z.max_r, ?Z.max_l, ?Z.add_0_r by lia; rewrite ?(wrap64_id _ H4), ?(wrap64_id _ H5);
        f_equal; f_equal; lia.
    + assert (add_usage m pt ct (modelUsage r) !! model = modelUsage r !! model) as ->.
      { destruct (decide (m = model)) as [->|]; [|by apply lookup_add_usage_ne].
        unfold add_usage. rewrite decide_True; [done|]. destruct (decide (model = "")); tauto. }
      rewrite !Z.add_0_r, !wrap64_id by done. by destruct (modelUsage r !! model) as [[]|].
Qed.

Lemma wrap64_add_assoc a b c : wrap64 (wrap64 (a + b) + c) = wrap64 (a + (b + c)).
Proof. rewrite wrap64_add_l. f_equal. lia. Qed.

Lemma bumped_cons key model o os r r1 r2 :
  bumped key model [o] r r1 → bumped key model os r1 r2 → bumped key model (o :: os) r r2.
Proof.
  unfold bumped. simpl. intros (H1 & H2 & H3) (K1 & K2 & K3).
  rewrite K1, K2, K3, H1, H2, H3. simpl. by rewrite !Z.add_0_r, !wrap64_add_assoc.
Qed.

Lemma bumped_wf key model os r r' : bumped key model os r r' → counters_wf r' model.
Proof.
  intros (H1 & H2 & H3). unfold counters_wf. rewrite H1, H2, H3. simpl. split_and!; apply wrap64_range.
Qed.

Lemma bumped_refl key model r : counters_wf r model → bumped key model [] r r.
Proof.
  intros (? & ? & ? & ? & ?). unfold bumped. simpl. rewrite !Z.add_0_r, !wrap64_id by done.
  by destruct (usage_of r model).
Qed.

Lemma bumped_skip key model o os r r' :
  tally_op key model o = mkTally 0 0 0 0 0 → bumped key model os r r' →
  bumped key model (o :: os) r r'.
Proof. unfold bumped. simpl. by intros ->. Qed.

Lemma tally_other key model o :
  ¬ records_for key o → tally_op key model o = mkTally 0 0 0 0 0.
Proof. destruct o; cbn; try done. intros. by rewrite decide_False. Qed.

Lemma bumped_same key model o r r' :
  ¬ records_for key o → counters r' = counters r → counters_wf r model →
  bumped key model [o] r r'.
Proof.
  intros Ho Hc Hw. apply bumped_skip; [by apply tally_other|].
  apply (bumped_refl key) in Hw. unfold bumped, usage_of, counters in *. simplify_eq. congruence.
Qed.

Lemma touched_bumped key model o r x' :
  touched key o (Some r) x' → ¬ replaces key o → counters_wf r model →
  ∃ r', x' = Some r' ∧ bumped key model [o] r r'.
Proof.
  intros Ht Hr Hw. remember (Some r) as x eqn:Hx. destruct Ht as [x Ho|r0 r' Hc _ Ho|
    r0 t m stream pt ct ->|x r' _ Ho|x Ho|x snap -> Hk]; simplify_eq.
  - exists r. split; [done|]. apply bumped_same; [|done|done]. by destruct Ho.
  - exists r'. split; [done|]. unfold counters in Hc. apply bumped_same; [done| |done].
    unfold counters. congruence.
  - eexists. split; [done|]. by apply bump_one.
  - by destruct Ho.
  - by destruct Hr.
  - by destruct Hr.
Qed.

Lemma run_ops_bumped key model os : ∀ w r,
  Forall (λ o, ¬ replaces key o) os → recs w !! key = Some r → counters_wf r model →
  ∃ r', recs (run_ops os w) !! key = Some r' ∧ bumped key model os r r'.
Proof.
  induction os as [|o os IH]; intros w r.
  { intros _ ? ?. exists r. by auto using bumped_refl. }
  intros [Ho Hos]%Forall_cons_iff Hr Hc. pose proof (run_op_touched o w key) as Ht.
  rewrite Hr in Ht. destruct (touched_bumped key model o r _ Ht Ho Hc) as (r1 & Hr1 & Hb).
  destruct (IH (run_op o w) r1) as (r' & ? & ?); [done..|by eapply bumped_wf|].
  exists r'. split; [done|]. by eapply bumped_cons.
Qed.

(** ** Status *)

Lemma IsActive_computeStatus r w :
  (IsActive (Some r) w).1 = bool_decide ((computeStatus r w).1 = StActive).
Proof.
  unfold IsActive, computeStatus, status_at. st_simpl.
  destruct (RevokedAt r =? 0), (ExpiresAt r =? 0); simpl; try done.
  by destruct (_ <=? _).
Qed.

Lemma IsActive_revoked r w : r.(RevokedAt) ≠ 0 → (IsActive (Some r) w).1 = false.
Proof. intros H. unfold IsActive. by rewrite (proj2 (Z.eqb_neq _ _) H). Qed.

(** ** Snapshots *)

Lemma opt_time_roundtrip t : in_int64 t → from_option UnixNano 0 (opt_time t) = t.
Proof.
  intros. unfold opt_time. destruct (Z.eqb_spec t 0); [done|]. by apply wrap64_id.
Qed.

Lemma record_of_snapshot_with st key r :
  record_wf key r → record_of_snapshot (snapshot_with st r) = r.
Proof.
  intros (? & ? & ? & ? & ? & ?). unfold record_of_snapshot. simpl.
  rewrite !opt_time_roundtrip by done. by destruct r.
Qed.

(** ** Properties *)

(** Witness data: a clock that ticks by one from [t], and an empty store with
    both callbacks registered. *)
Definition ticking (t : Z) : nat → Z := λ n, t + Z.of_nat n.
Definition start_world (t : Z) : World := mkWorld (mkStore ∅ true true) (ticking t) [].
Definition rnd_a : option (list Z) := Some (replicate 20 0).
Definition rnd_b : option (list Z) := Some (replicate 20 1).
Definition key_a : string := "btr_aaaaaaaaaaaaaaaaaaaa".
Definition key_b : string := "btr_bbbbbbbbbbbbbbbbbbbb".

(** C38. The store's type invariant.  After any sequence of operations from an
    empty store, restores of arbitrary snapshots included, every record sits
    under its own key and its times fit their width; and its total count is in
    range and is the sum of the streamed and the other requests (modulo the
    counters' width), unless a snapshot of that very key whose own counts do not
    add up was restored. *)
Theorem store_invariant os up del clk key r :
  recs (run_ops os (mkWorld (mkStore ∅ up del) clk [])) !! key = Some r →
  r.(Key) = key ∧ in_int64 r.(ExpiresAt) ∧ in_int64 r.(RevokedAt) ∧
  in_int64 r.(LastAccessedAt) ∧
  ((in_int64 r.(TotalRequests) ∧
    wrap64 (r.(StreamRequests) + r.(NonStreamRequests)) = r.(TotalRequests)) ∨
   ∃ snap, ORestore snap ∈ os ∧ snap.(s_Key) = key ∧ ¬ snapshot_wf snap).
Proof.
  intros Hr.
  set (bad := ∃ snap, ORestore snap ∈ os ∧ s_Key snap = key ∧ ¬ snapshot_wf snap).
  destruct (run_ops_ok bad key os (mkWorld (mkStore ∅ up del) clk [])) with (r := r)
    as [(? & ? & ? & ?) Ha]; [| |done|].
  - intros snap ? ?. destruct (decide (snapshot_wf snap)); [by right|left]. by exists snap.
  - intros r0 E. cbn [store records] in E. by rewrite lookup_empty in E.
  - split_and!; [done..|]. by destruct Ha; [right|left].
Qed.

Lemma store_invariant_witness :
  let skewed := mkSnapshot key_b "skewed" StActive 1 None None None 9 1 2 ∅ None in
  let w := run_ops
    [OVend rnd_a "svc" 3600 None; ORecord key_a "gpt-4o" true 10 20; ORestore skewed;
     ORevoke key_a; ORecord key_a "gpt-4o" false 1 1] (start_world 1000) in
  ∃ r, recs w !! key_a = Some r ∧ r.(TotalRequests) = 2 ∧
    wrap64 (r.(StreamRequests) + r.(NonStreamRequests)) = r.(TotalRequests).
Proof.
  intros skewed w. assert (TotalRequests <$> recs w !! key_a = Some 2) as Hr
    by (vm_compute; reflexivity).
  apply fmap_Some in Hr as (r & Hr & Ht). exists r. split; [done|]. split; [done|].
  destruct (store_invariant _ true true (ticking 1000) key_a r Hr)
    as (_ & _ & _ & _ & [[_ ?]|(snap & Hin & Hk & _)]); [done|].
  repeat (apply elem_of_cons in Hin as [Hin|Hin]; [try discriminate Hin|]);
    [|by apply elem_of_nil in Hin].
  injection Hin as ->. discriminate Hk.
Defined.

(** C5. Revocation is permanent.  Once a key carries a revocation timestamp, no
    sequence of operations that does not purge it, restore it from a snapshot
    or draw the same token again changes that timestamp, and the key is never
    reported active. *)
Theorem revocation_permanent os w key r :
  recs w !! key = Some r → r.(RevokedAt) ≠ 0 →
  Forall (λ o, ¬ replaces key o) os →
  ∃ r', recs (run_ops os w) !! key = Some r' ∧ r'.(RevokedAt) = r.(RevokedAt) ∧
        ∀ w', (IsActive (Some r') w').1 = false.
Proof.
  intros Hr Ht Hos.
  destruct (run_ops_keeps_revoked os w key r.(RevokedAt) Ht Hos) as (r' & Hr' & Heq);
    [by exists r|]. exists r'. split_and!; [done|done|].
  intros w'. apply IsActive_revoked. congruence.
Qed.

Lemma revocation_permanent_witness :
  let w := run_ops [OVend rnd_a "svc" 0 None; ORevoke key_a] (start_world 1000) in
  ∃ r', recs (run_ops [ORevoke key_a; OSetExpiry key_a 0; ORotate rnd_b key_a "x"] w)
          !! key_a = Some r' ∧ r'.(RevokedAt) = 1001 ∧
        ∀ w', (IsActive (Some r') w').1 = false.
Proof.
  set (w := run_ops _ (start_world 1000)).
  assert (∃ r, recs w !! key_a = Some r ∧ r.(RevokedAt) = 1001) as (r & Hr & Ht)
    by (eexists; split; vm_compute; reflexivity).
  rewrite <-Ht. apply (revocation_permanent _ w key_a r Hr); [lia|].
  repeat constructor; try (intros H; vm_compute in H; congruence).
Defined.

(** The request path and the reports agree: [IsActive], which the header
    middleware asks, holds exactly when the status shown in snapshots is
    "active" at the same clock reading. *)
Theorem IsActive_iff_status_active r w :
  (IsActive (Some r) w).1 = true ↔ (computeStatus r w).1 = StActive.
Proof. rewrite IsActive_computeStatus. apply bool_decide_eq_true. Qed.

(** Rotation.  For a known key and a token not in use, the new key carries
    the old label (or the override) and the old scopes, is unrevoked and has
    zero counters; the old key keeps everything but is revoked, at its original
    timestamp if it already was; no other key changes.  The new key's expiry is
    the old one shifted by the time between the two clock readings of the call,
    or none if the old key had none or was past it. *)
Theorem Rotate_correct rnd oldKey newLabel w old newKey :
  recs w !! oldKey = Some old → Generate rnd = Some newKey → newKey ≠ oldKey →
  in_int64 (w.(clock) 0%nat) → in_int64 old.(ExpiresAt) →
  in_int64 (old.(ExpiresAt) - w.(clock) 0%nat) →
  in_int64 (old.(ExpiresAt) + (w.(clock) 1%nat - w.(clock) 0%nat)) →
  ∃ new old',
    (∀ k, recs (Rotate rnd oldKey newLabel w).2 !! k =
       if decide (k = oldKey) then Some old'
       else if decide (k = newKey) then Some new else recs w !! k) ∧
    new.(Label) = (if decide (newLabel = "") then old.(Label) else newLabel) ∧
    new.(scopes) = old.(scopes) ∧ new.(RevokedAt) = 0 ∧ new.(TotalRequests) = 0 ∧
    new.(modelUsage) = ∅ ∧
    new.(ExpiresAt) =
      (if decide (old.(ExpiresAt) = 0 ∨ old.(ExpiresAt) <= w.(clock) 0%nat) then 0
       else old.(ExpiresAt) + (w.(clock) 1%nat - w.(clock) 0%nat)) ∧
    ∃ t n, t = w.(clock) n ∧
      old' = if old.(RevokedAt) =? 0 then set_RevokedAt (UnixNano t) old else old.
Proof.
  intros Hold Hg Hne H0 He Hr Hs.
  destruct (Rotate_run rnd oldKey newLabel w old newKey Hold Hg) as (t & [n Ht] & Hrec & _).
  rewrite decide_False in Hrec by done.
  exists (rotate_new newLabel w old newKey), (if old.(RevokedAt) =? 0
    then set_RevokedAt (UnixNano t) old else old).
  split_and!; [|unfold rotate_new, vended; destruct (scopes old), (0 <? _); done..| |].
  - intros k. rewrite Hrec. rewrite !lookup_insert. repeat case_decide; congruence.
  - unfold rotate_new, vended, rotate_ttl, rotate_created, remaining_ttl, UnixNano.
    rewrite (wrap64_id (w.(clock) 0%nat)), (wrap64_id (_ - _)) by done.
    destruct (Z.eqb_spec (ExpiresAt old) 0) as [Hz|Hz].
    { rewrite decide_True by auto. by destruct (scopes old). }
    destruct (Z.ltb_spec 0 (ExpiresAt old - w.(clock) 0%nat)) as [Hl|Hl].
    + rewrite decide_False, (proj2 (Z.ltb_lt _ _)) by lia.
      replace (w.(clock) 1%nat + (ExpiresAt old - w.(clock) 0%nat))
        with (ExpiresAt old + (w.(clock) 1%nat - w.(clock) 0%nat)) by lia.
      rewrite wrap64_id by done. by destruct (scopes old).
    + rewrite decide_True by lia. by destruct (scopes old).
  - by exists t, n.
Qed.

Lemma Rotate_correct_witness :
  let w := run_ops [OVend rnd_a "svc" 500 (Some (mkScopes ["gpt-4o"] []))] (start_world 1000) in
  ∃ new old',
    (∀ k, recs (Rotate rnd_b key_a "" w).2 !! k =
       if decide (k = key_a) then Some old'
       else if decide (k = key_b) then Some new else recs w !! k) ∧
    new.(Label) = "svc" ∧ new.(ExpiresAt) = 1501.
Proof.
  set (w := run_ops _ (start_world 1000)).
  destruct (Rotate_correct rnd_b key_a "" w
    (vended key_a "svc" 500 1000 [WithScopes (mkScopes ["gpt-4o"] [])]) key_b)
    as (new & old' & H & Hl & _ & _ & _ & _ & He & _);
    [vm_compute; reflexivity|vm_compute; reflexivity|done|by vm_compute..|].
  exists new, old'. split; [exact H|]. split; [rewrite Hl; vm_compute; reflexivity|].
  rewrite He. vm_compute. reflexivity.
Defined.

(** Snapshot and restore are inverse.  Restoring a record's snapshot into a
    store that does not know the key rebuilds the record exactly: counters,
    per-model usage, expiry, revocation and scopes. *)
Theorem Restore_Snapshot key r w0 w :
  record_wf key r → recs w !! key = None →
  recs (Restore (Snapshot r w0).1 w).2 !! key = Some r.
Proof.
  intros Hwf Hn. destruct (Snapshot_fst r w0) as [st ->].
  rewrite Restore_records. simpl. destruct Hwf as [Hk Hwf]. rewrite Hk, Hn, lookup_insert_eq.
  f_equal. by apply (record_of_snapshot_with st key).
Qed.

Lemma Restore_Snapshot_witness :
  let r := mkRecord key_a "svc" 5 3 1 2 9 100 0 (Some (mkScopes [] ["openai"]))
             {["gpt-4o" := mkUsage 3 30 40]} in
  recs (Restore (Snapshot r (start_world 50)).1 (start_world 60)).2 !! key_a = Some r.
Proof. intros r. apply Restore_Snapshot; [|done]. by repeat split. Defined.

(** C37. Usage accounting is exact.  After any interleaving of requests of any
    keys with any other operations - revocations, expiries, scope changes,
    rotations, provisioning, purges, vends and restores of other keys - the
    counters of a key and model have grown by exactly the number of that key's
    requests, of its streamed requests, of its requests for the model, and by the
    positive token counts of those (64-bit).  Excepted are the operations that
    replace the key's own record: purging it, restoring a snapshot of it, and
    drawing its token again. *)
Theorem usage_accounting key model os w r :
  recs w !! key = Some r → counters_wf r model → Forall (λ o, ¬ replaces key o) os →
  ∃ r', recs (run_ops os w) !! key = Some r' ∧ bumped key model os r r'.
Proof. intros. by apply run_ops_bumped. Qed.

Definition mixed_ops : list op :=
  [ORecord key_a "m" true 5 6; OSetExpiry key_a 5000; ORecord key_b "m" false 1 1;
   ORevoke key_b; ODelete key_b; ORecord key_a "" false 9 9; OProvision key_a "again";
   ORotate rnd_b key_a ""; ORecord key_a "m" false 7 (-8)].

Lemma usage_accounting_witness :
  let w := run_ops [OVend rnd_a "svc" 0 None; OProvision key_b "two"] (start_world 7) in
  ∃ r', recs (run_ops mixed_ops w) !! key_a = Some r' ∧
        r'.(TotalRequests) = 3 ∧ r'.(StreamRequests) = 1 ∧
        usage_of r' "m" = mkUsage 2 12 6.
Proof.
  set (w := run_ops _ (start_world 7)).
  destruct (usage_accounting key_a "m" mixed_ops w (vended key_a "svc" 0 7 []))
    as (r' & Hr & H1 & H2 & H3); [vm_compute; reflexivity|by vm_compute| |].
  { repeat constructor; intros Hg; vm_compute in Hg; congruence. }
  exists r'. split; [exact Hr|]. rewrite H1, H2, H3. split_and!; vm_compute; reflexivity.
Defined.

(** An expiry set to the Unix epoch is stored as the value that means "no
    expiry": although the timestamp is in the past, the key stays active at
    every later time. *)
Theorem SetExpiry_epoch key w r :
  recs w !! key = Some r → r.(RevokedAt) = 0 →
  ∃ r', recs (SetExpiry key 0 w).2 !! key = Some r' ∧ ∀ t, status_at t r' = StActive.
Proof.
  intros Hr Hz. rewrite SetExpiry_records, Hr, lookup_insert_eq. eexists; split; [done|].
  intros t. unfold status_at. simpl. by rewrite Hz.
Qed.

Lemma SetExpiry_epoch_witness :
  let w := run_ops [OVend rnd_a "svc" 60 None] (start_world 1000) in
  ∃ r', recs (SetExpiry key_a 0 w).2 !! key_a = Some r' ∧ ∀ t, status_at t r' = StActive.
Proof.
  intros w. apply (SetExpiry_epoch key_a w (vended key_a "svc" 60 1000 []));
    vm_compute; reflexivity.
Defined.
