(* ===== verification/Usage.v ===== *)
(** * Token-usage extraction (internal/appkey/usage.go)

    The request-body rewrite that asks OpenAI-compatible providers for usage in
    streams, the readers of usage in response bodies, and the two sinks that
    pick token counts out of a relayed event stream. *)
From S2P Require Import Prelude GoStd Json.

(** ** InjectStreamOptions *)

Definition stream_options_key : string := dq "'stream_options'".
Definition include_usage : string := dq "{'include_usage':true}".

(** A body that decodes to the nil map (the text null) makes the assignment
    panic. *)
Definition InjectStreamOptions (body : string) : outcome string :=
  if decide (body = "") then Ret body
  else if Contains body stream_options_key then Ret body
  else match Unmarshal dec_rawmap body None with
  | (_, false) => Ret body
  | (None, true) => Panic
  | (Some m, true) => Ret (encode_rawmap (<["stream_options" := include_usage]> m))
  end.

(** ** Usage in a response body *)

Record token_pair := mkPair { tp_in : Z; tp_out : Z }.

Definition set_in (z : Z) (p : token_pair) := mkPair z p.(tp_out).
Definition set_out (z : Z) (p : token_pair) := mkPair p.(tp_in) z.

Definition dec_tokens (in_name out_name : string) : dec token_pair :=
  dec_struct [(in_name, field tp_in set_in dec_int64);
              (out_name, field tp_out set_out dec_int64)].

Definition usagePayload : dec token_pair :=
  dec_struct [("usage", dec_tokens "prompt_tokens" "completion_tokens")].

Definition ExtractUsage (body : string) : Z * Z :=
  if decide (body = "") then (0, 0)
  else match Unmarshal usagePayload body (mkPair 0 0) with
  | (p, true) => (p.(tp_in), p.(tp_out))
  | (_, false) => (0, 0)
  end.

Definition anthropicUsagePayload : dec token_pair :=
  dec_struct [("usage", dec_tokens "input_tokens" "output_tokens")].

Definition ExtractAnthropicUsage (body : string) : Z * Z :=
  if decide (body = "") then (0, 0)
  else match Unmarshal anthropicUsagePayload body (mkPair 0 0) with
  | (p, true) => (p.(tp_in), p.(tp_out))
  | (_, false) => (0, 0)
  end.

(** ** The Anthropic event-stream sink *)

Record anthropicStreamEvent := mkEvent {
  ev_Type : string;
  ev_Message : token_pair;
  ev_Usage : token_pair
}.

Definition zero_event : anthropicStreamEvent := mkEvent "" (mkPair 0 0) (mkPair 0 0).

Definition dec_event : dec anthropicStreamEvent :=
  dec_struct
    [("type", field ev_Type (λ v e, mkEvent v e.(ev_Message) e.(ev_Usage)) dec_string);
     ("message", field ev_Message (λ v e, mkEvent e.(ev_Type) v e.(ev_Usage))
        (dec_struct [("usage", dec_tokens "input_tokens" "output_tokens")]));
     ("usage", field ev_Usage (λ v e, mkEvent e.(ev_Type) e.(ev_Message) v)
        (dec_tokens "input_tokens" "output_tokens"))].

Record AnthropicStreamUsageSink := mkSink {
  buf : string;
  sink_totals : token_pair
}.

Definition newline : ascii := byte_of 10.
Definition anthropicSSEDataPrefix : string := "data: ".

(** A positive count replaces the present one. *)
Definition latest (p new : token_pair) : token_pair :=
  mkPair (if 0 <? new.(tp_in) then new.(tp_in) else p.(tp_in))
         (if 0 <? new.(tp_out) then new.(tp_out) else p.(tp_out)).

(** One complete line, its newline included. *)
Definition absorb_line (p : token_pair) (line : string) : token_pair :=
  let line := trim_crlf line in
  if negb (HasPrefix line anthropicSSEDataPrefix) then p else
  let payload := str_drop (String.length anthropicSSEDataPrefix) line in
  match Unmarshal dec_event payload zero_event with
  | (_, false) => p
  | (ev, true) =>
    if decide (ev.(ev_Type) = "message_start") then latest p ev.(ev_Message)
    else if decide (ev.(ev_Type) = "message_delta") then latest p ev.(ev_Usage)
    else p
  end.

(** The loop of [Write]: every turn takes a line off the buffer. *)
Fixpoint write_loop (fuel : nat) (s : AnthropicStreamUsageSink)
  : AnthropicStreamUsageSink :=
  match fuel with
  | O => s
  | S fuel' =>
    match cut_byte newline s.(buf) with
    | None => s
    | Some (line, rest) =>
      write_loop fuel' (mkSink rest
        (absorb_line s.(sink_totals) (line +:+ String newline "")))
    end
  end.

Definition Write (s : AnthropicStreamUsageSink) (p : string)
  : AnthropicStreamUsageSink :=
  let b := s.(buf) +:+ p in
  write_loop (S (String.length b)) (mkSink b s.(sink_totals)).

Definition Totals (s : AnthropicStreamUsageSink) : Z * Z :=
  (s.(sink_totals).(tp_in), s.(sink_totals).(tp_out)).

Definition new_sink : AnthropicStreamUsageSink := mkSink "" (mkPair 0 0).

(** ** The OpenAI chunk sink *)

Definition openaiSSEDataPrefix : string := "data: ".

(** [openaiChunkUsage]: the usage object behind a pointer. *)
Definition openaiChunkUsage : dec (option token_pair) :=
  dec_struct [("usage",
    dec_ptr (mkPair 0 0) (dec_tokens "prompt_tokens" "completion_tokens"))].

Definition FeedChunk (s : token_pair) (chunk : string) : token_pair :=
  if negb (HasPrefix chunk openaiSSEDataPrefix) then s else
  match str_drop (String.length openaiSSEDataPrefix) chunk with
  | EmptyString => s
  | String c _ as payload =>
    if negb (code c =? 123) then s else
    match Unmarshal openaiChunkUsage payload None with
    | (_, false) => s
    | (None, true) => s
    | (Some u, true) => latest s u
    end
  end.

(** ** Reference semantics of a relay: the complete lines of everything
    written so far, and what is left of the last one. *)

Fixpoint lines_of (s : string) : list string * string :=
  match s with
  | EmptyString => ([], "")
  | String c r =>
    let '(ls, rest) := lines_of r in
    if ascii_dec newline c then ("" :: ls, rest)
    else match ls with
         | [] => ([], String c rest)
         | l :: ls' => (String c l :: ls', rest)
         end
  end.

Definition absorb_all (p : token_pair) (ls : list string) : token_pair :=
  foldl (λ p l, absorb_line p (l +:+ String newline "")) p ls.

(** ** Facts *)

Lemma cut_byte_lines s :
  match cut_byte newline s with
  | None => lines_of s = ([], s)
  | Some (l, r) =>
    lines_of s = (l :: (lines_of r).1, (lines_of r).2) ∧
    (String.length r < String.length s)%nat
  end.
Proof.
  induction s as [|c s IH]; [done|]. cbn [cut_byte lines_of].
  destruct (ascii_dec newline c).
  - destruct (lines_of s); cbn; split; [done|lia].
  - destruct (cut_byte newline s) as [[l r]|]; cbn.
    + destruct IH as [-> ?]. split; [done|lia].
    + by rewrite IH.
Qed.

Lemma write_loop_spec s : ∀ fuel p, (String.length s < fuel)%nat →
  write_loop fuel (mkSink s p) =
    mkSink (lines_of s).2 (absorb_all p (lines_of s).1).
Proof.
  induction s as [s IH] using str_len_ind. intros [|fuel] p Hf; [lia|].
  cbn [write_loop buf sink_totals].
  pose proof (cut_byte_lines s) as H. destruct (cut_byte newline s) as [[l r]|].
  - destruct H as [-> Hl]. rewrite IH by lia. done.
  - by rewrite H.
Qed.

Lemma Write_spec s p :
  Write s p = mkSink (lines_of (s.(buf) +:+ p)).2
    (absorb_all s.(sink_totals) (lines_of (s.(buf) +:+ p)).1).
Proof. unfold Write. apply write_loop_spec. lia. Qed.

Lemma lines_of_app s t :
  lines_of (s +:+ t) =
    ((lines_of s).1 ++ (lines_of ((lines_of s).2 +:+ t)).1,
     (lines_of ((lines_of s).2 +:+ t)).2).
Proof.
  induction s as [|c s IH]; [cbn; by destruct (lines_of t)|].
  cbn [lines_of String.append]. rewrite IH. destruct (lines_of s) as [ls rest].
  cbn [fst snd]. destruct (ascii_dec newline c) as [Hc|Hc]; [done|].
  destruct ls as [|l ls]; [|done]. cbn [fst snd app String.append lines_of].
  destruct (lines_of (rest +:+ t)) as [ls' rest']. cbn [fst snd].
  destruct (ascii_dec newline c); [done|]. by destruct ls'.
Qed.

(** What is left in the buffer holds no complete line. *)
Lemma lines_of_rest s : lines_of (lines_of s).2 = ([], (lines_of s).2).
Proof.
  induction s as [|c s IH]; [done|]. cbn [lines_of].
  destruct (lines_of s) as [ls rest]. cbn [fst snd] in *.
  destruct (ascii_dec newline c) as [|Hc]; [done|].
  destruct ls as [|l ls]; cbn [snd]; [|done]. cbn [lines_of]. rewrite IH.
  by destruct (ascii_dec newline c).
Qed.

Lemma absorb_all_app p l1 l2 :
  absorb_all p (l1 ++ l2) = absorb_all (absorb_all p l1) l2.
Proof. apply foldl_app. Qed.

Lemma concat_cons_nil p ps : Join (p :: ps) "" = p +:+ Join ps "".
Proof. unfold Join. cbn. destruct ps; [by rewrite str_app_nil_r|done]. Qed.

Lemma Write_Write s p q : Write (Write s p) q = Write s (p +:+ q).
Proof.
  rewrite !Write_spec. cbn [buf sink_totals].
  rewrite <-(str_app_assoc (buf s)), (lines_of_app (buf s +:+ p) q). cbn [fst snd].
  by rewrite absorb_all_app.
Qed.

(** ** InjectStreamOptions *)

Lemma Contains_app s t sub : Contains t sub = true → Contains (s +:+ t) sub = true.
Proof.
  intros H. induction s as [|c s IH]; [done|]. cbn [String.append Contains].
  rewrite IH. apply orb_true_r.
Qed.

Lemma Contains_prefix s t : Contains (s +:+ t) s = true.
Proof.
  pose proof (prefix_app s t) as H.
  destruct (s +:+ t); cbn [Contains]; rewrite H; done.
Qed.

Lemma Contains_app_l s t sub : Contains s sub = true → Contains (s +:+ t) sub = true.
Proof.
  induction s as [|c s IH].
  - destruct sub; [|done]. intros _. by destruct t.
  - cbn [Contains]. intros [H|H]%orb_prop.
    + apply prefix_inv in H as [u Hu].
      change (String c s +:+ t) with (String c s +:+ t). rewrite Hu, str_app_assoc.
      apply Contains_prefix.
    + cbn [String.append Contains]. rewrite (IH H). apply orb_true_r.
Qed.

Lemma Contains_Join l x sep sub :
  x ∈ l → Contains x sub = true → Contains (Join l sep) sub = true.
Proof.
  unfold Join. intros Hin Hx. induction Hin as [x l|x y l Hin IH].
  - cbn. destruct l; [done|]. by apply Contains_app_l.
  - cbn. destruct l as [|z l]; [by apply elem_of_nil in Hin|].
    apply Contains_app, Contains_app, IH, Hx.
Qed.

(** A key of the map appears, quoted, in its encoding. *)
Lemma encode_rawmap_key m k v :
  m !! k = Some v → Contains (encode_rawmap m) (encode_string k) = true.
Proof.
  intros H. unfold encode_rawmap.
  rewrite <-(str_app_nil_r (String "{" _)).
  change (String "{" ?x) with ("{" +:+ x). rewrite str_app_assoc.
  apply Contains_app, Contains_app_l, Contains_app_l.
  eapply (Contains_Join _ (encode_string k +:+ String ":" (compact v))).
  - apply list_elem_of_fmap. exists (k, v). split; [done|].
    by rewrite sort_members_perm, elem_of_map_to_list.
  - apply Contains_prefix.
Qed.

(** ** Theorems *)

Lemma Write_all ps :
  foldl Write new_sink ps =
    mkSink (lines_of (Join ps "")).2
      (absorb_all (mkPair 0 0) (lines_of (Join ps "")).1).
Proof.
  assert (∀ s, foldl Write s ps = Write s (Join ps "") ∨ ps = []) as H.
  { induction ps as [|p ps IH]; intros s; [by right|left]. cbn [foldl].
    rewrite concat_cons_nil, <-Write_Write.
    destruct (IH (Write s p)) as [->| ->]; [done|].
    change (Join [] EmptyString) with EmptyString. cbn [foldl].
    by rewrite Write_Write, str_app_nil_r. }
  destruct (H new_sink) as [->| ->]; [|done]. apply Write_spec.
Qed.

(** The sink's totals and buffer depend only on the bytes relayed, not on
    how the relay cut them into writes: after any writes they are the fold of
    the complete lines of the whole stream, and the incomplete last line. *)
Theorem Write_chunking ps :
  foldl Write new_sink ps =
    mkSink (lines_of (Join ps "")).2
      (absorb_all (mkPair 0 0) (lines_of (Join ps "")).1).
Proof. apply Write_all. Qed.

(** The rewrite is idempotent: what it returns it leaves alone, whatever
    the body was. *)
Theorem InjectStreamOptions_idempotent body out :
  InjectStreamOptions body = Ret out → InjectStreamOptions out = Ret out.
Proof.
  intros H. unfold InjectStreamOptions in H.
  assert (out = body ∨ Contains out stream_options_key = true) as [->|Hc].
  { destruct (decide _); [left; congruence|].
    destruct (Contains body _) eqn:Hb; [left; congruence|].
    destruct (Unmarshal dec_rawmap body None) as [[m|] []]; simplify_eq; auto.
    right. change stream_options_key with (encode_string "stream_options").
    eapply encode_rawmap_key, lookup_insert_eq. }
  - apply H.
  - unfold InjectStreamOptions. rewrite Hc. by destruct (decide (out = EmptyString)).
Qed.

Lemma InjectStreamOptions_idempotent_witness :
  ∃ out, InjectStreamOptions (dq "{'stream':true, 'model':'m'}") = Ret out ∧
    out = dq "{'model':'m','stream':true,'stream_options':{'include_usage':true}}" ∧
    InjectStreamOptions out = Ret out.
Proof.
  eexists. split; [vm_compute; reflexivity|]. split; [vm_compute; reflexivity|].
  apply (InjectStreamOptions_idempotent (dq "{'stream':true, 'model':'m'}")).
  vm_compute. reflexivity.
Defined.

(** The body null decodes to the nil map and the rewrite panics on it, so
    the promise to return a body unchanged that it cannot extend fails there;
    it fails nowhere else but on null between whitespace. *)
Theorem InjectStreamOptions_panics body :
  InjectStreamOptions body = Panic ↔
    parse body = Some JNull ∧ Contains body stream_options_key = false.
Proof.
  unfold InjectStreamOptions, Unmarshal. split.
  - intros H. case_decide; [done|]. case_match; [done|].
    destruct (parse body) as [[]|]; simplify_eq/=; done.
  - intros [H Hc]. rewrite Hc, H. case_decide as He; [|done].
    subst body. vm_compute in H. done.
Qed.
