(* ===== verification/Persist.v ===== *)
(** * Durable storage of app keys (internal/appkey/persist.go, cmd/butter/main.go)

    A write-behind copy of the store in a bbolt bucket.  Lifecycle changes reach
    the bucket at once through the store's callbacks, counters with the periodic
    flush; [loadAll] rebuilds the store at start-up.

    bbolt is a parameter: it is seen as transactions on a map from keys to
    values, whose commit may fail; so is the JSON codec of the snapshot type.
    [System] runs the store and the bucket together, one operation after the
    other and with crashes at any point between them; the file PersistRace splits
    the operations into the steps other goroutines can see. *)
From S2P Require Import Prelude GoStd Json Config Token Store.

(** ** The parameters *)

(** [json.Marshal] and [json.Unmarshal] at [UsageSnapshot], and the key and
    value checks of bbolt's [Put]. *)
Class Storage := {
  MarshalSnapshot : UsageSnapshot → option string;
  UnmarshalSnapshot : string → option UsageSnapshot;
  put_ok : string → string → bool
}.

(** A snapshot that has an encoding is decoded from it. *)
Definition faithful `{Storage} (snap : UsageSnapshot) : Prop :=
  ∀ data, MarshalSnapshot snap = Some data → UnmarshalSnapshot data = Some snap.

(** The database: the bucket, and whether the coming commits succeed. *)
Record DB := mkDB {
  bucket : gmap string string;
  commits : nat → bool
}.

Section persist.
Context `{Storage}.

(** [db.Update(fn)]: an error of [fn] or of the commit leaves the bucket as it
    was.  The result says whether the error is nil. *)
Definition Update (fn : gmap string string → option (gmap string string)) : ST DB bool :=
  λ d, match fn d.(bucket) with
       | None => (false, d)
       | Some b =>
         (d.(commits) 0%nat,
          mkDB (if d.(commits) 0%nat then b else d.(bucket)) (λ n, d.(commits) (S n)))
       end.

(** The transactions of [PersistKey] and [DeleteKey]; their errors are logged
    and dropped. *)
Definition persist_tx (snap : UsageSnapshot) (b : gmap string string)
  : option (gmap string string) :=
  data ← MarshalSnapshot snap;
  if put_ok snap.(s_Key) data then Some (<[snap.(s_Key) := data]> b) else None.

Definition delete_tx (key : string) (b : gmap string string)
  : option (gmap string string) := Some (delete key b).

Definition PersistKey (snap : UsageSnapshot) : ST DB () :=
  ok ← Update (persist_tx snap); mret tt.

Definition DeleteKey (key : string) : ST DB () :=
  ok ← Update (delete_tx key); mret tt.

(** The transaction of [flush]: a snapshot that does not encode is skipped, one
    that bbolt refuses aborts the whole transaction. *)
Fixpoint flush_tx (snapshots : list UsageSnapshot) (b : gmap string string)
  : option (gmap string string) :=
  match snapshots with
  | [] => Some b
  | snap :: rest =>
    match MarshalSnapshot snap with
    | None => flush_tx rest b
    | Some data =>
      if put_ok snap.(s_Key) data
      then flush_tx rest (<[snap.(s_Key) := data]> b) else None
    end
  end.

Fixpoint restore_all (entries : list (string * string)) : ST World () :=
  match entries with
  | [] => mret tt
  | (_, v) :: rest =>
    match UnmarshalSnapshot v with
    | None => restore_all rest
    | Some snap => Restore snap;; restore_all rest
    end
  end.

(** [ForEach] visits the bucket in key order. *)
Definition loadAll (b : gmap string string) : ST World () :=
  restore_all (sort_members (map_to_list b)).

(** ** The store and the database together *)

Record Sys := mkSys {
  world : World;
  db : DB
}.

Definition flush : ST Sys bool := λ s,
  let '(snapshots, w) := List_ s.(world) in
  let '(ok, d) := Update (flush_tx snapshots) s.(db) in
  (ok, mkSys w d).

(** [NewPersister], after [bolt.Open] succeeded: the bucket is created if it is
    not there, the store is loaded and the callbacks are registered. *)
Definition NewPersister : ST Sys bool := λ s,
  let '(ok, d) := Update Some s.(db) in
  if negb ok then (false, mkSys s.(world) d) else
  let w := (loadAll d.(bucket) s.(world)).2 in
  (true, mkSys (mkWorld (SetOnDelete (SetOnUpdate w.(store))) w.(clock) w.(effects)) d).

(** The scopes of a configured key: set when a list is not empty. *)
Definition entry_scopes (e : AppKeyEntry) : option KeyScopes :=
  if decide (e.(ae_AllowedModels) = [] ∧ e.(ae_AllowedProviders) = []) then None
  else Some (mkScopes e.(ae_AllowedModels) e.(ae_AllowedProviders)).

Definition provision_entry (e : AppKeyEntry) : ST World () :=
  Provision e.(ae_Key) e.(ae_Label);;
  match entry_scopes e with
  | None => mret tt
  | Some sc =>
    m ← get_records;
    match m !! e.(ae_Key) with
    | None => mret tt
    | Some r => set_records (<[e.(ae_Key) := SetScopes (Some sc) r]> m)
    end
  end.

Fixpoint provision_all (es : list AppKeyEntry) : ST World () :=
  match es with
  | [] => mret tt
  | e :: es' => provision_entry e;; provision_all es'
  end.

(** The start-up sequence of main: configured keys first, then the database. *)
Definition boot (keys : list AppKeyEntry) (clk : nat → Z) (d : DB) : bool * Sys :=
  let w := (provision_all keys (mkWorld NewStore clk [])).2 in
  NewPersister (mkSys w d).

(** The callbacks registered by [NewPersister]. *)
Definition run_effect (e : effect) : ST DB () :=
  match e with
  | FireUpdate snap => PersistKey snap
  | FireDelete key => DeleteKey key
  | Audit _ _ => mret tt
  end.

Fixpoint run_effects (es : list effect) : ST DB () :=
  match es with
  | [] => mret tt
  | e :: es' => run_effect e;; run_effects es'
  end.

(** One store operation and the callbacks it fires.  The effects are handed
    over as they come; the log starts empty each time. *)
Definition sys_op (o : op) (s : Sys) : Sys :=
  let w := run_op o (mkWorld s.(world).(store) s.(world).(clock) []) in
  mkSys w (run_effects w.(effects) s.(db)).2.

Inductive sys_step :=
| SOp (o : op)
| SFlush
| SRestart (clk : nat → Z).  (* a crash, and a new process on the same file *)

Definition run_step (keys : list AppKeyEntry) (st : sys_step) (s : Sys) : Sys :=
  match st with
  | SOp o => sys_op o s
  | SFlush => (flush s).2
  | SRestart clk => (boot keys clk s.(db)).2
  end.

Fixpoint run_steps (keys : list AppKeyEntry) (sts : list sys_step) (s : Sys) : Sys :=
  match sts with
  | [] => s
  | st :: sts' => run_steps keys sts' (run_step keys st s)
  end.

(** ** Start and Close *)

Record Persister := mkPersister {
  p_sys : Sys;
  started : bool;
  once : bool;       (* the body of [once.Do] has run *)
  stop_closed : bool;
  db_closed : bool
}.

Definition Start (p : Persister) : Persister :=
  mkPersister p.(p_sys) true p.(once) p.(stop_closed) p.(db_closed).

(** The ticker's case of the select loop; after [stop] is closed the goroutine
    returns. *)
Definition tick (p : Persister) : Persister :=
  if p.(started) && negb p.(stop_closed)
  then mkPersister (flush p.(p_sys)).2 p.(started) p.(once) p.(stop_closed) p.(db_closed)
  else p.

Inductive close_error := EFlush | EClose.

(** [Close] with the outcome of [db.Close] as argument; [None] is the nil
    receiver. *)
Definition Close (close_ok : bool) (p : option Persister)
  : option close_error * option Persister :=
  match p with
  | None => (None, None)
  | Some p =>
    if p.(once) then (None, Some p) else
    let '(ok, s) := flush p.(p_sys) in
    let err := if negb ok then Some EFlush
               else if negb close_ok then Some EClose else None in
    (err, Some (mkPersister s p.(started) true p.(started) true))
  end.
End persist.

(** ** What the bucket says of a key, and what the callbacks do to it *)

Definition view `{Storage} (b : gmap string string) (k : string) : option UsageSnapshot :=
  b !! k ≫= UnmarshalSnapshot.

Definition eff_view (v : string → option UsageSnapshot) (e : effect)
  : string → option UsageSnapshot := λ k,
  match e with
  | FireUpdate s => if decide (k = s.(s_Key)) then Some s else v k
  | FireDelete k' => if decide (k = k') then None else v k
  | Audit _ _ => v k
  end.

Definition written (es : list effect) : list UsageSnapshot :=
  omap (λ e, match e with FireUpdate s => Some s | _ => None end) es.

(** The snapshots a run hands to the database. *)
Definition step_writes `{Storage} (st : sys_step) (s : Sys) : list UsageSnapshot :=
  match st with
  | SOp o =>
    written (run_op o (mkWorld s.(world).(store) s.(world).(clock) [])).(effects)
  | SFlush => (List_ s.(world)).1
  | SRestart _ => []
  end.

Fixpoint all_writes `{Storage} (keys : list AppKeyEntry) (sts : list sys_step) (s : Sys)
  : list UsageSnapshot :=
  match sts with
  | [] => []
  | st :: sts' => step_writes st s ++ all_writes keys sts' (run_step keys st s)
  end.

(** ** What has reached the database

    The database may refuse a snapshot and a commit may fail; [PersistKey] and
    [DeleteKey] only log it.  [durable] follows one key through a run and says
    whether the last change announced for it is on disk: its own write was
    committed, or a later flush, or the process was started again from the
    database since. *)

Definition concerns (k : string) (e : effect) : bool :=
  match e with
  | FireUpdate s => bool_decide (k = s.(s_Key))
  | FireDelete k' => bool_decide (k = k')
  | Audit _ _ => false
  end.

(** Whether the transaction of a callback is committed. *)
Definition effect_ok `{Storage} (e : effect) (d : DB) : bool :=
  match e with
  | FireUpdate s => (Update (persist_tx s) d).1
  | FireDelete k => (Update (delete_tx k) d).1
  | Audit _ _ => true
  end.

Fixpoint effects_durable `{Storage} (k : string) (es : list effect) (d : DB) (b : bool)
  : bool :=
  match es with
  | [] => b
  | e :: es' =>
    effects_durable k es' (run_effect e d).2 (if concerns k e then effect_ok e d else b)
  end.

(** A flush that is committed and in which the key's snapshot was encoded. *)
Definition flushes `{Storage} (k : string) (s : Sys) : bool :=
  (flush s).1 &&
  existsb (λ snap, bool_decide (snap.(s_Key) = k) && bool_decide (MarshalSnapshot snap ≠ None))
    (List_ s.(world)).1.

Definition step_durable `{Storage} (k : string) (st : sys_step) (s : Sys) (b : bool) : bool :=
  match st with
  | SOp o =>
    effects_durable k (run_op o (mkWorld s.(world).(store) s.(world).(clock) [])).(effects)
      s.(db) b
  | SFlush => flushes k s || b
  | SRestart _ => true
  end.

Fixpoint durable `{Storage} (keys : list AppKeyEntry) (k : string) (sts : list sys_step)
    (s : Sys) (b : bool) : bool :=
  match sts with
  | [] => b
  | st :: sts' => durable keys k sts' (run_step keys st s) (step_durable k st s b)
  end.

(** Every restart of the run finds the key's last change on disk. *)
Fixpoint restarts_durable `{Storage} (keys : list AppKeyEntry) (k : string)
    (sts : list sys_step) (s : Sys) (b : bool) : bool :=
  match sts with
  | [] => true
  | st :: sts' =>
    match st with SRestart _ => b | _ => true end &&
    restarts_durable keys k sts' (run_step keys st s) (step_durable k st s b)
  end.

(** Every start of the run opens the database. *)
Fixpoint opens `{Storage} (keys : list AppKeyEntry) (sts : list sys_step) (s : Sys) : bool :=
  match sts with
  | [] => true
  | st :: sts' =>
    match st with SRestart clk => (boot keys clk s.(db)).1 | _ => true end &&
    opens keys sts' (run_step keys st s)
  end.

(** A database as this program writes it: each entry under its own key, with
    counters that add up. *)
Definition well_keyed `{Storage} (b : gmap string string) : Prop :=
  ∀ k s, view b k = Some s → s.(s_Key) = k ∧ snapshot_wf s.

(** ** Agreement of memory and disk *)

(** The fields lifecycle operations change, of a record and of a snapshot. *)
Definition lifecycle (r : UsageRecord) : Z * Z * Z :=
  (r.(CreatedAt), r.(ExpiresAt), r.(RevokedAt)).
Definition s_lifecycle (s : UsageSnapshot) : Z * Z * Z :=
  (s.(s_CreatedAt), from_option UnixNano 0 s.(s_ExpiresAt),
   from_option UnixNano 0 s.(s_RevokedAt)).

(** A key whose scopes the configuration sets again at every start. *)
Definition scoped (keys : list AppKeyEntry) (k : string) : Prop :=
  ∃ e, e ∈ keys ∧ e.(ae_Key) = k ∧ entry_scopes e ≠ None.

(** What is on disk is in memory with the same lifecycle; what is not on disk
    has, if it is in memory, no lifecycle state to lose. *)
Definition synced (keys : list AppKeyEntry) (m : gmap string UsageRecord)
    (v : string → option UsageSnapshot) : Prop :=
  ∀ k, match v k with
       | Some s => s.(s_Key) = k ∧ snapshot_wf s ∧
         ∃ r, m !! k = Some r ∧ lifecycle r = s_lifecycle s ∧
              (scoped keys k ∨ r.(scopes) = s.(s_Scopes))
       | None => ∀ r, m !! k = Some r →
         r.(ExpiresAt) = 0 ∧ r.(RevokedAt) = 0 ∧ (scoped keys k ∨ r.(scopes) = None)
       end.

(** The operations a running gateway performs: no [Restore], and a rotation
    draws another token than the one it replaces. *)
Definition live_op (o : op) : Prop :=
  match o with
  | ORestore _ => False
  | ORotate rnd k _ => Generate rnd ≠ Some k
  | _ => True
  end.

Definition live_step (st : sys_step) : Prop :=
  match st with SOp o => live_op o | _ => True end.

(** ** The store's side *)

Section store_side.
Context (keys : list AppKeyEntry).

Lemma synced_ext m v v' : (∀ k, v k = v' k) → synced keys m v → synced keys m v'.
Proof. intros E H k. rewrite <-E. apply H. Qed.

Lemma s_lifecycle_snapshot st k r :
  record_wf k r → s_lifecycle (snapshot_with st r) = lifecycle r.
Proof.
  intros (_ & _ & _ & He & Hr & _). unfold s_lifecycle, lifecycle. simpl.
  by rewrite !opt_time_roundtrip.
Qed.

Lemma synced_fire m v k r st :
  record_wf k r → synced keys m v →
  synced keys (<[k := r]> m) (eff_view v (FireUpdate (snapshot_with st r))).
Proof.
  intros Hwf H k'. simpl. pose proof (proj1 Hwf) as Hk. rewrite Hk.
  destruct (decide (k' = k)) as [->|Hne].
  - split; [done|]. split; [by destruct Hwf as (_ & ? & ? & _)|].
    exists r. rewrite lookup_insert_eq.
    by rewrite (s_lifecycle_snapshot st k r Hwf); auto.
  - rewrite lookup_insert_ne by done. apply H.
Qed.

Lemma synced_delete m v k :
  synced keys m v → synced keys (delete k m) (eff_view v (FireDelete k)).
Proof.
  intros H k'. simpl. destruct (decide (k' = k)) as [->|Hne].
  - intros r. by rewrite lookup_delete_eq.
  - rewrite lookup_delete_ne by done. apply H.
Qed.

Lemma synced_same m v k r r' :
  m !! k = Some r → lifecycle r' = lifecycle r → r'.(scopes) = r.(scopes) →
  synced keys m v → synced keys (<[k := r']> m) v.
Proof.
  intros Hk Hl Hs H k'. specialize (H k').
  destruct (decide (k' = k)) as [->|]; [|by rewrite lookup_insert_ne].
  rewrite lookup_insert_eq. rewrite Hk in H. destruct (v k).
  - destruct H as (? & ? & r0 & [= <-] & ? & ?). split_and!; [done..|]. exists r'.
    by rewrite Hl, Hs.
  - intros ? [= <-]. unfold lifecycle in Hl. simplify_eq. rewrite Hs.
    destruct (H r eq_refl) as (? & ? & ?). by split_and!; [congruence..|].
Qed.

Lemma synced_fresh m v k label t :
  m !! k = None → synced keys m v → synced keys (<[k := fresh_record k label t]> m) v.
Proof.
  intros Hk H k'. specialize (H k').
  destruct (decide (k' = k)) as [->|]; [|by rewrite lookup_insert_ne].
  rewrite lookup_insert_eq. rewrite Hk in H. destruct (v k).
  - by destruct H as (_ & _ & ? & ? & _).
  - intros ? [= <-]. auto.
Qed.

(** The store's state and the callbacks it has fired, against a first view. *)
Definition tracks (v0 : string → option UsageSnapshot) (w : World) : Prop :=
  w.(store).(onUpdate) = true ∧ w.(store).(onDelete) = true ∧ records_wf (recs w) ∧
  synced keys (recs w) (foldl eff_view v0 w.(effects)) ∧
  Forall snapshot_wf (written w.(effects)).

Lemma writes_app es es' : written (es ++ es') = written es ++ written es'.
Proof. apply omap_app. Qed.

Lemma fire_update_run r w :
  w.(store).(onUpdate) = true →
  ∃ st clk, fire_update r w =
    (tt, mkWorld w.(store) clk (w.(effects) ++ [FireUpdate (snapshot_with st r)])).
Proof.
  intros Hu. unfold fire_update, Snapshot, computeStatus. st_simpl. rewrite Hu.
  repeat case_match; simplify_eq/=; eauto.
Qed.

Context (v0 : string → option UsageSnapshot).

(** A record written back and announced. *)
Lemma tracks_fire w k r :
  tracks v0 w → record_wf k r →
  tracks v0 (fire_update r (set_records (<[k := r]> (recs w)) w).2).2.
Proof.
  intros (Hu & Hd & Hwf & Hs & Hw) Hr. set (w1 := (set_records _ w).2).
  destruct (fire_update_run r w1) as (st & clk & E); [done|].
  rewrite E. split_and!; [done..| | |].
  - by apply records_wf_insert.
  - cbn. rewrite foldl_app. by apply synced_fire.
  - cbn [effects snd]. rewrite writes_app. apply Forall_app. split; [done|].
    constructor; [|done]. by destruct Hr as (_ & ? & ? & _).
Qed.

Lemma tracks_audit w msg k : tracks v0 w → tracks v0 (emit (Audit msg k) w).2.
Proof.
  intros (Hu & Hd & Hwf & Hs & Hw). split_and!; [done..| |].
  - cbn. rewrite foldl_app. by eapply synced_ext; [|exact Hs].
  - unfold written in *. cbn. rewrite omap_app. cbn. by rewrite app_nil_r.
Qed.

Lemma tracks_now w : tracks v0 w → tracks v0 (now w).2.
Proof. done. Qed.

Lemma tracks_wf w k r : tracks v0 w → recs w !! k = Some r → record_wf k r.
Proof. intros (_ & _ & Hwf & _). by apply records_wf_lookup. Qed.

Lemma Snapshot_effects r w : (Snapshot r w).2.(effects) = w.(effects).
Proof. unfold Snapshot, computeStatus. st_simpl. by repeat case_match; simplify_eq/=. Qed.

Lemma tracks_Snapshot w r : tracks v0 w → tracks v0 (Snapshot r w).2.
Proof. unfold tracks. by rewrite Snapshot_store, Snapshot_effects. Qed.

(** [run_tracks] runs an operation up to its calls and closes the goals with the
    lemmas above. *)
Ltac run_tracks :=
  repeat (progress (rewrite ?ST_bind_unfold, ?Lookup_run; cbn [fst snd mret ST_ret
    get_records gets_state when]));
  repeat first [apply tracks_audit | apply tracks_Snapshot | apply tracks_fire
               | apply tracks_now].

Lemma tracks_Provision k label w : tracks v0 w → tracks v0 (Provision k label w).2.
Proof.
  intros Ht. pose proof Ht as (Hu & Hd & Hwf & Hs & Hw). unfold Provision.
  rewrite ST_bind_unfold. cbn [get_records gets_state fst snd].
  destruct (recs w !! k) eqn:Hk; [done|]. split_and!; [done..| | |done].
  - cbn. apply records_wf_insert; [apply wf_fresh|done].
  - cbn. by apply synced_fresh.
Qed.

Lemma tracks_Vend rnd label ttl sc w :
  tracks v0 w → tracks v0 (Vend rnd label ttl (vend_opts sc) w).2.
Proof.
  intros Ht. unfold Vend. destruct (Generate rnd) as [key|]; [|done].
  run_tracks; [done|]. apply wf_vended.
Qed.

Lemma tracks_Revoke k w : tracks v0 w → tracks v0 (Revoke k w).2.
Proof.
  intros Ht. unfold Revoke. run_tracks. destruct (recs w !! k) as [r|] eqn:Hk; [|done].
  run_tracks. destruct (RevokedAt r =? 0); [|by run_tracks].
  run_tracks; [done|]. eauto using tracks_wf with butter.
Qed.

Lemma tracks_SetExpiry k t w : tracks v0 w → tracks v0 (SetExpiry k t w).2.
Proof.
  intros Ht. unfold SetExpiry. run_tracks. destruct (recs w !! k) as [r|] eqn:Hk; [|done].
  run_tracks; [done|]. apply wf_set_ExpiresAt; [|by eapply tracks_wf].
  case_match; auto with butter.
Qed.

Lemma tracks_UpdateScopes k sc w : tracks v0 w → tracks v0 (UpdateScopes k sc w).2.
Proof.
  intros Ht. unfold UpdateScopes. run_tracks.
  destruct (recs w !! k) as [r|] eqn:Hk; [|done].
  run_tracks; [done|]. eauto using tracks_wf with butter.
Qed.

Lemma tracks_Delete k w : tracks v0 w → tracks v0 (Delete k w).2.
Proof.
  intros Ht. unfold Delete. run_tracks. destruct (recs w !! k) as [r|] eqn:Hk; [|done].
  run_tracks. destruct Ht as (Hu & Hd & Hwf & Hs & Hw). cbn. rewrite Hd. cbn.
  split_and!; [done..| | |]; cbn.
  - by apply map_Forall_delete.
  - rewrite foldl_app. by apply synced_delete.
  - unfold written. rewrite omap_app. cbn. by rewrite app_nil_r.
Qed.

Lemma tracks_RecordRequest k model stream pt ct w :
  tracks v0 w → tracks v0 (RecordRequest k model stream pt ct w).2.
Proof.
  intros Ht. unfold RecordRequest. run_tracks.
  destruct (recs w !! k) as [r|] eqn:Hk; [|done]. run_tracks.
  destruct Ht as (Hu & Hd & Hwf & Hs & Hw). split_and!; [done..| | |done]; cbn.
  - apply records_wf_insert; [|done]. by eapply wf_record_request, records_wf_lookup.
  - by eapply synced_same.
Qed.

Lemma tracks_Rotate rnd k label w :
  Generate rnd ≠ Some k → tracks v0 w → tracks v0 (Rotate rnd k label w).2.
Proof.
  intros Hfresh Ht. unfold Rotate. run_tracks.
  destruct (recs w !! k) as [old|] eqn:Hk; [|done]. rewrite ST_bind_unfold.
  set (p := (if ExpiresAt old =? 0 then mret 0
             else t ← now; mret (remaining_ttl (ExpiresAt old) t) : ST World Z) w).
  assert (tracks v0 p.2 ∧ recs p.2 = recs w) as [Hp Hrec]
    by (subst p; by destruct (ExpiresAt old =? 0)).
  change (match GetScopes old with Some sc => [WithScopes sc] | None => [] end)
    with (vend_opts (scopes old)).
  destruct p as [ttl w1]; cbn [fst snd] in *. rewrite ST_bind_unfold.
  rewrite Vend_result. destruct (Generate rnd) as [key|] eqn:Hg; [|by apply tracks_Vend].
  pose proof (tracks_Vend rnd (if decide (label = "") then Label old else label) ttl
    (scopes old) w1 Hp) as Hv.
  set (w2 := (Vend _ _ _ _ w1).2) in *.
  assert (recs w2 !! k = Some old) as Hk2.
  { subst w2. rewrite Vend_records, Hg, lookup_insert_ne, Hrec by congruence. done. }
  rewrite ST_bind_unfold. cbn [fst snd].
  set (new := vended _ _ _ _ _).
  assert (Key new = key) as Hnew by apply (wf_vended key).
  destruct (RevokedAt old =? 0) eqn:Hz.
  - run_tracks. rewrite decide_False by congruence.
    run_tracks; eauto using tracks_wf with butter.
  - run_tracks. rewrite decide_False by congruence. rewrite insert_id by done.
    by destruct Hv as (Hu & Hd & Hwf & Hs & Hw).
Qed.

Lemma tracks_op o w : live_op o → tracks v0 w → tracks v0 (run_op o w).
Proof.
  intros Hl Ht. destruct o; simpl in *; try done;
    auto using tracks_Provision, tracks_Vend, tracks_Revoke, tracks_SetExpiry,
      tracks_UpdateScopes, tracks_Delete, tracks_RecordRequest, tracks_Rotate.
Qed.

(** Any store agrees with some view: the one its snapshots make. *)
Lemma synced_exists m : records_wf m → ∃ v, synced keys m v.
Proof.
  intros Hwf. exists (λ k, snapshot_with StActive <$> m !! k). intros k.
  destruct (m !! k) as [r|] eqn:Hk; cbn; [|done].
  pose proof (records_wf_lookup _ _ _ Hwf Hk) as Hr. split; [apply Hr|].
  split; [by destruct Hr as (_ & ? & ? & _)|]. exists r.
  rewrite (s_lifecycle_snapshot StActive k r Hr). auto.
Qed.
End store_side.

(** ** The database's side *)

Section disk_side.
Context `{Storage}.

Lemma Update_bucket fn d :
  (Update fn d).2.(bucket) =
  if (Update fn d).1 then default d.(bucket) (fn d.(bucket)) else d.(bucket).
Proof. unfold Update. destruct (fn (bucket d)); [|done]. cbn. by destruct (commits d 0). Qed.

Lemma Update_ok fn d : (Update fn d).1 = true → ∃ b, fn d.(bucket) = Some b.
Proof. unfold Update. destruct (fn (bucket d)); [eauto|done]. Qed.

Lemma view_insert b k data k' :
  view (<[k := data]> b) k' = if decide (k' = k) then UnmarshalSnapshot data else view b k'.
Proof.
  unfold view. case_decide as Hk; [by rewrite Hk, lookup_insert_eq|by rewrite lookup_insert_ne].
Qed.

Lemma view_delete b k k' :
  view (delete k b) k' = if decide (k' = k) then None else view b k'.
Proof.
  unfold view. case_decide as Hk; [by rewrite Hk, lookup_delete_eq|by rewrite lookup_delete_ne].
Qed.

(** One callback: it says its own of its key if it is committed, and nothing of
    any other. *)
Lemma run_effect_view k e d :
  Forall faithful (written [e]) →
  ∀ v, view (run_effect e d).2.(bucket) k =
       if concerns k e && effect_ok e d then eff_view v e k else view d.(bucket) k.
Proof.
  intros Hf v. destruct e as [s|k'|]; cbn [run_effect concerns effect_ok eff_view]; [| |done].
  - unfold PersistKey. rewrite ST_bind_unfold. cbn [snd mret ST_ret]. rewrite Update_bucket.
    destruct ((Update (persist_tx s) d).1) eqn:Hok; [|by rewrite andb_false_r].
    apply Update_ok in Hok as [b Hb]. rewrite Hb. cbn. unfold persist_tx in Hb.
    destruct (MarshalSnapshot s) as [data|] eqn:Hm; [|done]. cbn in Hb.
    destruct (put_ok _ _); [|done]. injection Hb as <-. rewrite view_insert, andb_true_r.
    apply Forall_cons_iff in Hf as [Hf _]. rewrite (Hf _ Hm).
    by repeat (case_decide || case_bool_decide).
  - unfold DeleteKey. rewrite ST_bind_unfold. cbn [snd mret ST_ret]. rewrite Update_bucket.
    destruct ((Update (delete_tx k') d).1); [|by rewrite andb_false_r]. cbn.
    rewrite view_delete, andb_true_r. by repeat (case_decide || case_bool_decide).
Qed.

Lemma eff_view_skip k e v : concerns k e = false → eff_view v e k = v k.
Proof. destruct e; cbn; intros Hc; try done; case_bool_decide; by rewrite ?decide_False. Qed.

Lemma faithful_cons e es :
  Forall faithful (written (e :: es)) →
  Forall faithful (written [e]) ∧ Forall faithful (written es).
Proof. change (e :: es) with ([e] ++ es). by rewrite writes_app, Forall_app. Qed.

(** The callbacks of an operation: for a key whose last announcement is on disk
    the disk says what the callbacks make of any view it agreed with. *)
Lemma run_effects_view k es : ∀ d b v,
  Forall faithful (written es) → (b = true → view d.(bucket) k = v k) →
  effects_durable k es d b = true →
  view (run_effects es d).2.(bucket) k = foldl eff_view v es k.
Proof.
  induction es as [|e es IH]; intros d b v Hf Hb Hd; [by apply Hb|].
  apply faithful_cons in Hf as [He Hf]. cbn [run_effects foldl effects_durable] in *.
  rewrite ST_bind_unfold. eapply IH; [done| |exact Hd].
  intros Hok. rewrite (run_effect_view k e d He v).
  destruct (concerns k e) eqn:Hc; [by rewrite Hok|].
  rewrite eff_view_skip by done. by apply Hb.
Qed.

Lemma run_effects_keyed es : ∀ d,
  Forall faithful (written es) → Forall snapshot_wf (written es) →
  well_keyed d.(bucket) → well_keyed (run_effects es d).2.(bucket).
Proof.
  induction es as [|e es IH]; intros d Hf Hw Hk; [done|].
  apply faithful_cons in Hf as [He Hf]. cbn [run_effects]. rewrite ST_bind_unfold.
  change (e :: es) with ([e] ++ es) in Hw. rewrite writes_app, Forall_app in Hw.
  destruct Hw as [Hwe Hw]. apply IH; [done..|]. intros k s.
  rewrite (run_effect_view k e d He (λ _, None)).
  destruct (concerns k e && effect_ok e d) eqn:Hc; [|apply Hk].
  destruct e as [s'|k'|]; cbn; [|by case_decide|done].
  case_decide as Hs; [|done]. intros [= <-]. split; [done|]. by inversion Hwe.
Qed.

(** What a flush says of a key: the last snapshot of it that has an encoding,
    or nothing. *)
Lemma flush_tx_view snaps k : ∀ b b',
  Forall faithful snaps → flush_tx snaps b = Some b' →
  (∃ s, s ∈ snaps ∧ s.(s_Key) = k ∧ view b' k = Some s) ∨
  (view b' k = view b k ∧
   existsb (λ s, bool_decide (s.(s_Key) = k) && bool_decide (MarshalSnapshot s ≠ None)) snaps
     = false).
Proof.
  induction snaps as [|s snaps IH]; intros b b' Hf Htx; cbn [flush_tx existsb] in *;
    [injection Htx as <-; auto|].
  apply Forall_cons_iff in Hf as [Hs Hf].
  destruct (MarshalSnapshot s) as [data|] eqn:Hm.
  - destruct (put_ok _ _); [|done].
    destruct (IH _ _ Hf Htx) as [(s' & ? & ? & ?)|[Hv Hex]]; [left; exists s'; set_solver|].
    rewrite view_insert in Hv. destruct (decide (k = s_Key s)) as [->|Hne].
    + left. exists s. rewrite Hv, (Hs _ Hm). set_solver.
    + right. rewrite Hex, (bool_decide_eq_false_2 (s_Key s = k)) by congruence. auto.
  - destruct (IH _ _ Hf Htx) as [(s' & ? & ? & ?)|[Hv Hex]]; [left; exists s'; set_solver|].
    right. rewrite Hex, (bool_decide_eq_false_2 (_ ≠ _)) by congruence.
    by rewrite andb_false_r.
Qed.

(** [List] reads every record once. *)
Lemma snapshot_all_spec rs : ∀ w,
  Forall2 (λ s r, ∃ st, s = snapshot_with st r) (snapshot_all rs w).1 rs ∧
  (snapshot_all rs w).2.(store) = w.(store).
Proof.
  induction rs as [|r rs IH]; intros w; [by split; [constructor|]|].
  cbn [snapshot_all]. rewrite !ST_bind_unfold. cbn [mret ST_ret fst snd].
  destruct (IH (Snapshot r w).2) as [HF Hst]. rewrite Hst, Snapshot_store.
  split; [|done]. constructor; [|done]. apply Snapshot_fst.
Qed.

Lemma List_spec w :
  Forall2 (λ s r, ∃ st, s = snapshot_with st r) (List_ w).1 (map_to_list (recs w)).*2 ∧
  (List_ w).2.(store) = w.(store).
Proof. apply snapshot_all_spec. Qed.

Lemma records_list m :
  records_wf m →
  Forall (λ r, m !! r.(Key) = Some r ∧ record_wf r.(Key) r) (map_to_list m).*2.
Proof.
  intros Hwf. apply Forall_fmap, Forall_forall. intros [k r] Hin%list_elem_of_In%elem_of_map_to_list.
  simpl. pose proof (records_wf_lookup _ _ _ Hwf Hin) as Hr. by rewrite (proj1 Hr).
Qed.

Lemma list_member w s :
  records_wf (recs w) → s ∈ (List_ w).1 →
  ∃ st r, s = snapshot_with st r ∧ recs w !! s.(s_Key) = Some r ∧ record_wf s.(s_Key) r.
Proof.
  intros Hwf Hs. destruct (List_spec w) as [HF _]. pose proof (records_list _ Hwf) as Hr.
  revert Hr. induction HF as [|s0 r0 snaps rs [st ->] HF IH]; [by apply elem_of_nil in Hs|].
  intros [[Hk Hw] Hr]%Forall_cons_iff. apply elem_of_cons in Hs as [->|Hs]; [|by apply IH].
  by exists st, r0.
Qed.

Lemma list_lists w k r :
  recs w !! k = Some r → ∃ st, snapshot_with st r ∈ (List_ w).1.
Proof.
  intros Hk. destruct (List_spec w) as [HF _].
  assert (r ∈ (map_to_list (recs w)).*2) as Hin.
  { apply list_elem_of_fmap. exists (k, r). by rewrite elem_of_map_to_list. }
  revert Hin. induction HF as [|s0 r0 snaps rs [st ->] HF IH]; [by intros ?%elem_of_nil|].
  intros [->|Hin]%elem_of_cons; [exists st; by left|].
  destruct (IH Hin) as [st' ?]. exists st'. by right.
Qed.

Lemma flush_run s :
  (flush s).2.(world).(store) = s.(world).(store) ∧
  if (flush s).1
  then flush_tx (List_ s.(world)).1 s.(db).(bucket) = Some (flush s).2.(db).(bucket)
  else (flush s).2.(db).(bucket) = s.(db).(bucket).
Proof.
  unfold flush. destruct (List_spec s.(world)) as [_ Hst].
  destruct (List_ (world s)) as [snaps w]. cbn [fst snd] in *.
  pose proof (Update_bucket (flush_tx snaps) s.(db)) as Hb.
  pose proof (Update_ok (flush_tx snaps) s.(db)) as Hok.
  destruct (Update (flush_tx snaps) (db s)) as [[] d]; cbn in *; split; try done.
  destruct (Hok eq_refl) as [b E]. by rewrite E in Hb |- *; rewrite Hb.
Qed.

(** The invariant of a running gateway, for one key: what is on disk is well
    keyed; and the store agrees with a view that is the disk's if the key's last
    change is durable. *)
Definition running (s : Sys) : Prop :=
  s.(world).(store).(onUpdate) = true ∧ s.(world).(store).(onDelete) = true ∧
  records_wf (recs s.(world)) ∧ well_keyed s.(db).(bucket).

Definition sinv (keys : list AppKeyEntry) (k : string) (b : bool) (s : Sys) : Prop :=
  running s ∧
  ∃ v, synced keys (recs s.(world)) v ∧ (b = true → view s.(db).(bucket) k = v k).

Lemma sinv_op keys k b o s :
  live_op o → Forall faithful (step_writes (SOp o) s) →
  sinv keys k b s → sinv keys k (step_durable k (SOp o) s b) (sys_op o s).
Proof.
  intros Hl Hf ((Hu & Hdel & Hwf & Hk) & v & Hs & Hv).
  unfold sys_op, step_writes, step_durable in *.
  set (w0 := mkWorld (store (world s)) (clock (world s)) []) in *.
  destruct (tracks_op keys v o w0 Hl) as (? & ? & ? & Hs' & Hw); [by split_and!|].
  split; [split_and!; try done; by apply run_effects_keyed|].
  exists (foldl eff_view v (run_op o w0).(effects)). split; [done|].
  intros Hd. by apply (run_effects_view k _ s.(db) b).
Qed.

(** What a committed flush leaves on disk of a key. *)
Lemma flush_view s k :
  Forall faithful (step_writes SFlush s) → running s → (flush s).1 = true →
  (∃ st r, recs s.(world) !! k = Some r ∧ record_wf k r ∧
           view (flush s).2.(db).(bucket) k = Some (snapshot_with st r)) ∨
  (view (flush s).2.(db).(bucket) k = view s.(db).(bucket) k ∧ flushes k s = false).
Proof.
  intros Hf (_ & _ & Hwf & _) Hok. destruct (flush_run s) as [_ Hb]. rewrite Hok in Hb.
  unfold flushes. rewrite Hok, andb_true_l.
  destruct (flush_tx_view _ k _ _ Hf Hb) as [(snap & Hin & <- & Hv)|[Hv Hex]]; [left|by right].
  destruct (list_member _ _ Hwf Hin) as (st & r & E & ? & ?). exists st, r.
  by rewrite Hv, E in *.
Qed.

Lemma flush_running s :
  Forall faithful (step_writes SFlush s) → running s → running (flush s).2.
Proof.
  intros Hf Hr. pose proof Hr as (Hu & Hd & Hwf & Hk). destruct (flush_run s) as [Hst Hb].
  unfold running. rewrite Hst. split_and!; [done..|]. intros k snap Hv.
  destruct ((flush s).1) eqn:Hok; [|rewrite Hb in Hv; by apply Hk].
  destruct (flush_view s k Hf Hr Hok) as [(st & r & _ & Hw & E)|[E _]];
    rewrite E in Hv; [|by apply Hk].
  injection Hv as <-. split; [apply Hw|]. by destruct Hw as (_ & ? & ? & _).
Qed.

Lemma sinv_flush keys k b s :
  Forall faithful (step_writes SFlush s) → sinv keys k b s →
  sinv keys k (step_durable k SFlush s b) (flush s).2.
Proof.
  intros Hf (Hr & v & Hs & Hv). split; [by apply flush_running|].
  destruct (flush_run s) as [Hst Hb]. rewrite Hst. cbn [step_durable].
  destruct ((flush s).1) eqn:Hok.
  - destruct (flush_view s k Hf Hr Hok) as [(st & r & Hk & Hw & E)|[E ->]].
    + exists (eff_view v (FireUpdate (snapshot_with st r))). split.
      * rewrite <-(insert_id (recs (world s)) k r Hk). by apply synced_fire.
      * intros _. rewrite E. cbn. by rewrite decide_True by (symmetry; apply Hw).
    + exists v. rewrite E. auto.
  - exists v. unfold flushes. rewrite Hok, Hb. auto.
Qed.

(** ** Start-up *)

(** A record main has provisioned and nothing else has touched. *)
Definition pristine (keys : list AppKeyEntry) (k : string) (r : UsageRecord) : Prop :=
  record_wf k r ∧ k ∈ ae_Key <$> keys ∧ r.(ExpiresAt) = 0 ∧ r.(RevokedAt) = 0 ∧
  (scoped keys k ∨ r.(scopes) = None).

Lemma provision_entry_pristine keys e w :
  e ∈ keys → map_Forall (pristine keys) (recs w) →
  map_Forall (pristine keys) (recs (provision_entry e w).2).
Proof.
  intros He Hw. unfold provision_entry. rewrite ST_bind_unfold.
  assert (map_Forall (pristine keys) (recs (Provision (ae_Key e) (ae_Label e) w).2)) as Hp.
  { rewrite Provision_records. case_match; [done|]. apply map_Forall_insert_2; [|done].
    split_and!; auto with butter. apply list_elem_of_fmap. eauto. }
  set (w1 := (Provision _ _ w).2) in *.
  destruct (entry_scopes e) as [sc|] eqn:Hsc; [|done].
  rewrite ST_bind_unfold. cbn [get_records gets_state fst snd].
  destruct (recs w1 !! ae_Key e) as [r|] eqn:Hr; [|done]. cbn.
  apply map_Forall_insert_2; [|done]. destruct (Hp _ _ Hr) as (? & ? & ? & ? & _).
  split_and!; auto with butter. left. exists e. by rewrite Hsc.
Qed.

Lemma provision_all_pristine keys es : ∀ w,
  (∀ e, e ∈ es → e ∈ keys) → map_Forall (pristine keys) (recs w) →
  map_Forall (pristine keys) (recs (provision_all es w).2).
Proof.
  induction es as [|e es IH]; intros w Hsub Hw; [done|]. cbn [provision_all].
  rewrite ST_bind_unfold. apply IH; [set_solver|].
  apply provision_entry_pristine; [set_solver|done].
Qed.

Definition restored (v : option UsageSnapshot) (r : option UsageRecord)
  : option UsageRecord :=
  match v with
  | Some s => Some (match r with
                    | Some r => merge_snapshot s r
                    | None => record_of_snapshot s
                    end)
  | None => r
  end.

Lemma restore_all_records l : ∀ w,
  NoDup l.*1 →
  (∀ k v s, (k, v) ∈ l → UnmarshalSnapshot v = Some s → s.(s_Key) = k) →
  ∀ k, recs (restore_all l w).2 !! k =
       restored ((list_to_map l : gmap _ _) !! k ≫= UnmarshalSnapshot) (recs w !! k).
Proof.
  induction l as [|[k0 v] l IH]; intros w Hnd Hkey k; [done|].
  inversion Hnd as [|?? Hni Hnd']; subst. cbn [restore_all list_to_map foldr fst snd uncurry].
  assert (∀ k v s, (k, v) ∈ l → UnmarshalSnapshot v = Some s → s_Key s = k) as Hkey'
    by (intros; eapply Hkey; [by right|done]).
  assert ((list_to_map l : gmap _ _) !! k0 = None) as Hl0
    by (by apply not_elem_of_list_to_map_1).
  destruct (UnmarshalSnapshot v) as [s|] eqn:Hv.
  - rewrite ST_bind_unfold, IH, Restore_records by done.
    assert (s_Key s = k0) as -> by (eapply Hkey; [by left|done]).
    destruct (decide (k = k0)) as [->|Hne].
    + by rewrite Hl0, !lookup_insert_eq; cbn; rewrite Hv.
    + by rewrite !lookup_insert_ne by done.
  - rewrite IH by done. destruct (decide (k = k0)) as [->|Hne].
    + by rewrite Hl0, lookup_insert_eq; cbn; rewrite Hv.
    + by rewrite lookup_insert_ne by done.
Qed.

Lemma loadAll_records b w :
  (∀ k s, view b k = Some s → s.(s_Key) = k) →
  ∀ k, recs (loadAll b w).2 !! k = restored (view b k) (recs w !! k).
Proof.
  intros Hkey k. unfold loadAll. rewrite restore_all_records.
  - unfold view. f_equal. f_equal.
    rewrite <-(list_to_map_to_list b) at 2. f_equal.
    apply list_to_map_proper; [|apply sort_members_perm].
    rewrite sort_members_perm. apply NoDup_fst_map_to_list.
  - rewrite sort_members_perm. apply NoDup_fst_map_to_list.
  - intros k' v s Hin Hv. rewrite sort_members_perm in Hin.
    apply elem_of_map_to_list in Hin. apply Hkey. unfold view. by rewrite Hin.
Qed.

Lemma boot_run keys clk d :
  (boot keys clk d).1 = true → ∃ w,
    map_Forall (pristine keys) (recs w) ∧
    (boot keys clk d).2.(db).(bucket) = d.(bucket) ∧
    (boot keys clk d).2.(world).(store) =
      SetOnDelete (SetOnUpdate (loadAll d.(bucket) w).2.(store)).
Proof.
  intros Hd. exists (provision_all keys (mkWorld NewStore clk [])).2. split.
  { apply provision_all_pristine; [done|]. apply map_Forall_empty. }
  revert Hd. unfold boot, NewPersister, Update. cbn. by destruct (commits d 0).
Qed.

(** After a start every key on disk is in memory as the disk has it. *)
Lemma boot_records keys clk d k :
  (boot keys clk d).1 = true → well_keyed d.(bucket) →
  ∃ o, recs (boot keys clk d).2.(world) !! k = restored (view d.(bucket) k) o ∧
       ∀ r, o = Some r → pristine keys k r.
Proof.
  intros Hd Hkey. destruct (boot_run keys clk d Hd) as (w & Hp & _ & Hst).
  exists (recs w !! k). rewrite Hst. cbn.
  rewrite loadAll_records by (intros; by apply Hkey). split; [done|].
  intros r Hr. by apply Hp.
Qed.

Lemma restored_lifecycle keys k s o r :
  restored (Some s) o = Some r → (∀ r, o = Some r → pristine keys k r) →
  lifecycle r = s_lifecycle s ∧ (scoped keys k ∨ r.(scopes) = s.(s_Scopes)).
Proof.
  intros Hr Ho. destruct o as [r0|]; cbn in Hr; simplify_eq; [|by auto].
  destruct (Ho r0 eq_refl) as (_ & _ & He & Hz & Hsc).
  unfold lifecycle, s_lifecycle. cbn. rewrite He, Hz. split; [done|].
  destruct (s_Scopes s); [by right|]. by destruct Hsc; auto.
Qed.

Lemma boot_synced keys clk d :
  (boot keys clk d).1 = true → well_keyed d.(bucket) →
  running (boot keys clk d).2 ∧
  synced keys (recs (boot keys clk d).2.(world)) (view d.(bucket)).
Proof.
  intros Hd Hv. destruct (boot_run keys clk d Hd) as (w & Hp & Hb & Hst).
  unfold running. rewrite Hst, Hb. cbn. split; [split_and!; try done|].
  - intros k r. rewrite loadAll_records by (intros; by apply Hv).
    destruct (view (bucket d) k) as [s|] eqn:E; cbn.
    + intros [= <-]. destruct (Hv _ _ E) as [<- Hs].
      destruct (recs w !! s_Key s) eqn:Hr; [|auto with butter].
      apply Hp in Hr as [? _]. auto with butter.
    + intros Hr. by apply Hp in Hr as [? _].
  - intros k. rewrite loadAll_records by (intros; by apply Hv).
    destruct (view (bucket d) k) as [s|] eqn:E; cbn.
    + destruct (Hv _ _ E) as [? Hs]. split; [done|]. split; [done|]. eexists. split; [done|].
      apply (restored_lifecycle keys k s (recs w !! k)); [done|]. intros. by apply Hp.
    + intros r Hr. by apply Hp in Hr as (_ & _ & ? & ? & ?).
Qed.

Lemma sinv_boot keys k b clk d :
  (boot keys clk d).1 = true → well_keyed d.(bucket) → sinv keys k b (boot keys clk d).2.
Proof.
  intros Hd Hv. destruct (boot_synced keys clk d Hd Hv) as [Hr Hs]. split; [done|].
  exists (view d.(bucket)). split; [done|]. intros _.
  by destruct (boot_run keys clk d Hd) as (? & _ & -> & _).
Qed.

Lemma sinv_step keys k st s b :
  live_step st → Forall faithful (step_writes st s) → opens keys [st] s = true →
  sinv keys k b s → sinv keys k (step_durable k st s b) (run_step keys st s).
Proof.
  intros Hl Hf Ho Hs. destruct st; cbn [run_step].
  - by apply sinv_op.
  - by apply sinv_flush.
  - cbn in Ho. rewrite andb_true_r in Ho. apply sinv_boot; [done|]. apply Hs.
Qed.

(** A run taken apart. *)
Lemma run_cons keys st sts s :
  Forall live_step (st :: sts) → Forall faithful (all_writes keys (st :: sts) s) →
  opens keys (st :: sts) s = true →
  (live_step st ∧ Forall faithful (step_writes st s) ∧ opens keys [st] s = true) ∧
  Forall live_step sts ∧ Forall faithful (all_writes keys sts (run_step keys st s)) ∧
  opens keys sts (run_step keys st s) = true.
Proof.
  intros Hl Hf Ho. apply Forall_cons_iff in Hl as [? ?]. cbn [all_writes opens] in *.
  apply Forall_app in Hf as [? ?]. apply andb_prop in Ho as [-> ?]. auto.
Qed.

Lemma sinv_steps keys k sts : ∀ s b,
  Forall live_step sts → Forall faithful (all_writes keys sts s) → opens keys sts s = true →
  sinv keys k b s → sinv keys k (durable keys k sts s b) (run_steps keys sts s).
Proof.
  induction sts as [|st sts IH]; intros s b Hl Hf Ho Hs; [done|].
  destruct (run_cons keys st sts s Hl Hf Ho) as ((? & ? & ?) & ? & ? & ?).
  apply IH; [done..|]. by apply sinv_step.
Qed.

(** ** Keys that go, keys that stay *)

(** The steps that may bring a key into being. *)
Definition creates (k : string) (st : sys_step) : Prop :=
  match st with
  | SOp (OProvision k' _) => k' = k
  | SOp (OVend rnd _ _ _) | SOp (ORotate rnd _ _) => Generate rnd = Some k
  | SOp (ORestore _) => True
  | _ => False
  end.

Lemma run_op_absent o k w :
  ¬ creates k (SOp o) → recs w !! k = None → recs (run_op o w) !! k = None.
Proof.
  intros Hc Hk. destruct o; simpl in *.
  - rewrite Provision_records. case_match; [done|]. by rewrite lookup_insert_ne.
  - rewrite Vend_records. case_match; [|done]. rewrite lookup_insert_ne; congruence.
  - rewrite Revoke_records. repeat case_match; try done. rewrite lookup_insert_ne; congruence.
  - rewrite SetExpiry_records. case_match; [|done]. rewrite lookup_insert_ne; congruence.
  - destruct (recs w !! oldKey) as [old|] eqn:Ho; [|by rewrite Rotate_unknown].
    destruct (Generate rnd) as [key|] eqn:Hg.
    + destruct (Rotate_run rnd oldKey newLabel w old key Ho Hg) as (t & _ & -> & _).
      case_decide; rewrite ?lookup_insert_ne; congruence.
    + by rewrite Rotate_no_entropy.
  - rewrite UpdateScopes_records. case_match; [|done]. rewrite lookup_insert_ne; congruence.
  - rewrite Delete_records. apply lookup_delete_None. auto.
  - rewrite RecordRequest_records. case_match; [|done]. rewrite lookup_insert_ne; congruence.
  - done.
Qed.

Lemma flush_records s : recs (flush s).2.(world) = recs s.(world).
Proof. destruct (flush_run s) as [Hst _]. by rewrite Hst. Qed.

(** A restart from a database that has the key's last change. *)
Lemma sinv_restart keys k clk s :
  (boot keys clk s.(db)).1 = true → sinv keys k true s →
  let r' := recs (boot keys clk s.(db)).2.(world) !! k in
  match recs s.(world) !! k, r' with
  | Some r, Some r' =>
    r'.(ExpiresAt) = r.(ExpiresAt) ∧ r'.(RevokedAt) = r.(RevokedAt) ∧
    (scoped keys k ∨ r'.(scopes) = r.(scopes))
  | Some r, None =>
    r.(ExpiresAt) = 0 ∧ r.(RevokedAt) = 0 ∧ (scoped keys k ∨ r.(scopes) = None)
  | None, Some r' => pristine keys k r'
  | None, None => True
  end.
Proof.
  intros Hb ((_ & _ & _ & Hwk) & v & Hs & Hv).
  destruct (boot_records keys clk s.(db) k Hb Hwk) as (o & -> & Ho).
  rewrite Hv by done. specialize (Hs k). destruct (v k) as [snap|].
  - destruct Hs as (_ & _ & r & -> & Hlc & Hsc).
    destruct (restored (Some snap) o) as [r'|] eqn:Hr'; [|done].
    destruct (restored_lifecycle keys k snap o r' Hr' Ho) as [E Hsc'].
    rewrite <-Hlc in E. unfold lifecycle in E. simplify_eq. split_and!; [congruence..|].
    destruct Hsc, Hsc'; auto. right. congruence.
  - cbn. destruct (recs (world s) !! k) as [r|] eqn:Hk, o as [r'|]; auto.
    destruct (Hs r eq_refl) as (? & ? & Hsc). destruct (Ho r' eq_refl) as (_ & _ & ? & ? & Hsc').
    split_and!; [congruence..|]. destruct Hsc, Hsc'; auto. right. congruence.
Qed.

Lemma run_steps_absent keys k sts : ∀ s b,
  k ∉ ae_Key <$> keys → Forall live_step sts → Forall faithful (all_writes keys sts s) →
  opens keys sts s = true → restarts_durable keys k sts s b = true →
  Forall (λ st, ¬ creates k st) sts → sinv keys k b s →
  recs s.(world) !! k = None → recs (run_steps keys sts s).(world) !! k = None.
Proof.
  induction sts as [|st sts IH]; intros s b Hk Hl Hf Ho Hd Hc Hs Hn; [done|].
  apply Forall_cons_iff in Hc as [Hc Hc'].
  destruct (run_cons keys st sts s Hl Hf Ho) as ((? & ? & Ho1) & ? & ? & ?).
  cbn [restarts_durable] in Hd. apply andb_prop in Hd as [Hd Hd']. cbn [run_steps].
  eapply IH; [done..|by apply sinv_step|].
  destruct st as [o| |clk']; cbn [run_step].
  - by apply run_op_absent.
  - by rewrite flush_records.
  - subst b. cbn in Ho1. rewrite andb_true_r in Ho1.
    pose proof (sinv_restart keys k clk' s Ho1 Hs) as Hr. cbv zeta in Hr. rewrite Hn in Hr.
    destruct (recs (world (boot keys clk' (db s)).2) !! k); [|done].
    by destruct Hr as (_ & ? & _).
Qed.

Definition step_replaces (k : string) (st : sys_step) : Prop :=
  match st with SOp o => replaces k o | _ => False end.

Lemma run_steps_revoked keys k t sts : ∀ s b,
  t ≠ 0 → Forall live_step sts → Forall faithful (all_writes keys sts s) →
  opens keys sts s = true → restarts_durable keys k sts s b = true →
  Forall (λ st, ¬ step_replaces k st) sts → sinv keys k b s →
  revoked_at (recs s.(world)) k t → revoked_at (recs (run_steps keys sts s).(world)) k t.
Proof.
  induction sts as [|st sts IH]; intros s b Ht Hl Hf Ho Hd Hc Hs Hr; [done|].
  apply Forall_cons_iff in Hc as [Hc Hc'].
  destruct (run_cons keys st sts s Hl Hf Ho) as ((? & ? & Ho1) & ? & ? & ?).
  cbn [restarts_durable] in Hd. apply andb_prop in Hd as [Hd Hd']. cbn [run_steps].
  eapply IH; [done..|by apply sinv_step|].
  destruct st as [o| |clk']; cbn [run_step].
  - by apply (run_op_keeps_revoked o).
  - by rewrite flush_records.
  - subst b. cbn in Ho1. rewrite andb_true_r in Ho1. destruct Hr as (r & Hk & <-).
    pose proof (sinv_restart keys k clk' s Ho1 Hs) as Hr. cbv zeta in Hr. rewrite Hk in Hr.
    unfold revoked_at. destruct (recs (world (boot keys clk' (db s)).2) !! k) as [r'|].
    + exists r'. by destruct Hr as (_ & ? & _).
    + by destruct Hr as (_ & ? & _).
Qed.

(** A snapshot that has an encoding is on disk after a flush that commits. *)
Lemma flushes_listed s k r :
  records_wf (recs s.(world)) → recs s.(world) !! k = Some r →
  (∀ st, MarshalSnapshot (snapshot_with st r) ≠ None) → (flush s).1 = true →
  flushes k s = true.
Proof.
  intros Hwf Hk Hm Hok. unfold flushes. rewrite Hok, andb_true_l. apply existsb_exists.
  destruct (list_lists _ _ _ Hk) as [st Hin]. exists (snapshot_with st r).
  split; [by apply list_elem_of_In|]. rewrite !bool_decide_eq_true_2; [done|auto|].
  apply (records_wf_lookup _ _ _ Hwf Hk).
Qed.
End disk_side.

(** ** A concrete codec, for the witnesses *)

Fixpoint pos_to_str (p : positive) : string :=
  match p with
  | xH => ""
  | xO p' => String "0" (pos_to_str p')
  | xI p' => String "1" (pos_to_str p')
  end.

Fixpoint str_to_pos (s : string) : positive :=
  match s with
  | EmptyString => xH
  | String c s' => if ascii_dec c "0" then xO (str_to_pos s') else xI (str_to_pos s')
  end.

Lemma str_to_pos_to_str p : str_to_pos (pos_to_str p) = p.
Proof. by induction p as [p IH|p IH|]; simpl; [f_equal..|]. Qed.

#[global] Instance ModelUsage_countable : Countable ModelUsage.
Proof.
  by refine (inj_countable'
    (λ u, (u.(mu_Requests), u.(mu_PromptTokens), u.(mu_CompletionTokens)))
    (λ '(a, b, c), mkUsage a b c) _); intros [].
Defined.

#[global] Instance KeyScopes_countable : Countable KeyScopes.
Proof.
  by refine (inj_countable' (λ k, (k.(AllowedModels), k.(AllowedProviders)))
    (λ '(a, b), mkScopes a b) _); intros [].
Defined.

#[global] Instance Status_countable : Countable Status.
Proof.
  by refine (inj_countable'
    (λ s, match s with StActive => 0 | StRevoked => 1 | StExpired => 2 end)
    (λ z, if z =? 0 then StActive else if z =? 1 then StRevoked else StExpired) _);
    intros [].
Defined.

#[global] Instance UsageSnapshot_eq_dec : EqDecision UsageSnapshot.
Proof. solve_decision. Defined.

(** The fields one after the other. *)
#[global] Instance UsageSnapshot_countable : Countable UsageSnapshot.
Proof.
  refine (inj_countable
    (λ s, [encode s.(s_Key); encode s.(s_Label); encode s.(s_Status); encode s.(s_CreatedAt);
           encode s.(s_LastAccessedAt); encode s.(s_ExpiresAt); encode s.(s_RevokedAt);
           encode s.(s_TotalRequests); encode s.(s_StreamRequests);
           encode s.(s_NonStreamRequests); encode s.(s_Models); encode s.(s_Scopes)])
    (λ l, match l with
          | [a; b; c; d; e; f; g; h; i; j; k; l] =>
            a ← decode a; b ← decode b; c ← decode c; d ← decode d; e ← decode e;
            f ← decode f; g ← decode g; h ← decode h; i ← decode i; j ← decode j;
            k ← decode k; l ← decode l; Some (mkSnapshot a b c d e f g h i j k l)
          | _ => None
          end) _).
  intros []. by rewrite !decode_encode.
Defined.

(** Every snapshot has an encoding; bbolt refuses the empty key. *)
Definition toy_storage : Storage := {|
  MarshalSnapshot s := Some (pos_to_str (encode s));
  UnmarshalSnapshot b := decode (str_to_pos b);
  put_ok k _ := negb (bool_decide (k = ""))
|}.

Lemma toy_faithful s : @faithful toy_storage s.
Proof. intros data [= <-]. cbn. by rewrite str_to_pos_to_str, decode_encode. Qed.

Lemma toy_faithful_all l : Forall (@faithful toy_storage) l.
Proof. apply Forall_forall. intros s _. apply toy_faithful. Qed.

Definition empty_db : DB := mkDB ∅ (λ _, true).

Lemma empty_well_keyed : @well_keyed toy_storage ∅.
Proof. intros k s. unfold view. by rewrite lookup_empty. Qed.

(** ** Theorems *)

Section theorems.
Context `{Storage}.

Lemma sinv_reachable keys k clk d sts :
  (boot keys clk d).1 = true → well_keyed d.(bucket) → Forall live_step sts →
  Forall faithful (all_writes keys sts (boot keys clk d).2) →
  opens keys sts (boot keys clk d).2 = true →
  sinv keys k (durable keys k sts (boot keys clk d).2 true)
    (run_steps keys sts (boot keys clk d).2).
Proof. intros. apply sinv_steps; [done..|]. by apply sinv_boot. Qed.

(** C6. A crash loses no lifecycle change that reached the database.  Start on
    any database this program has written, run any operations, flushes and
    restarts one after the other, whatever snapshots the database refuses and
    whatever commits fail, crash, and start again.  A key whose last announced
    change was committed, by its own write or by a later flush, has the expiry,
    the revocation and the scopes it had before the crash (scopes that the
    configuration sets are set again); if it disappears it had no such state, and
    if it appears it is a configured one.  Hypotheses: the two starts and the
    restarts between them open the database, snapshots that have an encoding are
    decoded from it, no [Restore] runs but that of a start, and no rotation draws
    the token it replaces.  The interleavings of concurrent requests, under which
    the statement fails, are the subject of PersistRace. *)
Theorem crash_recovery keys clk clk' d sts k :
  (boot keys clk d).1 = true → well_keyed d.(bucket) → Forall live_step sts →
  let s0 := (boot keys clk d).2 in
  Forall faithful (all_writes keys sts s0) → opens keys sts s0 = true →
  let s := run_steps keys sts s0 in
  durable keys k sts s0 true = true → (boot keys clk' s.(db)).1 = true →
  let s' := (boot keys clk' s.(db)).2 in
  match recs s.(world) !! k, recs s'.(world) !! k with
  | Some r, Some r' =>
    r'.(ExpiresAt) = r.(ExpiresAt) ∧ r'.(RevokedAt) = r.(RevokedAt) ∧
    (scoped keys k ∨ r'.(scopes) = r.(scopes))
  | Some r, None =>
    r.(ExpiresAt) = 0 ∧ r.(RevokedAt) = 0 ∧ (scoped keys k ∨ r.(scopes) = None)
  | None, Some r' => pristine keys k r'
  | None, None => True
  end.
Proof.
  intros Hb Hk Hl s0 Hf Ho s Hd Hb' s'. apply sinv_restart; [done|].
  rewrite <-Hd. by apply sinv_reachable.
Qed.

(** Revocation outlives the process.  A revoked key stays revoked at the
    same timestamp through any operations, flushes and restarts that do not
    purge it or draw the same token again, provided every restart finds its
    last change on disk. *)
Theorem revocation_survives_restarts keys clk d sts1 sts2 k r :
  (boot keys clk d).1 = true → well_keyed d.(bucket) → Forall live_step (sts1 ++ sts2) →
  let s0 := (boot keys clk d).2 in
  Forall faithful (all_writes keys sts1 s0) → opens keys sts1 s0 = true →
  let s1 := run_steps keys sts1 s0 in
  Forall faithful (all_writes keys sts2 s1) → opens keys sts2 s1 = true →
  restarts_durable keys k sts2 s1 (durable keys k sts1 s0 true) = true →
  recs s1.(world) !! k = Some r → r.(RevokedAt) ≠ 0 →
  Forall (λ st, ¬ step_replaces k st) sts2 →
  ∃ r', recs (run_steps keys sts2 s1).(world) !! k = Some r' ∧
        r'.(RevokedAt) = r.(RevokedAt).
Proof.
  intros Hb Hwk [Hl1 Hl2]%Forall_app s0 Hf1 Ho1 s1 Hf2 Ho2 Hd Hk Hr Hu.
  eapply run_steps_revoked; [done..|by apply sinv_reachable|by exists r].
Qed.

(** A purge is final.  After a key is deleted no flush and no restart
    brings it back, unless it is configured, or created again, provided every
    restart finds the purge on disk. *)
Theorem purge_survives_restarts keys clk d sts1 sts2 k :
  (boot keys clk d).1 = true → well_keyed d.(bucket) →
  Forall live_step (sts1 ++ SOp (ODelete k) :: sts2) →
  let s0 := (boot keys clk d).2 in
  Forall faithful (all_writes keys sts1 s0) → opens keys sts1 s0 = true →
  let s1 := run_steps keys sts1 s0 in
  Forall faithful (all_writes keys (SOp (ODelete k) :: sts2) s1) →
  opens keys (SOp (ODelete k) :: sts2) s1 = true →
  restarts_durable keys k (SOp (ODelete k) :: sts2) s1 (durable keys k sts1 s0 true) = true →
  k ∉ ae_Key <$> keys → Forall (λ st, ¬ creates k st) sts2 →
  recs (run_steps keys (SOp (ODelete k) :: sts2) s1).(world) !! k = None.
Proof.
  intros Hb Hwk [Hl1 Hl2]%Forall_app s0 Hf1 Ho1 s1 Hf2 Ho2 Hd Hk Hc.
  destruct (run_cons _ _ _ _ Hl2 Hf2 Ho2) as ((? & ? & ?) & ? & ? & ?).
  cbn [run_steps restarts_durable] in *. eapply run_steps_absent; [done..| |].
  - apply (sinv_step keys k (SOp (ODelete k))); [done..|]. by apply sinv_reachable.
  - cbn. rewrite Delete_records. apply lookup_delete_eq.
Qed.

Lemma all_writes_app keys l1 l2 : ∀ s,
  all_writes keys (l1 ++ l2) s =
  all_writes keys l1 s ++ all_writes keys l2 (run_steps keys l1 s).
Proof.
  induction l1 as [|st l1 IH]; intros; cbn; [done|]. by rewrite IH, app_assoc.
Qed.

(** A key that the configuration does not set up, after a flush that commits. *)
Lemma flushed_restart keys k b clk s :
  Forall faithful (step_writes SFlush s) → sinv keys k b s → (flush s).1 = true →
  (boot keys clk (flush s).2.(db)).1 = true → k ∉ ae_Key <$> keys →
  let r' := recs (boot keys clk (flush s).2.(db)).2.(world) !! k in
  match recs s.(world) !! k with
  | Some r => (∀ st, MarshalSnapshot (snapshot_with st r) ≠ None) → r' = Some r
  | None => b = true → r' = None
  end.
Proof.
  intros Hf Hs Hok Hb Hk. pose proof Hs as (Hr & v & Hsy & Hv). cbv zeta.
  destruct (boot_records keys clk _ k Hb) as (o & -> & Ho); [by apply flush_running|].
  assert (o = None) as -> by (destruct o as [r|]; [by destruct (Ho r eq_refl) as (_ & ? & _)|done]).
  destruct (flush_view s k Hf Hr Hok) as [(st & r & E & Hw & ->)|[-> Hn]].
  - rewrite E. intros _. cbn. f_equal. by apply (record_of_snapshot_with st k).
  - destruct (recs (world s) !! k) as [r|] eqn:E.
    + intros Hm. rewrite (flushes_listed s k r) in Hn; [done|apply Hr|done..].
    + intros ->. rewrite Hv by done. specialize (Hsy k). rewrite E in Hsy.
      destruct (v k); [by destruct Hsy as (_ & _ & ? & ? & _)|done].
Qed.

(** C36. An orderly shutdown loses nothing.  [Close] reports a failed flush
    exactly when the final flush is not committed, and then the bucket is as it
    was; otherwise it reports the outcome of [db.Close], and whatever that is a
    new process on the same file has every key of the store that the
    configuration does not set up, and whose snapshot has an encoding, exactly as
    it was: lifecycle, scopes, label, counters and per-model usage; a key that was
    purged is still gone if its purge was committed.  The run before the shutdown
    is that of [crash_recovery], refused snapshots and failed commits included. *)
Theorem clean_shutdown keys clk clk' d sts k started close_ok :
  (boot keys clk d).1 = true → well_keyed d.(bucket) → Forall live_step sts →
  let s0 := (boot keys clk d).2 in
  Forall faithful (all_writes keys (sts ++ [SFlush]) s0) → opens keys sts s0 = true →
  k ∉ ae_Key <$> keys →
  let s := run_steps keys sts s0 in
  ∃ err p,
    Close close_ok (Some (mkPersister s started false false false)) = (err, Some p) ∧
    (err = Some EFlush ↔ (flush s).1 = false) ∧
    (err = Some EFlush → p.(p_sys).(db).(bucket) = s.(db).(bucket)) ∧
    (err ≠ Some EFlush → err = if close_ok then None else Some EClose) ∧
    (err ≠ Some EFlush → (boot keys clk' p.(p_sys).(db)).1 = true →
     let r' := recs (boot keys clk' p.(p_sys).(db)).2.(world) !! k in
     match recs s.(world) !! k with
     | Some r => (∀ st, MarshalSnapshot (snapshot_with st r) ≠ None) → r' = Some r
     | None => durable keys k sts s0 true = true → r' = None
     end).
Proof.
  intros Hb Hwk Hl s0 Hf Ho Hk s. rewrite all_writes_app, Forall_app in Hf.
  destruct Hf as [Hf1 Hf2]. cbn [all_writes] in Hf2. rewrite app_nil_r in Hf2. fold s in Hf2.
  pose proof (sinv_reachable keys k clk d sts Hb Hwk Hl Hf1 Ho) as Hs.
  pose proof (flushed_restart keys k _ clk' s Hf2 Hs) as Hfin.
  destruct (flush_run s) as [_ Hfl]. unfold Close. cbn [once p_sys].
  destruct (flush s) as [ok s1]; cbn [fst snd] in *. destruct ok; cbn [negb].
  - exists (if close_ok then None else Some EClose). destruct close_ok; cbn [negb];
      (eexists; split; [done|]; split; [done|]; split; [done|]; split; [done|];
       intros _ Hb'; by apply Hfin).
  - do 2 eexists. split; [done|]. by split_and!.
Qed.
End theorems.

(** ** Witnesses *)

Definition cfg_keys : list AppKeyEntry := [mkAppKeyEntry "btr_cfg" "ci" ["gpt-4o"] []].

(** A database an earlier process left, on which the second commit and the
    seventh fail. *)
Definition old_snap : UsageSnapshot :=
  mkSnapshot "btr_old" "old" StRevoked 5 None None (Some 700) 3 1 2 ∅ None.
Definition old_data : string := from_option id "" (@MarshalSnapshot toy_storage old_snap).
Definition flaky_db : DB :=
  mkDB {["btr_old" := old_data]} (λ n, negb (bool_decide (n = 1 ∨ n = 6)%nat)).

Lemma old_data_decodes : @UnmarshalSnapshot toy_storage old_data = Some old_snap.
Proof. vm_compute. reflexivity. Qed.

Lemma flaky_well_keyed : @well_keyed toy_storage flaky_db.(bucket).
Proof.
  intros k s. unfold view. cbn [bucket flaky_db]. intros Hv.
  apply bind_Some in Hv as (data & [<- <-]%lookup_singleton_Some & Hu).
  rewrite old_data_decodes in Hu. injection Hu as <-. split; [done|].
  split; [by vm_compute|]. vm_compute. reflexivity.
Qed.

(** The vend is lost and the flush makes up for it; the expiry set at the end
    is lost. *)
Definition busy_steps : list sys_step :=
  [SOp (OVend rnd_a "svc" 500 None); SOp (ORecord key_a "m" true 5 6); SFlush;
   SOp (OUpdateScopes key_a (Some (mkScopes [] ["openai"])));
   SRestart (ticking 3000); SOp (ORevoke key_a); SOp (OSetExpiry "btr_cfg" 9000)].

Lemma busy_live : Forall live_step busy_steps.
Proof. by repeat constructor. Qed.

Definition busy_start : Sys := (boot (H := toy_storage) cfg_keys (ticking 1000) flaky_db).2.
Definition busy_sys : Sys := run_steps (H := toy_storage) cfg_keys busy_steps busy_start.

Lemma busy_booted : (boot (H := toy_storage) cfg_keys (ticking 1000) flaky_db).1 = true.
Proof. vm_compute. reflexivity. Qed.

Lemma busy_opens : opens (H := toy_storage) cfg_keys busy_steps busy_start = true.
Proof. vm_compute. reflexivity. Qed.

(** The revoked key is durable, the configured one is not, and neither was the
    vended one before the flush. *)
Lemma busy_durable :
  durable (H := toy_storage) cfg_keys key_a busy_steps busy_start true = true ∧
  durable (H := toy_storage) cfg_keys "btr_cfg" busy_steps busy_start true = false ∧
  durable (H := toy_storage) cfg_keys key_a (take 2 busy_steps) busy_start true = false.
Proof. by vm_compute. Qed.

Lemma busy_reboots :
  (boot (H := toy_storage) cfg_keys (ticking 8000) busy_sys.(db)).1 = true.
Proof. vm_compute. reflexivity. Qed.

Lemma crash_recovery_witness :
  match recs busy_sys.(world) !! key_a,
        recs (boot (H := toy_storage) cfg_keys (ticking 8000) busy_sys.(db)).2.(world) !! key_a with
  | Some r, Some r' => r.(RevokedAt) = 3001 ∧ r'.(RevokedAt) = r.(RevokedAt) ∧
      (scoped cfg_keys key_a ∨ r'.(scopes) = r.(scopes))
  | _, _ => False
  end.
Proof.
  pose proof (@crash_recovery toy_storage cfg_keys (ticking 1000) (ticking 8000) flaky_db
    busy_steps key_a busy_booted flaky_well_keyed busy_live
    (toy_faithful_all _) busy_opens (proj1 busy_durable) busy_reboots) as Hc.
  cbv zeta in Hc. fold busy_start in Hc. fold busy_sys in Hc.
  assert (RevokedAt <$> recs busy_sys.(world) !! key_a = Some 3001) as Hr
    by (vm_compute; reflexivity).
  assert (RevokedAt <$> recs (boot (H := toy_storage) cfg_keys (ticking 8000)
    busy_sys.(db)).2.(world) !! key_a = Some 3001) as Hr' by (vm_compute; reflexivity).
  revert Hc Hr Hr'. generalize (recs (world busy_sys) !! key_a).
  generalize (recs (boot (H := toy_storage) cfg_keys (ticking 8000) (db busy_sys)).2.(world)
    !! key_a).
  intros [r'|] [r|] Hc Hr Hr'; try done. injection Hr as Hr. by destruct Hc as (_ & ? & ?).
Defined.

Definition after_steps : list sys_step :=
  [SRestart (ticking 9000); SOp (ORotate rnd_b key_a ""); SRestart (ticking 9500)].

Lemma after_checks :
  opens (H := toy_storage) cfg_keys after_steps busy_sys = true ∧
  restarts_durable (H := toy_storage) cfg_keys key_a after_steps busy_sys
    (durable (H := toy_storage) cfg_keys key_a busy_steps busy_start true) = true.
Proof. by vm_compute. Qed.

Lemma revocation_survives_restarts_witness :
  ∃ r r', recs busy_sys.(world) !! key_a = Some r ∧ r.(RevokedAt) = 3001 ∧
    recs (run_steps (H := toy_storage) cfg_keys after_steps busy_sys).(world)
      !! key_a = Some r' ∧ r'.(RevokedAt) = r.(RevokedAt).
Proof.
  assert (RevokedAt <$> recs busy_sys.(world) !! key_a = Some 3001) as Hz
    by (vm_compute; reflexivity).
  apply fmap_Some in Hz as (r & Hr & Hz).
  assert (Forall live_step (busy_steps ++ after_steps)) as H1.
  { apply Forall_app. split; [apply busy_live|]. repeat constructor.
    intros Hg. vm_compute in Hg. congruence. }
  assert (Forall (λ st, ¬ step_replaces key_a st) after_steps) as H3
    by (repeat constructor; intros Hg; vm_compute in Hg; congruence).
  assert (RevokedAt r ≠ 0) as H4 by lia.
  destruct (@revocation_survives_restarts toy_storage cfg_keys (ticking 1000) flaky_db busy_steps
    after_steps key_a r busy_booted flaky_well_keyed H1 (toy_faithful_all _) busy_opens
    (toy_faithful_all _) (proj1 after_checks) (proj2 after_checks) Hr H4 H3) as (r' & ? & ?).
  exists r, r'. auto.
Defined.

Definition purge_tail : list sys_step :=
  [SFlush; SRestart (ticking 9000); SOp (ORecord key_a "m" true 1 1); SFlush;
   SRestart (ticking 9500)].
Definition purge_steps : list sys_step := SOp (ODelete key_a) :: purge_tail.

Lemma key_a_not_configured : key_a ∉ ae_Key <$> cfg_keys.
Proof. cbn. apply not_elem_of_cons. split; [done|]. apply not_elem_of_nil. Qed.

Lemma purge_checks :
  opens (H := toy_storage) cfg_keys purge_steps busy_sys = true ∧
  restarts_durable (H := toy_storage) cfg_keys key_a purge_steps busy_sys
    (durable (H := toy_storage) cfg_keys key_a busy_steps busy_start true) = true.
Proof. by vm_compute. Qed.

Lemma purge_survives_restarts_witness :
  recs (run_steps (H := toy_storage) cfg_keys purge_steps busy_sys).(world) !! key_a = None.
Proof.
  assert (Forall live_step (busy_steps ++ purge_steps)) as H1 by (by repeat constructor).
  assert (Forall (λ st, ¬ creates key_a st) purge_tail) as H3
    by (repeat constructor; intros []).
  exact (@purge_survives_restarts toy_storage cfg_keys (ticking 1000) flaky_db busy_steps
    purge_tail key_a busy_booted flaky_well_keyed H1 (toy_faithful_all _) busy_opens
    (toy_faithful_all _) (proj1 purge_checks) (proj2 purge_checks) key_a_not_configured H3).
Defined.

Lemma busy_closed_reboots :
  match (Close (H := toy_storage) false
           (Some (mkPersister busy_sys true false false false))).2 with
  | Some p => (boot (H := toy_storage) cfg_keys (ticking 9000) p.(p_sys).(db)).1
  | None => false
  end = true.
Proof. vm_compute. reflexivity. Qed.

Lemma busy_flush_ok : (flush (H := toy_storage) busy_sys).1 = true.
Proof. vm_compute. reflexivity. Qed.

Lemma busy_key : TotalRequests <$> recs busy_sys.(world) !! key_a = Some 1.
Proof. vm_compute. reflexivity. Qed.

(** The shutdown of the busy gateway: the database reports an error when it is
    closed, and nothing is lost. *)
Lemma clean_shutdown_witness :
  ∃ p r, Close (H := toy_storage) false (Some (mkPersister busy_sys true false false false))
         = (Some EClose, Some p) ∧
    recs busy_sys.(world) !! key_a = Some r ∧ r.(TotalRequests) = 1 ∧
    recs (boot (H := toy_storage) cfg_keys (ticking 9000) p.(p_sys).(db)).2.(world) !! key_a
      = Some r.
Proof.
  destruct (@clean_shutdown toy_storage cfg_keys (ticking 1000) (ticking 9000) flaky_db busy_steps
    key_a true false busy_booted flaky_well_keyed busy_live (toy_faithful_all _) busy_opens
    key_a_not_configured) as (err & p & Hc & Hfl & _ & Herr & Hfin).
  fold busy_start in Hc, Hfl, Herr, Hfin. fold busy_sys in Hc, Hfl, Hfin.
  assert (err ≠ Some EFlush) as Hne by (rewrite Hfl, busy_flush_ok; discriminate).
  specialize (Herr Hne). specialize (Hfin Hne). subst err. pose proof busy_key as Hr.
  apply fmap_Some in Hr as (r & Hr & Ht). exists p, r.
  split; [exact Hc|]. split; [exact Hr|]. split; [by rewrite <-Ht|].
  assert ((boot (H := toy_storage) cfg_keys (ticking 9000) p.(p_sys).(db)).1 = true) as Hb.
  { pose proof busy_closed_reboots as Hb. rewrite Hc in Hb. exact Hb. }
  specialize (Hfin Hb). cbv zeta in Hfin. rewrite Hr in Hfin.
  apply Hfin. intros st E. discriminate E.
Defined.
