(* ===== verification/PersistRace.v ===== *)
(** * Interleavings of the key store and its persister

    The steps of internal/appkey/store.go and persist.go that other goroutines
    can see, as a labelled transition system.  Management requests run
    concurrently: each looks its record up, changes it through the pointer,
    takes a snapshot and only then enters [PersistKey]; [Delete] removes the
    key from the map and then enters [DeleteKey]; [flush] holds [writeMu] from
    before it lists the records until its transaction has ended.  A transaction
    of [PersistKey] or [DeleteKey] is one step, possible only while no flush
    holds the mutex.

    The map of records holds pointers, so that a request can still change a
    record that has left the map. *)
From S2P Require Import Prelude GoStd Token Store.

(** ** State *)

(** What a management request still has to do. *)
Inductive mutation :=
| MRevoke (t : Z)
| MExpiry (expiresAt : Z)
| MScopes (sc : option KeyScopes).

Inductive pending :=
| PMutate (p : nat) (mu : mutation)     (* looked up, not yet changed *)
| PSnap (p : nat)                       (* changed, [rec.Snapshot()] to come *)
| PPersist (snap : UsageSnapshot)       (* [PersistKey(snap)] to come *)
| PDelete (key : string).               (* [DeleteKey(key)] to come *)

(** [flush]: idle, or holding the mutex with the records still to read and the
    snapshots read so far. *)
Inductive flusher :=
| FIdle
| FHold (todo : list nat) (snaps : list UsageSnapshot).

Record Conc := mkConc {
  heap : gmap nat UsageRecord;
  rmap : gmap string nat;
  disk : gmap string UsageSnapshot;
  pend : list pending;
  fl : flusher
}.

(** ** Steps *)

Inductive label :=
| LVend (key lbl : string) (t ttl : Z) (sc : option KeyScopes)
| LRequest (key : string) (mu : mutation)
| LMutate (i : nat)
| LSnapshot (i : nat) (t : Z)
| LPersist (i : nat)
| LDelete (key : string)
| LDeleteKey (i : nat)
| LRecord (p : nat) (model : string) (stream : bool) (pt ct t : Z)
| LFlushStart
| LFlushRead (t : Z)
| LFlushCommit (ok : bool).

Definition set_heap (h : gmap nat UsageRecord) (c : Conc) : Conc :=
  mkConc h c.(rmap) c.(disk) c.(pend) c.(fl).
Definition set_pend (ps : list pending) (c : Conc) : Conc :=
  mkConc c.(heap) c.(rmap) c.(disk) ps c.(fl).
Definition set_disk (d : gmap string UsageSnapshot) (c : Conc) : Conc :=
  mkConc c.(heap) c.(rmap) d c.(pend) c.(fl).
Definition set_fl (f : flusher) (c : Conc) : Conc :=
  mkConc c.(heap) c.(rmap) c.(disk) c.(pend) f.

(** The change a request makes; [None] is a compare-and-swap that fails, after
    which the request returns without a callback. *)
Definition mutate (mu : mutation) (r : UsageRecord) : option UsageRecord :=
  match mu with
  | MRevoke t =>
    if r.(RevokedAt) =? 0 then Some (set_RevokedAt (UnixNano t) r) else None
  | MExpiry e => Some (set_ExpiresAt (if IsZero e then 0 else UnixNano e) r)
  | MScopes sc => Some (SetScopes sc r)
  end.

(** A record that a token generator never produced before. *)
Definition unused (key : string) (c : Conc) : bool :=
  forallb (λ r, negb (bool_decide (r.(Key) = key))) (map_to_list c.(heap)).*2.

Definition new_ptr (c : Conc) : nat := fresh (dom c.(heap) : gset nat).

Definition exec (l : label) (c : Conc) : option Conc :=
  match l with
  | LVend key lbl t ttl sc =>
    if negb (unused key c) then None else
    let p := new_ptr c in
    Some (mkConc (<[p := vended key lbl ttl t (vend_opts sc)]> c.(heap))
            (<[key := p]> c.(rmap)) c.(disk) (PSnap p :: c.(pend)) c.(fl))
  | LRequest key mu =>
    p ← c.(rmap) !! key; Some (set_pend (PMutate p mu :: c.(pend)) c)
  | LMutate i =>
    match c.(pend) !! i with
    | Some (PMutate p mu) =>
      r ← c.(heap) !! p;
      match mutate mu r with
      | Some r' =>
        Some (set_heap (<[p := r']> c.(heap)) (set_pend (<[i := PSnap p]> c.(pend)) c))
      | None => Some (set_pend (delete i c.(pend)) c)
      end
    | _ => None
    end
  | LSnapshot i t =>
    match c.(pend) !! i with
    | Some (PSnap p) =>
      r ← c.(heap) !! p;
      Some (set_pend (<[i := PPersist (snapshot_with (status_at t r) r)]> c.(pend)) c)
    | _ => None
    end
  | LPersist i =>
    match c.(fl), c.(pend) !! i with
    | FIdle, Some (PPersist s) =>
      Some (set_disk (<[s.(s_Key) := s]> c.(disk)) (set_pend (delete i c.(pend)) c))
    | _, _ => None
    end
  | LDelete key =>
    _ ← c.(rmap) !! key;
    Some (mkConc c.(heap) (delete key c.(rmap)) c.(disk) (PDelete key :: c.(pend)) c.(fl))
  | LDeleteKey i =>
    match c.(fl), c.(pend) !! i with
    | FIdle, Some (PDelete key) =>
      Some (set_disk (delete key c.(disk)) (set_pend (delete i c.(pend)) c))
    | _, _ => None
    end
  | LRecord p model stream pt ct t =>
    r ← c.(heap) !! p;
    Some (set_heap (<[p := record_request t model stream pt ct r]> c.(heap)) c)
  | LFlushStart =>
    match c.(fl) with
    | FIdle => Some (set_fl (FHold (map_to_list c.(rmap)).*2 []) c)
    | FHold _ _ => None
    end
  | LFlushRead t =>
    match c.(fl) with
    | FHold (p :: todo) snaps =>
      r ← c.(heap) !! p;
      Some (set_fl (FHold todo (snaps ++ [snapshot_with (status_at t r) r])) c)
    | _ => None
    end
  | LFlushCommit ok =>
    match c.(fl) with
    | FHold [] snaps =>
      Some (set_fl FIdle
        (set_disk (if ok then foldl (λ d s, <[s.(s_Key) := s]> d) c.(disk) snaps
                   else c.(disk)) c))
    | _ => None
    end
  end.

Definition init_conc : Conc := mkConc ∅ ∅ ∅ [] FIdle.

Fixpoint exec_all (ls : list label) (c : Conc) : option Conc :=
  match ls with
  | [] => Some c
  | l :: ls' => c' ← exec l c; exec_all ls' c'
  end.

(** The states a run can be in. *)
Inductive reachable : Conc → Prop :=
| reach_init : reachable init_conc
| reach_step c l c' : reachable c → exec l c = Some c' → reachable c'.

(** No request in flight and no flush. *)
Definition at_rest (c : Conc) : bool :=
  match c.(pend), c.(fl) with [], FIdle => true | _, _ => false end.

(** ** Lists of pending work *)

Lemma elem_of_insert_inv {A} (l : list A) i x y : y ∈ <[i := x]> l → y = x ∨ y ∈ l.
Proof.
  intros [j Hj]%list_elem_of_lookup. destruct (decide (i = j)) as [->|Hne].
  - apply list_lookup_insert_Some in Hj as [(_ & -> & _)|(? & ?)]; [by left|done].
  - rewrite list_lookup_insert_ne in Hj by done. right. by eapply list_elem_of_lookup_2.
Qed.

Lemma elem_of_delete_inv {A} (l : list A) i y : y ∈ delete i l → y ∈ l.
Proof.
  revert i. induction l as [|x l IH]; intros [|i]; cbn; [done..|by right|].
  intros [->|?]%elem_of_cons; [by left|right; eauto].
Qed.

Lemma elem_of_insert_keep {A} (l : list A) i x y z :
  l !! i = Some z → y ≠ z → y ∈ l → y ∈ <[i := x]> l.
Proof.
  intros Hz Hne [j Hj]%list_elem_of_lookup. apply list_elem_of_lookup. exists j.
  rewrite list_lookup_insert_ne; [done|]. congruence.
Qed.

Lemma elem_of_delete_keep {A} (l : list A) i y z :
  l !! i = Some z → y ≠ z → y ∈ l → y ∈ delete i l.
Proof.
  intros Hz Hne Hy. rewrite (delete_Permutation l i z Hz) in Hy.
  by apply elem_of_cons in Hy as [?|?].
Qed.

(** ** Revocations on disk and in memory *)

Definition s_revoked (s : UsageSnapshot) : Prop := s.(s_RevokedAt) ≠ None.
Definition revoked (r : UsageRecord) : Prop := r.(RevokedAt) ≠ 0.

Lemma snapshot_revoked st r : s_revoked (snapshot_with st r) ↔ revoked r.
Proof. unfold s_revoked, revoked, opt_time. cbn. unfold opt_time. case_match; split; try done; lia. Qed.

(** Records keep their key and never lose a revocation. *)
Definition heap_le (h h' : gmap nat UsageRecord) : Prop :=
  ∀ p r, h !! p = Some r →
  ∃ r', h' !! p = Some r' ∧ r'.(Key) = r.(Key) ∧ (revoked r → revoked r').

#[global] Instance heap_le_refl : Reflexive heap_le.
Proof. intros h p r ?. by exists r. Qed.

Lemma heap_le_insert h p r r' :
  h !! p = Some r → r'.(Key) = r.(Key) → (revoked r → revoked r') →
  heap_le h (<[p := r']> h).
Proof.
  intros Hp Hk Hr q r0 Hq. destruct (decide (p = q)) as [->|].
  - exists r'. rewrite lookup_insert_eq. simplify_eq. auto.
  - exists r0. by rewrite lookup_insert_ne.
Qed.

Lemma heap_le_fresh h p r : h !! p = None → heap_le h (<[p := r]> h).
Proof. intros Hp q r0 Hq. exists r0. rewrite lookup_insert_ne; [done|congruence]. Qed.

Lemma mutate_mono mu r r' :
  mutate mu r = Some r' → r'.(Key) = r.(Key) ∧ (revoked r → revoked r').
Proof.
  unfold revoked. destruct mu; cbn; intros; simplify_eq; try done.
  destruct (Z.eqb_spec (RevokedAt r) 0); simplify_eq. split; [done|]. done.
Qed.

Lemma vended_Key key lbl ttl t sc : (vended key lbl ttl t (vend_opts sc)).(Key) = key.
Proof. apply (wf_vended key lbl ttl t sc). Qed.

Lemma new_ptr_fresh c : c.(heap) !! new_ptr c = None.
Proof. apply (not_elem_of_dom (D := gset nat)). unfold new_ptr. apply is_fresh. Qed.

Lemma unused_spec key c p r :
  unused key c = true → c.(heap) !! p = Some r → r.(Key) ≠ key.
Proof.
  unfold unused. rewrite forallb_forall. intros Hu Hp.
  specialize (Hu r). case_bool_decide as Hk; [|done]. exfalso.
  discriminate Hu. apply list_elem_of_In, list_elem_of_fmap. exists (p, r).
  by rewrite elem_of_map_to_list.
Qed.

(** A snapshot says no more of the revocation than its record does. *)
Definition honest (h : gmap nat UsageRecord) (s : UsageSnapshot) : Prop :=
  ∃ p r, h !! p = Some r ∧ r.(Key) = s.(s_Key) ∧ (s_revoked s → revoked r).

Lemma honest_mono h h' s : heap_le h h' → honest h s → honest h' s.
Proof.
  intros Hle (p & r & Hp & Hk & Hr). destruct (Hle p r Hp) as (r' & ? & ? & ?).
  exists p, r'. split_and!; [done|congruence|auto].
Qed.

Lemma honest_snapshot h p r st : h !! p = Some r → honest h (snapshot_with st r).
Proof. intros Hp. exists p, r. rewrite snapshot_revoked. auto. Qed.

Definition pend_ok (h : gmap nat UsageRecord) (x : pending) : Prop :=
  match x with
  | PMutate p _ | PSnap p => is_Some (h !! p)
  | PPersist s => honest h s
  | PDelete _ => True
  end.

Definition fl_ok (h : gmap nat UsageRecord) (d : gmap string UsageSnapshot) (f : flusher)
  : Prop :=
  match f with
  | FIdle => True
  | FHold todo snaps =>
    (∀ p, p ∈ todo → is_Some (h !! p)) ∧
    (∀ s, s ∈ snaps → honest h s ∧
       ∀ s0, d !! s.(s_Key) = Some s0 → s_revoked s0 → s_revoked s)
  end.

Record cinv (c : Conc) : Prop := mkCinv {
  ci_inj : ∀ p q r r', c.(heap) !! p = Some r → c.(heap) !! q = Some r' →
             r.(Key) = r'.(Key) → p = q;
  ci_map : ∀ k p, c.(rmap) !! k = Some p → ∃ r, c.(heap) !! p = Some r ∧ r.(Key) = k;
  ci_disk : ∀ k s, c.(disk) !! k = Some s → s.(s_Key) = k ∧ honest c.(heap) s;
  ci_pend : ∀ x, x ∈ c.(pend) → pend_ok c.(heap) x;
  ci_fl : fl_ok c.(heap) c.(disk) c.(fl)
}.

Lemma pend_ok_mono h h' x : heap_le h h' → pend_ok h x → pend_ok h' x.
Proof.
  intros Hle. destruct x; cbn; try done; [| |by apply honest_mono];
    intros [r Hp]; destruct (Hle _ _ Hp) as (? & ? & _); eauto.
Qed.

Lemma fl_ok_mono h h' d f : heap_le h h' → fl_ok h d f → fl_ok h' d f.
Proof.
  intros Hle. destruct f as [|todo snaps]; [done|]. intros [Ht Hs]. split.
  - intros p Hp. destruct (Ht p Hp) as [r Hr]. destruct (Hle _ _ Hr) as (? & ? & _); eauto.
  - intros s Hin. destruct (Hs s Hin). split; [by eapply honest_mono|done].
Qed.

(** A change of one record. *)
Lemma cinv_heap c p r r' :
  c.(heap) !! p = Some r → r'.(Key) = r.(Key) → (revoked r → revoked r') →
  cinv c → cinv (set_heap (<[p := r']> c.(heap)) c).
Proof.
  intros Hp Hk Hr [Hi Hm Hd Hq Hf].
  pose proof (heap_le_insert c.(heap) p r r' Hp Hk Hr) as Hle.
  split; cbn; eauto using pend_ok_mono, fl_ok_mono.
  - intros p1 p2 r1 r2 H1 H2 E.
    apply lookup_insert_Some in H1 as [[<- <-]|[? H1]];
      apply lookup_insert_Some in H2 as [[<- <-]|[? H2]]; try done.
    + eapply Hi; [done..|congruence].
    + eapply Hi; [done..|congruence].
    + eauto.
  - intros k q Hk'. destruct (Hm k q Hk') as (r0 & H0 & <-).
    destruct (Hle q r0 H0) as (? & ? & ? & _). eauto.
  - intros k s Hs. destruct (Hd k s Hs). eauto using honest_mono.
Qed.

(** A change of the pending work. *)
Lemma cinv_pend c ps :
  (∀ x, x ∈ ps → x ∈ c.(pend) ∨ pend_ok c.(heap) x) → cinv c → cinv (set_pend ps c).
Proof. intros H [Hi Hm Hd Hq Hf]. split; cbn; try done. intros x [?|?]%H; auto. Qed.

(** A snapshot reaches the disk while no flush runs. *)
Lemma cinv_put c s :
  c.(fl) = FIdle → honest c.(heap) s → cinv c →
  cinv (set_disk (<[s.(s_Key) := s]> c.(disk)) c).
Proof.
  intros Hfl Hs [Hi Hm Hd Hq Hf]. split; cbn; try done; [|by rewrite Hfl].
  intros k s0 [[<- <-]|[? ?]]%lookup_insert_Some; auto.
Qed.

Lemma commit_disk snaps : ∀ (d : gmap string UsageSnapshot) k,
  foldl (λ d s, <[s.(s_Key) := s]> d) d snaps !! k = d !! k ∨
  ∃ s, s ∈ snaps ∧ s.(s_Key) = k ∧
       foldl (λ d s, <[s.(s_Key) := s]> d) d snaps !! k = Some s.
Proof.
  induction snaps as [|s snaps IH]; intros d k; cbn; [by left|].
  destruct (IH (<[s_Key s := s]> d) k) as [E|(s' & ? & ? & ?)].
  - rewrite E. destruct (decide (s_Key s = k)) as [<-|].
    + right. exists s. rewrite lookup_insert_eq. split; [by left|done].
    + left. by rewrite lookup_insert_ne.
  - right. exists s'. split; [by right|done].
Qed.

Lemma cinv_vend key lbl t ttl sc c c' :
  exec (LVend key lbl t ttl sc) c = Some c' → cinv c → cinv c'.
Proof.
  intros He Hc. pose proof Hc as [Hi Hm Hd Hq Hf]. cbn [exec] in He.
  destruct (unused key c) eqn:Hu; cbn in He; simplify_eq.
  pose proof (new_ptr_fresh c) as Hn.
  pose proof (heap_le_fresh c.(heap) (new_ptr c) (vended key lbl ttl t (vend_opts sc)) Hn) as Hle.
  split; cbn; eauto using fl_ok_mono.
  + intros p q r r' H1 H2 E.
    apply lookup_insert_Some in H1 as [[<- <-]|[? H1]];
      apply lookup_insert_Some in H2 as [[<- <-]|[? H2]]; try done; [..|by eauto];
      rewrite vended_Key in E; exfalso; eapply unused_spec; eauto.
  + intros k p [[<- <-]|[? Hk]]%lookup_insert_Some.
    * eexists. rewrite lookup_insert_eq. split; [done|apply vended_Key].
    * destruct (Hm k p Hk) as (r & Hr & <-). destruct (Hle p r Hr) as (? & ? & ? & _). eauto.
  + intros k s Hs. destruct (Hd k s Hs). eauto using honest_mono.
  + intros x [->|Hx]%elem_of_cons; [cbn; rewrite lookup_insert_eq; eauto|].
    eauto using pend_ok_mono.
Qed.

Lemma cinv_mutate i c c' :
  exec (LMutate i) c = Some c' → cinv c → cinv c'.
Proof.
  intros He Hc. pose proof Hc as [Hi Hm Hd Hq Hf]. cbn [exec] in He.
  destruct (c.(pend) !! i) as [[p mu| | |]|] eqn:Hx; try done.
  apply bind_Some in He as (r & Hr & He). destruct (mutate mu r) as [r'|] eqn:Hmu; simplify_eq.
  + destruct (mutate_mono mu r r' Hmu). eapply (cinv_heap (set_pend _ c)); [done..|].
    apply cinv_pend; [|done]. intros x [->|?]%elem_of_insert_inv; [right; cbn; eauto|by left].
  + apply cinv_pend; [|done]. intros x ?%elem_of_delete_inv. by left.
Qed.

Lemma cinv_persist i c c' :
  exec (LPersist i) c = Some c' → cinv c → cinv c'.
Proof.
  intros He Hc. pose proof Hc as [Hi Hm Hd Hq Hf]. cbn [exec] in He.
  destruct (fl c) eqn:Hfl; [|done]. destruct (c.(pend) !! i) as [[| |s|]|] eqn:Hx; try done.
  simplify_eq. apply (cinv_put (set_pend _ c)); [done| |].
  + apply (Hq (PPersist s)). by eapply list_elem_of_lookup_2.
  + apply cinv_pend; [|done]. intros x ?%elem_of_delete_inv. by left.
Qed.

Lemma cinv_flush_read t c c' :
  exec (LFlushRead t) c = Some c' → cinv c → cinv c'.
Proof.
  intros He Hc. pose proof Hc as [Hi Hm Hd Hq Hf]. cbn [exec] in He.
  destruct (fl c) as [|[|p todo] snaps] eqn:Hfl; try done.
  apply bind_Some in He as (r & Hr & [= <-]). destruct Hf as [Ht Hs].
  split; cbn; try done. split; [intros; apply Ht; by right|].
  intros s [?|Hx%list_elem_of_singleton]%elem_of_app; [by apply Hs|]. subst s.
  split; [by eapply honest_snapshot|]. intros s0 H0 Hrev. rewrite snapshot_revoked.
  destruct (Hd _ _ H0) as [Hk (q & r0 & Hq0 & Hk0 & Hr0)].
  assert (p = q) as <- by (eapply Hi; [done..|cbn in *; congruence]).
  simplify_eq. auto.
Qed.

Lemma cinv_flush_commit ok c c' :
  exec (LFlushCommit ok) c = Some c' → cinv c → cinv c'.
Proof.
  intros He Hc. pose proof Hc as [Hi Hm Hd Hq Hf]. cbn [exec] in He.
  destruct (fl c) as [|[|] snaps] eqn:Hfl; try done. simplify_eq. destruct Hf as [_ Hs].
  split; cbn; try done. destruct ok; [|done]. intros k s Hk.
  destruct (commit_disk snaps (disk c) k) as [E|(s' & Hin & Hk' & E)]; rewrite E in Hk.
  + auto.
  + simplify_eq. by apply Hs in Hin as [? _].
Qed.

Lemma cinv_step l c c' : exec l c = Some c' → cinv c → cinv c'.
Proof.
  intros He Hc. pose proof Hc as [Hi Hm Hd Hq Hf].
  destruct l; try (by eauto using cinv_vend, cinv_mutate, cinv_persist, cinv_flush_read, cinv_flush_commit);
    cbn [exec] in He.
  - apply bind_Some in He as (p & Hp & [= <-]). apply cinv_pend; [|done].
    intros x [->|?]%elem_of_cons; [right|by left].
    destruct (Hm key p Hp) as (r & ? & _). cbn. eauto.
  - destruct (c.(pend) !! i) as [[|p| |]|] eqn:Hx; try done.
    apply bind_Some in He as (r & Hr & [= <-]). apply cinv_pend; [|done].
    intros x [->|?]%elem_of_insert_inv; [right|by left]. by eapply honest_snapshot.
  - apply bind_Some in He as (p & Hp & [= <-]). split; cbn; try done.
    + intros k q [_ ?]%lookup_delete_Some. auto.
    + intros x [->|?]%elem_of_cons; [done|auto].
  - destruct (fl c) eqn:Hfl; [|done]. destruct (c.(pend) !! i) as [[| | |key]|] eqn:Hx; try done.
    simplify_eq. split; cbn; try done; [|..|by rewrite Hfl].
    + intros k s [_ ?]%lookup_delete_Some. auto.
    + intros x ?%elem_of_delete_inv. auto.
  - apply bind_Some in He as (r & Hr & [= <-]). by eapply cinv_heap.
  - destruct (fl c) eqn:Hfl; [|done]. simplify_eq. split; cbn; try done. split.
    + intros p ([k q] & -> & Hin%elem_of_map_to_list)%list_elem_of_fmap.
      destruct (Hm k q Hin) as (? & ? & _). cbn. eauto.
    + by intros s ?%elem_of_nil.
Qed.

Lemma reachable_cinv c : reachable c → cinv c.
Proof.
  induction 1 as [|c l c' _ IH Hs]; [|by eapply cinv_step].
  split; cbn; try done; intros *; rewrite ?lookup_empty; try done. by intros ?%elem_of_nil.
Qed.

(** ** Purged keys *)

(** The key is in the map, or a [DeleteKey] for it is still to come. *)
Definition alive (c : Conc) (k : string) : Prop :=
  is_Some (c.(rmap) !! k) ∨ PDelete k ∈ c.(pend).

(** The request in flight would write the key. *)
Definition writes (c : Conc) (x : pending) (k : string) : Prop :=
  match x with
  | PMutate p _ | PSnap p => ∃ r, c.(heap) !! p = Some r ∧ r.(Key) = k
  | PPersist s => s.(s_Key) = k
  | PDelete _ => False
  end.

(** A [DeleteKey] runs only when no other request on its key is in flight. *)
Definition quiet (l : label) (c : Conc) : Prop :=
  match l with
  | LDeleteKey i => ∀ k x, c.(pend) !! i = Some (PDelete k) → x ∈ c.(pend) → ¬ writes c x k
  | _ => True
  end.

Inductive quiet_reachable : Conc → Prop :=
| quiet_init : quiet_reachable init_conc
| quiet_step c l c' :
    quiet_reachable c → quiet l c → exec l c = Some c' → quiet_reachable c'.

Lemma quiet_is_reachable c : quiet_reachable c → reachable c.
Proof. induction 1; [constructor|by econstructor]. Qed.

Record pinv (c : Conc) : Prop := mkPinv {
  pi_disk : ∀ k, is_Some (c.(disk) !! k) → alive c k;
  pi_pend : ∀ x k, x ∈ c.(pend) → writes c x k → alive c k;
  pi_fl : match c.(fl) with
          | FIdle => True
          | FHold todo snaps =>
            (∀ p r, p ∈ todo → c.(heap) !! p = Some r → alive c r.(Key)) ∧
            (∀ s, s ∈ snaps → alive c s.(s_Key))
          end
}.

(** Steps after which a key that was alive still is, and what is written was
    written before or belongs to a key that is alive. *)
Lemma pinv_keep c c' :
  (∀ k, alive c k → alive c' k) →
  (∀ k, is_Some (c'.(disk) !! k) → is_Some (c.(disk) !! k) ∨ alive c' k) →
  (∀ x k, x ∈ c'.(pend) → writes c' x k → (∃ y, y ∈ c.(pend) ∧ writes c y k) ∨ alive c' k) →
  match c'.(fl) with
  | FIdle => True
  | FHold todo snaps =>
    (∀ p r, p ∈ todo → c'.(heap) !! p = Some r → alive c' r.(Key)) ∧
    (∀ s, s ∈ snaps → alive c' s.(s_Key))
  end →
  pinv c → pinv c'.
Proof.
  intros Ha Hd Hp Hf [Hd0 Hp0 Hf0]. split; [|..|done].
  - intros k [?|?]%Hd; auto.
  - intros x k Hx Hw. destruct (Hp x k Hx Hw) as [(y & ? & ?)|?]; eauto.
Qed.

(** The records' keys do not change, so what a flush or a request names stays. *)
Lemma heap_key_back (h : gmap nat UsageRecord) q r r' p r0 :
  h !! q = Some r → r'.(Key) = r.(Key) → <[q := r']> h !! p = Some r0 →
  ∃ r1, h !! p = Some r1 ∧ r1.(Key) = r0.(Key).
Proof.
  intros Hq Hk [[<- <-]|[? ?]]%lookup_insert_Some; eauto.
Qed.

(** A record changed in place, with the pending work and the map as before or
    one request moved on. *)
Lemma pinv_heap c q r r' ps :
  c.(heap) !! q = Some r → r'.(Key) = r.(Key) →
  (∀ k, PDelete k ∈ c.(pend) → PDelete k ∈ ps) →
  (∀ x, x ∈ ps → x ∈ c.(pend) ∨ (x = PSnap q ∧ ∃ mu, PMutate q mu ∈ c.(pend))) →
  pinv c → pinv (set_heap (<[q := r']> c.(heap)) (set_pend ps c)).
Proof.
  intros Hq Hk Hdel Hps Hc. pose proof Hc as [Hd Hp Hf].
  assert (∀ k, alive c k → alive (set_heap (<[q := r']> c.(heap)) (set_pend ps c)) k) as Ha.
  { intros k [?|?]; [by left|right; cbn; auto]. }
  apply (pinv_keep c); [done|cbn; by left| | |done].
  - intros x k Hx Hw. left. cbn in Hx.
    destruct (Hps x Hx) as [Hin|[-> [mu Hmu]]].
    + exists x. split; [done|]. destruct x; cbn in *; try done;
        destruct Hw as (r0 & Hw & <-);
        destruct (heap_key_back _ _ _ _ _ _ Hq Hk Hw) as (? & ? & ?); eauto.
    + exists (PMutate q mu). split; [done|]. destruct Hw as (r0 & Hw & <-). cbn in Hw.
      destruct (heap_key_back _ _ _ _ _ _ Hq Hk Hw) as (? & ? & ?). cbn. eauto.
  - cbn. destruct (fl c) as [|todo snaps]; [done|]. destruct Hf as [Ht Hs]. split; [|by eauto].
    intros p r0 Hin Hp0. eapply heap_key_back in Hp0 as (r1 & ? & <-); [|done..]. eauto.
Qed.

(** One request moved on, the heap as before. *)
Lemma pinv_pend c ps :
  (∀ k, PDelete k ∈ c.(pend) → PDelete k ∈ ps) →
  (∀ x k, x ∈ ps → writes c x k → (∃ y, y ∈ c.(pend) ∧ writes c y k) ∨ alive c k) →
  pinv c → pinv (set_pend ps c).
Proof.
  intros Hdel Hps Hc. pose proof Hc as [Hd Hp Hf].
  assert (∀ k, alive c k → alive (set_pend ps c) k) as Ha.
  { intros k [?|?]; [by left|right; cbn; auto]. }
  apply (pinv_keep c); [done|cbn; by left| | |done].
  - intros x k Hx Hw. destruct (Hps x k Hx Hw); auto.
  - cbn. destruct (fl c) as [|todo snaps]; [done|]. destruct Hf as [Ht Hs].
    split; intros; eapply Ha; eauto.
Qed.

Lemma pinv_vend key lbl t ttl sc c c' :
  quiet (LVend key lbl t ttl sc) c → exec (LVend key lbl t ttl sc) c = Some c' → cinv c → pinv c → pinv c'.
Proof.
  intros Hqt He Hci Hc. pose proof Hci as [_ Hm _ _ _]. pose proof Hc as [Hd Hp Hf]. cbn [exec] in He.
  destruct (unused key c) eqn:Hu; cbn in He; simplify_eq.
  pose proof (new_ptr_fresh c) as Hn.
  set (c' := mkConc _ _ _ _ _).
  assert (alive c' key) as Hk by (left; cbn; rewrite lookup_insert_eq; eauto).
  assert (∀ k, alive c k → alive c' k) as Ha.
  { intros k [[p ?]|?]; [left; cbn|right; by right].
    destruct (decide (key = k)) as [->|]; [rewrite lookup_insert_eq|rewrite lookup_insert_ne]; eauto. }
  assert (∀ p r, c'.(heap) !! p = Some r → c.(heap) !! p = Some r ∨ Key r = key) as Hh.
  { cbn. intros p r [[<- <-]|[? ?]]%lookup_insert_Some; [right; apply vended_Key|by left]. }
  apply (pinv_keep c); [done|cbn; by left| | |done].
  + intros x k [->|Hx]%elem_of_cons Hw.
    * right. destruct Hw as (r & [?|<-]%Hh & <-); [congruence|done].
    * destruct x; cbn in Hw; try (left; by eauto);
        destruct Hw as (r & [?|<-]%Hh & <-); auto; left; eexists; split; eauto; cbn; eauto.
  + cbn. destruct (fl c) as [|todo snaps]; [done|]. destruct Hf as [Ht Hs]. split; [|by auto].
    intros p r Hin [?|Hkey]%Hh; [by eauto|by rewrite Hkey].
Qed.

Lemma pinv_mutate i c c' :
  quiet (LMutate i) c → exec (LMutate i) c = Some c' → cinv c → pinv c → pinv c'.
Proof.
  intros Hqt He Hci Hc. pose proof Hci as [_ Hm _ _ _]. pose proof Hc as [Hd Hp Hf]. cbn [exec] in He.
  destruct (c.(pend) !! i) as [[p mu| | |]|] eqn:Hx; try done.
  apply bind_Some in He as (r & Hr & He). pose proof (list_elem_of_lookup_2 _ _ _ Hx) as Hin.
  destruct (mutate mu r) as [r'|] eqn:Hmu; simplify_eq.
  + destruct (mutate_mono mu r r' Hmu). eapply pinv_heap; [done..| | |done].
    * intros k. by apply (elem_of_insert_keep _ _ _ _ _ Hx).
    * intros x [->|?]%elem_of_insert_inv; eauto.
  + apply pinv_pend; [| |done].
    * intros k. by apply (elem_of_delete_keep _ _ _ _ Hx).
    * intros x k ?%elem_of_delete_inv. eauto.
Qed.

Lemma pinv_persist i c c' :
  quiet (LPersist i) c → exec (LPersist i) c = Some c' → cinv c → pinv c → pinv c'.
Proof.
  intros Hqt He Hci Hc. pose proof Hci as [_ Hm _ _ _]. pose proof Hc as [Hd Hp Hf]. cbn [exec] in He.
  destruct (fl c) eqn:Hfl; [|done]. destruct (c.(pend) !! i) as [[| |s|]|] eqn:Hx; try done.
  simplify_eq. pose proof (list_elem_of_lookup_2 _ _ _ Hx) as Hin.
  set (c' := set_disk _ _).
  assert (∀ k, alive c k → alive c' k) as Ha.
  { intros k [?|?]; [by left|right]. by apply (elem_of_delete_keep _ _ _ _ Hx). }
  apply (pinv_keep c); [done| | |cbn; by rewrite Hfl|done].
  + cbn. intros k [s0 [[<- <-]|[? ?]]%lookup_insert_Some]; [right|left; eauto].
    apply Ha. by apply (Hp (PPersist s)).
  + intros x k ?%elem_of_delete_inv ?. eauto.
Qed.

Lemma pinv_delete key c c' :
  quiet (LDelete key) c → exec (LDelete key) c = Some c' → cinv c → pinv c → pinv c'.
Proof.
  intros Hqt He Hci Hc. pose proof Hci as [_ Hm _ _ _]. pose proof Hc as [Hd Hp Hf]. cbn [exec] in He.
  apply bind_Some in He as (p & Hk & [= <-]). set (c' := mkConc _ _ _ _ _).
  assert (∀ k, alive c k → alive c' k) as Ha.
  { intros k [?|?]; [|right; by right]. destruct (decide (key = k)) as [->|].
    - right. by left.
    - left. cbn. by rewrite lookup_delete_ne. }
  apply (pinv_keep c); [done|cbn; by left| | |done].
  + intros x k [->|Hx]%elem_of_cons Hw; [done|left; eauto].
  + cbn. destruct (fl c) as [|todo snaps]; [done|]. destruct Hf as [Ht Hs].
    split; intros; eapply Ha; eauto.
Qed.

Lemma pinv_delete_key i c c' :
  quiet (LDeleteKey i) c → exec (LDeleteKey i) c = Some c' → cinv c → pinv c → pinv c'.
Proof.
  intros Hqt He Hci Hc. pose proof Hci as [_ Hm _ _ _]. pose proof Hc as [Hd Hp Hf]. cbn [exec] in He.
  destruct (fl c) eqn:Hfl; [|done]. destruct (c.(pend) !! i) as [[| | |key]|] eqn:Hx; try done.
  simplify_eq. set (c' := set_disk _ _).
  assert (∀ k, k ≠ key → alive c k → alive c' k) as Ha.
  { intros k ? [?|?]; [by left|right]. apply (elem_of_delete_keep _ _ _ _ Hx); congruence. }
  split; cbn; [| |by rewrite Hfl].
  + intros k [s [? ?]%lookup_delete_Some]. apply Ha; [done|]. apply Hd. eauto.
  + intros x k Hin%elem_of_delete_inv Hw. apply Ha; [|by eapply Hp].
    intros ->. by eapply (Hqt key x).
Qed.

Lemma pinv_flush_read t c c' :
  quiet (LFlushRead t) c → exec (LFlushRead t) c = Some c' → cinv c → pinv c → pinv c'.
Proof.
  intros Hqt He Hci Hc. pose proof Hci as [_ Hm _ _ _]. pose proof Hc as [Hd Hp Hf]. cbn [exec] in He.
  destruct (fl c) as [|[|p todo] snaps] eqn:Hfl; try done.
  apply bind_Some in He as (r & Hr & [= <-]). destruct Hf as [Ht Hs].
  split; cbn; try done. split; [intros ???; apply Ht; by right|].
  intros s [?|Hx%list_elem_of_singleton]%elem_of_app; [by apply Hs|]. subst s. cbn.
  eapply Ht; [by left|done].
Qed.

Lemma pinv_step l c c' : quiet l c → exec l c = Some c' → cinv c → pinv c → pinv c'.
Proof.
  intros Hqt He Hci Hc. pose proof Hci as [_ Hm _ _ _]. pose proof Hc as [Hd Hp Hf].
  destruct l; try (by eauto using pinv_vend, pinv_mutate, pinv_persist, pinv_delete,
    pinv_delete_key, pinv_flush_read); cbn [exec] in He.
  - apply bind_Some in He as (p & Hk & [= <-]). apply pinv_pend; [by right| |done].
    intros x k [->|?]%elem_of_cons Hw; [right|by eauto]. destruct Hw as (r & Hr & <-).
    destruct (Hm key p Hk) as (r0 & ? & <-). simplify_eq. left. eauto.
  - destruct (c.(pend) !! i) as [[|p| |]|] eqn:Hx; try done.
    apply bind_Some in He as (r & Hr & [= <-]). pose proof (list_elem_of_lookup_2 _ _ _ Hx) as Hin.
    apply pinv_pend; [| |done].
    + intros k. by apply (elem_of_insert_keep _ _ _ _ _ Hx).
    + intros x k [->|?]%elem_of_insert_inv Hw; left; [|by eauto]. exists (PSnap p).
      split; [done|]. cbn in *. eauto.
  - apply bind_Some in He as (r & Hr & [= <-]).
    apply (pinv_heap c p r _ c.(pend)); [done..|by auto|by auto|done].
  - destruct (fl c) eqn:Hfl; [|done]. simplify_eq. split; cbn; try done. split.
    + intros p r ([k q] & -> & Hin%elem_of_map_to_list)%list_elem_of_fmap Hp0. cbn in *.
      destruct (Hm k q Hin) as (? & ? & <-). simplify_eq. left. eauto.
    + by intros s ?%elem_of_nil.
  - destruct (fl c) as [|[|] snaps] eqn:Hfl; try done. simplify_eq. destruct Hf as [_ Hs].
    split; cbn; try done. destruct ok; [|done]. intros k Hk.
    destruct (commit_disk snaps (disk c) k) as [E|(s' & Hin & <- & E)].
    + rewrite E in Hk. by apply Hd.
    + by apply Hs.
Qed.

Lemma quiet_pinv c : quiet_reachable c → pinv c.
Proof.
  induction 1 as [|c l c' Hr IH Hq Hs].
  - split; cbn; try done; [|by intros ?? ?%elem_of_nil]. intros k. rewrite lookup_empty. by intros [].
  - eapply pinv_step; [done..| |done]. by apply reachable_cinv, quiet_is_reachable.
Qed.

(** Executable traces lead to reachable states. *)
Lemma exec_all_reachable ls : ∀ c c', reachable c → exec_all ls c = Some c' → reachable c'.
Proof.
  induction ls as [|l ls IH]; cbn; intros c c' Hc; [by intros [= <-]|].
  intros (c1 & H1 & H2)%bind_Some. eapply IH; [|done]. by econstructor.
Qed.

(** ** Theorems *)

(** C35. The mutex keeps a flush from undoing a revocation.  Whatever else
    runs, a key whose entry on disk is revoked when a flush commits is revoked
    on disk afterwards. *)
Theorem flush_keeps_revocations c ok c' k s :
  reachable c → exec (LFlushCommit ok) c = Some c' →
  c.(disk) !! k = Some s → s_revoked s →
  ∃ s', c'.(disk) !! k = Some s' ∧ s_revoked s'.
Proof.
  intros [_ _ _ _ Hf]%reachable_cinv He Hk Hs. cbn in He.
  destruct (fl c) as [|[|] snaps]; simplify_eq. destruct Hf as [_ Hf]. cbn.
  destruct ok; [|by eauto].
  destruct (commit_disk snaps c.(disk) k) as [->|(s' & Hin & <- & ->)]; [by eauto|].
  exists s'. split; [done|]. by eapply Hf.
Qed.

Definition race_key : string := key_a.

(** Vend and revoke a key while a flush waits for the mutex, then flush. *)
Definition flush_trace : list label :=
  [LVend race_key "svc" 10 0 None; LSnapshot 0 11; LPersist 0;
   LRequest race_key (MRevoke 12); LMutate 0; LSnapshot 0 13; LPersist 0;
   LFlushStart; LFlushRead 14].

Definition state_after (ls : list label) : Conc :=
  default init_conc (exec_all ls init_conc).

Lemma reachable_after ls : is_Some (exec_all ls init_conc) → reachable (state_after ls).
Proof.
  unfold state_after. intros [c Hc]. rewrite Hc. eapply exec_all_reachable; [constructor|done].
Qed.

Lemma flush_keeps_revocations_witness :
  ∃ c' s', exec (LFlushCommit true) (state_after flush_trace) = Some c' ∧
    c'.(disk) !! race_key = Some s' ∧ s_revoked s'.
Proof.
  assert (is_Some (exec (LFlushCommit true) (state_after flush_trace))) as [c' Hc']
    by (eexists; vm_compute; reflexivity).
  assert (∃ s, (state_after flush_trace).(disk) !! race_key = Some s ∧ s_revoked s)
    as (s & Hs & Hr) by (eexists; split; [vm_compute; reflexivity|done]).
  destruct (flush_keeps_revocations _ true c' race_key s
    (reachable_after flush_trace ltac:(eexists; vm_compute; reflexivity)) Hc' Hs Hr)
    as (s' & ? & ?).
  exists c', s'. auto.
Defined.

(** The mutex keeps a flush from bringing a purged key back.  As long as a
    purge does not race with another request on its own key, whenever nothing
    is in flight every key on disk is a key of the store. *)
Theorem flush_never_resurrects c k :
  quiet_reachable c → at_rest c = true → is_Some (c.(disk) !! k) → is_Some (c.(rmap) !! k).
Proof.
  intros [Hd _ _]%quiet_pinv Hr Hk. destruct (Hd k Hk) as [?|Hin]; [done|].
  unfold at_rest in Hr. destruct (pend c); [|done]. by apply elem_of_nil in Hin.
Qed.

(** A purge that waits for a flush which has already read the key. *)
Definition purge_trace : list label :=
  [LVend race_key "svc" 10 0 None; LSnapshot 0 11; LPersist 0;
   LVend key_b "svc2" 12 0 None; LSnapshot 0 13; LPersist 0;
   LFlushStart; LFlushRead 14; LDelete race_key; LFlushRead 15; LFlushCommit true;
   LDeleteKey 0].

Definition quietb (l : label) (c : Conc) : bool :=
  match l with
  | LDeleteKey _ =>
    forallb (λ x, match x with PDelete _ => true | _ => false end) c.(pend)
  | _ => true
  end.

Fixpoint exec_quiet (ls : list label) (c : Conc) : option Conc :=
  match ls with
  | [] => Some c
  | l :: ls' => if quietb l c then c' ← exec l c; exec_quiet ls' c' else None
  end.

Lemma quietb_sound l c : quietb l c = true → quiet l c.
Proof.
  destruct l; cbn; try done. rewrite forallb_forall. intros H k x _ Hx%list_elem_of_In.
  specialize (H x Hx). destruct x; [done..|]. by intros [].
Qed.

Lemma exec_quiet_reachable ls : ∀ c c',
  quiet_reachable c → exec_quiet ls c = Some c' → quiet_reachable c'.
Proof.
  induction ls as [|l ls IH]; cbn; intros c c' Hc; [by intros [= <-]|].
  destruct (quietb l c) eqn:Hq; [|done].
  intros (c1 & H1 & H2)%bind_Some. eapply IH; [|done].
  econstructor; [done|by apply quietb_sound|done].
Qed.

Lemma flush_never_resurrects_witness :
  ∃ c, exec_quiet purge_trace init_conc = Some c ∧ c.(disk) !! race_key = None ∧
    is_Some (c.(disk) !! key_b) ∧ is_Some (c.(rmap) !! key_b).
Proof.
  assert (is_Some (exec_quiet purge_trace init_conc)) as [c Hc]
    by (eexists; vm_compute; reflexivity).
  assert (quiet_reachable c) as Hq by (eapply exec_quiet_reachable; [constructor|exact Hc]).
  assert ((λ c, (at_rest c, bool_decide (c.(disk) !! race_key = None),
    bool_decide (is_Some (c.(disk) !! key_b)))) <$> exec_quiet purge_trace init_conc
    = Some (true, true, true)) as H by (vm_compute; reflexivity).
  rewrite Hc in H. injection H as Hrest H1%bool_decide_eq_true H2%bool_decide_eq_true.
  exists c. split; [done|]. split; [done|]. split; [done|].
  exact (flush_never_resurrects c key_b Hq Hrest H2).
Defined.

(** A request that has taken its snapshot before a purge, and enters
    [PersistKey] after the purge's [DeleteKey], puts the purged key back on
    disk: with nothing left in flight the key is on disk and not in the store,
    and no flush removes it. *)
Theorem stale_persist_resurrects :
  ∃ c, reachable c ∧ at_rest c = true ∧
    c.(rmap) !! race_key = None ∧ is_Some (c.(disk) !! race_key) ∧
    ∃ c', exec_all [LFlushStart; LFlushCommit true] c = Some c' ∧ at_rest c' = true ∧
          is_Some (c'.(disk) !! race_key).
Proof.
  set (tr := [LVend race_key "svc" 10 0 None; LSnapshot 0 11; LPersist 0;
    LRequest race_key (MExpiry 99); LMutate 0; LSnapshot 0 12;
    LDelete race_key; LDeleteKey 0; LPersist 0]).
  exists (state_after tr). split.
  { apply reachable_after. eexists. vm_compute. reflexivity. }
  repeat split; try (vm_compute; reflexivity); eexists; vm_compute; [reflexivity|].
  split; [reflexivity|]. split; [reflexivity|]. eexists. reflexivity.
Qed.

(** Likewise a request that changed a key before its revocation and enters
    [PersistKey] after the revocation did leaves the disk saying the key is not
    revoked, with nothing left in flight, until the next flush. *)
Theorem stale_persist_unrevokes :
  ∃ c p r s, reachable c ∧ at_rest c = true ∧
    c.(rmap) !! race_key = Some p ∧ c.(heap) !! p = Some r ∧ revoked r ∧
    c.(disk) !! race_key = Some s ∧ ¬ s_revoked s.
Proof.
  set (tr := [LVend race_key "svc" 10 0 None; LSnapshot 0 11; LPersist 0;
    LRequest race_key (MExpiry 99); LMutate 0; LSnapshot 0 12;
    LRequest race_key (MRevoke 13); LMutate 0; LSnapshot 0 14; LPersist 0; LPersist 0]).
  exists (state_after tr). do 3 eexists. split.
  { apply reachable_after. eexists. vm_compute. reflexivity. }
  split_and!; try (vm_compute; reflexivity); [done|].
  intros H. by apply H.
Qed.
