(* ===== verification/Management.v ===== *)
(** * The management API (internal/transport/handler_appkey.go)

    The handlers that vend, list, update, rotate, revoke and purge application
    keys and report their usage, with the helpers of internal/transport/server.go
    they share with the other handlers: the cap on request bodies and the error
    replies.

    A handler is a computation in [ST World] that returns the reply.  The body of
    a reply is kept structured: the encoded value for JSON documents, the message
    for an error.  How encoding/json reads a [time.Time] is a parameter. *)
From S2P Require Import Prelude GoStd Json JsonFuel JsonScan Config Token Store.

(** ** Replies *)

Inductive err_msg :=
| Msg (s : string)
| KeyNotFound (key : string).     (* fmt.Sprintf("app key %q not found", key) *)

Record aggregate := mkAggregate {
  ag_TotalRequests : Z;
  ag_StreamRequests : Z;
  ag_NonStreamRequests : Z;
  ag_Keys : Z;
  ag_Models : gmap string ModelUsage
}.

Inductive reply_body :=
| BEmpty
| BError (msg : err_msg)
| BRaw (b : slice)
| BSnapshot (s : UsageSnapshot)
| BSnapshots (l : list UsageSnapshot)
| BRotated (old new : UsageSnapshot)
| BAggregate (a : aggregate).

Record Reply := mkReply {
  rp_status : Z;
  rp_header : Header;
  rp_body : reply_body
}.

Definition json_header : Header := {[ "Content-Type" := ["application/json"] ]}.

Definition writeError (status : Z) (msg : err_msg) : Reply :=
  mkReply status json_header (BError msg).

Definition json_reply (status : Z) (b : reply_body) : Reply := mkReply status json_header b.
Definition no_content : Reply := mkReply 204 ∅ BEmpty.

(** ** Request bodies *)

Record ServerConf := mkServerConf {
  appKeyHeader : string;
  appKeyRequire : bool;
  appKeyTTL : Z;
  maxBodyBytes : Z;
  writeTimeout : Z
}.

(** The part of [NewServer] that sets the cap: an unset one is the default. *)
Definition new_cap (maxRequestBytes : Z) : Z :=
  if maxRequestBytes =? 0 then DefaultMaxRequestBytes else maxRequestBytes.

(** A negative cap disables the limit. *)
Definition limitBody (s : ServerConf) (b : Body) : string * read_end :=
  if s.(maxBodyBytes) <? 0
  then (b.(b_data), if b.(b_fails) then RFailed else REof)
  else MaxBytesReader s.(maxBodyBytes) b.

Definition too_large_reply : Reply := writeError 413 (Msg "request body too large").

(** [tooLarge] on a decoder's error. *)
Definition tooLarge (e : option decode_error) : bool :=
  match e with Some DETooLarge => true | _ => false end.

(** [io.ReadAll] under the cap. *)
Definition readLimitedBody (s : ServerConf) (b : Body) : Reply + string :=
  match limitBody s b with
  | (data, REof) => inr data
  | (_, RTooLarge) => inl too_large_reply
  | (_, RFailed) => inl (writeError 400 (Msg "failed to read request body"))
  end.

(** ** Requests *)

Record create_req := mkCreateReq {
  cr_Label : string;
  cr_TTLSeconds : option Z;
  cr_AllowedModels : option (list string);
  cr_AllowedProviders : option (list string)
}.

Definition dec_create : dec create_req := dec_struct
  [("label", field cr_Label (λ v r, mkCreateReq v r.(cr_TTLSeconds) r.(cr_AllowedModels)
                                      r.(cr_AllowedProviders)) dec_string);
   ("ttl_seconds", field cr_TTLSeconds (λ v r, mkCreateReq r.(cr_Label) v r.(cr_AllowedModels)
                                      r.(cr_AllowedProviders)) (dec_ptr 0 dec_int64));
   ("allowed_models", field cr_AllowedModels (λ v r, mkCreateReq r.(cr_Label) r.(cr_TTLSeconds) v
                                      r.(cr_AllowedProviders)) (dec_slice "" dec_string));
   ("allowed_providers", field cr_AllowedProviders (λ v r, mkCreateReq r.(cr_Label)
                                      r.(cr_TTLSeconds) r.(cr_AllowedModels) v)
                                      (dec_slice "" dec_string))].

Record update_req := mkUpdateReq {
  ur_ExpiresAt : slice;
  ur_TTLSeconds : option Z;
  ur_AllowedModels : option (option (list string));
  ur_AllowedProviders : option (option (list string))
}.

Definition dec_update : dec update_req := dec_struct
  [("expires_at", field ur_ExpiresAt (λ v r, mkUpdateReq v r.(ur_TTLSeconds) r.(ur_AllowedModels)
                                        r.(ur_AllowedProviders)) dec_raw);
   ("ttl_seconds", field ur_TTLSeconds (λ v r, mkUpdateReq r.(ur_ExpiresAt) v r.(ur_AllowedModels)
                                        r.(ur_AllowedProviders)) (dec_ptr 0 dec_int64));
   ("allowed_models", field ur_AllowedModels (λ v r, mkUpdateReq r.(ur_ExpiresAt) r.(ur_TTLSeconds) v
                                        r.(ur_AllowedProviders)) (dec_ptr None (dec_slice "" dec_string)));
   ("allowed_providers", field ur_AllowedProviders (λ v r, mkUpdateReq r.(ur_ExpiresAt)
                                        r.(ur_TTLSeconds) r.(ur_AllowedModels) v)
                                        (dec_ptr None (dec_slice "" dec_string)))].

Definition dec_rotate : dec string := dec_struct [("label", field (λ s, s) (λ v _, v) dec_string)].

(** [time.Duration(n) * time.Second] *)
Definition ttl_of_seconds (n : Z) : Z := wrap64 (n * second).

Definition list_of (l : option (list string)) : list string := default [] l.

(** ** Handlers *)

Definition create_scopes (req : create_req) : option KeyScopes :=
  let ms := list_of req.(cr_AllowedModels) in
  let ps := list_of req.(cr_AllowedProviders) in
  if decide (ms = [] ∧ ps = []) then None else Some (mkScopes ms ps).

Definition create_ttl (s : ServerConf) (req : create_req) : Z :=
  match req.(cr_TTLSeconds) with Some n => ttl_of_seconds n | None => s.(appKeyTTL) end.

Definition handleAppKeyCreate (s : ServerConf) (rnd : option (list Z)) (b : Body) : ST World Reply :=
  let '(req, err) := Decode dec_create (limitBody s b) (mkCreateReq "" None None None) in
  if tooLarge err then mret too_large_reply else
  record ← Vend rnd req.(cr_Label) (create_ttl s req) (vend_opts (create_scopes req));
  match record with
  | inl _ => mret (writeError 500 (Msg "failed to generate key"))
  | inr record => snap ← Snapshot record; mret (json_reply 201 (BSnapshot snap))
  end.

Definition handleAppKeyList : ST World Reply :=
  snapshots ← List_; mret (json_reply 200 (BSnapshots snapshots)).

Definition not_found (key : string) : Reply := writeError 404 (KeyNotFound key).

Definition handleAppKeyUsage (key : string) : ST World Reply :=
  rec ← Lookup key;
  match rec with
  | None => mret (not_found key)
  | Some r => snap ← Snapshot r; mret (json_reply 200 (BSnapshot snap))
  end.

(** The reply to the error of a store method. *)
Definition store_failed (key : string) (e : store_error) (msg : string) : Reply :=
  match e with
  | ErrUnknownKey => not_found key
  | _ => writeError 500 (Msg msg)
  end.

Definition handleAppKeyRevoke (key : string) : ST World Reply :=
  err ← Revoke key;
  match err with
  | Some e => mret (store_failed key e "failed to revoke key")
  | None => mret no_content
  end.

Definition handleAppKeyPurge (key : string) : ST World Reply :=
  err ← Delete key;
  match err with
  | Some e => mret (store_failed key e "failed to purge key")
  | None => mret no_content
  end.

Section update.
(** [json.Unmarshal] into a [time.Time], on the text of a value. *)
Context (UnmarshalTime : string → option Z).

(** The expiry a request asks for; [None] when the timestamp is malformed. *)
Definition requested_expiry (req : update_req) : ST World (option Z) :=
  match req.(ur_TTLSeconds) with
  | Some n => if 0 <? n then t ← now; mret (Some (t + ttl_of_seconds n)) else mret (Some zero_time)
  | None =>
    let raw := bytes_of req.(ur_ExpiresAt) in
    if decide (raw = "null") then mret (Some zero_time) else mret (UnmarshalTime raw)
  end.

(** The scopes after a request: a list that was not sent stays, two empty ones are
    no restriction. *)
Definition merged_scopes (req : update_req) (current : option KeyScopes) : option KeyScopes :=
  let sc := default (mkScopes [] []) current in
  let ms := match req.(ur_AllowedModels) with Some l => list_of l | None => sc.(AllowedModels) end in
  let ps := match req.(ur_AllowedProviders) with Some l => list_of l | None => sc.(AllowedProviders) end in
  if decide (ms = [] ∧ ps = []) then None else Some (mkScopes ms ps).

Definition has_expiry (req : update_req) : bool :=
  bool_decide (is_Some req.(ur_TTLSeconds)) || negb (bool_decide (bytes_of req.(ur_ExpiresAt) = "")).
Definition has_scopes (req : update_req) : bool :=
  bool_decide (is_Some req.(ur_AllowedModels)) || bool_decide (is_Some req.(ur_AllowedProviders)).

(** A stage of the update returns a reply to stop with, or nothing to go on. *)
Definition update_expiry (key : string) (req : update_req) : ST World (option Reply) :=
  if negb (has_expiry req) then mret None else
  expiry ← requested_expiry req;
  match expiry with
  | None => mret (Some (writeError 400 (Msg "expires_at must be RFC3339 timestamp or null")))
  | Some t =>
    err ← SetExpiry key t;
    match err with
    | Some e => mret (Some (store_failed key e "failed to update key"))
    | None => mret None
    end
  end.

Definition update_scopes (key : string) (req : update_req) : ST World (option Reply) :=
  if negb (has_scopes req) then mret None else
  rec ← Lookup key;
  match rec with
  | None => mret (Some (not_found key))
  | Some r =>
    err ← UpdateScopes key (merged_scopes req (GetScopes r));
    match err with
    | Some e => mret (Some (store_failed key e "failed to update key scopes"))
    | None => mret None
    end
  end.

Definition handleAppKeyUpdate (s : ServerConf) (key : string) (b : Body) : ST World Reply :=
  match Decode dec_update (limitBody s b) (mkUpdateReq None None None None) with
  | (_, Some DETooLarge) => mret too_large_reply
  | (_, Some DEOther) => mret (writeError 400 (Msg "invalid request body"))
  | (req, None) =>
    if negb (bool_decide (bytes_of req.(ur_ExpiresAt) = "")) && bool_decide (is_Some req.(ur_TTLSeconds))
    then mret (writeError 400 (Msg "specify either expires_at or ttl_seconds, not both"))
    else
      stop ← update_expiry key req;
      match stop with
      | Some r => mret r
      | None =>
        stop ← update_scopes key req;
        match stop with
        | Some r => mret r
        | None => handleAppKeyUsage key
        end
      end
  end.
End update.

Definition handleAppKeyRotate (s : ServerConf) (rnd : option (list Z)) (key : string) (b : Body)
  : ST World Reply :=
  let '(label, err) := Decode dec_rotate (limitBody s b) "" in
  if tooLarge err then mret too_large_reply else
  v ← Rotate rnd key label;
  match v with
  | inl e => mret (store_failed key e "failed to rotate key")
  | inr (oldSnap, newSnap) => mret (json_reply 201 (BRotated oldSnap newSnap))
  end.

(** ** Aggregation *)

Definition add_model (u v : ModelUsage) : ModelUsage :=
  mkUsage (wrap64 (u.(mu_Requests) + v.(mu_Requests)))
    (wrap64 (u.(mu_PromptTokens) + v.(mu_PromptTokens)))
    (wrap64 (u.(mu_CompletionTokens) + v.(mu_CompletionTokens))).

Definition merge_models (acc ms : gmap string ModelUsage) : gmap string ModelUsage :=
  union_with (λ u v, Some (add_model u v)) acc ms.

Definition add_snapshot (a : aggregate) (snap : UsageSnapshot) : aggregate :=
  mkAggregate (wrap64 (a.(ag_TotalRequests) + snap.(s_TotalRequests)))
    (wrap64 (a.(ag_StreamRequests) + snap.(s_StreamRequests)))
    (wrap64 (a.(ag_NonStreamRequests) + snap.(s_NonStreamRequests)))
    a.(ag_Keys) (merge_models a.(ag_Models) snap.(s_Models)).

Definition handleUsageAggregate : ST World Reply :=
  snapshots ← List_;
  mret (json_reply 200 (BAggregate
    (foldl add_snapshot (mkAggregate 0 0 0 (Z.of_nat (length snapshots)) ∅) snapshots))).
