(* ===== verification/ManagementTheorems.v ===== *)
(** * What the management API guarantees

    Updates are all or nothing, requests on unknown keys change nothing, no
    sequence of management requests undoes a revocation short of a purge, and the
    aggregate is the sum over all keys; then two ways in which a lifetime is
    not what was asked for. *)
From S2P Require Import Prelude GoStd Json JsonFuel JsonScan Config Token Store Persist Management.

(** ** Steps *)

Lemma handleAppKeyUsage_spec key w :
  recs (handleAppKeyUsage key w).2 = recs w ∧
  (handleAppKeyUsage key w).1.(rp_status) = match recs w !! key with Some _ => 200 | None => 404 end.
Proof.
  unfold handleAppKeyUsage. rewrite ST_bind_unfold, Lookup_run. cbn [fst snd].
  destruct (recs w !! key) as [r|]; [|done]. rewrite ST_bind_unfold. cbn [fst snd mret ST_ret].
  by rewrite Snapshot_store.
Qed.

Lemma SetExpiry_result key t w :
  (SetExpiry key t w).1 = match recs w !! key with Some _ => None | None => Some ErrUnknownKey end.
Proof.
  unfold SetExpiry. rewrite ST_bind_unfold, Lookup_run. cbn [fst snd].
  destruct (recs w !! key); [|done]. by rewrite !ST_bind_unfold.
Qed.

Lemma UpdateScopes_result key sc w :
  (UpdateScopes key sc w).1 = match recs w !! key with Some _ => None | None => Some ErrUnknownKey end.
Proof.
  unfold UpdateScopes. rewrite ST_bind_unfold, Lookup_run. cbn [fst snd].
  destruct (recs w !! key); [|done]. by rewrite !ST_bind_unfold.
Qed.

Lemma Revoke_result key w :
  (Revoke key w).1 = match recs w !! key with Some _ => None | None => Some ErrUnknownKey end.
Proof.
  unfold Revoke. rewrite ST_bind_unfold, Lookup_run. cbn [fst snd].
  destruct (recs w !! key); [|done]. by rewrite !ST_bind_unfold.
Qed.

Lemma Delete_result key w :
  (Delete key w).1 = match recs w !! key with Some _ => None | None => Some ErrUnknownKey end.
Proof.
  unfold Delete. rewrite ST_bind_unfold. cbn [fst snd get_records gets_state].
  destruct (recs w !! key); [|done]. by rewrite !ST_bind_unfold.
Qed.

Section update.
Context (UnmarshalTime : string → option Z).

Lemma requested_expiry_store req w : (requested_expiry UnmarshalTime req w).2.(store) = w.(store).
Proof.
  unfold requested_expiry. destruct (ur_TTLSeconds req) as [n|].
  - by destruct (0 <? n).
  - by destruct (decide _).
Qed.

(** What an accepted request makes of a record. *)
Definition new_expiry (req : update_req) (w : World) (r : UsageRecord) : UsageRecord :=
  if has_expiry req then
    let t := default zero_time (requested_expiry UnmarshalTime req w).1 in
    set_ExpiresAt (if IsZero t then 0 else UnixNano t) r
  else r.
Definition new_scopes (req : update_req) (r : UsageRecord) : UsageRecord :=
  if has_scopes req then SetScopes (merged_scopes req r.(scopes)) r else r.

(** The first stage: it stops without a change, or sets the expiry of a known key. *)
Lemma update_expiry_spec key req w :
  match update_expiry UnmarshalTime key req w with
  | (Some rep, w') => rep.(rp_status) ≠ 200 ∧ recs w' = recs w
  | (None, w') =>
    (has_expiry req = false ∧ recs w' = recs w) ∨
    (∃ r, recs w !! key = Some r ∧ recs w' = <[key := new_expiry req w r]> (recs w))
  end.
Proof.
  unfold update_expiry. destruct (has_expiry req) eqn:He; cbn [negb]; [|by left].
  rewrite ST_bind_unfold. destruct (requested_expiry _ req w) as [[t|] w1] eqn:E; cbn [fst snd].
  2: { split; [done|]. pose proof (requested_expiry_store req w) as Hs. rewrite E in Hs.
       cbn in Hs. by rewrite Hs. }
  pose proof (requested_expiry_store req w) as Hs. rewrite E in Hs. cbn in Hs.
  rewrite ST_bind_unfold, SetExpiry_result, Hs.
  destruct (recs w !! key) as [r|] eqn:Hr; cbn [mret ST_ret];
    rewrite SetExpiry_records, Hs, Hr; [|done].
  right. exists r. split; [done|]. unfold new_expiry. by rewrite He, E.
Qed.

(** The second stage likewise. *)
Lemma update_scopes_spec key req w :
  match update_scopes key req w with
  | (Some rep, w') => rep.(rp_status) ≠ 200 ∧ recs w' = recs w ∧ recs w !! key = None
  | (None, w') =>
    (has_scopes req = false ∧ recs w' = recs w) ∨
    (∃ r, recs w !! key = Some r ∧ recs w' = <[key := new_scopes req r]> (recs w))
  end.
Proof.
  unfold update_scopes. destruct (has_scopes req) eqn:He; cbn [negb]; [|by left].
  rewrite ST_bind_unfold, Lookup_run. cbn [fst snd].
  destruct (recs w !! key) as [r|] eqn:Hr; [|done].
  rewrite ST_bind_unfold, UpdateScopes_result, Hr. cbn [mret ST_ret].
  rewrite UpdateScopes_records, Hr. right. exists r. split; [done|].
  unfold new_scopes. by rewrite He.
Qed.

Lemma update_spec s key b w :
  let '(rep, w') := handleAppKeyUpdate UnmarshalTime s key b w in
  (rep.(rp_status) ≠ 200 ∧ recs w' = recs w) ∨
  (rep.(rp_status) = 200 ∧ ∃ req r,
     Decode dec_update (limitBody s b) (mkUpdateReq None None None None) = (req, None) ∧
     recs w !! key = Some r ∧
     recs w' = <[key := new_scopes req (new_expiry req w r)]> (recs w)).
Proof.
  unfold handleAppKeyUpdate.
  destruct (Decode _ _ _) as [req [[]|]] eqn:Hd; [by left..|].
  destruct (_ && _); [by left|]. rewrite ST_bind_unfold.
  pose proof (update_expiry_spec key req w) as H1.
  destruct (update_expiry _ key req w) as [[rep|] w1]; cbn [fst snd]; [by left|].
  rewrite ST_bind_unfold. pose proof (update_scopes_spec key req w1) as H2.
  destruct (update_scopes key req w1) as [[rep|] w2]; cbn [fst snd].
  { left. destruct H2 as (? & -> & Hn). split; [done|].
    destruct H1 as [[_ ->]|(r & Hr & Heq)]; [done|]. rewrite Heq in Hn.
    by rewrite lookup_insert_eq in Hn. }
  destruct (handleAppKeyUsage_spec key w2) as [H3 Hst].
  destruct (handleAppKeyUsage key w2) as [rep w3]. cbn [fst snd] in *. rewrite H3, Hst. clear H3 Hst.
  assert (Hw1 : recs w1 = match recs w !! key with
                          | Some r => <[key := new_expiry req w r]> (recs w)
                          | None => recs w end).
  { destruct H1 as [[He ->]|(r & Hr & ->)]; [|by rewrite Hr].
    destruct (recs w !! key) as [r|] eqn:Hr; [|done].
    unfold new_expiry. by rewrite He, insert_id. }
  assert (Hw2 : recs w2 = match recs w1 !! key with
                          | Some r => <[key := new_scopes req r]> (recs w1)
                          | None => recs w1 end).
  { destruct H2 as [[He ->]|(r & Hr & ->)]; [|by rewrite Hr].
    destruct (recs w1 !! key) as [r|] eqn:Hr; [|done].
    unfold new_scopes. by rewrite He, insert_id. }
  destruct (recs w !! key) as [r|] eqn:Hr; rewrite Hw1 in Hw2.
  - rewrite lookup_insert_eq, insert_insert_eq in Hw2. right.
    rewrite Hw2, lookup_insert_eq. split; [done|]. by exists req, r.
  - rewrite Hr in Hw2. left. by rewrite Hw2, Hr.
Qed.

(** A well-formed request on a known key succeeds. *)
Lemma update_known s key b w req r :
  Decode dec_update (limitBody s b) (mkUpdateReq None None None None) = (req, None) →
  recs w !! key = Some r →
  bytes_of req.(ur_ExpiresAt) = "" ∨ req.(ur_TTLSeconds) = None →
  is_Some (requested_expiry UnmarshalTime req w).1 →
  (handleAppKeyUpdate UnmarshalTime s key b w).1.(rp_status) = 200.
Proof.
  intros Hd Hk Hone [t Ht]. unfold handleAppKeyUpdate. rewrite Hd.
  replace (_ && _) with false; cycle 1.
  { destruct Hone as [->| ->]; [done|]. by rewrite andb_comm. }
  rewrite ST_bind_unfold.
  assert (H1 : (update_expiry UnmarshalTime key req w).1 = None).
  { unfold update_expiry. destruct (has_expiry req); [|done]. cbn [negb].
    rewrite ST_bind_unfold, Ht, ST_bind_unfold, SetExpiry_result, requested_expiry_store.
    by rewrite Hk. }
  pose proof (update_expiry_spec key req w) as H2.
  destruct (update_expiry _ key req w) as [o w1]. cbn [fst snd] in *. subst o.
  assert (is_Some (recs w1 !! key)) as [r1 Hr1].
  { destruct H2 as [[_ ->]|(r' & _ & ->)]; [by eexists|]. rewrite lookup_insert_eq. by eexists. }
  rewrite ST_bind_unfold. pose proof (update_scopes_spec key req w1) as H3.
  destruct (update_scopes key req w1) as [[rep|] w2]; cbn [fst snd].
  { destruct H3 as (_ & _ & ?). congruence. }
  rewrite (proj2 (handleAppKeyUsage_spec key w2)).
  destruct H3 as [[_ ->]|(r' & _ & ->)]; [by rewrite Hr1|]. by rewrite lookup_insert_eq.
Qed.

(** C23. An update is all or nothing: either the reply reports an error and no
    record has changed, or it is a 200, the key exists and exactly its record has
    changed, to the expiry and the scopes the request asks for. *)
Theorem update_all_or_nothing s key b w :
  let '(rep, w') := handleAppKeyUpdate UnmarshalTime s key b w in
  (rep.(rp_status) ≠ 200 ∧ recs w' = recs w) ∨
  (rep.(rp_status) = 200 ∧ ∃ req r,
     Decode dec_update (limitBody s b) (mkUpdateReq None None None None) = (req, None) ∧
     recs w !! key = Some r ∧
     recs w' = <[key := new_scopes req (new_expiry req w r)]> (recs w)).
Proof. apply update_spec. Qed.

End update.

(** ** Sequences of requests *)

Inductive request :=
| QCreate (rnd : option (list Z)) (b : Body)
| QList
| QUsage (key : string)
| QRevoke (key : string)
| QPurge (key : string)
| QUpdate (key : string) (b : Body)
| QRotate (rnd : option (list Z)) (key : string) (b : Body)
| QAggregate.

Section requests.
Context (UnmarshalTime : string → option Z) (s : ServerConf).

Definition manage (q : request) : ST World Reply :=
  match q with
  | QCreate rnd b => handleAppKeyCreate s rnd b
  | QList => handleAppKeyList
  | QUsage key => handleAppKeyUsage key
  | QRevoke key => handleAppKeyRevoke key
  | QPurge key => handleAppKeyPurge key
  | QUpdate key b => handleAppKeyUpdate UnmarshalTime s key b
  | QRotate rnd key b => handleAppKeyRotate s rnd key b
  | QAggregate => handleUsageAggregate
  end.

Definition manage_all (qs : list request) (w : World) : World :=
  foldl (λ w q, (manage q w).2) w qs.

(** The requests that can end a revocation: the purge of the key, and a vend or
    rotation that draws the very same token again. *)
Definition replaces_req (key : string) (q : request) : Prop :=
  match q with
  | QPurge k => k = key
  | QCreate rnd _ | QRotate rnd _ _ => Generate rnd = Some key
  | _ => False
  end.

Lemma manage_keeps_revoked q w key t :
  t ≠ 0 → ¬ replaces_req key q → revoked_at (recs w) key t →
  revoked_at (recs (manage q w).2) key t.
Proof.
  intros Ht Hq Hr.
  destruct q as [rnd b| |k|k|k|k b|rnd k b| ]; cbn [manage replaces_req] in *.
  - unfold handleAppKeyCreate. destruct (Decode _ _ _) as [req err].
    destruct (tooLarge err); [done|]. rewrite ST_bind_unfold.
    pose proof (run_op_keeps_revoked (OVend rnd (cr_Label req) (create_ttl s req) (create_scopes req))
      w key t Ht Hq Hr) as Hv. cbn [run_op] in Hv.
    destruct (Vend _ _ _ _ w) as [[e|record] w']; cbn [fst snd] in *; [done|].
    rewrite ST_bind_unfold. cbn [fst snd mret ST_ret]. by rewrite Snapshot_store.
  - unfold handleAppKeyList. rewrite ST_bind_unfold. cbn [fst snd mret ST_ret].
    by rewrite (proj2 (List_spec w)).
  - by rewrite (proj1 (handleAppKeyUsage_spec k w)).
  - unfold handleAppKeyRevoke. rewrite ST_bind_unfold.
    pose proof (run_op_keeps_revoked (ORevoke k) w key t Ht ltac:(done) Hr) as Hv.
    cbn [run_op] in Hv. by destruct (Revoke k w) as [[e|] w'].
  - unfold handleAppKeyPurge. rewrite ST_bind_unfold.
    pose proof (run_op_keeps_revoked (ODelete k) w key t Ht Hq Hr) as Hv.
    cbn [run_op] in Hv. by destruct (Delete k w) as [[e|] w'].
  - pose proof (update_spec UnmarshalTime s k b w) as Hu.
    destruct (handleAppKeyUpdate _ s k b w) as [rep w']. cbn [fst snd].
    destruct Hu as [[_ ->]|(_ & req & r & _ & Hk & ->)]; [done|].
    apply (revoked_insert _ _ k r); [done| |done].
    unfold new_scopes, new_expiry. by destruct (has_scopes req), (has_expiry req).
  - unfold handleAppKeyRotate. destruct (Decode _ _ _) as [label err].
    destruct (tooLarge err); [done|]. rewrite ST_bind_unfold.
    pose proof (Rotate_keeps_revoked rnd k label w key t Ht Hq Hr) as Hv.
    by destruct (Rotate rnd k label w) as [[e|[o n]] w'].
  - unfold handleUsageAggregate. rewrite ST_bind_unfold. cbn [fst snd mret ST_ret].
    by rewrite (proj2 (List_spec w)).
Qed.

(** No sequence of management requests reactivates a revoked key: short of a
    purge of the key, its record keeps the instant of its revocation. *)
Theorem management_keeps_revocation qs w key r :
  recs w !! key = Some r → r.(RevokedAt) ≠ 0 →
  Forall (λ q, ¬ replaces_req key q) qs →
  ∃ r', recs (manage_all qs w) !! key = Some r' ∧ r'.(RevokedAt) = r.(RevokedAt).
Proof.
  intros Hk Hr Hqs.
  assert (Hrev : revoked_at (recs w) key r.(RevokedAt)) by by exists r.
  clear Hk. revert w Hrev. induction Hqs as [|q qs Hq Hqs IH]; intros w Hrev; [done|].
  apply (IH (manage q w).2). by apply manage_keeps_revoked.
Qed.

(** The key a request is about. *)
Definition request_key (q : request) : option string :=
  match q with
  | QUsage k | QRevoke k | QPurge k | QUpdate k _ | QRotate _ k _ => Some k
  | _ => None
  end.

Definition has_body (q : request) : Prop :=
  match q with QCreate _ _ | QUpdate _ _ | QRotate _ _ _ => True | _ => False end.

Lemma update_unknown key b w :
  recs w !! key = None →
  (manage (QUpdate key b) w).1.(rp_status) = 404 ∨
  (manage (QUpdate key b) w).1.(rp_status) = 400 ∨ (manage (QUpdate key b) w).1.(rp_status) = 413.
Proof.
  intros Hk. cbn [manage]. unfold handleAppKeyUpdate.
  destruct (Decode _ _ _) as [req [[]|]]; [by auto..|]. destruct (_ && _); [by auto|].
  rewrite ST_bind_unfold. unfold update_expiry at 1 2 3 4 5 6.
  destruct (has_expiry req); cbn [negb].
  - rewrite ST_bind_unfold. pose proof (requested_expiry_store UnmarshalTime req w) as Hs.
    destruct (requested_expiry _ req w) as [[t|] w1]; cbn [fst snd] in *; [|by auto].
    rewrite ST_bind_unfold, SetExpiry_result, Hs, Hk. by left.
  - cbn [fst snd mret ST_ret]. rewrite ST_bind_unfold. unfold update_scopes.
    destruct (has_scopes req); cbn [negb].
    + rewrite ST_bind_unfold, Lookup_run. cbn [fst snd]. rewrite Hk. by left.
    + cbn [fst snd mret ST_ret]. rewrite (proj2 (handleAppKeyUsage_spec key w)), Hk. by left.
Qed.

(** A request about a key that is not in the store changes no record and is
    answered 404; only a body that is malformed or too large is reported first,
    as 400 or 413. *)
Theorem unknown_key_not_found q key w :
  request_key q = Some key → recs w !! key = None →
  recs (manage q w).2 = recs w ∧
  ((manage q w).1.(rp_status) = 404 ∨
   has_body q ∧ ((manage q w).1.(rp_status) = 400 ∨ (manage q w).1.(rp_status) = 413)).
Proof.
  intros Hq Hk. destruct q; simplify_eq/=.
  - destruct (handleAppKeyUsage_spec key w) as [-> ->]. rewrite Hk. by auto.
  - unfold handleAppKeyRevoke. rewrite ST_bind_unfold, Revoke_result, Hk. cbn.
    rewrite Revoke_records, Hk. by auto.
  - unfold handleAppKeyPurge. rewrite ST_bind_unfold, Delete_result, Hk. cbn.
    rewrite Delete_records, delete_id by done. by auto.
  - split.
    + pose proof (update_spec UnmarshalTime s key b w) as Hu.
      destruct (handleAppKeyUpdate _ s key b w) as [rep w']. cbn [snd].
      destruct Hu as [[_ ->]|(_ & req & r & _ & Hk' & _)]; [done|congruence].
    + pose proof (update_unknown key b w Hk). cbn [manage] in *. tauto.
  - unfold handleAppKeyRotate. destruct (Decode _ _ _) as [label err].
    destruct (tooLarge err); [by auto 6|]. rewrite ST_bind_unfold, Rotate_unknown by done. by auto.
Qed.

End requests.

(** ** The aggregate *)

Definition total_of (f : UsageRecord → Z) (rs : list UsageRecord) : Z :=
  foldr (λ r acc, f r + acc) 0 rs.

Definition model_count (f : ModelUsage → Z) (model : string) (r : UsageRecord) : Z :=
  from_option f 0 (r.(modelUsage) !! model).

(** Equal modulo the width of the counters. *)
Definition eq64 (a b : Z) : Prop := wrap64 a = wrap64 b.

Lemma wrap64_idem z : wrap64 (wrap64 z) = wrap64 z.
Proof. apply wrap64_id, wrap64_range. Qed.

Lemma eq64_add a b c d : eq64 a b → eq64 c d → eq64 (a + c) (b + d).
Proof.
  unfold eq64. intros Hab Hcd. rewrite <-wrap64_add_l, Hab, wrap64_add_l.
  by rewrite <-wrap64_add_r, Hcd, wrap64_add_r.
Qed.

Lemma eq64_wrap a b : eq64 (wrap64 a) b ↔ eq64 a b.
Proof. unfold eq64. by rewrite wrap64_idem. Qed.

Lemma total_of_cons f r rs : total_of f (r :: rs) = f r + total_of f rs.
Proof. done. Qed.

(** Folding the snapshots adds each counter up. *)
Lemma aggregate_totals (g : aggregate → Z) (h : UsageSnapshot → Z) (f : UsageRecord → Z) snaps rs a :
  (∀ a snap, g (add_snapshot a snap) = wrap64 (g a + h snap)) →
  (∀ st r, h (snapshot_with st r) = f r) →
  Forall2 (λ s r, ∃ st, s = snapshot_with st r) snaps rs →
  eq64 (g (foldl add_snapshot a snaps)) (g a + total_of f rs).
Proof.
  intros Hg Hh HF. revert a. induction HF as [|snap r snaps rs [st ->] HF IH]; intros a; cbn [foldl].
  - unfold eq64. f_equal. cbn. lia.
  - rewrite total_of_cons. unfold eq64 in *. rewrite IH, Hg, Hh, wrap64_add_l. f_equal. lia.
Qed.

Lemma merge_models_count f (acc ms : gmap string ModelUsage) model :
  (∀ u v, f (add_model u v) = wrap64 (f u + f v)) →
  eq64 (from_option f 0 (merge_models acc ms !! model))
       (from_option f 0 (acc !! model) + from_option f 0 (ms !! model)).
Proof.
  intros Hf. unfold merge_models, eq64. rewrite lookup_union_with.
  destruct (acc !! model) as [u|], (ms !! model) as [v|]; cbn.
  - by rewrite Hf, wrap64_idem.
  - f_equal. lia.
  - f_equal.
  - done.
Qed.

Lemma aggregate_models f model snaps rs a :
  (∀ u v, f (add_model u v) = wrap64 (f u + f v)) →
  Forall2 (λ s r, ∃ st, s = snapshot_with st r) snaps rs →
  eq64 (from_option f 0 ((foldl add_snapshot a snaps).(ag_Models) !! model))
       (from_option f 0 (a.(ag_Models) !! model) + total_of (model_count f model) rs).
Proof.
  intros Hf HF. revert a. induction HF as [|snap r snaps rs [st ->] HF IH]; intros a; cbn [foldl].
  - unfold eq64. f_equal. cbn. lia.
  - rewrite total_of_cons. unfold eq64 in *. rewrite IH. cbn [add_snapshot ag_Models snapshot_with s_Models].
    rewrite <-wrap64_add_l, (merge_models_count f a.(ag_Models) r.(modelUsage) model Hf), wrap64_add_l.
    unfold model_count at 2. f_equal. lia.
Qed.

Lemma foldl_keys snaps a : (foldl add_snapshot a snaps).(ag_Keys) = a.(ag_Keys).
Proof. revert a. induction snaps as [|snap snaps IH]; intros a; cbn; [done|]. by rewrite IH. Qed.

(** The aggregate is the sum over the keys: modulo the width of the counters,
    the totals and the counters of every model are the sums of those of all
    records, and the number of keys is theirs; nothing is changed. *)
Theorem aggregate_exact w :
  let rs := (map_to_list (recs w)).*2 in
  ∃ a, (handleUsageAggregate w).1 = json_reply 200 (BAggregate a) ∧
    recs (handleUsageAggregate w).2 = recs w ∧
    a.(ag_Keys) = Z.of_nat (size (recs w)) ∧
    eq64 a.(ag_TotalRequests) (total_of TotalRequests rs) ∧
    eq64 a.(ag_StreamRequests) (total_of StreamRequests rs) ∧
    eq64 a.(ag_NonStreamRequests) (total_of NonStreamRequests rs) ∧
    ∀ model f, f ∈ [mu_Requests; mu_PromptTokens; mu_CompletionTokens] →
      eq64 (from_option f 0 (a.(ag_Models) !! model)) (total_of (model_count f model) rs).
Proof.
  intros rs. unfold handleUsageAggregate. rewrite ST_bind_unfold. cbn [mret ST_ret fst snd].
  destruct (List_spec w) as [HF Hst]. rewrite Hst. fold rs in HF.
  eexists. split; [done|]. split; [done|].
  set (a0 := mkAggregate _ _ _ _ _). split; [|split; [|split; [|split]]].
  - rewrite foldl_keys. cbn. rewrite (Forall2_length HF). unfold rs.
    by rewrite length_fmap, length_map_to_list.
  - by apply (aggregate_totals ag_TotalRequests s_TotalRequests TotalRequests _ _ a0).
  - by apply (aggregate_totals ag_StreamRequests s_StreamRequests StreamRequests _ _ a0).
  - by apply (aggregate_totals ag_NonStreamRequests s_NonStreamRequests NonStreamRequests _ _ a0).
  - intros model f Hf. apply (aggregate_models f model _ rs a0); [|done].
    intros u v. rewrite !elem_of_cons, elem_of_nil in Hf. by destruct Hf as [->|[->|[->|[]]]].
Qed.

(** ** Lifetimes *)

Definition no_times : string → option Z := λ _, None.
Definition conf (ttl : Z) : ServerConf := mkServerConf "X-Butter-App-Key" false ttl 1000 0.
Definition body (text : string) : Body := mkBody (dq text) false.

(** The default lifetime does not apply when [ttl_seconds] is present with a
    wrong type: the decoder leaves the pointer set to zero and the handler
    tolerates its error, so the key never expires. *)
Theorem malformed_ttl_never_expires rnd key w :
  Generate rnd = Some key →
  ∃ r, recs (handleAppKeyCreate (conf (3600 * second)) rnd (body "{'ttl_seconds':'60'}") w).2 !! key
       = Some r ∧ r.(ExpiresAt) = 0.
Proof.
  intros Hg. unfold handleAppKeyCreate.
  destruct (Decode _ _ _) as [req err] eqn:E. vm_compute in E. injection E as <- <-.
  cbn [tooLarge]. rewrite ST_bind_unfold, Vend_result, Hg. cbn [cr_Label].
  rewrite ST_bind_unfold. cbn [fst snd mret ST_ret]. rewrite Snapshot_store, Vend_records, Hg.
  eexists. split; [apply lookup_insert_eq|]. reflexivity.
Qed.

(** A lifetime of ten billion seconds, about three centuries, leaves the 64-bit
    nanoseconds: an update with it makes the key expire in the past. *)
Theorem long_ttl_expires_at_once key r w :
  recs w !! key = Some r → 0 <= w.(clock) 0%nat < 2 ^ 62 →
  ∃ r', recs (handleAppKeyUpdate no_times (conf 0) key (body "{'ttl_seconds':10000000000}") w).2 !! key
        = Some r' ∧ r'.(ExpiresAt) < w.(clock) 0%nat.
Proof.
  intros Hk Ht. pose proof (update_spec no_times (conf 0) key (body "{'ttl_seconds':10000000000}") w) as Hu.
  destruct (handleAppKeyUpdate _ _ _ _ w) as [rep w'] eqn:Eh. cbn [snd].
  assert (Hst : rep.(rp_status) = 200).
  { destruct (Decode dec_update (limitBody (conf 0) (body "{'ttl_seconds':10000000000}"))
                (mkUpdateReq None None None None)) as [req err] eqn:E. pose proof E as E'.
    vm_compute in E'. injection E' as <- <-.
    pose proof (update_known no_times (conf 0) key _ w _ r E Hk) as Hok.
    rewrite Eh in Hok. apply Hok; [by left|]. cbn [requested_expiry ur_TTLSeconds].
    by eexists. }
  destruct Hu as [[? _]|(_ & req & r0 & E & Hk' & ->)]; [done|].
  vm_compute in E. injection E as <-. rewrite lookup_insert_eq. eexists. split; [done|].
  unfold new_scopes, new_expiry.
  rewrite (eq_refl : has_scopes (mkUpdateReq None (Some 10000000000) None None) = false).
  rewrite (eq_refl : has_expiry (mkUpdateReq None (Some 10000000000) None None) = true).
  set (t := default zero_time _). assert (t = clock w 0%nat + -8446744073709551616) as -> by done.
  cbn [set_ExpiresAt ExpiresAt].
  unfold IsZero. destruct (Z.eqb_spec (clock w 0%nat + -8446744073709551616) zero_time) as [He|_].
  { unfold zero_time in He. lia. }
  unfold UnixNano. rewrite wrap64_id; [lia|]. unfold in_int64, two63. lia.
Qed.

(** ** Witnesses *)

Definition busy_world : World :=
  manage_all no_times (conf 0)
    [QCreate rnd_a (body "{'label':'a'}"); QCreate rnd_b (body "{'label':'b'}");
     QRevoke key_a] (start_world 1000).

Lemma management_keeps_revocation_witness :
  ∃ r', recs (manage_all no_times (conf 0)
     [QUpdate key_a (body "{'ttl_seconds':5,'allowed_models':['m']}"); QRevoke key_a;
      QRotate None key_a (body ""); QPurge key_b; QAggregate] busy_world) !! key_a = Some r' ∧
     r'.(RevokedAt) = default 0 (RevokedAt <$> recs busy_world !! key_a).
Proof.
  destruct (recs busy_world !! key_a) as [r|] eqn:E; [|by vm_compute in E].
  apply (management_keeps_revocation no_times (conf 0) _ busy_world key_a r E).
  - intros H0. apply (f_equal (fmap RevokedAt)) in E. cbn in E. rewrite H0 in E.
    by vm_compute in E.
  - repeat (constructor; [vm_compute; intros H; first [by destruct H|discriminate H]|]). constructor.
Defined.

Lemma unknown_key_not_found_witness :
  recs (manage no_times (conf 0) (QUpdate "btr_x" (body "{'ttl_seconds':1}")) busy_world).2 = recs busy_world ∧
  ((manage no_times (conf 0) (QUpdate "btr_x" (body "{'ttl_seconds':1}")) busy_world).1.(rp_status) = 404 ∨
   has_body (QUpdate "btr_x" (body "{'ttl_seconds':1}")) ∧
   ((manage no_times (conf 0) (QUpdate "btr_x" (body "{'ttl_seconds':1}")) busy_world).1.(rp_status) = 400 ∨
    (manage no_times (conf 0) (QUpdate "btr_x" (body "{'ttl_seconds':1}")) busy_world).1.(rp_status) = 413)).
Proof.
  apply (unknown_key_not_found no_times (conf 0) (QUpdate "btr_x" (body "{'ttl_seconds':1}")) "btr_x" busy_world).
  - reflexivity.
  - vm_compute. reflexivity.
Defined.
