(* ===== verification/MemoryCache.v ===== *)
(** * Response cache (internal/cache/cache.go, internal/cache/memory.go)

    The [Cache] interface as a type class with the laws its clients rely on, and
    its in-memory implementation: a map from keys to elements of a list kept in
    order of use.  The list's elements are pointers, as in container/list: the
    map and the list share them, and [Set] on a known key changes the entry in
    place.

    A time is its distance from the epoch in nanoseconds. *)
From S2P Require Import Prelude.

(** ** The interface *)

(** [Cache], with the clock readings of a call as an argument. *)
Class Cache (C : Type) := {
  Get : string → Z → C → slice * C;
  Set_ : string → slice → Z → Z → C → C;
  Len : C → Z
}.

(** What a client may assume of a well-formed cache: [may_hold c k v] says a
    later [Get] of [k] may return [v].  A value comes out of a cache only under
    the key it was set with; a nil slice may come out as an empty one. *)
Class CacheLaws (C : Type) `{Cache C} := {
  cache_wf : C → Prop;
  may_hold : C → string → string → Prop;
  Get_wf k t c : cache_wf c → cache_wf (Get k t c).2;
  Set_wf k v ttl t c : cache_wf c → cache_wf (Set_ k v ttl t c);
  Get_holds k t c v : cache_wf c → (Get k t c).1 = Some v → may_hold c k v;
  Get_keeps k t c k' v : cache_wf c → may_hold (Get k t c).2 k' v → may_hold c k' v;
  Set_keeps k v ttl t c k' v' :
    cache_wf c → may_hold (Set_ k v ttl t c) k' v' →
    (k' = k ∧ v' = bytes_of v) ∨ may_hold c k' v'
}.

(** ** The LRU implementation *)

Record entry := mkEntry {
  e_key : string;
  e_value : slice;
  e_expiresAt : Z
}.

Record Memory := mkMemory {
  maxEntries : Z;
  items : gmap string nat;      (* map[string]*list.Element *)
  evictList : list nat;         (* front first *)
  elems : gmap nat entry        (* what the elements point to *)
}.

Definition NewMemory (max : Z) : Memory := mkMemory max ∅ [] ∅.

Definition list_remove (el : nat) (l : list nat) : list nat := filter (λ x, x ≠ el) l.
Definition MoveToFront (el : nat) (l : list nat) : list nat := el :: list_remove el l.

Definition removeElement (el : nat) (m : Memory) : Memory :=
  match m.(elems) !! el with
  | None => m
  | Some ent =>
    mkMemory m.(maxEntries) (delete ent.(e_key) m.(items))
      (list_remove el m.(evictList)) m.(elems)
  end.

Definition removeOldest (m : Memory) : Memory :=
  match list.last m.(evictList) with
  | None => m
  | Some el => removeElement el m
  end.

Definition MemGet (key : string) (now : Z) (m : Memory) : slice * Memory :=
  match m.(items) !! key with
  | None => (None, m)
  | Some el =>
    match m.(elems) !! el with
    | None => (None, m)
    | Some ent =>
      if ent.(e_expiresAt) <? now then (None, removeElement el m)
      else (ent.(e_value),
            mkMemory m.(maxEntries) m.(items) (MoveToFront el m.(evictList)) m.(elems))
    end
  end.

Definition MemSet (key : string) (value : slice) (ttl now : Z) (m : Memory) : Memory :=
  match m.(items) !! key with
  | Some el =>
    mkMemory m.(maxEntries) m.(items) (MoveToFront el m.(evictList))
      (<[el := mkEntry key value (now + ttl)]> m.(elems))
  | None =>
    let el := fresh (dom m.(elems) : gset nat) in
    let m' := mkMemory m.(maxEntries) (<[key := el]> m.(items))
                (el :: m.(evictList))
                (<[el := mkEntry key value (now + ttl)]> m.(elems)) in
    if m'.(maxEntries) <? Z.of_nat (length m'.(evictList)) then removeOldest m' else m'
  end.

Definition MemLen (m : Memory) : Z := Z.of_nat (length m.(evictList)).

#[global] Instance Memory_Cache : Cache Memory :=
  {| Get := MemGet; Set_ := MemSet; Len := MemLen |}.

(** ** Specification: a list of entries, most recently used first *)

Definition lru_find (k : string) (l : list entry) : option entry :=
  snd <$> list_find (λ e, e.(e_key) = k) l.

Definition lru_del (k : string) (l : list entry) : list entry :=
  filter (λ e, e.(e_key) ≠ k) l.

Definition lru_get (k : string) (now : Z) (l : list entry) : slice * list entry :=
  match lru_find k l with
  | None => (None, l)
  | Some e => if e.(e_expiresAt) <? now then (None, lru_del k l)
              else (e.(e_value), e :: lru_del k l)
  end.

Definition lru_set (max : Z) (k : string) (v : slice) (ttl now : Z) (l : list entry)
  : list entry :=
  let e := mkEntry k v (now + ttl) in
  match lru_find k l with
  | Some _ => e :: lru_del k l
  | None => if max <? Z.of_nat (S (length l)) then removelast (e :: l) else e :: l
  end.

Inductive cop :=
| CGet (k : string) (now : Z)
| CSet (k : string) (v : slice) (ttl now : Z).

(** A run and the values its Gets return. *)
Fixpoint run_mem (os : list cop) (m : Memory) : list slice * Memory :=
  match os with
  | [] => ([], m)
  | CGet k now :: os' =>
    let '(v, m') := MemGet k now m in
    let '(vs, m'') := run_mem os' m' in (v :: vs, m'')
  | CSet k v ttl now :: os' => run_mem os' (MemSet k v ttl now m)
  end.

Fixpoint run_lru (max : Z) (os : list cop) (l : list entry) : list slice * list entry :=
  match os with
  | [] => ([], l)
  | CGet k now :: os' =>
    let '(v, l') := lru_get k now l in
    let '(vs, l'') := run_lru max os' l' in (v :: vs, l'')
  | CSet k v ttl now :: os' => run_lru max os' (lru_set max k v ttl now l)
  end.

(** ** Representation *)

Definition deref (m : Memory) (el : nat) : entry :=
  default (mkEntry "" None 0) (m.(elems) !! el).

Definition contents (m : Memory) : list entry := deref m <$> m.(evictList).

(** Every element points to an entry, the map holds exactly the listed
    elements, each under its key. *)
Record mem_wf (m : Memory) : Prop := mkWf {
  wf_nodup : NoDup m.(evictList);
  wf_elems : ∀ el, el ∈ m.(evictList) → ∃ e, m.(elems) !! el = Some e ∧
               m.(items) !! e.(e_key) = Some el;
  wf_items : ∀ k el, m.(items) !! k = Some el →
               el ∈ m.(evictList) ∧ ∃ e, m.(elems) !! el = Some e ∧ e.(e_key) = k
}.

(** ** Facts on the specification *)

Definition lru_keys (l : list entry) : list string := e_key <$> l.

Lemma lru_find_Some k l e : lru_find k l = Some e → e ∈ l ∧ e.(e_key) = k.
Proof.
  unfold lru_find. intros ([i e'] & H & ->)%fmap_Some.
  apply list_find_Some in H as (Hi & ? & _). split; [by eapply list_elem_of_lookup_2|done].
Qed.

Lemma lru_find_None k l : lru_find k l = None ↔ k ∉ lru_keys l.
Proof.
  unfold lru_find, lru_keys. rewrite fmap_None, list_find_None. split.
  - intros H (e & -> & He)%list_elem_of_fmap. rewrite Forall_forall in H.
    by apply (H e); [apply list_elem_of_In|].
  - intros H. apply Forall_forall. intros e He Hk. apply H. subst k.
    apply list_elem_of_fmap. exists e. by split; [|apply list_elem_of_In].
Qed.

Lemma lru_find_is l e : NoDup (lru_keys l) → e ∈ l → lru_find e.(e_key) l = Some e.
Proof.
  intros Hnd He. destruct (lru_find (e_key e) l) as [e'|] eqn:Hf.
  - apply lru_find_Some in Hf as [He' Hk].
    apply list_elem_of_lookup in He as [i Hi]. apply list_elem_of_lookup in He' as [j Hj].
    assert (i = j) as ->; [|congruence].
    eapply NoDup_lookup; [exact Hnd|..]; unfold lru_keys;
      rewrite list_lookup_fmap; [by rewrite Hi|by rewrite Hj; simpl; f_equal].
  - apply lru_find_None in Hf. destruct Hf. by apply list_elem_of_fmap_2.
Qed.

Lemma elem_of_lru_del k l e : e ∈ lru_del k l ↔ e.(e_key) ≠ k ∧ e ∈ l.
Proof. unfold lru_del. by rewrite list_elem_of_filter. Qed.

Lemma elem_of_removelast {A} (l : list A) x : x ∈ removelast l → x ∈ l.
Proof.
  destruct l as [|a l _] using rev_ind; [done|]. rewrite removelast_last.
  intros ?. apply elem_of_app. by left.
Qed.

Lemma lru_del_absent k l : k ∉ lru_keys l → lru_del k l = l.
Proof.
  intros Hk. unfold lru_del. induction l as [|e l IH]; [done|].
  cbn in Hk. apply not_elem_of_cons in Hk as [? Hk].
  rewrite filter_cons_True by done. by rewrite IH.
Qed.

(** ** The implementation against the specification *)

Section representation.
Context (m : Memory) (Hwf : mem_wf m).

Lemma deref_spec el :
  el ∈ m.(evictList) →
  m.(elems) !! el = Some (deref m el) ∧ m.(items) !! (deref m el).(e_key) = Some el.
Proof using All.
  intros (e & He & Hi)%(wf_elems m Hwf). unfold deref. by rewrite He.
Qed.

Lemma contents_nodup : NoDup (lru_keys (contents m)).
Proof using All.
  unfold lru_keys, contents. rewrite <-list_fmap_compose.
  assert (∀ l, (∀ el, el ∈ l → el ∈ m.(evictList)) → NoDup l →
    NoDup (compose e_key (deref m) <$> l)) as H.
  { intros l. induction l as [|el l IH]; intros Hsub Hnd; [constructor|].
    apply list.NoDup_cons in Hnd as [Hni Hnd]. cbn. apply list.NoDup_cons.
    split; [|apply IH; [|done]; intros; apply Hsub; by right].
    intros (el' & Hk & Hin)%list_elem_of_fmap. cbn in Hk.
    destruct (deref_spec el) as [_ H1]; [apply Hsub; by left|].
    destruct (deref_spec el') as [_ H2]; [apply Hsub; by right|].
    rewrite Hk in H1. congruence. }
  apply H; [done|]. apply (wf_nodup m Hwf).
Qed.

Lemma contents_find k :
  lru_find k (contents m) = el ← m.(items) !! k; m.(elems) !! el.
Proof using All.
  destruct (m.(items) !! k) as [el|] eqn:Hi; cbn.
  - destruct (wf_items m Hwf k el Hi) as (Hin & e & He & <-). rewrite He.
    apply lru_find_is; [apply contents_nodup|]. unfold contents.
    apply list_elem_of_fmap. exists el. unfold deref. by rewrite He.
  - apply lru_find_None. intros (e & -> & (el & -> & Hin)%list_elem_of_fmap)%list_elem_of_fmap.
    apply deref_spec in Hin as [_ ?]. congruence.
Qed.

Lemma remove_contents el (f : nat → entry) l :
  (∀ x, x ∈ l → x ∈ m.(evictList)) → el ∈ m.(evictList) →
  (∀ x, x ≠ el → f x = deref m x) →
  f <$> list_remove el l = lru_del (deref m el).(e_key) (deref m <$> l).
Proof using All.
  intros Hsub Hel Hf. unfold list_remove, lru_del. induction l as [|x l IH]; [done|].
  rewrite fmap_cons.
  assert (f <$> filter (λ x, x ≠ el) l =
    filter (λ e, e_key e ≠ e_key (deref m el)) (deref m <$> l)) as IH'
    by (apply IH; intros; apply Hsub; by right).
  destruct (decide (x = el)) as [->|Hne].
  - rewrite filter_cons_False by (by intros []).
    rewrite filter_cons_False by (by intros []). exact IH'.
  - rewrite filter_cons_True by done. rewrite fmap_cons, filter_cons_True.
    + by rewrite Hf, <-IH'.
    + intros Hk. destruct (deref_spec el Hel) as [_ H1].
      destruct (deref_spec x) as [_ H2]; [apply Hsub; by left|]. congruence.
Qed.

Lemma removeElement_spec el :
  el ∈ m.(evictList) →
  mem_wf (removeElement el m) ∧
  contents (removeElement el m) = lru_del (deref m el).(e_key) (contents m) ∧
  (removeElement el m).(maxEntries) = m.(maxEntries).
Proof using All.
  intros Hel. destruct (deref_spec el Hel) as [He Hi].
  unfold removeElement. rewrite He. split_and!; [split; cbn| |done].
  - apply list.NoDup_filter, Hwf.
  - intros x [Hne Hx]%list_elem_of_filter. destruct (deref_spec x Hx) as [H1 H2].
    exists (deref m x). split; [done|]. rewrite lookup_delete_ne; [done|].
    intros E. rewrite E in Hi. congruence.
  - intros k x [Hne Hx]%lookup_delete_Some. destruct (wf_items m Hwf k x Hx) as (? & e & ? & <-).
    split; [|by eauto]. apply list_elem_of_filter. split; [|done]. congruence.
  - unfold contents at 1. cbn [evictList]. by apply remove_contents.
Qed.

Lemma removeOldest_spec :
  mem_wf (removeOldest m) ∧ contents (removeOldest m) = removelast (contents m) ∧
  (removeOldest m).(maxEntries) = m.(maxEntries).
Proof using All.
  unfold removeOldest. destruct (list.last (evictList m)) as [el|] eqn:Hl.
  - apply last_Some in Hl as [l Hl].
    assert (el ∈ evictList m) as Hel by (rewrite Hl; apply elem_of_app; right; by left).
    destruct (removeElement_spec el Hel) as (? & Hc & ?). split; [done|]. split; [|done].
    rewrite Hc. pose proof contents_nodup as Hnd. unfold contents in *. rewrite Hl in *.
    rewrite fmap_app in *. cbn in *. rewrite removelast_last. unfold lru_del.
    rewrite list.filter_app, (filter_cons_False _ (deref m el)) by (by intros []).
    cbn. rewrite app_nil_r. apply lru_del_absent.
    unfold lru_keys in Hnd. rewrite fmap_app in Hnd. apply list.NoDup_app in Hnd as (_ & Hd & _).
    intros Hin. apply (Hd _ Hin). by left.
  - apply last_None in Hl. unfold contents. rewrite Hl. done.
Qed.

Lemma MoveToFront_spec el e :
  el ∈ m.(evictList) → e.(e_key) = (deref m el).(e_key) →
  let m' := mkMemory m.(maxEntries) m.(items) (MoveToFront el m.(evictList))
              (<[el := e]> m.(elems)) in
  mem_wf m' ∧ contents m' = e :: lru_del e.(e_key) (contents m).
Proof using All.
  intros Hel Hk m'. destruct (deref_spec el Hel) as [He Hi]. split; [split; cbn|].
  - apply list.NoDup_cons. split; [|apply list.NoDup_filter, Hwf].
    by intros [? _]%list_elem_of_filter.
  - intros x [->|[Hne Hx]%list_elem_of_filter]%elem_of_cons.
    + exists e. rewrite lookup_insert_eq, Hk. done.
    + destruct (deref_spec x Hx). exists (deref m x). by rewrite lookup_insert_ne.
  - intros k x Hx. destruct (wf_items m Hwf k x Hx) as (? & e0 & He0 & <-).
    destruct (decide (x = el)) as [->|Hne].
    + split; [by left|]. exists e. rewrite lookup_insert_eq. split; [done|].
      rewrite Hk. congruence.
    + split; [right; by apply list_elem_of_filter|]. exists e0. by rewrite lookup_insert_ne.
  - change (contents m') with (deref m' <$> el :: list_remove el (evictList m)).
    rewrite fmap_cons. f_equal.
    + unfold deref. cbn. by rewrite lookup_insert_eq.
    + rewrite Hk. apply remove_contents; [done..|]. intros x Hx. unfold deref. cbn.
      by rewrite lookup_insert_ne.
Qed.

Lemma PushFront_spec k e :
  m.(items) !! k = None → e.(e_key) = k →
  let el := fresh (dom m.(elems) : gset nat) in
  let m' := mkMemory m.(maxEntries) (<[k := el]> m.(items)) (el :: m.(evictList))
              (<[el := e]> m.(elems)) in
  mem_wf m' ∧ contents m' = e :: contents m.
Proof using All.
  intros Hk <- el m'.
  assert (m.(elems) !! el = None) as Hel
    by (apply (not_elem_of_dom (D := gset nat)); apply is_fresh).
  assert (∀ x, x ∈ m.(evictList) → x ≠ el) as Hne.
  { intros x Hx ->. apply deref_spec in Hx as [? _]. congruence. }
  clearbody el. split; [split; cbn|].
  - apply list.NoDup_cons. split; [|apply Hwf]. intros Hin. by apply (Hne el).
  - intros x [->|Hx]%elem_of_cons; [exists e; by rewrite !lookup_insert_eq|].
    destruct (deref_spec x Hx) as [H1 H2]. exists (deref m x).
    rewrite !lookup_insert_ne; [done| |]; [congruence|]. intros ->. by apply (Hne x).
  - intros k x [[<- <-]|[? Hx]]%lookup_insert_Some.
    + split; [by left|]. exists e. by rewrite lookup_insert_eq.
    + destruct (wf_items m Hwf k x Hx) as (Hin & e0 & He0 & <-). split; [by right|].
      exists e0. rewrite lookup_insert_ne; [done|]. intros ->. by apply (Hne x).
  - change (contents m') with (deref m' <$> el :: evictList m).
    rewrite fmap_cons. f_equal.
    + unfold deref. cbn. by rewrite lookup_insert_eq.
    + apply list_fmap_ext. intros i x Hx%list_elem_of_lookup_2. unfold deref. cbn.
      rewrite lookup_insert_ne; [done|]. intros ->. by apply (Hne x).
Qed.

(** Each operation refines its specification. *)
Lemma MemGet_spec k now :
  mem_wf (MemGet k now m).2 ∧
  (MemGet k now m).2.(maxEntries) = m.(maxEntries) ∧
  (MemGet k now m).1 = (lru_get k now (contents m)).1 ∧
  contents (MemGet k now m).2 = (lru_get k now (contents m)).2.
Proof using All.
  unfold MemGet, lru_get. rewrite contents_find.
  destruct (items m !! k) as [el|] eqn:Hi; [|done]. cbn.
  destruct (wf_items m Hwf k el Hi) as (Hin & e & He & Hk). rewrite He.
  assert (deref m el = e) as Hd by (unfold deref; by rewrite He).
  destruct (e_expiresAt e <? now).
  - destruct (removeElement_spec el Hin) as (? & Hc & ?). rewrite Hd, Hk in Hc. done.
  - destruct (MoveToFront_spec el e Hin) as [H1 H2]; [by rewrite Hd|].
    rewrite insert_id in H1, H2 by done. by rewrite <-Hk.
Qed.

End representation.

Lemma MemSet_spec m k v ttl now :
  mem_wf m →
  mem_wf (MemSet k v ttl now m) ∧
  (MemSet k v ttl now m).(maxEntries) = m.(maxEntries) ∧
  contents (MemSet k v ttl now m) = lru_set m.(maxEntries) k v ttl now (contents m).
Proof.
  intros Hwf. unfold MemSet, lru_set. rewrite contents_find by done.
  destruct (items m !! k) as [el|] eqn:Hi; cbn [mbind option_bind].
  - destruct (wf_items m Hwf k el Hi) as (Hin & e & He & Hk). rewrite He.
    destruct (MoveToFront_spec m Hwf el (mkEntry k v (now + ttl)) Hin) as [H1 H2].
    { unfold deref. by rewrite He. }
    done.
  - destruct (PushFront_spec m Hwf k (mkEntry k v (now + ttl)) Hi eq_refl) as [H1 H2].
    cbn [maxEntries evictList length]. unfold contents at 2. rewrite length_fmap.
    destruct (maxEntries m <? _); [|done].
    split_and!; [| |rewrite <-H2]; by apply (removeOldest_spec _ H1).
Qed.

Lemma NewMemory_wf max : mem_wf (NewMemory max).
Proof.
  split; cbn; [constructor|by intros ? ?%elem_of_nil|]. intros k el. by rewrite lookup_empty.
Qed.

Lemma run_mem_spec os : ∀ m,
  mem_wf m →
  mem_wf (run_mem os m).2 ∧ (run_mem os m).2.(maxEntries) = m.(maxEntries) ∧
  (run_mem os m).1 = (run_lru m.(maxEntries) os (contents m)).1 ∧
  contents (run_mem os m).2 = (run_lru m.(maxEntries) os (contents m)).2.
Proof.
  induction os as [|[k now|k v ttl now] os IH]; intros m Hwf; cbn [run_mem run_lru]; [done| |].
  - destruct (MemGet_spec m Hwf k now) as (Hw & Hm & Hv & Hc).
    destruct (MemGet k now m) as [v m']. destruct (lru_get k now (contents m)) as [v' l'].
    cbn [fst snd] in *. destruct (IH m' Hw) as (? & ? & IHv & IHc).
    rewrite Hm, Hc in *. destruct (run_mem os m') as [vs m''].
    destruct (run_lru _ os l') as [vs' l'']. cbn [fst snd] in *.
    split_and!; [done|congruence|congruence|done].
  - destruct (MemSet_spec m k v ttl now Hwf) as (Hw & Hm & Hc).
    destruct (IH _ Hw) as (? & ? & ? & ?). rewrite Hm, Hc in *. done.
Qed.

(** ** The laws of the interface *)

Definition mem_may_hold (m : Memory) (k v : string) : Prop :=
  ∃ e, e ∈ contents m ∧ e.(e_key) = k ∧ e.(e_value) = Some v.

#[global] Instance Memory_CacheLaws : CacheLaws Memory.
Proof.
  refine {| cache_wf := mem_wf; may_hold := mem_may_hold |}.
  - intros k t c Hc. apply (MemGet_spec c Hc k t).
  - intros k v ttl t c Hc. by apply MemSet_spec.
  - intros k t c v Hc Hv. cbn in Hv. destruct (MemGet_spec c Hc k t) as (_ & _ & E & _).
    rewrite E in Hv. unfold lru_get in Hv. destruct (lru_find k _) as [e|] eqn:Hf; [|done].
    apply lru_find_Some in Hf as [? ?]. destruct (_ <? _); [done|]. exists e. auto.
  - intros k t c k' v Hc (e & He & Hk & Hv). exists e. split; [|done]. revert He. cbn.
    destruct (MemGet_spec c Hc k t) as (_ & _ & _ & ->). unfold lru_get.
    destruct (lru_find k _) as [e0|] eqn:Hf; [|done]. apply lru_find_Some in Hf as [? ?].
    destruct (_ <? _); cbn.
    + by intros [_ ?]%elem_of_lru_del.
    + intros [->|[_ ?]%elem_of_lru_del]%elem_of_cons; done.
  - intros k v ttl t c k' v' Hc (e & He & Hk & Hv). revert He. cbn.
    destruct (MemSet_spec c k v ttl t Hc) as (_ & _ & ->). unfold lru_set.
    set (e0 := mkEntry k v (t + ttl)). intros He.
    assert (e = e0 ∨ e ∈ contents c) as [->|?].
    { destruct (lru_find k _); [|destruct (_ <? _); [apply elem_of_removelast in He|]];
        apply elem_of_cons in He as [?|He]; auto. by apply elem_of_lru_del in He as [_ ?]; auto. }
    + left. cbn in Hk, Hv. by subst.
    + right. exists e. auto.
Defined.

(** ** Retention *)

Definition op_key (o : cop) : string :=
  match o with CGet k _ => k | CSet k _ _ _ => k end.

(** The entry is in the cache, and everything used since is in [T]. *)
Definition kept (T : gset string) (e : entry) (m : Memory) : Prop :=
  ∃ l1 l2, contents m = l1 ++ e :: l2 ∧ ∀ k, k ∈ lru_keys l1 → k ∈ T.

Lemma NoDup_subset_length (l : list string) (T : gset string) :
  NoDup l → (∀ k, k ∈ l → k ∈ T) → (length l ≤ size T)%nat.
Proof.
  intros Hnd Hsub. rewrite <-(size_list_to_set (C := gset string) l Hnd).
  apply subseteq_size. intros k Hk%elem_of_list_to_set. auto.
Qed.

Lemma lru_del_split k l1 e l2 :
  k ≠ e.(e_key) → lru_del k (l1 ++ e :: l2) = lru_del k l1 ++ e :: lru_del k l2.
Proof.
  intros Hne. unfold lru_del. rewrite list.filter_app. f_equal. by rewrite filter_cons_True.
Qed.

Lemma lru_del_sub T k l :
  (∀ k, k ∈ lru_keys l → k ∈ T) → ∀ k', k' ∈ lru_keys (lru_del k l) → k' ∈ (T : gset string).
Proof.
  intros H k' (e & -> & [_ ?]%elem_of_lru_del)%list_elem_of_fmap. apply H.
  by apply list_elem_of_fmap_2.
Qed.

Lemma removelast_app_cons {A} (l1 l2 : list A) e :
  l2 ≠ [] → ∃ l2', removelast (l1 ++ e :: l2) = l1 ++ e :: l2'.
Proof.
  intros Hne. destruct l2 as [|x l2 _] using rev_ind; [done|]. exists l2.
  rewrite app_comm_cons, app_assoc. apply removelast_last.
Qed.

Lemma kept_Get T e m k now :
  mem_wf m → k ≠ e.(e_key) → k ∈ T → kept T e m → kept T e (MemGet k now m).2.
Proof.
  intros Hwf Hne HT (l1 & l2 & Hl & Hs). unfold kept.
  destruct (MemGet_spec m Hwf k now) as (_ & _ & _ & ->). rewrite Hl. unfold lru_get.
  destruct (lru_find k _) as [e'|] eqn:Hf; cbn; [|by eauto].
  apply lru_find_Some in Hf as [_ Hk']. rewrite lru_del_split by done.
  destruct (_ <? now); cbn.
  - eexists _, _. split; [done|]. eauto using lru_del_sub.
  - exists (e' :: lru_del k l1), (lru_del k l2). split; [done|].
    intros k0 [->|?]%elem_of_cons; [by rewrite Hk'|]. eauto using lru_del_sub.
Qed.

Lemma kept_Set T e m k v ttl now :
  mem_wf m → k ≠ e.(e_key) → k ∈ T → Z.of_nat (size T) < m.(maxEntries) →
  kept T e m → kept T e (MemSet k v ttl now m).
Proof.
  intros Hwf Hne HT Hsz (l1 & l2 & Hl & Hs). unfold kept.
  destruct (MemSet_spec m k v ttl now Hwf) as (_ & _ & ->).
  pose proof (contents_nodup m Hwf) as Hnd. rewrite Hl in *. unfold lru_set.
  set (e0 := mkEntry k v (now + ttl)).
  assert (∀ k0, k0 ∈ lru_keys (e0 :: l1) → k0 ∈ T) as Hs'
    by (intros k0 [->|?]%elem_of_cons; auto).
  destruct (lru_find k (l1 ++ e :: l2)) as [e'|] eqn:Hf.
  - rewrite lru_del_split by done. exists (e0 :: lru_del k l1), (lru_del k l2). split; [done|].
    intros k0 [->|?]%elem_of_cons; [done|]. eauto using lru_del_sub.
  - destruct (Z.ltb_spec (maxEntries m) (Z.of_nat (S (length (l1 ++ e :: l2))))) as [Hlt|?].
    + destruct (decide (l2 = [])) as [->|Hl2].
      * apply lru_find_None in Hf. exfalso.
        assert (length (lru_keys (e0 :: l1)) ≤ size T)%nat as Hlen.
        { apply NoDup_subset_length; [|done]. unfold lru_keys in *. rewrite fmap_app in *.
          cbn. apply list.NoDup_cons. rewrite elem_of_app in Hf.
          apply list.NoDup_app in Hnd as (? & _). auto. }
        unfold lru_keys in Hlen. rewrite length_fmap in Hlen. cbn in Hlen.
        rewrite length_app in Hlt. cbn in Hlt. lia.
      * destruct (removelast_app_cons (e0 :: l1) l2 e Hl2) as [l2' E].
        exists (e0 :: l1), l2'. split; [exact E|done].
    + exists (e0 :: l1), l2. done.
Qed.

Lemma kept_run T e os : ∀ m,
  mem_wf m → (∀ o, o ∈ os → op_key o ≠ e.(e_key) ∧ op_key o ∈ T) →
  Z.of_nat (size T) < m.(maxEntries) → kept T e m → kept T e (run_mem os m).2.
Proof.
  induction os as [|o os IH]; intros m Hwf Hos Hsz Hk; [done|].
  destruct (Hos o) as [Ho1 Ho2]; [by left|].
  assert (∀ o, o ∈ os → op_key o ≠ e_key e ∧ op_key o ∈ T) as Hos'
    by (intros; apply Hos; by right).
  destruct o as [k now|k v ttl now]; cbn [run_mem op_key] in *.
  - destruct (MemGet_spec m Hwf k now) as (Hw & Hm & _).
    pose proof (kept_Get T e m k now Hwf Ho1 Ho2 Hk) as Hk'.
    destruct (MemGet k now m) as [v m']. cbn [snd] in *.
    specialize (IH m' Hw Hos' ltac:(lia) Hk'). by destruct (run_mem os m').
  - destruct (MemSet_spec m k v ttl now Hwf) as (Hw & Hm & _).
    apply IH; [done..|lia|]. by apply kept_Set.
Qed.

(** ** Theorems *)

(** C22. The pointer structure implements the LRU list: from an empty cache,
    every sequence of operations returns what the list specification returns
    and leaves the list in the same order. *)
Theorem Memory_refines_lru max os :
  (run_mem os (NewMemory max)).1 = (run_lru max os []).1 ∧
  contents (run_mem os (NewMemory max)).2 = (run_lru max os []).2.
Proof.
  destruct (run_mem_spec os (NewMemory max) (NewMemory_wf max)) as (_ & _ & H1 & H2).
  by rewrite H1, H2.
Qed.

Lemma length_removelast {A} (l : list A) : length (removelast l) = (length l - 1)%nat.
Proof.
  destruct l as [|x l _] using rev_ind; [done|]. rewrite removelast_last, length_app. cbn. lia.
Qed.

Lemma lru_del_shorter k l e : lru_find k l = Some e → (length (lru_del k l) < length l)%nat.
Proof.
  intros [He Hk]%lru_find_Some. unfold lru_del. eapply length_filter_lt; [done|]. by intros [].
Qed.

Lemma run_lru_length max os : ∀ l,
  Z.of_nat (length l) <= Z.max 0 max →
  Z.of_nat (length (run_lru max os l).2) <= Z.max 0 max.
Proof.
  induction os as [|[k now|k v ttl now] os IH]; intros l Hl; cbn [run_lru]; [done| |].
  - assert (Z.of_nat (length (lru_get k now l).2) <= Z.max 0 max) as Hg.
    { unfold lru_get. destruct (lru_find k l) as [e|] eqn:Hf; [|done].
      pose proof (lru_del_shorter k l e Hf). destruct (_ <? _); cbn; lia. }
    destruct (lru_get k now l) as [v l']. specialize (IH l' Hg). by destruct (run_lru max os l').
  - apply IH. unfold lru_set. destruct (lru_find k l) as [e|] eqn:Hf; cbn [length].
    + pose proof (lru_del_shorter k l e Hf). lia.
    + destruct (Z.ltb_spec max (Z.of_nat (S (length l)))); [rewrite length_removelast|];
        cbn [length]; lia.
Qed.

(** The cache never holds more than [maxEntries] entries (none, if that is
    not positive). *)
Theorem Memory_bounded max os :
  Len (run_mem os (NewMemory max)).2 <= Z.max 0 max.
Proof.
  destruct (run_mem_spec os (NewMemory max) (NewMemory_wf max)) as (_ & _ & _ & H2).
  cbn. unfold MemLen. rewrite <-(length_fmap (deref (run_mem os (NewMemory max)).2)).
  fold (contents (run_mem os (NewMemory max)).2). rewrite H2. apply run_lru_length. cbn. lia.
Qed.

(** Least recently used goes first.  A value that was set is returned, until
    it expires, as long as fewer than [maxEntries] other keys have been used
    since. *)
Theorem Memory_retains max os1 os2 k v ttl t0 t (T : gset string) :
  (∀ o, o ∈ os2 → op_key o ≠ k ∧ op_key o ∈ T) → Z.of_nat (size T) < max → t <= t0 + ttl →
  (MemGet k t (run_mem (os1 ++ CSet k v ttl t0 :: os2) (NewMemory max)).2).1 = v.
Proof.
  intros Hos Hsz Ht.
  assert (∀ a b m, (run_mem (a ++ b) m).2 = (run_mem b (run_mem a m).2).2) as Happ.
  { intros a b. induction a as [|[k' now|k' v' ttl' now] a IH]; intros m; cbn; [done| |apply IH].
    destruct (MemGet k' now m) as [v' m']. specialize (IH m').
    by destruct (run_mem (a ++ b) m'), (run_mem a m'). }
  rewrite Happ. cbn [run_mem].
  destruct (run_mem_spec os1 (NewMemory max) (NewMemory_wf max)) as (Hw & Hm & _).
  set (m1 := (run_mem os1 (NewMemory max)).2) in *. cbn in Hm.
  destruct (MemSet_spec m1 k v ttl t0 Hw) as (Hw2 & Hm2 & Hc2).
  set (m2 := MemSet k v ttl t0 m1) in *. set (e := mkEntry k v (t0 + ttl)).
  assert (kept T e m2) as Hk2.
  { exists [], (tail (contents m2)). split; [|by intros ? ?%elem_of_nil]. rewrite Hc2.
    unfold lru_set. fold e. destruct (lru_find k _); [done|].
    destruct (Z.ltb_spec (maxEntries m1) (Z.of_nat (S (length (contents m1))))); [|done].
    destruct (contents m1); [cbn in *; lia|done]. }
  assert (kept T e (run_mem os2 m2).2) as (l1 & l2 & Hl & _)
    by (apply kept_run; [done|done|lia|done]).
  destruct (run_mem_spec os2 m2 Hw2) as (Hw3 & _).
  destruct (MemGet_spec _ Hw3 k t) as (_ & _ & -> & _).
  unfold lru_get. change k with (e_key e).
  rewrite lru_find_is; [| |rewrite Hl; apply elem_of_app; right; by left].
  - cbn. destruct (Z.ltb_spec (t0 + ttl) t); [lia|done].
  - by apply contents_nodup.
Qed.

Lemma Memory_retains_witness :
  (MemGet "a" 50 (run_mem ([CSet "z" (Some "0") 100 0] ++ CSet "a" (Some "1") 100 1 ::
     [CSet "b" (Some "2") 100 2; CGet "b" 3; CSet "c" (Some "3") 100 4; CGet "b" 5])
     (NewMemory 3)).2).1 = Some "1".
Proof.
  apply (Memory_retains 3 [CSet "z" (Some "0") 100 0]
    [CSet "b" (Some "2") 100 2; CGet "b" 3; CSet "c" (Some "3") 100 4; CGet "b" 5]
    "a" (Some "1") 100 1 50 {["b"; "c"]}).
  - intros o Ho. rewrite !elem_of_cons in Ho. set_solver.
  - vm_compute. reflexivity.
  - lia.
Defined.
