(* ===== verification/Redis.v ===== *)
(** * The Redis cache (internal/cache/redis.go)

    The other implementation of the cache interface, over a server that is a
    parameter.  What the server promises is what the cache promises its clients,
    for the keys with the cache's prefix. *)
From S2P Require Import Prelude MemoryCache.

(** ** The server *)

(** The commands of the client: an answer that is missing or an error is [None];
    the error of [SET] is not looked at. *)
Class RedisServer (R : Type) := {
  Ping : R → bool * R;
  GET : string → Z → R → option string * R;
  SET : string → string → Z → Z → R → R;
  DBSize : R → option Z
}.

(** [holds r k v]: a later [GET] of [k] may answer [v].  A server answers what was
    set, if it answers. *)
Class RedisLaws (R : Type) `{RedisServer R} := {
  holds : R → string → string → Prop;
  GET_holds k t r v : (GET k t r).1 = Some v → holds r k v;
  GET_keeps k t r k' v : holds (GET k t r).2 k' v → holds r k' v;
  SET_keeps k v ttl t r k' v' : holds (SET k v ttl t r) k' v' → (k' = k ∧ v' = v) ∨ holds r k' v'
}.

(** ** The cache *)

Record Redis (R : Type) := mkRedis {
  client : R;
  keyPrefix : string
}.
#[global] Arguments mkRedis {R}.
#[global] Arguments client {R}.
#[global] Arguments keyPrefix {R}.

Section redis.
Context {R : Type} `{RedisServer R}.

(** [dial] is the client for an address, a password and a database; [None] is the
    error of a server that does not answer. *)
Definition NewRedis (dial : string → string → Z → R) (addr password : string) (db : Z) (prefix : string)
  : option (Redis R) :=
  let '(ok, c) := Ping (dial addr password db) in
  if (ok : bool) then Some (mkRedis c prefix) else None.

Definition RedisGet (key : string) (now : Z) (r : Redis R) : slice * Redis R :=
  let '(val, c) := GET (r.(keyPrefix) +:+ key) now r.(client) in (val, mkRedis c r.(keyPrefix)).

Definition RedisSet (key : string) (value : slice) (ttl now : Z) (r : Redis R) : Redis R :=
  mkRedis (SET (r.(keyPrefix) +:+ key) (bytes_of value) ttl now r.(client)) r.(keyPrefix).

Definition RedisLen (r : Redis R) : Z := default 0 (DBSize r.(client)).

#[global] Instance Redis_Cache : Cache (Redis R) := {| Get := RedisGet; Set_ := RedisSet; Len := RedisLen |}.

(** The cache keeps the interface's laws under its prefix. *)
#[global] Instance Redis_CacheLaws `{!RedisLaws R} : CacheLaws (Redis R).
Proof.
  refine {| cache_wf := λ _, True; may_hold := λ c k v, holds c.(client) (c.(keyPrefix) +:+ k) v |}; try done.
  - intros k t c v _. cbn. unfold RedisGet. pose proof (GET_holds (keyPrefix c +:+ k) t (client c)) as Hh.
    destruct (GET _ t (client c)) as [val c']. cbn in *. by intros ->; apply Hh.
  - intros k t c k' v _. cbn. unfold RedisGet. pose proof (GET_keeps (keyPrefix c +:+ k) t (client c)) as Hk.
    destruct (GET _ t (client c)) as [val c']. cbn in *. apply Hk.
  - intros k v ttl t c k' v' _. cbn. intros [[E ->]|Hh]%SET_keeps; [|by right]. left. by apply str_app_inj_l in E.
Defined.

(** Caches with prefixes of which neither continues the other do not see each
    other's entries. *)
Lemma redis_disjoint `{!RedisLaws R} (c : Redis R) other key value ttl now k v :
  (∀ x y, other +:+ x ≠ c.(keyPrefix) +:+ y) →
  may_hold (mkRedis (RedisSet key value ttl now (mkRedis c.(client) other)).(client) c.(keyPrefix)) k v → may_hold c k v.
Proof. intros Hd. cbn. intros [[E _]|Hh]%SET_keeps; [by destruct (Hd key k)|done]. Qed.
End redis.

(** ** A server that is a map with expiry *)

#[global] Instance map_server : RedisServer (gmap string (string * Z)) := {|
  Ping r := (true, r);
  GET k now r := (match r !! k with Some (v, exp) => if (exp =? 0) || (now <? exp) then Some v else None | None => None end, r);
  SET k v ttl now r := <[k := (v, if 0 <? ttl then now + ttl else 0)]> r;
  DBSize r := Some (Z.of_nat (size r))
|}.

#[global] Instance map_server_laws : RedisLaws (gmap string (string * Z)).
Proof.
  refine {| holds r k v := ∃ exp, r !! k = Some (v, exp) |}.
  - intros k t r v. cbn. destruct (r !! k) as [[v' exp]|]; [|done]. case_match; [|done]. intros [= ->]. by exists exp.
  - by intros k t r k' v.
  - intros k v ttl t r k' v' [exp E]. cbn in E. rewrite lookup_insert in E. case_decide; [simplify_eq; by left|].
    right. by exists exp.
Defined.

Example redis_example :
  let c := mkRedis (∅ : gmap string (string * Z)) "butter:" in
  let c := RedisSet "k" (Some "v") 10 100 c in
  ((RedisGet "k" 105 c).1, (RedisGet "k" 111 c).1, (RedisGet "x" 105 c).1, RedisLen c) = (Some "v", None, None, 1).
Proof. vm_compute. reflexivity. Qed.
