(* ===== verification/CacheKey.v ===== *)
(** * Cache keys (internal/cache/key.go)

    Which requests are cached, and the key a request is cached under: the
    SHA-256 of the provider and of six request fields in canonical form.

    crypto/sha256 and encoding/hex are written out.  The text encoding/json
    gives a number read into an [any], that is strconv's shortest decimal of the
    nearest float64, is a parameter. *)
From S2P Require Import Prelude GoStd Json.

(** ** SHA-256 *)

Definition two32 : Z := 4294967296.
Definition add32 (a b : Z) : Z := (a + b) mod two32.
Definition rotr (n x : Z) : Z :=
  Z.lor (Z.shiftr x n) ((Z.shiftl x (32 - n)) mod two32).

Definition sha_k : list Z :=
  [1116352408; 1899447441; 3049323471; 3921009573; 961987163; 1508970993;
   2453635748; 2870763221; 3624381080; 310598401; 607225278; 1426881987;
   1925078388; 2162078206; 2614888103; 3248222580; 3835390401; 4022224774;
   264347078; 604807628; 770255983; 1249150122; 1555081692; 1996064986;
   2554220882; 2821834349; 2952996808; 3210313671; 3336571891; 3584528711;
   113926993; 338241895; 666307205; 773529912; 1294757372; 1396182291;
   1695183700; 1986661051; 2177026350; 2456956037; 2730485921; 2820302411;
   3259730800; 3345764771; 3516065817; 3600352804; 4094571909; 275423344;
   430227734; 506948616; 659060556; 883997877; 958139571; 1322822218;
   1537002063; 1747873779; 1955562222; 2024104815; 2227730452; 2361852424;
   2428436474; 2756734187; 3204031479; 3329325298].

Definition sha_h0 : list Z :=
  [1779033703; 3144134277; 1013904242; 2773480762; 1359893119; 2600822924;
   528734635; 1541459225].

(** The padded message: the bytes, 0x80, zeros up to 56 modulo 64, and the length
    in bits on 8 bytes, big endian. *)
Definition be_bytes (n : nat) (z : Z) : list Z :=
  (λ i, (z / 256 ^ Z.of_nat i) mod 256) <$> reverse (seq 0 n).

Definition sha_pad (msg : list Z) : list Z :=
  let len := Z.of_nat (length msg) in
  let zeros := Z.to_nat ((55 - len) mod 64) in
  msg ++ [128] ++ replicate zeros 0 ++ be_bytes 8 (8 * len mod two64).

Fixpoint words_of (bs : list Z) : list Z :=
  match bs with
  | a :: b :: c :: d :: r => (((a * 256 + b) * 256 + c) * 256 + d) :: words_of r
  | _ => []
  end.

(** The message schedule, newest word first. *)
Fixpoint schedule (n : nat) (w : list Z) : list Z :=
  match n with
  | O => w
  | S n' =>
    let at_ i := default 0 (w !! Z.to_nat (i - 1)) in
    let s0 := Z.lxor (Z.lxor (rotr 7 (at_ 15)) (rotr 18 (at_ 15))) (Z.shiftr (at_ 15) 3) in
    let s1 := Z.lxor (Z.lxor (rotr 17 (at_ 2)) (rotr 19 (at_ 2))) (Z.shiftr (at_ 2) 10) in
    schedule n' (add32 (add32 (at_ 16) s0) (add32 (at_ 7) s1) :: w)
  end.

Definition sha_round (st : list Z) (kw : Z * Z) : list Z :=
  match st with
  | [a; b; c; d; e; f; g; h] =>
    let s1 := Z.lxor (Z.lxor (rotr 6 e) (rotr 11 e)) (rotr 25 e) in
    let ch := Z.lxor (Z.land e f) (Z.land (two32 - 1 - e) g) in
    let t1 := add32 (add32 (add32 h s1) (add32 ch kw.1)) kw.2 in
    let s0 := Z.lxor (Z.lxor (rotr 2 a) (rotr 13 a)) (rotr 22 a) in
    let maj := Z.lxor (Z.lxor (Z.land a b) (Z.land a c)) (Z.land b c) in
    [add32 t1 (add32 s0 maj); a; b; c; add32 d t1; e; f; g]
  | _ => st
  end.

Definition sha_block (st : list Z) (block : list Z) : list Z :=
  let w := reverse (schedule 48 (reverse (words_of block))) in
  zip_with add32 st (foldl sha_round st (zip sha_k w)).

Fixpoint sha_blocks (fuel : nat) (st bs : list Z) : list Z :=
  match fuel with
  | O => st
  | S fuel' =>
    match bs with
    | [] => st
    | _ => sha_blocks fuel' (sha_block st (take 64 bs)) (drop 64 bs)
    end
  end.

Fixpoint str_codes (s : string) : list Z :=
  match s with EmptyString => [] | String c s' => code c :: str_codes s' end.

Definition sha256 (s : string) : list Z :=
  let bs := sha_pad (str_codes s) in
  sha_blocks (length bs) sha_h0 bs ≫= be_bytes 4.

(** [hex.EncodeToString]. *)
Fixpoint hex_encode (bs : list Z) : string :=
  match bs with
  | [] => ""
  | b :: r => String (hex_digit (b / 16)) (String (hex_digit (b mod 16)) (hex_encode r))
  end.

(** ** Canonical JSON *)

(** The text encoding/json writes for the float64 nearest to a number literal;
    [None] when the literal is out of range. *)
Class Strconv := { format_float : string → option string }.

(** A value of type [any].  A [map[string]any] is its entries in key order. *)
#[warnings="-register-all"] Inductive anyv : Type :=
| ANull
| ABool (b : bool)
| ANum (text : string)
| AStr (s : string)
| AArr (l : list anyv)
| AMap (l : list (string * anyv)).

Fixpoint map_set (k : string) (v : anyv) (l : list (string * anyv))
  : list (string * anyv) :=
  match l with
  | [] => [(k, v)]
  | (k', v') :: l' =>
    match String.compare k k' with
    | Lt => (k, v) :: l
    | Eq => (k, v) :: l'
    | Gt => (k', v') :: map_set k v l'
    end
  end.

Section cache_key.
Context `{Strconv}.

(** [json.Unmarshal(data, &v)] for [v any]. *)
Fixpoint decode_any (j : json) : option anyv :=
  match j with
  | JNull => Some ANull
  | JBool b => Some (ABool b)
  | JNum lit => ANum <$> format_float lit
  | JStr raw => Some (AStr (unquote raw))
  | JArr l =>
    AArr <$> (fix go l :=
      match l with
      | [] => Some []
      | x :: l' => v ← decode_any x; vs ← go l'; Some (v :: vs)
      end) l
  | JObj ms =>
    AMap <$> (fix go acc ms :=
      match ms with
      | [] => Some acc
      | (key, _, x) :: ms' => v ← decode_any x; go (map_set (unquote key) v acc) ms'
      end) [] ms
  end.

Fixpoint sortKeys (v : anyv) : anyv :=
  match v with
  | AMap l =>
    AMap ((fix go acc l :=
      match l with
      | [] => acc
      | (k, x) :: l' => go (map_set k (sortKeys x) acc) l'
      end) [] l)
  | AArr l => AArr ((fix go l := match l with [] => [] | x :: l' => sortKeys x :: go l' end) l)
  | _ => v
  end.

(** [json.Marshal(v)]. *)
Fixpoint encode_any (v : anyv) : string :=
  match v with
  | ANull => "null"
  | ABool b => if b then "true" else "false"
  | ANum t => t
  | AStr s => encode_string s
  | AArr l =>
    String "[" (Join ((fix go l := match l with [] => [] | x :: l' => encode_any x :: go l' end) l)
      "," +:+ "]")
  | AMap l =>
    String "{" (Join ((fix go l := match l with
      | [] => []
      | (k, x) :: l' => (encode_string k +:+ String ":" (encode_any x)) :: go l'
      end) l) "," +:+ "}")
  end.

Definition compactJSON (data : string) : option string :=
  j ← parse data; v ← decode_any j; Some (encode_any (sortKeys v)).

(** ** The key *)

Definition nul : string := String (byte_of 0) "".

Definition cacheFields : list string :=
  ["max_tokens"; "messages"; "model"; "stop"; "temperature"; "top_p"].

Definition hashBytes (provider data : string) : string :=
  hex_encode (sha256 (provider +:+ nul +:+ data)).

Definition field_text (raw : string) : string := default raw (compactJSON raw).

(** What one field adds to the hash. *)
Definition field_chunk (parsed : gmap string string) (f : string) : string :=
  match parsed !! f with
  | None => ""
  | Some v => f +:+ nul +:+ field_text v +:+ nul
  end.

(** The bytes written to the hash for a body that decodes to a map (the nil map
    has no fields). *)
Definition key_input (provider : string) (parsed : option (gmap string string)) : string :=
  provider +:+ nul +:+ String.concat "" (field_chunk (default ∅ parsed) <$> cacheFields).

Definition DeriveKey (provider rawBody : string) : string :=
  match Unmarshal dec_rawmap rawBody None with
  | (_, false) => hashBytes provider rawBody
  | (parsed, true) => hex_encode (sha256 (key_input provider parsed))
  end.
End cache_key.

(** ** Which requests are cached *)

(** A number literal as mantissa and decimal exponent. *)
Definition number_parts (lit : string) : Z * Z :=
  let body := match lit with
              | String c r => if code c =? 45 then r else lit
              | EmptyString => ""
              end in
  let '(i, r1) := span_digits body in
  let '(f, r2) := match r1 with
                  | String c r => if code c =? 46 then span_digits r else ("", r1)
                  | EmptyString => ("", "")
                  end in
  let e := match r2 with
           | String _ (String g r) =>
             if code g =? 45 then - digits_val 0 r
             else if code g =? 43 then digits_val 0 r else digits_val 0 (String g r)
           | _ => 0
           end in
  (digits_val 0 (i +:+ f), e - Z.of_nat (String.length f)).

Inductive float_class := FZero | FNonzero | FRange.

(** [strconv.ParseFloat(lit, 64)]: zero, another float, or out of range.  A value
    of at most half the least subnormal rounds to zero; one that is at least half
    a unit above the greatest float is out of range. *)
Definition classify (lit : string) : float_class :=
  let '(m, e) := number_parts lit in
  let num := m * 10 ^ Z.max 0 e in
  let den := 10 ^ Z.max 0 (- e) in
  if num * 2 ^ 1075 <=? den then FZero
  else if (2 ^ 1024 - 2 ^ 970) * den <=? num then FRange
  else FNonzero.

Definition dec_float_class : dec float_class := λ j _ t,
  match j with
  | JNull => (t, true)
  | JNum lit => match classify lit with FRange => (t, false) | c => (c, true) end
  | _ => (t, false)
  end.

Record partial := mkPartial {
  p_Stream : bool;
  p_Temperature : option float_class
}.

Definition dec_partial : dec partial :=
  dec_struct
    [("stream", field p_Stream (λ v p, mkPartial v p.(p_Temperature)) dec_bool);
     ("temperature", field p_Temperature (λ v p, mkPartial p.(p_Stream) v)
                       (dec_ptr FZero dec_float_class))].

Definition IsCacheable (rawBody : string) : bool :=
  match Unmarshal dec_partial rawBody (mkPartial false None) with
  | (_, false) => false
  | (p, true) =>
    if p.(p_Stream) then false
    else match p.(p_Temperature) with
         | Some FNonzero | Some FRange => false
         | _ => true
         end
  end.

Example sha256_abc : hex_encode (sha256 "abc") =
  "ba7816bf8f01cfea414140de5dae2223b00361a396177a9cb410ff61f20015ad".
Proof. vm_compute. reflexivity. Qed.

Example sha256_long : hex_encode (sha256 "abcdbcdecdefdefgefghfghighijhijkijkljklmklmnlmnomnopnopq") =
  "248d6a61d20638b8e5c026930c3e6039a33ce45964ff2167f6ecedd419db06c1".
Proof. vm_compute. reflexivity. Qed.

Example IsCacheable_examples :
  (IsCacheable (dq "{'model':'m','temperature':0}"), IsCacheable (dq "{'temperature':1e-400}"),
   IsCacheable (dq "{'temperature':0.7}"), IsCacheable (dq "{'stream':true}"),
   IsCacheable "[]", IsCacheable "{}")
  = (true, true, false, false, false, true).
Proof. vm_compute. reflexivity. Qed.

(** ** No text that is hashed holds a NUL byte *)

Definition no_nul (c : ascii) : bool := 0 <? code c.
Abbreviation clean s := (str_forallb no_nul s = true).

Lemma clean_app s t : clean s → clean t → clean (s +:+ t).
Proof. intros H1 H2. by rewrite str_forallb_app, H1, H2. Qed.

Lemma clean_app_inv s t : clean (s +:+ t) → clean s ∧ clean t.
Proof. rewrite str_forallb_app. apply andb_prop. Qed.

Lemma no_nul_pos c : 0 < code c → no_nul c = true.
Proof. unfold no_nul. lia. Qed.

Lemma clean_cons c t : 0 < code c → clean t → clean (String c t).
Proof. intros Hc Ht. cbn. by rewrite no_nul_pos, Ht. Qed.

Lemma clean_hex_digit z : 0 <= z < 16 → no_nul (hex_digit z) = true.
Proof.
  intros Hz. apply no_nul_pos. unfold hex_digit.
  destruct (Z.ltb_spec z 10); rewrite code_byte_of; lia.
Qed.

Lemma clean_u_escape c : clean (u_escape c).
Proof.
  unfold u_escape. cbn. pose proof (code_range c).
  rewrite !clean_hex_digit; [done|apply Z.mod_pos_bound; lia|].
  split; [apply Z.div_pos; lia|apply Z.div_lt_upper_bound; lia].
Qed.

(** The bytes of a multi-byte rune are not ASCII. *)
Lemma DecodeRune_bytes s : (2 ≤ (DecodeRune s).2)%nat → clean (str_take (DecodeRune s).2 s).
Proof.
  destruct s as [|c0 s]; cbn [DecodeRune]; [cbn; lia|].
  destruct (Z.ltb_spec (code c0) 128); [cbn; lia|].
  destruct (utf8_first (code c0)) as [[[n lo] hi]|] eqn:E; [|destruct s; cbn; lia].
  apply utf8_first_range in E. destruct s as [|c1 s]; [cbn; lia|].
  unfold in_range. unfold no_nul. destruct ((lo <=? code c1) && (code c1 <=? hi)) eqn:E1; [|cbn; lia].
  cbn [negb]. destruct (n =? 2); [cbn; lia|]. destruct s as [|c2 s]; [cbn; lia|].
  destruct ((128 <=? code c2) && (code c2 <=? 191)) eqn:E2; [|cbn; lia]. cbn [negb].
  destruct (n =? 3); [cbn; lia|]. destruct s as [|c3 s]; [cbn; lia|].
  destruct ((128 <=? code c3) && (code c3 <=? 191)) eqn:E3; cbn; lia.
Qed.

Lemma DecodeRune_error_width s :
  s ≠ "" → 128 <= (DecodeRune s).1 → (DecodeRune s).2 = 1%nat → (DecodeRune s).1 = rune_error.
Proof.
  destruct s as [|c s]; [done|]. intros _. cbn [DecodeRune].
  destruct (Z.ltb_spec (code c) 128); [cbn; lia|]. repeat case_match; cbn; lia.
Qed.

Lemma clean_encode_fuel n : ∀ s, clean (encode_fuel n s).
Proof.
  induction n as [|n IH]; intros [|c s]; try done. cbn [encode_fuel].
  destruct (Z.ltb_spec (code c) 128) as [Hc|Hc].
  - apply clean_app; [|done].
    destruct ((code c =? 34) || (code c =? 92)) eqn:E1;
      [apply clean_cons; [done|]; apply clean_cons; [lia|done]|].
    repeat (case_match; [done|]). destruct ((code c <? 32) || is_html c) eqn:E2;
      [apply clean_u_escape|]. apply clean_cons; [lia|done].
  - pose proof (DecodeRune_non_ascii c s Hc) as Hr.
    pose proof (DecodeRune_bytes (String c s)) as Hb.
    pose proof (DecodeRune_width (String c s) ltac:(done)) as Hw.
    pose proof (DecodeRune_error_width (String c s) ltac:(done) Hr) as He.
    destruct (DecodeRune (String c s)) as [rn k]. cbn [fst snd] in *.
    destruct ((rn =? rune_error) && (k =? 1)%nat) eqn:E; [by apply clean_app|].
    repeat (case_match; [by apply clean_app|]). apply clean_app; [|done]. apply Hb.
    destruct (Nat.eqb_spec k 1) as [->|?]; [|lia]. rewrite He in E by done.
    by rewrite Z.eqb_refl in E.
Qed.

Lemma clean_encode_string s : clean (encode_string s).
Proof. unfold encode_string. cbn. apply clean_app; [apply clean_encode_fuel|done]. Qed.

Lemma clean_Join l sep : Forall (λ s, clean s) l → clean sep → clean (Join l sep).
Proof.
  intros Hl Hs. unfold Join. induction Hl as [|s l Hcs Hl IH]; [done|]. cbn.
  destruct l; [done|]. by apply clean_app, clean_app.
Qed.

(** ** What the parser consumes *)

Lemma skip_ws_clean s : ∃ w, s = w +:+ skip_ws s ∧ clean w.
Proof.
  induction s as [|c s (w & Hw & Hc)]; [by exists ""|]. cbn [skip_ws].
  destruct (is_json_space c) eqn:E; [|by exists ""]. exists (String c w). cbn.
  rewrite <-Hw. split; [done|]. rewrite Hc. unfold is_json_space in E. unfold no_nul. lia.
Qed.

Lemma scan_string_clean s : ∀ raw rest, scan_string s = Some (raw, rest) →
  s = raw +:+ String c_quote rest ∧ clean raw.
Proof.
  induction s as [s IH] using str_len_ind. intros raw rest.
  destruct s as [|c s]; cbn [scan_string]; [done|]. intros Hs.
  destruct (Z.eqb_spec (code c) 34) as [Hc|Hc].
  { simplify_eq/=. split; [|done]. f_equal. unfold c_quote, byte_of, code in *.
    rewrite <-(ascii_N_embedding c). f_equal. lia. }
  destruct (Z.eqb_spec (code c) 92) as [Hb|Hb].
  - destruct s as [|e s]; [done|]. destruct (is_simple_escape e) eqn:He.
    { apply bind_Some in Hs as ([raw' rest'] & Hs & ?). simplify_eq.
      apply IH in Hs as [-> Hcl]; [|cbn; lia]. split; [done|]. cbn. rewrite Hcl.
      unfold is_simple_escape in He. cbn in He. unfold no_nul. lia. }
    destruct (Z.eqb_spec (code e) 117); [|done].
    destruct s as [|h1 [|h2 [|h3 [|h4 s]]]]; try done.
    destruct (is_hex h1 && is_hex h2 && is_hex h3 && is_hex h4) eqn:Hh; [|done].
    apply bind_Some in Hs as ([raw' rest'] & Hs & ?). simplify_eq.
    apply IH in Hs as [-> Hcl]; [|cbn; lia]. split; [done|]. cbn. rewrite Hcl.
    unfold is_hex, is_digit, in_range in Hh. unfold no_nul. lia.
  - destruct (Z.ltb_spec (code c) 32); [done|].
    apply bind_Some in Hs as ([raw' rest'] & Hs & ?). simplify_eq.
    apply IH in Hs as [-> Hcl]; [|cbn; lia]. split; [done|]. cbn. rewrite Hcl.
    unfold no_nul. lia.
Qed.

(** The raw texts of an object's members. *)
Definition raws_clean (v : json) : Prop :=
  match v with
  | JObj ms => ∀ k raw x, (k, raw, x) ∈ ms → clean raw
  | _ => True
  end.

Definition value_clean f := ∀ d s v r, parse_value f d s = Some (v, r) →
  raws_clean v ∧ ∃ t, s = t +:+ r ∧ clean t.
Definition elems_clean f := ∀ d s vs r, parse_elems f d s = Some (vs, r) →
  ∃ t, s = t +:+ r ∧ clean t.
Definition members_clean f := ∀ d s ms r, parse_members f d s = Some (ms, r) →
  raws_clean (JObj ms) ∧ ∃ t, s = t +:+ r ∧ clean t.

(** Past whitespace and one visible byte. *)
Lemma skip_ws_cons s c r : skip_ws s = String c r → 0 < code c →
  ∃ t, s = t +:+ r ∧ clean t.
Proof.
  intros E Hc. destruct (skip_ws_clean s) as (w & Hw & Hcl). rewrite E in Hw.
  exists (w +:+ String c ""). split; [by rewrite str_app_assoc|].
  apply clean_app; [done|]. by apply clean_cons.
Qed.

Lemma value_clean_S f : elems_clean f → members_clean f → value_clean (S f).
Proof.
  intros IHe IHm d s v r. destruct s as [|c s]; [done|]. cbn [parse_value].
  destruct (Z.eqb_spec (code c) 34) as [Hq|Hq].
  { intros ([raw rest] & [-> Hcl]%scan_string_clean & ?)%bind_Some. simplify_eq. split; [done|].
    exists (String c (raw +:+ String c_quote "")). cbn. rewrite str_app_assoc. split; [done|].
    apply clean_cons; [lia|]. by apply clean_app. }
  destruct (Z.eqb_spec (code c) 123) as [Ho|Ho].
  { destruct (max_depth <=? d); [done|]. destruct (skip_ws s) as [|e r'] eqn:E; [done|].
    destruct (Z.eqb_spec (code e) 125) as [He|He].
    - intros [= <- <-]. split; [by intros ??? ?%elem_of_nil|].
      apply skip_ws_cons in E as (t & -> & ?); [|lia]. exists (String c t).
      split; [done|]. apply clean_cons; [lia|done].
    - intros ([ms rest] & [? (t & -> & ?)]%IHm & ?)%bind_Some. simplify_eq.
      split; [done|]. exists (String c t). split; [done|]. apply clean_cons; [lia|done]. }
  destruct (Z.eqb_spec (code c) 91) as [Ha|Ha].
  { destruct (max_depth <=? d); [done|]. destruct (skip_ws s) as [|e r'] eqn:E; [done|].
    destruct (Z.eqb_spec (code e) 93) as [He|He].
    - intros [= <- <-]. split; [done|]. apply skip_ws_cons in E as (t & -> & ?); [|lia].
      exists (String c t). split; [done|]. apply clean_cons; [lia|done].
    - intros ([vs rest] & (t & -> & ?)%IHe & ?)%bind_Some. simplify_eq.
      split; [done|]. exists (String c t). split; [done|]. apply clean_cons; [lia|done]. }
  destruct (HasPrefix (String c s) "true") eqn:Ht.
  { pose proof Ht as [t ->]%prefix_inv. intros [= <- <-]. split; [done|]. by exists "true". }
  destruct (HasPrefix (String c s) "false") eqn:Hf.
  { pose proof Hf as [t ->]%prefix_inv. intros [= <- <-]. split; [done|]. by exists "false". }
  destruct (HasPrefix (String c s) "null") eqn:Hn.
  { pose proof Hn as [t ->]%prefix_inv. intros [= <- <-]. split; [done|]. by exists "null". }
  intros ([lit rest] & (-> & Hl & _)%scan_number_spec & ?)%bind_Some. simplify_eq.
  split; [done|]. exists lit. split; [done|]. apply (str_forallb_impl is_number_byte); [|done].
  intros b. unfold is_number_byte, is_digit, in_range, no_nul. cbn. lia.
Qed.

Lemma elems_clean_S f : value_clean f → elems_clean f → elems_clean (S f).
Proof.
  intros IHv IHe d s vs r. cbn [parse_elems].
  intros ([v r1] & [_ (t1 & H1 & Hc1)]%IHv & Hp)%bind_Some.
  destruct (skip_ws_clean s) as (w & -> & Hw). rewrite H1.
  destruct (skip_ws r1) as [|c r2] eqn:E; [done|].
  destruct (Z.eqb_spec (code c) 44) as [Hc|Hc].
  - apply bind_Some in Hp as ([vs' r3] & (t3 & -> & Hc3)%IHe & ?). simplify_eq.
    apply skip_ws_cons in E as (t2 & -> & Hc2); [|lia].
    exists (w +:+ t1 +:+ t2 +:+ t3). rewrite !str_app_assoc. auto using clean_app.
  - destruct (Z.eqb_spec (code c) 93); [|done]. simplify_eq.
    apply skip_ws_cons in E as (t2 & -> & Hc2); [|lia].
    exists (w +:+ t1 +:+ t2). rewrite !str_app_assoc. auto using clean_app.
Qed.

Lemma members_clean_S f : value_clean f → members_clean f → members_clean (S f).
Proof.
  intros IHv IHm d s ms r. cbn [parse_members].
  destruct (skip_ws s) as [|q s1] eqn:E0; [done|].
  destruct (Z.eqb_spec (code q) 34) as [Hq|]; cbn [negb]; [|done].
  apply skip_ws_cons in E0 as (t0 & -> & Hc0); [|lia].
  intros ([key r1] & [-> Hk]%scan_string_clean & Hp)%bind_Some.
  destruct (skip_ws r1) as [|col r2] eqn:E1; [done|].
  destruct (Z.eqb_spec (code col) 58) as [Hcol|]; cbn [negb] in Hp; [|done].
  apply skip_ws_cons in E1 as (t1 & -> & Hc1); [|lia].
  apply bind_Some in Hp as ([v r3] & [_ (t2 & H2 & Hc2)]%IHv & Hp).
  destruct (skip_ws_clean r2) as (w & Hr2 & Hw). rewrite H2 in *.
  rewrite consumed_app in Hp.
  set (pre := t0 +:+ (key +:+ String c_quote "") +:+ t1 +:+ w +:+ t2).
  assert (clean pre ∧ t0 +:+ (key +:+ String c_quote (t1 +:+ r2)) = pre +:+ r3) as [Hpre ->].
  { split; [subst pre; auto 10 using clean_app|]. subst pre. rewrite Hr2, !str_app_assoc. done. }
  destruct (skip_ws r3) as [|c r4] eqn:E3; [done|].
  destruct (Z.eqb_spec (code c) 44) as [Hc|Hc].
  - apply bind_Some in Hp as ([ms' r5] & [Hms (t5 & -> & Hc5)]%IHm & ?). simplify_eq.
    apply skip_ws_cons in E3 as (t3 & -> & Hc3); [|lia]. split.
    + intros k raw x [?|Hin]%elem_of_cons; [by simplify_eq|]. by eapply Hms.
    + exists (pre +:+ t3 +:+ t5). rewrite !str_app_assoc. auto using clean_app.
  - destruct (Z.eqb_spec (code c) 125); [|done]. simplify_eq.
    apply skip_ws_cons in E3 as (t3 & -> & Hc3); [|lia]. split.
    + intros k raw x ?%list_elem_of_singleton. by simplify_eq.
    + exists (pre +:+ t3). rewrite !str_app_assoc. auto using clean_app.
Qed.

Lemma parse_clean f : value_clean f ∧ elems_clean f ∧ members_clean f.
Proof.
  induction f as [|f (IHv & IHe & IHm)]; [done|].
  auto using value_clean_S, elems_clean_S, members_clean_S.
Qed.

Lemma parse_raws data v : parse data = Some v → raws_clean v.
Proof.
  unfold parse. intros ([j rest] & Hp & Hv)%bind_Some. case_decide; simplify_eq.
  by apply (parse_clean _) in Hp as [? _].
Qed.

Lemma rawmap_member ms : ∀ (m : gmap string string) k raw,
  foldl (λ m '(key, raw, _), <[unquote key := raw]> m) m ms !! k = Some raw →
  m !! k = Some raw ∨ ∃ key x, (key, raw, x) ∈ (ms : list (string * string * json)).
Proof.
  induction ms as [|[[key raw0] x] ms IH]; intros m k raw; cbn [foldl]; [by left|].
  intros [Hk|(key' & x' & ?)]%IH; [|right; exists key', x'; by right].
  apply lookup_insert_Some in Hk as [[_ ->]|[_ ?]]; [|by left]. right. exists key, x. by left.
Qed.

Lemma rawmap_clean body m k raw :
  Unmarshal dec_rawmap body None = (Some m, true) → m !! k = Some raw → clean raw.
Proof.
  unfold Unmarshal. destruct (parse body) as [j|] eqn:Hp; [|done]. apply parse_raws in Hp.
  destruct j; cbn; try done. intros [= <-] Hk. apply rawmap_member in Hk as [Hk|(key & x & Hin)].
  - by rewrite lookup_empty in Hk.
  - by eapply Hp.
Qed.

(** ** Canonical texts *)

(** Induction under the lists of [json] and [anyv]. *)
Definition json_nested_ind (P : json → Prop)
  (Hnull : P JNull) (Hbool : ∀ b, P (JBool b)) (Hnum : ∀ t, P (JNum t)) (Hstr : ∀ s, P (JStr s))
  (Harr : ∀ l, Forall P l → P (JArr l)) (Hobj : ∀ l, Forall (λ p, P p.2) l → P (JObj l))
  : ∀ j, P j :=
  fix F j : P j :=
  match j with
  | JNull => Hnull | JBool b => Hbool b | JNum t => Hnum t | JStr s => Hstr s
  | JArr l => Harr l ((fix go l : Forall P l :=
      match l with [] => @List.Forall_nil _ _ | x :: l' => @List.Forall_cons _ _ x l' (F x) (go l') end) l)
  | JObj l => Hobj l ((fix go l : Forall (λ p, P p.2) l :=
      match l with [] => @List.Forall_nil _ _ | p :: l' => @List.Forall_cons _ _ p l' (F p.2) (go l') end) l)
  end.

Definition anyv_nested_ind (P : anyv → Prop)
  (Hnull : P ANull) (Hbool : ∀ b, P (ABool b)) (Hnum : ∀ t, P (ANum t)) (Hstr : ∀ s, P (AStr s))
  (Harr : ∀ l, Forall P l → P (AArr l)) (Hmap : ∀ l, Forall (λ p, P p.2) l → P (AMap l))
  : ∀ v, P v :=
  fix F v : P v :=
  match v with
  | ANull => Hnull | ABool b => Hbool b | ANum t => Hnum t | AStr s => Hstr s
  | AArr l => Harr l ((fix go l : Forall P l :=
      match l with [] => @List.Forall_nil _ _ | x :: l' => @List.Forall_cons _ _ x l' (F x) (go l') end) l)
  | AMap l => Hmap l ((fix go l : Forall (λ p, P p.2) l :=
      match l with [] => @List.Forall_nil _ _ | p :: l' => @List.Forall_cons _ _ p l' (F p.2) (go l') end) l)
  end.

(** Every number text in the value is clean. *)
#[warnings="-register-all"] Inductive nums_clean : anyv → Prop :=
| nc_null : nums_clean ANull
| nc_bool b : nums_clean (ABool b)
| nc_num t : clean t → nums_clean (ANum t)
| nc_str s : nums_clean (AStr s)
| nc_arr l : Forall nums_clean l → nums_clean (AArr l)
| nc_map l : Forall (λ p, nums_clean p.2) l → nums_clean (AMap l).

Lemma map_set_Forall (P : anyv → Prop) k v l :
  P v → Forall (λ p, P p.2) l → Forall (λ p, P p.2) (map_set k v l).
Proof.
  intros Hv Hl. induction Hl as [|[k' v'] l Hv' Hl IH]; cbn [map_set]; [by repeat constructor|].
  destruct (String.compare k k'); by repeat constructor.
Qed.

(** strconv writes numbers, not control characters. *)
Class StrconvLaws `{Strconv} := {
  format_float_clean lit t : format_float lit = Some t → clean t
}.

Section canonical.
Context `{StrconvLaws}.

Lemma decode_any_clean j : ∀ v, decode_any j = Some v → nums_clean v.
Proof using All.
  induction j as [|b|t|s|l IH|l IH] using json_nested_ind; intros v Hd; cbn in Hd; simplify_eq;
    try by constructor.
  - apply fmap_Some in Hd as (t' & ? & ->). constructor. by eapply format_float_clean.
  - apply fmap_Some in Hd as (vs & Hd & ->). constructor. revert vs Hd.
    induction IH as [|x l Hx Hl IHl]; intros vs Hd; [simplify_eq; constructor|].
    apply bind_Some in Hd as (y & ? & (ys & ? & ?)%bind_Some). simplify_eq. constructor; auto.
  - apply fmap_Some in Hd as (vs & Hd & ->). constructor.
    assert (Forall (λ p : string * anyv, nums_clean p.2) []) as Hacc by constructor.
    revert Hacc Hd. generalize (@nil (string * anyv)).
    induction IH as [|[[key raw] x] l Hx Hl IHl]; intros acc Hacc Hd; [by simplify_eq|].
    apply bind_Some in Hd as (y & ? & Hd). eapply IHl; [|exact Hd]. apply map_set_Forall; auto.
Qed.

Lemma sortKeys_clean v : nums_clean v → nums_clean (sortKeys v).
Proof.
  induction v as [|b|t|s|l IH|l IH] using anyv_nested_ind; intros Hv; try done; cbn.
  - inversion Hv as [| | | |? Hl|]; subst. constructor. induction IH as [|x l Hx IH IHl]; [constructor|].
    apply Forall_cons_iff in Hl as [? ?]. constructor; [auto|]. apply IHl; [by constructor|done].
  - inversion Hv as [| | | | |? Hl]; subst. constructor. clear Hv.
    assert (Forall (λ p : string * anyv, nums_clean p.2) []) as Hacc by constructor.
    revert Hacc. generalize (@nil (string * anyv)).
    induction IH as [|[k x] l Hx IH IHl]; intros acc Hacc; [done|].
    apply Forall_cons_iff in Hl as [? ?]. apply IHl; [done|]. apply map_set_Forall; auto.
Qed.

Lemma encode_any_clean v : nums_clean v → clean (encode_any v).
Proof.
  induction v as [|b|t|s|l IH|l IH] using anyv_nested_ind; intros Hv.
  - done.
  - by destruct b.
  - by inversion Hv.
  - apply clean_encode_string.
  - inversion Hv as [| | | |? Hl|]; subst. cbn. apply clean_app; [|done]. apply clean_Join; [|done].
    clear Hv. induction IH as [|x l Hx IH IHl]; [constructor|].
    apply Forall_cons_iff in Hl as [? ?]. constructor; auto.
  - inversion Hv as [| | | | |? Hl]; subst. cbn. apply clean_app; [|done]. apply clean_Join; [|done].
    clear Hv. induction IH as [|[k x] l Hx IH IHl]; [constructor|].
    apply Forall_cons_iff in Hl as [? ?]. constructor; [|auto].
    apply clean_app; [apply clean_encode_string|]. cbn. auto.
Qed.

Lemma field_text_clean raw : clean raw → clean (field_text raw).
Proof using All.
  intros Hr. unfold field_text, compactJSON. destruct (parse raw) as [j|]; cbn; [|done].
  destruct (decode_any j) as [v|] eqn:Hd; cbn; [|done].
  by eapply encode_any_clean, sortKeys_clean, decode_any_clean.
Qed.

(** ** The hashed bytes determine the fields *)

Lemma nul_split a b x y :
  clean a → clean b → a +:+ nul +:+ x = b +:+ nul +:+ y → a = b ∧ x = y.
Proof.
  revert b. induction a as [|c a IH]; intros [|d b] Ha Hb E; cbn in *.
  - by simplify_eq.
  - exfalso. injection E as <- _. by apply andb_prop in Hb as [? _].
  - exfalso. injection E as -> _. by apply andb_prop in Ha as [? _].
  - apply andb_prop in Ha as [_ Ha]. apply andb_prop in Hb as [_ Hb].
    injection E as <- E. destruct (IH b Ha Hb E) as [-> ?]. done.
Qed.

Abbreviation chunks m fs := (String.concat EmptyString (field_chunk m <$> fs)).

Lemma concat_nil_cons s l :
  String.concat EmptyString (s :: l) = s +:+ String.concat EmptyString l.
Proof. cbn. destruct l; [by rewrite str_app_nil_r|done]. Qed.

(** What is hashed for some fields starts with one of their names, if anything
    is hashed at all. *)
Lemma chunks_head m fs :
  chunks m fs = "" ∨ ∃ f x, f ∈ fs ∧ chunks m fs = f +:+ nul +:+ x.
Proof.
  induction fs as [|f fs IH]; [by left|]. rewrite fmap_cons, concat_nil_cons.
  unfold field_chunk at 1 3. destruct (m !! f) as [v|].
  - right. eexists f, _. split; [by left|]. by rewrite !str_app_assoc.
  - destruct IH as [->|(g & x & ? & ->)]; [by left|]. right. exists g, x. split; [by right|done].
Qed.

Lemma chunks_head_ne m fs f x :
  Forall (λ f, clean f) (f :: fs) → f ∉ fs → chunks m fs ≠ f +:+ nul +:+ x.
Proof.
  intros [Hf Hfs]%Forall_cons_iff Hni E. destruct (chunks_head m fs) as [E'|(g & y & Hg & E')].
  - rewrite E' in E. by destruct f.
  - rewrite E' in E. apply nul_split in E as [-> _]; [done| |done].
    rewrite list.Forall_forall in Hfs. auto.
Qed.

Definition map_clean (m : gmap string string) : Prop := map_Forall (λ _ raw, clean raw) m.

Lemma chunks_inj m1 m2 fs :
  map_clean m1 → map_clean m2 → Forall (λ f, clean f) fs → NoDup fs →
  chunks m1 fs = chunks m2 fs → ∀ f, f ∈ fs → field_text <$> m1 !! f = field_text <$> m2 !! f.
Proof using All.
  intros H1 H2. induction fs as [|f fs IH]; intros Hfs Hnd E; [by intros ? ?%elem_of_nil|].
  pose proof Hfs as [Hf Hfs']%Forall_cons_iff. apply list.NoDup_cons in Hnd as [Hni Hnd].
  rewrite !fmap_cons, !concat_nil_cons in E. unfold field_chunk at 1 3 in E.
  assert (field_text <$> m1 !! f = field_text <$> m2 !! f ∧ chunks m1 fs = chunks m2 fs)
    as [Ef E'].
  { destruct (m1 !! f) as [v1|] eqn:L1, (m2 !! f) as [v2|] eqn:L2;
      cbn [fmap option_fmap option_map].
    - rewrite !str_app_assoc in E. apply nul_split in E as [_ E]; [|done..].
      apply nul_split in E as [-> ?]; [done| |];
        apply field_text_clean; [by apply (H1 f)|by apply (H2 f)].
    - exfalso. rewrite !str_app_assoc in E. by eapply (chunks_head_ne m2 fs f).
    - exfalso. rewrite !str_app_assoc in E. by eapply (chunks_head_ne m1 fs f).
    - done. }
  intros g [->|Hg]%elem_of_cons; [done|]. auto.
Qed.

Lemma decoded_clean body m : Unmarshal dec_rawmap body None = (m, true) → map_clean (default ∅ m).
Proof.
  destruct m as [m|]; cbn; [|intros _; apply map_Forall_empty].
  intros Hd k raw Hk. by eapply rawmap_clean.
Qed.

(** C34. A cache key identifies the request.  For two bodies that decode to
    objects, the bytes hashed are equal exactly when the providers are equal and
    each of the six fields is absent in both or has the same canonical JSON in
    both; member order, whitespace, number and string spelling and all other
    members do not count. *)
Theorem key_input_faithful p1 p2 b1 b2 m1 m2 :
  clean p1 → clean p2 →
  Unmarshal dec_rawmap b1 None = (m1, true) → Unmarshal dec_rawmap b2 None = (m2, true) →
  key_input p1 m1 = key_input p2 m2 ↔
    p1 = p2 ∧ ∀ f, f ∈ cacheFields →
      field_text <$> default ∅ m1 !! f = field_text <$> default ∅ m2 !! f.
Proof using All.
  intros Hp1 Hp2 Hd1%decoded_clean Hd2%decoded_clean. unfold key_input. split.
  - intros [-> E]%nul_split; [|done..]. split; [done|].
    apply chunks_inj; [done|done| | |done].
    + by repeat constructor.
    + by apply (bool_decide_unpack _).
  - intros [-> Hf]. do 2 f_equal. f_equal. apply list_fmap_ext. intros i f Hi.
    unfold field_chunk. apply list_elem_of_lookup_2, Hf in Hi.
    destruct (default ∅ m1 !! f), (default ∅ m2 !! f); simplify_eq/=; congruence.
Qed.
End canonical.

(** A codec for the witness: numbers are written as they were read. *)
#[local] Instance literal_strconv : Strconv :=
  {| format_float lit := if str_forallb no_nul lit then Some lit else None |}.

#[local] Instance literal_strconv_laws : StrconvLaws.
Proof. constructor. intros lit t. cbn. case_match eqn:E; [|done]. by intros [= <-]. Qed.

Definition body1 : string :=
  dq "{'model':'m', 'messages':[{'role':'user','content':'hi'}], 'n':2}".
Definition body2 : string :=
  dq "{'messages':[ {'content':'hi','role':'user'} ],'model':'m','seed':7}".

Lemma key_input_faithful_witness :
  let m1 := (Unmarshal dec_rawmap body1 None).1 in
  let m2 := (Unmarshal dec_rawmap body2 None).1 in
  key_input "openai" m1 = key_input "openai" m2 ↔
    "openai" = "openai" ∧ ∀ f, f ∈ cacheFields →
      field_text <$> default ∅ m1 !! f = field_text <$> default ∅ m2 !! f.
Proof.
  intros m1 m2. apply (key_input_faithful "openai" "openai" body1 body2); [done|done|..];
    vm_compute; reflexivity.
Defined.
