(* ===== verification/Plugin.v ===== *)
(** * Plugins (internal/plugin/types.go, manager.go, chain.go)

    The request context that travels through the hooks, the manager that sorts
    plugins by the interfaces they implement, and the chain that runs them.

    A plugin is a record of its hooks; the optional interfaces are optional
    fields.  Request contexts live in a heap and hooks receive pointers, so a
    hook may change the context in place, whether or not it reports an error,
    and [PreLLM] may return another object.  The rest of the world that hooks
    and providers act on is the type [Ext]. *)
From S2P Require Import Prelude GoStd CacheKey.

(** ** Data *)

(** A value of type [any] in metadata: strings, booleans,
    integers, byte slices, writers and spans (by the pointer to what they write to)
    and what comes out of a JSON text otherwise; anything else is opaque. *)
Inductive meta_value :=
| MStr (s : string)
| MBool (b : bool)
| MInt (z : Z)
| MBytes (b : slice)
| MWriter (id : positive)
| MSpan (id : positive)
| MAny (v : anyv)
| MOpaque.

(** A value of the configuration: what a YAML document decodes to. *)
#[warnings="-register-all"]
Inductive any :=
| VNil
| VInt (z : Z)
| VBool (b : bool)
| VStr (s : string)
| VList (l : list any)
| VStrs (l : list string)
| VMap (m : list (string * any))
| VOther.

Record Request := mkRequest {
  rq_Method : string;
  rq_Path : string;
  rq_RemoteAddr : string;
  rq_Header : Header
}.

Record RequestContext := mkRC {
  rc_Request : option Request;
  rc_Provider : string;
  rc_Model : string;
  rc_Body : slice;
  rc_Metadata : option (gmap string meta_value);  (* None is the nil map *)
  rc_StartTime : Z;
  rc_ResponseHeaders : option Header;
  ShortCircuit : bool;
  ShortCircuitStatus : Z;
  ShortCircuitBody : slice
}.

Record Response := mkResponse {
  r_StatusCode : Z;
  r_Headers : option Header;
  r_Body : slice
}.

Record RequestTrace := mkTrace {
  tr_Provider : string;
  tr_Model : string;
  tr_StatusCode : Z;
  tr_Duration : Z;
  tr_Error : option string;
  tr_Metadata : option (gmap string meta_value)
}.

Abbreviation ptr := positive.
Definition perr : Type := string.

(** ** Plugins *)

Section plugins.
Context {Ext : Type}.

Record PWorld := mkPWorld {
  rcs : gmap ptr RequestContext;
  ext : Ext
}.

#[local] Abbreviation PM := (ST PWorld).

(** What a hook that is given an object and returns one may do: hand back the
    object it was given, as it is after the call, another one, or nil. *)
Inductive returned (T : Type) := RSame | RNew (t : T) | RNil.
#[global] Arguments RSame {T}.
#[global] Arguments RNew {T} t.
#[global] Arguments RNil {T}.

Record TransportPlugin := mkTransport {
  PreHTTP : ptr → PM (option perr);
  PostHTTP : ptr → PM (option perr);
  StreamChunk : ptr → slice → PM (perr + slice)
}.

(** [PreLLM] returns a pointer, possibly nil; [PostLLM] is given the response
    object and leaves it changed or not. *)
Record LLMPlugin := mkLLM {
  PreLLM : ptr → PM (perr + option ptr);
  PostLLM : ptr → Response → PM (Response * (perr + returned Response))
}.

Record Plugin := mkPlugin {
  pl_Name : string;
  pl_Init : option (gmap string any) → PM (option perr);
  pl_Close : PM (option perr);
  pl_transport : option TransportPlugin;
  pl_llm : option LLMPlugin;
  pl_trace : option (RequestTrace → PM ())
}.

Record Manager := mkManager {
  m_all : list Plugin;
  m_transport : list TransportPlugin;
  m_llm : list LLMPlugin;
  m_observability : list (RequestTrace → PM ())
}.

Definition NewManager : Manager := mkManager [] [] [] [].

Definition Register (m : Manager) (p : Plugin) : Manager :=
  mkManager (m.(m_all) ++ [p])
    (match p.(pl_transport) with
     | Some tp => m.(m_transport) ++ [tp] | None => m.(m_transport) end)
    (match p.(pl_llm) with Some lp => m.(m_llm) ++ [lp] | None => m.(m_llm) end)
    (match p.(pl_trace) with
     | Some op => m.(m_observability) ++ [op] | None => m.(m_observability) end).

(** A plugin with no entry gets a nil map; the first whose [Init] fails ends the initialisation. *)
Fixpoint init_all (configs : gmap string (option (gmap string any))) (ps : list Plugin)
  : PM (option (string * perr)) :=
  match ps with
  | [] => mret None
  | p :: ps' =>
    err ← p.(pl_Init) (mjoin (configs !! p.(pl_Name)));
    match err with
    | Some e => mret (Some (p.(pl_Name), e))
    | None => init_all configs ps'
    end
  end.

Definition InitAll (m : Manager) (configs : gmap string (option (gmap string any)))
  : PM (option (string * perr)) := init_all configs m.(m_all).

Fixpoint close_all (ps : list Plugin) : PM () :=
  match ps with
  | [] => mret tt
  | p :: ps' => _ ← p.(pl_Close); close_all ps'
  end.

Definition CloseAll (m : Manager) : PM () := close_all (reverse m.(m_all)).

(** ** The chain *)

Definition is_short (c : ptr) (w : PWorld) : bool :=
  match w.(rcs) !! c with Some rc => rc.(ShortCircuit) | None => false end.

Fixpoint pre_http (c : ptr) (ps : list TransportPlugin) : PM () :=
  match ps with
  | [] => mret tt
  | p :: ps' =>
    _ ← p.(PreHTTP) c;
    w ← get_state;
    if is_short c w then mret tt else pre_http c ps'
  end.

Definition RunPreHTTP (m : Manager) (c : ptr) : PM () := pre_http c m.(m_transport).

Fixpoint post_http (c : ptr) (ps : list TransportPlugin) : PM () :=
  match ps with
  | [] => mret tt
  | p :: ps' => _ ← p.(PostHTTP) c; post_http c ps'
  end.

Definition RunPostHTTP (m : Manager) (c : ptr) : PM () :=
  post_http c (reverse m.(m_transport)).

Fixpoint stream_chunk (c : ptr) (ps : list TransportPlugin) (chunk : slice) : PM slice :=
  match ps with
  | [] => mret chunk
  | p :: ps' =>
    r ← p.(StreamChunk) c chunk;
    match r with
    | inl _ => stream_chunk c ps' chunk
    | inr modified => stream_chunk c ps' modified
    end
  end.

Definition RunStreamChunk (m : Manager) (c : ptr) (chunk : slice) : PM slice :=
  stream_chunk c (reverse m.(m_transport)) chunk.

(** [None] is the nil pointer: the next plugin, or the caller, dereferences
    it. *)
Fixpoint pre_llm (c : option ptr) (ps : list LLMPlugin) : PM (option ptr) :=
  match ps with
  | [] => mret c
  | p :: ps' =>
    match c with
    | None => mret None
    | Some c' =>
      r ← p.(PreLLM) c';
      match r with
      | inl _ => pre_llm c ps'
      | inr modified => pre_llm modified ps'
      end
    end
  end.

Definition RunPreLLM (m : Manager) (c : ptr) : PM (option ptr) :=
  pre_llm (Some c) m.(m_llm).

Fixpoint post_llm (c : ptr) (ps : list LLMPlugin) (resp : option Response)
  : PM (option Response) :=
  match ps with
  | [] => mret resp
  | p :: ps' =>
    match resp with
    | None => mret None
    | Some r =>
      x ← p.(PostLLM) c r;
      match x.2 with
      | inl _ | inr RSame => post_llm c ps' (Some x.1)
      | inr (RNew r') => post_llm c ps' (Some r')
      | inr RNil => post_llm c ps' None
      end
    end
  end.

Definition RunPostLLM (m : Manager) (c : ptr) (resp : Response) : PM (option Response) :=
  post_llm c (reverse m.(m_llm)) (Some resp).

(** [EmitTrace] starts one goroutine per plugin; the order in which they run is
    the argument, a permutation of the registered plugins. *)
Fixpoint emit_trace (order : list (RequestTrace → PM ())) (t : RequestTrace) : PM () :=
  match order with
  | [] => mret tt
  | f :: order' => f t;; emit_trace order' t
  end.

(** ** Facts *)

(** Running the pre-hooks one after the other, without looking at the flag. *)
Fixpoint run_all (c : ptr) (ps : list TransportPlugin) : PM () :=
  match ps with
  | [] => mret tt
  | p :: ps' => _ ← p.(PreHTTP) c; run_all c ps'
  end.

Lemma run_all_app c ps qs w :
  run_all c (ps ++ qs) w = run_all c qs (run_all c ps w).2.
Proof.
  revert w. induction ps as [|p ps IH]; intros w; [done|].
  cbn [app run_all]. rewrite !ST_bind_unfold. apply IH.
Qed.

(** A plugin that reports an error and does nothing else. *)
Definition inert_llm (p : LLMPlugin) : Prop :=
  (∀ c w, ∃ e, PreLLM p c w = (inl e, w)) ∧
  (∀ c r w, ∃ e, PostLLM p c r w = ((r, inl e), w)).

Lemma pre_llm_inert p qs : inert_llm p → ∀ ps c w,
  pre_llm c (ps ++ p :: qs) w = pre_llm c (ps ++ qs) w.
Proof.
  intros [Hp _] ps. induction ps as [|q ps IH]; intros c w; cbn [app pre_llm].
  - destruct c as [c|]; [|by destruct qs]. rewrite ST_bind_unfold.
    destruct (Hp c w) as [e ->]. done.
  - destruct c as [c|]; [|done]. rewrite !ST_bind_unfold. destruct (PreLLM q c w) as [[e|m] w'];
      apply IH.
Qed.

Lemma post_llm_inert p qs : inert_llm p → ∀ ps c r w,
  post_llm c (ps ++ p :: qs) r w = post_llm c (ps ++ qs) r w.
Proof.
  intros [_ Hp] ps. induction ps as [|q ps IH]; intros c r w; cbn [app post_llm].
  - destruct r as [r|]; [|by destruct qs]. rewrite ST_bind_unfold.
    destruct (Hp c r w) as [e ->]. done.
  - destruct r as [r|]; [|done]. rewrite !ST_bind_unfold.
    destruct (PostLLM q c r w) as [[r' [e|[]]] w']; apply IH.
Qed.
End plugins.

Arguments PWorld Ext : clear implicits.
Arguments TransportPlugin Ext : clear implicits.
Arguments LLMPlugin Ext : clear implicits.
Arguments Plugin Ext : clear implicits.
Arguments Manager Ext : clear implicits.

(** ** Theorems *)

(** The pre-hooks run in registration order up to and including the first
    one that leaves the request short-circuited, and none after it: the hooks
    that ran are a prefix of the registered ones, none before the last of them
    had set the flag, and either all ran or the flag is set. *)
Theorem RunPreHTTP_prefix {Ext} (m : Manager Ext) c w :
  ∃ ran rest, m.(m_transport) = ran ++ rest ∧
    (RunPreHTTP m c w).2 = (run_all c ran w).2 ∧
    (∀ pre p post, ran = pre ++ p :: post → pre ≠ [] →
       is_short c (run_all c pre w).2 = false) ∧
    (rest = [] ∨ is_short c (RunPreHTTP m c w).2 = true).
Proof.
  unfold RunPreHTTP. generalize (m_transport m) as ps. intros ps. revert w.
  induction ps as [|p ps IH]; intros w; cbn [pre_http].
  - exists [], []. split_and!; [done|done| |by left]. by intros [].
  - rewrite !ST_bind_unfold. cbn [get_state fst snd].
    destruct (is_short c (PreHTTP p c w).2) eqn:Hs.
    + exists [p], ps. split_and!; [done|by cbn; rewrite ST_bind_unfold| |by right].
      intros [|x [|]] q post E; by simplify_eq.
    + destruct (IH (PreHTTP p c w).2) as (ran & rest & -> & Hr & Hpre & Hend).
      exists (p :: ran), rest. split_and!; [done| | |done].
      * cbn [run_all]. by rewrite ST_bind_unfold.
      * intros [|x pre] q post E Hne; [done|]. injection E as <- E.
        cbn [run_all]. rewrite ST_bind_unfold. destruct pre as [|y pre]; [done|].
        by eapply Hpre.
Qed.

(** The chain fails open.  A plugin whose model hooks do nothing but report
    an error changes nothing, wherever it is registered: the hooks of the others
    run in the same order on the same values. *)
Theorem failing_plugin_transparent {Ext} (all : list (Plugin Ext)) tr obs ps qs p c resp w :
  inert_llm p →
  RunPreLLM (mkManager all tr (ps ++ p :: qs) obs) c w =
    RunPreLLM (mkManager all tr (ps ++ qs) obs) c w ∧
  RunPostLLM (mkManager all tr (ps ++ p :: qs) obs) c resp w =
    RunPostLLM (mkManager all tr (ps ++ qs) obs) c resp w.
Proof.
  intros Hp. unfold RunPreLLM, RunPostLLM. cbn [m_llm]. split; [by apply pre_llm_inert|].
  rewrite !reverse_app, reverse_cons, <-app_assoc. by apply post_llm_inert.
Qed.

Definition broken_plugin : LLMPlugin nat :=
  mkLLM (λ _ w, (inl "boom", w)) (λ _ r w, ((r, inl "boom"), w)).
Definition counting_plugin : LLMPlugin nat :=
  mkLLM (λ c w, (inr (Some c), mkPWorld w.(rcs) (S w.(ext))))
        (λ _ r w, ((r, inr RSame), mkPWorld w.(rcs) (S w.(ext)))).

Lemma failing_plugin_transparent_witness :
  let w := mkPWorld ∅ 0%nat in
  (RunPreLLM (mkManager [] [] [counting_plugin; broken_plugin; counting_plugin] []) 1%positive w).2.(ext)
    = 2%nat ∧
  RunPreLLM (mkManager [] [] ([counting_plugin] ++ broken_plugin :: [counting_plugin]) []) 1%positive w =
    RunPreLLM (mkManager [] [] ([counting_plugin] ++ [counting_plugin]) []) 1%positive w ∧
  RunPostLLM (mkManager [] [] ([counting_plugin] ++ broken_plugin :: [counting_plugin]) []) 1%positive
      (mkResponse 200 None None) w =
    RunPostLLM (mkManager [] [] ([counting_plugin] ++ [counting_plugin]) []) 1%positive
      (mkResponse 200 None None) w.
Proof.
  split; [reflexivity|]. apply failing_plugin_transparent. split; intros; by eexists.
Defined.
