(* ===== verification/Engine.v ===== *)
(** * The dispatch engine (internal/proxy/engine.go, internal/provider/provider.go,
    internal/provider/registry.go, internal/appkey/context.go)

    Routing, scope enforcement, key selection, caching, retries and failover.

    A method of [Engine] runs in [EM]: it acts on the request contexts and the
    outside world (plugins and providers), on the cache, on the sources of time
    and randomness, and on a log of what it does, and it may panic.  Providers
    are records of their methods, with the optional interfaces as optional
    fields.  An [error] is a tree of wrapped errors. *)
From S2P Require Import Prelude GoStd Json JsonScan Config Token Store MemoryCache CacheKey Plugin.

(** ** Errors *)

Inductive gerror :=
| GProvider (StatusCode : Z) (Message : string)   (* *provider.ProviderError *)
| GWrap (msg : string) (inner : gerror)            (* fmt.Errorf with %w *)
| GPlain (msg : string)
| GScrubbed (inner : gerror).                      (* gemini's scrubbedError *)

(** [errors.As(err, &pe)]: the status code of the first [ProviderError]. *)
Fixpoint errors_As (e : gerror) : option Z :=
  match e with
  | GProvider c _ => Some c
  | GWrap _ i => errors_As i
  | GPlain _ => None
  | GScrubbed i => errors_As i
  end.

(** ** Requests, responses, providers *)

Record ChatRequest := mkChatRequest {
  cq_Model : string;
  cq_Stream : bool;
  cq_RawBody : slice;
  cq_APIKey : string
}.

Record ChatResponse := mkChatResponse {
  cs_RawBody : slice;
  cs_StatusCode : Z;
  cs_Headers : option Header
}.

Record EmbeddingRequest := mkEmbeddingRequest {
  eq_Model : string;
  eq_RawBody : slice;
  eq_APIKey : string
}.

(** The body of an upstream response: what the successive reads return, and the
    error they end in ([None]: the end of the body). *)
Record RespBody := mkRespBody {
  rb_reads : list string;
  rb_err : option gerror
}.

(** An [*http.Response] with its body. *)
Record HTTPResponse := mkHTTPResponse {
  hr_StatusCode : Z;
  hr_Header : Header;
  hr_Body : RespBody
}.

(** The body of a request to an upstream: the bytes a reader of it sees, and how
    they end. *)
Abbreviation ReqBody := (string * read_end)%type.

(** The values the engine reads from a [context.Context]. *)
Record Ctx := mkCtx {
  cx_scopes : option KeyScopes;
  cx_rc : option ptr
}.

Definition ScopesFromContext (c : Ctx) : option KeyScopes := c.(cx_scopes).
Definition GetRequestContext (c : Ctx) : option ptr := c.(cx_rc).

Inductive Operation :=
| OpChatCompletion | OpChatCompletionStream | OpEmbeddings | OpPassthrough | OpModels.

Record Provider (Ext Strm : Type) := mkProvider {
  pv_Name : string;
  ChatCompletion : Ctx → ChatRequest → ST Ext (gerror + ChatResponse);
  ChatCompletionStream : Ctx → ChatRequest → ST Ext (gerror + Strm);
  Passthrough : Ctx → string → string → ReqBody → Header → ST Ext (gerror + HTTPResponse);
  SupportsOperation : Operation → bool;
  Embeddings : option (Ctx → EmbeddingRequest → ST Ext (gerror + ChatResponse));
  SetAuthHeader : option (Header → string → Header);
  HandleAnthropicNative : option (Ctx → slice → Header → ST Ext (gerror + HTTPResponse))
}.
Arguments mkProvider {Ext Strm} _ _ _ _ _ _ _ _.
Arguments pv_Name {Ext Strm} _.
Arguments ChatCompletion {Ext Strm} _ _ _.
Arguments ChatCompletionStream {Ext Strm} _ _ _.
Arguments Passthrough {Ext Strm} _ _ _ _ _ _.
Arguments SupportsOperation {Ext Strm} _ _.
Arguments Embeddings {Ext Strm} _.
Arguments SetAuthHeader {Ext Strm} _.
Arguments HandleAnthropicNative {Ext Strm} _.

Abbreviation Registry Ext Strm := (gmap string (Provider Ext Strm)).

Definition NewRegistry {Ext Strm} : Registry Ext Strm := ∅.

Definition RegistryRegister {Ext Strm} (p : Provider Ext Strm) (r : Registry Ext Strm)
  : Registry Ext Strm := <[p.(pv_Name) := p]> r.

Definition RegistryGet {Ext Strm} (r : Registry Ext Strm) (name : string)
  : gerror + Provider Ext Strm :=
  match r !! name with
  | Some p => inr p
  | None => inl (GPlain ("provider " +:+ name +:+ " not found"))
  end.

Definition RegistryList {Ext Strm} (r : Registry Ext Strm) : list string := (map_to_list r).*1.

(** ** The engine *)

Record engineState := mkState {
  cfg : Config;
  keys : gmap string (list KeyConfig)
}.

Definition newEngineState (c : Config) : engineState := mkState c (pc_Keys <$> c.(Providers)).

Record Engine (Ext Strm : Type) := mkEngine {
  registry : Registry Ext Strm;
  st : engineState;
  chain : option (Manager Ext);
  cacheTTL : Z
}.
Arguments mkEngine {Ext Strm} _ _ _ _.
Arguments registry {Ext Strm} _.
Arguments st {Ext Strm} _.
Arguments chain {Ext Strm} _.
Arguments cacheTTL {Ext Strm} _.

Definition NewEngine {Ext Strm} (reg : Registry Ext Strm) (c : Config)
    (ch : option (Manager Ext)) : Engine Ext Strm :=
  mkEngine reg (newEngineState c) ch 0.

Definition Reload {Ext Strm} (e : Engine Ext Strm) (c : Config) : Engine Ext Strm :=
  mkEngine e.(registry) (newEngineState c) e.(chain) e.(cacheTTL).

(** What the engine does, in order: the calls it makes to providers, the delays
    between attempts, and the replies it takes from providers. *)
Inductive event :=
| ECall (op : Operation) (provider apiKey model : string)
| ESleep (d : Z)
| EReply (provider : string) (body : slice) (resp : ChatResponse).

Record Env (Ext C : Type) := mkEnv {
  plug : PWorld Ext;
  cache : option C;        (* None: caching disabled *)
  time : nat → Z;          (* readings of the clock to come *)
  rnd : nat → Z;           (* random numbers to come *)
  events : list event
}.
Arguments mkEnv {Ext C} _ _ _ _ _.
Arguments plug {Ext C} _.
Arguments cache {Ext C} _.
Arguments time {Ext C} _ _.
Arguments rnd {Ext C} _ _.
Arguments events {Ext C} _.

Definition SetCache {Ext C Strm} (c : C) (ttl : Z) (e : Engine Ext Strm) (s : Env Ext C)
  : Engine Ext Strm * Env Ext C :=
  (mkEngine e.(registry) e.(st) e.(chain) ttl,
   mkEnv s.(plug) (Some c) s.(time) s.(rnd) s.(events)).

(** The monad of the engine's methods. *)
Definition EM (Ext C A : Type) : Type := Env Ext C → outcome (A * Env Ext C).

#[global] Instance EM_ret Ext C : MRet (EM Ext C) := λ A a s, Ret (a, s).
#[global] Instance EM_bind Ext C : MBind (EM Ext C) := λ A B f m s,
  match m s with
  | Ret (a, s') => f a s'
  | Panic => Panic
  end.

Section primitives.
Context {Ext C : Type}.
Implicit Types s : Env Ext C.

Definition panic {A} : EM Ext C A := λ _, Panic.

Definition log (e : event) : EM Ext C () := λ s,
  Ret (tt, mkEnv s.(plug) s.(cache) s.(time) s.(rnd) (s.(events) ++ [e])).

Definition clock_now : EM Ext C Z := λ s,
  Ret (s.(time) 0%nat, mkEnv s.(plug) s.(cache) (λ n, s.(time) (S n)) s.(rnd) s.(events)).

(** [rand.IntN(n)] panics unless [n] is positive. *)
Definition IntN (n : Z) : EM Ext C Z := λ s,
  if n <=? 0 then Panic
  else Ret (s.(rnd) 0%nat mod n,
            mkEnv s.(plug) s.(cache) s.(time) (λ k, s.(rnd) (S k)) s.(events)).

Definition run_hook {A} (m : ST (PWorld Ext) A) : EM Ext C A := λ s,
  let '(a, w) := m s.(plug) in
  Ret (a, mkEnv w s.(cache) s.(time) s.(rnd) s.(events)).

Definition run_ext {A} (m : ST Ext A) : EM Ext C A := λ s,
  let '(a, x) := m s.(plug).(ext) in
  Ret (a, mkEnv (mkPWorld s.(plug).(rcs) x) s.(cache) s.(time) s.(rnd) s.(events)).

Definition deref (p : ptr) : EM Ext C RequestContext := λ s,
  match s.(plug).(rcs) !! p with Some rc => Ret (rc, s) | None => Panic end.

Definition store_rc (p : ptr) (rc : RequestContext) : EM Ext C () := λ s,
  Ret (tt, mkEnv (mkPWorld (<[p := rc]> s.(plug).(rcs)) s.(plug).(ext))
             s.(cache) s.(time) s.(rnd) s.(events)).

Definition alloc (rc : RequestContext) : EM Ext C ptr := λ s,
  let p := fresh (dom s.(plug).(rcs) : gset ptr) in
  Ret (p, mkEnv (mkPWorld (<[p := rc]> s.(plug).(rcs)) s.(plug).(ext))
            s.(cache) s.(time) s.(rnd) s.(events)).

Definition get_cache : EM Ext C (option C) := λ s, Ret (s.(cache), s).

Definition put_cache (c : C) : EM Ext C () := λ s,
  Ret (tt, mkEnv s.(plug) (Some c) s.(time) s.(rnd) s.(events)).
End primitives.

(** Field updates of a request context. *)
Definition rc_set_model_body (model : string) (body : slice) (rc : RequestContext)
  : RequestContext :=
  mkRC rc.(rc_Request) rc.(rc_Provider) model body rc.(rc_Metadata) rc.(rc_StartTime)
    rc.(rc_ResponseHeaders) rc.(ShortCircuit) rc.(ShortCircuitStatus) rc.(ShortCircuitBody).
Definition rc_set_provider (p : string) (rc : RequestContext) : RequestContext :=
  mkRC rc.(rc_Request) p rc.(rc_Model) rc.(rc_Body) rc.(rc_Metadata) rc.(rc_StartTime)
    rc.(rc_ResponseHeaders) rc.(ShortCircuit) rc.(ShortCircuitStatus) rc.(ShortCircuitBody).
Definition rc_set_metadata (m : gmap string meta_value) (rc : RequestContext) : RequestContext :=
  mkRC rc.(rc_Request) rc.(rc_Provider) rc.(rc_Model) rc.(rc_Body) (Some m) rc.(rc_StartTime)
    rc.(rc_ResponseHeaders) rc.(ShortCircuit) rc.(ShortCircuitStatus) rc.(ShortCircuitBody).

(** ** Routing *)

Record route_fields := mkFields {
  f_Model : string;
  f_Stream : bool;
  f_Provider : string
}.

Definition set_f_Model v f := mkFields v f.(f_Stream) f.(f_Provider).
Definition set_f_Stream v f := mkFields f.(f_Model) v f.(f_Provider).
Definition set_f_Provider v f := mkFields f.(f_Model) f.(f_Stream) v.

Definition dec_model : string * dec route_fields := ("model", field f_Model set_f_Model dec_string).
Definition dec_stream : string * dec route_fields := ("stream", field f_Stream set_f_Stream dec_bool).
Definition dec_provider : string * dec route_fields :=
  ("provider", field f_Provider set_f_Provider dec_string).

Definition err_body : gerror := GWrap "invalid request body" (GPlain "json").
Definition err_model : gerror := GPlain "missing required field: model".
Definition err_route (model : string) : gerror :=
  GPlain ("no provider configured for model " +:+ model).

Definition resolveProviders (st : engineState) (model explicitProvider : string)
  : list string :=
  if negb (bool_decide (explicitProvider = "")) then [explicitProvider] else
  match st.(cfg).(Routing).(rc_Models) !! model with
  | Some (mkRoute (p :: ps) _) => p :: ps
  | _ =>
    if negb (bool_decide (st.(cfg).(Routing).(rc_DefaultProvider) = ""))
    then [st.(cfg).(Routing).(rc_DefaultProvider)] else []
  end.

Definition parseAndRoute (st : engineState) (rawBody : slice)
  : gerror + ChatRequest * list string :=
  match Unmarshal (dec_struct [dec_model; dec_stream; dec_provider])
          (bytes_of rawBody) (mkFields "" false "") with
  | (_, false) => inl err_body
  | (partial, true) =>
    if decide (partial.(f_Model) = "") then inl err_model else
    let providerNames :=
      if negb (bool_decide (partial.(f_Provider) = "")) then [partial.(f_Provider)]
      else match st.(cfg).(Routing).(rc_Models) !! partial.(f_Model) with
      | Some (mkRoute (p :: ps) _) => p :: ps
      | _ =>
        if negb (bool_decide (st.(cfg).(Routing).(rc_DefaultProvider) = ""))
        then [st.(cfg).(Routing).(rc_DefaultProvider)] else []
      end in
    if decide (providerNames = []) then inl (err_route partial.(f_Model)) else
    inr (mkChatRequest partial.(f_Model) partial.(f_Stream) rawBody "", providerNames)
  end.

Definition StatusForbidden : Z := 403.

Definition enforceScopes (ctx : Ctx) (model : string) (providerNames : list string)
  : gerror + list string :=
  match ScopesFromContext ctx with
  | None => inr providerNames
  | Some sc =>
    if negb (IsModelAllowed (Some sc) model)
    then inl (GProvider StatusForbidden ("app key not authorized for model " +:+ model))
    else if decide (sc.(AllowedProviders) = []) then inr providerNames
    else
      let filtered := List.filter (IsProviderAllowed (Some sc)) providerNames in
      if decide (filtered = [])
      then inl (GProvider StatusForbidden
                  ("app key not authorized for any provider serving model " +:+ model))
      else inr filtered
  end.

(** ** Key selection *)

Definition containsString (ss : list string) (s : string) : bool :=
  existsb (λ v, bool_decide (v = s)) ss.

Definition key_serves (model : string) (k : KeyConfig) : bool :=
  bool_decide (k.(k_Models) = []) || containsString k.(k_Models) model.

Fixpoint pick_key (r : Z) (ks : list KeyConfig) : option string :=
  match ks with
  | [] => None
  | k :: ks' =>
    let r := wrap64 (r - k.(k_Weight)) in
    if r <? 0 then Some k.(k_Key) else pick_key r ks'
  end.

Section engine.
Context {Ext C Strm : Type} `{Cache C} `{Strconv}.
Implicit Types e : Engine Ext Strm.

Definition selectKey (st : engineState) (providerName model : string) : EM Ext C string :=
  match default [] (st.(keys) !! providerName) with
  | [] => mret ""
  | ks =>
    let eligible := List.filter (key_serves model) ks in
    let totalWeight := foldl (λ t k, wrap64 (t + k.(k_Weight))) 0 eligible in
    match eligible with
    | [] => mret ""
    | [k] => mret k.(k_Key)
    | k0 :: _ =>
      r ← IntN totalWeight;
      mret (default k0.(k_Key) (pick_key r eligible))
    end
  end.

(** ** Retries *)

Definition isRetryable (st : engineState) (statusCode : Z) : bool :=
  existsb (λ c, c =? statusCode) st.(cfg).(Routing).(rc_Failover).(fo_RetryOn).

Fixpoint pow_loop (n : nat) (result base : float64) : float64 :=
  match n with O => result | S n' => pow_loop n' (f64_mul result base) base end.

Definition pow (base : float64) (exp : Z) : float64 := pow_loop (Z.to_nat exp) (f64_of_Z 1) base.

(** [time.Duration(f)]: truncation, where the result fits; the language leaves
    the other cases to the implementation. *)
Context (cvt_overflow : float64 → Z).

Definition f64_to_int64 (f : float64) : Z :=
  match f with
  | S754_zero _ => 0
  | S754_finite s m x =>
    let a := if 0 <=? x then Z.pos m * 2 ^ x else Z.pos m / 2 ^ (- x) in
    let v := if s then - a else a in
    if decide (in_int64 v) then v else wrap64 (cvt_overflow f)
  | _ => wrap64 (cvt_overflow f)
  end.

Definition backoff_delay (bo : BackoffConfig) (attempt : Z) : Z :=
  let delay := f64_to_int64 (f64_mul (f64_of_Z bo.(bo_Initial)) (pow bo.(bo_Multiplier) attempt)) in
  if bo.(bo_Max) <? delay then bo.(bo_Max) else delay.

Definition backoff (st : engineState) (attempt : Z) : EM Ext C () :=
  log (ESleep (backoff_delay st.(cfg).(Routing).(rc_Failover).(fo_Backoff) attempt)).

(** The loops of the dispatchers: the attempts on one provider, which may return
    from the method, go on, or leave the provider; and the providers in order. *)
Inductive step (R : Type) :=
| SReturn (r : option R) (err : option gerror)
| SContinue (err : gerror)
| SBreak (err : gerror).
#[global] Arguments SReturn {R} r err.
#[global] Arguments SContinue {R} err.
#[global] Arguments SBreak {R} err.

Inductive outcome_of (R : Type) :=
| Done (r : option R) (err : option gerror)
| NextProvider (lastErr : option gerror).
#[global] Arguments Done {R} r err.
#[global] Arguments NextProvider {R} lastErr.

Fixpoint attempt_loop {R} (n : nat) (attempt : Z) (body : Z → EM Ext C (step R))
    (lastErr : option gerror) : EM Ext C (outcome_of R) :=
  match n with
  | O => mret (NextProvider lastErr)
  | S n' =>
    s ← body attempt;
    match s with
    | SReturn r err => mret (Done r err)
    | SContinue err => attempt_loop n' (attempt + 1) body (Some err)
    | SBreak err => mret (NextProvider (Some err))
    end
  end.

Fixpoint provider_loop {R} (names : list string)
    (try : string → option gerror → EM Ext C (outcome_of R)) (lastErr : option gerror)
  : EM Ext C (option R * option gerror) :=
  match names with
  | [] => mret (None, lastErr)
  | name :: names' =>
    o ← try name lastErr;
    match o with
    | Done r err => mret (r, err)
    | NextProvider lastErr' => provider_loop names' try lastErr'
    end
  end.

Definition maxAttempts (f : FailoverConfig) : nat :=
  if f.(fo_Enabled) then Z.to_nat (wrap64 (f.(fo_MaxRetries) + 1)) else 1%nat.

(** [errors.As(err, &pe) && e.isRetryable(st, pe.StatusCode)] *)
Definition retryable (st : engineState) (err : gerror) : bool :=
  match errors_As err with Some c => isRetryable st c | None => false end.

(** ** Chat completions *)

(** The LLM pre-hooks: the request context the plugins leave, with the body and
    the model it then holds. *)
Definition pre_hooks e (ctx : Ctx) (model : string) (rawBody : slice)
  : EM Ext C (option ptr * slice * string) :=
  match e.(chain) with
  | None => mret (GetRequestContext ctx, rawBody, model)
  | Some m =>
    p ← (match GetRequestContext ctx with
         | None =>
           t ← clock_now;
           alloc (mkRC None "" model rawBody (Some ∅) t None false 0 None)
         | Some p =>
           rc ← deref p; store_rc p (rc_set_model_body model rawBody rc);; mret p
         end);
    q ← run_hook (RunPreLLM m p);
    match q with
    | None => panic
    | Some q => rc ← deref q; mret (Some q, rc.(rc_Body), rc.(rc_Model))
    end
  end.

Definition set_provider (pctx : option ptr) (name : string) : EM Ext C () :=
  match pctx with
  | None => mret tt
  | Some p => rc ← deref p; store_rc p (rc_set_provider name rc)
  end.

(** The cache lookup of [Dispatch], keyed by the first provider. *)
Definition cache_lookup (pctx : option ptr) (providerNames : list string) (rawBody : slice)
  : EM Ext C (option ChatResponse) :=
  mc ← get_cache;
  match mc with
  | None => mret None
  | Some c =>
    if negb (IsCacheable (bytes_of rawBody)) then mret None else
    match providerNames with
    | [] => panic
    | first :: _ =>
      t ← clock_now;
      let '(cached, c') := Get (DeriveKey first (bytes_of rawBody)) t c in
      put_cache c';;
      match cached with
      | None => mret None
      | Some body =>
        (match pctx with
         | None => mret tt
         | Some p =>
           rc ← deref p;
           store_rc p (rc_set_provider first rc);;
           rc ← deref p;
           match rc.(rc_Metadata) with
           | None => panic
           | Some md => store_rc p (rc_set_metadata (<["cache" := MStr "hit"]> md) rc)
           end
         end);;
        mret (Some (mkChatResponse (Some body) 200 (Some {["X-Butter-Cache" := ["hit"]]})))
      end
    end
  end.

(** The LLM post-hooks on a provider's response. *)
Definition post_hooks e (pctx : option ptr) (resp : ChatResponse) : EM Ext C ChatResponse :=
  match e.(chain), pctx with
  | Some m, Some p =>
    x ← run_hook (RunPostLLM m p (mkResponse resp.(cs_StatusCode) resp.(cs_Headers) resp.(cs_RawBody)));
    match x with
    | None => panic
    | Some r => mret (mkChatResponse r.(r_Body) r.(r_StatusCode) r.(r_Headers))
    end
  | _, _ => mret resp
  end.

Definition cache_store e (name : string) (rawBody : slice) (resp : ChatResponse)
  : EM Ext C () :=
  mc ← get_cache;
  match mc with
  | None => mret tt
  | Some c =>
    if (resp.(cs_StatusCode) =? 200) && IsCacheable (bytes_of rawBody) then
      t ← clock_now;
      put_cache (Set_ (DeriveKey name (bytes_of rawBody)) resp.(cs_RawBody) e.(cacheTTL) t c)
    else mret tt
  end.

(** What a failed attempt of a chat request does next. *)
Definition chat_failed {R} (st : engineState) (err : gerror) : step R :=
  if negb st.(cfg).(Routing).(rc_Failover).(fo_Enabled) then SReturn None (Some err)
  else if retryable st err then SContinue err else SBreak err.

Definition chat_attempt e (ctx : Ctx) (pctx : option ptr) (req : ChatRequest) (rawBody : slice)
    (model name : string) (p : Provider Ext Strm) (attempt : Z)
  : EM Ext C (step ChatResponse) :=
  (if 0 <? attempt then backoff e.(st) (attempt - 1) else mret tt);;
  key ← selectKey e.(st) name model;
  log (ECall OpChatCompletion name key model);;
  r ← run_ext (ChatCompletion p ctx (mkChatRequest model req.(cq_Stream) rawBody key));
  match r with
  | inr resp =>
    set_provider pctx name;;
    resp ← post_hooks e pctx resp;
    log (EReply name rawBody resp);;
    cache_store e name rawBody resp;;
    mret (SReturn (Some resp) None)
  | inl err => mret (chat_failed e.(st) err)
  end.

(** A provider that is not registered is skipped. *)
Definition with_provider {R} e (name : string)
    (k : Provider Ext Strm → EM Ext C (outcome_of R)) : EM Ext C (outcome_of R) :=
  match RegistryGet e.(registry) name with
  | inl err => mret (NextProvider (Some err))
  | inr p => k p
  end.

Definition Dispatch e (ctx : Ctx) (rawBody : slice)
  : EM Ext C (option ChatResponse * option gerror) :=
  match parseAndRoute e.(st) rawBody with
  | inl err => mret (None, Some err)
  | inr (req, names) =>
    match enforceScopes ctx req.(cq_Model) names with
    | inl err => mret (None, Some err)
    | inr names =>
      '(pctx, rawBody, model) ← pre_hooks e ctx req.(cq_Model) rawBody;
      hit ← cache_lookup pctx names rawBody;
      match hit with
      | Some resp => mret (Some resp, None)
      | None =>
        provider_loop names (λ name lastErr,
          with_provider e name (λ p,
            attempt_loop (maxAttempts e.(st).(cfg).(Routing).(rc_Failover)) 0
              (chat_attempt e ctx pctx req rawBody model name p) lastErr)) None
      end
    end
  end.

(** ** Streams *)

Definition stream_attempt e (ctx : Ctx) (pctx : option ptr) (req : ChatRequest) (rawBody : slice)
    (model name : string) (p : Provider Ext Strm) (attempt : Z) : EM Ext C (step Strm) :=
  (if 0 <? attempt then backoff e.(st) (attempt - 1) else mret tt);;
  key ← selectKey e.(st) name model;
  log (ECall OpChatCompletionStream name key model);;
  r ← run_ext (ChatCompletionStream p ctx (mkChatRequest model req.(cq_Stream) rawBody key));
  match r with
  | inr stream => set_provider pctx name;; mret (SReturn (Some stream) None)
  | inl err => mret (chat_failed e.(st) err)
  end.

Definition DispatchStream e (ctx : Ctx) (rawBody : slice)
  : EM Ext C (option Strm * option gerror) :=
  match parseAndRoute e.(st) rawBody with
  | inl err => mret (None, Some err)
  | inr (req, names) =>
    match enforceScopes ctx req.(cq_Model) names with
    | inl err => mret (None, Some err)
    | inr names =>
      '(pctx, rawBody, model) ← pre_hooks e ctx req.(cq_Model) rawBody;
      provider_loop names (λ name lastErr,
        with_provider e name (λ p,
          attempt_loop (maxAttempts e.(st).(cfg).(Routing).(rc_Failover)) 0
            (stream_attempt e ctx pctx req rawBody model name p) lastErr)) None
    end
  end.

(** ** Embeddings *)

Definition embed_attempt e (ctx : Ctx) (rawBody : slice) (model name : string)
    (f : Ctx → EmbeddingRequest → ST Ext (gerror + ChatResponse)) (attempt : Z)
  : EM Ext C (step ChatResponse) :=
  (if 0 <? attempt then backoff e.(st) (attempt - 1) else mret tt);;
  key ← selectKey e.(st) name model;
  log (ECall OpEmbeddings name key model);;
  r ← run_ext (f ctx (mkEmbeddingRequest model rawBody key));
  match r with
  | inr resp => mret (SReturn (Some resp) None)
  | inl err => mret (if retryable e.(st) err then SContinue err else SBreak err)
  end.

Definition DispatchEmbeddings e (ctx : Ctx) (rawBody : slice)
  : EM Ext C (option ChatResponse * option gerror) :=
  match Unmarshal (dec_struct [dec_model; dec_provider]) (bytes_of rawBody)
          (mkFields "" false "") with
  | (_, false) => mret (None, Some err_body)
  | (partial, true) =>
    if decide (partial.(f_Model) = "") then mret (None, Some err_model) else
    let names := resolveProviders e.(st) partial.(f_Model) partial.(f_Provider) in
    if decide (names = []) then mret (None, Some (err_route partial.(f_Model))) else
    match enforceScopes ctx partial.(f_Model) names with
    | inl err => mret (None, Some err)
    | inr names =>
      provider_loop names (λ name lastErr,
        with_provider e name (λ p,
          match Embeddings p with
          | None => mret (NextProvider (Some (GPlain
              ("provider " +:+ name +:+ " does not support embeddings"))))
          | Some f =>
            attempt_loop (maxAttempts e.(st).(cfg).(Routing).(rc_Failover)) 0
              (embed_attempt e ctx rawBody partial.(f_Model) name f) lastErr
          end)) None
    end
  end.

(** ** Anthropic Messages *)

(** The gateway's credentials, unless the provider is configured to pass the
    client's own through. *)
Definition auth_headers e (p : Provider Ext Strm) (name model : string) (headers : Header)
  : EM Ext C Header :=
  let mode := from_option pc_CredentialMode "" (e.(st).(cfg).(Providers) !! name) in
  if decide (mode = "passthrough") then mret headers else
  apiKey ← selectKey e.(st) name model;
  if decide (apiKey = "") then mret headers else
  mret (match SetAuthHeader p with
        | Some setter => setter headers apiKey
        | None => hdr_set headers "Authorization" ("Bearer " +:+ apiKey)
        end).

Definition native_attempt e (ctx : Ctx) (pctx : option ptr) (rawBody : slice)
    (clientHeaders : Header) (model name : string) (p : Provider Ext Strm)
    (f : Ctx → slice → Header → ST Ext (gerror + HTTPResponse)) (attempt : Z)
  : EM Ext C (step HTTPResponse) :=
  (if 0 <? attempt then backoff e.(st) attempt else mret tt);;
  fwdHeaders ← auth_headers e p name model clientHeaders;
  log (ECall OpChatCompletion name "" model);;
  r ← run_ext (f ctx rawBody fwdHeaders);
  match r with
  | inr resp => set_provider pctx name;; mret (SReturn (Some resp) None)
  | inl err => mret (if retryable e.(st) err then SContinue err else SBreak err)
  end.

Definition DispatchAnthropicNative e (ctx : Ctx) (rawBody : slice) (clientHeaders : Header)
  : EM Ext C (option HTTPResponse * option gerror) :=
  match Unmarshal (dec_struct [dec_model]) (bytes_of rawBody) (mkFields "" false "") with
  | (_, false) => mret (None, Some err_body)
  | (partial, true) =>
    if decide (partial.(f_Model) = "") then mret (None, Some err_model) else
    let names := resolveProviders e.(st) partial.(f_Model) "" in
    if decide (names = []) then mret (None, Some (err_route partial.(f_Model))) else
    match enforceScopes ctx partial.(f_Model) names with
    | inl err => mret (None, Some err)
    | inr names =>
      (match GetRequestContext ctx with
       | None => mret tt
       | Some q => rc ← deref q; store_rc q (rc_set_model_body partial.(f_Model) rc.(rc_Body) rc)
       end);;
      provider_loop names (λ name lastErr,
        with_provider e name (λ p,
          match HandleAnthropicNative p with
          | None => mret (NextProvider (Some (GPlain
              ("provider " +:+ name +:+ " does not support Anthropic native API"))))
          | Some f =>
            attempt_loop (maxAttempts e.(st).(cfg).(Routing).(rc_Failover)) 0
              (native_attempt e ctx (GetRequestContext ctx) rawBody clientHeaders
                 partial.(f_Model) name p f) lastErr
          end)) None
    end
  end.

(** ** Passthrough and models *)

Definition DispatchPassthrough e (ctx : Ctx) (providerName method path : string)
    (body : ReqBody) (headers : Header) : EM Ext C (gerror + HTTPResponse) :=
  match RegistryGet e.(registry) providerName with
  | inl err => mret (inl err)
  | inr p =>
    if negb (SupportsOperation p OpPassthrough)
    then mret (inl (GPlain ("provider " +:+ providerName +:+ " does not support passthrough")))
    else
      headers ← auth_headers e p providerName "" headers;
      log (ECall OpPassthrough providerName "" "");;
      run_ext (Passthrough p ctx method path body headers)
  end.

Record ModelInfo := mkModelInfo {
  mi_ID : string;
  mi_OwnedBy : string
}.

(** The map is ranged over in some order. *)
Definition ListModels e : list ModelInfo :=
  (λ '(id, route), mkModelInfo id
     (match route.(rt_Providers) with p :: _ => p | [] => "butter" end))
  <$> map_to_list e.(st).(cfg).(Routing).(rc_Models).
End engine.
