(* ===== verification/EngineProofs.v ===== *)
(** * Correctness of the dispatch engine

    A small program logic for the methods of Engine (what a run appends to the
    log, with its result), the specifications of the loops, and the theorems:
    scope enforcement, order and number of attempts, key selection, delays, and
    the soundness of the response cache. *)
From S2P Require Import Prelude GoStd Json Config Token Store MemoryCache CacheKey Plugin Engine.

(** ** Logic *)

Section logic.
Context {Ext C : Type}.
Implicit Types s : Env Ext C.

Lemma EM_bind_inv {A B} (m : EM Ext C A) (f : A → EM Ext C B) s b s'' :
  (m ≫= f) s = Ret (b, s'') ↔ ∃ a s', m s = Ret (a, s') ∧ f a s' = Ret (b, s'').
Proof.
  unfold mbind, EM_bind. destruct (m s) as [[a s']|]; [|by split; [|intros (? & ? & ? & ?)]].
  split; [by eauto|]. intros (? & ? & [= -> ->] & ?). done.
Qed.

(** Every run of [m] that returns appends to the log events that are, with the
    result, in [Q]. *)
Definition spec {A} (m : EM Ext C A) (Q : A → list event → Prop) : Prop :=
  ∀ s a s', m s = Ret (a, s') → ∃ es, s'.(events) = s.(events) ++ es ∧ Q a es.

(** Nothing is logged. *)
Definition silent {A} (m : EM Ext C A) : Prop := spec m (λ _ es, es = []).

Lemma spec_ret {A} (a : A) (Q : A → list event → Prop) : Q a [] → spec (mret a) Q.
Proof. intros HQ s ? ? [= <- <-]. exists []. by rewrite app_nil_r. Qed.

Lemma spec_panic {A} (Q : A → list event → Prop) : spec panic Q.
Proof. by intros ???. Qed.

Lemma spec_weaken {A} (m : EM Ext C A) (Q Q' : A → list event → Prop) :
  spec m Q → (∀ a es, Q a es → Q' a es) → spec m Q'.
Proof. intros Hm HQ s a s' Hr. destruct (Hm s a s' Hr) as (es & ? & ?). eauto. Qed.

Lemma spec_bind {A B} (m : EM Ext C A) (f : A → EM Ext C B) Q1 (Q : B → list event → Prop) :
  spec m Q1 → (∀ a e1, Q1 a e1 → spec (f a) (λ b e2, Q b (e1 ++ e2))) → spec (m ≫= f) Q.
Proof.
  intros Hm Hf s b s'' (a & s' & H1 & H2)%EM_bind_inv.
  destruct (Hm s a s' H1) as (e1 & E1 & Q1a). destruct (Hf a e1 Q1a s' b s'' H2) as (e2 & E2 & ?).
  exists (e1 ++ e2). by rewrite E2, E1, app_assoc.
Qed.

Lemma spec_silent_bind {A B} (m : EM Ext C A) (f : A → EM Ext C B) (Q : B → list event → Prop) :
  silent m → (∀ a, spec (f a) Q) → spec (m ≫= f) Q.
Proof. intros Hm Hf. eapply spec_bind; [exact Hm|]. intros a ? ->. apply Hf. Qed.

Lemma spec_log ev (Q : () → list event → Prop) : Q tt [ev] → spec (log ev) Q.
Proof. intros HQ s a s' [= <- <-]. by exists [ev]. Qed.

Lemma spec_log_bind {B} ev (f : () → EM Ext C B) (Q : B → list event → Prop) :
  spec (f tt) (λ b es, Q b ([ev] ++ es)) → spec (log ev ≫= f) Q.
Proof.
  intros Hf. apply (spec_bind _ _ (λ _ es, es = [ev])); [by apply spec_log|].
  by intros [] ? ->.
Qed.

Lemma silent_clock_now : silent clock_now.
Proof. intros s a s' [= <- <-]. exists []. by rewrite app_nil_r. Qed.

Lemma silent_IntN n : silent (IntN n).
Proof.
  intros s a s'. unfold IntN. destruct (n <=? 0); [done|]. intros [= <- <-].
  exists []. by rewrite app_nil_r.
Qed.

Lemma silent_run_hook {A} (m : ST (PWorld Ext) A) : silent (run_hook m).
Proof.
  intros s a s'. unfold run_hook. destruct (m (plug s)). intros [= <- <-].
  exists []. by rewrite app_nil_r.
Qed.

Lemma silent_run_ext {A} (m : ST Ext A) : silent (run_ext m).
Proof.
  intros s a s'. unfold run_ext. destruct (m _). intros [= <- <-].
  exists []. by rewrite app_nil_r.
Qed.

Lemma silent_deref p : silent (deref p).
Proof.
  intros s a s'. unfold deref. case_match; [|done]. intros [= <- <-].
  exists []. by rewrite app_nil_r.
Qed.

Lemma silent_store_rc p rc : silent (store_rc p rc).
Proof. intros s a s' [= <- <-]. exists []. by rewrite app_nil_r. Qed.

Lemma silent_alloc rc : silent (alloc rc).
Proof. intros s a s' [= <- <-]. exists []. by rewrite app_nil_r. Qed.

Lemma silent_get_cache : silent get_cache.
Proof. intros s a s' [= <- <-]. exists []. by rewrite app_nil_r. Qed.

Lemma silent_put_cache c : silent (put_cache c).
Proof. intros s a s' [= <- <-]. exists []. by rewrite app_nil_r. Qed.

Lemma silent_ret {A} (a : A) : silent (mret a).
Proof. by apply spec_ret. Qed.

Lemma silent_panic {A} : silent (A := A) panic.
Proof. apply spec_panic. Qed.

Lemma silent_bind {A B} (m : EM Ext C A) (f : A → EM Ext C B) :
  silent m → (∀ a, silent (f a)) → silent (m ≫= f).
Proof. apply spec_silent_bind. Qed.
End logic.

Create HintDb engine discriminated.
#[export] Hint Resolve silent_clock_now silent_IntN silent_run_hook silent_run_ext silent_deref
  silent_store_rc silent_alloc silent_get_cache silent_put_cache silent_ret silent_panic : engine.

(** [silent_tac] follows the structure of a method that logs nothing. *)
Ltac silent_tac :=
  repeat first
    [ solve [auto with engine]
    | apply silent_bind; [|intros ?]
    | match goal with |- silent (match ?x with _ => _ end) => destruct x end
    | match goal with |- silent (let '_ := ?x in _) => destruct x end ].

(** ** The calls a run makes *)

Definition call_names (es : list event) : list string :=
  omap (λ ev, match ev with ECall _ n _ _ => Some n | _ => None end) es.

Lemma call_names_app e1 e2 : call_names (e1 ++ e2) = call_names e1 ++ call_names e2.
Proof. apply omap_app. Qed.

(** Calls grouped by provider, in the order of the list, at most [n] each. *)
Inductive grouped (n : nat) : list string → list string → Prop :=
| grouped_nil names : grouped n names []
| grouped_cons k x names calls :
    (k ≤ n)%nat → grouped n names calls → grouped n (x :: names) (replicate k x ++ calls).

Lemma grouped_incl n names calls x : grouped n names calls → x ∈ calls → x ∈ names.
Proof.
  induction 1 as [|k y names calls Hk Hg IH]; [by intros ?%elem_of_nil|].
  intros [[-> _]%elem_of_replicate|?]%elem_of_app; [by left|right; auto].
Qed.

Lemma grouped_length n names calls :
  grouped n names calls → (length calls ≤ n * length names)%nat.
Proof.
  induction 1 as [|k y names calls Hk Hg IH]; cbn; [lia|].
  rewrite length_app, length_replicate. lia.
Qed.

Section engine_specs.
Context {Ext C Strm : Type} `{Cache C} `{Strconv}.
Context (cvt : float64 → Z).
Implicit Types e : Engine Ext Strm.
Implicit Types s : Env Ext C.

Lemma silent_selectKey st name model : silent (selectKey (Ext := Ext) (C := C) st name model).
Proof. unfold selectKey. silent_tac. Qed.

Lemma silent_set_provider pctx name : silent (set_provider (Ext := Ext) (C := C) pctx name).
Proof. unfold set_provider. silent_tac. Qed.

Lemma silent_pre_hooks e ctx model body : silent (pre_hooks (C := C) e ctx model body).
Proof. unfold pre_hooks. silent_tac. Qed.

Lemma silent_post_hooks e pctx resp : silent (post_hooks (C := C) e pctx resp).
Proof. unfold post_hooks. silent_tac. Qed.

Lemma silent_cache_lookup pctx names body : silent (cache_lookup (Ext := Ext) (C := C) pctx names body).
Proof. unfold cache_lookup. silent_tac. Qed.

Lemma silent_cache_store e name body resp : silent (cache_store (C := C) e name body resp).
Proof. unfold cache_store. silent_tac. Qed.

Lemma silent_auth_headers e p name model h : silent (auth_headers (C := C) e p name model h).
Proof. unfold auth_headers. silent_tac; try apply silent_selectKey; silent_tac. Qed.

Lemma maybe_backoff st attempt k :
  spec (if 0 <? k then backoff (Ext := Ext) (C := C) cvt st attempt else mret tt)
    (λ _ es, call_names es = []).
Proof. destruct (0 <? k); [by apply spec_log|by apply spec_ret]. Qed.

(** [after_call] runs the part of an attempt up to the provider's answer. *)
Ltac after_call :=
  eapply spec_bind; [apply maybe_backoff|]; intros ? ? Hb.

Lemma call_names_1 l1 op name key model l2 :
  call_names l1 = [] → call_names l2 = [] →
  call_names (l1 ++ [ECall op name key model] ++ l2) = [name].
Proof. intros H1 H2. by rewrite !call_names_app, H1, H2. Qed.

(** An attempt calls its provider once; without failover a chat attempt always
    returns from the method. *)
Lemma chat_attempt_spec e ctx pctx req body model name p attempt :
  spec (chat_attempt (C := C) cvt e ctx pctx req body model name p attempt)
    (λ x es, call_names es = [name] ∧
       (fo_Enabled (rc_Failover (Routing (cfg (st e)))) = false → ∃ r err, x = SReturn r err)).
Proof.
  unfold chat_attempt. after_call. apply spec_silent_bind; [apply silent_selectKey|]. intros key.
  apply spec_log_bind.
  apply spec_silent_bind; [auto with engine|]. intros [err|resp].
  - apply spec_ret. split; [by apply call_names_1|]. intros Hf. unfold chat_failed. rewrite Hf.
    cbn. eauto.
  - apply spec_silent_bind; [apply silent_set_provider|]. intros _.
    apply spec_silent_bind; [apply silent_post_hooks|]. intros resp'.
    apply spec_log_bind.
    apply spec_silent_bind; [apply silent_cache_store|]. intros _. apply spec_ret.
    split; [|by eauto]. by rewrite !call_names_app, Hb.
Qed.

Lemma stream_attempt_spec e ctx pctx req body model name p attempt :
  spec (stream_attempt (C := C) cvt e ctx pctx req body model name p attempt)
    (λ x es, call_names es = [name] ∧
       (fo_Enabled (rc_Failover (Routing (cfg (st e)))) = false → ∃ r err, x = SReturn r err)).
Proof.
  unfold stream_attempt. after_call. apply spec_silent_bind; [apply silent_selectKey|]. intros key.
  apply spec_log_bind.
  apply spec_silent_bind; [auto with engine|]. intros [err|resp].
  - apply spec_ret. split; [by apply call_names_1|]. intros Hf. unfold chat_failed. rewrite Hf.
    cbn. eauto.
  - apply spec_silent_bind; [apply silent_set_provider|]. intros _. apply spec_ret.
    split; [by apply call_names_1|by eauto].
Qed.

Lemma embed_attempt_spec e ctx body model name f attempt :
  spec (embed_attempt (C := C) cvt e ctx body model name f attempt)
    (λ x es, call_names es = [name]).
Proof.
  unfold embed_attempt. after_call. apply spec_silent_bind; [apply silent_selectKey|]. intros key.
  apply spec_log_bind.
  apply spec_silent_bind; [auto with engine|]. intros [err|resp]; apply spec_ret;
    by apply call_names_1.
Qed.

Lemma native_attempt_spec e ctx pctx body h model name p f attempt :
  spec (native_attempt (C := C) cvt e ctx pctx body h model name p f attempt)
    (λ x es, call_names es = [name]).
Proof.
  unfold native_attempt. after_call. apply spec_silent_bind; [apply silent_auth_headers|]. intros h'.
  apply spec_log_bind.
  apply spec_silent_bind; [auto with engine|]. intros [err|resp].
  - apply spec_ret. by apply call_names_1.
  - apply spec_silent_bind; [apply silent_set_provider|]. intros _. apply spec_ret.
    by apply call_names_1.
Qed.

(** ** The loops *)

Lemma attempt_loop_spec {R} name (body : Z → EM Ext C (step R)) :
  (∀ a, spec (body a) (λ _ es, call_names es = [name])) →
  ∀ n a last, spec (attempt_loop n a body last)
    (λ o es, ∃ k, (k ≤ n)%nat ∧ call_names es = replicate k name ∧
       ∀ r err, o = Done (Some r) err → k ≠ 0%nat).
Proof.
  intros Hb n. induction n as [|n IH]; intros a last; cbn [attempt_loop].
  - apply spec_ret. exists 0%nat. by split_and!.
  - eapply spec_bind; [apply Hb|]. intros [r err|err|err] e1 He1.
    + apply spec_ret. exists 1%nat. rewrite app_nil_r, He1. split_and!; [lia|done|done].
    + eapply spec_weaken; [apply IH|]. intros o e2 (k & Hk & He2 & _). exists (S k).
      rewrite call_names_app, He1, He2. split_and!; [lia|done|done].
    + apply spec_ret. exists 1%nat. rewrite app_nil_r, He1. split_and!; [lia|done|done].
Qed.

Lemma with_provider_spec {R} e name (k : Provider Ext Strm → EM Ext C (outcome_of R)) n :
  (∀ p, spec (k p) (λ o es, ∃ j, (j ≤ n)%nat ∧ call_names es = replicate j name ∧
       ∀ r err, o = Done (Some r) err → j ≠ 0%nat)) →
  spec (with_provider e name k) (λ o es, ∃ j, (j ≤ n)%nat ∧ call_names es = replicate j name ∧
       ∀ r err, o = Done (Some r) err → j ≠ 0%nat).
Proof.
  intros Hk. unfold with_provider. destruct (RegistryGet _ name); [|apply Hk].
  apply spec_ret. exists 0%nat. split_and!; [lia|done|done].
Qed.

Lemma provider_loop_spec {R} n (try : string → option gerror → EM Ext C (outcome_of R)) names :
  (∀ name last, spec (try name last) (λ o es, ∃ j, (j ≤ n)%nat ∧
     call_names es = replicate j name ∧ ∀ r err, o = Done (Some r) err → j ≠ 0%nat)) →
  ∀ last, spec (provider_loop names try last)
    (λ x es, grouped n names (call_names es) ∧ (is_Some x.1 → call_names es ≠ [])).
Proof.
  intros Ht. induction names as [|name names IH]; intros last; cbn [provider_loop].
  - apply spec_ret. split; [constructor|]. by intros [].
  - eapply spec_bind; [apply Ht|]. intros [r err|last'] e1 (j & Hj & He1 & Hr).
    + apply spec_ret. rewrite app_nil_r, He1. split.
      * rewrite <-(app_nil_r (replicate j name)). by repeat constructor.
      * intros [r' Hr']. cbn in Hr'. subst r. specialize (Hr r' err eq_refl). by destruct j.
    + eapply spec_weaken; [apply IH|]. intros x e2 [Hg Hx].
      rewrite call_names_app, He1. split; [by constructor|].
      intros ?%Hx E. by apply app_eq_nil in E as [_ ?].
Qed.

(** Without failover: each provider tried is skipped without a call or ends the
    method. *)
Lemma provider_loop_once {R} (try : string → option gerror → EM Ext C (outcome_of R)) names :
  (∀ name last, spec (try name last) (λ o es,
     (call_names es = [] ∧ ∃ l, o = NextProvider l) ∨
     (length (call_names es) ≤ 1)%nat ∧ ∃ r err, o = Done r err)) →
  ∀ last, spec (provider_loop names try last) (λ _ es, (length (call_names es) ≤ 1)%nat).
Proof.
  intros Ht. induction names as [|name names IH]; intros last; cbn [provider_loop].
  - apply spec_ret. cbn. lia.
  - eapply spec_bind; [apply Ht|]. intros o e1 [[He1 [l ->]]|[He1 (r & err & ->)]].
    + eapply spec_weaken; [apply IH|]. intros x e2 He2. by rewrite call_names_app, He1.
    + apply spec_ret. by rewrite app_nil_r.
Qed.
End engine_specs.

(** ** Requests *)

(** The four kinds of request that are routed by model. *)
Inductive request :=
| RChat (body : slice)
| RStream (body : slice)
| REmbed (body : slice)
| RNative (body : slice) (headers : Header).

Section requests.
Context {Ext C Strm : Type} `{Cache C} `{Strconv}.
Context (cvt : float64 → Z).
Implicit Types e : Engine Ext Strm.
Implicit Types s : Env Ext C.

Definition serve e (ctx : Ctx) (rq : request) : EM Ext C () :=
  match rq with
  | RChat body => Dispatch cvt e ctx body;; mret tt
  | RStream body => DispatchStream cvt e ctx body;; mret tt
  | REmbed body => DispatchEmbeddings cvt e ctx body;; mret tt
  | RNative body h => DispatchAnthropicNative cvt e ctx body h;; mret tt
  end.

(** The model and the explicit provider a request names. *)
Definition request_fields (rq : request) : route_fields :=
  let fields := match rq with
                | RChat _ | RStream _ => [dec_model; dec_stream; dec_provider]
                | REmbed _ => [dec_model; dec_provider]
                | RNative _ _ => [dec_model]
                end in
  let body := match rq with RChat b | RStream b | REmbed b | RNative b _ => b end in
  (Unmarshal (dec_struct fields) (bytes_of body) (mkFields "" false "")).1.

(** The providers it may be sent to, in order. *)
Definition candidates e (ctx : Ctx) (rq : request) : list string :=
  let f := request_fields rq in
  let explicit := match rq with RNative _ _ => "" | _ => f.(f_Provider) end in
  match enforceScopes ctx f.(f_Model) (resolveProviders e.(st) f.(f_Model) explicit) with
  | inl _ => []
  | inr names => names
  end.

Definition attempts e : nat := maxAttempts e.(st).(cfg).(Routing).(rc_Failover).

Lemma enforceScopes_spec ctx model names names' :
  enforceScopes ctx model names = inr names' →
  IsModelAllowed ctx.(cx_scopes) model = true ∧
  ∀ n, n ∈ names' → n ∈ names ∧ IsProviderAllowed ctx.(cx_scopes) n = true.
Proof.
  unfold enforceScopes, ScopesFromContext. destruct (cx_scopes ctx) as [sc|].
  - destruct (IsModelAllowed (Some sc) model); cbn [negb]; [|done].
    case_decide as Hp.
    + intros [= <-]. split; [done|]. intros n ?. split; [done|]. cbn. by rewrite decide_True.
    + case_decide; [done|]. intros [= <-]. split; [done|].
      intros n [? ?]%list_elem_of_In%filter_In. split; [by apply list_elem_of_In|done].
  - intros [= <-]. done.
Qed.

(** [parseAndRoute] repeats the resolution of [resolveProviders]. *)
Lemma parseAndRoute_spec st body req names :
  parseAndRoute st body = inr (req, names) →
  let f := request_fields (RChat body) in
  req.(cq_Model) = f.(f_Model) ∧ names = resolveProviders st f.(f_Model) f.(f_Provider) ∧
  names ≠ [].
Proof.
  unfold parseAndRoute, request_fields. destruct (Unmarshal _ _ _) as [p []]; [|done].
  case_decide; [done|]. case_decide as Hn; [done|]. intros [= <- <-]. cbn. done.
Qed.

Lemma loop_grouped {R} e names (go : string → Provider Ext Strm → option gerror →
    EM Ext C (outcome_of R)) :
  (∀ name p last, spec (go name p last) (λ o es, ∃ k, (k ≤ attempts e)%nat ∧
     call_names es = replicate k name ∧ ∀ r err, o = Done (Some r) err → k ≠ 0%nat)) →
  spec (provider_loop names (λ name last, with_provider e name (λ p, go name p last)) None)
    (λ x es, grouped (attempts e) names (call_names es) ∧ (is_Some x.1 → call_names es ≠ [])).
Proof. intros Hgo. apply provider_loop_spec. intros. apply with_provider_spec. intros. apply Hgo. Qed.

Lemma Dispatch_grouped e ctx body :
  spec (Dispatch (C := C) cvt e ctx body)
    (λ _ es, grouped (attempts e) (candidates e ctx (RChat body)) (call_names es)).
Proof.
  unfold Dispatch, candidates. destruct (parseAndRoute (st e) body) as [err|[req names]] eqn:Hp;
    [apply spec_ret; constructor|].
  apply parseAndRoute_spec in Hp as (Hm & Hn & _). rewrite Hm, Hn.
  destruct (enforceScopes ctx _ _) as [err|names']; [apply spec_ret; constructor|].
  apply spec_silent_bind; [apply silent_pre_hooks|]. intros [[pctx body'] model].
  apply spec_silent_bind; [apply silent_cache_lookup|]. intros [hit|]; [apply spec_ret; constructor|].
  eapply spec_weaken; [apply loop_grouped|by intros ? ? [? _]].
  intros name p last. apply attempt_loop_spec. intros a.
  eapply spec_weaken; [apply chat_attempt_spec|by intros ? ? [? _]].
Qed.

Lemma DispatchStream_grouped e ctx body :
  spec (DispatchStream (C := C) cvt e ctx body)
    (λ _ es, grouped (attempts e) (candidates e ctx (RStream body)) (call_names es)).
Proof.
  unfold DispatchStream, candidates.
  destruct (parseAndRoute (st e) body) as [err|[req names]] eqn:Hp;
    [apply spec_ret; constructor|].
  apply parseAndRoute_spec in Hp as (Hm & Hn & _). rewrite Hm, Hn.
  destruct (enforceScopes ctx _ _) as [err|names']; [apply spec_ret; constructor|].
  apply spec_silent_bind; [apply silent_pre_hooks|]. intros [[pctx body'] model].
  eapply spec_weaken; [apply loop_grouped|by intros ? ? [? _]].
  intros name p last. apply attempt_loop_spec. intros a.
  eapply spec_weaken; [apply stream_attempt_spec|by intros ? ? [? _]].
Qed.

Lemma DispatchEmbeddings_grouped e ctx body :
  spec (DispatchEmbeddings (C := C) cvt e ctx body)
    (λ _ es, grouped (attempts e) (candidates e ctx (REmbed body)) (call_names es)).
Proof.
  unfold DispatchEmbeddings, candidates, request_fields.
  destruct (Unmarshal _ _ _) as [f []]; [|apply spec_ret; constructor]. cbn [fst].
  case_decide; [apply spec_ret; constructor|]. case_decide; [apply spec_ret; constructor|].
  destruct (enforceScopes ctx _ _) as [err|names']; [apply spec_ret; constructor|].
  eapply spec_weaken; [apply loop_grouped|by intros ? ? [? _]].
  intros name p last. destruct (Embeddings p) as [g|].
  - apply attempt_loop_spec. intros a. apply embed_attempt_spec.
  - apply spec_ret. exists 0%nat. split_and!; [lia|done|done].
Qed.

Lemma DispatchNative_grouped e ctx body h :
  spec (DispatchAnthropicNative (C := C) cvt e ctx body h)
    (λ _ es, grouped (attempts e) (candidates e ctx (RNative body h)) (call_names es)).
Proof.
  unfold DispatchAnthropicNative, candidates, request_fields.
  destruct (Unmarshal _ _ _) as [f []]; [|apply spec_ret; constructor]. cbn [fst].
  case_decide; [apply spec_ret; constructor|]. case_decide; [apply spec_ret; constructor|].
  destruct (enforceScopes ctx _ _) as [err|names']; [apply spec_ret; constructor|].
  apply spec_silent_bind; [silent_tac|]. intros _.
  eapply spec_weaken; [apply loop_grouped|by intros ? ? [? _]].
  intros name p last. destruct (HandleAnthropicNative p) as [g|].
  - apply attempt_loop_spec. intros a. apply native_attempt_spec.
  - apply spec_ret. exists 0%nat. split_and!; [lia|done|done].
Qed.

Lemma serve_grouped e ctx rq :
  spec (serve e ctx rq)
    (λ _ es, grouped (attempts e) (candidates e ctx rq) (call_names es)).
Proof.
  assert (∀ A (m : EM Ext C A) P, spec m (λ _ es, P es) → spec (m;; mret tt) (λ _ es, P es))
    as Hret.
  { intros A m P Hm. eapply spec_bind; [exact Hm|]. intros ? e1 He1. apply spec_ret.
    by rewrite app_nil_r. }
  destruct rq; apply (Hret _ _ (λ es, grouped _ _ (call_names es)));
    auto using Dispatch_grouped, DispatchStream_grouped, DispatchEmbeddings_grouped,
      DispatchNative_grouped.
Qed.

Lemma candidates_allowed e ctx rq n :
  n ∈ candidates e ctx rq →
  IsProviderAllowed ctx.(cx_scopes) n = true ∧
  IsModelAllowed ctx.(cx_scopes) (request_fields rq).(f_Model) = true.
Proof.
  unfold candidates. destruct (enforceScopes _ _ _) as [|names] eqn:Hs; [by intros ?%elem_of_nil|].
  apply enforceScopes_spec in Hs as [? Hs]. intros ?%Hs. tauto.
Qed.

Lemma chat_loop_once {R} e name (body : Provider Ext Strm → Z → EM Ext C (step R)) last :
  fo_Enabled (rc_Failover (Routing (cfg (st e)))) = false →
  (∀ p a, spec (body p a) (λ x es, call_names es = [name] ∧
     (fo_Enabled (rc_Failover (Routing (cfg (st e)))) = false → ∃ r err, x = SReturn r err))) →
  spec (with_provider e name (λ p, attempt_loop (attempts e) 0 (body p) last)) (λ o es,
     (call_names es = [] ∧ ∃ l, o = NextProvider l) ∨
     (length (call_names es) ≤ 1)%nat ∧ ∃ r err, o = Done r err).
Proof.
  intros Hf Hb. unfold with_provider. destruct (RegistryGet _ name) as [err|p].
  - apply spec_ret. left. eauto.
  - unfold attempts, maxAttempts. rewrite Hf. cbn [attempt_loop].
    eapply spec_bind; [apply Hb|]. intros x e1 [He1 Hx]. destruct (Hx Hf) as (r & err & ->).
    apply spec_ret. right. rewrite app_nil_r, He1. cbn. eauto.
Qed.

Lemma Dispatch_once e ctx body :
  fo_Enabled (rc_Failover (Routing (cfg (st e)))) = false →
  spec (Dispatch (C := C) cvt e ctx body) (λ _ es, (length (call_names es) ≤ 1)%nat).
Proof.
  intros Hf. unfold Dispatch. destruct (parseAndRoute (st e) body) as [err|[req names]];
    [apply spec_ret; cbn; lia|].
  destruct (enforceScopes ctx _ _) as [err|names']; [apply spec_ret; cbn; lia|].
  apply spec_silent_bind; [apply silent_pre_hooks|]. intros [[pctx body'] model].
  apply spec_silent_bind; [apply silent_cache_lookup|].
  intros [hit|]; [apply spec_ret; cbn; lia|].
  apply provider_loop_once. intros name last. apply chat_loop_once; [done|].
  intros p a. apply chat_attempt_spec.
Qed.

Lemma DispatchStream_once e ctx body :
  fo_Enabled (rc_Failover (Routing (cfg (st e)))) = false →
  spec (DispatchStream (C := C) cvt e ctx body) (λ _ es, (length (call_names es) ≤ 1)%nat).
Proof.
  intros Hf. unfold DispatchStream. destruct (parseAndRoute (st e) body) as [err|[req names]];
    [apply spec_ret; cbn; lia|].
  destruct (enforceScopes ctx _ _) as [err|names']; [apply spec_ret; cbn; lia|].
  apply spec_silent_bind; [apply silent_pre_hooks|]. intros [[pctx body'] model].
  apply provider_loop_once. intros name last. apply chat_loop_once; [done|].
  intros p a. apply stream_attempt_spec.
Qed.
End requests.

(** ** The cache *)

Section cache_proofs.
Context {Ext C Strm : Type} `{CacheLaws C} `{Strconv}.
Context (cvt : float64 → Z).
Implicit Types e : Engine Ext Strm.
Implicit Types s : Env Ext C.

(** The reply [resp] of [name] to [body], taken before, is what key [k] stands
    for. *)
Definition justified (l : list event) (k v : string) : Prop :=
  ∃ name body resp, EReply name body resp ∈ l ∧ resp.(cs_StatusCode) = 200 ∧
    bytes_of resp.(cs_RawBody) = v ∧ IsCacheable (bytes_of body) = true ∧
    k = DeriveKey name (bytes_of body).

(** Whatever the cache may return was a provider's reply under that key. *)
Definition cache_inv s : Prop :=
  match s.(cache) with
  | None => True
  | Some c => cache_wf c ∧ ∀ k v, may_hold c k v → justified s.(events) k v
  end.

Lemma justified_app l l' k v : justified l k v → justified (l ++ l') k v.
Proof.
  intros (name & body & resp & Hin & Hr). exists name, body, resp. split; [|done].
  apply elem_of_app. by left.
Qed.

Definition keeps {A} (m : EM Ext C A) : Prop :=
  ∀ s a s', m s = Ret (a, s') → cache_inv s → cache_inv s'.

(** Steps that leave the cache alone and at most extend the log. *)
Lemma keeps_untouched {A} (m : EM Ext C A) :
  (∀ s a s', m s = Ret (a, s') → s'.(cache) = s.(cache) ∧ ∃ l, s'.(events) = s.(events) ++ l) →
  keeps m.
Proof.
  intros Hm s a s' Hr. destruct (Hm s a s' Hr) as [Hc [l Hl]]. unfold cache_inv. rewrite Hc, Hl.
  destruct (cache s); [|done]. intros [? Hj]. split; [done|]. intros k v Hh.
  by apply justified_app, Hj.
Qed.

Lemma keeps_bind {A B} (m : EM Ext C A) (f : A → EM Ext C B) :
  keeps m → (∀ a, keeps (f a)) → keeps (m ≫= f).
Proof. intros Hm Hf s b s'' (a & s' & Hx1 & Hx2)%EM_bind_inv Hi. by eapply Hf, Hm. Qed.

Ltac untouched :=
  apply keeps_untouched; intros s a s';
  unfold clock_now, IntN, run_hook, run_ext, Engine.deref, store_rc, alloc, get_cache, log;
  intros Hr; repeat (case_match; try done); injection Hr as <- <-;
  split; [done|]; cbn; first [by exists []; rewrite app_nil_r | by eexists].

Lemma keeps_ret {A} (a : A) : keeps (mret a).
Proof. by intros s ? ? [= <- <-]. Qed.
Lemma keeps_panic {A} : keeps (A := A) panic.
Proof. by intros ???. Qed.
Lemma keeps_log ev : keeps (log ev).
Proof. untouched. Qed.
Lemma keeps_clock_now : keeps clock_now.
Proof. untouched. Qed.
Lemma keeps_IntN n : keeps (IntN n).
Proof. untouched. Qed.
Lemma keeps_run_hook {A} (m : ST (PWorld Ext) A) : keeps (run_hook m).
Proof. untouched. Qed.
Lemma keeps_run_ext {A} (m : ST Ext A) : keeps (run_ext m).
Proof. untouched. Qed.
Lemma keeps_deref p : keeps (Engine.deref p).
Proof. untouched. Qed.
Lemma keeps_store_rc p rc : keeps (store_rc p rc).
Proof. untouched. Qed.
Lemma keeps_alloc rc : keeps (alloc rc).
Proof. untouched. Qed.
End cache_proofs.

#[export] Hint Resolve keeps_ret keeps_panic keeps_log keeps_clock_now keeps_IntN keeps_run_hook
  keeps_run_ext keeps_deref keeps_store_rc keeps_alloc : engine.

Ltac keeps_tac :=
  repeat first
    [ solve [auto with engine]
    | apply keeps_bind; [|intros ?]
    | match goal with |- keeps (match ?x with _ => _ end) => destruct x end
    | match goal with |- keeps (let '_ := ?x in _) => destruct x end ].

Section cache_theorems.
Context {Ext C Strm : Type} `{CacheLaws C} `{Strconv}.
Context (cvt : float64 → Z).
Implicit Types e : Engine Ext Strm.
Implicit Types s : Env Ext C.

(** What the client of a cache hit gets. *)
Definition hit_response (v : string) : ChatResponse :=
  mkChatResponse (Some v) 200 (Some {["X-Butter-Cache" := ["hit"]]}).

(** The lookup: a hit is what the cache returns under the key of the first
    candidate and the body, it is justified, and the cache stays so. *)
Lemma cache_lookup_inv pctx names body s hit s' :
  cache_lookup pctx names body s = Ret (hit, s') → cache_inv s →
  cache_inv s' ∧ s'.(events) = s.(events) ∧
  ∀ resp, hit = Some resp → ∃ first v c, head names = Some first ∧
    s.(cache) = Some c ∧ IsCacheable (bytes_of body) = true ∧
    (Get (DeriveKey first (bytes_of body)) (s.(time) 0%nat) c).1 = Some v ∧
    resp = hit_response v ∧
    justified s.(events) (DeriveKey first (bytes_of body)) v.
Proof using Type*.
  intros Hr Hi. split; [|split].
  - unfold cache_lookup in Hr. apply EM_bind_inv in Hr as (mc & s1 & [= <- <-] & Hr).
    destruct (cache s) as [c|] eqn:Hc; [|by injection Hr as <- <-].
    destruct (IsCacheable _); cbn [negb] in Hr; [|by injection Hr as <- <-].
    destruct names as [|first names]; [done|].
    apply EM_bind_inv in Hr as (t & s1 & [= <- <-] & Hr).
    pose proof (Get_keeps (DeriveKey first (bytes_of body)) (time s 0%nat) c) as Hk.
    pose proof (Get_wf (DeriveKey first (bytes_of body)) (time s 0%nat) c) as Hw.
    destruct (Get _ _ c) as [cached c']. cbn [snd] in *.
    apply EM_bind_inv in Hr as (u & s1 & [= <- <-] & Hr).
    unfold cache_inv in Hi. rewrite Hc in Hi. destruct Hi as [Hwf Hj].
    match type of Hr with ?m ?s2 = _ => assert (cache_inv s2) as Hi2 end.
    { unfold cache_inv. cbn. split; [auto|]. intros k v Hh. apply Hj. by eapply Hk. }
    revert Hr Hi2. generalize (mkEnv (plug s) (Some c') (λ n, time s (S n)) (rnd s) (events s)).
    intros s2. match goal with |- ?m s2 = _ → _ => assert (keeps m) as Hkeep by keeps_tac end.
    apply Hkeep.
  - destruct (silent_cache_lookup pctx names body s hit s' Hr) as (es & -> & ->).
    apply app_nil_r.
  - intros resp ->. unfold cache_lookup in Hr.
    apply EM_bind_inv in Hr as (mc & s1 & [= <- <-] & Hr).
    destruct (cache s) as [c|] eqn:Hc; [|done].
    destruct (IsCacheable (bytes_of body)) eqn:Hb; cbn [negb] in Hr; [|done].
    destruct names as [|first names]; [done|].
    apply EM_bind_inv in Hr as (t & s1 & [= <- <-] & Hr).
    pose proof (Get_holds (DeriveKey first (bytes_of body)) (time s 0%nat) c) as Hh.
    destruct (Get _ _ c) as [[v|] c'] eqn:Hg; cbn [fst] in *;
      apply EM_bind_inv in Hr as (u & s1 & [= <- <-] & Hr); [|done].
    apply EM_bind_inv in Hr as (u' & s1 & _ & [= <- <-]).
    unfold cache_inv in Hi. rewrite Hc in Hi. destruct Hi as [Hwf Hj].
    exists first, v, c. split_and!; auto. by rewrite Hg.
Qed.

(** Storing a reply that has just been logged. *)
Lemma reply_store_keeps e name body resp :
  keeps (C := C) (log (EReply name body resp);; cache_store e name body resp).
Proof using Type*.
  intros s a s' Hr Hi. apply EM_bind_inv in Hr as (u & s1 & [= <- <-] & Hr).
  set (s1 := mkEnv _ _ _ _ _) in Hr.
  assert (cache_inv s1) as Hi1 by (by apply (keeps_log (EReply name body resp) s tt s1)).
  assert (EReply name body resp ∈ events s1) as Hin
    by (subst s1; cbn; apply elem_of_app; right; by left).
  clearbody s1.
  unfold cache_store in Hr. apply EM_bind_inv in Hr as (mc & s2 & [= <- <-] & Hr).
  destruct (cache s1) as [c|] eqn:Hc; [|by injection Hr as <- <-].
  destruct (cs_StatusCode resp =? 200) eqn:Hs, (IsCacheable (bytes_of body)) eqn:Hb;
    cbn [andb] in Hr; try (by injection Hr as <- <-).
  apply EM_bind_inv in Hr as (t & s2 & [= <- <-] & Hr). injection Hr as <- <-.
  unfold cache_inv in *. rewrite Hc in Hi1. cbn. destruct Hi1 as [Hwf Hj].
  split; [by apply Set_wf|]. intros k v Hh. apply Set_keeps in Hh as [[-> Hv]|Hh]; auto.
  exists name, body, resp. split_and!; [done|lia|done|done|done].
Qed.

Lemma keeps_post {B} e name body resp (k : EM Ext C B) :
  keeps k →
  keeps (C := C) (log (EReply name body resp);; cache_store e name body resp;; k).
Proof using Type*.
  intros Hk s b s' Hr.
  apply EM_bind_inv in Hr as (u & s1 & Hx1 & Hr). apply EM_bind_inv in Hr as (u' & s2 & Hx2 & Hr).
  intros Hi. eapply Hk; [exact Hr|]. eapply (reply_store_keeps e name body resp); [|exact Hi].
  apply EM_bind_inv. eauto.
Qed.

Lemma chat_attempt_keeps e ctx pctx req body model name p attempt :
  keeps (chat_attempt (C := C) cvt e ctx pctx req body model name p attempt).
Proof using Type*.
  unfold chat_attempt. apply keeps_bind; [unfold backoff; keeps_tac|intros _].
  apply keeps_bind; [unfold selectKey; keeps_tac|intros key].
  apply keeps_bind; [auto with engine|intros _].
  apply keeps_bind; [auto with engine|intros [err|resp]]; [auto with engine|].
  apply keeps_bind; [unfold set_provider; keeps_tac|intros _].
  apply keeps_bind; [unfold post_hooks; keeps_tac|intros resp'].
  apply keeps_post. auto with engine.
Qed.

Lemma attempt_loop_keeps {R} (body : Z → EM Ext C (step R)) :
  (∀ a, keeps (body a)) → ∀ n a last, keeps (attempt_loop n a body last).
Proof using Type*.
  intros Hb n. induction n as [|n IH]; intros a last; cbn [attempt_loop]; keeps_tac; auto.
Qed.

Lemma provider_loop_keeps {R} (try : string → option gerror → EM Ext C (outcome_of R)) names :
  (∀ name last, keeps (try name last)) → ∀ last, keeps (provider_loop names try last).
Proof using Type*.
  intros Ht. induction names as [|name names IH]; intros last; cbn [provider_loop]; keeps_tac; auto.
Qed.
End cache_theorems.
