(* ===== verification/EngineTheorems.v ===== *)
(** * Theorems on the dispatch engine (internal/proxy/engine.go)

    Scopes, the order and number of upstream calls, the cache, and the choice of
    keys; then behaviour at the edges of the configuration. *)
From S2P Require Import Prelude GoStd Json Config Token Store MemoryCache CacheKey Plugin Engine EngineProofs.

(** ** Key selection *)

Fixpoint sum_weights (ks : list KeyConfig) : Z :=
  match ks with [] => 0 | k :: ks' => k.(k_Weight) + sum_weights ks' end.

Definition positive_weights (ks : list KeyConfig) : Prop := Forall (λ k, 0 < k.(k_Weight)) ks.

Lemma sum_weights_nonneg ks : positive_weights ks → 0 <= sum_weights ks.
Proof. unfold positive_weights. induction 1; cbn; lia. Qed.

Lemma sum_weights_app a b : sum_weights (a ++ b) = sum_weights a + sum_weights b.
Proof. induction a as [|x a IH]; cbn; lia. Qed.

Lemma sum_weights_take ks i : positive_weights ks → 0 <= sum_weights (take i ks) <= sum_weights ks.
Proof.
  intros Hp. rewrite <-(take_drop i ks) at 3. rewrite sum_weights_app.
  pose proof (sum_weights_nonneg (take i ks) (list.Forall_take _ _ _ Hp)).
  pose proof (sum_weights_nonneg (drop i ks) (list.Forall_drop _ _ _ Hp)). lia.
Qed.

Lemma total_weight ks : ∀ t,
  positive_weights ks → 0 <= t → t + sum_weights ks < two63 →
  foldl (λ t k, wrap64 (t + k.(k_Weight))) t ks = t + sum_weights ks.
Proof.
  induction ks as [|k ks IH]; intros t Hp Ht Hb; cbn in *; [lia|].
  apply Forall_cons_iff in Hp as [Hk Hp]. pose proof (sum_weights_nonneg ks Hp).
  rewrite wrap64_id by (unfold in_int64, two63 in *; lia). rewrite IH by (try done; lia). lia.
Qed.

(** The draw falls into the interval of exactly one key. *)
Lemma pick_key_interval ks : ∀ i k r,
  positive_weights ks → sum_weights ks < two63 → ks !! i = Some k →
  sum_weights (take i ks) <= r < sum_weights (take (S i) ks) →
  pick_key r ks = Some k.(k_Key).
Proof.
  induction ks as [|k0 ks IH]; intros i k r Hp Hb Hi Hr; [done|].
  pose proof Hp as [Hk0 Hp']%Forall_cons_iff. pose proof (sum_weights_nonneg ks Hp').
  pose proof (sum_weights_take (k0 :: ks) i Hp). pose proof (sum_weights_take (k0 :: ks) (S i) Hp).
  assert (0 <= r < two63) by lia. assert (k_Weight k0 < two63) by (cbn [sum_weights] in Hb; lia).
  cbn [pick_key]. rewrite wrap64_id by (unfold in_int64, two63 in *; lia).
  destruct i as [|i].
  - injection Hi as ->. rewrite firstn_cons, !firstn_O in Hr. cbn [sum_weights] in Hr.
    by rewrite (proj2 (Z.ltb_lt _ _)) by lia.
  - rewrite !firstn_cons in Hr. cbn [sum_weights] in Hr, Hb.
    pose proof (sum_weights_take ks i Hp').
    rewrite (proj2 (Z.ltb_ge _ _)) by lia. eapply (IH i); [done|lia|done|lia].
Qed.

Section theorems.
Context {Ext C Strm : Type} `{CacheLaws C} `{Strconv}.
Context (cvt : float64 → Z).
Implicit Types e : Engine Ext Strm.
Implicit Types s : Env Ext C.

(** C3. Scopes hold.  Whatever plugins and providers do, a chat, stream,
    embeddings or Messages request makes calls only to providers that the app
    key's scopes allow, and only if they allow the model it names. *)
Theorem scopes_enforced e ctx rq s s' :
  serve cvt e ctx rq s = Ret (tt, s') →
  ∃ es, s'.(events) = s.(events) ++ es ∧
    ∀ n, n ∈ call_names es →
      IsProviderAllowed ctx.(cx_scopes) n = true ∧
      IsModelAllowed ctx.(cx_scopes) (request_fields rq).(f_Model) = true.
Proof.
  intros Hr. destruct (serve_grouped cvt e ctx rq s tt s' Hr) as (es & He & Hg).
  exists es. split; [done|]. intros n Hn. eapply candidates_allowed, grouped_incl; [exact Hg|done].
Qed.

(** A request outside the scopes is refused with status 403 before any hook,
    cache lookup or call: nothing at all has changed. *)
Theorem scope_refusal e ctx body s req names sc :
  parseAndRoute e.(st) body = inr (req, names) → ctx.(cx_scopes) = Some sc →
  (IsModelAllowed (Some sc) req.(cq_Model) = false ∨
   ∀ n, n ∈ names → IsProviderAllowed (Some sc) n = false) →
  ∃ err, Dispatch cvt e ctx body s = Ret ((None, Some err), s) ∧ errors_As err = Some 403.
Proof.
  intros Hp Hsc Hno. pose proof (parseAndRoute_spec _ _ _ _ Hp) as (_ & _ & Hne).
  unfold Dispatch. rewrite Hp. unfold enforceScopes, ScopesFromContext. rewrite Hsc.
  destruct (IsModelAllowed (Some sc) (cq_Model req)) eqn:Hm; cbn [negb]; [|by eexists].
  destruct Hno as [?|Hno]; [done|]. destruct names as [|n0 names]; [done|].
  destruct (decide (AllowedProviders sc = [])) as [Ha|Ha].
  { specialize (Hno n0 ltac:(by left)). cbn in Hno. by rewrite decide_True in Hno. }
  rewrite decide_True; [by eexists|].
  assert (∀ l, (∀ n, n ∈ l → IsProviderAllowed (Some sc) n = false) →
    List.filter (IsProviderAllowed (Some sc)) l = []) as Hf.
  { intros l. induction l as [|x l IH]; intros Hl; [done|]. cbn [List.filter].
    rewrite Hl by (by left). apply IH. intros. apply Hl. by right. }
  by apply Hf.
Qed.

(** C7. Failover.  The providers called are the candidates in their order, each
    some number of times in a row, never more than the configured attempts. *)
Theorem calls_in_order e ctx rq s s' :
  serve cvt e ctx rq s = Ret (tt, s') →
  ∃ es, s'.(events) = s.(events) ++ es ∧
    grouped (attempts e) (candidates e ctx rq) (call_names es) ∧
    (length (call_names es) ≤ attempts e * length (candidates e ctx rq))%nat.
Proof.
  intros Hr. destruct (serve_grouped cvt e ctx rq s tt s' Hr) as (es & He & Hg).
  exists es. split_and!; [done|done|]. by apply grouped_length.
Qed.

(** With failover disabled a chat or stream request makes one call at most. *)
Theorem no_failover_one_call e ctx body s s' :
  fo_Enabled (rc_Failover (Routing (cfg (st e)))) = false →
  serve cvt e ctx (RChat body) s = Ret (tt, s') ∨ serve cvt e ctx (RStream body) s = Ret (tt, s') →
  ∃ es, s'.(events) = s.(events) ++ es ∧ (length (call_names es) ≤ 1)%nat.
Proof.
  intros Hf [Hr|Hr]; cbn [serve] in Hr; apply EM_bind_inv in Hr as (x & s1 & Hr & [= <-]).
  - exact (Dispatch_once cvt e ctx body Hf s x s1 Hr).
  - exact (DispatchStream_once cvt e ctx body Hf s x s1 Hr).
Qed.

(** C8. The cache is sound.  If whatever the cache may return was, under that
    key, a provider's earlier reply of status 200 to a cacheable request, then
    so it is after a request; and a request that is answered without a call to
    a provider is answered with what the cache returns under the key of the
    request's first allowed candidate and of its own body as the pre-hooks of this
    run left it (without plugins, its body as it came), and that is the body of
    such a reply. *)
Theorem cache_sound e ctx body s r err s' :
  cache_inv s → Dispatch cvt e ctx body s = Ret ((r, err), s') →
  cache_inv s' ∧ ∃ es, s'.(events) = s.(events) ++ es ∧
    ∀ resp, r = Some resp → call_names es = [] →
    ∃ first pctx body' model s1 c v,
      head (candidates e ctx (RChat body)) = Some first ∧
      pre_hooks e ctx (request_fields (RChat body)).(f_Model) body s = Ret ((pctx, body', model), s1) ∧
      (e.(chain) = None → body' = body) ∧
      s1.(cache) = Some c ∧ IsCacheable (bytes_of body') = true ∧
      (Get (DeriveKey first (bytes_of body')) (s1.(time) 0%nat) c).1 = Some v ∧
      resp = hit_response v ∧
      justified s.(events) (DeriveKey first (bytes_of body')) v.
Proof using Type*.
  intros Hi Hr. unfold Dispatch in Hr. unfold candidates.
  destruct (parseAndRoute (st e) body) as [er|[req names]] eqn:Hp.
  { injection Hr as <- <- <-. split; [done|]. exists []. by rewrite app_nil_r. }
  apply parseAndRoute_spec in Hp as (Hm & Hn & _). rewrite Hm, Hn in Hr.
  destruct (enforceScopes ctx _ _) as [er|names'].
  { injection Hr as <- <- <-. split; [done|]. exists []. by rewrite app_nil_r. }
  apply EM_bind_inv in Hr as ([[pctx body'] model] & s1 & H1' & Hr).
  destruct (silent_pre_hooks e ctx _ _ s _ s1 H1') as (? & E1 & ->). rewrite app_nil_r in E1.
  assert (cache_inv s1) as Hi1.
  { assert (keeps (C := C) (pre_hooks e ctx (f_Model (request_fields (RChat body))) body)) as Hk
      by (unfold pre_hooks; keeps_tac). by apply (Hk _ _ _ H1'). }
  apply EM_bind_inv in Hr as (hit & s2 & H2' & Hr).
  destruct (cache_lookup_inv pctx names' body' s1 hit s2 H2' Hi1) as (Hi2 & E2 & Hhit).
  rewrite E1 in E2. destruct hit as [resp0|].
  - injection Hr as <- <- <-. split; [done|]. exists []. rewrite app_nil_r. split; [done|].
    intros resp [= <-] _. destruct (Hhit resp0 eq_refl) as (first & v & c & ? & ? & ? & ? & ? & ?).
    exists first, pctx, body', model, s1, c, v. rewrite <-E1. split_and!; try done.
    intros Hc. unfold pre_hooks in H1'. rewrite Hc in H1'. by injection H1' as <- <- <- <-.
  - split.
    + revert Hr Hi2. apply provider_loop_keeps. intros name last. unfold with_provider.
      destruct (RegistryGet _ name); [auto with engine|].
      apply attempt_loop_keeps. intros a. apply chat_attempt_keeps.
    + apply (loop_grouped e names' (λ name p last, attempt_loop (attempts e) 0
        (chat_attempt cvt e ctx pctx req body' model name p) last)) in Hr as (es & E & _ & Hc).
      * exists es. rewrite E, E2. split; [done|]. intros resp -> Hz. exfalso. apply Hc; [by eexists|done].
      * intros name p last. apply attempt_loop_spec. intros a.
        eapply spec_weaken; [apply chat_attempt_spec|by intros ? ? [? _]].
Qed.

(** C17. Key selection is weighted as configured.  With positive weights that
    fit the machine, the draw between two or more eligible keys never panics,
    and each of them owns an interval of draws whose length is its weight. *)
Theorem selectKey_fair st name model s ks i k :
  st.(keys) !! name = Some ks →
  let el := List.filter (key_serves model) ks in
  (2 ≤ length el)%nat → positive_weights el → sum_weights el < two63 → el !! i = Some k →
  sum_weights (take i el) <= s.(rnd) 0%nat mod sum_weights el < sum_weights (take (S i) el) →
  ∃ s', selectKey (Ext := Ext) st name model s = Ret (k.(k_Key), s') ∧
        sum_weights (take (S i) el) - sum_weights (take i el) = k.(k_Weight).
Proof.
  intros Hks el Hlen Hp Hb Hi Hr. unfold selectKey. rewrite Hks. cbn [default].
  destruct ks as [|k0 ks]; [cbn in Hlen; lia|].
  change (id (k0 :: ks)) with (k0 :: ks). cbv iota zeta beta. fold el.
  rewrite total_weight by (try done; lia). rewrite Z.add_0_l.
  assert (0 < sum_weights el) as Hpos.
  { destruct el as [|x el']; [cbn in Hlen; lia|].
    apply Forall_cons_iff in Hp as [? Hp]. pose proof (sum_weights_nonneg el' Hp). cbn. lia. }
  assert (sum_weights (take (S i) el) - sum_weights (take i el) = k_Weight k) as Hw.
  { rewrite (take_S_r _ _ _ Hi), sum_weights_app. cbn. lia. }
  destruct el as [|k1 [|k2 el']] eqn:He; [cbn in Hlen; lia|cbn in Hlen; lia|].
  unfold IntN, mbind, EM_bind. rewrite (proj2 (Z.leb_gt _ _)) by lia.
  rewrite (pick_key_interval _ i k) by (try done; lia). cbn [default].
  eexists. split; [done|exact Hw].
Qed.
End theorems.

(** ** A small installation, for the witnesses *)

#[local] Existing Instance literal_strconv.

(** Counts its calls and answers, or fails, with a status. *)
Definition demo_events_body : RespBody := mkRespBody
  [dq "data: {'type':'message_start','message':{'usage':{'input_"; dq "tokens':3}}}" +:+ String (byte_of 10) ""] None.

Definition demo_provider (name : string) (answer : gerror + ChatResponse) : Provider nat nat :=
  mkProvider name
    (λ _ _ n, (answer, S n))
    (λ _ _ n, (match answer with inl err => inl err | inr _ => inr n end, S n))
    (λ _ _ _ _ h n, (inr (mkHTTPResponse 200 h (mkRespBody [] None)), S n))
    (λ _, true)
    (Some (λ _ _ n, (answer, S n)))
    None
    (Some (λ _ _ _ n, (match answer with
                       | inl err => inl err
                       | inr _ => inr (mkHTTPResponse 200 {[ "Content-Type" := ["text/event-stream"] ]} demo_events_body)
                       end, S n))).

Definition demo_reply : ChatResponse := mkChatResponse (Some "hello") 200 None.

Definition demo_registry : Registry nat nat :=
  RegistryRegister (demo_provider "a" (inl (GProvider 503 "busy")))
    (RegistryRegister (demo_provider "b" (inr demo_reply)) ∅).

Definition demo_keys (ws : list Z) : ProviderConfig :=
  mkProviderConfig "" ((λ w, mkKey (if w =? 2 then "k2" else "kx") w []) <$> ws) "" "" "" ∅ "".

Definition demo_config (enabled : bool) (retries : Z) (weights : list Z) : Config :=
  applyDefaults (mkConfig (mkServer "" 0 0 0 0 0 0)
    {["a" := demo_keys weights; "b" := demo_keys weights]}
    (mkRouting "" {["m" := mkRoute ["a"; "b"] "priority"]}
       (mkFailover enabled retries (mkBackoff 0 (S754_zero false) 0) [503]))
    [] (mkCacheConfig false "" 0 0 (mkRedis "" "" 0 ""))
    (mkAppKeys false false "" 0 [] (mkPersistence false "" 0))).

Definition demo_engine (enabled : bool) (retries : Z) (weights : list Z) : Engine nat nat :=
  NewEngine demo_registry (demo_config enabled retries weights) None.

Definition demo_env : Env nat Memory :=
  mkEnv (mkPWorld ∅ 0%nat) (Some (NewMemory 10)) Z.of_nat (λ _, 3) [].

Definition demo_body : slice := Some (dq "{'model':'m'}").
Definition demo_ctx (sc : option KeyScopes) : Ctx := mkCtx sc None.
Definition saturate : float64 → Z := λ _, - two63.

(** A run that returns has a final state. *)
Definition returns {A} (o : outcome A) : bool := match o with Ret _ => true | Panic => false end.

Lemma returns_inv {A S} (o : outcome (A * S)) : returns o = true → ∃ a s, o = Ret (a, s).
Proof. destruct o as [[a s]|]; [by eauto|done]. Qed.

Lemma scopes_enforced_witness :
  ∃ s' es, serve saturate (demo_engine true 2 [2; 3]) (demo_ctx (Some (mkScopes ["m"] ["b"])))
             (RChat demo_body) demo_env = Ret (tt, s') ∧
    s'.(events) = [] ++ es ∧
    ∀ n, n ∈ call_names es → IsProviderAllowed (Some (mkScopes ["m"] ["b"])) n = true ∧
      IsModelAllowed (Some (mkScopes ["m"] ["b"])) "m" = true.
Proof.
  destruct (returns_inv (serve saturate (demo_engine true 2 [2; 3])
    (demo_ctx (Some (mkScopes ["m"] ["b"]))) (RChat demo_body) demo_env)) as ([] & s' & Hr);
    [vm_compute; reflexivity|].
  destruct (scopes_enforced saturate _ _ _ _ s' Hr) as (es & He & Hn). exists s', es.
  split; [exact Hr|]. split; [exact He|]. exact Hn.
Defined.

Lemma scope_refusal_witness :
  ∃ err, Dispatch saturate (demo_engine true 2 [2; 3]) (demo_ctx (Some (mkScopes [] ["c"])))
           demo_body demo_env = Ret ((None, Some err), demo_env) ∧ errors_As err = Some 403.
Proof.
  apply (scope_refusal saturate _ _ _ _ (mkChatRequest "m" false demo_body "") ["a"; "b"]
    (mkScopes [] ["c"])).
  - vm_compute. reflexivity.
  - reflexivity.
  - right. intros n. rewrite !elem_of_cons, elem_of_nil. intros [->|[->|[]]]; reflexivity.
Defined.

Lemma calls_in_order_witness :
  ∃ s' es, serve saturate (demo_engine true 2 [2; 3]) (demo_ctx None) (RChat demo_body) demo_env
             = Ret (tt, s') ∧ s'.(events) = [] ++ es ∧
    grouped 3 ["a"; "b"] (call_names es) ∧ (length (call_names es) ≤ 3 * 2)%nat.
Proof.
  destruct (returns_inv (serve saturate (demo_engine true 2 [2; 3]) (demo_ctx None)
    (RChat demo_body) demo_env)) as ([] & s' & Hr); [vm_compute; reflexivity|].
  destruct (calls_in_order saturate _ _ _ _ s' Hr) as (es & He & Hg & Hl). exists s', es.
  split; [exact Hr|]. split; [exact He|]. split; [exact Hg|exact Hl].
Defined.

Lemma no_failover_one_call_witness :
  ∃ s' es, serve saturate (demo_engine false 2 [2; 3]) (demo_ctx None) (RStream demo_body) demo_env
             = Ret (tt, s') ∧ s'.(events) = [] ++ es ∧ (length (call_names es) ≤ 1)%nat.
Proof.
  destruct (returns_inv (serve saturate (demo_engine false 2 [2; 3]) (demo_ctx None)
    (RStream demo_body) demo_env)) as ([] & s' & Hr); [vm_compute; reflexivity|].
  destruct (no_failover_one_call saturate (demo_engine false 2 [2; 3]) (demo_ctx None) demo_body
    demo_env s' eq_refl (or_intror Hr)) as (es & He & Hl).
  exists s', es. split; [exact Hr|]. split; [exact He|exact Hl].
Defined.

Lemma demo_cache_inv : cache_inv demo_env.
Proof.
  split; [apply NewMemory_wf|]. intros k v (e & He & _). by apply elem_of_nil in He.
Qed.

(** Two requests on an engine with a cache: the second is answered from it. *)
Definition caching_engine : Engine nat nat :=
  (SetCache (NewMemory 10) (300 * second) (demo_engine true 2 [2; 3]) demo_env).1.
Definition demo_b : Ctx := demo_ctx (Some (mkScopes [] ["b"])).
Definition first_request : outcome ((option ChatResponse * option gerror) * Env nat Memory) :=
  Dispatch saturate caching_engine demo_b demo_body demo_env.
Definition second_request (s : Env nat Memory) :
    outcome ((option ChatResponse * option gerror) * Env nat Memory) :=
  Dispatch saturate caching_engine demo_b (Some (dq "{ 'model' : 'm' }")) s.

(** The second run: the answer, and that it made no call. *)
Lemma second_request_hits :
  match first_request with
  | Ret (_, s1) =>
    match second_request s1 with
    | Ret ((r, err), s2) => Some (r, err, call_names s1.(events), call_names s2.(events))
    | Panic => None
    end
  | Panic => None
  end = Some (Some (hit_response "hello"), None, ["b"], ["b"]).
Proof. vm_compute. reflexivity. Qed.

Lemma cache_sound_witness :
  ∃ s1 s2 r1, first_request = Ret (r1, s1) ∧
    second_request s1 = Ret ((Some (hit_response "hello"), None), s2) ∧
    call_names s1.(events) = ["b"] ∧ call_names s2.(events) = ["b"] ∧
    justified s1.(events) (DeriveKey "b" (dq "{ 'model' : 'm' }")) "hello" ∧ cache_inv s2.
Proof.
  pose proof second_request_hits as H2.
  destruct (returns_inv first_request) as ([r1 e1] & s1 & H1); [vm_compute; reflexivity|].
  rewrite H1 in H2. destruct (second_request s1) as [[[r2 e2] s2]|] eqn:Hr; [|discriminate H2].
  injection H2 as -> -> Hev1 Hev2.
  destruct (cache_sound saturate _ _ _ demo_env r1 e1 s1 demo_cache_inv H1) as [Hi1 _].
  destruct (cache_sound saturate _ _ _ s1 _ _ s2 Hi1 Hr) as (Hi2 & es & He & Hhit).
  assert (call_names es = []) as Hes.
  { pose proof Hev2 as Hev. rewrite He, call_names_app, Hev1 in Hev. by injection Hev. }
  destruct (Hhit _ eq_refl Hes) as (first & pctx & body' & model & s0 & c & v & Hf & _ & Hb & _ & _ & _ & Hv & Hj).
  rewrite (Hb eq_refl) in Hj. assert (Some "b" = Some first) as [= <-] by (rewrite <-Hf; vm_compute; reflexivity).
  assert (Some "hello" = Some v) as [= <-] by exact (f_equal cs_RawBody Hv).
  exists s1, s2, (r1, e1). split; [done|]. split; [exact Hr|]. split; [done|]. split; [done|]. by split.
Defined.

Lemma selectKey_fair_witness :
  ∃ s', selectKey (Ext := nat) (newEngineState (demo_config true 2 [2; 3])) "a" "m" demo_env
          = Ret ("kx", s') ∧ 5 - 2 = 3.
Proof.
  apply (selectKey_fair (newEngineState (demo_config true 2 [2; 3])) "a" "m" demo_env
    [mkKey "k2" 2 []; mkKey "kx" 3 []] 1 (mkKey "kx" 3 [])).
  - vm_compute. reflexivity.
  - cbn. lia.
  - repeat constructor.
  - vm_compute. reflexivity.
  - reflexivity.
  - vm_compute. split; [discriminate|reflexivity].
Defined.

(** ** Where the behaviour departs from what is documented *)

(** A passthrough request reaches a provider that the key's scopes exclude. *)
Theorem passthrough_unscoped {Ext C Strm} `{Cache C} (e : Engine Ext Strm) sc rc name method path
    body headers (s : Env Ext C) r s' p :
  e.(registry) !! name = Some p → SupportsOperation p OpPassthrough = true →
  IsProviderAllowed (Some sc) name = false →
  DispatchPassthrough e (mkCtx (Some sc) rc) name method path body headers s = Ret (r, s') →
  name ∈ call_names s'.(events).
Proof.
  intros Hp Hop _ Hr. unfold DispatchPassthrough, RegistryGet in Hr. rewrite Hp, Hop in Hr.
  cbn [negb] in Hr. apply EM_bind_inv in Hr as (h & s1 & _ & Hr).
  apply EM_bind_inv in Hr as (u & s2 & [= <- <-] & Hr).
  destruct (silent_run_ext _ _ _ _ Hr) as (es & -> & ->). cbn.
  rewrite app_nil_r, call_names_app. apply elem_of_app. right. by left.
Qed.

(** With failover disabled, an embeddings request that fails at the first
    provider is still sent to the second. *)
Theorem embeddings_fail_over_regardless :
  ∃ s', serve saturate (demo_engine false 2 [2; 3]) (demo_ctx None) (REmbed demo_body) demo_env
          = Ret (tt, s') ∧ call_names s'.(events) = ["a"; "b"].
Proof.
  assert ((λ '(_, s'), call_names s'.(events)) <$>
    (match serve saturate (demo_engine false 2 [2; 3]) (demo_ctx None) (REmbed demo_body) demo_env
     with Ret x => Some x | Panic => None end) = Some ["a"; "b"]) as Hc
    by (vm_compute; reflexivity).
  destruct (serve _ _ _ _ _) as [[[] s']|]; [|done]. exists s'. split; [done|].
  by injection Hc.
Qed.

(** A negative number of retries with failover enabled: the request is answered
    with neither a response nor an error. *)
Theorem negative_retries_no_answer :
  ∃ s', Dispatch saturate (demo_engine true (-1) [2; 3]) (demo_ctx None) demo_body demo_env
          = Ret ((None, None), s').
Proof. eexists. vm_compute. reflexivity. Qed.

(** Weights that add up to nothing: choosing between the keys panics. *)
Theorem negative_weight_panics :
  selectKey (Ext := nat) (newEngineState (demo_config true 2 [2; -2])) "a" "m" demo_env = Panic.
Proof. vm_compute. reflexivity. Qed.

(** The delay of the default backoff is the documented minimum while the product
    fits 64 bits. *)
Theorem default_backoff_delay cvt k :
  (k < 36)%nat →
  backoff_delay cvt (fo_Backoff (rc_Failover (Routing (demo_config true 2 []))))
    (Z.of_nat k) = Z.min (100 * millisecond * 2 ^ Z.of_nat k) (5 * second).
Proof.
  revert k. apply (forall_below (λ k, backoff_delay cvt
    (fo_Backoff (rc_Failover (Routing (demo_config true 2 [])))) (Z.of_nat k) =
    Z.min (100 * millisecond * 2 ^ Z.of_nat k) (5 * second))).
  vm_compute. reflexivity.
Qed.

(** Beyond that it is whatever the conversion gives; where that is the least
    integer the delay is negative, that is none. *)
Theorem backoff_overflow :
  backoff_delay saturate (fo_Backoff (rc_Failover (Routing (demo_config true 2 [])))) 40 = - two63.
Proof. vm_compute. reflexivity. Qed.

(** The router reads the model whatever the case of its name, the cache key only
    in lower case: requests for different models share a key. *)
Theorem folded_model_same_key `{Strconv} p :
  let b1 := Some (dq "{'Model':'x'}") in
  let b2 := Some (dq "{'Model':'y'}") in
  DeriveKey p (bytes_of b1) = DeriveKey p (bytes_of b2) ∧
  f_Model (request_fields (RChat b1)) = "x" ∧ f_Model (request_fields (RChat b2)) = "y".
Proof. split_and!; [|vm_compute; reflexivity..]. unfold DeriveKey. reflexivity. Qed.
