(* ===== verification/OpenAIFormat.v ===== *)
(** * The OpenAI chat format (the types and helpers that
    internal/provider/anthropic/translate.go and
    internal/provider/gemini/translate.go both declare)

    The part of a chat request that is translated, the two shapes of a message's
    content and of the stop field, and the responses and stream chunks that are
    produced.  A [float64] is the text encoding/json writes for it. *)
From S2P Require Import Prelude GoStd Utf8 Json StreamDetect JsonFuel JsonGrammar JsonString JsonCompact JsonEnc JsonDecode.
From S2P Require Import CacheKey Engine.

(** ** Floats *)

Section floats.
Context `{Strconv}.

Definition dec_float : dec string := λ j _ t,
  match j with
  | JNull => (t, true)
  | JNum lit => match format_float lit with Some x => (x, true) | None => (t, false) end
  | _ => (t, false)
  end.
End floats.

(** strconv writes the shortest decimal that reads back as the same float. *)
Class FloatLaws `{Strconv} := {
  format_float_number lit t : jnumber lit → format_float lit = Some t → jnumber t;
  format_float_idem lit t : format_float lit = Some t → format_float t = Some t;
  format_float_zero : format_float "0" = Some "0"
}.

(** ** Requests *)

Record openaiMessage := mkOpenaiMessage {
  om_Role : string;
  om_Content : slice
}.

Record openaiRequest := mkOpenaiRequest {
  oq_Model : string;
  oq_Messages : option (list openaiMessage);
  oq_Stream : bool;
  oq_MaxTokens : option Z;
  oq_Temperature : option string;
  oq_TopP : option string;
  oq_Stop : slice
}.

Definition dec_openaiMessage : dec openaiMessage :=
  dec_struct
    [("role", field om_Role (λ v m, mkOpenaiMessage v m.(om_Content)) dec_string);
     ("content", field om_Content (λ v m, mkOpenaiMessage m.(om_Role) v) dec_raw)].

Definition zero_openaiRequest : openaiRequest := mkOpenaiRequest "" None false None None None None.

Section requests.
Context `{Strconv}.

Definition dec_openaiRequest : dec openaiRequest :=
  dec_struct
    [("model", field oq_Model (λ v q, mkOpenaiRequest v q.(oq_Messages) q.(oq_Stream) q.(oq_MaxTokens)
        q.(oq_Temperature) q.(oq_TopP) q.(oq_Stop)) dec_string);
     ("messages", field oq_Messages (λ v q, mkOpenaiRequest q.(oq_Model) v q.(oq_Stream) q.(oq_MaxTokens)
        q.(oq_Temperature) q.(oq_TopP) q.(oq_Stop)) (dec_slice (mkOpenaiMessage "" None) dec_openaiMessage));
     ("stream", field oq_Stream (λ v q, mkOpenaiRequest q.(oq_Model) q.(oq_Messages) v q.(oq_MaxTokens)
        q.(oq_Temperature) q.(oq_TopP) q.(oq_Stop)) dec_bool);
     ("max_tokens", field oq_MaxTokens (λ v q, mkOpenaiRequest q.(oq_Model) q.(oq_Messages) q.(oq_Stream) v
        q.(oq_Temperature) q.(oq_TopP) q.(oq_Stop)) (dec_ptr 0 dec_int64));
     ("temperature", field oq_Temperature (λ v q, mkOpenaiRequest q.(oq_Model) q.(oq_Messages) q.(oq_Stream)
        q.(oq_MaxTokens) v q.(oq_TopP) q.(oq_Stop)) (dec_ptr "0" dec_float));
     ("top_p", field oq_TopP (λ v q, mkOpenaiRequest q.(oq_Model) q.(oq_Messages) q.(oq_Stream)
        q.(oq_MaxTokens) q.(oq_Temperature) v q.(oq_Stop)) (dec_ptr "0" dec_float));
     ("stop", field oq_Stop (λ v q, mkOpenaiRequest q.(oq_Model) q.(oq_Messages) q.(oq_Stream)
        q.(oq_MaxTokens) q.(oq_Temperature) q.(oq_TopP) v) dec_raw)].
End requests.

(** The anonymous struct of a content part; also the shape of an Anthropic content
    block. *)
Record contentPart := mkPart {
  cp_Type : string;
  cp_Text : string
}.

Definition dec_contentPart : dec contentPart :=
  dec_struct
    [("type", field cp_Type (λ v p, mkPart v p.(cp_Text)) dec_string);
     ("text", field cp_Text (λ v p, mkPart p.(cp_Type) v) dec_string)].

(** The texts of the parts of type text. *)
Definition text_parts (parts : list contentPart) : list string :=
  cp_Text <$> List.filter (λ p, bool_decide (p.(cp_Type) = "text")) parts.

(** A message's content: a string, or an array of parts. *)
Definition extractTextContent (raw : slice) : gerror + string :=
  match Unmarshal dec_string (bytes_of raw) "" with
  | (s, true) => inr s
  | (_, false) =>
    match Unmarshal (dec_slice (mkPart "" "") dec_contentPart) (bytes_of raw) None with
    | (_, false) => inl (GPlain ("content is neither string nor array: " +:+ bytes_of raw))
    | (parts, true) => inr (Join (text_parts (default [] parts)) "")
    end
  end.

(** The stop field: a string, or an array of strings. *)
Definition parseStopField (raw : slice) : gerror + option (list string) :=
  match Unmarshal dec_string (bytes_of raw) "" with
  | (s, true) => inr (Some [s])
  | (_, false) =>
    match Unmarshal (dec_slice "" dec_string) (bytes_of raw) None with
    | (_, false) => inl (GPlain "stop field is neither string nor array")
    | (arr, true) => inr arr
    end
  end.

(** ** Responses *)

Record openaiMsg := mkOpenaiMsg {
  os_Role : string;
  os_Content : string
}.

Record openaiChoice := mkOpenaiChoice {
  oc_Index : Z;
  oc_Message : openaiMsg;
  oc_FinishReason : option string
}.

Record openaiUsage := mkOpenaiUsage {
  ou_PromptTokens : Z;
  ou_CompletionTokens : Z;
  ou_TotalTokens : Z
}.

Record openaiResponse := mkOpenaiResponse {
  or_ID : string;
  or_Object : string;
  or_Created : Z;
  or_Model : string;
  or_Choices : option (list openaiChoice);
  or_Usage : openaiUsage
}.

Definition encode_openaiChoice (c : openaiChoice) : string :=
  encode_struct
    [always "index" (encode_int c.(oc_Index));
     always "message" (encode_struct
       [always "role" (encode_string c.(oc_Message).(os_Role));
        always "content" (encode_string c.(oc_Message).(os_Content))]);
     always "finish_reason" (encode_ptr encode_string c.(oc_FinishReason))].

Definition encode_openaiResponse (r : openaiResponse) : string :=
  encode_struct
    [always "id" (encode_string r.(or_ID));
     always "object" (encode_string r.(or_Object));
     always "created" (encode_int r.(or_Created));
     always "model" (encode_string r.(or_Model));
     always "choices" (encode_slice encode_openaiChoice r.(or_Choices));
     always "usage" (encode_struct
       [always "prompt_tokens" (encode_int r.(or_Usage).(ou_PromptTokens));
        always "completion_tokens" (encode_int r.(or_Usage).(ou_CompletionTokens));
        always "total_tokens" (encode_int r.(or_Usage).(ou_TotalTokens))])].

(** ** Stream chunks *)

Record openaiStreamDelta := mkDelta {
  sd_Role : string;
  sd_Content : string
}.

Record openaiStreamChoice := mkStreamChoice {
  sc_Index : Z;
  sc_Delta : openaiStreamDelta;
  sc_FinishReason : option string
}.

Record openaiStreamChunk := mkChunk {
  ck_ID : string;
  ck_Object : string;
  ck_Created : Z;
  ck_Model : string;
  ck_Choices : option (list openaiStreamChoice)
}.

Definition is_empty (s : string) : bool := bool_decide (s = "").

Definition encode_delta (d : openaiStreamDelta) : string :=
  encode_struct
    [omitempty (is_empty d.(sd_Role)) "role" (encode_string d.(sd_Role));
     omitempty (is_empty d.(sd_Content)) "content" (encode_string d.(sd_Content))].

Definition encode_streamChoice (c : openaiStreamChoice) : string :=
  encode_struct
    [always "index" (encode_int c.(sc_Index));
     always "delta" (encode_delta c.(sc_Delta));
     always "finish_reason" (encode_ptr encode_string c.(sc_FinishReason))].

Definition encode_chunk (c : openaiStreamChunk) : string :=
  encode_struct
    [always "id" (encode_string c.(ck_ID));
     always "object" (encode_string c.(ck_Object));
     always "created" (encode_int c.(ck_Created));
     always "model" (encode_string c.(ck_Model));
     always "choices" (encode_slice encode_streamChoice c.(ck_Choices))].

(** ** Reading the produced texts

    The decoders of the same types, for a client that decodes what was encoded. *)

Definition dec_openaiMsg : dec openaiMsg :=
  dec_struct
    [("role", field os_Role (λ v m, mkOpenaiMsg v m.(os_Content)) dec_string);
     ("content", field os_Content (λ v m, mkOpenaiMsg m.(os_Role) v) dec_string)].

Definition dec_openaiChoice : dec openaiChoice :=
  dec_struct
    [("index", field oc_Index (λ v c, mkOpenaiChoice v c.(oc_Message) c.(oc_FinishReason)) dec_int64);
     ("message", field oc_Message (λ v c, mkOpenaiChoice c.(oc_Index) v c.(oc_FinishReason)) dec_openaiMsg);
     ("finish_reason", field oc_FinishReason (λ v c, mkOpenaiChoice c.(oc_Index) c.(oc_Message) v)
        (dec_ptr "" dec_string))].

Definition dec_openaiUsage : dec openaiUsage :=
  dec_struct
    [("prompt_tokens", field ou_PromptTokens (λ v u, mkOpenaiUsage v u.(ou_CompletionTokens) u.(ou_TotalTokens)) dec_int64);
     ("completion_tokens", field ou_CompletionTokens (λ v u, mkOpenaiUsage u.(ou_PromptTokens) v u.(ou_TotalTokens)) dec_int64);
     ("total_tokens", field ou_TotalTokens (λ v u, mkOpenaiUsage u.(ou_PromptTokens) u.(ou_CompletionTokens) v) dec_int64)].

Definition zero_openaiChoice : openaiChoice := mkOpenaiChoice 0 (mkOpenaiMsg "" "") None.
Definition zero_openaiResponse : openaiResponse := mkOpenaiResponse "" "" 0 "" None (mkOpenaiUsage 0 0 0).

Definition dec_openaiResponse : dec openaiResponse :=
  dec_struct
    [("id", field or_ID (λ v r, mkOpenaiResponse v r.(or_Object) r.(or_Created) r.(or_Model) r.(or_Choices) r.(or_Usage)) dec_string);
     ("object", field or_Object (λ v r, mkOpenaiResponse r.(or_ID) v r.(or_Created) r.(or_Model) r.(or_Choices) r.(or_Usage)) dec_string);
     ("created", field or_Created (λ v r, mkOpenaiResponse r.(or_ID) r.(or_Object) v r.(or_Model) r.(or_Choices) r.(or_Usage)) dec_int64);
     ("model", field or_Model (λ v r, mkOpenaiResponse r.(or_ID) r.(or_Object) r.(or_Created) v r.(or_Choices) r.(or_Usage)) dec_string);
     ("choices", field or_Choices (λ v r, mkOpenaiResponse r.(or_ID) r.(or_Object) r.(or_Created) r.(or_Model) v r.(or_Usage))
        (dec_slice zero_openaiChoice dec_openaiChoice));
     ("usage", field or_Usage (λ v r, mkOpenaiResponse r.(or_ID) r.(or_Object) r.(or_Created) r.(or_Model) r.(or_Choices) v) dec_openaiUsage)].

Definition dec_delta : dec openaiStreamDelta :=
  dec_struct
    [("role", field sd_Role (λ v d, mkDelta v d.(sd_Content)) dec_string);
     ("content", field sd_Content (λ v d, mkDelta d.(sd_Role) v) dec_string)].

Definition dec_streamChoice : dec openaiStreamChoice :=
  dec_struct
    [("index", field sc_Index (λ v c, mkStreamChoice v c.(sc_Delta) c.(sc_FinishReason)) dec_int64);
     ("delta", field sc_Delta (λ v c, mkStreamChoice c.(sc_Index) v c.(sc_FinishReason)) dec_delta);
     ("finish_reason", field sc_FinishReason (λ v c, mkStreamChoice c.(sc_Index) c.(sc_Delta) v)
        (dec_ptr "" dec_string))].

Definition zero_streamChoice : openaiStreamChoice := mkStreamChoice 0 (mkDelta "" "") None.
Definition zero_chunk : openaiStreamChunk := mkChunk "" "" 0 "" None.

Definition dec_chunk : dec openaiStreamChunk :=
  dec_struct
    [("id", field ck_ID (λ v c, mkChunk v c.(ck_Object) c.(ck_Created) c.(ck_Model) c.(ck_Choices)) dec_string);
     ("object", field ck_Object (λ v c, mkChunk c.(ck_ID) v c.(ck_Created) c.(ck_Model) c.(ck_Choices)) dec_string);
     ("created", field ck_Created (λ v c, mkChunk c.(ck_ID) c.(ck_Object) v c.(ck_Model) c.(ck_Choices)) dec_int64);
     ("model", field ck_Model (λ v c, mkChunk c.(ck_ID) c.(ck_Object) c.(ck_Created) v c.(ck_Choices)) dec_string);
     ("choices", field ck_Choices (λ v c, mkChunk c.(ck_ID) c.(ck_Object) c.(ck_Created) c.(ck_Model) v)
        (dec_slice zero_streamChoice dec_streamChoice))].

(** What makes a value of these types encodable without loss. *)
Definition ok_reason (f : option string) : Prop := ∀ s, f = Some s → valid_utf8 s.
Definition ok_choice (c : openaiChoice) : Prop :=
  in_int64 c.(oc_Index) ∧ valid_utf8 c.(oc_Message).(os_Role) ∧ valid_utf8 c.(oc_Message).(os_Content) ∧
  ok_reason c.(oc_FinishReason).
Definition ok_response (r : openaiResponse) : Prop :=
  valid_utf8 r.(or_ID) ∧ valid_utf8 r.(or_Object) ∧ in_int64 r.(or_Created) ∧ valid_utf8 r.(or_Model) ∧
  Forall ok_choice (default [] r.(or_Choices)) ∧ in_int64 r.(or_Usage).(ou_PromptTokens) ∧
  in_int64 r.(or_Usage).(ou_CompletionTokens) ∧ in_int64 r.(or_Usage).(ou_TotalTokens).

(** One field after the other, leaving the reading of each value. *)
Ltac read_field := eapply rf_cons; [reflexivity|reflexivity|apply reads_field|].
Ltac read_struct h := apply (reads_struct h); [lia|]; repeat read_field; [..|apply rf_nil].

(** The field that is read with value [x], where the variable afterwards is given. *)
Ltac read_as x :=
  match goal with |- reads_text ?h ?D ?s ?text _ =>
    let D' := eval cbn [id prod_map fst snd] in D in
    match D' with field ?g ?st ?d => change (reads_text h (field g st d) s text (st x s)) end
  end; apply reads_field.

Lemma reads_reason h f : ok_reason f → reads h (dec_ptr "" dec_string) None (encode_ptr encode_string f) f.
Proof.
  intros Hf. apply reads_ptr; [intros; apply reads_string; auto|]. intros x d v _. apply encode_string_not_null.
Qed.

Lemma reads_choice c : ok_choice c → reads 2 dec_openaiChoice zero_openaiChoice (encode_openaiChoice c) c.
Proof.
  destruct c as [i [role content] f]. intros (H1 & H2 & H3 & H4). read_struct 1.
  - by apply reads_int.
  - read_struct 0; by apply reads_string.
  - by apply reads_reason.
Qed.

Lemma reads_slice {T} h zero (D : dec T) enc (P : T → Prop) l : 0 <= h →
  (∀ x, P x → reads h D zero (enc x) x) → Forall P (default [] l) →
  reads (h + 1) (dec_slice zero D) None (encode_slice enc l) l.
Proof.
  intros Hh Hx Hl. destruct l as [l|]; [|apply reads_nil_slice]. apply reads_arr; [done|done|].
  cbn in Hl. induction Hl as [|x l Hp _ IH]; constructor; auto.
Qed.

(** A client that decodes the response gets every field of it. *)
Lemma response_roundtrip r : ok_response r →
  Unmarshal dec_openaiResponse (encode_openaiResponse r) zero_openaiResponse = (r, true).
Proof.
  destruct r as [i o c m ch [pt ct tt]]. intros (H1 & H2 & H3 & H4 & H5 & H6 & H7 & H8).
  apply (Unmarshal_reads (3 + 1)); [|done]. read_struct 3; try (by apply reads_string); try (by apply reads_int).
  - apply (reads_slice 2 _ _ _ ok_choice); [lia|apply reads_choice|done].
  - change 3 with (2 + 1). read_struct 2; by apply reads_int.
Qed.

Definition ok_streamChoice (c : openaiStreamChoice) : Prop :=
  in_int64 c.(sc_Index) ∧ valid_utf8 c.(sc_Delta).(sd_Role) ∧ valid_utf8 c.(sc_Delta).(sd_Content) ∧
  ok_reason c.(sc_FinishReason).
Definition ok_chunk (c : openaiStreamChunk) : Prop :=
  valid_utf8 c.(ck_ID) ∧ valid_utf8 c.(ck_Object) ∧ in_int64 c.(ck_Created) ∧ valid_utf8 c.(ck_Model) ∧
  Forall ok_streamChoice (default [] c.(ck_Choices)).

Lemma reads_delta d : valid_utf8 d.(sd_Role) → valid_utf8 d.(sd_Content) →
  reads (0 + 1) dec_delta (mkDelta "" "") (encode_delta d) d.
Proof.
  destruct d as [r c]. cbn [sd_Role sd_Content]. intros Hr Hc. unfold encode_delta. cbn [sd_Role sd_Content].
  unfold is_empty, omitempty. destruct (bool_decide_reflect (r = "")) as [->|];
    destruct (bool_decide_reflect (c = "")) as [->|];
    read_struct 0; by apply reads_string.
Qed.

Lemma reads_streamChoice c : ok_streamChoice c →
  reads 2 dec_streamChoice zero_streamChoice (encode_streamChoice c) c.
Proof.
  destruct c as [i d f]. intros (H1 & H2 & H3 & H4). read_struct 1.
  - by apply reads_int.
  - by apply reads_delta.
  - by apply reads_reason.
Qed.

Lemma chunk_roundtrip c : ok_chunk c →
  Unmarshal dec_chunk (encode_chunk c) zero_chunk = (c, true).
Proof.
  destruct c as [i o n m ch]. intros (H1 & H2 & H3 & H4 & H5).
  apply (Unmarshal_reads (3 + 1)); [|done]. read_struct 3; try (by apply reads_string); try (by apply reads_int).
  apply (reads_slice 2 _ _ _ ok_streamChoice); [lia|apply reads_streamChoice|done].
Qed.

(** ** What a decoded request satisfies *)

Ltac each_field := repeat (apply List.Forall_cons; cbn [snd]); [..|apply List.Forall_nil].

(** A message of a request: its content is a text at depth 3. *)
Definition ok_message (m : openaiMessage) : Prop :=
  valid_utf8 m.(om_Role) ∧ ∀ raw, m.(om_Content) = Some raw → ∃ v, jvalue 3 raw v.

Lemma keeps_message : keeps_elem 2 dec_openaiMessage ok_message.
Proof.
  apply keeps_struct. each_field.
  - apply (keeps_field _ _ _ _ valid_utf8); [by intros s [? _]|by intros v s ? [_ ?]|].
    apply keeps_elem_keeps, keeps_string.
  - apply (keeps_field _ _ _ _ (λ r, ∀ raw, r = Some raw → ∃ v, jvalue 3 raw v));
      [by intros s [_ ?]|by intros v s ? [? _]|]. apply keeps_raw.
Qed.

Section decoded.
Context `{FloatLaws}.

Definition ok_float (x : string) : Prop := jnumber x ∧ format_float x = Some x.

Lemma jnumber_zero : jnumber "0".
Proof using Type. apply (jnumber_intro "" "0" "" ""); by left. Qed.

Lemma ok_float_zero : ok_float "0".
Proof using All. split; [apply jnumber_zero|apply format_float_zero]. Qed.

Lemma keeps_float d : keeps_elem d dec_float ok_float.
Proof using All.
  intros j raw t Hj Ht. destruct Hj; cbn; try done.
  destruct (format_float lit) eqn:E; [|done].
  split; [by eapply format_float_number|by eapply format_float_idem].
Qed.

Lemma reads_float h t x : ok_float x → reads h dec_float t x x.
Proof using Type. intros [Hn Hf] d _. exists (JNum x). split; [by constructor|]. intros raw. cbn. by rewrite Hf. Qed.

Definition all_some {A} (P : A → Prop) (o : option A) : Prop := ∀ x, o = Some x → P x.

Definition ok_request (q : openaiRequest) : Prop :=
  valid_utf8 q.(oq_Model) ∧ Forall ok_message (default [] q.(oq_Messages)) ∧
  all_some in_int64 q.(oq_MaxTokens) ∧ all_some ok_float q.(oq_Temperature) ∧ all_some ok_float q.(oq_TopP) ∧
  all_some (λ raw, ∃ v, jvalue 1 raw v) q.(oq_Stop).

Ltac keep_field P := apply (keeps_field _ _ _ _ P);
  [by intros s (?&?&?&?&?&?)|by intros v s ? (?&?&?&?&?&?)|].

Lemma keeps_request : keeps_elem 0 dec_openaiRequest ok_request.
Proof using All.
  apply keeps_struct. each_field.
  - keep_field valid_utf8. apply keeps_elem_keeps, keeps_string.
  - keep_field (λ l, Forall ok_message (default [] l)). apply keeps_elem_keeps.
    apply (keeps_slice 1); [by split|apply keeps_message].
  - keep_field (λ _ : bool, True). by apply keeps_elem_keeps.
  - keep_field (all_some in_int64). apply keeps_elem_keeps, keeps_ptr; [done|apply keeps_int].
  - keep_field (all_some ok_float). apply keeps_elem_keeps, keeps_ptr; [apply ok_float_zero|apply keeps_float].
  - keep_field (all_some ok_float). apply keeps_elem_keeps, keeps_ptr; [apply ok_float_zero|apply keeps_float].
  - keep_field (all_some (λ raw, ∃ v, jvalue 1 raw v)). apply keeps_raw.
Qed.

Lemma decoded_request body oai ok :
  Unmarshal dec_openaiRequest body zero_openaiRequest = (oai, ok) → ok_request oai.
Proof using All.
  intros E. replace oai with (Unmarshal dec_openaiRequest body zero_openaiRequest).1 by by rewrite E.
  apply Unmarshal_keeps; [apply keeps_request|]. repeat split; try done; by constructor.
Qed.
End decoded.

(** The texts that are taken out of a message are valid UTF-8. *)
Lemma keeps_part d : keeps_elem d dec_contentPart (λ p, valid_utf8 p.(cp_Type) ∧ valid_utf8 p.(cp_Text)).
Proof.
  apply keeps_struct. each_field;
    (apply (keeps_field _ _ _ _ valid_utf8); [by intros s (?&?)|by intros v s ? (?&?)|]);
    apply keeps_elem_keeps, keeps_string.
Qed.

Lemma valid_concat sep l : valid_utf8 sep → Forall valid_utf8 l → valid_utf8 (String.concat sep l).
Proof.
  intros Hs. induction 1 as [|s l Hx Hl IH]; [done|]. cbn [String.concat].
  destruct l; [done|]. auto using valid_app.
Qed.

Lemma text_parts_valid parts :
  Forall (λ p, valid_utf8 p.(cp_Type) ∧ valid_utf8 p.(cp_Text)) parts → Forall valid_utf8 (text_parts parts).
Proof.
  unfold text_parts. induction 1 as [|p parts [_ Hp] _ IH]; [done|]. cbn [List.filter].
  case_bool_decide; [by constructor|done].
Qed.

Lemma extractTextContent_valid raw text : extractTextContent raw = inr text → valid_utf8 text.
Proof.
  unfold extractTextContent.
  pose proof (Unmarshal_keeps dec_string valid_utf8 (bytes_of raw) "" (keeps_string 0) valid_nil) as Hs.
  destruct (Unmarshal dec_string (bytes_of raw) "") as [s [|]]; [by intros [= <-]|].
  pose proof (Unmarshal_keeps _ _ (bytes_of raw) None
    (keeps_slice 0 (mkPart "" "") dec_contentPart _ (conj valid_nil valid_nil) (keeps_part 1)) ltac:(by constructor)) as Hp.
  destruct (Unmarshal (dec_slice _ _) (bytes_of raw) None) as [parts [|]]; [|done]. intros [= <-].
  apply valid_concat; [done|]. by apply text_parts_valid.
Qed.

Lemma parseStopField_valid raw seqs : parseStopField raw = inr seqs → Forall valid_utf8 (default [] seqs).
Proof.
  unfold parseStopField.
  pose proof (Unmarshal_keeps dec_string valid_utf8 (bytes_of raw) "" (keeps_string 0) valid_nil) as Hs.
  destruct (Unmarshal dec_string (bytes_of raw) "") as [s [|]]; [intros [= <-]; by repeat constructor|].
  pose proof (Unmarshal_keeps _ _ (bytes_of raw) None
    (keeps_slice 0 "" dec_string _ valid_nil (keeps_string 1)) ltac:(by constructor)) as Hp.
  destruct (Unmarshal (dec_slice _ _) (bytes_of raw) None) as [arr [|]]; [|done]. by intros [= <-].
Qed.

(** The value of a message's content: absent content is null. *)
Definition content_sem (c : slice) : option sem :=
  match c with None => Some VNull | Some raw => sem_of <$> parse raw end.

(** ** Floats that are written as they were read *)

Definition literal_floats : Strconv :=
  {| format_float lit := match scan_number lit with Some (l, EmptyString) => Some l | _ => None end |}.

Lemma literal_floats_laws : @FloatLaws literal_floats.
Proof.
  assert (∀ lit t, @format_float literal_floats lit = Some t → scan_number lit = Some (t, "")) as Hs.
  { intros lit t. cbn. destruct (scan_number lit) as [[l [|c r]]|]; congruence. }
  split; [| |done].
  - intros lit t _ Ht%Hs. by apply scan_number_jnumber in Ht as [_ ?].
  - intros lit t Ht%Hs. pose proof Ht as [E _]%scan_number_jnumber. rewrite str_app_nil_r in E. subst.
    cbn. by rewrite Ht.
Qed.
