(* ===== verification/JsonAny.v ===== *)
(** * Values of type any

    What [json.Unmarshal] stores in a variable of type [any] is encoded to a text
    that decodes to the same value, below any depth that the first text was at;
    the same for maps with such values. *)
From Stdlib Require Import Sorted.
From S2P Require Import Prelude GoStd Utf8 Json JsonGrammar JsonString JsonCompact JsonEnc JsonDecode JsonMap CacheKey OpenAIFormat.

(** ** The order of keys *)

Lemma ascii_compare_code a b : Ascii.compare a b = (code a ?= code b).
Proof. unfold Ascii.compare, code. by rewrite N2Z.inj_compare. Qed.

Lemma string_compare_trans a : ∀ b c, String.compare a b = Lt → String.compare b c = Lt → String.compare a c = Lt.
Proof.
  induction a as [|x a IH]; intros [|y b] [|z c]; cbn [String.compare]; try done.
  rewrite !ascii_compare_code. destruct (Z.compare_spec (code x) (code y)) as [E|E|E], (Z.compare_spec (code y) (code z)) as [E'|E'|E'];
    try done; intros H1 H2; destruct (Z.compare_spec (code x) (code z)); try lia; try done. by eapply IH.
Qed.

Definition key_lt (a b : string) : Prop := String.compare a b = Lt.
Definition keys_sorted (l : list (string * anyv)) : Prop := StronglySorted key_lt l.*1.

Lemma map_set_keys (P : string → Prop) k v l : P k → Forall P l.*1 → Forall P (map_set k v l).*1.
Proof.
  intros Hk. induction l as [|[k' v'] l IH]; cbn [map_set fmap list_fmap]; intros Hl; [by repeat constructor|].
  cbn in Hl. apply list.Forall_cons in Hl as [Hk' Hl]. destruct (String.compare k k'); cbn; repeat constructor; auto.
Qed.

Lemma map_set_sorted k v l : keys_sorted l → keys_sorted (map_set k v l).
Proof.
  unfold keys_sorted. induction l as [|[k' v'] l IH]; cbn [map_set fmap list_fmap]; intros Hs; [by repeat constructor|].
  cbn in Hs. apply StronglySorted_inv in Hs as [Hs Hf]. destruct (String.compare k k') eqn:E; cbn.
  - apply String.compare_eq_iff in E as ->. by constructor.
  - constructor; [by constructor|]. constructor; [done|]. eapply list.Forall_impl; [exact Hf|]. cbn. intros x Hx.
    by eapply string_compare_trans.
  - constructor; [auto|]. apply map_set_keys; [|done]. unfold key_lt. rewrite String.compare_antisym, E. done.
Qed.

Lemma map_set_last k v l : Forall (λ k', key_lt k' k) l.*1 → map_set k v l = l ++ [(k, v)].
Proof.
  induction l as [|[k' v'] l IH]; cbn; [done|]. intros [Hk Hl]%list.Forall_cons. unfold key_lt in Hk.
  rewrite String.compare_antisym, Hk. cbn. by rewrite IH.
Qed.

Section any.
Context `{Strconv}.

(** ** Equations *)

Lemma decode_any_arr l : decode_any (JArr l) = AArr <$> mapM decode_any l.
Proof. done. Qed.

Fixpoint decode_members (acc : list (string * anyv)) (ms : list (string * string * json)) : option (list (string * anyv)) :=
  match ms with
  | [] => Some acc
  | (key, _, x) :: ms' => v ← decode_any x; decode_members (map_set (unquote key) v acc) ms'
  end.

Lemma decode_any_obj ms : decode_any (JObj ms) = AMap <$> decode_members [] ms.
Proof. done. Qed.

Lemma encode_any_arr l : encode_any (AArr l) = encode_arr (encode_any <$> l).
Proof. done. Qed.

Definition any_member (p : string * anyv) : string * string := (p.1, encode_any p.2).

Lemma encode_any_map l : encode_any (AMap l) = encode_obj (any_member <$> l).
Proof. cbn. unfold encode_obj. do 3 f_equal. by induction l as [|[k x] l IH]; cbn; [|rewrite IH]. Qed.

(** ** Values that can be read back *)

#[warnings="-register-all"] Inductive any_ok : Z → anyv → Prop :=
| ok_null d : any_ok d ANull
| ok_bool d b : any_ok d (ABool b)
| ok_num d t : jnumber t → format_float t = Some t → any_ok d (ANum t)
| ok_str d s : valid_utf8 s → any_ok d (AStr s)
| ok_arr d l : d < max_depth → Forall (any_ok (d + 1)) l → any_ok d (AArr l)
| ok_map d l : d < max_depth → keys_sorted l → Forall valid_utf8 l.*1 → Forall (λ p, any_ok (d + 1) p.2) l → any_ok d (AMap l).

Context `{!FloatLaws}.

Lemma map_set_ok d k v l : keys_sorted l ∧ Forall valid_utf8 l.*1 ∧ Forall (λ p, any_ok d p.2) l →
  valid_utf8 k → any_ok d v →
  keys_sorted (map_set k v l) ∧ Forall valid_utf8 (map_set k v l).*1 ∧ Forall (λ p, any_ok d p.2) (map_set k v l).
Proof using Type.
  intros (Hs & Hk & Hv) Hk' Hv'. split_and!; [by apply map_set_sorted|by apply map_set_keys|by apply (map_set_Forall (any_ok d))].
Qed.

Lemma decoded_ok :
  (∀ d t j, jvalue d t j → ∀ w, decode_any j = Some w → any_ok d w) ∧
  (∀ d t js, jelems d t js → ∀ ws, mapM decode_any js = Some ws → Forall (any_ok d) ws) ∧
  (∀ d t ms, jmembers d t ms → ∀ acc l, decode_members acc ms = Some l →
     keys_sorted acc ∧ Forall valid_utf8 acc.*1 ∧ Forall (λ p, any_ok d p.2) acc →
     keys_sorted l ∧ Forall valid_utf8 l.*1 ∧ Forall (λ p, any_ok d p.2) l).
Proof using All.
  apply jtext_rule; intros d.
  - intros w [= <-]. constructor.
  - intros b w [= <-]. constructor.
  - intros lit Hn w (t & Ht & ->)%fmap_Some. constructor; [by eapply format_float_number|by eapply format_float_idem].
  - intros raw Hr w [= <-]. constructor. by apply unquote_valid.
  - intros w Hd _ w'. rewrite decode_any_arr. intros [= <-]. by constructor.
  - intros t vs Hd _ IH w. rewrite decode_any_arr. intros (l & Hl & ->)%fmap_Some. constructor; [done|auto].
  - intros w Hd _ w'. rewrite decode_any_obj. intros [= <-]. by repeat constructor.
  - intros t ms Hd _ IH w. rewrite decode_any_obj. intros (l & Hl & ->)%fmap_Some.
    destruct (IH [] l Hl) as (? & ? & ?); [by repeat constructor|]. by constructor.
  - intros w t v w' _ _ IH _ ws. cbn. destruct (decode_any v) as [x|]; [|done]. intros [= <-]. constructor; [auto|done].
  - intros w t v w' u vs _ _ IH _ _ IHs ws. cbn. destruct (decode_any v) as [x|]; [|done]. cbn.
    intros (l & Hl & [= <-])%bind_Some. constructor; auto.
  - intros w k w1 w2 t v w3 _ Hk _ _ _ IH _ acc l. cbn. destruct (decode_any v) as [x|]; [|done]. intros [= <-] Hacc.
    apply map_set_ok; [done|by apply unquote_valid|auto].
  - intros w k w1 w2 t v w3 u ms _ Hk _ _ _ IH _ _ IHs acc l. cbn. destruct (decode_any v) as [x|]; [|done]. cbn.
    intros Hl Hacc. eapply IHs; [done|]. apply map_set_ok; [done|by apply unquote_valid|auto].
Qed.

Lemma decode_any_ok d t j w : jvalue d t j → decode_any j = Some w → any_ok d w.
Proof using All. intros Hj. by apply (proj1 decoded_ok d t j). Qed.

(** ** Encoding and decoding again *)

Lemma sorted_before k x l acc : keys_sorted (acc ++ (k, x) :: l) → Forall (λ k', key_lt k' k) acc.*1.
Proof using Type.
  unfold keys_sorted. rewrite fmap_app. induction (acc.*1) as [|y ys IHy]; intros Hs; [by constructor|].
  cbn in Hs. apply StronglySorted_inv in Hs as [Hs Hf]. apply Forall_app in Hf as [_ Hf].
  apply list.Forall_cons in Hf as [Hf _]. constructor; [done|]. by apply IHy.
Qed.

Lemma decode_sorted l vs acc : keys_sorted (acc ++ l) → Forall valid_utf8 l.*1 →
  Forall2 (λ p v, decode_any v = Some p.2) l vs → decode_members acc (obj_members (any_member <$> l) vs) = Some (acc ++ l).
Proof using Type.
  intros Hs Hv HF. revert acc Hs Hv. induction HF as [|[k x] v l vs Hx HF IH]; intros acc Hs Hv.
  { cbn. by rewrite app_nil_r. }
  cbn in Hv. apply list.Forall_cons in Hv as [Hk Hv]. unfold obj_members. cbn [fmap list_fmap zip_with any_member fst snd decode_members].
  rewrite Hx. cbn [mbind option_bind fst snd]. rewrite unquote_encode_valid by done.
  rewrite map_set_last by (by apply (sorted_before k x l)).
  replace (acc ++ (k, x) :: l) with ((acc ++ [(k, x)]) ++ l) in * by (by rewrite <-(assoc_L (++))).
  by apply IH.
Qed.

Lemma encode_any_reads w : ∀ d, any_ok d w → ∃ j, jvalue d (encode_any w) j ∧ decode_any j = Some w.
Proof using All.
  induction w as [|b|t|s|l IH|l IH] using anyv_nested_ind; intros d Hok; inversion Hok as [| |? ? Hn Hf|? ? Hs|? ? Hd Hl|? ? Hd Hs Hk Hl]; subst.
  - exists JNull. split; [constructor|done].
  - exists (JBool b). split; [constructor|done].
  - exists (JNum t). split; [by constructor|]. cbn. by rewrite Hf.
  - eexists. split; [apply encode_string_value|]. cbn [decode_any]. by rewrite unquote_encode_valid.
  - assert (∃ vs, Forall2 (jvalue (d + 1)) (encode_any <$> l) vs ∧ mapM decode_any vs = Some l) as (vs & Hvs & Hm).
    { clear Hok. induction IH as [|x l Hx _ IH]; [by exists []|]. apply list.Forall_cons in Hl as [Hox Hl].
      destruct (Hx _ Hox) as (j & Hj & Hdj), (IH Hl) as (vs & Hvs & Hm). exists (j :: vs). split; [by constructor|].
      cbn. by rewrite Hdj, Hm. }
    exists (JArr vs). rewrite encode_any_arr, decode_any_arr, Hm. split; [by apply encode_arr_value|done].
  - assert (∃ vs, Forall2 (λ p v, jvalue (d + 1) p.2 v) (any_member <$> l) vs ∧ Forall2 (λ p v, decode_any v = Some p.2) l vs)
      as (vs & Hvs & Hm).
    { clear Hok Hs Hk. induction IH as [|x l Hx _ IH]; [by exists []|]. apply list.Forall_cons in Hl as [Hox Hl].
      destruct (Hx _ Hox) as (j & Hj & Hdj), (IH Hl) as (vs & Hvs & Hm). exists (j :: vs). split; by constructor. }
    exists (JObj (obj_members (any_member <$> l) vs)). rewrite encode_any_map, decode_any_obj.
    split; [by apply encode_obj_value|]. rewrite (decode_sorted l vs []); [done|done|done|done].
Qed.
End any.
