(* ===== verification/Anthropic.v ===== *)
(** * The Anthropic translation (internal/provider/anthropic/translate.go)

    Requests from the OpenAI chat format to the Messages API, responses and stream
    events back. *)
From S2P Require Import Prelude GoStd Utf8 Json StreamDetect JsonFuel JsonGrammar JsonString JsonCompact JsonEnc JsonDecode.
From S2P Require Import CacheKey Engine OpenAIFormat.

(** ** Requests *)

Definition defaultMaxTokens : Z := 4096.

Record anthropicMessage := mkAnthropicMessage {
  am_Role : string;
  am_Content : slice
}.

Record anthropicRequest := mkAnthropicRequest {
  aq_Model : string;
  aq_MaxTokens : Z;
  aq_System : string;
  aq_Messages : option (list anthropicMessage);
  aq_Stream : bool;
  aq_Temperature : option string;
  aq_TopP : option string;
  aq_StopSequences : option (list string)
}.

Definition encode_anthropicMessage (m : anthropicMessage) : option string :=
  content ← encode_raw m.(am_Content);
  Some (encode_struct [always "role" (encode_string m.(am_Role)); always "content" content]).

(** [json.Marshal(ant)] *)
Definition encode_anthropicRequest (q : anthropicRequest) : option string :=
  messages ← match q.(aq_Messages) with
             | None => Some "null"
             | Some l => encode_arr <$> mapM encode_anthropicMessage l
             end;
  Some (encode_struct
    [always "model" (encode_string q.(aq_Model));
     always "max_tokens" (encode_int q.(aq_MaxTokens));
     omitempty (is_empty q.(aq_System)) "system" (encode_string q.(aq_System));
     always "messages" messages;
     omitempty (negb q.(aq_Stream)) "stream" (encode_bool q.(aq_Stream));
     omitempty (bool_decide (q.(aq_Temperature) = None)) "temperature" (encode_ptr id q.(aq_Temperature));
     omitempty (bool_decide (q.(aq_TopP) = None)) "top_p" (encode_ptr id q.(aq_TopP));
     omitempty (bool_decide (default [] q.(aq_StopSequences) = [])) "stop_sequences"
       (encode_slice encode_string q.(aq_StopSequences))]).

(** The loop over the messages: system texts and the rest, as they are appended. *)
Fixpoint split_messages (msgs : list openaiMessage) (systemParts : list string)
    (messages : option (list anthropicMessage))
  : gerror + list string * option (list anthropicMessage) :=
  match msgs with
  | [] => inr (systemParts, messages)
  | msg :: msgs' =>
    if decide (msg.(om_Role) = "system") then
      match extractTextContent msg.(om_Content) with
      | inl err => inl (GWrap "parsing system message" err)
      | inr text => split_messages msgs' (systemParts ++ [text]) messages
      end
    else split_messages msgs' systemParts
           (Some (default [] messages ++ [mkAnthropicMessage msg.(om_Role) msg.(om_Content)]))
  end.

Definition newline_str : string := String (byte_of 10) "".

Section translate.
Context `{Strconv}.

Definition translateRequest (rawBody : slice) : gerror + string :=
  match Unmarshal dec_openaiRequest (bytes_of rawBody) zero_openaiRequest with
  | (_, false) => inl (GWrap "parsing request" (GPlain "json"))
  | (oai, true) =>
    let maxTokens := default defaultMaxTokens oai.(oq_MaxTokens) in
    match split_messages (default [] oai.(oq_Messages)) [] None with
    | inl err => inl err
    | inr (systemParts, messages) =>
      let system := if (0 <? length systemParts)%nat then Join systemParts newline_str else "" in
      let stop :=
        if (0 <? String.length (bytes_of oai.(oq_Stop)))%nat then
          match parseStopField oai.(oq_Stop) with
          | inl err => inl (GWrap "parsing stop field" err)
          | inr seqs => inr seqs
          end
        else inr None in
      match stop with
      | inl err => inl err
      | inr seqs =>
        match encode_anthropicRequest (mkAnthropicRequest oai.(oq_Model) maxTokens system messages
                oai.(oq_Stream) oai.(oq_Temperature) oai.(oq_TopP) seqs) with
        | None => inl (GPlain "json")
        | Some body => inr body
        end
      end
    end
  end.
End translate.

(** ** Responses *)

Record anthropicUsage := mkAnthropicUsage {
  au_InputTokens : Z;
  au_OutputTokens : Z
}.

Record anthropicResponse := mkAnthropicResponse {
  ar_ID : string;
  ar_Type : string;
  ar_Role : string;
  ar_Content : option (list contentPart);
  ar_Model : string;
  ar_StopReason : string;
  ar_Usage : anthropicUsage
}.

Definition dec_anthropicUsage : dec anthropicUsage :=
  dec_struct
    [("input_tokens", field au_InputTokens (λ v u, mkAnthropicUsage v u.(au_OutputTokens)) dec_int64);
     ("output_tokens", field au_OutputTokens (λ v u, mkAnthropicUsage u.(au_InputTokens) v) dec_int64)].

Definition dec_anthropicResponse : dec anthropicResponse :=
  dec_struct
    [("id", field ar_ID (λ v r, mkAnthropicResponse v r.(ar_Type) r.(ar_Role) r.(ar_Content) r.(ar_Model)
        r.(ar_StopReason) r.(ar_Usage)) dec_string);
     ("type", field ar_Type (λ v r, mkAnthropicResponse r.(ar_ID) v r.(ar_Role) r.(ar_Content) r.(ar_Model)
        r.(ar_StopReason) r.(ar_Usage)) dec_string);
     ("role", field ar_Role (λ v r, mkAnthropicResponse r.(ar_ID) r.(ar_Type) v r.(ar_Content) r.(ar_Model)
        r.(ar_StopReason) r.(ar_Usage)) dec_string);
     ("content", field ar_Content (λ v r, mkAnthropicResponse r.(ar_ID) r.(ar_Type) r.(ar_Role) v r.(ar_Model)
        r.(ar_StopReason) r.(ar_Usage)) (dec_slice (mkPart "" "") dec_contentPart));
     ("model", field ar_Model (λ v r, mkAnthropicResponse r.(ar_ID) r.(ar_Type) r.(ar_Role) r.(ar_Content) v
        r.(ar_StopReason) r.(ar_Usage)) dec_string);
     ("stop_reason", field ar_StopReason (λ v r, mkAnthropicResponse r.(ar_ID) r.(ar_Type) r.(ar_Role)
        r.(ar_Content) r.(ar_Model) v r.(ar_Usage)) dec_string);
     ("usage", field ar_Usage (λ v r, mkAnthropicResponse r.(ar_ID) r.(ar_Type) r.(ar_Role) r.(ar_Content)
        r.(ar_Model) r.(ar_StopReason) v) dec_anthropicUsage)].

Definition zero_anthropicResponse : anthropicResponse :=
  mkAnthropicResponse "" "" "" None "" "" (mkAnthropicUsage 0 0).

Definition mapStopReason (reason : string) : option string :=
  if decide (reason = "end_turn") then Some "stop"
  else if decide (reason = "max_tokens") then Some "length"
  else if decide (reason = "stop_sequence") then Some "stop"
  else if decide (reason = "") then None
  else Some reason.

(** [now] is [time.Now().Unix()]. *)
Definition translateResponse (now : Z) (body : slice) : gerror + string :=
  match Unmarshal dec_anthropicResponse (bytes_of body) zero_anthropicResponse with
  | (_, false) => inl (GWrap "parsing anthropic response" (GPlain "json"))
  | (ant, true) =>
    let content := String.concat "" (text_parts (default [] ant.(ar_Content))) in
    inr (encode_openaiResponse (mkOpenaiResponse ant.(ar_ID) "chat.completion" now ant.(ar_Model)
      (Some [mkOpenaiChoice 0 (mkOpenaiMsg "assistant" content) (mapStopReason ant.(ar_StopReason))])
      (mkOpenaiUsage ant.(ar_Usage).(au_InputTokens) ant.(ar_Usage).(au_OutputTokens)
         (wrap64 (ant.(ar_Usage).(au_InputTokens) + ant.(ar_Usage).(au_OutputTokens))))))
  end.

(** ** Stream events *)

Record streamState := mkStreamState {
  ss_id : string;
  ss_model : string
}.

(** The anonymous structs of the event handlers. *)
Definition dec_startEvent : dec streamState :=
  dec_struct [("message", dec_struct
    [("id", field ss_id (λ v m, mkStreamState v m.(ss_model)) dec_string);
     ("model", field ss_model (λ v m, mkStreamState m.(ss_id) v) dec_string)])].

Definition dec_deltaEvent : dec contentPart := dec_struct [("delta", dec_contentPart)].

Definition dec_stopEvent : dec string :=
  dec_struct [("delta", dec_struct [("stop_reason", dec_string)])].

Definition new_chunk (state : streamState) (now : Z) (delta : openaiStreamDelta)
    (finish : option string) : string :=
  encode_chunk (mkChunk state.(ss_id) "chat.completion.chunk" now state.(ss_model)
    (Some [mkStreamChoice 0 delta finish])).

(** The result of an event: its data (nil to skip it) and whether the stream is
    done. *)
Definition ST_event : Type := ST streamState (gerror + slice * bool).

Definition handleMessageStart (now : Z) (data : string) : ST_event := λ state,
  match Unmarshal dec_startEvent data (mkStreamState "" "") with
  | (_, false) => (inl (GWrap "parsing message_start" (GPlain "json")), state)
  | (ev, true) => (inr (Some (new_chunk ev now (mkDelta "assistant" "") None), false), ev)
  end.

Definition handleContentBlockDelta (now : Z) (data : string) : ST_event := λ state,
  match Unmarshal dec_deltaEvent data (mkPart "" "") with
  | (_, false) => (inl (GWrap "parsing content_block_delta" (GPlain "json")), state)
  | (ev, true) =>
    if negb (bool_decide (ev.(cp_Type) = "text_delta")) then (inr (None, false), state)
    else (inr (Some (new_chunk state now (mkDelta "" ev.(cp_Text)) None), false), state)
  end.

Definition handleMessageDelta (now : Z) (data : string) : ST_event := λ state,
  match Unmarshal dec_stopEvent data "" with
  | (_, false) => (inl (GWrap "parsing message_delta" (GPlain "json")), state)
  | (reason, true) =>
    (inr (Some (new_chunk state now (mkDelta "" "") (mapStopReason reason)), false), state)
  end.

Definition translateStreamEvent (now : Z) (eventType data : string) : ST_event :=
  if decide (eventType = "message_start") then handleMessageStart now data
  else if decide (eventType = "content_block_delta") then handleContentBlockDelta now data
  else if decide (eventType = "message_delta") then handleMessageDelta now data
  else if decide (eventType = "message_stop") then mret (inr (None, true))
  else mret (inr (None, false)).
