(* ===== verification/AnthropicTheorems.v ===== *)
(** * Properties of the Anthropic translation

    The translated request, read by the decoder of the same types, carries what
    the incoming request asked for; the translated response and stream chunks carry
    what the upstream answered. *)
From S2P Require Import Prelude GoStd Utf8 Json StreamDetect JsonFuel JsonGrammar JsonString JsonCompact JsonEnc JsonDecode.
From S2P Require Import CacheKey Engine OpenAIFormat Anthropic.

(** ** Reading a translated request *)

Definition dec_anthropicMessage : dec anthropicMessage :=
  dec_struct
    [("role", field am_Role (λ v m, mkAnthropicMessage v m.(am_Content)) dec_string);
     ("content", field am_Content (λ v m, mkAnthropicMessage m.(am_Role) v) dec_raw)].

Definition zero_anthropicRequest : anthropicRequest := mkAnthropicRequest "" 0 "" None false None None None.

Definition dec_anthropicRequest `{Strconv} : dec anthropicRequest :=
  dec_struct
    [("model", field aq_Model (λ v q, mkAnthropicRequest v q.(aq_MaxTokens) q.(aq_System) q.(aq_Messages)
        q.(aq_Stream) q.(aq_Temperature) q.(aq_TopP) q.(aq_StopSequences)) dec_string);
     ("max_tokens", field aq_MaxTokens (λ v q, mkAnthropicRequest q.(aq_Model) v q.(aq_System) q.(aq_Messages)
        q.(aq_Stream) q.(aq_Temperature) q.(aq_TopP) q.(aq_StopSequences)) dec_int64);
     ("system", field aq_System (λ v q, mkAnthropicRequest q.(aq_Model) q.(aq_MaxTokens) v q.(aq_Messages)
        q.(aq_Stream) q.(aq_Temperature) q.(aq_TopP) q.(aq_StopSequences)) dec_string);
     ("messages", field aq_Messages (λ v q, mkAnthropicRequest q.(aq_Model) q.(aq_MaxTokens) q.(aq_System) v
        q.(aq_Stream) q.(aq_Temperature) q.(aq_TopP) q.(aq_StopSequences))
        (dec_slice (mkAnthropicMessage "" None) dec_anthropicMessage));
     ("stream", field aq_Stream (λ v q, mkAnthropicRequest q.(aq_Model) q.(aq_MaxTokens) q.(aq_System) q.(aq_Messages)
        v q.(aq_Temperature) q.(aq_TopP) q.(aq_StopSequences)) dec_bool);
     ("temperature", field aq_Temperature (λ v q, mkAnthropicRequest q.(aq_Model) q.(aq_MaxTokens) q.(aq_System)
        q.(aq_Messages) q.(aq_Stream) v q.(aq_TopP) q.(aq_StopSequences)) (dec_ptr "0" dec_float));
     ("top_p", field aq_TopP (λ v q, mkAnthropicRequest q.(aq_Model) q.(aq_MaxTokens) q.(aq_System) q.(aq_Messages)
        q.(aq_Stream) q.(aq_Temperature) v q.(aq_StopSequences)) (dec_ptr "0" dec_float));
     ("stop_sequences", field aq_StopSequences (λ v q, mkAnthropicRequest q.(aq_Model) q.(aq_MaxTokens) q.(aq_System)
        q.(aq_Messages) q.(aq_Stream) q.(aq_Temperature) q.(aq_TopP) v) (dec_slice "" dec_string))].

(** ** Messages *)

(** Contents are texts at depth 3 of the request and of its translation. *)
Definition hmsg : Z := max_depth - 3.

(** A message arrives with its role, and with a content of the same value. *)
Definition same_message (m : openaiMessage) (m' : anthropicMessage) : Prop :=
  m'.(am_Role) = m.(om_Role) ∧ content_sem m'.(am_Content) = content_sem m.(om_Content).

Definition convert (m : openaiMessage) : anthropicMessage := mkAnthropicMessage m.(om_Role) m.(om_Content).

Lemma reads_content c : (∀ raw, c = Some raw → ∃ v, jvalue 3 raw v) →
  ∃ text, encode_raw c = Some text ∧ content_sem (Some text) = content_sem c ∧
    reads_text hmsg dec_raw None text (Some text).
Proof.
  intros Hc. destruct c as [raw|].
  - destruct (Hc raw eq_refl) as (v & Hv). destruct (encode_raw_value 3 raw v ltac:(lia) Hv) as (He & v' & Hv' & Hs).
    exists (compact raw). split; [done|]. split.
    + cbn [content_sem]. rewrite (parse_jvalue _ _ (proj1 jtext_shallower _ _ _ Hv 0 ltac:(lia))).
      rewrite (parse_jvalue _ _ (proj1 jtext_shallower _ _ _ Hv' 0 ltac:(lia))). cbn. by rewrite Hs.
    + intros d Hd. exists v'. split; [|done]. apply (proj1 jtext_shallower _ _ _ Hv'). unfold hmsg in Hd. lia.
  - exists "null". split_and!; [done|done|]. intros d _. exists JNull. split; [constructor|done].
Qed.

Lemma reads_message m : ok_message m → ∃ text m', encode_anthropicMessage (convert m) = Some text ∧
  same_message m m' ∧ reads (hmsg + 1) dec_anthropicMessage (mkAnthropicMessage "" None) text m'.
Proof.
  intros [Hr Hc]. destruct (reads_content _ Hc) as (c & He & Hs & Ht).
  unfold encode_anthropicMessage. cbn [convert am_Role am_Content]. rewrite He.
  eexists _, (mkAnthropicMessage m.(om_Role) (Some c)). split; [done|]. split; [done|].
  apply (reads_struct hmsg); [done|]. eapply rf_cons; [done|done|by apply reads_field, reads_string|].
  eapply rf_cons; [done|done|by apply reads_text_field|]. apply rf_nil.
Qed.

Lemma reads_messages ms : Forall ok_message ms → ∃ texts ms', mapM encode_anthropicMessage (convert <$> ms) = Some texts ∧
  Forall2 same_message ms ms' ∧ Forall2 (reads (hmsg + 1) dec_anthropicMessage (mkAnthropicMessage "" None)) texts ms'.
Proof.
  induction 1 as [|m ms Hm _ (texts & ms' & He & Hs & Ht)]; [by exists [], []|].
  destruct (reads_message m Hm) as (text & m' & Hm1 & Hm2 & Hm3). exists (text :: texts), (m' :: ms').
  split_and!; [|by constructor..]. cbn [fmap list_fmap mapM]. rewrite Hm1. cbn. by rewrite He.
Qed.

(** The conversation, and the system messages. *)
Definition is_system (m : openaiMessage) : bool := bool_decide (m.(om_Role) = "system").
Definition system_messages (q : openaiRequest) : list openaiMessage :=
  List.filter is_system (default [] q.(oq_Messages)).
Definition conversation (q : openaiRequest) : list openaiMessage :=
  List.filter (λ m, negb (is_system m)) (default [] q.(oq_Messages)).

Definition extracts (m : openaiMessage) (t : string) : Prop := extractTextContent m.(om_Content) = inr t.

(** What the loop leaves: nil when there is nothing to append. *)
Definition append_messages (acc : option (list anthropicMessage)) (ms : list openaiMessage) :=
  match ms with [] => acc | _ => Some (default [] acc ++ (convert <$> ms)) end.

Lemma append_messages_cons acc m ms :
  append_messages (Some (default [] acc ++ [convert m])) ms = append_messages acc (m :: ms).
Proof. destruct ms; cbn; [done|]. by rewrite <-app_assoc. Qed.

Lemma split_messages_ok msgs : ∀ sys acc texts,
  Forall2 extracts (List.filter is_system msgs) texts →
  split_messages msgs sys acc =
    inr (sys ++ texts, append_messages acc (List.filter (λ m, negb (is_system m)) msgs)).
Proof.
  induction msgs as [|m msgs IH]; intros sys acc texts HF; cbn [split_messages List.filter].
  - inversion HF; subst. by rewrite app_nil_r.
  - cbn [List.filter] in HF. unfold is_system at 1 in HF. unfold is_system at 1. case_bool_decide as E; cbn [negb].
    + inversion HF as [|? t ? ts Ht HF']; subst. rewrite decide_True by done. rewrite Ht.
      by rewrite (IH _ _ ts), <-app_assoc.
    + rewrite decide_False by done. rewrite (IH _ _ texts) by done. f_equal. f_equal. apply append_messages_cons.
Qed.

(** A system message that cannot be read stops the loop. *)
Lemma split_messages_err msgs : ∀ sys acc,
  Exists (λ m, ∀ t, ~ extracts m t) (List.filter is_system msgs) →
  ∃ e, split_messages msgs sys acc = inl (GWrap "parsing system message" e).
Proof.
  induction msgs as [|m msgs IH]; intros sys acc HE; cbn [split_messages List.filter] in *; [by inversion HE|].
  unfold is_system at 1 in HE. case_bool_decide as E.
  - rewrite decide_True by done. destruct (extractTextContent m.(om_Content)) as [e|t] eqn:Et; [eauto|].
    inversion HE as [? ? Hm|]; subst; [by destruct (Hm t)|auto].
  - rewrite decide_False by done. auto.
Qed.

Lemma all_extract_dec ms : (∃ texts, Forall2 extracts ms texts) ∨ Exists (λ m, ∀ t, ~ extracts m t) ms.
Proof.
  induction ms as [|m ms [[texts IH]|IH]]; [left; by exists []| |right; by constructor].
  destruct (extractTextContent m.(om_Content)) as [e|t] eqn:Et.
  - right. constructor. intros t Ht. unfold extracts in Ht. congruence.
  - left. exists (t :: texts). by constructor.
Qed.

(** ** The whole request *)

(** The stop field, when there is one. *)
Definition stop_sequences (q : openaiRequest) (seqs : option (list string)) : Prop :=
  if (0 <? String.length (bytes_of q.(oq_Stop)))%nat then parseStopField q.(oq_Stop) = inr seqs else seqs = None.

(** What the upstream must understand: everything that was asked for. *)
Definition asks_for (q : openaiRequest) (sys : list string) (seqs : option (list string)) (ant : anthropicRequest)
  : Prop :=
  ant.(aq_Model) = q.(oq_Model) ∧
  ant.(aq_MaxTokens) = default defaultMaxTokens q.(oq_MaxTokens) ∧
  ant.(aq_System) = Join sys newline_str ∧
  Forall2 same_message (conversation q) (default [] ant.(aq_Messages)) ∧
  ant.(aq_Stream) = q.(oq_Stream) ∧ ant.(aq_Temperature) = q.(oq_Temperature) ∧ ant.(aq_TopP) = q.(oq_TopP) ∧
  default [] ant.(aq_StopSequences) = default [] seqs.

Section request.
Context `{FloatLaws}.

Lemma reads_float_ptr h p : all_some ok_float p → reads h (dec_ptr "0" dec_float) None (encode_ptr id p) p.
Proof.
  intros Hp. apply reads_ptr.
  - intros x ->. apply reads_float. by apply Hp.
  - intros x d v -> Hv. eapply jnumber_not_null, Hv. by apply Hp.
Qed.

(** A request whose messages are written as [texts]. *)
Lemma reads_request q texts ms' :
  valid_utf8 q.(aq_Model) → in_int64 q.(aq_MaxTokens) → valid_utf8 q.(aq_System) →
  reads (hmsg + 2) (dec_slice (mkAnthropicMessage "" None) dec_anthropicMessage) None texts ms' →
  all_some ok_float q.(aq_Temperature) → all_some ok_float q.(aq_TopP) →
  Forall valid_utf8 (default [] q.(aq_StopSequences)) →
  ∃ seqs', default [] seqs' = default [] q.(aq_StopSequences) ∧
  Unmarshal dec_anthropicRequest (encode_struct
    [always "model" (encode_string q.(aq_Model));
     always "max_tokens" (encode_int q.(aq_MaxTokens));
     omitempty (is_empty q.(aq_System)) "system" (encode_string q.(aq_System));
     always "messages" texts;
     omitempty (negb q.(aq_Stream)) "stream" (encode_bool q.(aq_Stream));
     omitempty (bool_decide (q.(aq_Temperature) = None)) "temperature" (encode_ptr id q.(aq_Temperature));
     omitempty (bool_decide (q.(aq_TopP) = None)) "top_p" (encode_ptr id q.(aq_TopP));
     omitempty (bool_decide (default [] q.(aq_StopSequences) = [])) "stop_sequences"
       (encode_slice encode_string q.(aq_StopSequences))]) zero_anthropicRequest =
  (mkAnthropicRequest q.(aq_Model) q.(aq_MaxTokens) q.(aq_System) ms' q.(aq_Stream) q.(aq_Temperature)
     q.(aq_TopP) seqs', true).
Proof.
  destruct q as [model mt sys ms st te tp seqs].
  cbn [aq_Model aq_MaxTokens aq_System aq_Messages aq_Stream aq_Temperature aq_TopP aq_StopSequences].
  intros Hm Hi Hs Ht Hte Htp Hseq.
  assert (reads (hmsg + 2) (dec_slice "" dec_string) None (encode_slice encode_string seqs) seqs) as Hst.
  { apply (reads_slice (hmsg + 1) _ _ _ valid_utf8); [done|intros; by apply reads_string|done]. }
  exists (if bool_decide (default [] seqs = []) then None else seqs).
  split; [case_bool_decide as E; [by rewrite E|done]|].
  assert (hmsg + 2 + 1 = max_depth) as Hmax by (unfold hmsg; lia).
  apply (Unmarshal_reads (hmsg + 2 + 1)); [|by rewrite Hmax].
  apply (reads_struct (hmsg + 2)); [done|].
  eapply rf_always; [done|done|by apply reads_field, reads_string|].
  eapply rf_always; [done|done|by apply reads_field, reads_int|].
  eapply (rf_omitempty _ _ _ _ _ _ _ _ (mkAnthropicRequest model mt sys None false None None None)); [done|done|..].
  { unfold is_empty. case_bool_decide; [by subst|]. read_as sys. by apply reads_string. }
  eapply rf_always; [done|done|by apply reads_field|].
  eapply (rf_omitempty _ _ _ _ _ _ _ _ (mkAnthropicRequest model mt sys ms' st None None None)); [done|done|..].
  { destruct st; [|done]. cbn [negb]. read_as true. by apply (reads_bool _ _ true). }
  eapply (rf_omitempty _ _ _ _ _ _ _ _ (mkAnthropicRequest model mt sys ms' st te None None)); [done|done|..].
  { case_bool_decide; [by subst|]. read_as te. by apply reads_float_ptr. }
  eapply (rf_omitempty _ _ _ _ _ _ _ _ (mkAnthropicRequest model mt sys ms' st te tp None)); [done|done|..].
  { case_bool_decide; [by subst|]. read_as tp. by apply reads_float_ptr. }
  eapply rf_omitempty; [done|done| |apply rf_nil].
  case_bool_decide; [done|]. read_as seqs. done.
Qed.

Lemma conversation_ok q : ok_request q → Forall ok_message (conversation q).
Proof.
  intros (_ & Hm & _). unfold conversation. induction Hm as [|m l Hm _ IH]; cbn; [done|].
  destruct (is_system m); cbn; [done|by constructor].
Qed.

Lemma system_join sys : (if (0 <? length sys)%nat then Join sys newline_str else "") = Join sys newline_str.
Proof. by destruct sys. Qed.

Lemma request_max_tokens q : ok_request q → in_int64 (default defaultMaxTokens q.(oq_MaxTokens)).
Proof. intros (_ & _ & Hm & _). destruct (oq_MaxTokens q); [by apply Hm|done]. Qed.

Lemma translateRequest_unfold body oai sys seqs :
  Unmarshal dec_openaiRequest (bytes_of body) zero_openaiRequest = (oai, true) →
  Forall2 extracts (system_messages oai) sys → stop_sequences oai seqs →
  translateRequest body =
    match encode_anthropicRequest (mkAnthropicRequest oai.(oq_Model) (default defaultMaxTokens oai.(oq_MaxTokens))
            (Join sys newline_str) (append_messages None (conversation oai))
            oai.(oq_Stream) oai.(oq_Temperature) oai.(oq_TopP) seqs) with
    | None => inl (GPlain "json")
    | Some out => inr out
    end.
Proof.
  intros E Hsys Hstop. unfold translateRequest. rewrite E. unfold system_messages in Hsys.
  rewrite (split_messages_ok _ [] None sys Hsys). cbn zeta. cbn [app]. rewrite system_join.
  unfold stop_sequences in Hstop. destruct (0 <? _)%nat; by rewrite Hstop.
Qed.

Lemma translateRequest_reads body oai sys seqs :
  Unmarshal dec_openaiRequest (bytes_of body) zero_openaiRequest = (oai, true) →
  Forall2 extracts (system_messages oai) sys → stop_sequences oai seqs →
  ∃ out ant, translateRequest body = inr out ∧
    Unmarshal dec_anthropicRequest out zero_anthropicRequest = (ant, true) ∧ asks_for oai sys seqs ant.
Proof using All.
  intros E Hsys Hstop. pose proof (decoded_request _ _ _ E) as Hok. pose proof Hok as (Hmodel & _ & _ & Hte & Htp & _).
  rewrite (translateRequest_unfold body oai sys seqs) by done.
  assert (Forall valid_utf8 (default [] seqs)) as Hseqs.
  { unfold stop_sequences in Hstop. destruct (0 <? _)%nat; [by eapply parseStopField_valid|by subst]. }
  assert (valid_utf8 (Join sys newline_str)) as Hj.
  { apply valid_concat; [done|]. clear -Hsys. induction Hsys as [|m t ms ts Ht _ IH]; constructor; [|done].
    by eapply extractTextContent_valid. }
  destruct (reads_messages (conversation oai) (conversation_ok _ Hok)) as (texts & ms' & He & Hms & Ht).
  unfold encode_anthropicRequest. cbn [aq_Messages].
  assert (∃ t ml, match append_messages None (conversation oai) with
     | None => Some "null" | Some l => encode_arr <$> mapM encode_anthropicMessage l end = Some t ∧
     default [] ml = ms' ∧
     reads (hmsg + 2) (dec_slice (mkAnthropicMessage "" None) dec_anthropicMessage) None t ml) as (t & ml & -> & Hml & Hr).
  { destruct (conversation oai) as [|m ms] eqn:Ec; cbn [append_messages].
    - exists "null", None. inversion Hms. split_and!; [done|done|]. apply reads_nil_slice.
    - exists (encode_arr texts), (Some ms'). cbn [default from_option id app]. rewrite He. split_and!; [done|done|].
      by apply (reads_arr (hmsg + 1)). }
  edestruct (reads_request (mkAnthropicRequest oai.(oq_Model) (default defaultMaxTokens oai.(oq_MaxTokens))
    (Join sys newline_str) (append_messages None (conversation oai)) oai.(oq_Stream) oai.(oq_Temperature)
    oai.(oq_TopP) seqs) t ml) as (seqs' & Hseq' & Hun); cbn [aq_Model aq_MaxTokens aq_System aq_Temperature aq_TopP aq_StopSequences];
    [done|by apply request_max_tokens|done..|].
  eexists _, _. split; [done|]. split; [exact Hun|]. unfold asks_for. cbn. by rewrite Hml.
Qed.

(** The translation fails only when the body does not decode, a system message
    has no text, or the stop field is neither a string nor an array. *)
Lemma translateRequest_fails body e :
  translateRequest body = inl e →
  (Unmarshal dec_openaiRequest (bytes_of body) zero_openaiRequest).2 = false ∨
  let oai := (Unmarshal dec_openaiRequest (bytes_of body) zero_openaiRequest).1 in
  Exists (λ m, ∀ t, ~ extracts m t) (system_messages oai) ∨
  (oai.(oq_Stop) ≠ None ∧ ∀ seqs, parseStopField oai.(oq_Stop) ≠ inr seqs).
Proof using All.
  intros Hf. destruct (Unmarshal _ (bytes_of body) _) as [oai [|]] eqn:E; [|by left]. right. cbn [fst].
  destruct (all_extract_dec (system_messages oai)) as [[sys Hsys]|Hno]; [right|by left].
  assert (¬ ∃ seqs, stop_sequences oai seqs) as Hns.
  { intros [seqs Hs]. destruct (translateRequest_reads body oai sys seqs) as (out & ? & Ho & _); [done..|]. congruence. }
  unfold stop_sequences in Hns. destruct (0 <? _)%nat eqn:El.
  - split; [by destruct (oq_Stop oai)|]. intros seqs Hs. apply Hns. eauto.
  - destruct Hns. eauto.
Qed.

(** A translation that succeeds read everything it needed. *)
Lemma translateRequest_ok body out : translateRequest body = inr out →
  ∃ oai sys seqs, Unmarshal dec_openaiRequest (bytes_of body) zero_openaiRequest = (oai, true) ∧
    Forall2 extracts (system_messages oai) sys ∧ stop_sequences oai seqs.
Proof using Type.
  unfold translateRequest. destruct (Unmarshal _ (bytes_of body) _) as [oai [|]] eqn:E; [|done]. intros Hf.
  destruct (all_extract_dec (system_messages oai)) as [[sys Hsys]|Hno].
  2:{ destruct (split_messages_err _ [] None Hno) as [e He]. by rewrite He in Hf. }
  pose proof Hsys as Hsys'. unfold system_messages in Hsys'. rewrite (split_messages_ok _ [] None sys Hsys') in Hf.
  exists oai, sys. unfold stop_sequences. destruct (0 <? _)%nat; [|by exists None].
  destruct (parseStopField (oq_Stop oai)) as [e|seqs]; [done|]. by exists seqs.
Qed.

(** C13. The Anthropic translation of a request is faithful: it succeeds exactly when
    the body decodes, every system message has text and the stop field is a
    string or an array of strings; an Anthropic server that decodes the result
    reads the model, the token limit (4096 when there is none), the joined system
    texts, the other messages in order with their roles and the values of their
    contents, the sampling parameters and the stop sequences of the request. *)
Theorem anthropic_request_faithful body :
  match translateRequest body with
  | inr out => ∃ oai sys seqs ant,
      Unmarshal dec_openaiRequest (bytes_of body) zero_openaiRequest = (oai, true) ∧
      Forall2 extracts (system_messages oai) sys ∧ stop_sequences oai seqs ∧
      Unmarshal dec_anthropicRequest out zero_anthropicRequest = (ant, true) ∧ asks_for oai sys seqs ant
  | inl _ =>
      (Unmarshal dec_openaiRequest (bytes_of body) zero_openaiRequest).2 = false ∨
      let oai := (Unmarshal dec_openaiRequest (bytes_of body) zero_openaiRequest).1 in
      Exists (λ m, ∀ t, ~ extracts m t) (system_messages oai) ∨
      (oai.(oq_Stop) ≠ None ∧ ∀ seqs, parseStopField oai.(oq_Stop) ≠ inr seqs)
  end.
Proof using All.
  destruct (translateRequest body) as [e|out] eqn:E; [by eapply translateRequest_fails|].
  destruct (translateRequest_ok _ _ E) as (oai & sys & seqs & Ho & Hs & Hq).
  destruct (translateRequest_reads body oai sys seqs Ho Hs Hq) as (out' & ant & E' & Hu & Ha).
  exists oai, sys, seqs, ant. rewrite E in E'. by simplify_eq.
Qed.
End request.

(** ** Responses *)

Definition ok_part (p : contentPart) : Prop := valid_utf8 p.(cp_Type) ∧ valid_utf8 p.(cp_Text).

Definition ok_anthropicResponse (r : anthropicResponse) : Prop :=
  valid_utf8 r.(ar_ID) ∧ Forall ok_part (default [] r.(ar_Content)) ∧ valid_utf8 r.(ar_Model) ∧
  valid_utf8 r.(ar_StopReason) ∧ in_int64 r.(ar_Usage).(au_InputTokens) ∧ in_int64 r.(ar_Usage).(au_OutputTokens).

Lemma keeps_usage d : keeps_elem d dec_anthropicUsage
  (λ u, in_int64 u.(au_InputTokens) ∧ in_int64 u.(au_OutputTokens)).
Proof.
  apply keeps_struct. each_field; (apply (keeps_field _ _ _ _ in_int64);
    [by intros s (?&?)|by intros v s ? (?&?)|]); apply keeps_elem_keeps, keeps_int.
Qed.

Ltac keep_answer_field P := apply (keeps_field _ _ _ _ P); [by intros s (?&?&?&?&?&?)|by intros v s ? (?&?&?&?&?&?)|].

Lemma keeps_response : keeps_elem 0 dec_anthropicResponse ok_anthropicResponse.
Proof.
  apply keeps_struct. each_field.
  - keep_answer_field valid_utf8. apply keeps_elem_keeps, keeps_string.
  - keep_answer_field (λ _ : string, True). by apply keeps_elem_keeps.
  - keep_answer_field (λ _ : string, True). by apply keeps_elem_keeps.
  - keep_answer_field (λ l, Forall ok_part (default [] l)). apply keeps_elem_keeps, (keeps_slice 1); [done|apply keeps_part].
  - keep_answer_field valid_utf8. apply keeps_elem_keeps, keeps_string.
  - keep_answer_field valid_utf8. apply keeps_elem_keeps, keeps_string.
  - apply (keeps_field _ _ _ _ (λ u, in_int64 u.(au_InputTokens) ∧ in_int64 u.(au_OutputTokens)));
      [by intros s (?&?&?&?&?&?)|by intros v s [? ?] (?&?&?&?&?&?)|]. apply keeps_elem_keeps, keeps_usage.
Qed.

Lemma mapStopReason_valid r : valid_utf8 r → ok_reason (mapStopReason r).
Proof. intros Hr s. unfold mapStopReason. repeat case_decide; intros; by simplify_eq. Qed.

(** What the client is told of an answer. *)
Definition expected_response (now : Z) (ant : anthropicResponse) : openaiResponse :=
  mkOpenaiResponse ant.(ar_ID) "chat.completion" now ant.(ar_Model)
    (Some [mkOpenaiChoice 0 (mkOpenaiMsg "assistant" (String.concat "" (text_parts (default [] ant.(ar_Content)))))
             (mapStopReason ant.(ar_StopReason))])
    (mkOpenaiUsage ant.(ar_Usage).(au_InputTokens) ant.(ar_Usage).(au_OutputTokens)
       (wrap64 (ant.(ar_Usage).(au_InputTokens) + ant.(ar_Usage).(au_OutputTokens)))).

Lemma translateResponse_reads now body ant :
  in_int64 now → Unmarshal dec_anthropicResponse (bytes_of body) zero_anthropicResponse = (ant, true) →
  ∃ out, translateResponse now body = inr out ∧
    Unmarshal dec_openaiResponse out zero_openaiResponse = (expected_response now ant, true).
Proof.
  intros Hnow E. eexists. unfold translateResponse. rewrite E. split; [done|].
  assert (ok_anthropicResponse ant) as (Hid & Hc & Hm & Hs & Hi & Ho).
  { replace ant with (Unmarshal dec_anthropicResponse (bytes_of body) zero_anthropicResponse).1 by by rewrite E.
    apply Unmarshal_keeps; [apply keeps_response|]. repeat split; try done; by constructor. }
  apply response_roundtrip. unfold ok_response, expected_response. cbn. split_and!; try done; [|apply wrap64_range].
  constructor; [|constructor]. unfold ok_choice. cbn. split_and!; try done.
  - apply valid_concat; [done|]. by apply text_parts_valid.
  - by apply mapStopReason_valid.
Qed.

(** ** Stream events *)

(** What the client is told by an event: the decoded chunk, or nothing. *)
Definition chunk_of (state : streamState) (now : Z) (delta : openaiStreamDelta) (finish : option string)
  : openaiStreamChunk :=
  mkChunk state.(ss_id) "chat.completion.chunk" now state.(ss_model) (Some [mkStreamChoice 0 delta finish]).

Lemma new_chunk_reads state now delta finish :
  valid_utf8 state.(ss_id) → valid_utf8 state.(ss_model) → in_int64 now →
  valid_utf8 delta.(sd_Role) → valid_utf8 delta.(sd_Content) → ok_reason finish →
  Unmarshal dec_chunk (new_chunk state now delta finish) zero_chunk = (chunk_of state now delta finish, true).
Proof.
  intros. apply chunk_roundtrip. unfold ok_chunk. cbn. split_and!; try done.
  constructor; [|constructor]. unfold ok_streamChoice. cbn. by split_and!.
Qed.

(** ** Example *)

Definition demo_request : slice := Some (dq
  "{'model':'m','messages':[{'role':'system','content':'Be brief.'},{'role':'user','content':[{'type':'text','text':'hi'}]}],'temperature':0.5,'stop':'END'}").

Lemma anthropic_request_faithful_witness :
  match @translateRequest literal_floats demo_request with
  | inr out => ∃ oai sys seqs ant,
      Unmarshal (@dec_openaiRequest literal_floats) (bytes_of demo_request) zero_openaiRequest = (oai, true) ∧
      Forall2 extracts (system_messages oai) sys ∧ stop_sequences oai seqs ∧
      Unmarshal (@dec_anthropicRequest literal_floats) out zero_anthropicRequest = (ant, true) ∧ asks_for oai sys seqs ant
  | inl _ => False
  end.
Proof.
  pose proof (@anthropic_request_faithful literal_floats literal_floats_laws demo_request) as Hf.
  destruct (@translateRequest literal_floats demo_request) as [e|out] eqn:E; [by vm_compute in E|exact Hf].
Defined.
