(* ===== verification/Gemini.v ===== *)
(** * The Gemini translation (internal/provider/gemini/translate.go) and the
    redaction of keys in errors (internal/provider/gemini/gemini.go)

    The package declares its own copy of the OpenAI types and of the two helpers
    on content and stop fields; the names below that are definitions of
    OpenAIFormat stand for that copy. *)
From stdpp Require Import pretty.
From S2P Require Import Prelude GoStd Utf8 Json StreamDetect JsonFuel JsonGrammar JsonString JsonCompact JsonEnc JsonDecode.
From S2P Require Import CacheKey Engine OpenAIFormat.

(** ** Requests *)

Definition extractTextContent : slice → gerror + string := OpenAIFormat.extractTextContent.
Definition parseStopField : slice → gerror + option (list string) := OpenAIFormat.parseStopField.

Record geminiPart := mkGeminiPart { gp_Text : string }.

Record geminiContent := mkGeminiContent {
  gc_Role : string;
  gc_Parts : option (list geminiPart)
}.

Record generationConfig := mkGenerationConfig {
  gg_Temperature : option string;
  gg_MaxOutputTokens : option Z;
  gg_TopP : option string;
  gg_StopSequences : option (list string)
}.

Record geminiRequest := mkGeminiRequest {
  gq_Contents : option (list geminiContent);
  gq_SystemInstruction : option geminiContent;
  gq_GenerationConfig : option generationConfig
}.

Definition encode_part (p : geminiPart) : string :=
  encode_struct [always "text" (encode_string p.(gp_Text))].

Definition encode_content (c : geminiContent) : string :=
  encode_struct
    [omitempty (is_empty c.(gc_Role)) "role" (encode_string c.(gc_Role));
     always "parts" (encode_slice encode_part c.(gc_Parts))].

Definition encode_config (g : generationConfig) : string :=
  encode_struct
    [omitempty (bool_decide (g.(gg_Temperature) = None)) "temperature" (encode_ptr id g.(gg_Temperature));
     omitempty (bool_decide (g.(gg_MaxOutputTokens) = None)) "maxOutputTokens"
       (encode_ptr encode_int g.(gg_MaxOutputTokens));
     omitempty (bool_decide (g.(gg_TopP) = None)) "topP" (encode_ptr id g.(gg_TopP));
     omitempty (bool_decide (default [] g.(gg_StopSequences) = [])) "stopSequences"
       (encode_slice encode_string g.(gg_StopSequences))].

Definition encode_geminiRequest (q : geminiRequest) : string :=
  encode_struct
    [always "contents" (encode_slice encode_content q.(gq_Contents));
     omitempty (negb (bool_decide (is_Some q.(gq_SystemInstruction)))) "systemInstruction"
       (encode_ptr encode_content q.(gq_SystemInstruction));
     omitempty (negb (bool_decide (is_Some q.(gq_GenerationConfig)))) "generationConfig"
       (encode_ptr encode_config q.(gq_GenerationConfig))].

Definition mapRoleToGemini (role : string) : string :=
  if decide (role = "assistant") then "model" else role.

(** The loop over the messages. *)
Fixpoint split_messages (msgs : list openaiMessage) (systemParts : list string)
    (contents : option (list geminiContent))
  : gerror + list string * option (list geminiContent) :=
  match msgs with
  | [] => inr (systemParts, contents)
  | msg :: msgs' =>
    if decide (msg.(om_Role) = "system") then
      match extractTextContent msg.(om_Content) with
      | inl err => inl (GWrap "parsing system message" err)
      | inr text => split_messages msgs' (systemParts ++ [text]) contents
      end
    else
      match extractTextContent msg.(om_Content) with
      | inl err => inl (GWrap "parsing message content" err)
      | inr text =>
        split_messages msgs' systemParts
          (Some (default [] contents ++
                 [mkGeminiContent (mapRoleToGemini msg.(om_Role)) (Some [mkGeminiPart text])]))
      end
  end.

Definition newline_str : string := String (byte_of 10) "".

(** Nothing to configure: the four fields are nil. *)
Definition config_is_nil (g : generationConfig) : bool :=
  bool_decide (g.(gg_Temperature) = None) && bool_decide (g.(gg_MaxOutputTokens) = None) &&
  bool_decide (g.(gg_TopP) = None) && bool_decide (g.(gg_StopSequences) = None).

Section translate.
Context `{Strconv}.

(** The translated body and the model, which goes into the URL. *)
Definition translateRequest (rawBody : slice) : gerror + string * string :=
  match Unmarshal dec_openaiRequest (bytes_of rawBody) zero_openaiRequest with
  | (_, false) => inl (GWrap "parsing request" (GPlain "json"))
  | (oai, true) =>
    let stop :=
      if (0 <? String.length (bytes_of oai.(oq_Stop)))%nat then
        match parseStopField oai.(oq_Stop) with
        | inl err => inl (GWrap "parsing stop field" err)
        | inr seqs => inr seqs
        end
      else inr None in
    match stop with
    | inl err => inl err
    | inr seqs =>
      let gc := mkGenerationConfig oai.(oq_Temperature) oai.(oq_MaxTokens) oai.(oq_TopP) seqs in
      match split_messages (default [] oai.(oq_Messages)) [] None with
      | inl err => inl err
      | inr (systemParts, contents) =>
        let system :=
          if (0 <? length systemParts)%nat
          then Some (mkGeminiContent "" (Some [mkGeminiPart (Join systemParts newline_str)]))
          else None in
        inr (encode_geminiRequest (mkGeminiRequest contents system
               (if config_is_nil gc then None else Some gc)), oai.(oq_Model))
      end
    end
  end.
End translate.

(** ** Responses *)

Record geminiCandidate := mkCandidate {
  ca_Content : geminiContent;
  ca_FinishReason : string
}.

Record geminiUsage := mkGeminiUsage {
  gu_PromptTokenCount : Z;
  gu_CandidatesTokenCount : Z;
  gu_TotalTokenCount : Z
}.

Record geminiResponse := mkGeminiResponse {
  gr_Candidates : option (list geminiCandidate);
  gr_UsageMetadata : option geminiUsage;
  gr_ModelVersion : string
}.

Definition dec_part : dec geminiPart :=
  dec_struct [("text", field gp_Text (λ v _, mkGeminiPart v) dec_string)].

Definition dec_content : dec geminiContent :=
  dec_struct
    [("role", field gc_Role (λ v c, mkGeminiContent v c.(gc_Parts)) dec_string);
     ("parts", field gc_Parts (λ v c, mkGeminiContent c.(gc_Role) v) (dec_slice (mkGeminiPart "") dec_part))].

Definition zero_content : geminiContent := mkGeminiContent "" None.

Definition dec_candidate : dec geminiCandidate :=
  dec_struct
    [("content", field ca_Content (λ v c, mkCandidate v c.(ca_FinishReason)) dec_content);
     ("finishReason", field ca_FinishReason (λ v c, mkCandidate c.(ca_Content) v) dec_string)].

Definition dec_usage : dec geminiUsage :=
  dec_struct
    [("promptTokenCount", field gu_PromptTokenCount
        (λ v u, mkGeminiUsage v u.(gu_CandidatesTokenCount) u.(gu_TotalTokenCount)) dec_int64);
     ("candidatesTokenCount", field gu_CandidatesTokenCount
        (λ v u, mkGeminiUsage u.(gu_PromptTokenCount) v u.(gu_TotalTokenCount)) dec_int64);
     ("totalTokenCount", field gu_TotalTokenCount
        (λ v u, mkGeminiUsage u.(gu_PromptTokenCount) u.(gu_CandidatesTokenCount) v) dec_int64)].

Definition zero_response : geminiResponse := mkGeminiResponse None None "".

Definition dec_response : dec geminiResponse :=
  dec_struct
    [("candidates", field gr_Candidates (λ v r, mkGeminiResponse v r.(gr_UsageMetadata) r.(gr_ModelVersion))
        (dec_slice (mkCandidate zero_content "") dec_candidate));
     ("usageMetadata", field gr_UsageMetadata (λ v r, mkGeminiResponse r.(gr_Candidates) v r.(gr_ModelVersion))
        (dec_ptr (mkGeminiUsage 0 0 0) dec_usage));
     ("modelVersion", field gr_ModelVersion (λ v r, mkGeminiResponse r.(gr_Candidates) r.(gr_UsageMetadata) v)
        dec_string)].

Definition mapFinishReason (reason : string) : option string :=
  if decide (reason = "STOP") then Some "stop"
  else if decide (reason = "MAX_TOKENS") then Some "length"
  else if decide (reason = "SAFETY") then Some "content_filter"
  else if decide (reason = "RECITATION") then Some "content_filter"
  else if decide (reason = "") then None
  else Some reason.

Definition candidate_text (c : geminiCandidate) : string :=
  String.concat "" (gp_Text <$> default [] c.(ca_Content).(gc_Parts)).

(** [nano] and [now] are [time.Now().UnixNano()] and [time.Now().Unix()]. *)
Definition translateResponse (nano now : Z) (body : slice) (model : string) : gerror + string :=
  match Unmarshal dec_response (bytes_of body) zero_response with
  | (_, false) => inl (GWrap "parsing gemini response" (GPlain "json"))
  | (gem, true) =>
    let '(content, finishReason) :=
      match default [] gem.(gr_Candidates) with
      | [] => ("", None)
      | c :: _ => (candidate_text c, mapFinishReason c.(ca_FinishReason))
      end in
    let usage :=
      match gem.(gr_UsageMetadata) with
      | None => mkOpenaiUsage 0 0 0
      | Some u => mkOpenaiUsage u.(gu_PromptTokenCount) u.(gu_CandidatesTokenCount) u.(gu_TotalTokenCount)
      end in
    inr (encode_openaiResponse (mkOpenaiResponse ("chatcmpl-" +:+ pretty nano) "chat.completion" now model
      (Some [mkOpenaiChoice 0 (mkOpenaiMsg "assistant" content) finishReason]) usage))
  end.

(** ** Stream chunks *)

Record streamState := mkStreamState {
  ss_model : string;
  ss_id : string
}.

Definition translateStreamChunk (now : Z) (data : string) (state : streamState)
  : gerror + slice * bool :=
  match Unmarshal dec_response data zero_response with
  | (_, false) => inl (GWrap "parsing gemini stream chunk" (GPlain "json"))
  | (gem, true) =>
    match default [] gem.(gr_Candidates) with
    | [] => inr (None, false)
    | candidate :: _ =>
      inr (Some (encode_chunk (mkChunk state.(ss_id) "chat.completion.chunk" now state.(ss_model)
             (Some [mkStreamChoice 0 (mkDelta "" (candidate_text candidate))
                      (mapFinishReason candidate.(ca_FinishReason))]))),
           negb (bool_decide (candidate.(ca_FinishReason) = "")))
    end
  end.
