(* ===== verification/GeminiTheorems.v ===== *)
(** * Properties of the Gemini translation

    As for Anthropic: the translated request, read by the decoder of the same
    types, carries what the incoming request asked for, and the translated response
    what the upstream answered. *)
From stdpp Require Import pretty.
From S2P Require Import Prelude GoStd Utf8 Json StreamDetect JsonFuel JsonGrammar JsonString JsonCompact JsonEnc JsonDecode.
From S2P Require Import CacheKey Engine OpenAIFormat AnthropicTheorems Gemini.

(** ** What a decoded response satisfies *)

Definition ok_content (c : geminiContent) : Prop :=
  valid_utf8 c.(gc_Role) ∧ Forall (λ p, valid_utf8 p.(gp_Text)) (default [] c.(gc_Parts)).
Definition ok_candidate (c : geminiCandidate) : Prop := ok_content c.(ca_Content) ∧ valid_utf8 c.(ca_FinishReason).
Definition ok_gusage (g : geminiUsage) : Prop :=
  in_int64 g.(gu_PromptTokenCount) ∧ in_int64 g.(gu_CandidatesTokenCount) ∧ in_int64 g.(gu_TotalTokenCount).
Definition ok_gemini (r : geminiResponse) : Prop :=
  Forall ok_candidate (default [] r.(gr_Candidates)) ∧ all_some ok_gusage r.(gr_UsageMetadata).

Lemma keeps_gpart d : keeps_elem d dec_part (λ p, valid_utf8 p.(gp_Text)).
Proof.
  apply keeps_struct. each_field. apply (keeps_field _ _ _ _ valid_utf8); [done|done|]. apply keeps_elem_keeps, keeps_string.
Qed.

Lemma keeps_gcontent d : keeps_elem d dec_content ok_content.
Proof.
  apply keeps_struct. each_field.
  - apply (keeps_field _ _ _ _ valid_utf8); [by intros s (?&?)|by intros v s ? (?&?)|]. apply keeps_elem_keeps, keeps_string.
  - apply (keeps_field _ _ _ _ (λ l, Forall (λ p, valid_utf8 p.(gp_Text)) (default [] l)));
      [by intros s (?&?)|by intros v s ? (?&?)|]. apply keeps_elem_keeps, keeps_slice; [done|apply keeps_gpart].
Qed.

Lemma keeps_candidate d : keeps_elem d dec_candidate ok_candidate.
Proof.
  apply keeps_struct. each_field.
  - apply (keeps_field _ _ _ _ ok_content); [by intros s (?&?)|by intros v s ? (?&?)|]. apply keeps_elem_keeps, keeps_gcontent.
  - apply (keeps_field _ _ _ _ valid_utf8); [by intros s (?&?)|by intros v s ? (?&?)|]. apply keeps_elem_keeps, keeps_string.
Qed.

Lemma keeps_gusage d : keeps_elem d dec_usage ok_gusage.
Proof.
  apply keeps_struct. each_field; (apply (keeps_field _ _ _ _ in_int64);
    [by intros s (?&?&?)|by intros v s ? (?&?&?)|]); apply keeps_elem_keeps, keeps_int.
Qed.

Lemma keeps_gemini : keeps_elem 0 dec_response ok_gemini.
Proof.
  apply keeps_struct. each_field.
  - apply (keeps_field _ _ _ _ (λ l, Forall ok_candidate (default [] l))); [by intros s (?&?)|by intros v s ? (?&?)|].
    apply keeps_elem_keeps, keeps_slice; [|apply keeps_candidate]. by repeat split.
  - apply (keeps_field _ _ _ _ (all_some ok_gusage)); [by intros s (?&?)|by intros v s ? (?&?)|].
    apply keeps_elem_keeps, keeps_ptr; [done|apply keeps_gusage].
  - apply (keeps_field _ _ _ _ (λ _ : string, True)); [done|by intros v s ? (?&?)|]. by apply keeps_elem_keeps.
Qed.

Lemma decoded_gemini data gem ok : Unmarshal dec_response data zero_response = (gem, ok) → ok_gemini gem.
Proof.
  intros E. replace gem with (Unmarshal dec_response data zero_response).1 by by rewrite E.
  apply Unmarshal_keeps; [apply keeps_gemini|]. split; [by constructor|done].
Qed.

Lemma candidate_valid c : ok_candidate c → valid_utf8 (candidate_text c).
Proof.
  intros [[_ Hp] _]. apply valid_concat; [done|]. induction Hp; constructor; auto.
Qed.

Lemma mapFinishReason_valid r : valid_utf8 r → ok_reason (mapFinishReason r).
Proof. intros Hr s. unfold mapFinishReason. repeat case_decide; intros; by simplify_eq. Qed.

(** ** Reading a translated request *)

Definition zero_config : generationConfig := mkGenerationConfig None None None None.
Definition zero_geminiRequest : geminiRequest := mkGeminiRequest None None None.

Definition dec_config `{Strconv} : dec generationConfig :=
  dec_struct
    [("temperature", field gg_Temperature (λ v g, mkGenerationConfig v g.(gg_MaxOutputTokens) g.(gg_TopP)
        g.(gg_StopSequences)) (dec_ptr "0" dec_float));
     ("maxOutputTokens", field gg_MaxOutputTokens (λ v g, mkGenerationConfig g.(gg_Temperature) v g.(gg_TopP)
        g.(gg_StopSequences)) (dec_ptr 0 dec_int64));
     ("topP", field gg_TopP (λ v g, mkGenerationConfig g.(gg_Temperature) g.(gg_MaxOutputTokens) v
        g.(gg_StopSequences)) (dec_ptr "0" dec_float));
     ("stopSequences", field gg_StopSequences (λ v g, mkGenerationConfig g.(gg_Temperature) g.(gg_MaxOutputTokens)
        g.(gg_TopP) v) (dec_slice "" dec_string))].

Definition dec_geminiRequest `{Strconv} : dec geminiRequest :=
  dec_struct
    [("contents", field gq_Contents (λ v q, mkGeminiRequest v q.(gq_SystemInstruction) q.(gq_GenerationConfig))
        (dec_slice zero_content dec_content));
     ("systemInstruction", field gq_SystemInstruction (λ v q, mkGeminiRequest q.(gq_Contents) v q.(gq_GenerationConfig))
        (dec_ptr zero_content dec_content));
     ("generationConfig", field gq_GenerationConfig (λ v q, mkGeminiRequest q.(gq_Contents) q.(gq_SystemInstruction) v)
        (dec_ptr zero_config dec_config))].

Lemma encode_obj_not_null l d v : jvalue d (encode_obj l) v → v ≠ JNull.
Proof. intros Hv ->. by inversion Hv. Qed.

Lemma reads_content_text c : ok_content c → reads (2 + 1) dec_content zero_content (encode_content c) c.
Proof.
  destruct c as [role parts]. intros [Hr Hp]. cbn [gc_Role gc_Parts] in *. unfold encode_content. cbn [gc_Role gc_Parts].
  apply (reads_struct 2); [lia|].
  eapply (rf_omitempty _ _ _ _ _ _ _ _ (mkGeminiContent role None)); [done|done|..].
  { unfold is_empty. case_bool_decide; [by subst|]. read_as role. by apply reads_string. }
  eapply rf_always; [done|done| |apply rf_nil]. read_as parts.
  apply (reads_slice 1 _ _ _ (λ p, valid_utf8 p.(gp_Text))); [lia| |done]. intros [text] Ht. read_struct 0. by apply reads_string.
Qed.

Section request.
Context `{FloatLaws}.

Definition ok_config (g : generationConfig) : Prop :=
  all_some ok_float g.(gg_Temperature) ∧ all_some in_int64 g.(gg_MaxOutputTokens) ∧ all_some ok_float g.(gg_TopP) ∧
  Forall valid_utf8 (default [] g.(gg_StopSequences)).

(** An empty list of stop sequences is left out. *)
Definition read_config (g : generationConfig) : generationConfig :=
  mkGenerationConfig g.(gg_Temperature) g.(gg_MaxOutputTokens) g.(gg_TopP)
    (if bool_decide (default [] g.(gg_StopSequences) = []) then None else g.(gg_StopSequences)).

Lemma reads_config g : ok_config g → reads (2 + 1) dec_config zero_config (encode_config g) (read_config g).
Proof using All.
  destruct g as [te mt tp seqs]. intros (Hte & Hmt & Htp & Hs). unfold encode_config, read_config.
  cbn [gg_Temperature gg_MaxOutputTokens gg_TopP gg_StopSequences] in *. apply (reads_struct 2); [lia|].
  eapply (rf_omitempty _ _ _ _ _ _ _ _ (mkGenerationConfig te None None None)); [done|done|..].
  { case_bool_decide; [by subst|]. read_as te. by apply reads_float_ptr. }
  eapply (rf_omitempty _ _ _ _ _ _ _ _ (mkGenerationConfig te mt None None)); [done|done|..].
  { case_bool_decide; [by subst|]. read_as mt. apply reads_ptr; [intros x ->; by apply reads_int, Hmt|].
    intros x d v _ Hv. by eapply jnumber_not_null, Hv; apply encode_int_number. }
  eapply (rf_omitempty _ _ _ _ _ _ _ _ (mkGenerationConfig te mt tp None)); [done|done|..].
  { case_bool_decide; [by subst|]. read_as tp. by apply reads_float_ptr. }
  eapply rf_omitempty; [done|done| |apply rf_nil]. case_bool_decide; [done|]. read_as seqs.
  by apply (reads_slice 1 _ _ _ valid_utf8); [lia|intros; by apply reads_string|].
Qed.

(** A pointer field that is left out when nil. *)
Lemma reads_geminiRequest q :
  Forall ok_content (default [] q.(gq_Contents)) → all_some ok_content q.(gq_SystemInstruction) →
  all_some ok_config q.(gq_GenerationConfig) →
  Unmarshal dec_geminiRequest (encode_geminiRequest q) zero_geminiRequest =
  (mkGeminiRequest q.(gq_Contents) q.(gq_SystemInstruction) (read_config <$> q.(gq_GenerationConfig)), true).
Proof using All.
  destruct q as [cs sys cfg]. cbn [gq_Contents gq_SystemInstruction gq_GenerationConfig]. intros Hc Hs Hg.
  apply (Unmarshal_reads (4 + 1)); [|done]. unfold encode_geminiRequest. cbn [gq_Contents gq_SystemInstruction gq_GenerationConfig].
  apply (reads_struct 4); [lia|].
  eapply rf_always; [done|done|apply reads_field; by apply (reads_slice 3 _ _ _ ok_content); [lia|apply reads_content_text|]|].
  eapply (rf_omitempty _ _ _ _ _ _ _ _ (mkGeminiRequest cs sys None)); [done|done|..].
  { destruct sys as [sys|]; [|done]. cbn [is_Some]. rewrite bool_decide_eq_true_2 by eauto. cbn [negb]. read_as (Some sys).
    apply reads_ptr; [|intros; by eapply encode_obj_not_null]. intros x [= ->] d Hd.
    apply (reads_content_text x); [by apply Hs|lia]. }
  eapply rf_omitempty; [done|done| |apply rf_nil]. destruct cfg as [g|]; [|done].
  rewrite bool_decide_eq_true_2 by eauto. cbn [negb fmap option_fmap option_map]. read_as (Some (read_config g)).
  intros d Hd. destruct (reads_config g ltac:(by apply Hg) d ltac:(lia)) as (v & Hv & HD). exists v. split; [done|].
  intros raw. unfold dec_ptr. cbn [default from_option id]. rewrite HD.
  pose proof (encode_obj_not_null _ _ _ Hv). by destruct v.
Qed.

(** ** Messages *)

(** A message arrives with its role and its text. *)
Definition content_of (m : openaiMessage) (c : geminiContent) : Prop :=
  ∃ text, extracts m text ∧ c = mkGeminiContent (mapRoleToGemini m.(om_Role)) (Some [mkGeminiPart text]).

Definition append_contents (acc : option (list geminiContent)) (cs : list geminiContent) : option (list geminiContent) :=
  match cs with [] => acc | _ => Some (default [] acc ++ cs) end.

Lemma append_contents_cons acc c cs :
  append_contents (Some (default [] acc ++ [c])) cs = append_contents acc (c :: cs).
Proof using Type. destruct cs; cbn; [done|]. by rewrite <-app_assoc. Qed.

Lemma gemini_split_ok msgs : ∀ sys acc texts cs,
  Forall2 extracts (List.filter is_system msgs) texts →
  Forall2 content_of (List.filter (λ m, negb (is_system m)) msgs) cs →
  split_messages msgs sys acc = inr (sys ++ texts, append_contents acc cs).
Proof using Type.
  induction msgs as [|m msgs IH]; intros sys acc texts cs HF HC; cbn [split_messages List.filter].
  - inversion HF; inversion HC; subst. by rewrite app_nil_r.
  - cbn [List.filter] in HF, HC. unfold is_system at 1 in HF. unfold is_system at 1 in HC.
    case_bool_decide as E; cbn [negb] in *.
    + inversion HF as [|? t ? ts Ht HF']; subst. rewrite decide_True by done.
      change (extractTextContent (om_Content m)) with (OpenAIFormat.extractTextContent (om_Content m)). rewrite Ht.
      by rewrite (IH _ _ ts cs), <-app_assoc.
    + inversion HC as [|? c ? cs' (t & Ht & ->) HC']; subst. rewrite decide_False by done.
      change (extractTextContent (om_Content m)) with (OpenAIFormat.extractTextContent (om_Content m)). rewrite Ht.
      rewrite (IH _ _ texts cs') by done. f_equal. f_equal. apply append_contents_cons.
Qed.

Lemma gemini_split_err msgs : ∀ sys acc, Exists (λ m, ∀ t, ~ extracts m t) msgs →
  ∃ e, split_messages msgs sys acc = inl e.
Proof using Type.
  induction msgs as [|m msgs IH]; intros sys acc HE; cbn [split_messages]; [by inversion HE|].
  assert (∀ t, extractTextContent (om_Content m) = inr t → Exists (λ m, ∀ t, ~ extracts m t) msgs) as Hrest.
  { intros t Ht. inversion HE as [? ? Hm|]; subst; [by destruct (Hm t)|done]. }
  destruct (extractTextContent (om_Content m)) as [e|t]; case_decide; eauto.
Qed.

Lemma filter_extract (p : openaiMessage → bool) msgs texts : Forall2 extracts msgs texts →
  ∃ ts, Forall2 extracts (List.filter p msgs) ts.
Proof using Type.
  induction 1 as [|m t ms ts Ht _ [ts' IH]]; cbn; [by exists []|]. destruct (p m); [|eauto].
  exists (t :: ts'). by constructor.
Qed.

Lemma contents_exist ms ts : Forall2 extracts ms ts → ∃ cs, Forall2 content_of ms cs.
Proof using Type.
  induction 1 as [|m t ms ts Ht _ [cs IH]]; [by exists []|]. eexists (_ :: cs). constructor; [|done]. by exists t.
Qed.

(** ** The whole request *)

Definition gemini_asks_for (q : openaiRequest) (sys : list string) (seqs : option (list string)) (g : geminiRequest) : Prop :=
  Forall2 content_of (conversation q) (default [] g.(gq_Contents)) ∧
  g.(gq_SystemInstruction) =
    match sys with [] => None | _ => Some (mkGeminiContent "" (Some [mkGeminiPart (Join sys newline_str)])) end ∧
  let cfg := default zero_config g.(gq_GenerationConfig) in
  cfg.(gg_Temperature) = q.(oq_Temperature) ∧ cfg.(gg_MaxOutputTokens) = q.(oq_MaxTokens) ∧
  cfg.(gg_TopP) = q.(oq_TopP) ∧ default [] cfg.(gg_StopSequences) = default [] seqs.

(** The part that is sent for the sampling parameters. *)
Definition config_for (q : openaiRequest) (seqs : option (list string)) : generationConfig :=
  mkGenerationConfig q.(oq_Temperature) q.(oq_MaxTokens) q.(oq_TopP) seqs.

Lemma gemini_translate_unfold body oai sys seqs cs :
  Unmarshal dec_openaiRequest (bytes_of body) zero_openaiRequest = (oai, true) →
  Forall2 extracts (system_messages oai) sys → stop_sequences oai seqs → Forall2 content_of (conversation oai) cs →
  translateRequest body = inr (encode_geminiRequest (mkGeminiRequest (append_contents None cs)
    (if (0 <? length sys)%nat then Some (mkGeminiContent "" (Some [mkGeminiPart (Join sys newline_str)])) else None)
    (if config_is_nil (config_for oai seqs) then None else Some (config_for oai seqs))), oai.(oq_Model)).
Proof using Type.
  intros E Hsys Hstop Hcs. unfold translateRequest. rewrite E. unfold system_messages in Hsys. unfold conversation in Hcs.
  change parseStopField with OpenAIFormat.parseStopField.
  unfold stop_sequences in Hstop. destruct (0 <? _)%nat; rewrite Hstop;
    rewrite (gemini_split_ok _ [] None sys cs Hsys Hcs); cbn zeta; cbn [app]; done.
Qed.

Lemma config_roundtrip q seqs : default zero_config
    (read_config <$> (if config_is_nil (config_for q seqs) then None else Some (config_for q seqs))) =
  read_config (config_for q seqs).
Proof using Type.
  destruct (config_is_nil (config_for q seqs)) eqn:E; [|done]. unfold config_is_nil in E. cbn in E.
  repeat (apply andb_prop in E as [E ?]). rewrite !bool_decide_eq_true in *.
  unfold config_for. cbn in *. by subst; destruct q; cbn in *; subst.
Qed.

Lemma content_of_ok m c : ok_message m → content_of m c → ok_content c.
Proof using Type.
  intros [Hr _] (t & Ht & ->). split; cbn.
  - unfold mapRoleToGemini. by case_decide.
  - constructor; [|constructor]. by eapply extractTextContent_valid.
Qed.

Lemma system_valid ms sys : Forall2 extracts ms sys → valid_utf8 (Join sys newline_str).
Proof using Type.
  intros Hs. apply valid_concat; [done|]. induction Hs as [|m t ms ts Ht _ IH]; constructor; [|done].
  by eapply extractTextContent_valid.
Qed.

Lemma contents_ok ms cs : Forall ok_message ms → Forall2 content_of ms cs → Forall ok_content cs.
Proof using Type. intros Ho. induction 1 as [|m c ms cs Hc _ IH]; inversion Ho; constructor; eauto using content_of_ok. Qed.

Lemma gemini_request_reads body oai sys seqs cs :
  Unmarshal dec_openaiRequest (bytes_of body) zero_openaiRequest = (oai, true) →
  Forall2 extracts (system_messages oai) sys → stop_sequences oai seqs → Forall2 content_of (conversation oai) cs →
  ∃ out g, translateRequest body = inr (out, oai.(oq_Model)) ∧
    Unmarshal dec_geminiRequest out zero_geminiRequest = (g, true) ∧ gemini_asks_for oai sys seqs g.
Proof using All.
  intros E Hsys Hstop Hcs. pose proof (decoded_request _ _ _ E) as Hok. pose proof Hok as (_ & _ & Hmt & Hte & Htp & _).
  eexists _, _. split; [by apply (gemini_translate_unfold body oai sys seqs cs)|].
  rewrite reads_geminiRequest; cbn [gq_Contents gq_SystemInstruction gq_GenerationConfig].
  - split; [done|]. unfold gemini_asks_for. cbn [gq_Contents gq_SystemInstruction gq_GenerationConfig].
    split; [by destruct cs|]. split; [by destruct sys|]. rewrite config_roundtrip. unfold read_config. cbn.
    split_and!; try done. case_bool_decide as Ec; [by rewrite Ec|done].
  - assert (default [] (append_contents None cs) = cs) as -> by by destruct cs.
    eapply contents_ok; [by apply conversation_ok|done].
  - destruct (0 <? length sys)%nat; intros x [= <-]. split; [done|]. constructor; [|constructor]. by eapply system_valid.
  - destruct (config_is_nil _); intros x [= <-]. split_and!; try done. cbn.
    unfold stop_sequences in Hstop. destruct (0 <? _)%nat; [by eapply parseStopField_valid|by subst].
Qed.

(** What stops the translation. *)
Definition untranslatable (body : slice) : Prop :=
  (Unmarshal dec_openaiRequest (bytes_of body) zero_openaiRequest).2 = false ∨
  let oai := (Unmarshal dec_openaiRequest (bytes_of body) zero_openaiRequest).1 in
  Exists (λ m, ∀ t, ~ extracts m t) (default [] oai.(oq_Messages)) ∨ ∀ seqs, ~ stop_sequences oai seqs.

Lemma stop_sequences_dec q : (∃ seqs, stop_sequences q seqs) ∨ ∀ seqs, ~ stop_sequences q seqs.
Proof using Type.
  unfold stop_sequences. destruct (0 <? _)%nat; [|left; by exists None].
  destruct (OpenAIFormat.parseStopField (oq_Stop q)) as [e|seqs]; [by right|left; by exists seqs].
Qed.

Lemma untranslatable_fails body : untranslatable body → ∃ e, translateRequest body = inl e.
Proof using Type.
  unfold untranslatable, translateRequest. destruct (Unmarshal _ (bytes_of body) _) as [oai [|]]; cbn [fst snd]; [|eauto].
  change parseStopField with OpenAIFormat.parseStopField. unfold stop_sequences. intros [?|[He|Hs]]; [done|..].
  - destruct (gemini_split_err _ [] None He) as [e He'].
    destruct (if _ : bool then _ else _) as [?|seqs]; [eauto|]. rewrite He'. eauto.
  - destruct (0 <? _)%nat; [|by destruct (Hs None)]. destruct (OpenAIFormat.parseStopField (oq_Stop oai)) as [e|seqs]; [eauto|].
    by destruct (Hs seqs).
Qed.

(** C24. The Gemini translation of a request is faithful: it fails exactly when the
    body does not decode, a message has no text or the stop field is neither a
    string nor an array of strings; otherwise a Gemini server that decodes the
    result reads the joined system texts, the other messages in order with their
    roles (assistant is called model) and texts, the sampling parameters and the
    stop sequences of the request, and the model goes into the URL. *)
Theorem gemini_request_faithful body :
  match translateRequest body with
  | inr (out, model) => ∃ oai sys seqs g,
      Unmarshal dec_openaiRequest (bytes_of body) zero_openaiRequest = (oai, true) ∧ model = oai.(oq_Model) ∧
      Forall2 extracts (system_messages oai) sys ∧ stop_sequences oai seqs ∧
      Unmarshal dec_geminiRequest out zero_geminiRequest = (g, true) ∧ gemini_asks_for oai sys seqs g
  | inl _ => untranslatable body
  end.
Proof using All.
  destruct (Unmarshal dec_openaiRequest (bytes_of body) zero_openaiRequest) as [oai [|]] eqn:E.
  2:{ destruct (untranslatable_fails body) as [e ->]; left; by rewrite E. }
  destruct (all_extract_dec (default [] oai.(oq_Messages))) as [[texts Ht]|Hno].
  2:{ assert (untranslatable body) as Hu by (right; rewrite E; by left). by destruct (untranslatable_fails body Hu) as [e ->]. }
  destruct (stop_sequences_dec oai) as [[seqs Hseqs]|Hno].
  2:{ assert (untranslatable body) as Hu by (right; rewrite E; by right). by destruct (untranslatable_fails body Hu) as [e ->]. }
  destruct (filter_extract is_system _ _ Ht) as [sys Hsys].
  destruct (filter_extract (λ m, negb (is_system m)) _ _ Ht) as [ts Hts]. destruct (contents_exist _ _ Hts) as [cs Hcs].
  destruct (gemini_request_reads body oai sys seqs cs E Hsys Hseqs Hcs) as (out & g & -> & Hu & Ha).
  exists oai, sys, seqs, g. by split_and!.
Qed.
End request.

(** ** Responses *)

(** What the client is told of an answer: the first candidate. *)
Definition expected_gemini (nano now : Z) (model : string) (gem : geminiResponse) : openaiResponse :=
  mkOpenaiResponse ("chatcmpl-" +:+ pretty nano) "chat.completion" now model
    (Some [mkOpenaiChoice 0
       (mkOpenaiMsg "assistant" (from_option candidate_text "" (head (default [] gem.(gr_Candidates)))))
       (mapFinishReason (from_option ca_FinishReason "" (head (default [] gem.(gr_Candidates)))))])
    (from_option (λ u, mkOpenaiUsage u.(gu_PromptTokenCount) u.(gu_CandidatesTokenCount) u.(gu_TotalTokenCount))
       (mkOpenaiUsage 0 0 0) gem.(gr_UsageMetadata)).

Lemma pretty_valid (z : Z) : valid_utf8 (pretty z).
Proof.
  assert (∀ n : N, ascii_name (pretty n) = true) as Hn.
  { intros n. destruct (pretty_N_spec n) as (_ & Hd & _). eapply str_forallb_impl; [|exact Hd].
    intros c. unfold is_digit, in_range. lia. }
  apply ascii_valid. unfold pretty, pretty_Z. destruct z; [apply (Hn 0%N)|apply (Hn (Npos p))|apply (Hn (Npos p))].
Qed.

Lemma gemini_response_reads nano now body model gem :
  in_int64 now → valid_utf8 model → Unmarshal dec_response (bytes_of body) zero_response = (gem, true) →
  ∃ out, translateResponse nano now body model = inr out ∧
    Unmarshal dec_openaiResponse out zero_openaiResponse = (expected_gemini nano now model gem, true).
Proof.
  intros Hnow Hm E. pose proof (decoded_gemini _ _ _ E) as [Hc Hu]. unfold translateResponse. rewrite E.
  exists (encode_openaiResponse (expected_gemini nano now model gem)). split.
  { unfold expected_gemini. destruct (default [] (gr_Candidates gem)); destruct (gr_UsageMetadata gem); done. }
  assert (ok_candidate (default (mkCandidate zero_content "") (head (default [] (gr_Candidates gem))))) as Hh.
  { destruct Hc; [|done]. by repeat split. }
  apply response_roundtrip. unfold ok_response, expected_gemini.
  cbn [or_ID or_Object or_Created or_Model or_Choices or_Usage default from_option id].
  split_and!; try done; [apply valid_app; [done|apply pretty_valid]| |..].
  - constructor; [|constructor]. unfold ok_choice. cbn. split_and!; try done.
    + destruct (head _); [by apply candidate_valid|done].
    + apply mapFinishReason_valid. destruct (head _); [by destruct Hh|done].
  - destruct (gr_UsageMetadata gem) as [x|]; [by destruct (Hu x eq_refl) as (?&?&?)|done].
  - destruct (gr_UsageMetadata gem) as [x|]; [by destruct (Hu x eq_refl) as (?&?&?)|done].
  - destruct (gr_UsageMetadata gem) as [x|]; [by destruct (Hu x eq_refl) as (?&?&?)|done].
Qed.

(** ** Example *)

Lemma gemini_request_faithful_witness :
  match @translateRequest literal_floats demo_request with
  | inr (out, model) => ∃ oai sys seqs g,
      Unmarshal (@dec_openaiRequest literal_floats) (bytes_of demo_request) zero_openaiRequest = (oai, true) ∧
      model = oai.(oq_Model) ∧
      Forall2 extracts (system_messages oai) sys ∧ stop_sequences oai seqs ∧
      Unmarshal (@dec_geminiRequest literal_floats) out zero_geminiRequest = (g, true) ∧ gemini_asks_for oai sys seqs g
  | inl _ => False
  end.
Proof.
  pose proof (@gemini_request_faithful literal_floats literal_floats_laws demo_request) as Hf.
  destruct (@translateRequest literal_floats demo_request) as [e|[out model]] eqn:E; [by vm_compute in E|exact Hf].
Defined.
