(* ===== verification/Transport.v ===== *)
(** * The HTTP handlers (internal/transport/server.go)

    The application-key middleware and the handlers of chat completions, streams
    and embeddings, on top of the engine, the plugin chain and the key store.

    A handler runs in [TM]: its state is the engine's environment, the key store,
    and the goroutines it has started (usage records and traces), which run
    later.  It may panic; net/http then drops the connection.  Text that the
    server writes is kept as the pieces written.  The iterator of a provider's
    stream and the capabilities of the connection (flushing, write deadlines)
    are parameters.  Status codes in the informational range are not treated
    specially. *)
From stdpp Require Import pretty.
From S2P Require Import Prelude GoStd Json JsonScan Config StreamDetect Scrub Token Store Usage.
From S2P Require Import MemoryCache CacheKey Plugin Engine Management.

(** ** State *)

(** A goroutine started by a handler. *)
Inductive job :=
| JUsage (key model : string) (stream : bool) (promptTokens completionTokens : Z)
| JTrace (t : RequestTrace).

Record TState (Ext C : Type) := mkT {
  t_env : Env Ext C;
  t_keys : World;
  t_jobs : list job
}.
Arguments mkT {Ext C} _ _ _.
Arguments t_env {Ext C} _.
Arguments t_keys {Ext C} _.
Arguments t_jobs {Ext C} _.

Definition TM (Ext C A : Type) : Type := TState Ext C → outcome (A * TState Ext C).

#[global] Instance TM_ret Ext C : MRet (TM Ext C) := λ A a s, Ret (a, s).
#[global] Instance TM_bind Ext C : MBind (TM Ext C) := λ A B f m s,
  match m s with
  | Ret (a, s') => f a s'
  | Panic => Panic
  end.

(** ** Data *)

(** An incoming request: its head, its body, and the values the middleware puts
    in its context. *)
Record HReq := mkHReq {
  h_req : Request;
  h_body : Body;
  h_key : option string;
  h_scopes : option KeyScopes
}.

(** The values of the context (internal/appkey/context.go). *)
Definition WithKey (key : string) (r : HReq) : HReq := mkHReq r.(h_req) r.(h_body) (Some key) r.(h_scopes).
Definition FromContext (r : HReq) : option string :=
  match r.(h_key) with Some key => if decide (key = "") then None else Some key | None => None end.
Definition WithScopesCtx (scopes : KeyScopes) (r : HReq) : HReq := mkHReq r.(h_req) r.(h_body) r.(h_key) (Some scopes).

Record Server (Ext Strm : Type) := mkHServer {
  sv_conf : ServerConf;
  sv_engine : Engine Ext Strm;
  sv_chain : option (Manager Ext);
  sv_store : bool       (* application keys are enabled *)
}.
Arguments mkHServer {Ext Strm} _ _ _ _.
Arguments sv_conf {Ext Strm} _.
Arguments sv_engine {Ext Strm} _.
Arguments sv_chain {Ext Strm} _.
Arguments sv_store {Ext Strm} _.

(** What a streaming handler does to the connection. *)
Inductive out :=
| ODeadline (t : Z)
| OWrite (s : string)
| OFlush.

(** A reply; or a stream, with whether the handler has come to its end. *)
Inductive answer :=
| AReply (r : Reply)
| AStream (status : Z) (header : Header) (outs : list out) (finished : bool).

Definition answer_status (a : answer) : Z :=
  match a with AReply r => r.(rp_status) | AStream c _ _ _ => c end.

(** [stream.Next()] *)
Inductive next_result :=
| NChunk (chunk : slice)
| NEof
| NErr (e : gerror).

(** [err.Error()] *)
Fixpoint error_text (e : gerror) : string :=
  match e with
  | GProvider c m => "provider error (status " +:+ pretty c +:+ "): " +:+ m
  | GWrap m i => m +:+ ": " +:+ error_text i
  | GPlain m => m
  | GScrubbed i => scrubKeyQuery (error_text i)
  end.

(** The status of a failed dispatch: that of a [ProviderError], else 502. *)
Definition dispatch_status (e : gerror) : Z := default 502 (errors_As e).

(** [for k, vs := range h { for _, v := range vs { w.Header().Add(k, v) } }],
    without the names in [skip]. *)
Definition add_headers (skip : list string) (h : option Header) (w : Header) : Header :=
  foldl (λ w kv, if decide (kv.1 ∈ skip) then w
                 else foldl (λ w v, hdr_add w kv.1 v) w kv.2)
    w (map_to_list (default ∅ h)).

(** Headers the server recomputes or sets itself. *)
Definition own_headers : list string := ["Content-Length"; "Transfer-Encoding"; "Content-Type"].

Definition applyResponseHeaders (rc : RequestContext) (w : Header) : Header :=
  add_headers [] rc.(rc_ResponseHeaders) w.

Definition injectAppKeyMetadata (key : option string) : gmap string meta_value :=
  match key with Some k => {[ "app_key" := MStr k ]} | None => ∅ end.

Section transport.
Context {Ext C Strm : Type} `{Cache C} `{Strconv}.
Context (cvt : float64 → Z).
Context (Next : Strm → ST Ext next_result).
Context (can_flush can_deadline : bool).
Implicit Types s : Server Ext Strm.

(** ** Plumbing *)

Definition tpanic {A} : TM Ext C A := λ _, Panic.

Definition engine_run {A} (m : EM Ext C A) : TM Ext C A := λ t,
  match m t.(t_env) with
  | Ret (a, e) => Ret (a, mkT e t.(t_keys) t.(t_jobs))
  | Panic => Panic
  end.

Definition keys_run {A} (m : ST World A) : TM Ext C A := λ t,
  let '(a, w) := m t.(t_keys) in Ret (a, mkT t.(t_env) w t.(t_jobs)).

Definition spawn (j : job) : TM Ext C () := λ t,
  Ret (tt, mkT t.(t_env) t.(t_keys) (t.(t_jobs) ++ [j])).

Definition lift_outcome {A} (o : outcome A) : TM Ext C A := λ t,
  match o with Ret a => Ret (a, t) | Panic => Panic end.

(** [w.WriteHeader(code)] panics on a code that is not of three digits. *)
Definition WriteHeader (code : Z) : TM Ext C () :=
  if in_range 100 999 code then mret tt else tpanic.

Definition send (r : Reply) : TM Ext C answer := WriteHeader r.(rp_status);; mret (AReply r).

(** ** Hooks *)

Definition new_context (r : HReq) (provider : string) (body : slice) : TM Ext C ptr :=
  t ← engine_run clock_now;
  engine_run (alloc (mkRC (Some r.(h_req)) provider "" body
                       (Some (injectAppKeyMetadata (FromContext r))) t None false 0 None)).

Definition writeShortCircuit (rc : RequestContext) : Reply :=
  json_reply (if rc.(ShortCircuitStatus) =? 0 then 403 else rc.(ShortCircuitStatus))
    (if decide (bytes_of rc.(ShortCircuitBody) = "") then BEmpty else BRaw rc.(ShortCircuitBody)).

(** The pre-hooks: the reply of a hook that short-circuits, or the body to go on
    with. *)
Definition run_pre s (p : ptr) (body : slice) : TM Ext C (Reply + slice) :=
  match s.(sv_chain) with
  | None => mret (inr body)
  | Some m =>
    engine_run (run_hook (RunPreHTTP m p));;
    rc ← engine_run (deref p);
    mret (if rc.(ShortCircuit) then inl (writeShortCircuit rc) else inr rc.(rc_Body))
  end.

Definition run_post s (p : ptr) : TM Ext C () :=
  match s.(sv_chain) with
  | None => mret tt
  | Some m => engine_run (run_hook (RunPostHTTP m p))
  end.

Definition emitTrace s (p : ptr) (r : HReq) (status : Z) (streaming : bool) (err : option gerror)
  : TM Ext C () :=
  match s.(sv_chain) with
  | None => mret tt
  | Some _ =>
    rc ← engine_run (deref p);
    t ← engine_run clock_now;
    let meta := <["streaming" := MBool streaming]> (<["path" := MStr r.(h_req).(rq_Path)]>
                  (<["method" := MStr r.(h_req).(rq_Method)]> (default ∅ rc.(rc_Metadata)))) in
    spawn (JTrace (mkTrace rc.(rc_Provider) rc.(rc_Model) status (t - rc.(rc_StartTime))
                     (error_text <$> err) (Some meta)))
  end.

(** [pctx.Metadata["response_body"] = ...]: assignment to a nil map panics. *)
Definition set_response_body (p : ptr) (body : slice) : TM Ext C () :=
  rc ← engine_run (deref p);
  match rc.(rc_Metadata) with
  | None => tpanic
  | Some md => engine_run (store_rc p (rc_set_metadata (<["response_body" := MBytes body]> md) rc))
  end.

(** The usage goroutine, for a request with an application key. *)
Definition track s (r : HReq) (p : ptr) (stream : bool) (pt ct : Z) : TM Ext C () :=
  match s.(sv_store), FromContext r with
  | true, Some key =>
    rc ← engine_run (deref p); spawn (JUsage key rc.(rc_Model) stream pt ct)
  | _, _ => mret tt
  end.

(** ** Streams *)

(** [streamDeadline.extend] with its flag [disabled]. *)
Definition extend (window : Z) (disabled : bool) : TM Ext C (bool * list out) :=
  if disabled then mret (true, []) else
  t ← engine_run clock_now;
  mret (if can_deadline then (false, [ODeadline (t + window)]) else (true, [])).

Definition newStreamDeadline s : TM Ext C (bool * list out) :=
  if s.(sv_conf).(writeTimeout) <=? 0 then mret (true, [])
  else extend s.(sv_conf).(writeTimeout) false.

Inductive relay_end := RelayEOF | RelayErr (e : gerror) | RelayOpen.

Definition sse (chunk : slice) : string :=
  bytes_of chunk +:+ String newline (String newline "").

Definition done_marker : string := "data: [DONE]" +:+ String newline (String newline "").

(** The relay loop: chunks are counted as they arrive, pass the hooks and are
    written.  [fuel] bounds the number of reads; when it runs out the stream is
    still open. *)
Fixpoint relay (fuel : nat) s (p : ptr) (stream : Strm) (sink : token_pair) (disabled : bool)
    (outs : list out) : TM Ext C (relay_end * token_pair * list out) :=
  match fuel with
  | O => mret (RelayOpen, sink, outs)
  | S fuel' =>
    n ← engine_run (run_ext (Next stream));
    match n with
    | NEof =>
      d ← extend s.(sv_conf).(writeTimeout) disabled;
      mret (RelayEOF, sink, outs ++ d.2 ++ [OWrite done_marker; OFlush])
    | NErr e => mret (RelayErr e, sink, outs)
    | NChunk chunk =>
      let sink := FeedChunk sink (bytes_of chunk) in
      chunk ← (match s.(sv_chain) with
               | None => mret chunk
               | Some m => engine_run (run_hook (RunStreamChunk m p chunk))
               end);
      d ← extend s.(sv_conf).(writeTimeout) disabled;
      relay fuel' s p stream sink d.1 (outs ++ d.2 ++ [OWrite (sse chunk); OFlush])
    end
  end.

Definition stream_header (rc : RequestContext) : Header :=
  applyResponseHeaders rc
    (hdr_set (hdr_set (hdr_set ∅ "Content-Type" "text/event-stream") "Cache-Control" "no-cache")
       "Connection" "keep-alive").

Definition tracked s (r : HReq) : bool :=
  s.(sv_store) && bool_decide (is_Some (FromContext r)).

(** A failed dispatch: the reply and the trace. *)
Definition dispatch_failed s (r : HReq) (p : ptr) (streaming : bool) (e : gerror)
  : TM Ext C answer :=
  WriteHeader (dispatch_status e);;
  emitTrace s p r (dispatch_status e) streaming (Some e);;
  mret (AReply (writeError (dispatch_status e) (Msg (error_text e)))).

Definition handleStream (fuel : nat) s (r : HReq) (body : slice) (p : ptr) : TM Ext C answer :=
  if negb can_flush then send (writeError 500 (Msg "streaming not supported")) else
  body ← (if tracked s r
          then b ← lift_outcome (InjectStreamOptions (bytes_of body)); mret (Some b)
          else mret body);
  d ← engine_run (DispatchStream cvt s.(sv_engine) (mkCtx r.(h_scopes) (Some p)) body);
  match d with
  | (_, Some e) => dispatch_failed s r p true e
  | (None, None) => tpanic
  | (Some stream, None) =>
    rc ← engine_run (deref p);
    d ← newStreamDeadline s;
    '(e, sink, outs) ← relay fuel s p stream (mkPair 0 0) d.1 ([OFlush] ++ d.2);
    match e with
    | RelayOpen => mret (AStream 200 (stream_header rc) outs false)
    | _ =>
      emitTrace s p r 200 true (match e with RelayErr err => Some err | _ => None end);;
      track s r p true (if tracked s r then sink.(tp_in) else 0)
        (if tracked s r then sink.(tp_out) else 0);;
      mret (AStream 200 (stream_header rc) outs true)
    end
  end.

(** ** Chat completions *)

Definition relay_response (p : ptr) (resp : ChatResponse) : TM Ext C answer :=
  rc ← engine_run (deref p);
  let h := applyResponseHeaders rc
             (hdr_set (add_headers own_headers resp.(cs_Headers) ∅) "Content-Type" "application/json") in
  send (mkReply resp.(cs_StatusCode) h (BRaw resp.(cs_RawBody))).

Definition handleChatCompletions (fuel : nat) s (r : HReq) : TM Ext C answer :=
  match readLimitedBody s.(sv_conf) r.(h_body) with
  | inl rep => send rep
  | inr data =>
    p ← new_context r "" (Some data);
    pre ← run_pre s p (Some data);
    match pre with
    | inl rep => send rep
    | inr body =>
      if isStreamRequest (bytes_of body) then handleStream fuel s r body p else
      d ← engine_run (Dispatch cvt s.(sv_engine) (mkCtx r.(h_scopes) (Some p)) body);
      match d with
      | (_, Some e) => dispatch_failed s r p false e
      | (None, None) => tpanic
      | (Some resp, None) =>
        set_response_body p resp.(cs_RawBody);;
        run_post s p;;
        emitTrace s p r resp.(cs_StatusCode) false None;;
        let u := ExtractUsage (bytes_of resp.(cs_RawBody)) in
        track s r p false u.1 u.2;;
        relay_response p resp
      end
    end
  end.

(** ** Embeddings *)

Definition handleEmbeddings s (r : HReq) : TM Ext C answer :=
  match readLimitedBody s.(sv_conf) r.(h_body) with
  | inl rep => send rep
  | inr data =>
    p ← new_context r "" (Some data);
    pre ← run_pre s p (Some data);
    match pre with
    | inl rep => send rep
    | inr body =>
      d ← engine_run (DispatchEmbeddings cvt s.(sv_engine) (mkCtx r.(h_scopes) None) body);
      match d with
      | (_, Some e) => send (writeError (dispatch_status e) (Msg (error_text e)))
      | (None, None) => tpanic
      | (Some resp, None) =>
        set_response_body p resp.(cs_RawBody);;
        run_post s p;;
        relay_response p resp
      end
    end
  end.

(** ** Application keys *)

Definition withAppKeyTracking s (next : HReq → TM Ext C answer) (r : HReq) : TM Ext C answer :=
  let key := hdr_get r.(h_req).(rq_Header) s.(sv_conf).(appKeyHeader) in
  if decide (key = "") then
    if s.(sv_conf).(appKeyRequire)
    then send (writeError 400 (Msg ("missing required app key header: " +:+ s.(sv_conf).(appKeyHeader))))
    else next r
  else if negb (IsValid key) then send (writeError 400 (Msg "invalid app key format"))
  else
    rec ← keys_run (Lookup key);
    match rec with
    | None => next (WithKey key r)
    | Some record =>
      active ← keys_run (IsActive (Some record));
      if negb active
      then send (writeError 401 (Msg (if record.(RevokedAt) =? 0 then "app key expired"
                                      else "app key revoked")))
      else let r := WithKey key r in
           next (match GetScopes record with Some sc => WithScopesCtx sc r | None => r end)
    end.

(** The two routes as [NewServer] mounts them. *)
Definition chat_route (fuel : nat) s : HReq → TM Ext C answer :=
  if s.(sv_store) then withAppKeyTracking s (handleChatCompletions fuel s)
  else handleChatCompletions fuel s.
Definition embeddings_route s : HReq → TM Ext C answer :=
  if s.(sv_store) then withAppKeyTracking s (handleEmbeddings s) else handleEmbeddings s.

(** The goroutines that record usage, when they run. *)
Definition run_job (j : job) : ST World () :=
  match j with
  | JUsage key model stream pt ct => RecordRequest key model stream pt ct
  | JTrace _ => mret tt
  end.
End transport.
