(* ===== verification/Native.v ===== *)
(** * The native endpoints and the routes (internal/transport/server.go)

    The Anthropic Messages endpoint, the raw passthrough, the list of models and
    the health check, and the routes that [NewServer] mounts.

    A relayed body is written as it is read; the connection takes every write.  A
    plugin may leave a writer in the metadata that gets a copy of a streamed body:
    what it does is the parameter [SinkWrite]. *)
From stdpp Require Import pretty.
From S2P Require Import Prelude GoStd Json JsonScan JsonEnc Config StreamDetect Scrub Token Store Usage.
From S2P Require Import MemoryCache CacheKey Plugin Engine Management Transport.

Definition MetaStreamBodySink : string := "_stream_body_sink".

Definition isSSEResponse (resp : HTTPResponse) : bool :=
  HasPrefix (hdr_get resp.(hr_Header) "Content-Type") "text/event-stream".

(** Client headers without the hop-by-hop ones. *)
Definition forwarded_headers (r : HReq) : Header :=
  hdr_del (hdr_del r.(h_req).(rq_Header) "Host") "Connection".

(** ** Models *)

Definition encode_ModelInfo (m : ModelInfo) : string :=
  encode_struct
    [always "id" (encode_string m.(mi_ID));
     always "object" (encode_string "model");
     always "created" (encode_int 0);
     always "owned_by" (encode_string m.(mi_OwnedBy))].

(** [json.NewEncoder(w).Encode(result)] *)
Definition encode_models (l : list ModelInfo) : string :=
  encode_struct
    [always "object" (encode_string "list");
     always "data" (encode_slice encode_ModelInfo (Some l))] +:+ String newline "".

Section native.
Context {Ext C Strm : Type} `{Cache C} `{Strconv}.
Context (cvt : float64 → Z).
Context (Next : Strm → ST Ext next_result).
Context (SinkWrite : positive → string → ST Ext bool).
Context (can_flush can_deadline : bool).
Implicit Types s : Server Ext Strm.

Definition handleHealthz : TM Ext C answer := send (mkReply 200 ∅ (BRaw (Some "ok"))).

Definition handleModels s : TM Ext C answer :=
  send (json_reply 200 (BRaw (Some (encode_models (ListModels s.(sv_engine)))))).

(** ** Relaying a body *)

(** A write of [flushWriter] (with [flush]) or [deadlineWriter]. *)
Definition client_write (flush : bool) (window : Z) (disabled : bool) (piece : string)
  : TM Ext C (bool * list out) :=
  d ← extend can_deadline window disabled;
  mret (d.1, d.2 ++ [OWrite piece] ++ (if flush then [OFlush] else [])).

(** [io.Copy]: every read that is not empty is written. *)
Fixpoint copy (flush : bool) (window : Z) (pieces : list string) (disabled : bool) (outs : list out)
  : TM Ext C (list out) :=
  match pieces with
  | [] => mret outs
  | piece :: rest =>
    if decide (piece = "") then copy flush window rest disabled outs else
    w ← client_write flush window disabled piece;
    copy flush window rest w.1 (outs ++ w.2)
  end.

(** The copy to the client, the usage sink and the plugin's writer, in this order;
    a failed write of the last ends the relay. *)
Fixpoint copy_tee (flush : bool) (window : Z) (body_sink : option positive) (pieces : list string)
    (disabled : bool) (sink : AnthropicStreamUsageSink) (outs : list out)
  : TM Ext C (AnthropicStreamUsageSink * list out) :=
  match pieces with
  | [] => mret (sink, outs)
  | piece :: rest =>
    if decide (piece = "") then copy_tee flush window body_sink rest disabled sink outs else
    w ← client_write flush window disabled piece;
    let sink := Write sink piece in
    ok ← (match body_sink with
          | None => mret true
          | Some id => engine_run (run_ext (SinkWrite id piece))
          end);
    if ok : bool then copy_tee flush window body_sink rest w.1 sink (outs ++ w.2)
    else mret (sink, outs ++ w.2)
  end.

(** ** Passthrough *)

(** The prefix of a short-circuiting hook, without a body of its own. *)
Definition handleNativePassthrough s (r : HReq) (providerName path : string) : TM Ext C answer :=
  p ← new_context r providerName None;
  pre ← run_pre s p None;
  match pre with
  | inl rep => send rep
  | inr _ =>
    d ← engine_run (DispatchPassthrough s.(sv_engine) (mkCtx r.(h_scopes) None) providerName
                      r.(h_req).(rq_Method) ("/" +:+ path) (limitBody s.(sv_conf) r.(h_body))
                      (forwarded_headers r));
    match d with
    | inl e =>
      WriteHeader 502;;
      emitTrace s p r 502 false (Some e);;
      mret (AReply (writeError 502 (Msg (error_text e))))
    | inr resp =>
      run_post s p;;
      let streaming := isSSEResponse resp in
      emitTrace s p r resp.(hr_StatusCode) streaming None;;
      let h := add_headers [] (Some resp.(hr_Header)) ∅ in
      WriteHeader resp.(hr_StatusCode);;
      d ← newStreamDeadline can_deadline s;
      outs ← copy (streaming && can_flush) s.(sv_conf).(writeTimeout) resp.(hr_Body).(rb_reads) d.1 d.2;
      mret (AStream resp.(hr_StatusCode) h outs true)
    end
  end.

(** ** Anthropic Messages *)

Definition maxBody : Z := 16777216.

(** [io.ReadAll(io.LimitReader(resp.Body, maxBody))] *)
Definition read_capped (b : RespBody) : option string :=
  let text := String.concat "" b.(rb_reads) in
  if maxBody <=? Z.of_nat (String.length text) then Some (str_take (Z.to_nat maxBody) text)
  else match b.(rb_err) with Some _ => None | None => Some text end.

(** [pctx.Metadata[plugin.MetaStreamBodySink].(io.Writer)] *)
Definition stream_body_sink (rc : RequestContext) : option positive :=
  match default ∅ rc.(rc_Metadata) !! MetaStreamBodySink with Some (MWriter id) => Some id | _ => None end.

(** The relay of an answer, with its usage record. *)
Definition relay_messages s (r : HReq) (p : ptr) (resp : HTTPResponse) : TM Ext C answer :=
  rc ← engine_run (deref p);
  let h := applyResponseHeaders rc (add_headers [] (Some resp.(hr_Header)) ∅) in
  WriteHeader resp.(hr_StatusCode);;
  if isSSEResponse resp then
    d ← newStreamDeadline can_deadline s;
    rc ← engine_run (deref p);
    '(sink, outs) ← copy_tee can_flush s.(sv_conf).(writeTimeout) (stream_body_sink rc)
                      resp.(hr_Body).(rb_reads) d.1 new_sink d.2;
    track s r p true (Totals sink).1 (Totals sink).2;;
    mret (AStream resp.(hr_StatusCode) h outs true)
  else
    match read_capped resp.(hr_Body) with
    | None => mret (AReply (mkReply resp.(hr_StatusCode) h BEmpty))
    | Some rawBody =>
      set_response_body p (Some rawBody);;
      let u := ExtractAnthropicUsage rawBody in
      track s r p false u.1 u.2;;
      mret (AReply (mkReply resp.(hr_StatusCode) h (BRaw (Some rawBody))))
    end.

Definition handleAnthropicMessages s (r : HReq) : TM Ext C answer :=
  match readLimitedBody s.(sv_conf) r.(h_body) with
  | inl rep => send rep
  | inr data =>
    p ← new_context r "" (Some data);
    pre ← run_pre s p (Some data);
    match pre with
    | inl rep => send rep
    | inr _ =>
      d ← engine_run (DispatchAnthropicNative cvt s.(sv_engine) (mkCtx r.(h_scopes) (Some p)) (Some data)
                        (forwarded_headers r));
      match d with
      | (_, Some e) => dispatch_failed s r p false e
      | (None, None) => tpanic
      | (Some resp, None) =>
        run_post s p;;
        emitTrace s p r resp.(hr_StatusCode) (isSSEResponse resp) None;;
        relay_messages s r p resp
      end
    end
  end.

(** ** Routes *)

(** What the mux hands a request to, with the values of path wildcards. *)
Inductive endpoint :=
| EpChat | EpEmbeddings | EpMessages | EpModels | EpHealthz
| EpNative (provider path : string)
| EpMetrics
| EpKeyCreate | EpKeyList | EpKeyUsage (key : string) | EpKeyRevoke (key : string)
| EpKeyUpdate (key : string) | EpKeyRotate (key : string) | EpKeyPurge (key : string) | EpUsageAggregate.

(** The patterns of [NewServer], on the decoded segments of a path that the mux
    does not redirect (clean, and with the slash after a native provider); a GET
    pattern also serves HEAD. *)
Definition routes (store metrics : bool) (path : list string) : list (option string * endpoint) :=
  match path with
  | ["v1"; "chat"; "completions"] => [(Some "POST", EpChat)]
  | ["v1"; "embeddings"] => [(Some "POST", EpEmbeddings)]
  | ["v1"; "messages"] => [(Some "POST", EpMessages)]
  | ["v1"; "models"] => [(Some "GET", EpModels)]
  | ["healthz"] => [(Some "GET", EpHealthz)]
  | "native" :: provider :: seg :: rest => [(None, EpNative provider (Join (seg :: rest) "/"))]
  | ["metrics"] => if metrics then [(Some "GET", EpMetrics)] else []
  | ["v1"; "app-keys"] => if store then [(Some "POST", EpKeyCreate); (Some "GET", EpKeyList)] else []
  | ["v1"; "app-keys"; key] => if store then [(Some "DELETE", EpKeyRevoke key); (Some "PATCH", EpKeyUpdate key)] else []
  | ["v1"; "app-keys"; key; "usage"] => if store then [(Some "GET", EpKeyUsage key)] else []
  | ["v1"; "app-keys"; key; "rotate"] => if store then [(Some "POST", EpKeyRotate key)] else []
  | ["v1"; "app-keys"; key; "purge"] => if store then [(Some "POST", EpKeyPurge key)] else []
  | ["v1"; "usage"] => if store then [(Some "GET", EpUsageAggregate)] else []
  | _ => []
  end.

Definition method_matches (pattern : option string) (method : string) : bool :=
  match pattern with
  | None => true
  | Some m => bool_decide (m = method) || (bool_decide (m = "GET") && bool_decide (method = "HEAD"))
  end.

(** The endpoint of a request; without one the mux answers 404, or 405 when only
    the method is wrong. *)
Definition route (store metrics : bool) (method : string) (path : list string) : Z + endpoint :=
  let rs := routes store metrics path in
  match List.find (λ x, method_matches x.1 method) rs with
  | Some (_, ep) => inr ep
  | None => inl (match rs with [] => 404 | _ => 405 end)
  end.

(** The endpoints that carry model traffic, as [NewServer] wraps them; the others
    are passed to [rest]. *)
Definition ServeHTTP (fuel : nat) s (metrics : bool) (rest : endpoint → HReq → TM Ext C answer)
    (path : list string) (r : HReq) : TM Ext C answer :=
  let wrap (h : HReq → TM Ext C answer) := if s.(sv_store) then withAppKeyTracking s h else h in
  match route s.(sv_store) metrics r.(h_req).(rq_Method) path with
  | inl code => send (mkReply code ∅ BEmpty)
  | inr ep =>
    match ep with
    | EpChat => wrap (handleChatCompletions cvt Next can_flush can_deadline fuel s) r
    | EpEmbeddings => wrap (handleEmbeddings cvt s) r
    | EpMessages => wrap (handleAnthropicMessages s) r
    | EpModels => handleModels s
    | EpHealthz => handleHealthz
    | EpNative provider path => handleNativePassthrough s r provider path
    | _ => rest ep r
    end
  end.
End native.
