(* ===== verification/TransportTheorems.v ===== *)
(** * What the HTTP handlers guarantee

    Requests with an inactive key, or with a body above the cap, have no effect;
    a key's scopes hold from the header to the upstream call; usage is recorded
    once, for the presented key; a stream is relayed chunk by chunk as the hooks
    hand it on. *)
From S2P Require Import Prelude GoStd Json JsonScan Config StreamDetect Token Store Usage.
From S2P Require Import MemoryCache CacheKey Plugin Engine EngineProofs EngineTheorems Management Transport.

(** ** Logic *)

Section logic.
Context {Ext C : Type}.
Implicit Types t : TState Ext C.

Lemma TM_bind_inv {A B} (m : TM Ext C A) (f : A → TM Ext C B) t b t'' :
  (m ≫= f) t = Ret (b, t'') → ∃ a t', m t = Ret (a, t') ∧ f a t' = Ret (b, t'').
Proof. unfold mbind, TM_bind. destruct (m t) as [[a t']|]; [by eauto|done]. Qed.

(** Every run of [m] that returns leaves the records of the key store alone, and
    logs events and starts goroutines that are, with the result, in [Q]. *)
Definition tspec {A} (m : TM Ext C A) (Q : A → list event → list job → Prop) : Prop :=
  ∀ t a t', m t = Ret (a, t') →
    recs t'.(t_keys) = recs t.(t_keys) ∧
    ∃ es js, t'.(t_env).(events) = t.(t_env).(events) ++ es ∧
             t'.(t_jobs) = t.(t_jobs) ++ js ∧ Q a es js.

(** Nothing is logged and nothing started. *)
Definition quiet {A} (m : TM Ext C A) : Prop := tspec m (λ _ es js, es = [] ∧ js = []).

Lemma tspec_ret {A} (a : A) (Q : A → list event → list job → Prop) :
  Q a [] [] → tspec (mret a) Q.
Proof. intros HQ t ? ? [= <- <-]. split; [done|]. exists [], []. by rewrite !app_nil_r. Qed.

Lemma tspec_panic {A} (Q : A → list event → list job → Prop) : tspec tpanic Q.
Proof. by intros ???. Qed.

Lemma tspec_weaken {A} (m : TM Ext C A) (Q Q' : A → list event → list job → Prop) :
  tspec m Q → (∀ a es js, Q a es js → Q' a es js) → tspec m Q'.
Proof.
  intros Hm HQ t a t' Hr. destruct (Hm t a t' Hr) as (? & es & js & ? & ? & ?).
  split; [done|]. exists es, js. auto.
Qed.

Lemma tspec_bind {A B} (m : TM Ext C A) (f : A → TM Ext C B) Q1 (Q : B → list event → list job → Prop) :
  tspec m Q1 →
  (∀ a e1 j1, Q1 a e1 j1 → tspec (f a) (λ b e2 j2, Q b (e1 ++ e2) (j1 ++ j2))) →
  tspec (m ≫= f) Q.
Proof.
  intros Hm Hf t b t'' (a & t' & H1 & H2)%TM_bind_inv.
  destruct (Hm t a t' H1) as (K1 & e1 & j1 & E1 & J1 & Q1a).
  destruct (Hf a e1 j1 Q1a t' b t'' H2) as (K2 & e2 & j2 & E2 & J2 & ?).
  split; [congruence|]. exists (e1 ++ e2), (j1 ++ j2). by rewrite E2, E1, J2, J1, !app_assoc.
Qed.

Lemma tspec_quiet_bind {A B} (m : TM Ext C A) (f : A → TM Ext C B) (Q : B → list event → list job → Prop) :
  quiet m → (∀ a, tspec (f a) Q) → tspec (m ≫= f) Q.
Proof. intros Hm Hf. eapply tspec_bind; [exact Hm|]. intros a ? ? [-> ->]. apply Hf. Qed.

Lemma tspec_engine {A} (m : EM Ext C A) (Q : A → list event → Prop) :
  spec m Q → tspec (engine_run m) (λ a es js, Q a es ∧ js = []).
Proof.
  intros Hm t a t'. unfold engine_run. destruct (m (t_env t)) as [[a' e]|] eqn:E; [|done].
  intros [= <- <-]. destruct (Hm _ _ _ E) as (es & ? & ?). split; [done|].
  exists es, []. by rewrite app_nil_r.
Qed.

Lemma quiet_engine {A} (m : EM Ext C A) : silent m → quiet (engine_run m).
Proof. apply tspec_engine. Qed.

Lemma quiet_keys {A} (m : ST World A) : (∀ w, recs (m w).2 = recs w) → quiet (keys_run m).
Proof.
  intros Hm t a t'. unfold keys_run. specialize (Hm (t_keys t)).
  destruct (m (t_keys t)) as [a' w]. intros [= <- <-]. split; [done|].
  exists [], []. by rewrite !app_nil_r.
Qed.

Lemma tspec_spawn j (Q : () → list event → list job → Prop) : Q tt [] [j] → tspec (spawn j) Q.
Proof. intros HQ t a t' [= <- <-]. split; [done|]. exists [], [j]. by rewrite app_nil_r. Qed.

Lemma quiet_ret {A} (a : A) : quiet (mret a).
Proof. by apply tspec_ret. Qed.

Lemma quiet_panic {A} : quiet (A := A) tpanic.
Proof. apply tspec_panic. Qed.

Lemma quiet_outcome {A} (o : outcome A) : quiet (lift_outcome o).
Proof. destruct o; [apply quiet_ret|apply quiet_panic]. Qed.

Lemma quiet_bind {A B} (m : TM Ext C A) (f : A → TM Ext C B) :
  quiet m → (∀ a, quiet (f a)) → quiet (m ≫= f).
Proof. apply tspec_quiet_bind. Qed.
End logic.

Create HintDb transport discriminated.
#[export] Hint Resolve quiet_ret quiet_panic quiet_outcome quiet_engine : transport.

(** [quiet_tac] follows the structure of a computation that has no visible
    effect. *)
Ltac quiet_tac :=
  repeat first
    [ solve [auto with transport engine]
    | apply quiet_engine; solve [auto with engine]
    | apply quiet_bind; [|intros ?]
    | match goal with |- quiet (match ?x with _ => _ end) => destruct x end
    | match goal with |- quiet (if ?x then _ else _) => destruct x end ].

Section handlers.
Context {Ext C Strm : Type} `{Cache C} `{Strconv}.
Context (cvt : float64 → Z).
Context (Next : Strm → ST Ext next_result).
Context (can_flush can_deadline : bool).
Implicit Types s : Server Ext Strm.
Implicit Types e : Engine Ext Strm.
Implicit Types t : TState Ext C.

Lemma quiet_WriteHeader c : quiet (WriteHeader (Ext := Ext) (C := C) c).
Proof. unfold WriteHeader. quiet_tac. Qed.

Lemma quiet_send r : quiet (send (Ext := Ext) (C := C) r).
Proof. unfold send. apply quiet_bind; [apply quiet_WriteHeader|]. intros []. apply quiet_ret. Qed.

Lemma quiet_new_context r name body : quiet (new_context (Ext := Ext) (C := C) r name body).
Proof. unfold new_context. quiet_tac. Qed.

Lemma quiet_run_pre s p body : quiet (run_pre (C := C) s p body).
Proof. unfold run_pre. quiet_tac. Qed.

Lemma quiet_run_post s p : quiet (run_post (C := C) s p).
Proof. unfold run_post. quiet_tac. Qed.

Lemma quiet_set_response_body p body : quiet (set_response_body (Ext := Ext) (C := C) p body).
Proof. unfold set_response_body. quiet_tac. Qed.

Lemma quiet_extend w d : quiet (extend (Ext := Ext) (C := C) can_deadline w d).
Proof. unfold extend. quiet_tac. Qed.

Lemma quiet_relay fuel s p stream : ∀ sink d outs,
  quiet (relay (C := C) Next can_deadline fuel s p stream sink d outs).
Proof.
  induction fuel as [|fuel IH]; intros sink d outs; cbn [relay]; [apply quiet_ret|].
  apply quiet_bind; [quiet_tac|]. intros [chunk| |e]; [| |apply quiet_ret].
  - apply quiet_bind; [quiet_tac|]. intros chunk'.
    apply quiet_bind; [apply quiet_extend|]. intros ?. apply IH.
  - apply quiet_bind; [apply quiet_extend|]. intros ?. apply quiet_ret.
Qed.

Lemma quiet_relay_response p resp : quiet (relay_response (Ext := Ext) (C := C) p resp).
Proof. unfold relay_response. apply quiet_bind; [quiet_tac|]. intros ?. apply quiet_send. Qed.

(** The usage records among the goroutines started. *)
Definition usage_jobs (js : list job) : list job :=
  List.filter (λ j, match j with JUsage _ _ _ _ _ => true | JTrace _ => false end) js.

Lemma emitTrace_spec s p r status streaming err :
  tspec (emitTrace (C := C) s p r status streaming err) (λ _ es js, es = [] ∧ usage_jobs js = []).
Proof.
  unfold emitTrace. destruct (sv_chain s); [|by apply tspec_ret].
  apply tspec_quiet_bind; [quiet_tac|]. intros ?.
  apply tspec_quiet_bind; [quiet_tac|]. intros ?. by apply tspec_spawn.
Qed.

Lemma FromContext_key (r : HReq) key : FromContext r = Some key → r.(h_key) = Some key.
Proof. unfold FromContext. destruct (h_key r) as [k|]; [|done]. by case_decide. Qed.

Lemma track_spec s r p stream pt ct :
  tspec (track (C := C) s r p stream pt ct) (λ _ es js, es = [] ∧
    if tracked s r
    then ∃ key model, r.(h_key) = Some key ∧ js = [JUsage key model stream pt ct]
    else js = []).
Proof.
  unfold track, tracked. destruct (sv_store s); [|by apply tspec_ret].
  destruct (FromContext r) as [key|] eqn:Hk; cbn [andb].
  - apply FromContext_key in Hk. rewrite bool_decide_eq_true_2 by by eexists.
    apply tspec_quiet_bind; [quiet_tac|]. intros rc. apply tspec_spawn. by eauto 10.
  - rewrite bool_decide_eq_false_2 by by intros []. by apply tspec_ret.
Qed.

Lemma dispatch_failed_spec s r p streaming (e : gerror) :
  tspec (dispatch_failed (C := C) s r p streaming e)
    (λ a es js, es = [] ∧ usage_jobs js = [] ∧
       a = AReply (writeError (dispatch_status e) (Msg (error_text e)))).
Proof.
  unfold dispatch_failed. apply tspec_quiet_bind; [apply quiet_WriteHeader|]. intros [].
  eapply tspec_bind; [apply emitTrace_spec|]. intros [] e1 j1 [-> Hj].
  apply tspec_ret. cbn. by rewrite app_nil_r.
Qed.

(** ** Answered requests *)

(** A provider has answered. *)
Definition replied (es : list event) : bool :=
  existsb (λ ev, match ev with EReply _ _ _ => true | _ => false end) es.

Lemma replied_app (e1 e2 : list event) : replied (e1 ++ e2) = replied e1 || replied e2.
Proof. apply existsb_app. Qed.

Lemma spec_and {A} (m : EM Ext C A) (Q1 Q2 : A → list event → Prop) :
  spec m Q1 → spec m Q2 → spec m (λ a es, Q1 a es ∧ Q2 a es).
Proof.
  intros H1 H2 e a e' Hr. destruct (H1 e a e' Hr) as (es & E1 & ?), (H2 e a e' Hr) as (es' & E2 & ?).
  assert (es = es') as -> by (apply (app_inv_head (events e)); congruence). by exists es'.
Qed.

Definition answers_if_replied {R} (x : option R * option gerror) (es : list event) : Prop :=
  replied es = true → ∃ r, x = (Some r, None).

Lemma chat_attempt_replied e ctx pctx req body model name p attempt :
  spec (chat_attempt (C := C) cvt e ctx pctx req body model name p attempt)
    (λ x es, replied es = true → ∃ r, x = SReturn (Some r) None).
Proof.
  unfold chat_attempt. apply (spec_bind _ _ (λ _ es, replied es = false)).
  { destruct (0 <? attempt); [by apply spec_log|by apply spec_ret]. }
  intros _ e1 He1. apply spec_silent_bind; [apply silent_selectKey|]. intros key.
  apply spec_log_bind. apply spec_silent_bind; [auto with engine|]. intros [err|resp].
  - apply spec_ret. rewrite !replied_app, He1. done.
  - apply spec_silent_bind; [apply silent_set_provider|]. intros _.
    apply spec_silent_bind; [apply silent_post_hooks|]. intros resp'.
    apply spec_log_bind.
    apply spec_silent_bind; [apply silent_cache_store|]. intros _. apply spec_ret. by eauto.
Qed.

Lemma attempt_loop_replied {R} (body : Z → EM Ext C (step R)) :
  (∀ a, spec (body a) (λ x es, replied es = true → ∃ r, x = SReturn (Some r) None)) →
  ∀ n a last, spec (attempt_loop n a body last)
    (λ o es, replied es = true → ∃ r, o = Done (Some r) None).
Proof.
  intros Hb n. induction n as [|n IH]; intros a last; cbn [attempt_loop]; [by apply spec_ret|].
  eapply spec_bind; [apply Hb|]. intros [r err|err|err] e1 He1.
  - apply spec_ret. rewrite app_nil_r. intros [r' ?]%He1. simplify_eq. by eauto.
  - eapply spec_weaken; [apply IH|]. intros o e2 He2. rewrite replied_app.
    destruct (replied e1) eqn:E; [by destruct (He1 eq_refl)|]. done.
  - apply spec_ret. rewrite app_nil_r. by intros [r' ?]%He1.
Qed.

Lemma provider_loop_replied {R} names (try : string → option gerror → EM Ext C (outcome_of R)) :
  (∀ n last, spec (try n last) (λ o es, replied es = true → ∃ r, o = Done (Some r) None)) →
  ∀ last, spec (provider_loop names try last) answers_if_replied.
Proof.
  intros Ht. induction names as [|n names IH]; intros last; cbn [provider_loop]; [by apply spec_ret|].
  eapply spec_bind; [apply Ht|]. intros [r err|last'] e1 He1.
  - apply spec_ret. unfold answers_if_replied. rewrite app_nil_r.
    intros [r' ?]%He1. simplify_eq. by eauto.
  - eapply spec_weaken; [apply IH|]. intros o e2 He2. unfold answers_if_replied in *.
    rewrite replied_app. destruct (replied e1) eqn:E; [by destruct (He1 eq_refl)|]. done.
Qed.

Lemma Dispatch_replied e ctx body :
  spec (Dispatch (C := C) cvt e ctx body) answers_if_replied.
Proof.
  unfold Dispatch. destruct (parseAndRoute _ _) as [err|[req names]]; [by apply spec_ret|].
  destruct (enforceScopes _ _ _) as [err|names']; [by apply spec_ret|].
  apply spec_silent_bind; [apply silent_pre_hooks|]. intros [[pctx body'] model].
  apply spec_silent_bind; [apply silent_cache_lookup|]. intros [hit|]; [by apply spec_ret|].
  apply provider_loop_replied. intros n last. unfold with_provider.
  destruct (RegistryGet _ _); [by apply spec_ret|].
  apply attempt_loop_replied. intros a. apply chat_attempt_replied.
Qed.

(** ** The chat handler *)

(** The providers that are called are allowed by some scopes. *)
Definition calls_allowed (sc : option KeyScopes) (es : list event) : Prop :=
  ∀ n, n ∈ call_names es → IsProviderAllowed sc n = true.

(** What a run of the chat handler amounts to. *)
Record chat_run s (r : HReq) (a : answer) (es : list event) (js : list job) : Prop := {
  cr_scopes : calls_allowed r.(h_scopes) es;
  cr_usage : usage_jobs js = [] ∨ ∃ key model stream pt ct,
    tracked s r = true ∧ r.(h_key) = Some key ∧ usage_jobs js = [JUsage key model stream pt ct];
  cr_answered : tracked s r = true → replied es = true → ∃ key model resp rep,
    r.(h_key) = Some key ∧ a = AReply rep ∧ rep.(rp_body) = BRaw (cs_RawBody resp) ∧
    rep.(rp_status) = cs_StatusCode resp ∧
    usage_jobs js = [JUsage key model false (ExtractUsage (bytes_of (cs_RawBody resp))).1
                       (ExtractUsage (bytes_of (cs_RawBody resp))).2];
  cr_streamed : tracked s r = true → ∀ c h o, a = AStream c h o true → ∃ key model pt ct,
    r.(h_key) = Some key ∧ usage_jobs js = [JUsage key model true pt ct]
}.

Lemma quiet_run s r rep : chat_run s r (AReply rep) [] [].
Proof. split; try done; [|by left]. intros n Hn. by apply elem_of_nil in Hn. Qed.

Lemma tspec_send s r rep : tspec (send (Ext := Ext) (C := C) rep) (chat_run s r).
Proof.
  unfold send. apply tspec_quiet_bind; [apply quiet_WriteHeader|]. intros [].
  apply tspec_ret, quiet_run.
Qed.

Lemma grouped_allowed e sc p rq es :
  grouped (attempts e) (candidates (Strm := Strm) e (mkCtx sc p) rq) (call_names es) →
  calls_allowed sc es.
Proof.
  intros Hg n Hn. apply (grouped_incl _ _ _ _ Hg) in Hn. by apply candidates_allowed in Hn as [? _].
Qed.

Lemma usage_jobs_app j1 j2 : usage_jobs (j1 ++ j2) = usage_jobs j1 ++ usage_jobs j2.
Proof. apply List.filter_app. Qed.

(** A stream's dispatch logs no reply. *)
Lemma DispatchStream_unreplied e ctx body :
  spec (DispatchStream (C := C) cvt e ctx body) (λ _ es, replied es = false).
Proof.
  unfold DispatchStream. destruct (parseAndRoute _ _) as [err|[req names]]; [by apply spec_ret|].
  destruct (enforceScopes _ _ _) as [err|names']; [by apply spec_ret|].
  apply spec_silent_bind; [apply silent_pre_hooks|]. intros [[pctx body'] model].
  assert (Ha : ∀ name p a, spec (stream_attempt (C := C) cvt e ctx pctx req body' model name p a)
                             (λ _ es, replied es = false)).
  { intros name p a. unfold stream_attempt. apply (spec_bind _ _ (λ _ es, replied es = false)).
    { destruct (0 <? a); [by apply spec_log|by apply spec_ret]. }
    intros _ e1 He1. apply spec_silent_bind; [apply silent_selectKey|]. intros key.
    apply spec_log_bind. apply spec_silent_bind; [auto with engine|]. intros [err|stream].
    - apply spec_ret. by rewrite !replied_app, He1.
    - apply spec_silent_bind; [apply silent_set_provider|]. intros _. apply spec_ret.
      by rewrite !replied_app, He1. }
  assert (Hl : ∀ name p n a last, spec (attempt_loop n a
      (stream_attempt (C := C) cvt e ctx pctx req body' model name p) last)
      (λ _ es, replied es = false)).
  { intros name p n. induction n as [|n IH]; intros a last; cbn [attempt_loop]; [by apply spec_ret|].
    eapply spec_bind; [apply Ha|]. intros [r err|err|err] e1 He1.
    - apply spec_ret. by rewrite app_nil_r.
    - eapply spec_weaken; [apply IH|]. intros o e2 He2. by rewrite replied_app, He1.
    - apply spec_ret. by rewrite app_nil_r. }
  generalize (@None gerror). induction names' as [|n names' IH]; intros last;
    cbn [provider_loop]; [by apply spec_ret|].
  apply (spec_bind _ _ (λ _ es, replied es = false)).
  { unfold with_provider. destruct (RegistryGet _ _); [by apply spec_ret|]. apply Hl. }
  intros [r err|last'] e1 He1.
  - apply spec_ret. by rewrite app_nil_r.
  - eapply spec_weaken; [apply IH|]. intros o e2 He2. by rewrite replied_app, He1.
Qed.

(** A failed dispatch and an answered one, as runs. *)
Lemma failed_run s r p streaming err es :
  calls_allowed r.(h_scopes) es → (tracked s r = true → replied es = false) →
  tspec (dispatch_failed (C := C) s r p streaming err) (λ a es2 j2, chat_run s r a (es ++ es2) j2).
Proof.
  intros Hc Hn. eapply tspec_weaken; [apply dispatch_failed_spec|].
  intros a e2 j2 (-> & Hj & ->). rewrite app_nil_r. split; [done|by left| |done].
  intros Ht Hr. by rewrite Hn in Hr.
Qed.

Lemma handleStream_run fuel s r body p :
  tspec (handleStream (C := C) cvt Next can_flush can_deadline fuel s r body p) (chat_run s r).
Proof.
  unfold handleStream. destruct can_flush; cbn [negb]; [|apply tspec_send].
  apply tspec_quiet_bind; [destruct (tracked s r); quiet_tac|]. intros body'.
  eapply tspec_bind.
  { apply tspec_engine, spec_and; [apply DispatchStream_grouped|apply DispatchStream_unreplied]. }
  intros [x [err|]] es js [[Hg%grouped_allowed Hn] ->]; cbn [app].
  { destruct x; by apply failed_run. }
  destruct x as [stream|]; [|apply tspec_panic].
  apply tspec_quiet_bind; [quiet_tac|]. intros rc.
  apply tspec_quiet_bind.
  { unfold newStreamDeadline. destruct (_ <=? _); [apply quiet_ret|apply quiet_extend]. }
  intros d. apply tspec_quiet_bind; [apply quiet_relay|]. intros [[fin sink] outs].
  assert (Hopen : ∀ h o, chat_run s r (AStream 200 h o false) (es ++ []) []).
  { intros h o. rewrite app_nil_r. split; [done|by left| |done]. intros _ Hr. congruence. }
  assert (Hdone : ∀ err h o, tspec (emitTrace (C := C) s p r 200 true err;;
      track s r p true (if tracked s r then tp_in sink else 0) (if tracked s r then tp_out sink else 0);;
      mret (AStream 200 h o true)) (λ a es2 j2, chat_run s r a (es ++ es2) j2)).
  { intros err h o. eapply tspec_bind; [apply emitTrace_spec|]. intros [] e1 j1 [-> Hj1].
    eapply tspec_bind; [apply track_spec|]. intros [] e2 j2 [-> Hj2]. apply tspec_ret.
    cbn [app]. rewrite !app_nil_r. destruct (tracked s r) eqn:Ht.
    - destruct Hj2 as (key & model & Hk & ->).
      assert (Hu : usage_jobs (j1 ++ [JUsage key model true (tp_in sink) (tp_out sink)])
                   = [JUsage key model true (tp_in sink) (tp_out sink)])
        by by rewrite usage_jobs_app, Hj1.
      split; [done|right; by eauto 10| |by eauto 10]. intros _ Hr. congruence.
    - subst j2. rewrite app_nil_r. split; [done|by left|congruence|congruence]. }
  destruct fin; [apply Hdone|apply Hdone|apply tspec_ret, Hopen].
Qed.

Lemma handleChat_run fuel s r :
  tspec (handleChatCompletions (C := C) cvt Next can_flush can_deadline fuel s r) (chat_run s r).
Proof.
  unfold handleChatCompletions. destruct (readLimitedBody _ _) as [rep|data]; [apply tspec_send|].
  apply tspec_quiet_bind; [apply quiet_new_context|]. intros p.
  apply tspec_quiet_bind; [apply quiet_run_pre|]. intros [rep|body]; [apply tspec_send|].
  destruct (isStreamRequest _); [apply handleStream_run|].
  eapply tspec_bind.
  { apply tspec_engine, spec_and; [apply Dispatch_grouped|apply Dispatch_replied]. }
  intros [x [err|]] es js [[Hg%grouped_allowed Hn] ->]; cbn [app].
  { assert (replied es = false).
    { destruct (replied es) eqn:E; [|done]. by destruct (Hn E). }
    destruct x; by apply failed_run. }
  destruct x as [resp|]; [|apply tspec_panic].
  apply tspec_quiet_bind; [apply quiet_set_response_body|]. intros [].
  apply tspec_quiet_bind; [apply quiet_run_post|]. intros [].
  eapply tspec_bind; [apply emitTrace_spec|]. intros [] e1 j1 [-> Hj1].
  eapply tspec_bind; [apply track_spec|]. intros [] e2 j2 [-> Hj2].
  unfold relay_response. apply tspec_quiet_bind; [quiet_tac|]. intros rc.
  unfold send. apply tspec_quiet_bind; [apply quiet_WriteHeader|]. intros [].
  apply tspec_ret. cbn [app]. rewrite !app_nil_r. destruct (tracked s r) eqn:Ht.
  - destruct Hj2 as (key & model & Hk & ->).
    assert (Hu : usage_jobs (j1 ++ [JUsage key model false (ExtractUsage (bytes_of (cs_RawBody resp))).1
        (ExtractUsage (bytes_of (cs_RawBody resp))).2]) = [JUsage key model false
        (ExtractUsage (bytes_of (cs_RawBody resp))).1 (ExtractUsage (bytes_of (cs_RawBody resp))).2])
      by by rewrite usage_jobs_app, Hj1.
    split; [done|right; by eauto 10| |done]. intros _ _.
    exists key, model, resp. eexists. by split_and!.
  - subst j2. rewrite app_nil_r. split; [done|by left|congruence|congruence].
Qed.

Lemma handleEmbeddings_run s r :
  tspec (handleEmbeddings (C := C) cvt s r)
    (λ _ es js, calls_allowed r.(h_scopes) es ∧ js = []).
Proof.
  assert (Hq : calls_allowed r.(h_scopes) []) by (intros n Hn; by apply elem_of_nil in Hn).
  assert (Hs : ∀ rep, tspec (send (Ext := Ext) (C := C) rep)
                (λ _ es js, calls_allowed r.(h_scopes) es ∧ js = [])).
  { intros rep. eapply tspec_weaken; [apply quiet_send|]. by intros a es js [-> ->]. }
  unfold handleEmbeddings. destruct (readLimitedBody _ _) as [rep|data]; [apply Hs|].
  apply tspec_quiet_bind; [apply quiet_new_context|]. intros p.
  apply tspec_quiet_bind; [apply quiet_run_pre|]. intros [rep|body]; [apply Hs|].
  eapply tspec_bind; [apply tspec_engine, DispatchEmbeddings_grouped|].
  intros [x err] es js [Hg%grouped_allowed ->]; cbn [app].
  assert (Hk : ∀ A (m : TM Ext C A), quiet m →
    tspec m (λ _ es2 js2, calls_allowed r.(h_scopes) (es ++ es2) ∧ js2 = [])).
  { intros A m Hm. eapply tspec_weaken; [exact Hm|]. intros a es2 j2 [-> ->].
    by rewrite app_nil_r. }
  apply Hk. destruct x, err; try apply quiet_send; try apply quiet_panic.
  apply quiet_bind; [apply quiet_set_response_body|]. intros [].
  apply quiet_bind; [apply quiet_run_post|]. intros []. apply quiet_relay_response.
Qed.

(** ** Theorems *)

(** The key a request presents. *)
Definition presented s (r : HReq) : string :=
  hdr_get r.(h_req).(rq_Header) s.(sv_conf).(appKeyHeader).

(** A request as it arrives: nothing in its context. *)
Definition incoming (r : HReq) : Prop := r.(h_key) = None ∧ r.(h_scopes) = None.

Lemma IsActive_recs o w : recs (IsActive o w).2 = recs w.
Proof. unfold IsActive. st_simpl. by repeat case_match; simplify_eq/=. Qed.

(** The middleware hands over a request with the presented key and the scopes of
    its record, or answers itself. *)
Lemma tracking_spec s next r (Q : answer → list event → list job → Prop) t a t' :
  s.(sv_store) = true → incoming r →
  (∀ rep, Q (AReply rep) [] []) →
  (∀ r', (presented s r = "" ∧ r' = r) ∨
         (∃ w, presented s r ≠ "" ∧ IsValid (presented s r) = true ∧ recs w = recs t.(t_keys) ∧
          r' = mkHReq r.(h_req) r.(h_body) (Some (presented s r))
                 (recs w !! presented s r ≫= scopes)) → tspec (next r') Q) →
  withAppKeyTracking s next r t = Ret (a, t') →
  recs t'.(t_keys) = recs t.(t_keys) ∧
  ∃ es js, t'.(t_env).(events) = t.(t_env).(events) ++ es ∧ t'.(t_jobs) = t.(t_jobs) ++ js ∧ Q a es js.
Proof.
  intros _ [_ Hsc] Hrep Hnext. unfold withAppKeyTracking. fold (presented s r).
  assert (Hsend : ∀ rep, tspec (send (Ext := Ext) (C := C) rep) Q).
  { intros rep. unfold send. apply tspec_quiet_bind; [apply quiet_WriteHeader|]. intros [].
    by apply tspec_ret. }
  destruct (decide (presented s r = "")) as [He|He].
  { destruct (appKeyRequire _); [apply Hsend|]. apply Hnext. by left. }
  destruct (IsValid (presented s r)) eqn:Hv; cbn [negb]; [|apply Hsend].
  intros (rec & t1 & H1 & Hr)%TM_bind_inv. unfold keys_run in H1. rewrite Lookup_run in H1.
  injection H1 as <- <-.
  destruct (recs (t_keys t) !! presented s r) as [record|] eqn:Hk.
  - apply TM_bind_inv in Hr as (act & t2 & H2 & Hr). unfold keys_run in H2. cbn [t_keys t_env t_jobs] in H2.
    pose proof (IsActive_recs (Some record) (t_keys t)) as Hrec.
    destruct (IsActive (Some record) (t_keys t)) as [act' w']. injection H2 as <- <-.
    assert (Hlift : ∀ m : TM Ext C answer, tspec m Q → m (mkT (t_env t) w' (t_jobs t)) = Ret (a, t') →
      recs t'.(t_keys) = recs t.(t_keys) ∧
      ∃ es js, t'.(t_env).(events) = t.(t_env).(events) ++ es ∧ t'.(t_jobs) = t.(t_jobs) ++ js ∧ Q a es js).
    { intros m Hm Hrun. destruct (Hm _ _ _ Hrun) as (Hr1 & ?). cbn in *. by rewrite Hr1. }
    destruct act'; cbn [negb] in Hr; [|by eapply Hlift].
    eapply Hlift; [|exact Hr]. apply Hnext. right. exists (t_keys t). rewrite Hk. cbn.
    split_and!; try done. unfold GetScopes, WithScopesCtx, WithKey. destruct r as [rq bd hk hs]. cbn in *. subst hs. by destruct (scopes record).
  - destruct t as [env w0 jobs]. revert Hr. apply Hnext. right. exists w0. cbn in *. rewrite Hk. unfold WithKey. rewrite Hsc.
    by split_and!.
Qed.

(** The requests that the middleware lets through, and how it hands them on. *)
Definition admitted s (r : HReq) t : bool :=
  if decide (presented s r = "") then negb s.(sv_conf).(appKeyRequire)
  else IsValid (presented s r) &&
       match recs t.(t_keys) !! presented s r with
       | None => true
       | Some record => bool_decide (status_at (t.(t_keys).(clock) 0%nat) record = StActive)
       end.

Definition stamped s (r : HReq) t : HReq :=
  if decide (presented s r = "") then r
  else mkHReq r.(h_req) r.(h_body) (Some (presented s r))
         (recs t.(t_keys) !! presented s r ≫= scopes).

Lemma IsActive_at record w :
  (IsActive (Some record) w).1 = bool_decide (status_at (w.(clock) 0%nat) record = StActive).
Proof.
  unfold IsActive, status_at. st_simpl. destruct (RevokedAt record =? 0); cbn [negb]; [|done].
  destruct (ExpiresAt record =? 0); cbn [negb andb]; [done|]. cbn. by destruct (_ <=? _).
Qed.

(** The middleware on a request as it arrives: a refusal that touches nothing, or
    the handler on the stamped request. *)
Lemma tracking_run s next r t a t' :
  incoming r → withAppKeyTracking (C := C) s next r t = Ret (a, t') →
  if admitted s r t
  then ∃ w, recs w = recs t.(t_keys) ∧ next (stamped s r t) (mkT t.(t_env) w t.(t_jobs)) = Ret (a, t')
  else (∃ code msg, a = AReply (writeError code msg) ∧ 400 <= code <= 401) ∧
       t'.(t_env) = t.(t_env) ∧ t'.(t_jobs) = t.(t_jobs) ∧ recs t'.(t_keys) = recs t.(t_keys).
Proof.
  intros [_ Hsc]. unfold withAppKeyTracking, admitted, stamped. fold (presented s r).
  assert (Hsend : ∀ code msg t1, 400 <= code <= 401 → send (Ext := Ext) (C := C) (writeError code msg) t1 = Ret (a, t') →
    (∃ code msg, a = AReply (writeError code msg) ∧ 400 <= code <= 401) ∧ t' = t1).
  { intros code msg t1 Hc. unfold send, WriteHeader. cbn [rp_status writeError json_reply].
    assert (in_range 100 999 code = true) as -> by (unfold in_range; lia). intros [= <- <-]. eauto. }
  destruct (decide (presented s r = "")) as [He|He].
  { destruct (appKeyRequire _); cbn [negb].
    - by intros [? ->]%Hsend.
    - intros Hr. exists (t_keys t). split; [done|]. by destruct t. }
  destruct (IsValid (presented s r)); cbn [negb andb]; [|by intros [? ->]%Hsend].
  intros (rec & t1 & H1 & Hr)%TM_bind_inv. unfold keys_run in H1. rewrite Lookup_run in H1. injection H1 as <- <-.
  destruct (recs (t_keys t) !! presented s r) as [record|] eqn:Hk.
  - apply TM_bind_inv in Hr as (act & t2 & H2 & Hr). unfold keys_run in H2. cbn [t_keys t_env t_jobs] in H2.
    pose proof (IsActive_recs (Some record) (t_keys t)) as Hrec.
    pose proof (IsActive_at record (t_keys t)) as Hact.
    destruct (IsActive (Some record) (t_keys t)) as [act' w']. cbn [fst snd] in *. injection H2 as <- <-.
    rewrite <-Hact. destruct act'; cbn [negb] in Hr.
    + exists w'. split; [exact Hrec|]. revert Hr. unfold GetScopes, WithScopesCtx, WithKey.
      destruct r as [rq bd hk hs]. cbn in *. subst hs. by destruct (scopes record).
    + apply Hsend in Hr as [? ->]; [|lia]. by split_and!.
  - exists (t_keys t). split; [done|]. destruct t. unfold WithKey in Hr. rewrite Hsc in Hr. exact Hr.
Qed.

(** A revoked or expired key goes no further than the middleware. *)
Lemma tracking_inactive s r t record :
  presented s r ≠ "" → IsValid (presented s r) = true →
  recs t.(t_keys) !! presented s r = Some record →
  status_at (t.(t_keys).(clock) 0%nat) record ≠ StActive →
  ∃ msg w, recs w = recs t.(t_keys) ∧ ∀ next, withAppKeyTracking (C := C) s next r t =
    Ret (AReply (writeError 401 msg), mkT t.(t_env) w t.(t_jobs)).
Proof.
  intros Hne Hv Hk Hst.
  pose proof (IsActive_recs (Some record) (t_keys t)) as Hrec.
  assert (Hact : (IsActive (Some record) (t_keys t)).1 = false).
  { unfold IsActive, status_at in *. destruct (RevokedAt record =? 0); cbn [negb] in *; [|done].
    destruct (ExpiresAt record =? 0); cbn [negb andb] in *; [done|]. rewrite ST_bind_unfold. cbn in *.
    by destruct (_ <=? _). }
  destruct (IsActive (Some record) (t_keys t)) as [act w] eqn:E. cbn in Hact, Hrec. subst act.
  do 2 eexists. split; [exact Hrec|]. intros next. unfold withAppKeyTracking. fold (presented s r).
  rewrite decide_False, Hv by done. cbn [negb]. unfold mbind, TM_bind, keys_run.
  rewrite Lookup_run, Hk. cbn [t_keys]. by rewrite E.
Qed.

(** ** What is dispatched

    The handlers up to the dispatch: whether they come to it, and the request that
    they dispatch, with the body that the hooks let through. *)

Definition dispatched_chat s (r : HReq) : TM Ext C (option request) :=
  match readLimitedBody s.(sv_conf) r.(h_body) with
  | inl _ => mret None
  | inr data =>
    p ← new_context r "" (Some data);
    pre ← run_pre s p (Some data);
    match pre with
    | inl _ => mret None
    | inr body =>
      if isStreamRequest (bytes_of body) then
        if negb can_flush then mret None else
        body ← (if tracked s r
                then b ← lift_outcome (InjectStreamOptions (bytes_of body)); mret (Some b)
                else mret body);
        mret (Some (RStream body))
      else mret (Some (RChat body))
    end
  end.

Definition dispatched_embeddings s (r : HReq) : TM Ext C (option request) :=
  match readLimitedBody s.(sv_conf) r.(h_body) with
  | inl _ => mret None
  | inr data =>
    p ← new_context r "" (Some data);
    pre ← run_pre s p (Some data);
    match pre with
    | inl _ => mret None
    | inr body => mret (Some (REmbed body))
    end
  end.

(** The calls of a request are within the scopes [sc]: the providers, and the model
    that the request names. *)
Definition within (sc : option KeyScopes) (o : option request) (es : list event) : Prop :=
  match o with
  | None => call_names es = []
  | Some rq => ∀ n, n ∈ call_names es →
    IsProviderAllowed sc n = true ∧ IsModelAllowed sc (request_fields rq).(f_Model) = true
  end.

(** Whenever [m] returns, [d] says from the same state what it has dispatched. *)
Definition tied {A} sc (m : TM Ext C A) (d : TM Ext C (option request)) : Prop :=
  ∀ t a t', m t = Ret (a, t') → ∃ o t1 es,
    d t = Ret (o, t1) ∧ t'.(t_env).(events) = t.(t_env).(events) ++ es ∧ within sc o es.

(** Nothing is logged. *)
Definition uneventful {A} (m : TM Ext C A) : Prop := tspec m (λ _ es _, es = []).

Lemma quiet_uneventful {A} (m : TM Ext C A) : quiet m → uneventful m.
Proof. intros Hm. eapply tspec_weaken; [exact Hm|]. by intros a es js [-> _]. Qed.

Lemma uneventful_bind {A B} (m : TM Ext C A) (f : A → TM Ext C B) :
  uneventful m → (∀ a, uneventful (f a)) → uneventful (m ≫= f).
Proof.
  intros Hm Hf. eapply tspec_bind; [exact Hm|]. intros a e1 j1 ->. eapply tspec_weaken; [apply Hf|].
  by intros b es js ->.
Qed.

Lemma tied_none {A} sc (m : TM Ext C A) : uneventful m → tied sc m (mret None).
Proof.
  intros Hm t a t' Hr. destruct (Hm t a t' Hr) as (_ & es & js & He & _ & ->).
  by exists None, t, [].
Qed.

Lemma tied_bind {A B} sc (m : TM Ext C A) (f : A → TM Ext C B) g :
  quiet m → (∀ a, tied sc (f a) (g a)) → tied sc (m ≫= f) (m ≫= g).
Proof.
  intros Hm Hf t b t'' (a & t' & H1 & H2)%TM_bind_inv.
  destruct (Hm t a t' H1) as (_ & e1 & j1 & E1 & _ & -> & _). rewrite app_nil_r in E1.
  destruct (Hf a t' b t'' H2) as (o & t1 & es & Hg & E2 & Hw). exists o, t1, es.
  rewrite <-E1. split; [|done]. unfold mbind, TM_bind. by rewrite H1.
Qed.

Lemma tied_dispatch {A B} e sc p rq (m : EM Ext C A) (k : A → TM Ext C B) :
  spec m (λ _ es, grouped (attempts e) (candidates (Strm := Strm) e (mkCtx sc p) rq) (call_names es)) →
  (∀ a, uneventful (k a)) → tied sc (engine_run m ≫= k) (mret (Some rq)).
Proof.
  intros Hm Hk t b t'' (a & t' & H1 & H2)%TM_bind_inv.
  destruct (tspec_engine m _ Hm t a t' H1) as (_ & e1 & j1 & E1 & _ & Hg & _).
  destruct (Hk a t' b t'' H2) as (_ & e2 & j2 & E2 & _ & ->). rewrite app_nil_r in E2.
  exists (Some rq), t, e1. rewrite E2. split_and!; [done..|]. intros n Hn.
  apply (grouped_incl _ _ _ _ Hg) in Hn. by apply candidates_allowed in Hn.
Qed.

Lemma uneventful_failed s r p streaming err :
  uneventful (dispatch_failed (C := C) s r p streaming err).
Proof. eapply tspec_weaken; [apply dispatch_failed_spec|]. by intros a es js [-> _]. Qed.
Lemma uneventful_trace s p r status streaming err :
  uneventful (emitTrace (C := C) s p r status streaming err).
Proof. eapply tspec_weaken; [apply emitTrace_spec|]. by intros a es js [-> _]. Qed.
Lemma uneventful_track s r p stream pt ct : uneventful (track (C := C) s r p stream pt ct).
Proof. eapply tspec_weaken; [apply track_spec|]. by intros a es js [-> _]. Qed.

Lemma handleStream_tied fuel s r body p :
  tied r.(h_scopes) (handleStream (C := C) cvt Next can_flush can_deadline fuel s r body p)
    (if negb can_flush then mret None else
     body ← (if tracked s r
             then b ← lift_outcome (InjectStreamOptions (bytes_of body)); mret (Some b)
             else mret body);
     mret (Some (RStream body))).
Proof.
  unfold handleStream. destruct can_flush; cbn [negb]; [|apply tied_none, quiet_uneventful, quiet_send].
  apply tied_bind; [destruct (tracked s r); quiet_tac|]. intros body'.
  eapply tied_dispatch; [apply DispatchStream_grouped|]. intros [x [err|]].
  { destruct x; apply uneventful_failed. }
  destruct x as [stream|]; [|apply tspec_panic].
  apply uneventful_bind; [apply quiet_uneventful; quiet_tac|]. intros rc.
  apply uneventful_bind.
  { apply quiet_uneventful. unfold newStreamDeadline. destruct (_ <=? _); [apply quiet_ret|apply quiet_extend]. }
  intros d. apply uneventful_bind; [apply quiet_uneventful, quiet_relay|]. intros [[fin sink] outs].
  assert (Hdone : ∀ err (a : answer), uneventful (emitTrace (C := C) s p r 200 true err;;
      track s r p true (if tracked s r then tp_in sink else 0) (if tracked s r then tp_out sink else 0);;
      mret a)).
  { intros err a. apply uneventful_bind; [apply uneventful_trace|]. intros [].
    apply uneventful_bind; [apply uneventful_track|]. intros []. by apply tspec_ret. }
  destruct fin; [apply Hdone|apply Hdone|by apply tspec_ret].
Qed.

Lemma handleChat_tied fuel s r :
  tied r.(h_scopes) (handleChatCompletions (C := C) cvt Next can_flush can_deadline fuel s r)
    (dispatched_chat s r).
Proof.
  unfold handleChatCompletions, dispatched_chat.
  destruct (readLimitedBody _ _) as [rep|data]; [apply tied_none, quiet_uneventful, quiet_send|].
  apply tied_bind; [apply quiet_new_context|]. intros p.
  apply tied_bind; [apply quiet_run_pre|]. intros [rep|body]; [apply tied_none, quiet_uneventful, quiet_send|].
  destruct (isStreamRequest _); [apply handleStream_tied|].
  eapply tied_dispatch; [apply Dispatch_grouped|]. intros [x [err|]].
  { destruct x; apply uneventful_failed. }
  destruct x as [resp|]; [|apply tspec_panic].
  apply uneventful_bind; [apply quiet_uneventful, quiet_set_response_body|]. intros [].
  apply uneventful_bind; [apply quiet_uneventful, quiet_run_post|]. intros [].
  apply uneventful_bind; [apply uneventful_trace|]. intros [].
  apply uneventful_bind; [apply uneventful_track|]. intros []. apply quiet_uneventful, quiet_relay_response.
Qed.

Lemma handleEmbeddings_tied s r :
  tied r.(h_scopes) (handleEmbeddings (C := C) cvt s r) (dispatched_embeddings s r).
Proof.
  unfold handleEmbeddings, dispatched_embeddings.
  destruct (readLimitedBody _ _) as [rep|data]; [apply tied_none, quiet_uneventful, quiet_send|].
  apply tied_bind; [apply quiet_new_context|]. intros p.
  apply tied_bind; [apply quiet_run_pre|]. intros [rep|body]; [apply tied_none, quiet_uneventful, quiet_send|].
  eapply tied_dispatch; [apply DispatchEmbeddings_grouped|]. intros [x err]. apply quiet_uneventful.
  destruct x, err; try apply quiet_send; try apply quiet_panic.
  apply quiet_bind; [apply quiet_set_response_body|]. intros [].
  apply quiet_bind; [apply quiet_run_post|]. intros []. apply quiet_relay_response.
Qed.

(** A handler that respects the scopes it is given respects those of the key. *)
Lemma tracking_scopes s r t a t' record next :
  s.(sv_store) = true → incoming r →
  presented s r ≠ "" → recs t.(t_keys) !! presented s r = Some record →
  (∀ r', tspec (next r') (λ _ es _, calls_allowed r'.(h_scopes) es)) →
  withAppKeyTracking s next r t = Ret (a, t') →
  ∃ es, t'.(t_env).(events) = t.(t_env).(events) ++ es ∧ calls_allowed record.(scopes) es.
Proof.
  intros Hs Hr Hne Hk Hnext Hw.
  assert (Hq : calls_allowed record.(scopes) []) by (intros n Hn; by apply elem_of_nil in Hn).
  destruct (tracking_spec s next r (λ _ es _, calls_allowed record.(scopes) es) t a t' Hs Hr)
    as (_ & es & js & He & _ & ?); [done| |done|by exists es].
  intros r' [[? _]|(w & _ & _ & Hw' & ->)]; [done|].
  eapply tspec_weaken; [apply Hnext|]. cbn. intros _ es _. by rewrite Hw', Hk.
Qed.

(** C10. Usage is recorded once and for the right key: a chat request starts at most
    one usage record, and only for the key it presented; one that a provider has
    answered starts exactly one, with the token counts of the body that is
    relayed; one whose stream was relayed to the end starts exactly one. *)
Theorem usage_recorded_once fuel s r t a t' :
  s.(sv_store) = true → incoming r →
  chat_route cvt Next can_flush can_deadline fuel s r t = Ret (a, t') →
  let key := presented s r in
  ∃ es js, t'.(t_env).(events) = t.(t_env).(events) ++ es ∧ t'.(t_jobs) = t.(t_jobs) ++ js ∧
    (usage_jobs js = [] ∨
     ∃ model stream pt ct, key ≠ "" ∧ usage_jobs js = [JUsage key model stream pt ct]) ∧
    (key ≠ "" → replied es = true → ∃ model rep b, a = AReply rep ∧ rep.(rp_body) = BRaw b ∧
       usage_jobs js = [JUsage key model false (ExtractUsage (bytes_of b)).1 (ExtractUsage (bytes_of b)).2]) ∧
    (key ≠ "" → ∀ c h o, a = AStream c h o true →
       ∃ model pt ct, usage_jobs js = [JUsage key model true pt ct]).
Proof.
  intros Hs Hr Hrun key. unfold chat_route in Hrun. rewrite Hs in Hrun.
  eapply (tracking_spec s _ r (λ a es js,
    (usage_jobs js = [] ∨
     ∃ model stream pt ct, key ≠ "" ∧ usage_jobs js = [JUsage key model stream pt ct]) ∧
    (key ≠ "" → replied es = true → ∃ model rep b, a = AReply rep ∧ rep.(rp_body) = BRaw b ∧
       usage_jobs js = [JUsage key model false (ExtractUsage (bytes_of b)).1 (ExtractUsage (bytes_of b)).2]) ∧
    (key ≠ "" → ∀ c h o, a = AStream c h o true →
       ∃ model pt ct, usage_jobs js = [JUsage key model true pt ct])) t a t' Hs Hr) in Hrun.
  - by destruct Hrun as (_ & es & js & ?); exists es, js.
  - intros rep. split_and!; [by left|done|done].
  - intros r' Hr'. eapply tspec_weaken; [apply handleChat_run|].
    intros b es js [_ Hu Ha Hst].
    destruct Hr' as [[He ->]|(w & Hne & _ & _ & ->)].
    + split_and!; [|done|done]. left. destruct Hu as [?|(k & m & st & pt & ct & _ & Hk & _)]; [done|].
      destruct Hr as [Hr _]. congruence.
    + assert (Ht : tracked s (mkHReq (h_req r) (h_body r) (Some (presented s r))
                     (recs w !! presented s r ≫= scopes)) = true).
      { unfold tracked, FromContext. cbn [h_key]. by rewrite Hs, decide_False. }
      cbn [h_key] in *. split_and!.
      * destruct Hu as [?|(k & m & st & pt & ct & _ & [= <-] & ?)]; [by left|]. right. by eauto 10.
      * intros _ Hrep. destruct (Ha Ht Hrep) as (k & m & resp & rep & [= <-] & ? & ? & _ & ?). by eauto 10.
      * intros _ c h o Hst'. destruct (Hst Ht c h o Hst') as (k & m & pt & ct & [= <-] & ?). by eauto.
Qed.

(** An unknown key is let through, even where keys are required: any well-formed
    token satisfies [require_key], without scopes. *)
Theorem unknown_key_satisfies_require s next r t :
  s.(sv_conf).(appKeyRequire) = true → presented s r ≠ "" → IsValid (presented s r) = true →
  recs t.(t_keys) !! presented s r = None →
  withAppKeyTracking (C := C) s next r t =
  next (mkHReq r.(h_req) r.(h_body) (Some (presented s r)) r.(h_scopes)) t.
Proof.
  intros _ Hne Hv Hk. unfold withAppKeyTracking. fold (presented s r).
  rewrite decide_False, Hv by done. cbn [negb]. unfold mbind, TM_bind, keys_run.
  rewrite Lookup_run, Hk. by destruct t.
Qed.

(** *** Relaying a stream *)

(** The provider's stream yields chunks and then ends. *)
Inductive yields (stream : Strm) : Ext → list slice → Ext → Prop :=
| yields_end x x' : Next stream x = (NEof, x') → yields stream x [] x'
| yields_chunk x c x1 cs x' :
    Next stream x = (NChunk c, x1) → yields stream x1 cs x' → yields stream x (c :: cs) x'.

(** One frame on the connection: the deadline pushed out where that works, the
    text, and a flush. *)
Definition frame (disabled : bool) (deadline : Z) (text : string) : list out :=
  (if disabled || negb can_deadline then [] else [ODeadline deadline]) ++ [OWrite text; OFlush].

Lemma frame_disabled d deadline text :
  frame (d || negb can_deadline) deadline text = frame d deadline text.
Proof. unfold frame. by destruct d, can_deadline. Qed.

(** What the hooks make of a chunk. *)
Definition hand_on s (p : ptr) (chunk : slice) : ST (PWorld Ext) slice :=
  match s.(sv_chain) with None => mret chunk | Some m => RunStreamChunk m p chunk end.

(** The stream yields chunks and ends while the hooks see each of them: the chunks
    as they came and as they were handed on. *)
Inductive handed s (p : ptr) (stream : Strm) : PWorld Ext → list (slice * slice) → PWorld Ext → Prop :=
| handed_end w x' : Next stream w.(ext) = (NEof, x') → handed s p stream w [] (mkPWorld w.(rcs) x')
| handed_chunk w c x1 c' w1 cs w' :
    Next stream w.(ext) = (NChunk c, x1) → hand_on s p c (mkPWorld w.(rcs) x1) = (c', w1) →
    handed s p stream w1 cs w' → handed s p stream w ((c, c') :: cs) w'.

Lemma extend_plug window d t :
  ∃ dl t', extend (Ext := Ext) (C := C) can_deadline window d t
    = Ret ((d || negb can_deadline, if d || negb can_deadline then [] else [ODeadline dl]), t') ∧
    t'.(t_env).(plug) = t.(t_env).(plug).
Proof.
  unfold extend. destruct d; cbn [orb].
  - exists 0, t. done.
  - unfold mbind, TM_bind, engine_run, clock_now. cbn.
    exists (time (t_env t) 0%nat + window). eexists. split; [by destruct can_deadline|done].
Qed.

(** The relay, given more reads than there are chunks, comes to the end of the
    stream; it has written the chunks as they were handed on, in order, each as one
    flushed frame with its deadline, then the end marker, and has counted the usage
    in the chunks as they came. *)
Lemma relay_handed s p stream w ccs w' : handed s p stream w ccs w' →
  ∀ fuel sink d outs t, (length ccs < fuel)%nat → t.(t_env).(plug) = w →
  ∃ deadlines t', length deadlines = S (length ccs) ∧
    relay (C := C) Next can_deadline fuel s p stream sink d outs t =
    Ret ((RelayEOF, foldl (λ k c, FeedChunk k (bytes_of c)) sink ccs.*1,
          outs ++ concat (zip_with (frame d) deadlines ((sse <$> ccs.*2) ++ [done_marker]))), t') ∧
    t'.(t_env).(plug) = w'.
Proof.
  induction 1 as [w x' Hn|w c x1 c' w1 ccs w' Hn Hh Hy IH];
    intros [|fuel] sink d outs t Hf Hx; cbn [length] in Hf; try lia; cbn [relay].
  - unfold mbind at 1, TM_bind at 1, engine_run at 1, run_ext. rewrite Hx, Hn. set (t1 := mkT _ _ _).
    destruct (extend_plug (writeTimeout (sv_conf s)) d t1) as (dl & t' & He & Ht').
    exists [dl], t'. split; [done|]. split; [|by rewrite Ht'].
    unfold mbind, TM_bind. rewrite He. cbn [fst snd foldl fmap list_fmap zip_with concat app].
    rewrite app_nil_r. unfold frame. done.
  - unfold mbind at 1, TM_bind at 1, engine_run at 1, run_ext. rewrite Hx, Hn. set (t1 := mkT _ _ _).
    assert (∃ t2, (match sv_chain s with
      | None => mret c
      | Some m => engine_run (run_hook (RunStreamChunk m p c))
      end : TM Ext C slice) t1 = Ret (c', t2) ∧ t2.(t_env).(plug) = w1) as (t2 & Hc & Ht2).
    { unfold hand_on in Hh. destruct (sv_chain s) as [m|].
      - eexists. unfold engine_run, run_hook. cbn [t_env t1 plug]. rewrite Hh. done.
      - injection Hh as <- <-. by exists t1. }
    unfold mbind at 1, TM_bind at 1. rewrite Hc.
    destruct (extend_plug (writeTimeout (sv_conf s)) d t2) as (dl & t3 & He & Ht3).
    unfold mbind at 1, TM_bind at 1. rewrite He. cbn [fst snd].
    destruct (IH fuel (FeedChunk sink (bytes_of c)) (d || negb can_deadline)
      (outs ++ (if d || negb can_deadline then [] else [ODeadline dl]) ++ [OWrite (sse c'); OFlush]) t3)
      as (dls & t' & Hl & Hr & Ht'); [lia|by rewrite Ht3|].
    exists (dl :: dls), t'. split; [cbn; by rewrite Hl|]. split; [|done]. rewrite Hr.
    cbn [foldl fmap list_fmap app zip_with concat fst snd]. rewrite <-!app_assoc.
    rewrite (zip_with_ext (frame (d || negb can_deadline)) (frame d) dls dls _ _
      (λ _ _, frame_disabled _ _ _) eq_refl eq_refl).
    unfold frame at 2. by rewrite <-!app_assoc.
Qed.
End handlers.

(** ** Witnesses *)

#[local] Existing Instance literal_strconv.

(** The demo engine behind a server that requires keys; its streams end at once
    after one chunk. *)
Definition demo_next (_ : nat) : ST nat next_result := λ n,
  if (n =? 7)%nat then (NEof, 8%nat) else (NChunk (Some "data: {}"), 7%nat).

Definition demo_server : Server nat nat :=
  mkHServer (mkServerConf "X-Butter-App-Key" true 0 1000 30) (demo_engine true 0 [2; 3]) None true.

Definition demo_request (key : string) (text : string) : HReq :=
  mkHReq (mkRequest "POST" "/v1/chat/completions" "10.0.0.1:1" {[ "X-Butter-App-Key" := [key] ]})
    (mkBody (dq text) false) None None.

(** Key a is revoked; key b may only use provider b. *)
Definition demo_world : World :=
  run_ops [OVend rnd_a "a" 0 None; OVend rnd_b "b" 0 (Some (mkScopes ["m"] ["b"])); ORevoke key_a]
    (start_world 1000).

Definition demo_state : TState nat Memory := mkT demo_env demo_world [].

Definition b_run : outcome (answer * TState nat Memory) :=
  chat_route saturate demo_next true true 9 demo_server (demo_request key_b "{'model':'m'}") demo_state.

Lemma usage_recorded_once_witness :
  ∃ a t' es js, b_run = Ret (a, t') ∧ events (t_env t') = [] ++ es ∧ t_jobs t' = [] ++ js ∧
    (usage_jobs js = [] ∨
     ∃ model stream pt ct, key_b ≠ "" ∧ usage_jobs js = [JUsage key_b model stream pt ct]).
Proof.
  destruct (returns_inv b_run) as (a & t' & Hr); [vm_compute; reflexivity|].
  destruct (usage_recorded_once saturate demo_next true true 9 demo_server
    (demo_request key_b "{'model':'m'}") demo_state a t') as (es & js & He & Hj & Hu & _);
    [reflexivity|split; reflexivity|exact Hr|].
  exists a, t', es, js. split; [exact Hr|]. split; [exact He|]. split; [exact Hj|exact Hu].
Defined.

(** The run of key b answers, from provider b, and starts one usage record. *)
Example b_run_usage :
  match b_run with
  | Ret (AReply rep, t) => (rep.(rp_status), call_names (events (t_env t)), t_jobs t)
  | _ => (0, [], [])
  end = (200, ["b"], [JUsage key_b "" false 0 0]).
Proof. vm_compute. reflexivity. Qed.
