(* ===== verification/NativeTheorems.v ===== *)
(** * Properties of the native endpoints and of the routes *)
From S2P Require Import Prelude GoStd Json JsonScan Config StreamDetect Scrub Token Store Usage.
From S2P Require Import MemoryCache CacheKey Plugin Engine EngineProofs EngineTheorems Management Transport TransportTheorems Native.

(** What the client gets of a relayed body. *)
Definition written (outs : list out) : string :=
  String.concat "" (omap (λ o, match o with OWrite s => Some s | _ => None end) outs).

Lemma written_app o1 o2 : written (o1 ++ o2) = written o1 +:+ written o2.
Proof.
  unfold written. rewrite omap_app.
  change (String.concat "" ?l) with (Join l ""). induction (omap _ o1) as [|s l IH]; [done|].
  cbn [app]. rewrite !Usage.concat_cons_nil, str_app_assoc. by rewrite <-IH.
Qed.

Section native.
Context {Ext C Strm : Type} `{Cache C} `{Strconv}.
Context (cvt : float64 → Z).
Context (Next : Strm → ST Ext next_result).
Context (SinkWrite : positive → string → ST Ext bool).
Context (can_flush can_deadline : bool).
Implicit Types s : Server Ext Strm.
Implicit Types t : TState Ext C.

(** ** Relaying *)

(** Quiet computations with a fact about their result. *)
Abbreviation qspec m P := (tspec m (λ a es js, es = [] ∧ js = [] ∧ P a)).

Lemma qspec_ret {A} (a : A) (P : A → Prop) : P a → qspec (mret (M := TM Ext C) a) P.
Proof using Type. intros HP. by apply tspec_ret. Qed.

Lemma qspec_bind {A B} (m : TM Ext C A) (f : A → TM Ext C B) (P : A → Prop) (Q : B → list event → list job → Prop) :
  qspec m P → (∀ a, P a → tspec (f a) Q) → tspec (m ≫= f) Q.
Proof using Type. intros Hm Hf. eapply tspec_bind; [exact Hm|]. intros a ? ? (-> & -> & HP). by apply Hf. Qed.

Lemma extend_spec window d :
  qspec (extend (Ext := Ext) (C := C) can_deadline window d) (λ w, written w.2 = "").
Proof using Type.
  unfold extend. destruct d; [by apply qspec_ret|]. apply tspec_quiet_bind; [quiet_tac|]. intros ?.
  apply qspec_ret. by destruct can_deadline.
Qed.

Lemma client_write_spec flush window d piece :
  qspec (client_write (Ext := Ext) (C := C) can_deadline flush window d piece) (λ w, written w.2 = piece).
Proof using Type.
  unfold client_write. eapply qspec_bind; [apply extend_spec|]. intros w Hw. apply qspec_ret. cbn [snd].
  rewrite written_app, Hw, written_app. destruct flush; cbn; by autorewrite with butter_str.
Qed.

Lemma newStreamDeadline_spec s :
  qspec (newStreamDeadline (Ext := Ext) (C := C) can_deadline s) (λ w, written w.2 = "").
Proof using Type. unfold newStreamDeadline. destruct (_ <=? 0); [by apply qspec_ret|apply extend_spec]. Qed.

Lemma copy_spec flush window pieces : ∀ d outs,
  qspec (copy (Ext := Ext) (C := C) can_deadline flush window pieces d outs)
    (λ o, written o = written outs +:+ Join pieces "").
Proof using Type.
  induction pieces as [|piece pieces IH]; intros d outs; cbn [copy].
  - apply qspec_ret. cbn. by autorewrite with butter_str.
  - rewrite Usage.concat_cons_nil. case_decide as E; [subst; apply IH|].
    eapply qspec_bind; [apply client_write_spec|]. intros w Hw. eapply tspec_weaken; [apply IH|].
    intros o es js (-> & -> & ->). rewrite written_app, Hw. by rewrite str_app_assoc.
Qed.

(** A writer of a plugin that takes everything. *)
Definition sink_never_fails : Prop := ∀ id piece x, (SinkWrite id piece x).1 = true.

(** The pieces that were relayed: a prefix of the body, all of it unless the
    plugin's writer failed. *)
Definition relayed_of (pieces ps : list string) : Prop :=
  ∃ rest, Join pieces "" = Join ps "" +:+ rest ∧ (sink_never_fails → rest = "").

Lemma quiet_sink body_sink piece : qspec
  (match body_sink with
   | None => mret true
   | Some id => engine_run (Ext := Ext) (C := C) (run_ext (SinkWrite id piece))
   end) (λ ok, sink_never_fails → ok = true).
Proof using Type.
  destruct body_sink as [id|]; [|by apply qspec_ret].
  intros t a t' Hr. assert (quiet (engine_run (Ext := Ext) (C := C) (run_ext (SinkWrite id piece)))) as Hq by quiet_tac.
  destruct (Hq t a t' Hr) as (Hk & es & js & He & Hj & -> & ->). split; [done|]. exists [], []. split_and!; try done.
  intros Hn. unfold engine_run, run_ext in Hr. specialize (Hn id piece).
  destruct (SinkWrite id piece _) as [ok x] eqn:E in Hr. injection Hr as <- _. specialize (Hn (ext (plug (t_env t)))). by rewrite E in Hn.
Qed.

Lemma copy_tee_spec flush window body_sink pieces : ∀ d sink outs,
  qspec (copy_tee (Ext := Ext) (C := C) SinkWrite can_deadline flush window body_sink pieces d sink outs)
    (λ x, ∃ ps, relayed_of pieces ps ∧ x.1 = foldl Write sink ps ∧ written x.2 = written outs +:+ Join ps "").
Proof using Type.
  induction pieces as [|piece pieces IH]; intros d sink outs; cbn [copy_tee].
  - apply qspec_ret. exists []. split; [by exists ""|]. split; [done|]. cbn. by autorewrite with butter_str.
  - case_decide as E.
    + subst. eapply tspec_weaken; [apply IH|]. intros x es js (-> & -> & ps & (rest & Hr & Hn) & ? & ?).
      split_and!; [done..|]. exists ps. split; [|done]. exists rest. by rewrite Usage.concat_cons_nil.
    + eapply qspec_bind; [apply client_write_spec|]. intros w Hw. eapply qspec_bind; [apply quiet_sink|].
      intros [|] Hok.
      * eapply tspec_weaken; [apply IH|]. intros x es js (-> & -> & ps & (rest & Hr & Hn) & Hs & Ho).
        split_and!; [done..|]. exists (piece :: ps). rewrite Ho, written_app, Hw, !Usage.concat_cons_nil, str_app_assoc.
        split; [|by split]. exists rest. by rewrite !Usage.concat_cons_nil, Hr, str_app_assoc.
      * apply qspec_ret. exists [piece]. cbn [fst snd]. rewrite written_app, Hw, Usage.concat_cons_nil.
        split; [|split; [done|by cbn; autorewrite with butter_str]]. exists (Join pieces "").
        rewrite !Usage.concat_cons_nil. cbn [Join String.concat]. rewrite str_app_nil_r. split; [done|].
        intros Hn. by specialize (Hok Hn).
Qed.

(** ** Messages *)

(** The usage record of a request with a key. *)
Definition usage_of s (r : HReq) (stream : bool) (u : Z * Z) (js : list job) : Prop :=
  if tracked s r then ∃ key model, r.(h_key) = Some key ∧ usage_jobs js = [JUsage key model stream u.1 u.2]
  else usage_jobs js = [].

Lemma track_usage s r p stream u :
  tspec (track (C := C) s r p stream u.1 u.2) (λ _ es js, es = [] ∧ usage_of s r stream u js).
Proof using Type.
  eapply tspec_weaken; [apply track_spec|]. intros _ es js [-> Hj]. split; [done|]. unfold usage_of.
  destruct (tracked s r); [destruct Hj as (key & model & Hk & ->); by exists key, model|by subst].
Qed.

(** How an answer of the upstream is relayed and accounted. *)
Definition relayed s (r : HReq) (resp : HTTPResponse) (a : answer) (js : list job) : Prop :=
  if isSSEResponse resp then ∃ h outs, a = AStream resp.(hr_StatusCode) h outs true ∧
    relayed_of resp.(hr_Body).(rb_reads) [written outs] ∧ usage_of s r true (Totals (Write new_sink (written outs))) js
  else ∃ h, match read_capped resp.(hr_Body) with
    | None => a = AReply (mkReply resp.(hr_StatusCode) h BEmpty) ∧ usage_jobs js = []
    | Some raw => a = AReply (mkReply resp.(hr_StatusCode) h (BRaw (Some raw))) ∧
        usage_of s r false (ExtractAnthropicUsage raw) js
    end.

Lemma relay_messages_spec s r p resp :
  tspec (relay_messages (C := C) SinkWrite can_flush can_deadline s r p resp) (λ a es js, es = [] ∧ relayed s r resp a js).
Proof using Type.
  unfold relay_messages, relayed. apply tspec_quiet_bind; [quiet_tac|]. intros rc.
  apply tspec_quiet_bind; [apply quiet_WriteHeader|]. intros [].
  destruct (isSSEResponse resp).
  - eapply qspec_bind; [apply newStreamDeadline_spec|]. intros d Hd.
    apply tspec_quiet_bind; [quiet_tac|]. intros rc'.
    eapply qspec_bind; [apply copy_tee_spec|]. intros [sink outs] (ps & Hps & Hs & Ho). cbn [fst snd] in *.
    eapply tspec_bind; [apply track_usage|]. intros [] es js [-> Hu]. apply tspec_ret. split; [done|].
    eexists _, outs. split; [done|]. rewrite Ho, Hd. cbn [String.append]. split.
    + destruct Hps as (rest & E & Hn). exists rest. by rewrite Usage.concat_cons_nil, str_app_nil_r.
    + rewrite app_nil_r. assert (Totals sink = Totals (Write new_sink (Join ps ""))) as <-; [|done].
      rewrite Hs, Write_all. change (Write new_sink (Join ps "")) with (foldl Write new_sink [Join ps ""]).
      rewrite Write_all, Usage.concat_cons_nil. cbn [Join String.concat]. by rewrite str_app_nil_r.
  - destruct (read_capped _) as [raw|].
    + apply tspec_quiet_bind; [apply quiet_set_response_body|]. intros [].
      eapply tspec_bind; [apply (track_usage s r p false (ExtractAnthropicUsage raw))|]. intros [] es js [-> Hu].
      apply tspec_ret. split; [done|]. eexists. rewrite app_nil_r. by split.
    + apply tspec_ret. split; [done|]. by eexists.
Qed.

Lemma usage_of_app s r stream u j1 j2 : usage_jobs j1 = [] → usage_of s r stream u j2 → usage_of s r stream u (j1 ++ j2).
Proof using Type. unfold usage_of. rewrite usage_jobs_app. by intros ->. Qed.

Lemma relayed_app s r resp a j1 j2 : usage_jobs j1 = [] → relayed s r resp a j2 → relayed s r resp a (j1 ++ j2).
Proof using Type.
  intros Hj. unfold relayed. destruct (isSSEResponse resp).
  - intros (h & outs & ? & ? & ?). exists h, outs. auto using usage_of_app.
  - intros (h & Hr). exists h. destruct (read_capped _); destruct Hr as [? Hr]; split; auto using usage_of_app.
    by rewrite usage_jobs_app, Hj.
Qed.

(** The calls of the whole handler. *)
Lemma handleMessages_run s r :
  tspec (handleAnthropicMessages (C := C) cvt SinkWrite can_flush can_deadline s r)
    (λ _ es _, calls_allowed r.(h_scopes) es).
Proof using Type.
  assert (∀ A (m : TM Ext C A), quiet m → tspec m (λ _ es _, calls_allowed r.(h_scopes) es)) as Hq.
  { intros A m Hm. eapply tspec_weaken; [exact Hm|]. intros a es js [-> _] n Hn. by apply elem_of_nil in Hn. }
  unfold handleAnthropicMessages. destruct (readLimitedBody _ _) as [rep|data]; [apply Hq, quiet_send|].
  apply tspec_quiet_bind; [apply quiet_new_context|]. intros p.
  apply tspec_quiet_bind; [apply quiet_run_pre|]. intros [rep|body]; [apply Hq, quiet_send|].
  eapply tspec_bind; [apply tspec_engine, DispatchNative_grouped|].
  intros [x err] es js [Hg%grouped_allowed ->]; cbn [app].
  destruct err as [e|]; [|destruct x as [resp|]; [|apply tspec_panic]].
  - destruct x; (eapply tspec_weaken; [apply dispatch_failed_spec|]); intros a e2 j2 (-> & _); by rewrite app_nil_r.
  - apply tspec_quiet_bind; [apply quiet_run_post|]. intros [].
    eapply tspec_bind; [apply emitTrace_spec|]. intros [] e1 j1 [-> _].
    eapply tspec_weaken; [apply relay_messages_spec|]. intros a e2 j2 [-> _]. by rewrite !app_nil_r.
Qed.

(** ** What the handler gets of the upstream *)

(** The handler up to the dispatch: the request it dispatches. *)
Definition dispatched_messages s (r : HReq) : TM Ext C (option request) :=
  match readLimitedBody s.(sv_conf) r.(h_body) with
  | inl _ => mret None
  | inr data =>
    p ← new_context r "" (Some data);
    pre ← run_pre s p (Some data);
    match pre with
    | inl _ => mret None
    | inr _ => mret (Some (RNative (Some data) (forwarded_headers r)))
    end
  end.

(** The handler up to the answer of the upstream, if it gets one. *)
Definition upstream_answer s (r : HReq) : TM Ext C (option HTTPResponse) :=
  match readLimitedBody s.(sv_conf) r.(h_body) with
  | inl _ => mret None
  | inr data =>
    p ← new_context r "" (Some data);
    pre ← run_pre s p (Some data);
    match pre with
    | inl _ => mret None
    | inr _ =>
      d ← engine_run (DispatchAnthropicNative cvt s.(sv_engine) (mkCtx r.(h_scopes) (Some p)) (Some data)
                        (forwarded_headers r));
      mret (match d with (_, Some _) => None | (x, None) => x end)
    end
  end.

Lemma uneventful_relay s r p resp :
  uneventful (relay_messages (C := C) SinkWrite can_flush can_deadline s r p resp).
Proof using Type. eapply tspec_weaken; [apply relay_messages_spec|]. by intros a es js [-> _]. Qed.

Lemma handleMessages_tied s r :
  tied r.(h_scopes) (handleAnthropicMessages (C := C) cvt SinkWrite can_flush can_deadline s r)
    (dispatched_messages s r).
Proof using Type.
  unfold handleAnthropicMessages, dispatched_messages.
  destruct (readLimitedBody _ _) as [rep|data]; [apply tied_none, quiet_uneventful, quiet_send|].
  apply tied_bind; [apply quiet_new_context|]. intros p.
  apply tied_bind; [apply quiet_run_pre|]. intros [rep|body]; [apply tied_none, quiet_uneventful, quiet_send|].
  eapply tied_dispatch; [apply DispatchNative_grouped|]. intros [x [err|]].
  { destruct x; apply uneventful_failed. }
  destruct x as [resp|]; [|apply tspec_panic].
  apply uneventful_bind; [apply quiet_uneventful, quiet_run_post|]. intros [].
  apply uneventful_bind; [apply uneventful_trace|]. intros []. apply uneventful_relay.
Qed.

(** The answer is the gateway's own and no usage record is started, or it relays
    the answer of the upstream. *)
Definition accounts s (r : HReq) (o : option HTTPResponse) (a : answer) (js : list job) : Prop :=
  match o with
  | None => (∃ rep, a = AReply rep) ∧ usage_jobs js = []
  | Some resp => relayed s r resp a js
  end.

(** Whenever [m] returns, [d] says from the same state what the upstream answered. *)
Definition follows s (r : HReq) (m : TM Ext C answer) (d : TM Ext C (option HTTPResponse)) : Prop :=
  ∀ t a t', m t = Ret (a, t') → ∃ o t1 js,
    d t = Ret (o, t1) ∧ t'.(t_jobs) = t.(t_jobs) ++ js ∧ accounts s r o a js.

Lemma follows_none s r (m : TM Ext C answer) :
  tspec m (λ a _ js, (∃ rep, a = AReply rep) ∧ usage_jobs js = []) → follows s r m (mret None).
Proof using Type.
  intros Hm t a t' Hr. destruct (Hm t a t' Hr) as (_ & es & js & _ & Hj & Ha). by exists None, t, js.
Qed.

Lemma follows_send s r rep : follows s r (send (Ext := Ext) (C := C) rep) (mret None).
Proof using Type.
  apply follows_none. unfold send. apply tspec_quiet_bind; [apply quiet_WriteHeader|]. intros [].
  apply tspec_ret. eauto.
Qed.

Lemma follows_bind {A} s r (m : TM Ext C A) f g :
  tspec m (λ _ _ js, js = []) → (∀ a, follows s r (f a) (g a)) → follows s r (m ≫= f) (m ≫= g).
Proof using Type.
  intros Hm Hf t b t'' (a & t' & H1 & H2)%TM_bind_inv.
  destruct (Hm t a t' H1) as (_ & e1 & j1 & _ & J1 & ->). rewrite app_nil_r in J1.
  destruct (Hf a t' b t'' H2) as (o & t1 & js & Hg & J2 & Ha). exists o, t1, js.
  rewrite <-J1. split; [|done]. unfold mbind, TM_bind. by rewrite H1.
Qed.

Lemma quiet_jobless {A} (m : TM Ext C A) : quiet m → tspec m (λ _ _ js, js = []).
Proof using Type. intros Hm. eapply tspec_weaken; [exact Hm|]. by intros a es js [_ ->]. Qed.

Lemma handleMessages_follows s r :
  follows s r (handleAnthropicMessages (C := C) cvt SinkWrite can_flush can_deadline s r) (upstream_answer s r).
Proof using Type.
  unfold handleAnthropicMessages, upstream_answer.
  destruct (readLimitedBody _ _) as [rep|data]; [apply follows_send|].
  apply follows_bind; [apply quiet_jobless, quiet_new_context|]. intros p.
  apply follows_bind; [apply quiet_jobless, quiet_run_pre|]. intros [rep|body]; [apply follows_send|].
  apply follows_bind.
  { eapply tspec_weaken; [apply tspec_engine, DispatchNative_grouped|]. by intros a es js [_ ->]. }
  intros [x [err|]].
  { apply follows_none. destruct x; (eapply tspec_weaken; [apply dispatch_failed_spec|]); intros a e2 j2 (_ & Hj & ->); eauto. }
  destruct x as [resp|]; [|by intros ?].
  intros t a t' Hr. exists (Some resp), t.
  assert (tspec (run_post s p;; emitTrace s p r (hr_StatusCode resp) (isSSEResponse resp) None;;
    relay_messages (C := C) SinkWrite can_flush can_deadline s r p resp) (λ a _ js, relayed s r resp a js)) as Hm.
  { apply tspec_quiet_bind; [apply quiet_run_post|]. intros [].
    eapply tspec_bind; [apply emitTrace_spec|]. intros [] e1 j1 [_ Hj1].
    eapply tspec_weaken; [apply relay_messages_spec|]. intros b e2 j2 [_ Hb]. by apply relayed_app. }
  destruct (Hm t a t' Hr) as (_ & es & js & _ & Hj & Ha). by exists js.
Qed.

(** ** The routes *)

(** The endpoints that carry model traffic under application keys. *)
Definition keyed_paths : list (list string) :=
  [["v1"; "chat"; "completions"]; ["v1"; "embeddings"]; ["v1"; "messages"]].

Section served.
Context (fuel : nat) (s : Server Ext Strm) (metrics : bool) (rest : endpoint → HReq → TM Ext C answer).

(** A request as [NewServer]'s mux serves it. *)
Definition served : list string → HReq → TM Ext C answer :=
  ServeHTTP cvt Next SinkWrite can_flush can_deadline fuel s metrics rest.

Lemma served_keyed path r : s.(sv_store) = true → path ∈ keyed_paths → r.(h_req).(rq_Method) = "POST" →
  ∃ next, served path r = withAppKeyTracking s next r ∧
    ∀ r', tspec (next r') (λ _ es _, calls_allowed r'.(h_scopes) es).
Proof using Type.
  intros Hs Hp Hm. unfold served, ServeHTTP. rewrite Hs, Hm.
  apply elem_of_cons in Hp as [-> |Hp]; [|apply elem_of_cons in Hp as [-> |Hp]; [|apply list_elem_of_singleton in Hp as ->]].
  all: eexists; split; [reflexivity|]; intros r'.
  - eapply tspec_weaken; [apply handleChat_run|]. by intros b es js [].
  - eapply tspec_weaken; [apply handleEmbeddings_run|]. by intros b es js [].
  - apply handleMessages_run.
Qed.

(** What a keyed endpoint dispatches. *)
Definition dispatched (path : list string) (r : HReq) : TM Ext C (option request) :=
  if decide (path = ["v1"; "embeddings"]) then dispatched_embeddings s r
  else if decide (path = ["v1"; "messages"]) then dispatched_messages s r
  else dispatched_chat can_flush s r.

Lemma served_tied path r : s.(sv_store) = true → path ∈ keyed_paths → r.(h_req).(rq_Method) = "POST" →
  ∃ next, served path r = withAppKeyTracking s next r ∧
    ∀ r', tied r'.(h_scopes) (next r') (dispatched path r').
Proof using Type.
  intros Hs Hp Hm. unfold served, ServeHTTP, dispatched. rewrite Hs, Hm.
  apply elem_of_cons in Hp as [-> |Hp]; [|apply elem_of_cons in Hp as [-> |Hp]; [|apply list_elem_of_singleton in Hp as ->]].
  all: eexists; split; [reflexivity|]; intros r'; cbn [decide_rel].
  - apply handleChat_tied.
  - apply handleEmbeddings_tied.
  - apply handleMessages_tied.
Qed.

(** C9. A key's scopes hold end to end: whatever the hooks and providers do, a chat,
    stream, embeddings or messages request that presents a known key makes no call,
    or calls only providers that the key's record allows, and the record allows the
    model that the dispatched request names, that is the model read from the body
    that this run of the handler hands to the engine: for chats and embeddings the
    body as the pre-hooks left it, for messages the body as it came. *)
Theorem key_scopes_end_to_end path r t a t' record :
  s.(sv_store) = true → path ∈ keyed_paths → r.(h_req).(rq_Method) = "POST" → incoming r →
  presented s r ≠ "" → recs t.(t_keys) !! presented s r = Some record →
  served path r t = Ret (a, t') →
  ∃ es, t'.(t_env).(events) = t.(t_env).(events) ++ es ∧
    (call_names es = [] ∨
     ∃ w rq t1, recs w = recs t.(t_keys) ∧
       dispatched path (mkHReq r.(h_req) r.(h_body) (Some (presented s r)) record.(scopes))
         (mkT t.(t_env) w t.(t_jobs)) = Ret (Some rq, t1) ∧
       ∀ n, n ∈ call_names es → IsProviderAllowed record.(scopes) n = true ∧
         IsModelAllowed record.(scopes) (request_fields rq).(f_Model) = true).
Proof using Type.
  intros Hs Hp Hm Hr Hne Hk Hrun. destruct (served_tied path r Hs Hp Hm) as (next & E & Hnext). rewrite E in Hrun.
  apply (tracking_run s next r t a t' Hr) in Hrun. destruct (admitted s r t).
  - destruct Hrun as (w & Hw & Hrun). destruct (Hnext _ _ _ _ Hrun) as (o & t1 & es & Hd & He & Hin).
    exists es. split; [exact He|]. destruct o as [rq|]; [right|by left]. exists w, rq, t1. split; [done|].
    unfold stamped in Hd, Hin. rewrite decide_False, Hk in Hd, Hin by done. by split.
  - destruct Hrun as (_ & -> & _). exists []. rewrite app_nil_r. split; [done|by left].
Qed.

(** C18. A revoked or expired key opens nothing: a request that presents one on any of
    the keyed endpoints is answered 401, and no hook, no provider, no cache and no
    counter is touched; where keys are required, so is a request without one
    answered 400. *)
Theorem inactive_key_rejected path r t :
  s.(sv_store) = true → path ∈ keyed_paths → r.(h_req).(rq_Method) = "POST" →
  (∀ record, presented s r ≠ "" → IsValid (presented s r) = true →
     recs t.(t_keys) !! presented s r = Some record →
     status_at (t.(t_keys).(clock) 0%nat) record ≠ StActive →
     ∃ msg w, recs w = recs t.(t_keys) ∧
       served path r t = Ret (AReply (writeError 401 msg), mkT t.(t_env) w t.(t_jobs))) ∧
  (presented s r = "" → s.(sv_conf).(appKeyRequire) = true →
     ∃ msg, served path r t = Ret (AReply (writeError 400 msg), t)).
Proof using Type.
  intros Hs Hp Hm. destruct (served_keyed path r Hs Hp Hm) as (next & E & _). split.
  - intros record Hne Hv Hk Hst. destruct (tracking_inactive s r t record Hne Hv Hk Hst) as (msg & w & Hw & Hgo).
    exists msg, w. split; [done|]. by rewrite E, Hgo.
  - intros He Hq. eexists. rewrite E. unfold withAppKeyTracking. fold (presented s r).
    destruct (decide (presented s r = "")) as [_|?]; [|done]. rewrite Hq. reflexivity.
Qed.

(** C19. The Messages endpoint relays and accounts.  A request that the middleware
    refuses gets its 400 or 401 and starts nothing.  For any other, take what the
    upstream answered in this run.  If there is no answer to relay, since the body, a
    hook or the dispatch failed, the gateway answers itself and no usage record is
    started.  Otherwise the client gets that answer's status; of a stream the bytes
    that the client gets are the upstream's, all of them if the plugins' writers take
    everything, and a request with a key starts exactly one record, with the token
    counts of those bytes; of another answer the client gets the body up to the cap,
    and a request with a key starts exactly one record with the counts in it; an
    answer whose body cannot be read starts none. *)
Theorem messages_accounted r t a t' :
  s.(sv_store) = true → r.(h_req).(rq_Method) = "POST" → incoming r →
  served ["v1"; "messages"] r t = Ret (a, t') →
  if admitted s r t
  then ∃ w o t1 js, recs w = recs t.(t_keys) ∧
    upstream_answer s (stamped s r t) (mkT t.(t_env) w t.(t_jobs)) = Ret (o, t1) ∧
    t'.(t_jobs) = t.(t_jobs) ++ js ∧ accounts s (stamped s r t) o a js
  else (∃ code msg, a = AReply (writeError code msg) ∧ 400 <= code <= 401) ∧ t'.(t_jobs) = t.(t_jobs).
Proof using Type.
  intros Hs Hm Hr Hrun. unfold served, ServeHTTP in Hrun. rewrite Hs, Hm in Hrun.
  change (route true metrics "POST" ["v1"; "messages"]) with (inr EpMessages : Z + endpoint) in Hrun. cbn iota in Hrun.
  apply (tracking_run s _ r t a t' Hr) in Hrun. destruct (admitted s r t); [|by destruct Hrun as (? & _ & ? & _)].
  destruct Hrun as (w & Hw & Hrun). destruct (handleMessages_follows _ _ _ _ _ Hrun) as (o & t1 & js & ? & ? & ?).
  by exists w, o, t1, js.
Qed.

(** The raw passthrough is not behind the keys: whatever a request presents, and
    also when keys are required, it is served. *)
Theorem native_without_key provider seg more r :
  served ("native" :: provider :: seg :: more) r =
  handleNativePassthrough can_flush can_deadline s r provider (Join (seg :: more) "/").
Proof using Type. reflexivity. Qed.
End served.

(** ** Passthrough *)

(** The passthrough never forwards more than the cap: two requests that agree in
    their heads and in the first [maxBodyBytes] bytes of bodies that are longer
    than that have the same effects and the same answer. *)
Theorem passthrough_capped s r1 r2 provider path :
  0 <= s.(sv_conf).(maxBodyBytes) →
  (s.(sv_conf).(maxBodyBytes) < Z.of_nat (String.length r1.(h_body).(b_data))) →
  (s.(sv_conf).(maxBodyBytes) < Z.of_nat (String.length r2.(h_body).(b_data))) →
  str_take (Z.to_nat s.(sv_conf).(maxBodyBytes)) r1.(h_body).(b_data) =
    str_take (Z.to_nat s.(sv_conf).(maxBodyBytes)) r2.(h_body).(b_data) →
  r1.(h_req) = r2.(h_req) → r1.(h_key) = r2.(h_key) → r1.(h_scopes) = r2.(h_scopes) →
  handleNativePassthrough (C := C) can_flush can_deadline s r1 provider path =
  handleNativePassthrough can_flush can_deadline s r2 provider path.
Proof using Type.
  intros H0' H1 H2 Ht Hq Hk Hsc. unfold handleNativePassthrough, new_context, emitTrace, forwarded_headers, FromContext.
  assert (limitBody (sv_conf s) (h_body r1) = limitBody (sv_conf s) (h_body r2)) as ->.
  { unfold limitBody, MaxBytesReader. rewrite (proj2 (Z.ltb_lt _ _) H1), (proj2 (Z.ltb_lt _ _) H2).
    rewrite (proj2 (Z.ltb_ge _ _) H0'). by rewrite Ht. }
  by rewrite Hq, Hk, Hsc.
Qed.
End native.

(** ** Examples *)

#[local] Existing Instance literal_strconv.

Definition demo_sink (_ : positive) (_ : string) : ST nat bool := λ n, (true, n).

Definition demo_served : list string → HReq → TM nat Memory answer :=
  served (C := Memory) saturate demo_next demo_sink true true 9 demo_server false (λ _ _, handleHealthz).

Definition messages_path : list string := ["v1"; "messages"].

Definition b_messages : outcome (answer * TState nat Memory) :=
  demo_served messages_path (demo_request key_b "{'model':'m'}") demo_state.

(** The run of key b: it streams the provider's bytes and starts one record. *)
Definition b_check : bool :=
  match b_messages with
  | Ret (AStream c _ outs true, t') =>
    (c =? 200) && bool_decide (written outs = Join demo_events_body.(rb_reads) "") &&
    bool_decide (call_names t'.(t_env).(events) = ["b"])
  | _ => false
  end.

Lemma b_checked : b_check = true.
Proof. vm_compute. reflexivity. Qed.

Lemma b_messages_run : ∃ h outs t', b_messages = Ret (AStream 200 h outs true, t') ∧
  written outs = Join demo_events_body.(rb_reads) "" ∧ call_names t'.(t_env).(events) = ["b"].
Proof.
  pose proof b_checked as Hc. unfold b_check in Hc.
  destruct b_messages as [[[|c h outs []] t']|] eqn:E; try discriminate Hc.
  apply andb_prop in Hc as [[->%Z.eqb_eq Hw%bool_decide_eq_true]%andb_prop Hn%bool_decide_eq_true].
  exists h, outs, t'. split; [reflexivity|]. split; [exact Hw|exact Hn].
Qed.

(** What it dispatches names the model m. *)
Lemma b_dispatched w : ∃ rq t1, dispatched (C := Memory) true demo_server messages_path
    (mkHReq (h_req (demo_request key_b "{'model':'m'}")) (h_body (demo_request key_b "{'model':'m'}"))
       (Some key_b) (Some (mkScopes ["m"] ["b"]))) (mkT demo_env w []) = Ret (Some rq, t1) ∧
  (request_fields rq).(f_Model) = "m".
Proof. eexists _, _. split; [reflexivity|]. vm_compute. reflexivity. Qed.

Lemma key_scopes_end_to_end_witness :
  ∃ a t' es, b_messages = Ret (a, t') ∧ events (t_env t') = [] ++ es ∧ call_names es = ["b"] ∧
    IsProviderAllowed (Some (mkScopes ["m"] ["b"])) "b" = true ∧
    IsModelAllowed (Some (mkScopes ["m"] ["b"])) "m" = true.
Proof.
  destruct b_messages_run as (h & outs & t' & Hr & _ & Hn).
  assert (scopes <$> recs demo_world !! key_b = Some (Some (mkScopes ["m"] ["b"]))) as E by (vm_compute; reflexivity).
  apply fmap_Some in E as (rec & E & Hsc).
  destruct (key_scopes_end_to_end saturate demo_next demo_sink true true 9 demo_server false (λ _ _, handleHealthz)
    messages_path (demo_request key_b "{'model':'m'}") demo_state (AStream 200 h outs true) t' rec) as (es & He & Hc);
    [reflexivity|by right; right; left|reflexivity|split; reflexivity|discriminate|exact E|exact Hr|].
  assert (call_names es = ["b"]) as Hes by (rewrite <-Hn, He; reflexivity).
  exists (AStream 200 h outs true), t', es. split; [exact Hr|]. split; [exact He|]. split; [exact Hes|].
  destruct Hc as [Hc|(w & rq & t1 & _ & Hd & Hc)]; [by rewrite Hc in Hes|].
  rewrite <-Hsc in Hd, Hc. destruct (b_dispatched w) as (rq' & t1' & Hd' & Hm).
  pose proof (eq_trans (eq_sym Hd) Hd') as Hrq. injection Hrq as -> ->. rewrite Hm in Hc. apply Hc. rewrite Hes. by left.
Defined.

Lemma inactive_key_rejected_witness :
  ∃ msg w, recs w = recs demo_world ∧
    demo_served messages_path (demo_request key_a "{'model':'m'}") demo_state
      = Ret (AReply (writeError 401 msg), mkT demo_env w []).
Proof.
  destruct (recs demo_world !! key_a) as [rec|] eqn:E; [|by vm_compute in E].
  refine (proj1 (inactive_key_rejected saturate demo_next demo_sink true true 9 demo_server false (λ _ _, handleHealthz)
    messages_path (demo_request key_a "{'model':'m'}") demo_state _ _ _) rec _ _ E _);
    [reflexivity|by right; right; left|reflexivity|discriminate|reflexivity|].
  unfold status_at. destruct (Z.eqb_spec (RevokedAt rec) 0) as [H0|_]; [|discriminate].
  apply (f_equal (fmap RevokedAt)) in E. cbn in E. rewrite H0 in E. by vm_compute in E.
Defined.

Definition b_answer : HTTPResponse :=
  mkHTTPResponse 200 {[ "Content-Type" := ["text/event-stream"] ]} demo_events_body.

(** In the run of key b the upstream answers with the provider's stream. *)
Lemma b_upstream w : ∃ t1, upstream_answer (C := Memory) saturate demo_server
    (mkHReq (h_req (demo_request key_b "{'model':'m'}")) (h_body (demo_request key_b "{'model':'m'}"))
       (Some key_b) (Some (mkScopes ["m"] ["b"]))) (mkT demo_env w []) = Ret (Some b_answer, t1).
Proof. eexists. vm_compute. reflexivity. Qed.

Lemma messages_accounted_witness :
  ∃ h outs t' js, b_messages = Ret (AStream 200 h outs true, t') ∧ t_jobs t' = [] ++ js ∧
    written outs = Join demo_events_body.(rb_reads) "" ∧
    ∃ model, usage_jobs js = [JUsage key_b model true 3 0].
Proof.
  destruct b_messages_run as (h & outs & t' & Hr & Hw & _).
  pose proof Hr as Hr'. unfold b_messages, demo_served, messages_path in Hr'.
  pose proof (messages_accounted saturate demo_next demo_sink true true 9 demo_server false (λ _ _, handleHealthz)
    (demo_request key_b "{'model':'m'}") demo_state (AStream 200 h outs true) t' eq_refl eq_refl
    (conj eq_refl eq_refl) Hr') as Hm.
  assert (admitted demo_server (demo_request key_b "{'model':'m'}") demo_state = true) as Ha by (vm_compute; reflexivity).
  assert (stamped demo_server (demo_request key_b "{'model':'m'}") demo_state =
    mkHReq (h_req (demo_request key_b "{'model':'m'}")) (h_body (demo_request key_b "{'model':'m'}"))
       (Some key_b) (Some (mkScopes ["m"] ["b"]))) as Hst by (vm_compute; reflexivity).
  rewrite Ha, Hst in Hm. destruct Hm as (w & o & t1 & js & _ & Hu & Hj & Hacc).
  destruct (b_upstream w) as (t1' & Hu'). pose proof (eq_trans (eq_sym Hu) Hu') as Ho. injection Ho as -> ->.
  exists h, outs, t', js. split; [exact Hr|]. split; [exact Hj|]. split; [exact Hw|].
  destruct Hacc as (h' & outs' & [= <- <-] & _ & Husage). rewrite Hw in Husage.
  destruct Husage as (key & model & [= <-] & Hus). exists model. rewrite Hus. vm_compute. reflexivity.
Defined.

Lemma passthrough_capped_witness :
  let s := mkHServer (mkServerConf "" false 0 3 30) (demo_engine true 0 [2; 3]) None false in
  handleNativePassthrough (C := Memory) true true s (demo_request "" "abcd") "a" "x" =
  handleNativePassthrough true true s (demo_request "" "abcefg") "a" "x".
Proof. apply passthrough_capped; try reflexivity; cbn; lia. Defined.
