(* ===== verification/Upstream.v ===== *)
(** * Provider adapters (internal/provider/anthropic/anthropic.go,
    internal/provider/openaicompat/openaicompat.go,
    internal/provider/gemini/gemini.go and the preset packages)

    Each adapter is a [Provider] of the engine, built on an HTTP client.  The
    client, the validation of URLs by [http.NewRequest] and the clock are a
    parameter, class [Net].  Streams are objects in a heap, so that a handle that
    [Next] is called on repeatedly keeps its position.

    A buffered reader is the lines still to be read: the adapters only read up to
    a newline. *)
From stdpp Require Import pretty.
From S2P Require Import Prelude GoStd Json GoUrl JsonScan Config Scrub Store Usage CacheKey Plugin Engine.
From S2P Require Import OpenAIFormat Anthropic Gemini Transport.

(** ** The HTTP client *)

Record HTTPRequest := mkHTTPRequest {
  hq_Method : string;
  hq_URL : string;        (* up to the query *)
  hq_RawQuery : string;
  hq_Header : Header;
  hq_Body : ReqBody
}.

Class Net (N : Type) := {
  Do : HTTPRequest → ST N (gerror + HTTPResponse);
  Unix : ST N Z;
  UnixNano : ST N Z;
  request_error : string → string → option gerror   (* a bad method or URL *)
}.

(** [http.NewRequestWithContext] *)
Definition NewRequest {N} `{Net N} (method url : string) (body : ReqBody) : gerror + HTTPRequest :=
  match request_error method url with
  | Some err => inl err
  | None => inr (mkHTTPRequest method (cut_query url).1 (cut_query url).2 ∅ body)
  end.

Definition set_header (k v : string) (q : HTTPRequest) : HTTPRequest :=
  mkHTTPRequest q.(hq_Method) q.(hq_URL) q.(hq_RawQuery) (hdr_set q.(hq_Header) k v) q.(hq_Body).
Definition add_all (h : Header) (q : HTTPRequest) : HTTPRequest :=
  mkHTTPRequest q.(hq_Method) q.(hq_URL) q.(hq_RawQuery) (add_headers [] (Some h) q.(hq_Header)) q.(hq_Body).

(** [io.ReadAll(resp.Body)] *)
Definition body_text (b : RespBody) : string := String.concat "" b.(rb_reads).
Definition ReadAll (b : RespBody) : gerror + string :=
  match b.(rb_err) with Some err => inl err | None => inr (body_text b) end.

(** [bytes.NewReader(body)] *)
Definition bytes_reader (s : string) : ReqBody := (s, REof).

(** [strings.TrimRight(s, "/")] *)
Fixpoint trim_slashes (s : string) : string :=
  match s with
  | EmptyString => ""
  | String c r =>
    match trim_slashes r with
    | EmptyString => if ascii_dec c "/" then "" else String c ""
    | t => String c t
    end
  end.

(** ** Readers of lines *)

Record reader := mkReader {
  rd_lines : list string;       (* complete lines, with their newline *)
  rd_tail : string;             (* what follows the last newline *)
  rd_err : option gerror        (* how the body ends; None: io.EOF *)
}.

Fixpoint split_lines (s : string) : list string * string :=
  match s with
  | EmptyString => ([], "")
  | String c r =>
    let '(ls, t) := split_lines r in
    if code c =? 10 then (String c "" :: ls, t)
    else match ls with
         | [] => ([], String c t)
         | l :: ls' => (String c l :: ls', t)
         end
  end.

(** [bufio.NewReaderSize(resp.Body, 4096)] *)
Definition NewReader (b : RespBody) : reader :=
  let '(ls, t) := split_lines (body_text b) in mkReader ls t b.(rb_err).

(** [reader.ReadString('\n')]: the text, and the error that came with it. *)
Inductive read_status := RdOk | RdEOF | RdErr (e : gerror).

Definition ReadLine (r : reader) : string * read_status * reader :=
  match r.(rd_lines) with
  | l :: ls => (l, RdOk, mkReader ls r.(rd_tail) r.(rd_err))
  | [] => (r.(rd_tail), from_option RdErr RdEOF r.(rd_err), mkReader [] "" r.(rd_err))
  end.

(** The lines a reader can still give, for the bounds of loops. *)
Definition rd_size (r : reader) : nat :=
  length r.(rd_lines) + (if decide (r.(rd_tail) = "") then 0 else 1).

(** ** openaicompat: streams *)

(** One line: an answer, or nothing to relay. *)
Definition sse_line (line : string) : option next_result :=
  let line := TrimSpace line in
  if decide (line = "") then None
  else if HasPrefix line "data: " then
    if decide (str_drop 6 line = "[DONE]") then Some NEof else Some (NChunk (Some line))
  else if Contains line ":" then Some (NChunk (Some line))
  else None.

Fixpoint sse_Next (fuel : nat) (r : reader) : next_result * reader :=
  match fuel with
  | O => (NErr (GPlain "out of fuel"), r)
  | S fuel' =>
    let '(line, st, r') := ReadLine r in
    match st with
    | RdErr e => (NErr e, r')
    | RdEOF =>
      if decide (line = "") then (NEof, r')
      else match sse_line line with Some n => (n, r') | None => sse_Next fuel' r' end
    | RdOk => match sse_line line with Some n => (n, r') | None => sse_Next fuel' r' end
    end
  end.

(** ** anthropic: streams *)

(** What [readEvent] returns: an event, the end, or an error. *)
Inductive event_result :=
| EvEvent (eventType data : string)
| EvEOF
| EvErr (e : gerror).

Definition event_line (line eventType data : string) : string * string :=
  if HasPrefix line "event: " then (str_drop 7 line, data)
  else if HasPrefix line "data: " then (eventType, str_drop 6 line)
  else (eventType, data).

Definition both_set (eventType data : string) : bool :=
  negb (is_empty eventType) && negb (is_empty data).

Fixpoint readEvent (fuel : nat) (r : reader) (eventType data : string) : event_result * reader :=
  match fuel with
  | O => (EvErr (GPlain "out of fuel"), r)
  | S fuel' =>
    let '(line, st, r') := ReadLine r in
    match st with
    | RdErr e => (EvErr e, r')
    | _ =>
      let eof := match st with RdEOF => true | _ => false end in
      let line := TrimSpace line in
      if decide (line = "") then
        if both_set eventType data then (EvEvent eventType data, r')
        else if eof then (EvEOF, r') else readEvent fuel' r' eventType data
      else
        let '(eventType, data) := event_line line eventType data in
        if eof then (if both_set eventType data then (EvEvent eventType data, r') else (EvEOF, r'))
        else readEvent fuel' r' eventType data
    end
  end.

(** The streams of the adapters, in a heap. *)
Inductive stream :=
| SseStream (r : reader)
| AnthropicStream (r : reader) (state : Anthropic.streamState)
| GeminiStream (r : reader) (state : Gemini.streamState).

Record Up (N : Type) := mkUp {
  up_net : N;
  up_streams : gmap positive stream
}.
Arguments mkUp {N} _ _.
Arguments up_net {N} _.
Arguments up_streams {N} _.

Section adapters.
Context {N : Type} `{Net N} `{Strconv}.

Definition net_run {A} (m : ST N A) : ST (Up N) A := λ u,
  let '(a, n) := m u.(up_net) in (a, mkUp n u.(up_streams)).

Definition new_stream (s : stream) : ST (Up N) positive := λ u,
  let p := fresh (dom u.(up_streams) : gset positive) in
  (p, mkUp u.(up_net) (<[p := s]> u.(up_streams))).

(** The loop of [anthropicStream.Next]: events are read until one gives data. *)
Fixpoint anthropic_Next (fuel : nat) (r : reader) (state : Anthropic.streamState)
  : ST N (next_result * reader * Anthropic.streamState) :=
  match fuel with
  | O => mret (NErr (GPlain "out of fuel"), r, state)
  | S fuel' =>
    match readEvent (S (rd_size r)) r "" "" with
    | (EvErr e, r') => mret (NErr e, r', state)
    | (EvEOF, r') => mret (NEof, r', state)
    | (EvEvent eventType data, r') =>
      now ← Unix;
      match translateStreamEvent now eventType data state with
      | (inl e, state') => mret (NErr e, r', state')
      | (inr (_, true), state') => mret (NEof, r', state')
      | (inr (None, false), state') => anthropic_Next fuel' r' state'
      | (inr (Some translated, false), state') =>
        mret (NChunk (Some ("data: " +:+ translated)), r', state')
      end
    end
  end.

(** ** gemini: streams *)

Fixpoint gemini_Next (fuel : nat) (r : reader) (state : Gemini.streamState)
  : ST N (next_result * reader) :=
  match fuel with
  | O => mret (NErr (GPlain "out of fuel"), r)
  | S fuel' =>
    let '(line, st, r') := ReadLine r in
    let go :=
      let line := TrimSpace line in
      if decide (line = "") then gemini_Next fuel' r' state
      else if negb (HasPrefix line "data: ") then gemini_Next fuel' r' state
      else
        now ← Unix;
        match translateStreamChunk now (str_drop 6 line) state with
        | inl e => mret (NErr e, r')
        | inr (None, _) => gemini_Next fuel' r' state
        | inr (Some translated, _) => mret (NChunk (Some ("data: " +:+ translated)), r')
        end in
    match st with
    | RdErr e => mret (NErr e, r')
    | RdEOF => if decide (line = "") then mret (NEof, r') else go
    | RdOk => go
    end
  end.

(** [stream.Next()] on a handle. *)
Definition Next (p : positive) : ST (Up N) next_result := λ u,
  match u.(up_streams) !! p with
  | None => (NEof, u)
  | Some (SseStream r) =>
    let '(n, r') := sse_Next (S (rd_size r)) r in
    (n, mkUp u.(up_net) (<[p := SseStream r']> u.(up_streams)))
  | Some (AnthropicStream r state) =>
    let '(n, r', state', net) := anthropic_Next (S (rd_size r)) r state u.(up_net) in
    (n, mkUp net (<[p := AnthropicStream r' state']> u.(up_streams)))
  | Some (GeminiStream r state) =>
    let '(n, r', net) := gemini_Next (S (rd_size r)) r state u.(up_net) in
    (n, mkUp net (<[p := GeminiStream r' state]> u.(up_streams)))
  end.

(** ** anthropic *)

Definition anthropic_defaultBaseURL : string := "https://api.anthropic.com/v1".
Definition anthropicVersion : string := "2023-06-01".

(** [New]: the provider is its base URL. *)
Definition anthropic_New (baseURL : string) : string :=
  trim_slashes (if decide (baseURL = "") then anthropic_defaultBaseURL else baseURL).

Definition anthropic_SupportsOperation (op : Operation) : bool :=
  match op with OpChatCompletion | OpChatCompletionStream | OpPassthrough => true | _ => false end.

Definition anthropic_SetAuthHeader (headers : Header) (apiKey : string) : Header :=
  hdr_set headers "x-api-key" apiKey.

Record anthropicError := mkAnthropicError {
  ae_Type : string;
  ae_ErrorType : string;
  ae_Message : string
}.

Definition dec_anthropicError : dec anthropicError :=
  dec_struct
    [("type", field ae_Type (λ v e, mkAnthropicError v e.(ae_ErrorType) e.(ae_Message)) dec_string);
     ("error", dec_struct
        [("type", field ae_ErrorType (λ v e, mkAnthropicError e.(ae_Type) v e.(ae_Message)) dec_string);
         ("message", field ae_Message (λ v e, mkAnthropicError e.(ae_Type) e.(ae_ErrorType) v) dec_string)])].

Definition anthropic_extractErrorMessage (body : string) : string :=
  match Unmarshal dec_anthropicError body (mkAnthropicError "" "" "") with
  | (e, true) => if decide (e.(ae_Message) = "") then body else e.(ae_Message)
  | (_, false) => body
  end.

Definition anthropic_buildRequest (baseURL body apiKey : string) : gerror + HTTPRequest :=
  match NewRequest "POST" (baseURL +:+ "/messages") (bytes_reader body) with
  | inl err => inl (GWrap "building request" err)
  | inr req =>
    let req := set_header "anthropic-version" anthropicVersion
                 (set_header "Content-Type" "application/json" req) in
    inr (if decide (apiKey = "") then req else set_header "x-api-key" apiKey req)
  end.

Definition anthropic_ChatCompletion (baseURL : string) (_ : Ctx) (req : ChatRequest)
  : ST (Up N) (gerror + ChatResponse) :=
  match Anthropic.translateRequest req.(cq_RawBody) with
  | inl err => mret (inl (GWrap "translating request" err))
  | inr body =>
    match anthropic_buildRequest baseURL body req.(cq_APIKey) with
    | inl err => mret (inl err)
    | inr httpReq =>
      r ← net_run (Do httpReq);
      match r with
      | inl err => mret (inl (GWrap "anthropic request failed" err))
      | inr resp =>
        match ReadAll resp.(hr_Body) with
        | inl err => mret (inl (GWrap "reading response" err))
        | inr respBody =>
          if 400 <=? resp.(hr_StatusCode) then
            mret (inl (GProvider resp.(hr_StatusCode) (anthropic_extractErrorMessage respBody)))
          else
            now ← net_run Unix;
            match Anthropic.translateResponse now (Some respBody) with
            | inl err => mret (inl (GWrap "translating response" err))
            | inr translated =>
              mret (inr (mkChatResponse (Some translated) resp.(hr_StatusCode) (Some resp.(hr_Header))))
            end
        end
      end
    end
  end.

Definition anthropic_ChatCompletionStream (baseURL : string) (_ : Ctx) (req : ChatRequest)
  : ST (Up N) (gerror + positive) :=
  match Anthropic.translateRequest req.(cq_RawBody) with
  | inl err => mret (inl (GWrap "translating request" err))
  | inr body =>
    match anthropic_buildRequest baseURL body req.(cq_APIKey) with
    | inl err => mret (inl err)
    | inr httpReq =>
      r ← net_run (Do httpReq);
      match r with
      | inl err => mret (inl (GWrap "anthropic stream request failed" err))
      | inr resp =>
        if negb (resp.(hr_StatusCode) =? 200) then
          mret (inl (GProvider resp.(hr_StatusCode) (anthropic_extractErrorMessage (body_text resp.(hr_Body)))))
        else
          p ← new_stream (AnthropicStream (NewReader resp.(hr_Body)) (Anthropic.mkStreamState "" ""));
          mret (inr p)
      end
    end
  end.

Definition anthropic_HandleAnthropicNative (baseURL : string) (_ : Ctx) (body : slice) (headers : Header)
  : ST (Up N) (gerror + HTTPResponse) :=
  match NewRequest "POST" (baseURL +:+ "/messages") (bytes_reader (bytes_of body)) with
  | inl err => mret (inl err)
  | inr req =>
    r ← net_run (Do (add_all headers req));
    match r with
    | inl err => mret (inl err)
    | inr resp =>
      if 400 <=? resp.(hr_StatusCode) then
        mret (inl (GProvider resp.(hr_StatusCode) (body_text resp.(hr_Body))))
      else mret (inr resp)
    end
  end.

(** The same in both adapters without query parameters. *)
Definition plain_Passthrough (baseURL method path : string) (body : ReqBody) (headers : Header)
  : ST (Up N) (gerror + HTTPResponse) :=
  match NewRequest method (baseURL +:+ path) body with
  | inl err => mret (inl err)
  | inr req => net_run (Do (add_all headers req))
  end.

Definition anthropic_Passthrough (baseURL : string) (_ : Ctx) (method path : string) (body : ReqBody)
    (headers : Header) : ST (Up N) (gerror + HTTPResponse) :=
  plain_Passthrough baseURL method path body headers.

Definition anthropic_Provider (baseURL : string) : Provider (Up N) positive :=
  mkProvider "anthropic" (anthropic_ChatCompletion baseURL) (anthropic_ChatCompletionStream baseURL)
    (anthropic_Passthrough baseURL) anthropic_SupportsOperation None (Some anthropic_SetAuthHeader)
    (Some (anthropic_HandleAnthropicNative baseURL)).

(** ** openaicompat *)

Record OpenAICompat := mkOpenAICompat {
  oa_name : string;
  oa_baseURL : string;
  oa_authHeaderName : string;
  oa_queryParams : gmap string string
}.

(** [New] with its options applied. *)
Definition openaicompat_New (name baseURL authHeaderName : string) (queryParams : gmap string string)
  : OpenAICompat := mkOpenAICompat name (trim_slashes baseURL) authHeaderName queryParams.

Definition openaicompat_SupportsOperation (op : Operation) : bool := true.

Definition openaicompat_SetAuthHeader (o : OpenAICompat) (headers : Header) (apiKey : string) : Header :=
  if decide (o.(oa_authHeaderName) = "") then hdr_set headers "Authorization" ("Bearer " +:+ apiKey)
  else hdr_set headers o.(oa_authHeaderName) apiKey.

(** The configured parameters, set over those of the URL. *)
Definition set_params (params : gmap string string) (q : Values) : Values :=
  map_fold (λ k v m, values_set m k v) q params.

Definition with_query (params : gmap string string) (req : HTTPRequest) : HTTPRequest :=
  if decide (params = ∅) then req
  else mkHTTPRequest req.(hq_Method) req.(hq_URL) (Encode (set_params params (ParseQuery req.(hq_RawQuery))))
         req.(hq_Header) req.(hq_Body).

Definition openaicompat_buildRequest (o : OpenAICompat) (method path body apiKey : string)
  : gerror + HTTPRequest :=
  match NewRequest method (o.(oa_baseURL) +:+ path) (bytes_reader body) with
  | inl err => inl (GWrap "building request" err)
  | inr req =>
    let req := set_header "Content-Type" "application/json" req in
    let req :=
      if decide (apiKey = "") then req
      else if decide (o.(oa_authHeaderName) = "") then set_header "Authorization" ("Bearer " +:+ apiKey) req
      else set_header o.(oa_authHeaderName) apiKey req in
    inr (with_query o.(oa_queryParams) req)
  end.

(** [Embeddings] and [ChatCompletion] differ in the path and in the texts. *)
Definition openaicompat_call (o : OpenAICompat) (path failed reading : string) (rawBody : slice)
    (apiKey : string) : ST (Up N) (gerror + ChatResponse) :=
  match openaicompat_buildRequest o "POST" path (bytes_of rawBody) apiKey with
  | inl err => mret (inl err)
  | inr httpReq =>
    r ← net_run (Do httpReq);
    match r with
    | inl err => mret (inl (GWrap (o.(oa_name) +:+ failed) err))
    | inr resp =>
      match ReadAll resp.(hr_Body) with
      | inl err => mret (inl (GWrap reading err))
      | inr body =>
        if 400 <=? resp.(hr_StatusCode) then mret (inl (GProvider resp.(hr_StatusCode) body))
        else mret (inr (mkChatResponse (Some body) resp.(hr_StatusCode) (Some resp.(hr_Header))))
      end
    end
  end.

Definition openaicompat_Embeddings (o : OpenAICompat) (_ : Ctx) (req : EmbeddingRequest)
  : ST (Up N) (gerror + ChatResponse) :=
  openaicompat_call o "/embeddings" " embeddings request failed" "reading embeddings response"
    req.(eq_RawBody) req.(eq_APIKey).

Definition openaicompat_ChatCompletion (o : OpenAICompat) (_ : Ctx) (req : ChatRequest)
  : ST (Up N) (gerror + ChatResponse) :=
  openaicompat_call o "/chat/completions" " request failed" "reading response"
    req.(cq_RawBody) req.(cq_APIKey).

Definition openaicompat_ChatCompletionStream (o : OpenAICompat) (_ : Ctx) (req : ChatRequest)
  : ST (Up N) (gerror + positive) :=
  match openaicompat_buildRequest o "POST" "/chat/completions" (bytes_of req.(cq_RawBody)) req.(cq_APIKey) with
  | inl err => mret (inl err)
  | inr httpReq =>
    r ← net_run (Do httpReq);
    match r with
    | inl err => mret (inl (GWrap (o.(oa_name) +:+ " stream request failed") err))
    | inr resp =>
      if negb (resp.(hr_StatusCode) =? 200) then
        mret (inl (GProvider resp.(hr_StatusCode) (body_text resp.(hr_Body))))
      else p ← new_stream (SseStream (NewReader resp.(hr_Body))); mret (inr p)
    end
  end.

Definition openaicompat_Passthrough (o : OpenAICompat) (_ : Ctx) (method path : string) (body : ReqBody)
    (headers : Header) : ST (Up N) (gerror + HTTPResponse) :=
  match NewRequest method (o.(oa_baseURL) +:+ path) body with
  | inl err => mret (inl err)
  | inr req => net_run (Do (with_query o.(oa_queryParams) (add_all headers req)))
  end.

Definition openaicompat_Provider (o : OpenAICompat) : Provider (Up N) positive :=
  mkProvider o.(oa_name) (openaicompat_ChatCompletion o) (openaicompat_ChatCompletionStream o)
    (openaicompat_Passthrough o) openaicompat_SupportsOperation (Some (openaicompat_Embeddings o))
    (Some (openaicompat_SetAuthHeader o)) None.

(** ** The presets *)

Definition preset (name default_url baseURL : string) : OpenAICompat :=
  openaicompat_New name (if decide (baseURL = "") then default_url else baseURL) "" ∅.

Definition openai_New : string → OpenAICompat := preset "openai" "https://api.openai.com/v1".
Definition openrouter_New : string → OpenAICompat := preset "openrouter" "https://openrouter.ai/api/v1".
Definition groq_New : string → OpenAICompat := preset "groq" "https://api.groq.com/openai/v1".
Definition mistral_New : string → OpenAICompat := preset "mistral" "https://api.mistral.ai/v1".
Definition together_New : string → OpenAICompat := preset "together" "https://api.together.xyz/v1".
Definition fireworks_New : string → OpenAICompat := preset "fireworks" "https://api.fireworks.ai/inference/v1".
Definition perplexity_New : string → OpenAICompat := preset "perplexity" "https://api.perplexity.ai".
Definition azureopenai_New (name baseURL apiVersion : string) : OpenAICompat :=
  openaicompat_New name baseURL "api-key" {[ "api-version" := apiVersion ]}.

(** ** gemini *)

Definition gemini_defaultBaseURL : string := "https://generativelanguage.googleapis.com".

Definition gemini_New (baseURL : string) : string :=
  trim_slashes (if decide (baseURL = "") then gemini_defaultBaseURL else baseURL).

Definition gemini_SupportsOperation (op : Operation) : bool :=
  match op with OpChatCompletion | OpChatCompletionStream | OpPassthrough => true | _ => false end.

Definition dec_geminiError : dec string := dec_struct [("error", dec_struct [("message", dec_string)])].

Definition gemini_extractErrorMessage (body : string) : string :=
  match Unmarshal dec_geminiError body "" with
  | (m, true) => if decide (m = "") then body else m
  | (_, false) => body
  end.

(** The URL of a call: the model is part of the path. *)
Definition gemini_url (baseURL model : string) (stream : bool) : string :=
  let action := if stream then "streamGenerateContent" else "generateContent" in
  let query := if stream then "alt=sse" else "" in
  baseURL +:+ "/v1beta/models/" +:+ model +:+ ":" +:+ action +:+
  (if decide (query = "") then "" else "?" +:+ query).

Definition gemini_buildRequest (baseURL model : string) (stream : bool) (body apiKey : string)
  : gerror + HTTPRequest :=
  match NewRequest "POST" (gemini_url baseURL model stream) (bytes_reader body) with
  | inl err => inl (GWrap "building request" err)
  | inr req =>
    let req := set_header "Content-Type" "application/json" req in
    inr (if decide (apiKey = "") then req else set_header "x-goog-api-key" apiKey req)
  end.

Definition gemini_ChatCompletion (baseURL : string) (_ : Ctx) (req : ChatRequest)
  : ST (Up N) (gerror + ChatResponse) :=
  match Gemini.translateRequest req.(cq_RawBody) with
  | inl err => mret (inl (GWrap "translating request" err))
  | inr (body, model) =>
    match gemini_buildRequest baseURL model false body req.(cq_APIKey) with
    | inl err => mret (inl err)
    | inr httpReq =>
      r ← net_run (Do httpReq);
      match r with
      | inl err => mret (inl (GWrap "gemini request failed" (GScrubbed err)))
      | inr resp =>
        match ReadAll resp.(hr_Body) with
        | inl err => mret (inl (GWrap "reading response" err))
        | inr respBody =>
          if 400 <=? resp.(hr_StatusCode) then
            mret (inl (GProvider resp.(hr_StatusCode) (gemini_extractErrorMessage respBody)))
          else
            nano ← net_run UnixNano;
            now ← net_run Unix;
            match Gemini.translateResponse nano now (Some respBody) model with
            | inl err => mret (inl (GWrap "translating response" err))
            | inr translated =>
              mret (inr (mkChatResponse (Some translated) resp.(hr_StatusCode) (Some resp.(hr_Header))))
            end
        end
      end
    end
  end.

Definition gemini_ChatCompletionStream (baseURL : string) (_ : Ctx) (req : ChatRequest)
  : ST (Up N) (gerror + positive) :=
  match Gemini.translateRequest req.(cq_RawBody) with
  | inl err => mret (inl (GWrap "translating request" err))
  | inr (body, model) =>
    match gemini_buildRequest baseURL model true body req.(cq_APIKey) with
    | inl err => mret (inl err)
    | inr httpReq =>
      r ← net_run (Do httpReq);
      match r with
      | inl err => mret (inl (GWrap "gemini stream request failed" (GScrubbed err)))
      | inr resp =>
        if negb (resp.(hr_StatusCode) =? 200) then
          mret (inl (GProvider resp.(hr_StatusCode) (gemini_extractErrorMessage (body_text resp.(hr_Body)))))
        else
          p ← new_stream (GeminiStream (NewReader resp.(hr_Body))
                            (Gemini.mkStreamState model ("chatcmpl-" +:+ model)));
          mret (inr p)
      end
    end
  end.

Definition gemini_Passthrough (baseURL : string) (_ : Ctx) (method path : string) (body : ReqBody)
    (headers : Header) : ST (Up N) (gerror + HTTPResponse) :=
  r ← plain_Passthrough baseURL method path body headers;
  mret (match r with inl err => inl (GScrubbed err) | inr resp => inr resp end).

Definition gemini_Provider (baseURL : string) : Provider (Up N) positive :=
  mkProvider "gemini" (gemini_ChatCompletion baseURL) (gemini_ChatCompletionStream baseURL)
    (gemini_Passthrough baseURL) gemini_SupportsOperation None None None.
End adapters.
