(* ===== verification/Bedrock.v ===== *)
(** * The Bedrock adapter (internal/provider/bedrock/bedrock.go) and the wiring of
    providers in cmd/butter/main.go

    Bedrock only serves the Anthropic Messages API: the body is rewritten for the
    service, and a stream of events becomes server-sent events.  The AWS client is
    a parameter, class [Aws]. *)
From stdpp Require Import pretty.
From S2P Require Import Prelude GoStd Json GoUrl JsonScan Config Scrub Store Usage CacheKey Plugin Engine.
From S2P Require Import OpenAIFormat Anthropic Gemini Transport Upstream.

(** ** The AWS client *)

(** An error of the SDK: the status of the HTTP response it wraps, if any, and its
    text. *)
Record aws_error := mkAwsError {
  aws_status : option Z;
  aws_text : string
}.

(** What arrives on the channel of events: chunks, and members of other types;
    then the channel is closed, with the error of the stream if there was one, or
    the request's context is done. *)
Inductive bedrock_event := BChunk (bytes : string) | BOther.
Inductive bedrock_end := BClosed (err : option gerror) | BDone (err : gerror).

Class Aws (N : Type) := {
  InvokeModel : string → string → ST N (aws_error + string);
  InvokeModelWithResponseStream : string → string → ST N (aws_error + list bedrock_event * bedrock_end)
}.

(** ** The provider *)

Definition defaultModelMap : gmap string string := list_to_map
  [("claude-opus-4-20250514", "anthropic.claude-opus-4-20250514-v1:0");
   ("claude-sonnet-4-20250514", "anthropic.claude-sonnet-4-20250514-v1:0");
   ("claude-3-5-sonnet-20241022", "anthropic.claude-3-5-sonnet-20241022-v2:0");
   ("claude-3-5-sonnet-20240620", "anthropic.claude-3-5-sonnet-20240620-v1:0");
   ("claude-3-5-haiku-20241022", "anthropic.claude-3-5-haiku-20241022-v1:0");
   ("claude-3-opus-20240229", "anthropic.claude-3-opus-20240229-v1:0");
   ("claude-3-sonnet-20240229", "anthropic.claude-3-sonnet-20240229-v1:0");
   ("claude-3-haiku-20240307", "anthropic.claude-3-haiku-20240307-v1:0")].

(** [New]: the model map with the overrides. *)
Definition bedrock_New (modelOverrides : gmap string string) : gmap string string :=
  modelOverrides ∪ defaultModelMap.

Definition MapModel (modelMap : gmap string string) (model : string) : string :=
  match modelMap !! model with
  | Some mapped => mapped
  | None => "anthropic." +:+ model +:+ "-v1:0"
  end.

(** The nil map of a null body may be deleted from but not assigned to. *)
Definition prepareBedrockBody (body : string) : outcome string :=
  match Unmarshal dec_rawmap body None with
  | (_, false) => Ret body
  | (raw, true) =>
    let m := delete "stream" (delete "model" (default ∅ raw)) in
    match m !! "anthropic_version" with
    | Some _ => Ret (encode_rawmap m)
    | None =>
      match raw with
      | None => Panic
      | Some _ => Ret (encode_rawmap (<["anthropic_version" := dq "'bedrock-2023-05-31'"]> m))
      end
    end
  end.

Definition errorStatusCode (err : aws_error) : Z := default 502 err.(aws_status).

Definition dec_eventType : dec string := dec_struct [("type", dec_string)].

(** The goroutine that feeds the pipe: its writes, and the error it closes the
    pipe with. *)
Definition sse_event (ty data : string) : string :=
  "event: " +:+ ty +:+ Anthropic.newline_str +:+ "data: " +:+ data +:+
  Anthropic.newline_str +:+ Anthropic.newline_str.

Fixpoint pump (events : list bedrock_event) (fin : bedrock_end) : list string * option gerror :=
  match events with
  | [] => ([], match fin with BClosed err => err | BDone err => Some err end)
  | BOther :: es => pump es fin
  | BChunk bytes :: es =>
    match Unmarshal dec_eventType bytes "" with
    | (_, false) => ([], Some (GWrap "parsing event type" (GPlain "json")))
    | (ty, true) => let '(ws, e) := pump es fin in (sse_event ty bytes :: ws, e)
    end
  end.

Section bedrock.
Context {N : Type} `{Aws N}.

Definition invoke (modelID body : string) : ST N (gerror + HTTPResponse) :=
  r ← InvokeModel modelID body;
  mret (match r with
        | inl err => inl (GProvider (errorStatusCode err) err.(aws_text))
        | inr out => inr (mkHTTPResponse 200 {[ "Content-Type" := ["application/json"] ]} (mkRespBody [out] None))
        end).

Definition invokeStream (modelID body : string) : ST N (gerror + HTTPResponse) :=
  r ← InvokeModelWithResponseStream modelID body;
  mret (match r with
        | inl err => inl (GProvider (errorStatusCode err) err.(aws_text))
        | inr (events, fin) =>
          let '(ws, e) := pump events fin in
          inr (mkHTTPResponse 200 {[ "Content-Type" := ["text/event-stream"] ]} (mkRespBody ws e))
        end).

Definition bedrock_HandleAnthropicNative (modelMap : gmap string string) (body : slice)
  : ST N (outcome (gerror + HTTPResponse)) :=
  match Unmarshal (dec_struct [dec_model; dec_stream]) (bytes_of body) (mkFields "" false "") with
  | (_, false) => mret (Ret (inl (GWrap "parsing request body" (GPlain "json"))))
  | (partial, true) =>
    let bedrockModel := MapModel modelMap partial.(f_Model) in
    match prepareBedrockBody (bytes_of body) with
    | Panic => mret Panic
    | Ret body =>
      r ← (if partial.(f_Stream) then invokeStream bedrockModel body else invoke bedrockModel body);
      mret (Ret r)
    end
  end.

(** The provider: the other operations are refused.  The panic of a null body
    stands as an error here: [bedrock_request_faithful] shows that the engine never passes
    such a body. *)
Definition bedrock_Provider (modelMap : gmap string string) : Provider (Up N) positive :=
  mkProvider "bedrock"
    (λ _ _, mret (inl (GPlain "bedrock: ChatCompletion not implemented; use HandleAnthropicNative")))
    (λ _ _, mret (inl (GPlain "bedrock: ChatCompletionStream not implemented; use HandleAnthropicNative")))
    (λ _ _ _ _ _, mret (inl (GPlain "bedrock: Passthrough not implemented; use HandleAnthropicNative")))
    (λ _, false) None None
    (Some (λ _ body _,
       o ← net_run (bedrock_HandleAnthropicNative modelMap body);
       mret (match o with Ret r => r | Panic => inl (GPlain "panic") end))).
End bedrock.

(** ** Registration (main) *)

Section register.
Context {N : Type} `{Net N} `{Aws N} `{Strconv}.

(** One configured provider: the provider to register, nothing for an unknown
    name, or the exit of the program.  [aws_ok] tells whether the AWS configuration
    loads. *)
Inductive registered := RegProvider (p : Provider (Up N) positive) | RegSkip | RegExit.

Definition register_one (aws_ok : ProviderConfig → bool) (name : string) (c : ProviderConfig) : registered :=
  if decide (name = "openrouter") then RegProvider (openaicompat_Provider (openrouter_New c.(pc_BaseURL)))
  else if decide (name = "openai") then RegProvider (openaicompat_Provider (openai_New c.(pc_BaseURL)))
  else if decide (name = "anthropic") then RegProvider (anthropic_Provider (anthropic_New c.(pc_BaseURL)))
  else if decide (name = "groq") then RegProvider (openaicompat_Provider (groq_New c.(pc_BaseURL)))
  else if decide (name = "mistral") then RegProvider (openaicompat_Provider (mistral_New c.(pc_BaseURL)))
  else if decide (name = "together") then RegProvider (openaicompat_Provider (together_New c.(pc_BaseURL)))
  else if decide (name = "fireworks") then RegProvider (openaicompat_Provider (fireworks_New c.(pc_BaseURL)))
  else if decide (name = "gemini") then RegProvider (gemini_Provider (gemini_New c.(pc_BaseURL)))
  else if decide (name = "bedrock") then
    if aws_ok c then RegProvider (bedrock_Provider (bedrock_New c.(pc_ModelMap))) else RegExit
  else if decide (name = "perplexity") then RegProvider (openaicompat_Provider (perplexity_New c.(pc_BaseURL)))
  else if HasPrefix name "azureopenai" then
    if decide (c.(pc_APIVersion) = "") then RegExit
    else RegProvider (openaicompat_Provider (azureopenai_New name c.(pc_BaseURL) c.(pc_APIVersion)))
  else RegSkip.

Fixpoint register_all (aws_ok : ProviderConfig → bool) (l : list (string * ProviderConfig))
    (r : Registry (Up N) positive) : option (Registry (Up N) positive) :=
  match l with
  | [] => Some r
  | (name, c) :: l' =>
    match register_one aws_ok name c with
    | RegExit => None
    | RegSkip => register_all aws_ok l' r
    | RegProvider p => register_all aws_ok l' (RegistryRegister p r)
    end
  end.
End register.
