(* ===== verification/Sse.v ===== *)
(** * Reading server-sent events

    What [strings.TrimSpace] leaves of a line, how a body splits into lines, and
    that the three loops over lines never run out: more fuel than the lines left
    changes nothing, and every chunk uses up a line. *)
From S2P Require Import Prelude GoStd Utf8 Json JsonString Engine OpenAIFormat Gemini Anthropic Transport Upstream.

(** ** Trimming a line *)

Definition visible (c : ascii) : bool := (code c <? 128) && negb (IsSpace (code c)).
Definition spaces (s : string) : Prop := forallb IsSpace (runes s) = true.

Lemma visible_spec c : visible c = true ↔ code c < 128 ∧ IsSpace (code c) = false.
Proof. unfold visible. rewrite andb_true_iff, Z.ltb_lt, negb_true_iff. done. Qed.

Lemma high_app_length e u s c t : high e → code c < 128 → e +:+ u = s +:+ String c t →
  (String.length e ≤ String.length s)%nat.
Proof.
  revert s. induction e as [|x e IH]; intros s He Hc Heq; cbn [String.length]; [lia|].
  cbn in He. apply andb_true_iff in He as [Hx He].
  destruct s as [|y s]; cbn in Heq; simplify_eq; [lia|]. cbn [String.length].
  specialize (IH s He Hc ltac:(done)). lia.
Qed.

(** A rune that starts before an ASCII byte ends before it. *)
Lemma rune_before s c t : s ≠ "" → code c < 128 →
  (1 ≤ (DecodeRune (s +:+ String c t)).2 ≤ String.length s)%nat.
Proof.
  intros Hs Hc. remember (s +:+ String c t) as x eqn:Hx.
  assert (x ≠ "") as Hne by (subst; by destruct s).
  destruct (DecodeRune_decoded x Hne) as [a u Ha|a u Ha|r u Hr Hr'].
  1-2: destruct s; [done|]; cbn [String.length]; lia.
  pose proof (high_app_length _ _ _ _ _ (EncodeRune_high r Hr Hr') Hc Hx). pose proof (EncodeRune_length r). lia.
Qed.

Lemma str_drop_app_le n s t : (n ≤ String.length s)%nat → str_drop n (s +:+ t) = str_drop n s +:+ t.
Proof. revert s. induction n as [|n IH]; intros [|c s] Hn; cbn in *; try done; try lia. apply IH. lia. Qed.

Lemma str_take_app_less n s t : (n ≤ String.length s)%nat → str_take n (s +:+ t) = str_take n s.
Proof. revert s. induction n as [|n IH]; intros [|c s] Hn; cbn in *; try done; try lia. rewrite IH by lia. done. Qed.

Lemma runes_visible fuel : ∀ s c w, visible c = true → (String.length (s +:+ String c w) ≤ fuel)%nat →
  forallb IsSpace (runes_fuel fuel (s +:+ String c w)) = false.
Proof.
  induction fuel as [|fuel IH]; intros s c w Hc Hl; pose proof (proj1 (visible_spec c) Hc) as [Hc1 Hc2];
    rewrite str_length_app in Hl; cbn [String.length] in Hl; [lia|].
  destruct s as [|x s].
  - cbn [String.append runes_fuel]. rewrite DecodeRune_ascii by done. cbn [forallb]. by rewrite Hc2.
  - pose proof (rune_before (String x s) c w ltac:(done) Hc1) as Hn.
    change (String x s +:+ String c w) with (String x (s +:+ String c w)) in *. cbn [runes_fuel].
    destruct (DecodeRune (String x (s +:+ String c w))) as [r n]. cbn [fst snd forallb] in *.
    apply andb_false_iff. right.
    change (String x (s +:+ String c w)) with (String x s +:+ String c w).
    rewrite str_drop_app_le by lia. apply IH; [done|].
    rewrite str_length_app, str_drop_length. cbn [String.length] in *. lia.
Qed.

Lemma trim_right_line fuel : ∀ s c w, visible c = true → spaces w →
  (String.length (s +:+ String c w) ≤ fuel)%nat →
  trim_right_fuel fuel (s +:+ String c w) = s +:+ String c "".
Proof.
  induction fuel as [|fuel IH]; intros s c w Hc Hw Hl; pose proof (proj1 (visible_spec c) Hc) as [Hc1 Hc2];
    pose proof Hl as Hl'; rewrite str_length_app in Hl'; cbn [String.length] in Hl'; [lia|].
  cbn [trim_right_fuel]. unfold runes at 1. rewrite runes_visible by done.
  destruct s as [|x s].
  - cbn [String.append]. rewrite DecodeRune_ascii by done. cbn [fst snd str_take str_drop String.append].
    f_equal. unfold spaces in Hw. destruct fuel; cbn [trim_right_fuel]; [by destruct w; cbn in *; try lia|by rewrite Hw].
  - pose proof (rune_before (String x s) c w ltac:(done) Hc1) as Hn.
    rewrite str_take_app_less, str_drop_app_le, IH by (try done; try lia;
      rewrite str_length_app, str_drop_length; cbn [String.length] in *; lia).
    by rewrite <-str_app_assoc, str_take_drop.
Qed.

Lemma TrimSpace_line a s c w : visible a = true → visible c = true → spaces w →
  TrimSpace (String a (s +:+ String c w)) = String a (s +:+ String c "").
Proof.
  intros Ha Hc Hw. unfold TrimSpace. apply visible_spec in Ha as [Ha1 Ha2].
  cbn [String.length trim_left_fuel]. rewrite DecodeRune_ascii, Ha2 by done.
  by apply (trim_right_line _ (String a s)).
Qed.

Lemma trim_left_spaces fuel : ∀ s, forallb IsSpace (runes_fuel fuel s) = true → (String.length s ≤ fuel)%nat →
  trim_left_fuel fuel s = "".
Proof.
  induction fuel as [|fuel IH]; intros [|c s] Hs Hl; cbn [String.length] in Hl; try done; [lia|].
  cbn [runes_fuel trim_left_fuel] in *.
  pose proof (DecodeRune_decoded (String c s) ltac:(done)) as D.
  destruct (DecodeRune (String c s)) as [r n]. cbn [fst snd] in D.
  cbn [forallb] in Hs. apply andb_true_iff in Hs as [-> Hs]. apply IH; [done|].
  rewrite str_drop_length. cbn [String.length].
  assert (1 ≤ n)%nat; [|lia]. inversion D; subst; [lia|lia|]. apply EncodeRune_length.
Qed.

Lemma TrimSpace_spaces w : spaces w → TrimSpace w = "".
Proof. intros Hw. unfold TrimSpace. rewrite trim_left_spaces by done. done. Qed.

(** The texts that a line carries whole: no line feed, and a visible last byte. *)
Definition no_newline (s : string) : bool := str_forallb (λ c, negb (code c =? 10)) s.

Fixpoint ends_visible (s : string) : bool :=
  match s with
  | EmptyString => false
  | String c EmptyString => visible c
  | String _ s' => ends_visible s'
  end.

Definition tidy (s : string) : bool := no_newline s && ends_visible s.

Lemma ends_visible_split s : ends_visible s = true → ∃ s0 c, s = s0 +:+ String c "" ∧ visible c = true.
Proof.
  induction s as [|c s IH]; [done|]. cbn. destruct s as [|c' s]; intros Hs; [by exists "", c|].
  destruct (IH Hs) as (s0 & c0 & -> & Hc). exists (String c s0), c0. done.
Qed.

(** The ends of a line. *)
Definition line_end (w : string) : Prop := w = newline_str ∨ w = String (byte_of 13) newline_str.

Lemma line_end_spaces w : line_end w → spaces w.
Proof. intros [-> | ->]; done. Qed.

Lemma TrimSpace_field name data w : visible name = true → ends_visible data = true → line_end w → ∀ s,
  TrimSpace (String name (s +:+ data +:+ w)) = String name (s +:+ data).
Proof.
  intros Hn Hd Hw s. destruct (ends_visible_split _ Hd) as (s0 & c & -> & Hc).
  rewrite !str_app_assoc. cbn [String.append]. rewrite <-!(str_app_assoc s).
  rewrite TrimSpace_line; auto using line_end_spaces.
Qed.

(** ** Lines of a body *)

Lemma no_newline_app s t : no_newline (s +:+ t) = no_newline s && no_newline t.
Proof. unfold no_newline. induction s as [|c s IH]; cbn; [done|]. by rewrite IH, andb_assoc. Qed.

Lemma split_lines_line l rest : no_newline l = true →
  split_lines (l +:+ newline_str +:+ rest) =
  ((l +:+ newline_str) :: (split_lines rest).1, (split_lines rest).2).
Proof.
  induction l as [|c l IH]; intros Hl; cbn [String.append split_lines].
  - unfold newline_str. cbn. by destruct (split_lines rest).
  - unfold no_newline in Hl. cbn in Hl. apply andb_true_iff in Hl as [Hc Hl]. apply negb_true_iff in Hc.
    rewrite (IH Hl), Hc. done.
Qed.

(** A line that ends in either way. *)
Lemma split_lines_end l w rest : no_newline l = true → line_end w →
  split_lines (l +:+ w +:+ rest) = ((l +:+ w) :: (split_lines rest).1, (split_lines rest).2).
Proof.
  intros Hl [-> | ->]; [by apply split_lines_line|].
  replace (String (byte_of 13) newline_str) with (String (byte_of 13) "" +:+ newline_str) by done.
  rewrite str_app_assoc, <-(str_app_assoc l (String (byte_of 13) "")).
  rewrite split_lines_line; [by rewrite str_app_assoc|]. rewrite no_newline_app, Hl. done.
Qed.

(** ** The loops end *)

Lemma ReadLine_size r : let '(line, st, r') := ReadLine r in
  match st with
  | RdOk => rd_size r = S (rd_size r')
  | RdEOF => rd_size r' = 0%nat ∧ rd_size r = (if decide (line = "") then 0 else 1)%nat
  | RdErr _ => rd_size r' = 0%nat
  end.
Proof.
  destruct r as [[|l ls] t e]; unfold ReadLine, rd_size; cbn [rd_lines rd_tail rd_err length]; [|lia].
  rewrite (decide_True (P := "" = "")) by done. destruct e; cbn; [done|]. by case_decide.
Qed.

Lemma sse_Next_fuel f1 : ∀ f2 r, (rd_size r < f1)%nat → (rd_size r < f2)%nat → sse_Next f1 r = sse_Next f2 r.
Proof.
  induction f1 as [|f1 IH]; intros [|f2] r H1 H2; try lia. cbn [sse_Next].
  pose proof (ReadLine_size r) as Hs. destruct (ReadLine r) as [[line st] r']. destruct st; [..|done].
  - destruct (sse_line line); [done|]. apply IH; lia.
  - case_decide; [done|]. destruct (sse_line line); [done|]. apply IH; lia.
Qed.

Lemma sse_Next_size fuel : ∀ r c r', sse_Next fuel r = (NChunk c, r') → (rd_size r' < rd_size r)%nat.
Proof.
  induction fuel as [|fuel IH]; intros r c r' Hn; cbn [sse_Next] in Hn; [done|].
  pose proof (ReadLine_size r) as Hs. destruct (ReadLine r) as [[line st] r1]. destruct st; [..|done].
  - destruct (sse_line line); simplify_eq; [lia|]. apply IH in Hn. lia.
  - case_decide; [done|]. destruct (sse_line line); simplify_eq; [lia|]. apply IH in Hn. lia.
Qed.

Lemma readEvent_fuel f1 : ∀ f2 r et d, (rd_size r < f1)%nat → (rd_size r < f2)%nat →
  readEvent f1 r et d = readEvent f2 r et d.
Proof.
  induction f1 as [|f1 IH]; intros [|f2] r et d H1 H2; try lia. cbn [readEvent].
  pose proof (ReadLine_size r) as Hs. destruct (ReadLine r) as [[line st] r']. destruct st; [|done..].
  case_decide; [destruct (both_set et d); [done|apply IH; lia]|].
  destruct (event_line (TrimSpace line) et d). apply IH; lia.
Qed.

Lemma readEvent_size fuel : ∀ r et d ty data r', readEvent fuel r et d = (EvEvent ty data, r') →
  (rd_size r' < rd_size r)%nat ∨ (rd_size r' = rd_size r ∧ both_set et d = true).
Proof.
  induction fuel as [|fuel IH]; intros r et d ty data r' Hn; cbn [readEvent] in Hn; [done|].
  pose proof (ReadLine_size r) as Hs. destruct (ReadLine r) as [[line st] r1]. destruct st; [..|done].
  - left. case_decide.
    + destruct (both_set et d) eqn:Eb; simplify_eq; [lia|]. apply IH in Hn. lia.
    + destruct (event_line (TrimSpace line) et d). apply IH in Hn. lia.
  - destruct Hs as [Hs1 Hs2]. destruct (decide (line = "")) as [-> |El].
    + change (TrimSpace "") with "" in Hn. rewrite decide_True in Hn by done.
      destruct (both_set et d) eqn:Eb; simplify_eq. right. split; [lia|done].
    + left. case_decide; [destruct (both_set et d); simplify_eq; lia|].
      destruct (event_line (TrimSpace line) et d). destruct (both_set _ _); simplify_eq. lia.
Qed.

Lemma readEvent_smaller fuel r ty data r' : readEvent fuel r "" "" = (EvEvent ty data, r') → (rd_size r' < rd_size r)%nat.
Proof. intros [?|[_ ?]]%readEvent_size; [done|discriminate]. Qed.

Section loops.
Context {N : Type} `{Net N} `{Strconv}.

Lemma anthropic_Next_fuel f1 : ∀ f2 r st n, (rd_size r < f1)%nat → (rd_size r < f2)%nat →
  anthropic_Next (N := N) f1 r st n = anthropic_Next f2 r st n.
Proof.
  induction f1 as [|f1 IH]; intros [|f2] r st n H1 H2; try lia. cbn [anthropic_Next].
  destruct (readEvent (S (rd_size r)) r "" "") as [[ty data| |e] r'] eqn:Er; [|done..].
  apply readEvent_smaller in Er. st_simpl. destruct (Unix n) as [now n1].
  destruct (translateStreamEvent now ty data st) as [[e|[[t|] [|]]] st']; try done. apply IH; lia.
Qed.

Lemma anthropic_Next_size fuel : ∀ r st n c r' st' n',
  anthropic_Next (N := N) fuel r st n = (NChunk c, r', st', n') → (rd_size r' < rd_size r)%nat.
Proof.
  induction fuel as [|fuel IH]; intros r st n c r' st' n' Hn; cbn [anthropic_Next] in Hn; [done|].
  destruct (readEvent (S (rd_size r)) r "" "") as [[ty data| |e] r1] eqn:Er; [|done..].
  apply readEvent_smaller in Er. st_simpl. destruct (Unix n) as [now n1].
  destruct (translateStreamEvent now ty data st) as [[e|[[t|] [|]]] st1]; st_simpl; simplify_eq; try done.
  apply IH in Hn. lia.
Qed.

Lemma gemini_Next_fuel f1 : ∀ f2 r st n, (rd_size r < f1)%nat → (rd_size r < f2)%nat →
  gemini_Next (N := N) f1 r st n = gemini_Next f2 r st n.
Proof.
  induction f1 as [|f1 IH]; intros [|f2] r st n H1 H2; try lia. cbn [gemini_Next].
  pose proof (ReadLine_size r) as Hs. destruct (ReadLine r) as [[line rs] r']. destruct rs; [..|done].
  2: case_decide; [done|].
  all: case_decide; [apply IH; lia|]; destruct (negb _); [apply IH; lia|]; st_simpl; destruct (Unix n) as [now n1];
    destruct (translateStreamChunk _ _ _) as [e|[[t|] fin]]; [done..|apply IH; lia].
Qed.

Lemma gemini_Next_size fuel : ∀ r st n c r' n',
  gemini_Next (N := N) fuel r st n = (NChunk c, r', n') → (rd_size r' < rd_size r)%nat.
Proof.
  induction fuel as [|fuel IH]; intros r st n c r' n' Hn; cbn [gemini_Next] in Hn; [done|].
  pose proof (ReadLine_size r) as Hs. destruct (ReadLine r) as [[line rs] r1]. destruct rs; [..|done].
  2: case_decide; [done|].
  all: case_decide; [apply IH in Hn; lia|]; destruct (negb _); [apply IH in Hn; lia|]; st_simpl;
    destruct (Unix n) as [now n1]; destruct (translateStreamChunk _ _ _) as [e|[[t|] fin]]; st_simpl;
    simplify_eq; [lia|apply IH in Hn; lia].
Qed.
End loops.

(** ** Events in a body *)

(** An event as it is written, with lines that end in [w]. *)
Definition event_text (w : string) (ev : string * string) : string :=
  "event: " +:+ ev.1 +:+ w +:+ "data: " +:+ ev.2 +:+ w +:+ w.
Definition event_lines (w : string) (ev : string * string) : list string :=
  ["event: " +:+ ev.1 +:+ w; "data: " +:+ ev.2 +:+ w; w].
Definition tidy_event (ev : string * string) : Prop := tidy ev.1 = true ∧ tidy ev.2 = true.

(** A data line of its own. *)
Definition data_text (w data : string) : string := "data: " +:+ data +:+ w +:+ w.
Definition data_lines (w data : string) : list string := ["data: " +:+ data +:+ w; w].

Lemma tidy_spec s : tidy s = true ↔ no_newline s = true ∧ ends_visible s = true.
Proof. apply andb_true_iff. Qed.

Lemma ends_visible_nonempty s : ends_visible s = true → s ≠ "".
Proof. by destruct s. Qed.

Lemma split_data w data rest : line_end w → tidy data = true →
  split_lines (data_text w data +:+ rest) = (data_lines w data ++ (split_lines rest).1, (split_lines rest).2).
Proof.
  intros Hw [Hn _]%tidy_spec. unfold data_text, data_lines. rewrite <-(str_app_assoc "data: "), !str_app_assoc.
  rewrite <-(str_app_assoc "data: "), (split_lines_end ("data: " +:+ data) w) by (rewrite ?no_newline_app; done).
  rewrite (split_lines_end "" w rest eq_refl Hw : split_lines (w +:+ rest) = _). cbn [fst snd app].
  by rewrite str_app_assoc.
Qed.

Lemma split_event w ev rest : line_end w → tidy_event ev →
  split_lines (event_text w ev +:+ rest) = (event_lines w ev ++ (split_lines rest).1, (split_lines rest).2).
Proof.
  intros Hw [He Hd]. destruct ev as [ty data]. unfold event_text, event_lines. cbn [fst snd] in *.
  pose proof (split_data w data rest Hw Hd) as Hs. unfold data_text in Hs. apply tidy_spec in He as [Hn _].
  rewrite <-(str_app_assoc "event: "), !str_app_assoc, <-(str_app_assoc "event: ").
  rewrite (split_lines_end ("event: " +:+ ty) w) by (rewrite ?no_newline_app; done).
  rewrite !str_app_assoc in Hs. rewrite Hs. cbn [fst snd app data_lines]. by rewrite str_app_assoc.
Qed.

Lemma split_events w evs rest : line_end w → Forall tidy_event evs →
  split_lines (String.concat "" (event_text w <$> evs) +:+ rest) =
  (concat (event_lines w <$> evs) ++ (split_lines rest).1, (split_lines rest).2).
Proof.
  intros Hw. induction 1 as [|ev evs He _ IH]; cbn [fmap list_fmap].
  { cbn. by destruct (split_lines rest). }
  change (String.concat "" (event_text w ev :: (event_text w <$> evs))) with
    (Join (event_text w ev :: (event_text w <$> evs)) "").
  rewrite Usage.concat_cons_nil, str_app_assoc, split_event by done. unfold Join. rewrite IH. cbn [fst snd concat].
  by rewrite app_assoc.
Qed.

Lemma read_data_line w data : line_end w → ends_visible data = true →
  TrimSpace ("data: " +:+ data +:+ w) = "data: " +:+ data.
Proof. intros Hw Hd. by apply (TrimSpace_field "d"%char data w eq_refl Hd Hw "ata: "). Qed.

Lemma readEvent_event w ev ls t e : line_end w → tidy_event ev →
  readEvent (S (rd_size (mkReader (event_lines w ev ++ ls) t e))) (mkReader (event_lines w ev ++ ls) t e) "" "" =
  (EvEvent ev.1 ev.2, mkReader ls t e).
Proof.
  intros Hw [[_ He]%tidy_spec [_ Hd]%tidy_spec]. destruct ev as [ty data]. cbn [fst snd] in *.
  change (rd_size (mkReader (event_lines w (ty, data) ++ ls) t e)) with (S (S (S (rd_size (mkReader ls t e))))).
  unfold event_lines. cbn [app fst snd readEvent ReadLine rd_lines].
  rewrite (TrimSpace_field "e"%char ty w eq_refl He Hw "vent: " : TrimSpace ("event: " +:+ ty +:+ w) = _).
  rewrite decide_False by done. unfold event_line at 1. 
  change (HasPrefix (String "e" ("vent: " +:+ ty)) "event: ") with (String.prefix "event: " ("event: " +:+ ty)).
  rewrite prefix_app. change (str_drop 7 (String "e" ("vent: " +:+ ty))) with (str_drop (String.length "event: ") ("event: " +:+ ty)).
  rewrite str_drop_app. cbn [readEvent ReadLine rd_lines rd_tail rd_err].
  rewrite read_data_line by done. rewrite decide_False by done. unfold event_line at 1.
  change (HasPrefix ("data: " +:+ data) "event: ") with false. cbn iota. unfold HasPrefix. rewrite prefix_app.
  change 6%nat with (String.length "data: "). rewrite str_drop_app.
  cbn [readEvent ReadLine rd_lines rd_tail rd_err]. rewrite TrimSpace_spaces by (by apply line_end_spaces).
  rewrite decide_True by done. unfold both_set, is_empty.
  rewrite !bool_decide_eq_false_2 by (by apply ends_visible_nonempty). done.
Qed.
