(* ===== verification/StreamTheorems.v ===== *)
(** * Streams of the provider adapters

    Whatever an upstream sends, pulling a stream comes to an end; and the events of
    a well-formed body reach the client in order, with their content. *)
From S2P Require Import Prelude GoStd Utf8 Json JsonGrammar JsonEnc JsonDecode CacheKey Engine.
From S2P Require Import OpenAIFormat Gemini Anthropic AnthropicTheorems GeminiTheorems Transport TransportTheorems Upstream Bedrock Sse.

Section streams.
Context {N : Type} `{Net N} `{Strconv}.
Implicit Types u : Up N.

(** ** Every stream ends *)

Definition stream_reader (s : stream) : reader :=
  match s with SseStream r | AnthropicStream r _ | GeminiStream r _ => r end.

(** Pulling until something else than a chunk comes. *)
Inductive pulls (p : positive) : Up N → list slice → next_result → Up N → Prop :=
| pulls_end u fin u' : Next p u = (fin, u') → (∀ c, fin ≠ NChunk c) → pulls p u [] fin u'
| pulls_chunk u c u1 cs fin u' :
    Next p u = (NChunk c, u1) → pulls p u1 cs fin u' → pulls p u (c :: cs) fin u'.

(** The bound of each loop over lines is enough: more fuel changes nothing. *)
Definition bounds_enough (r : reader) : Prop := ∀ fuel, (rd_size r < fuel)%nat →
  sse_Next fuel r = sse_Next (S (rd_size r)) r ∧
  (∀ et d, readEvent fuel r et d = readEvent (S (rd_size r)) r et d) ∧
  (∀ st (n : N), anthropic_Next fuel r st n = anthropic_Next (S (rd_size r)) r st n) ∧
  (∀ st (n : N), gemini_Next fuel r st n = gemini_Next (S (rd_size r)) r st n).

Lemma loops_bounded r : bounds_enough r.
Proof using Type.
  intros fuel Hf. split_and!; intros; auto using sse_Next_fuel, readEvent_fuel, anthropic_Next_fuel, gemini_Next_fuel.
Qed.

Lemma Next_smaller p u s c u' : up_streams u !! p = Some s → Next p u = (NChunk c, u') →
  ∃ s', up_streams u' !! p = Some s' ∧ (rd_size (stream_reader s') < rd_size (stream_reader s))%nat.
Proof using Type.
  intros Hs Hn. unfold Next in Hn. rewrite Hs in Hn. destruct s as [r|r st|r st].
  - destruct (sse_Next _ _) as [n r'] eqn:E. simplify_eq. eexists. cbn [up_streams stream_reader]. rewrite lookup_insert_eq. split; [done|].
    by eapply sse_Next_size.
  - destruct (anthropic_Next _ _ _ _) as [[[n r'] st'] net] eqn:E. simplify_eq. eexists. cbn [up_streams stream_reader]. rewrite lookup_insert_eq.
    split; [done|]. by eapply anthropic_Next_size.
  - destruct (gemini_Next _ _ _ _) as [[n r'] net] eqn:E. simplify_eq. eexists. cbn [up_streams stream_reader]. rewrite lookup_insert_eq.
    split; [done|]. by eapply gemini_Next_size.
Qed.

Lemma pulls_exist k : ∀ p u s, up_streams u !! p = Some s → (rd_size (stream_reader s) ≤ k)%nat →
  ∃ cs fin u', pulls p u cs fin u' ∧ (length cs ≤ rd_size (stream_reader s))%nat.
Proof using Type.
  induction k as [|k IH]; intros p u s Hs Hk; destruct (Next p u) as [fin u1] eqn:Hn.
  all: destruct fin as [c| |e]; [|exists [], NEof, u1|exists [], (NErr e), u1];
    try (split; [by apply pulls_end|cbn; lia]).
  all: destruct (Next_smaller _ _ _ _ _ Hs Hn) as (s' & Hs' & Hlt); try lia.
  destruct (IH p u1 s' Hs' ltac:(lia)) as (cs & fin & u' & Hp & Hl).
  exists (c :: cs), fin, u'. split; [by eapply pulls_chunk|cbn; lia].
Qed.

(** C20. Every stream ends: on whatever a server sent, pulling an adapter's stream
    gives at most as many chunks as there are lines left in the body, then the
    end or an error; and the fuel of the loops over lines is enough, more of it
    changes no result. *)
Theorem stream_ends p u s : up_streams u !! p = Some s →
  bounds_enough (stream_reader s) ∧
  ∃ cs fin u', pulls p u cs fin u' ∧ (length cs ≤ rd_size (stream_reader s))%nat.
Proof using Type. intros Hs. split; [apply loops_bounded|]. by eapply pulls_exist. Qed.

(** ** What the events of Anthropic say *)

(** An event, once its data is decoded. *)
Inductive said :=
| SaysStart (state : Anthropic.streamState)
| SaysText (text : string)
| SaysStop (reason : string)
| SaysNothing.

Definition other_event (ty : string) : Prop :=
  ty ∉ ["message_start"; "content_block_delta"; "message_delta"; "message_stop"].

#[global] Instance other_event_dec ty : Decision (other_event ty).
Proof using Type. unfold other_event. apply _. Defined.

Inductive says : string * string → said → Prop :=
| says_start data st :
    Unmarshal dec_startEvent data (Anthropic.mkStreamState "" "") = (st, true) →
    says ("message_start", data) (SaysStart st)
| says_text data text :
    Unmarshal dec_deltaEvent data (mkPart "" "") = (mkPart "text_delta" text, true) →
    says ("content_block_delta", data) (SaysText text)
| says_delta data part :
    Unmarshal dec_deltaEvent data (mkPart "" "") = (part, true) → part.(cp_Type) ≠ "text_delta" →
    says ("content_block_delta", data) SaysNothing
| says_stop data reason :
    Unmarshal dec_stopEvent data "" = (reason, true) → says ("message_delta", data) (SaysStop reason)
| says_other ty data : other_event ty → says (ty, data) SaysNothing.

(** What the client is to be told: one chunk for every start, text and stop. *)
Fixpoint expected (state : Anthropic.streamState) (l : list said)
  : list (Anthropic.streamState * openaiStreamDelta * option string) :=
  match l with
  | [] => []
  | SaysStart st :: l => (st, mkDelta "assistant" "", None) :: expected st l
  | SaysText text :: l => (state, mkDelta "" text, None) :: expected state l
  | SaysStop reason :: l => (state, mkDelta "" "", mapStopReason reason) :: expected state l
  | SaysNothing :: l => expected state l
  end.

(** A chunk that a client reads as told. *)
Definition delivered (c : slice) (x : Anthropic.streamState * openaiStreamDelta * option string) : Prop :=
  ∃ now text, c = Some ("data: " +:+ text) ∧
    Unmarshal dec_chunk text zero_chunk = (chunk_of x.1.1 now x.1.2 x.2, true).

Definition ok_state (st : Anthropic.streamState) : Prop :=
  valid_utf8 (Anthropic.ss_id st) ∧ valid_utf8 (Anthropic.ss_model st).

Lemma keeps_startEvent : keeps_elem 0 dec_startEvent ok_state.
Proof using Type.
  apply keeps_struct. each_field. apply keeps_elem_keeps, keeps_struct.
  each_field; (apply (keeps_field _ _ _ _ valid_utf8); [by intros s (?&?)|by intros v s ? (?&?)|]);
    apply keeps_elem_keeps, keeps_string.
Qed.

Lemma keeps_deltaEvent : keeps_elem 0 dec_deltaEvent (λ p, valid_utf8 p.(cp_Type) ∧ valid_utf8 p.(cp_Text)).
Proof using Type. apply keeps_struct. each_field. apply keeps_elem_keeps, keeps_part. Qed.

Lemma keeps_stopEvent : keeps_elem 0 dec_stopEvent valid_utf8.
Proof using Type. apply keeps_struct. each_field. apply keeps_elem_keeps, keeps_struct. each_field. apply keeps_elem_keeps, keeps_string. Qed.

(** Translating an event that says something. *)
Definition told (state : Anthropic.streamState) (s : said) :
  Anthropic.streamState * option (Anthropic.streamState * openaiStreamDelta * option string) :=
  match s with
  | SaysStart st => (st, Some (st, mkDelta "assistant" "", None))
  | SaysText text => (state, Some (state, mkDelta "" text, None))
  | SaysStop reason => (state, Some (state, mkDelta "" "", mapStopReason reason))
  | SaysNothing => (state, None)
  end.

Lemma expected_told state s l : expected state (s :: l) = option_list (told state s).2 ++ expected (told state s).1 l.
Proof using Type. by destruct s. Qed.

Lemma translate_says now ev s state : in_int64 now → ok_state state → says ev s →
  ok_state (told state s).1 ∧
  match (told state s).2 with
  | None => translateStreamEvent now ev.1 ev.2 state = (inr (None, false), (told state s).1)
  | Some x => ∃ text, translateStreamEvent now ev.1 ev.2 state = (inr (Some text, false), (told state s).1) ∧
      Unmarshal dec_chunk text zero_chunk = (chunk_of x.1.1 now x.1.2 x.2, true)
  end.
Proof using Type.
  intros Hnow Hst Hs. destruct Hs as [data st E|data text E|data part E Ep|data reason E|ty data Ho]; cbn [told fst snd].
  - assert (ok_state st) as Hok.
    { replace st with (Unmarshal dec_startEvent data (Anthropic.mkStreamState "" "")).1 by by rewrite E.
      by apply Unmarshal_keeps; [apply keeps_startEvent|]. }
    split; [done|]. eexists. unfold translateStreamEvent. cbn. unfold handleMessageStart. rewrite E.
    split; [done|]. destruct Hok. by apply new_chunk_reads.
  - assert (valid_utf8 text) as Hok.
    { replace text with (Unmarshal dec_deltaEvent data (mkPart "" "")).1.(cp_Text) by by rewrite E.
      by apply (Unmarshal_keeps _ _ _ _ keeps_deltaEvent). }
    split; [done|]. eexists. unfold translateStreamEvent. cbn. unfold handleContentBlockDelta. rewrite E.
    split; [done|]. destruct Hst. by apply new_chunk_reads.
  - split; [done|]. unfold translateStreamEvent. cbn. unfold handleContentBlockDelta. rewrite E.
    by rewrite bool_decide_eq_false_2.
  - assert (valid_utf8 reason) as Hok.
    { replace reason with (Unmarshal dec_stopEvent data "").1 by by rewrite E.
      by apply Unmarshal_keeps; [apply keeps_stopEvent|]. }
    split; [done|]. eexists. unfold translateStreamEvent. cbn. unfold handleMessageDelta. rewrite E.
    split; [done|]. destruct Hst. apply new_chunk_reads; try done. by apply mapStopReason_valid.
  - split; [done|]. unfold translateStreamEvent. cbn [fst]. unfold other_event in Ho. 
    rewrite !decide_False by set_solver. done.
Qed.

(** ** Delivery *)

(** The clock is an [int64]. *)
Definition clock_int64 : Prop := ∀ n : N, in_int64 (Unix n).1.

Definition put_stream (p : positive) (n : N) (s : stream) u : Up N := mkUp n (<[p := s]> u.(up_streams)).

Lemma Next_anthropic p n r st u :
  Next p (put_stream p n (AnthropicStream r st) u) =
  let '(res, r', st', n') := anthropic_Next (S (rd_size r)) r st n in (res, put_stream p n' (AnthropicStream r' st') u).
Proof using Type.
  unfold Next, put_stream. cbn [up_streams up_net]. rewrite lookup_insert_eq.
  destruct (anthropic_Next _ _ _ _) as [[[res r'] st'] n']. by rewrite insert_insert_eq.
Qed.

Lemma Next_sse p n r u :
  Next p (put_stream p n (SseStream r) u) =
  let '(res, r') := sse_Next (S (rd_size r)) r in (res, put_stream p n (SseStream r') u).
Proof using Type.
  unfold Next, put_stream. cbn [up_streams up_net]. rewrite lookup_insert_eq.
  destruct (sse_Next _ _) as [res r']. by rewrite insert_insert_eq.
Qed.

Lemma Next_gemini p n r st u :
  Next p (put_stream p n (GeminiStream r st) u) =
  let '(res, r', n') := gemini_Next (S (rd_size r)) r st n in (res, put_stream p n' (GeminiStream r' st) u).
Proof using Type.
  unfold Next, put_stream. cbn [up_streams up_net]. rewrite lookup_insert_eq.
  destruct (gemini_Next _ _ _ _) as [[res r'] n']. by rewrite insert_insert_eq.
Qed.

(** States in which the next pull is the same yield the same. *)
Lemma yields_same p u1 u2 cs u' : Next p u1 = Next p u2 → yields Next p u2 cs u' → yields Next p u1 cs u'.
Proof using Type.
  intros Hn Hy. destruct Hy; [apply yields_end|eapply yields_chunk; [|done]]; congruence.
Qed.

(** One event of the body, as the loop sees it. *)
Lemma anthropic_Next_event w ev s ls t e st n : clock_int64 → line_end w → tidy_event ev → ok_state st → says ev s →
  let r := mkReader (event_lines w ev ++ ls) t e in
  let r' := mkReader ls t e in
  match (told st s).2 with
  | None => anthropic_Next (S (rd_size r)) r st n = anthropic_Next (S (rd_size r')) r' (told st s).1 (Unix n).2
  | Some x => ∃ c, delivered c x ∧
      anthropic_Next (S (rd_size r)) r st n = (NChunk c, r', (told st s).1, (Unix n).2)
  end.
Proof using Type.
  intros Hc Hw Ht Hst Hs r r'. destruct (translate_says (Unix n).1 ev s st (Hc n) Hst Hs) as [_ Htr].
  assert (rd_size r = S (S (S (rd_size r')))) as Hsz by done.
  assert (readEvent (S (rd_size r)) r "" "" = (EvEvent ev.1 ev.2, r')) as Hr by by apply readEvent_event.
  clearbody r r'. destruct (told st s) as [st' [x|]]; cbn [fst snd] in *.
  - destruct Htr as (text & Htr & Hu). exists (Some ("data: " +:+ text)). split; [by exists (Unix n).1, text|].
    cbn [anthropic_Next]. rewrite Hr. st_simpl. destruct (Unix n) as [now n1]. cbn in *. by rewrite Htr.
  - rewrite (anthropic_Next_fuel _ (S (S (rd_size r'))) r' st' (Unix n).2) by lia.
    cbn [anthropic_Next]. rewrite Hr. st_simpl. destruct (Unix n) as [now n1]. cbn in *. rewrite Htr.
    rewrite (anthropic_Next_fuel _ (S (S (rd_size r'))) r' st' n1) by lia. done.
Qed.

(** How a body ends: with message_stop, or just so. *)
Inductive closes (w : string) : string → option gerror → Prop :=
| closes_stop data rest e : tidy data = true → closes w (event_text w ("message_stop", data) +:+ rest) e
| closes_eof : closes w "" None.

Lemma anthropic_Next_closes w fin e st n : line_end w → closes w fin e →
  let r := mkReader (split_lines fin).1 (split_lines fin).2 e in
  ∃ r' st' n', anthropic_Next (N := N) (S (rd_size r)) r st n = (NEof, r', st', n').
Proof using Type.
  intros Hw [data rest e' Hd|]; cbn zeta; [|by eexists _, _, _].
  rewrite split_event by (try split; done). cbn [fst snd]. set (r := mkReader _ _ _).
  assert (readEvent (S (rd_size r)) r "" "" = (EvEvent "message_stop" data, mkReader (split_lines rest).1 (split_lines rest).2 e'))
    as Hr by by apply (readEvent_event w ("message_stop", data)).
  clearbody r. cbn [anthropic_Next]. rewrite Hr. st_simpl. destruct (Unix n). by eexists _, _, _.
Qed.

Lemma anthropic_yields w evs sd fin e p u : clock_int64 → line_end w → Forall2 says evs sd → Forall tidy_event evs →
  closes w fin e → ∀ st n, ok_state st →
  ∃ cs u', Forall2 delivered cs (expected st sd) ∧
    yields Next p (put_stream p n (AnthropicStream
      (mkReader (concat (event_lines w <$> evs) ++ (split_lines fin).1) (split_lines fin).2 e) st) u) cs u'.
Proof using Type.
  intros Hc Hw Hs Ht Hfin. induction Hs as [|ev s evs sd Hs _ IH]; intros st n Hst.
  - destruct (anthropic_Next_closes w fin e st n Hw Hfin) as (r' & st' & n' & Hn). eexists [], _. split; [constructor|].
    apply yields_end. rewrite Next_anthropic. cbn [fmap list_fmap concat app]. by rewrite Hn.
  - apply Forall_cons_iff in Ht as [Hev Ht]. rewrite expected_told.
    destruct (translate_says 0 ev s st ltac:(done) Hst Hs) as [Hst' _].
    destruct (IH Ht (told st s).1 (Unix n).2 Hst') as (cs & u' & Hd & Hy).
    cbn [fmap list_fmap concat]. rewrite <-app_assoc.
    pose proof (anthropic_Next_event w ev s (concat (event_lines w <$> evs) ++ (split_lines fin).1)
      (split_lines fin).2 e st n Hc Hw Hev Hst Hs) as Hn. cbn zeta in Hn.
    destruct (told st s).2 as [x|]; cbn [option_list app].
    + destruct Hn as (c & Hx & Hn). exists (c :: cs), u'. split; [by constructor|].
      eapply yields_chunk; [|exact Hy]. rewrite Next_anthropic. by rewrite Hn.
    + exists cs, u'. split; [done|]. eapply yields_same; [|exact Hy]. by rewrite !Next_anthropic, Hn.
Qed.

(** C12. An Anthropic stream reaches the client: when the server answers a streaming
    request with 200 and a body of well-formed events (any of the two line ends,
    events that carry no text among them) that ends with message_stop or with the
    body, the stream is opened, and pulling it yields, in order, exactly one chunk
    for every start, text and stop that the events say, then the end; a client
    that decodes the chunks reads the message's id and model, the role, the texts
    and the mapped stop reason. *)
Theorem anthropic_stream_delivers baseURL ctx req u out httpReq resp n1 w evs sd fin :
  Anthropic.translateRequest req.(cq_RawBody) = inr out →
  anthropic_buildRequest baseURL out req.(cq_APIKey) = inr httpReq →
  Do httpReq u.(up_net) = (inr resp, n1) → resp.(hr_StatusCode) = 200 →
  body_text resp.(hr_Body) = String.concat "" (event_text w <$> evs) +:+ fin → closes w fin resp.(hr_Body).(rb_err) →
  clock_int64 → line_end w → Forall2 says evs sd → Forall tidy_event evs →
  ∃ p u1 cs u', anthropic_ChatCompletionStream baseURL ctx req u = (inr p, u1) ∧
    yields Next p u1 cs u' ∧ Forall2 delivered cs (expected (Anthropic.mkStreamState "" "") sd).
Proof using Type.
  intros Ht Hb Hdo Hst Hbody Hfin Hc Hw Hs Htidy.
  pose (p := fresh (dom u.(up_streams) : gset positive)).
  destruct (anthropic_yields w evs sd fin resp.(hr_Body).(rb_err) p u Hc Hw Hs Htidy Hfin
    (Anthropic.mkStreamState "" "") n1 ltac:(done)) as (cs & u' & Hd & Hy).
  exists p. eexists _, cs, u'. split; [|split; [exact Hy|exact Hd]].
  unfold anthropic_ChatCompletionStream. rewrite Ht, Hb. unfold net_run, mbind, ST_bind. rewrite Hdo, Hst.
  cbn [negb Z.eqb Pos.eqb]. unfold new_stream, NewReader. cbn [up_streams up_net].
  rewrite Hbody, split_events by done. done.
Qed.

(** ** OpenAI-compatible streams *)

Lemma sse_line_data w d : line_end w → tidy d = true → d ≠ "[DONE]" →
  sse_line ("data: " +:+ d +:+ w) = Some (NChunk (Some ("data: " +:+ d))).
Proof using Type.
  intros Hw [_ Hd]%tidy_spec Hne. unfold sse_line. rewrite read_data_line, decide_False by done.
  unfold HasPrefix. rewrite prefix_app. change 6%nat with (String.length "data: "). by rewrite str_drop_app, decide_False.
Qed.

Lemma sse_Next_blank w ls t e : line_end w →
  let r := mkReader ls t e in let r0 := mkReader (w :: ls) t e in
  sse_Next (S (rd_size r0)) r0 = sse_Next (S (rd_size r)) r.
Proof using Type.
  intros Hw r r0. cbn [sse_Next]. unfold r0. cbn [ReadLine rd_lines rd_tail rd_err]. unfold sse_line.
  rewrite TrimSpace_spaces, decide_True by (by try apply line_end_spaces). done.
Qed.

Lemma sse_yields w ds fin fin' p u n : line_end w → Forall (λ d, tidy d = true ∧ d ≠ "[DONE]") ds →
  (∃ rest, fin = data_lines w "[DONE]" ++ rest) ∨ fin = [] ∧ fin'.1 = "" ∧ fin'.2 = None →
  ∃ u', yields Next p (put_stream p n (SseStream (mkReader (concat (data_lines w <$> ds) ++ fin) fin'.1 fin'.2)) u)
    ((λ d, Some ("data: " +:+ d)) <$> ds) u'.
Proof using Type.
  intros Hw Hds Hfin. induction Hds as [|d ds [Hd Hne] _ [u' IH]]; cbn [fmap list_fmap concat app].
  - destruct Hfin as [[rest ->]|(-> & -> & ->)]; eexists; apply yields_end; rewrite Next_sse; cbn [sse_Next]; [|done].
    cbn [app data_lines ReadLine rd_lines rd_tail rd_err]. unfold sse_line. rewrite read_data_line by done. done.
  - exists u'. eapply yields_chunk.
    + rewrite Next_sse. cbn [sse_Next app data_lines ReadLine rd_lines rd_tail rd_err].
      rewrite sse_line_data by done. done.
    + eapply yields_same; [|exact IH]. rewrite !Next_sse, sse_Next_blank by done. done.
Qed.

Lemma split_datas w ds rest : line_end w → Forall (λ d, tidy d = true) ds →
  split_lines (String.concat "" (data_text w <$> ds) +:+ rest) =
  (concat (data_lines w <$> ds) ++ (split_lines rest).1, (split_lines rest).2).
Proof using Type.
  intros Hw. induction 1 as [|d ds Hd _ IH]; cbn [fmap list_fmap].
  { cbn. by destruct (split_lines rest). }
  change (String.concat "" (data_text w d :: (data_text w <$> ds))) with (Join (data_text w d :: (data_text w <$> ds)) "").
  rewrite Usage.concat_cons_nil, str_app_assoc, split_data by done. unfold Join. rewrite IH. cbn [fst snd concat].
  by rewrite app_assoc.
Qed.

(** An OpenAI-compatible stream is relayed as it is: when the server answers
    with 200 and data lines, then the end marker (and anything after it) or the
    end of the body, pulling the stream yields exactly the data lines, in order
    and unchanged, then the end. *)
Theorem openaicompat_stream_relays o ctx req u httpReq resp n1 w ds fin :
  openaicompat_buildRequest o "POST" "/chat/completions" (bytes_of req.(cq_RawBody)) req.(cq_APIKey) = inr httpReq →
  Do httpReq u.(up_net) = (inr resp, n1) → resp.(hr_StatusCode) = 200 →
  body_text resp.(hr_Body) = String.concat "" (data_text w <$> ds) +:+ fin →
  (∃ rest, fin = data_text w "[DONE]" +:+ rest) ∨ (fin = "" ∧ resp.(hr_Body).(rb_err) = None) →
  line_end w → Forall (λ d, tidy d = true ∧ d ≠ "[DONE]") ds →
  ∃ p u1 u', openaicompat_ChatCompletionStream o ctx req u = (inr p, u1) ∧
    yields Next p u1 ((λ d, Some ("data: " +:+ d)) <$> ds) u'.
Proof using Type.
  intros Hb Hdo Hst Hbody Hfin Hw Hds.
  pose (p := fresh (dom u.(up_streams) : gset positive)).
  destruct (sse_yields w ds (split_lines fin).1 ((split_lines fin).2, resp.(hr_Body).(rb_err)) p u n1 Hw Hds) as (u' & Hy).
  { destruct Hfin as [[rest ->]|[-> He]]; [left|by right]. rewrite split_data by done. eauto. }
  exists p. eexists _, u'. split; [|exact Hy].
  unfold openaicompat_ChatCompletionStream. rewrite Hb. unfold net_run, mbind, ST_bind. rewrite Hdo, Hst.
  cbn [negb Z.eqb Pos.eqb]. unfold new_stream, NewReader. cbn [up_streams up_net].
  rewrite Hbody, split_datas; [done|done|]. eapply list.Forall_impl; [exact Hds|]. by intros d [? _].
Qed.

(** ** Gemini streams *)

(** The first candidate of a chunk is what the client is told. *)
Definition gemini_says (data : string) (x : option (string * option string)) : Prop :=
  ∃ gem, Unmarshal Gemini.dec_response data Gemini.zero_response = (gem, true) ∧
    x = (λ c, (candidate_text c, mapFinishReason c.(ca_FinishReason))) <$> head (default [] gem.(gr_Candidates)).

Definition gemini_delivered (st : Gemini.streamState) (c : slice) (x : string * option string) : Prop :=
  ∃ now text, c = Some ("data: " +:+ text) ∧
    Unmarshal dec_chunk text zero_chunk =
      (mkChunk (Gemini.ss_id st) "chat.completion.chunk" now (Gemini.ss_model st)
         (Some [mkStreamChoice 0 (mkDelta "" x.1) x.2]), true).

Lemma translateStreamChunk_says now d x st : in_int64 now → valid_utf8 (Gemini.ss_id st) →
  valid_utf8 (Gemini.ss_model st) → gemini_says d x →
  match x with
  | None => translateStreamChunk now d st = inr (None, false)
  | Some y => ∃ text fin, translateStreamChunk now d st = inr (Some text, fin) ∧
      gemini_delivered st (Some ("data: " +:+ text)) y
  end.
Proof using Type.
  intros Hnow Hid Hm (gem & E & ->). pose proof (decoded_gemini _ _ _ E) as [Hc _].
  unfold translateStreamChunk. rewrite E. destruct (default [] (gr_Candidates gem)) as [|c l]; cbn [head fmap option_fmap option_map]; [done|].
  apply Forall_cons_iff in Hc as [Hc _]. eexists _, _. split; [done|]. eexists now, _. split; [done|].
  apply chunk_roundtrip. unfold ok_chunk. cbn. split_and!; try done. constructor; [|constructor].
  unfold ok_streamChoice. cbn. split_and!; try done; [by apply candidate_valid|].
  by destruct Hc; apply mapFinishReason_valid.
Qed.

Lemma gemini_Next_blank w ls t e st (n : N) : line_end w →
  let r := mkReader ls t e in let r0 := mkReader (w :: ls) t e in
  gemini_Next (S (rd_size r0)) r0 st n = gemini_Next (S (rd_size r)) r st n.
Proof using Type.
  intros Hw r r0. cbn [gemini_Next]. unfold r0. cbn [ReadLine rd_lines rd_tail rd_err].
  rewrite TrimSpace_spaces, decide_True by (by try apply line_end_spaces). done.
Qed.

(** One data line: its chunk, or the loop goes on after it. *)
Lemma gemini_Next_data w d x ls t e st n : clock_int64 → valid_utf8 (Gemini.ss_id st) → valid_utf8 (Gemini.ss_model st) →
  line_end w → tidy d = true → gemini_says d x →
  let r := mkReader (data_lines w d ++ ls) t e in let r' := mkReader ls t e in
  match x with
  | None => gemini_Next (S (rd_size r)) r st n = gemini_Next (S (rd_size r')) r' st (Unix n).2
  | Some y => ∃ c, gemini_delivered st c y ∧
      gemini_Next (S (rd_size r)) r st n = (NChunk c, mkReader (w :: ls) t e, (Unix n).2)
  end.
Proof using Type.
  intros Hc Hid Hm Hw [_ Hd]%tidy_spec Hx r r'. pose proof (translateStreamChunk_says _ _ _ _ (Hc n) Hid Hm Hx) as Ht.
  pose proof (gemini_Next_blank w ls t e st (Unix n).2 Hw) as Hbl. cbn zeta in Hbl.
  change (rd_size r) with (S (rd_size (mkReader (w :: ls) t e))).
  change r with (mkReader (("data: " +:+ d +:+ w) :: w :: ls) t e). remember (S (rd_size _)) as k eqn:Hk.
  cbn [gemini_Next ReadLine rd_lines rd_tail rd_err]. rewrite read_data_line, decide_False by done.
  unfold HasPrefix. rewrite prefix_app. cbn [negb]. change 6%nat with (String.length "data: "). rewrite str_drop_app.
  st_simpl. destruct (Unix n) as [now n1]. cbn in *. destruct x as [y|].
  - destruct Ht as (text & fin & -> & Hy). eauto.
  - rewrite Ht. subst k. exact Hbl.
Qed.

Lemma gemini_yields w ds xs p u st : clock_int64 → valid_utf8 (Gemini.ss_id st) → valid_utf8 (Gemini.ss_model st) →
  line_end w → Forall (λ d, tidy d = true) ds → Forall2 gemini_says ds xs → ∀ n,
  ∃ cs u', Forall2 (gemini_delivered st) cs (omap id xs) ∧
    yields Next p (put_stream p n (GeminiStream (mkReader (concat (data_lines w <$> ds)) "" None) st) u) cs u'.
Proof using Type.
  intros Hc Hid Hm Hw Ht Hs. induction Hs as [|d x ds xs Hx _ IH]; intros n.
  - eexists [], _. split; [constructor|]. apply yields_end. by rewrite Next_gemini.
  - apply Forall_cons_iff in Ht as [Hd Ht]. destruct (IH Ht (Unix n).2) as (cs & u' & Hcs & Hy).
    cbn [fmap list_fmap concat].
    pose proof (gemini_Next_data w d x (concat (data_lines w <$> ds)) "" None st n Hc Hid Hm Hw Hd Hx) as Hn.
    cbn zeta in Hn. destruct x as [y|].
    + destruct Hn as (c & Hdel & Hn). exists (c :: cs), u'. split; [cbn; by constructor|].
      eapply yields_chunk; [rewrite Next_gemini; by rewrite Hn|]. eapply yields_same; [|exact Hy].
      by rewrite !Next_gemini, gemini_Next_blank.
    + exists cs, u'. split; [done|]. eapply yields_same; [|exact Hy]. by rewrite !Next_gemini, Hn.
Qed.

(** A Gemini stream reaches the client: when the server answers a streaming
    request with 200 and data lines that decode, pulling the stream yields, in
    order, one chunk for every line that has a candidate, then the end; a client
    that decodes the chunks reads the request's model, the text of the first
    candidate's parts and the mapped finish reason. *)
Theorem gemini_stream_delivers baseURL ctx req u out model httpReq resp n1 w ds xs :
  Gemini.translateRequest req.(cq_RawBody) = inr (out, model) → valid_utf8 model →
  gemini_buildRequest baseURL model true out req.(cq_APIKey) = inr httpReq →
  Do httpReq u.(up_net) = (inr resp, n1) → resp.(hr_StatusCode) = 200 →
  body_text resp.(hr_Body) = String.concat "" (data_text w <$> ds) → resp.(hr_Body).(rb_err) = None →
  clock_int64 → line_end w → Forall (λ d, tidy d = true) ds → Forall2 gemini_says ds xs →
  ∃ p u1 cs u', gemini_ChatCompletionStream baseURL ctx req u = (inr p, u1) ∧
    yields Next p u1 cs u' ∧
    Forall2 (gemini_delivered (Gemini.mkStreamState model ("chatcmpl-" +:+ model))) cs (omap id xs).
Proof using Type.
  intros Ht Hm Hb Hdo Hst Hbody He Hc Hw Htidy Hs.
  pose (p := fresh (dom u.(up_streams) : gset positive)).
  destruct (gemini_yields w ds xs p u (Gemini.mkStreamState model ("chatcmpl-" +:+ model)) Hc) with (n := n1)
    as (cs & u' & Hd & Hy); [by apply valid_app|done..|].
  exists p. eexists _, cs, u'. split; [|split; [exact Hy|exact Hd]].
  unfold gemini_ChatCompletionStream. rewrite Ht, Hb. unfold net_run, mbind, ST_bind. rewrite Hdo, Hst.
  cbn [negb Z.eqb Pos.eqb]. unfold new_stream, NewReader. cbn [up_streams up_net].
  rewrite Hbody, <-(str_app_nil_r (String.concat _ _)), split_datas, He by done. cbn. by rewrite app_nil_r.
Qed.
End streams.

(** ** A server that always gives the same answer *)

#[local] Existing Instance literal_floats.

#[local] Instance canned_net : Net HTTPResponse :=
  {| Do _ := λ n, (inr n, n);
     Unix := λ n, (1700000000, n);
     UnixNano := λ n, (1700000000000000000, n);
     request_error _ _ := None |}.

Definition canned (body : string) : Up HTTPResponse := mkUp (mkHTTPResponse 200 ∅ (mkRespBody [body] None)) ∅.

Definition demo_chat : ChatRequest := mkChatRequest "m" true
  (Some (dq "{'model':'m','stream':true,'messages':[{'role':'user','content':'hi'}]}")) "sk-key".

Definition demo_events : list (string * string) :=
  [("message_start", dq "{'message':{'id':'msg_1','model':'claude'}}"); ("ping", "{}");
   ("content_block_delta", dq "{'delta':{'type':'text_delta','text':'Hel'}}");
   ("content_block_delta", dq "{'delta':{'type':'text_delta','text':'lo'}}");
   ("message_delta", dq "{'delta':{'stop_reason':'end_turn'}}")].

Definition demo_said : list said :=
  [SaysStart (Anthropic.mkStreamState "msg_1" "claude"); SaysNothing; SaysText "Hel"; SaysText "lo"; SaysStop "end_turn"].

Definition demo_body : string :=
  String.concat "" (event_text newline_str <$> demo_events) +:+ event_text newline_str ("message_stop", "{}") +:+ "".

Lemma demo_says : Forall2 says demo_events demo_said.
Proof.
  apply Forall2_cons; [by apply says_start|]. apply Forall2_cons; [apply says_other, (bool_decide_eq_true_1 (other_event "ping")); reflexivity|].
  apply Forall2_cons; [by apply says_text|]. apply Forall2_cons; [by apply says_text|].
  apply Forall2_cons; [by apply says_stop|constructor].
Qed.

Lemma anthropic_stream_delivers_witness :
  ∃ p u1 cs u', anthropic_ChatCompletionStream "https://h" (mkCtx None None) demo_chat (canned demo_body) = (inr p, u1) ∧
    yields Next p u1 cs u' ∧ Forall2 delivered cs (expected (Anthropic.mkStreamState "" "") demo_said).
Proof.
  eapply (anthropic_stream_delivers _ _ _ _ _ _ _ _ newline_str demo_events _ (event_text newline_str ("message_stop", "{}") +:+ "")).
  - vm_compute. reflexivity.
  - reflexivity.
  - reflexivity.
  - reflexivity.
  - reflexivity.
  - by apply closes_stop.
  - intros n. done.
  - by left.
  - exact demo_says.
  - repeat (apply List.Forall_cons; [by split|]). by constructor.
Defined.

Lemma stream_ends_witness :
  ∃ cs fin u', pulls 1 (put_stream 1 (up_net (canned "")) (SseStream (mkReader [] "data: {}" None)) (canned "")) cs fin u' ∧
    (length cs ≤ 1)%nat.
Proof.
  refine (proj2 (stream_ends 1 (put_stream 1 (up_net (canned "")) (SseStream (mkReader [] "data: {}" None)) (canned ""))
    (SseStream (mkReader [] "data: {}" None)) _)).
  reflexivity.
Defined.

Lemma openaicompat_stream_relays_witness :
  ∃ p u1 u', openaicompat_ChatCompletionStream (openai_New "") (mkCtx None None) demo_chat
      (canned (String.concat "" (data_text newline_str <$> ["{}"; "{}"]) +:+ data_text newline_str "[DONE]" +:+ "x")) = (inr p, u1) ∧
    yields Next p u1 ((λ d, Some ("data: " +:+ d)) <$> ["{}"; "{}"]) u'.
Proof.
  eapply (openaicompat_stream_relays _ _ _ _ _ _ _ newline_str ["{}"; "{}"] (data_text newline_str "[DONE]" +:+ "x")).
  - reflexivity.
  - reflexivity.
  - reflexivity.
  - reflexivity.
  - left. by eexists.
  - by left.
  - by repeat constructor.
Defined.

Definition demo_gemini : list string :=
  [dq "{'candidates':[{'content':{'parts':[{'text':'a'},{'text':'b'}]}}]}"; "{}";
   dq "{'candidates':[{'content':{'parts':[{'text':'c'}]},'finishReason':'STOP'}]}"].

Lemma gemini_stream_delivers_witness :
  ∃ p u1 cs u', gemini_ChatCompletionStream "https://h" (mkCtx None None) demo_chat
      (canned (String.concat "" (data_text newline_str <$> demo_gemini))) = (inr p, u1) ∧
    yields Next p u1 cs u' ∧
    Forall2 (gemini_delivered (Gemini.mkStreamState "m" ("chatcmpl-" +:+ "m"))) cs
      (omap id [Some ("ab", None); None; Some ("c", Some "stop")]).
Proof.
  eapply (gemini_stream_delivers _ _ _ _ _ "m" _ _ _ newline_str demo_gemini).
  - vm_compute. reflexivity.
  - done.
  - reflexivity.
  - reflexivity.
  - reflexivity.
  - reflexivity.
  - reflexivity.
  - intros n. done.
  - by left.
  - by repeat constructor.
  - repeat (apply Forall2_cons; [eexists; split; [vm_compute; reflexivity|reflexivity]|]). constructor.
Defined.
