(* ===== verification/UpstreamTheorems.v ===== *)
(** * Properties of the provider adapters

    Where credentials go, which query parameters are sent, how the status of an
    answer is reported, what a translated answer says, and that errors of Gemini
    do not show the key. *)
From stdpp Require Import pretty.
From S2P Require Import Prelude GoStd Utf8 Json GoUrl JsonDecode Config Scrub CacheKey Engine OpenAIFormat.
From S2P Require Import Gemini GeminiTheorems Anthropic AnthropicTheorems Transport Upstream Bedrock StreamTheorems.

(** ** Query parameters *)

Lemma set_params_union params q : set_params params q = ((λ v, [v]) <$> params) ∪ q.
Proof.
  unfold set_params, values_set.
  apply (map_fold_weak_ind (λ r m, r = ((λ v, [v]) <$> m) ∪ q)).
  - by rewrite fmap_empty, (left_id_L ∅ (∪)).
  - intros k v m r _ ->. by rewrite fmap_insert, insert_union_l.
Qed.

Lemma with_query_parsed params req :
  ParseQuery (hq_RawQuery (with_query params req)) = ((λ v, [v]) <$> params) ∪ ParseQuery (hq_RawQuery req).
Proof.
  unfold with_query. case_decide as E.
  - subst. by rewrite fmap_empty, (left_id_L ∅ (∪)).
  - cbn [hq_RawQuery]. rewrite set_params_union, ParseQuery_Encode; [done|].
    intros k vs [Hk|[_ Hk]]%lookup_union_Some_raw; [|by eapply ParseQuery_nonempty].
    rewrite lookup_fmap in Hk. apply fmap_Some in Hk as (v & _ & ->). done.
Qed.

Lemma with_query_rest params req :
  let q := with_query params req in
  (hq_Method q, hq_URL q, hq_Header q, hq_Body q) = (hq_Method req, hq_URL req, hq_Header req, hq_Body req).
Proof. unfold with_query. by case_decide. Qed.

Section adapters.
Context {N : Type} `{Net N} `{Strconv}.

(** The configured query parameters reach the server: in every request that an
    OpenAI-compatible adapter builds, the query decodes to the parameters of the
    URL with the configured ones set over them, and nothing else of the request
    depends on them. *)
Theorem configured_query o method path body apiKey req :
  openaicompat_buildRequest o method path body apiKey = inr req →
  ParseQuery (hq_RawQuery req) =
    ((λ v, [v]) <$> o.(oa_queryParams)) ∪ ParseQuery (cut_query (o.(oa_baseURL) +:+ path)).2 ∧
  ∃ req', openaicompat_buildRequest (mkOpenAICompat o.(oa_name) o.(oa_baseURL) o.(oa_authHeaderName) ∅)
      method path body apiKey = inr req' ∧
    (hq_Method req, hq_URL req, hq_Header req, hq_Body req) =
    (hq_Method req', hq_URL req', hq_Header req', hq_Body req').
Proof using Type.
  unfold openaicompat_buildRequest, NewRequest. cbn [oa_baseURL oa_authHeaderName oa_queryParams].
  destruct (request_error _ _); [done|]. intros [= <-]. split.
  - rewrite with_query_parsed. f_equal. by repeat case_decide.
  - eexists. split; [done|]. by rewrite with_query_rest.
Qed.

(** ** Credentials *)

(** Two requests that differ at most in one header. *)
Definition same_but (header : string) (q1 q2 : HTTPRequest) : Prop :=
  hq_Method q1 = hq_Method q2 ∧ hq_URL q1 = hq_URL q2 ∧ hq_RawQuery q1 = hq_RawQuery q2 ∧
  hq_Body q1 = hq_Body q2 ∧
  delete (CanonicalKey header) (hq_Header q1) = delete (CanonicalKey header) (hq_Header q2).

(** How a request depends on the key: not at all but for one header, which holds
    the credential, and which is absent without a key. *)
Definition key_confined (header : string) (value : string → string) (build : string → gerror + HTTPRequest) : Prop :=
  (∃ err, ∀ k, build k = inl err) ∨
  ∃ q, build "" = inr q ∧ hdr_values (hq_Header q) header = [] ∧
    ∀ k, k ≠ "" → ∃ qk, build k = inr qk ∧ hdr_values (hq_Header qk) header = [value k] ∧ same_but header q qk.

Lemma set_header_same header v q : hq_Header q !! CanonicalKey header = None →
  same_but header q (set_header header v q).
Proof using Type.
  intros Hn. repeat split. cbn. unfold hdr_set. by rewrite delete_insert_eq.
Qed.

Definition openaicompat_header (o : OpenAICompat) : string :=
  if decide (o.(oa_authHeaderName) = "") then "Authorization" else o.(oa_authHeaderName).
Definition openaicompat_credential (o : OpenAICompat) (k : string) : string :=
  if decide (o.(oa_authHeaderName) = "") then "Bearer " +:+ k else k.

Lemma anthropic_key_confined baseURL body :
  key_confined "x-api-key" id (anthropic_buildRequest baseURL body).
Proof using Type.
  unfold anthropic_buildRequest, NewRequest, key_confined. destruct (request_error _ _) as [e|]; [left; by eexists|].
  right. eexists. split; [done|]. split; [done|]. intros k Hk. rewrite decide_False by done. eexists. split; [done|].
  split; [apply hdr_values_set_eq|by apply set_header_same].
Qed.

Lemma gemini_key_confined baseURL model stream body :
  key_confined "x-goog-api-key" id (gemini_buildRequest baseURL model stream body).
Proof using Type.
  unfold gemini_buildRequest, NewRequest, key_confined. destruct (request_error _ _) as [e|]; [left; by eexists|].
  right. eexists. split; [done|]. split; [done|]. intros k Hk. rewrite decide_False by done. eexists. split; [done|].
  split; [apply hdr_values_set_eq|by apply set_header_same].
Qed.

Lemma with_query_same params header q q' : same_but header q q' →
  same_but header (with_query params q) (with_query params q').
Proof using Type. intros (?&?&Hq&?&?). unfold with_query, same_but. case_decide; [done|]. cbn. by rewrite Hq. Qed.

Lemma openaicompat_key_confined o method path body : CanonicalKey (openaicompat_header o) ≠ "Content-Type" →
  key_confined (openaicompat_header o) (openaicompat_credential o) (openaicompat_buildRequest o method path body).
Proof using Type.
  intros Hct. unfold openaicompat_buildRequest, NewRequest, key_confined.
  destruct (request_error _ _) as [e|]; [left; by eexists|]. cbn zeta. cbn [hq_Header].
  set (q0 := set_header "Content-Type" "application/json" _).
  assert (hq_Header q0 !! CanonicalKey (openaicompat_header o) = None) as Hn.
  { unfold q0. cbn. unfold hdr_set. change (CanonicalKey "Content-Type") with "Content-Type".
    by rewrite lookup_insert_ne. }
  clearbody q0. right. eexists. split; [by rewrite decide_True|].
  pose proof (with_query_rest o.(oa_queryParams) q0) as Hr. cbn zeta in Hr. injection Hr as _ _ Hh _.
  split; [unfold hdr_values; by rewrite Hh, Hn|]. intros k Hk.
  exists (with_query o.(oa_queryParams) (set_header (openaicompat_header o) (openaicompat_credential o k) q0)).
  split; [rewrite decide_False by done; unfold openaicompat_header, openaicompat_credential; by case_decide|].
  split; [|by apply with_query_same, set_header_same].
  pose proof (with_query_rest o.(oa_queryParams) (set_header (openaicompat_header o) (openaicompat_credential o k) q0)) as Hr'.
  cbn zeta in Hr'. injection Hr' as _ _ Hh' _. rewrite Hh'. apply hdr_values_set_eq.
Qed.

(** C16. An API key only ever travels in its header: in the requests of all three
    kinds of adapter the method, the URL, the query, the body and every other
    header do not depend on the key; the one header that does holds the
    credential alone, and is absent when there is no key. *)
Theorem credentials_confined :
  (∀ baseURL body, key_confined "x-api-key" id (anthropic_buildRequest baseURL body)) ∧
  (∀ baseURL model stream body, key_confined "x-goog-api-key" id (gemini_buildRequest baseURL model stream body)) ∧
  (∀ o method path body, CanonicalKey (openaicompat_header o) ≠ "Content-Type" →
     key_confined (openaicompat_header o) (openaicompat_credential o) (openaicompat_buildRequest o method path body)).
Proof using Type.
  split_and!; intros; [apply anthropic_key_confined|apply gemini_key_confined|by apply openaicompat_key_confined].
Qed.

(** ** The status of an answer *)

(** How a call on request [q] ends.  An answer of 400 or more is a provider error
    with its status and the text [say] takes from its body; a failure below that
    level keeps the status it may carry; a body that is [readable] is answered
    with the status and headers it came with, and one that is not is the
    translation's error. *)
Definition reports_status (q : HTTPRequest) (u : Up N) (say : string → string) (readable : string → bool)
    (relays : string → string → Prop) (result : gerror + ChatResponse) : Prop :=
  match (Do q u.(up_net)).1 with
  | inl err => ∃ e, result = inl e ∧ errors_As e = errors_As err
  | inr resp =>
    let body := body_text resp.(hr_Body) in
    match resp.(hr_Body).(rb_err) with
    | Some err => ∃ e, result = inl e ∧ errors_As e = errors_As err
    | None =>
      if 400 <=? resp.(hr_StatusCode) then result = inl (GProvider resp.(hr_StatusCode) (say body))
      else if readable body then
        ∃ out, relays body out ∧
          result = inr (mkChatResponse (Some out) resp.(hr_StatusCode) (Some resp.(hr_Header)))
      else ∃ err, result = inl (GWrap "translating response" (GWrap err (GPlain "json")))
    end
  end.

Definition anthropic_readable (body : string) : bool :=
  (Unmarshal dec_anthropicResponse body zero_anthropicResponse).2.
Definition gemini_readable (body : string) : bool := (Unmarshal dec_response body zero_response).2.

(** The answer is the translation of the body, at some reading of the clock. *)
Definition anthropic_relays (body out : string) : Prop :=
  ∃ now, Anthropic.translateResponse now (Some body) = inr out.
Definition gemini_relays (model body out : string) : Prop :=
  ∃ nano now, Gemini.translateResponse nano now (Some body) model = inr out.

(** A translation fails exactly on a body that does not decode. *)
Lemma anthropic_translates now body :
  match Anthropic.translateResponse now (Some body) with
  | inl err => anthropic_readable body = false ∧ ∃ e, err = GWrap e (GPlain "json")
  | inr _ => anthropic_readable body = true
  end.
Proof using Type.
  unfold Anthropic.translateResponse, anthropic_readable. cbn [bytes_of].
  destruct (Unmarshal _ _ _) as [? [|]]; [done|]. eauto.
Qed.

Lemma gemini_translates nano now body model :
  match Gemini.translateResponse nano now (Some body) model with
  | inl err => gemini_readable body = false ∧ ∃ e, err = GWrap e (GPlain "json")
  | inr _ => gemini_readable body = true
  end.
Proof using Type.
  unfold Gemini.translateResponse, gemini_readable. cbn [bytes_of].
  destruct (Unmarshal _ _ _) as [gem [|]]; [|eauto].
  by destruct (match default [] (gr_Candidates gem) with [] => _ | _ :: _ => _ end).
Qed.

Lemma openaicompat_reports o path failed reading body key req u :
  openaicompat_buildRequest o "POST" path (bytes_of body) key = inr req →
  reports_status req u id (λ _, true) eq (openaicompat_call o path failed reading body key u).1.
Proof using Type.
  intros Hb. unfold openaicompat_call, reports_status. rewrite Hb. unfold mbind, ST_bind, net_run.
  destruct (Do req (up_net u)) as [[err|resp] n]; cbn [fst]; [by eexists|]. unfold ReadAll.
  destruct (rb_err _); [by eexists|]. destruct (400 <=? _); [done|]. by eexists.
Qed.

Lemma anthropic_reports baseURL ctx creq out req u :
  Anthropic.translateRequest creq.(cq_RawBody) = inr out →
  anthropic_buildRequest baseURL out creq.(cq_APIKey) = inr req →
  reports_status req u anthropic_extractErrorMessage anthropic_readable anthropic_relays
    (anthropic_ChatCompletion baseURL ctx creq u).1.
Proof using Type.
  intros Ht Hb. unfold anthropic_ChatCompletion, reports_status. rewrite Ht, Hb. unfold mbind, ST_bind, net_run.
  destruct (Do req (up_net u)) as [[err|resp] n]; cbn [fst]; [by eexists|]. unfold ReadAll.
  destruct (rb_err _); [by eexists|]. destruct (400 <=? _); [done|]. cbn [up_net].
  destruct (Unix n) as [now n']. pose proof (anthropic_translates now (body_text (hr_Body resp))) as Ha.
  destruct (Anthropic.translateResponse now _) as [err|o] eqn:Ho; cbn [fst].
  - destruct Ha as [-> [e ->]]. by eexists.
  - rewrite Ha. exists o. split; [by exists now|done].
Qed.

Lemma gemini_reports baseURL ctx creq out model req u :
  Gemini.translateRequest creq.(cq_RawBody) = inr (out, model) →
  gemini_buildRequest baseURL model false out creq.(cq_APIKey) = inr req →
  reports_status req u gemini_extractErrorMessage gemini_readable (gemini_relays model)
    (gemini_ChatCompletion baseURL ctx creq u).1.
Proof using Type.
  intros Ht Hb. unfold gemini_ChatCompletion, reports_status. rewrite Ht, Hb. unfold mbind, ST_bind, net_run.
  destruct (Do req (up_net u)) as [[err|resp] n]; cbn [fst]; [by eexists|]. unfold ReadAll.
  destruct (rb_err _); [by eexists|]. destruct (400 <=? _); [done|]. cbn [up_net].
  destruct (UnixNano n) as [nano n']. cbn [up_net]. destruct (Unix n') as [now n''].
  pose proof (gemini_translates nano now (body_text (hr_Body resp)) model) as Ha.
  destruct (Gemini.translateResponse nano now _ _) as [err|o] eqn:Ho; cbn [fst].
  - destruct Ha as [-> [e ->]]. by eexists.
  - rewrite Ha. exists o. split; [by exists nano, now|done].
Qed.

(** C27. Calls are reported with their status: in all three kinds of adapter an
    answer of 400 or more becomes a provider error with that status and the
    message of its body, which is what the engine's retries and failover look at;
    an error of the transport or while reading the body stays an error without a
    status of its own; an answer below 400 is returned with its status and
    headers, with the very bytes of the upstream where the adapter speaks the
    client's format, and by an adapter that translates unless its body does not
    decode, which is the only case of the translation's error. *)
Theorem adapters_report_status u :
  (∀ o ctx creq req,
     openaicompat_buildRequest o "POST" "/chat/completions" (bytes_of creq.(cq_RawBody)) creq.(cq_APIKey) = inr req →
     reports_status req u id (λ _, true) eq (openaicompat_ChatCompletion o ctx creq u).1) ∧
  (∀ o ctx ereq req,
     openaicompat_buildRequest o "POST" "/embeddings" (bytes_of ereq.(eq_RawBody)) ereq.(eq_APIKey) = inr req →
     reports_status req u id (λ _, true) eq (openaicompat_Embeddings o ctx ereq u).1) ∧
  (∀ baseURL ctx creq out req,
     Anthropic.translateRequest creq.(cq_RawBody) = inr out →
     anthropic_buildRequest baseURL out creq.(cq_APIKey) = inr req →
     reports_status req u anthropic_extractErrorMessage anthropic_readable anthropic_relays
       (anthropic_ChatCompletion baseURL ctx creq u).1) ∧
  (∀ baseURL ctx creq out model req,
     Gemini.translateRequest creq.(cq_RawBody) = inr (out, model) →
     gemini_buildRequest baseURL model false out creq.(cq_APIKey) = inr req →
     reports_status req u gemini_extractErrorMessage gemini_readable (gemini_relays model)
       (gemini_ChatCompletion baseURL ctx creq u).1).
Proof using Type.
  split_and!; intros.
  - by apply openaicompat_reports.
  - by apply openaicompat_reports.
  - by eapply anthropic_reports.
  - by eapply gemini_reports.
Qed.

(** ** Answers *)

(** C26. A translated answer says what the upstream said: when the server answers a
    chat completion below 400 with a body that decodes, the client of an Anthropic
    or Gemini provider gets the status and headers of the answer and a body that
    decodes to the OpenAI response with the answer's id and model, the text of its
    text blocks (of its first candidate), the mapped stop reason and the token
    counts. *)
Theorem answers_translated ctx creq u n1 resp :
  (∀ n : N, in_int64 (Unix n).1) → resp.(hr_StatusCode) < 400 → resp.(hr_Body).(rb_err) = None →
  (∀ baseURL out req ant,
     Anthropic.translateRequest creq.(cq_RawBody) = inr out →
     anthropic_buildRequest baseURL out creq.(cq_APIKey) = inr req → Do req u.(up_net) = (inr resp, n1) →
     Unmarshal dec_anthropicResponse (body_text resp.(hr_Body)) zero_anthropicResponse = (ant, true) →
     ∃ body, (anthropic_ChatCompletion baseURL ctx creq u).1 =
         inr (mkChatResponse (Some body) resp.(hr_StatusCode) (Some resp.(hr_Header))) ∧
       Unmarshal dec_openaiResponse body zero_openaiResponse = (expected_response (Unix n1).1 ant, true)) ∧
  (∀ baseURL out model req gem,
     Gemini.translateRequest creq.(cq_RawBody) = inr (out, model) → valid_utf8 model →
     gemini_buildRequest baseURL model false out creq.(cq_APIKey) = inr req → Do req u.(up_net) = (inr resp, n1) →
     Unmarshal dec_response (body_text resp.(hr_Body)) zero_response = (gem, true) →
     ∃ body nano now, (gemini_ChatCompletion baseURL ctx creq u).1 =
         inr (mkChatResponse (Some body) resp.(hr_StatusCode) (Some resp.(hr_Header))) ∧
       Unmarshal dec_openaiResponse body zero_openaiResponse = (expected_gemini nano now model gem, true)).
Proof using Type.
  intros Hc Hs He. assert ((400 <=? resp.(hr_StatusCode)) = false) as Hs' by lia. split.
  - intros baseURL out req ant Ht Hb Hdo Hu.
    destruct (translateResponse_reads (Unix n1).1 (Some (body_text resp.(hr_Body))) ant (Hc n1) Hu) as (body & Hr & Hd).
    exists body. split; [|done]. unfold anthropic_ChatCompletion. rewrite Ht, Hb. unfold mbind, ST_bind, net_run.
    rewrite Hdo. unfold ReadAll. rewrite He, Hs'. cbn [up_net]. destruct (Unix n1). cbn in Hr. by rewrite Hr.
  - intros baseURL out model req gem Ht Hm Hb Hdo Hu.
    destruct (UnixNano n1) as [nano n2] eqn:En. destruct (Unix n2) as [now n3] eqn:Eu.
    destruct (gemini_response_reads nano now (Some (body_text resp.(hr_Body))) model gem) as (body & Hr & Hd);
      [specialize (Hc n2); by rewrite Eu in Hc|done..|].
    exists body, nano, now. split; [|done]. unfold gemini_ChatCompletion. rewrite Ht, Hb. unfold mbind, ST_bind, net_run.
    rewrite Hdo. unfold ReadAll. rewrite He, Hs'. cbn [up_net]. rewrite En. cbn [up_net]. rewrite Eu. by rewrite Hr.
Qed.

(** ** Errors of Gemini *)

(** Two results that are reported with the same text. *)
Definition same_report {A} (r1 r2 : gerror + A) : Prop :=
  r1 = r2 ∨ ∃ e1 e2, r1 = inl e1 ∧ r2 = inl e2 ∧ error_text e1 = error_text e2.

Lemma gemini_same_report u1 u2 err1 err2 :
  (∀ q, (Do q u1.(up_net)).1 = inl err1) → (∀ q, (Do q u2.(up_net)).1 = inl err2) →
  scrubKeyQuery (error_text err1) = scrubKeyQuery (error_text err2) → ∀ baseURL ctx,
  (∀ creq, same_report (gemini_ChatCompletion baseURL ctx creq u1).1 (gemini_ChatCompletion baseURL ctx creq u2).1) ∧
  (∀ creq, same_report (gemini_ChatCompletionStream baseURL ctx creq u1).1
             (gemini_ChatCompletionStream baseURL ctx creq u2).1) ∧
  (∀ method path body headers, same_report (gemini_Passthrough baseURL ctx method path body headers u1).1
             (gemini_Passthrough baseURL ctx method path body headers u2).1).
Proof using Type.
  intros H1 H2 Ht baseURL ctx.
  assert (∀ q, ∃ n1 n2, Do q u1.(up_net) = (inl err1, n1) ∧ Do q u2.(up_net) = (inl err2, n2)) as Hdo.
  { intros q. specialize (H1 q). specialize (H2 q). destruct (Do q (up_net u1)), (Do q (up_net u2)).
    cbn in *. subst. eauto. }
  split_and!; intros.
  - unfold gemini_ChatCompletion. destruct (Gemini.translateRequest _) as [?|[out model]]; [by left|].
    destruct (gemini_buildRequest _ _ _ _ _) as [?|q]; [by left|]. destruct (Hdo q) as (n1 & n2 & E1 & E2).
    unfold mbind, ST_bind, net_run. rewrite E1, E2. right. eexists _, _. split_and!; [done..|]. cbn [error_text]. by rewrite Ht.
  - unfold gemini_ChatCompletionStream. destruct (Gemini.translateRequest _) as [?|[out model]]; [by left|].
    destruct (gemini_buildRequest _ _ _ _ _) as [?|q]; [by left|]. destruct (Hdo q) as (n1 & n2 & E1 & E2).
    unfold mbind, ST_bind, net_run. rewrite E1, E2. right. eexists _, _. split_and!; [done..|]. cbn [error_text]. by rewrite Ht.
  - unfold gemini_Passthrough, plain_Passthrough. destruct (NewRequest _ _ _) as [?|q]; [by left|].
    destruct (Hdo (add_all headers q)) as (n1 & n2 & E1 & E2).
    unfold mbind, ST_bind, net_run. rewrite E1, E2. right. eexists _, _. split_and!; [done..|]. cbn [error_text]. by rewrite Ht.
Qed.

(** C25. The errors of Gemini do not show the key: two failures of the transport whose
    texts differ only in the value of a key= parameter of a URL are reported with
    the same text by every operation; the value runs to the next ampersand, quote
    or space. *)
Theorem gemini_errors_hide_key u1 u2 err1 err2 d pre v1 v2 post baseURL ctx :
  (∀ q, (Do q u1.(up_net)).1 = inl err1) → (∀ q, (Do q u2.(up_net)).1 = inl err2) →
  error_text err1 = pre +:+ String d ("key=" +:+ v1 +:+ post) →
  error_text err2 = pre +:+ String d ("key=" +:+ v2 +:+ post) →
  delimits (Some d) = true → value_text v1 → value_text v2 → value_end post →
  (∀ creq, same_report (gemini_ChatCompletion baseURL ctx creq u1).1 (gemini_ChatCompletion baseURL ctx creq u2).1) ∧
  (∀ creq, same_report (gemini_ChatCompletionStream baseURL ctx creq u1).1
             (gemini_ChatCompletionStream baseURL ctx creq u2).1) ∧
  (∀ method path body headers, same_report (gemini_Passthrough baseURL ctx method path body headers u1).1
             (gemini_Passthrough baseURL ctx method path body headers u2).1).
Proof using Type.
  intros H1 H2 E1 E2 Hd Hv1 Hv2 Hp. apply (gemini_same_report u1 u2 err1 err2 H1 H2). rewrite E1, E2.
  by apply scrubKeyQuery_hides.
Qed.
End adapters.

(** ** Examples *)

#[local] Existing Instance literal_floats.
#[local] Existing Instance canned_net.

(** The request of an Azure deployment. *)
Definition demo_azure : OpenAICompat := azureopenai_New "azureopenai" "https://h/openai/?tier=1" "2024-06-01".

Definition demo_azure_request : HTTPRequest :=
  match openaicompat_buildRequest demo_azure "POST" "&a=b" "{}" "k" with
  | inr q => q
  | inl _ => mkHTTPRequest "" "" "" ∅ (bytes_reader "")
  end.

Lemma demo_azure_built : openaicompat_buildRequest demo_azure "POST" "&a=b" "{}" "k" = inr demo_azure_request.
Proof. vm_compute. reflexivity. Qed.

Lemma configured_query_witness :
  ParseQuery (hq_RawQuery demo_azure_request) = {[ "api-version" := ["2024-06-01"]; "tier" := ["1"]; "a" := ["b"] ]}.
Proof.
  destruct (configured_query demo_azure "POST" "&a=b" "{}" "k" demo_azure_request demo_azure_built) as [Hq _].
  etransitivity; [exact Hq|]. vm_compute. reflexivity.
Defined.

Definition demo_answer : string :=
  dq "{'id':'msg_1','model':'claude','content':[{'type':'text','text':'Hello'}],'stop_reason':'end_turn','usage':{'input_tokens':3,'output_tokens':5}}".

Lemma answers_translated_witness :
  ∃ body, (anthropic_ChatCompletion "https://h" (mkCtx None None) demo_chat (canned demo_answer)).1 =
      inr (mkChatResponse (Some body) 200 (Some ∅)) ∧
    Unmarshal dec_openaiResponse body zero_openaiResponse =
      (mkOpenaiResponse "msg_1" "chat.completion" 1700000000 "claude"
         (Some [mkOpenaiChoice 0 (mkOpenaiMsg "assistant" "Hello") (Some "stop")]) (mkOpenaiUsage 3 5 8), true).
Proof.
  refine (proj1 (answers_translated (mkCtx None None) demo_chat (canned demo_answer)
    (up_net (canned demo_answer)) (up_net (canned demo_answer)) _ _ _) "https://h" _ _
    (mkAnthropicResponse "msg_1" "" "" (Some [mkPart "text" "Hello"]) "claude" "end_turn" (mkAnthropicUsage 3 5)) _ _ _ _).
  - intros n. done.
  - done.
  - done.
  - vm_compute. reflexivity.
  - reflexivity.
  - reflexivity.
  - vm_compute. reflexivity.
Defined.

(** A transport that fails with an error that shows the URL, for two keys. *)
Definition demo_failure (key : string) : gerror :=
  GPlain ("Post https://h/m" +:+ String "?" ("key=" +:+ key +:+ " refused")).

#[local] Instance two_keys : Net bool :=
  {| Do q := λ n, (inl (demo_failure (if n : bool then "SECRET1" else "S2")), n);
     Unix := λ n, (0, n);
     UnixNano := λ n, (0, n);
     request_error _ _ := None |}.

Lemma gemini_errors_hide_key_witness :
  same_report (gemini_ChatCompletion "https://h" (mkCtx None None) demo_chat (mkUp true ∅)).1
              (gemini_ChatCompletion "https://h" (mkCtx None None) demo_chat (mkUp false ∅)).1.
Proof.
  refine (proj1 (gemini_errors_hide_key (mkUp true ∅) (mkUp false ∅) (demo_failure "SECRET1") (demo_failure "S2") "?"%char "Post https://h/m" "SECRET1" "S2" " refused"
    "https://h" (mkCtx None None) _ _ _ _ _ _ _ _) demo_chat).
  - intros q. reflexivity.
  - intros q. reflexivity.
  - reflexivity.
  - reflexivity.
  - reflexivity.
  - split; [discriminate|reflexivity].
  - split; [discriminate|reflexivity].
  - reflexivity.
Defined.
