(* ===== verification/BedrockTheorems.v ===== *)
(** * Bodies rewritten for the upstream, the Bedrock adapter and the registry

    The two places that rewrite a request body field by field keep every other
    field; the Bedrock adapter never fails on a body the engine accepts, and the
    events it writes are read back; the registry that main builds does not depend
    on the order in which Go iterates over the configured providers. *)
From S2P Require Import Prelude GoStd Utf8 Json StreamDetect JsonGrammar JsonString JsonCompact JsonEnc JsonDecode JsonMap.
From S2P Require Import Config Usage CacheKey Engine OpenAIFormat Gemini Anthropic Transport Upstream Bedrock Sse.

(** ** InjectStreamOptions *)

Lemma include_usage_value : ∃ v, jvalue 1 include_usage v.
Proof.
  eexists. apply (encode_obj_value 1 [("include_usage", "true")]); [done|]. constructor; [apply (jv_bool _ true)|constructor].
Qed.

(** Asking for usage in a stream changes nothing else: when the body is an object
    that does not mention stream_options, the rewritten body is an object with
    the same keys and values but for stream_options, which asks for usage. *)
Theorem InjectStreamOptions_faithful body m :
  body ≠ "" → Contains body stream_options_key = false → Unmarshal dec_rawmap body None = (Some m, true) →
  ∃ out m', InjectStreamOptions body = Ret out ∧ Unmarshal dec_rawmap out None = (Some m', true) ∧
    ∀ k, raw_sem <$> m' !! k =
      if decide (k = "stream_options") then Some (raw_sem include_usage) else raw_sem <$> m !! k.
Proof.
  intros Hb Hc Hu. pose proof (decoded_rawmap _ _ Hu) as Hm. unfold InjectStreamOptions.
  rewrite decide_False, Hc, Hu by done. eexists _, _. split; [done|].
  assert (ok_rawmap (<["stream_options" := include_usage]> m)) as Hm'.
  { apply map_Forall_insert_2; [|done]. split; [done|apply include_usage_value]. }
  split; [by apply rawmap_roundtrip|]. intros k. rewrite (rawmap_values _ _ Hm' eq_refl).
  case_decide as E; [subst; by rewrite lookup_insert_eq|by rewrite lookup_insert_ne by congruence].
Qed.

Lemma InjectStreamOptions_faithful_witness :
  ∃ out m', InjectStreamOptions (dq "{'model':'m','stream':true}") = Ret out ∧
    Unmarshal dec_rawmap out None = (Some m', true) ∧
    ∀ k, raw_sem <$> m' !! k =
      if decide (k = "stream_options") then Some (raw_sem include_usage)
      else raw_sem <$> ({[ "model" := dq "'m'"; "stream" := "true" ]} : gmap string string) !! k.
Proof. apply InjectStreamOptions_faithful; [discriminate|reflexivity|vm_compute; reflexivity]. Defined.

(** ** The body for Bedrock *)

Definition bedrock_version : string := dq "'bedrock-2023-05-31'".

(** What becomes of a field. *)
Definition bedrock_field (m : gmap string string) (k : string) : option (option sem) :=
  if decide (k = "model" ∨ k = "stream") then None
  else if decide (k = "anthropic_version") then Some (default (raw_sem bedrock_version) (raw_sem <$> m !! k))
  else raw_sem <$> m !! k.

Lemma bedrock_version_value : ∃ v, jvalue 1 bedrock_version v.
Proof. eexists. apply (encode_string_value 1 "bedrock-2023-05-31"). Qed.

Lemma delete_ok k m : ok_rawmap m → ok_rawmap (delete k m).
Proof. apply map_Forall_delete. Qed.

Lemma prepareBedrockBody_fields body m : Unmarshal dec_rawmap body None = (Some m, true) →
  ∃ out m', prepareBedrockBody body = Ret out ∧ Unmarshal dec_rawmap out None = (Some m', true) ∧
    ∀ k, raw_sem <$> m' !! k = bedrock_field m k.
Proof.
  intros Hu. pose proof (decoded_rawmap _ _ Hu) as Hm. unfold prepareBedrockBody. rewrite Hu. cbn [default from_option id].
  pose proof (delete_ok "stream" _ (delete_ok "model" _ Hm)) as Hd.
  assert (∀ k, k ≠ "model" → k ≠ "stream" → delete "stream" (delete "model" m) !! k = m !! k) as Hk.
  { intros k H1 H2. by rewrite !lookup_delete_ne by congruence. }
  assert (∀ k, k = "model" ∨ k = "stream" → delete "stream" (delete "model" m) !! k = None) as Hn.
  { intros k [-> | ->]; [rewrite lookup_delete_ne by done|]; by rewrite lookup_delete_eq. }
  set (d := delete "stream" (delete "model" m)) in *. clearbody d.
  destruct (d !! "anthropic_version") as [v|] eqn:Ev.
  - eexists _, _. split; [done|]. split; [by apply rawmap_roundtrip|]. intros k. rewrite (rawmap_values _ _ Hd eq_refl).
    unfold bedrock_field. case_decide; [by rewrite Hn|]. rewrite Hk by tauto. case_decide as E; [|done]. subst.
    rewrite <-(Hk "anthropic_version"), Ev by done. done.
  - assert (ok_rawmap (<["anthropic_version" := bedrock_version]> d)) as Hd'.
    { apply map_Forall_insert_2; [|done]. split; [done|apply bedrock_version_value]. }
    eexists _, _. split; [done|]. split; [by apply rawmap_roundtrip|]. intros k. rewrite (rawmap_values _ _ Hd' eq_refl).
    unfold bedrock_field. case_decide as Ek; [rewrite lookup_insert_ne by (by destruct Ek as [-> | ->]); by rewrite Hn|].
    case_decide as E.
    + subst. rewrite lookup_insert_eq, <-(Hk "anthropic_version"), Ev by done. done.
    + rewrite lookup_insert_ne by congruence. by rewrite Hk by tauto.
Qed.

(** The member that a key selects among the two fields the adapter decodes, and
    among the one the engine decodes. *)
Lemma native_fields k :
  (find_field [dec_model; dec_stream] k = Some dec_model.2 ∧ find_field [dec_model] k = Some dec_model.2 ∧
   fold_name k ≠ "stream") ∨
  (find_field [dec_model; dec_stream] k = Some dec_stream.2 ∧ find_field [dec_model] k = None ∧
   fold_name k = "stream") ∨
  (find_field [dec_model; dec_stream] k = None ∧ find_field [dec_model] k = None ∧ fold_name k ≠ "stream").
Proof.
  unfold find_field, dec_model, dec_stream. cbn [list_find fst snd].
  change (fold_name "model") with "model". change (fold_name "stream") with "stream".
  destruct (decide ("model" = k)) as [<-|Hm]; [left; split_and!; try done; by vm_compute|].
  destruct (decide ("stream" = k)) as [<-|Hs].
  { right; left. cbn. by vm_compute. }
  cbn [fmap option_fmap option_map]. destruct (decide ("model" = fold_name k)) as [<-|Hm']; [by left|].
  destruct (decide ("stream" = fold_name k)) as [<-|Hs']; [by right; left|].
  right; right. by split_and!.
Qed.

(** Every member that decoding takes for the field [stream] is a boolean, or null. *)
Definition streams_ok (ms : list (string * string * json)) : bool :=
  forallb (λ '(k, _, v), if decide (fold_name (unquote k) = "stream")
                         then match v with JBool _ | JNull => true | _ => false end else true) ms.

Lemma dec_native ms : ∀ t t1 ok ok1,
  f_Model t = f_Model t1 →
  f_Model (dec_members [dec_model; dec_stream] ms t (ok1 && ok)).1 = f_Model (dec_members [dec_model] ms t1 ok1).1 ∧
  (dec_members [dec_model; dec_stream] ms t (ok1 && ok)).2 = (dec_members [dec_model] ms t1 ok1).2 && (ok && streams_ok ms).
Proof.
  induction ms as [|[[k raw] v] ms IH]; intros t t1 ok ok1 Ht; [cbn; by rewrite andb_true_r|].
  rewrite !dec_members_cons. cbn [streams_ok forallb]. fold (streams_ok ms).
  destruct (native_fields (unquote k)) as [(-> & -> & Hf)|[(-> & -> & ->)|(-> & -> & Hf)]].
  - rewrite decide_False by done. cbn [dec_model snd]. unfold field. rewrite <-Ht.
    destruct (dec_string v raw (f_Model t)) as [x b]. cbn [fst snd].
    rewrite <-andb_assoc, (andb_comm ok b), andb_assoc. by apply IH.
  - rewrite decide_True by done. cbn [dec_stream snd]. unfold field.
    assert ((dec_bool v raw (f_Stream t)).2 = match v with JBool _ | JNull => true | _ => false end) as <- by by destruct v.
    destruct (dec_bool v raw (f_Stream t)) as [x b]. cbn [fst snd].
    rewrite <-andb_assoc, (andb_assoc ok b). by apply IH.
  - rewrite decide_False by done. by apply IH.
Qed.

(** A body from which a model was read is an object. *)
Lemma model_object body f : Unmarshal (dec_struct [dec_model]) body (mkFields "" false "") = (f, true) →
  f.(f_Model) ≠ "" → ∃ ms m, parse body = Some (JObj ms) ∧ Unmarshal dec_rawmap body None = (Some m, true) ∧
    (dec_members [dec_model] ms (mkFields "" false "") true) = (f, true).
Proof.
  unfold Unmarshal. destruct (parse body) as [j|]; [|done]. destruct j; cbn [dec_struct dec_rawmap]; try done.
  - intros [= <-]. done.
  - eauto.
Qed.

Section bedrock.
Context {N : Type} `{Aws N}.

(** C28. What the Bedrock adapter does with every body the engine hands it, that is
    with every body a model is read from: it never panics; unless some member taken
    for stream is neither a boolean nor null, the service is called with the mapped
    model id, by the streaming call exactly when the request streams, on a body
    that has the fields of the request without model and stream and with an
    anthropic_version, the one of the request if there is one; and on the other
    bodies it reports the parse error and does not call the service. *)
Theorem bedrock_request_faithful modelMap body f n :
  Unmarshal (dec_struct [dec_model]) body (mkFields "" false "") = (f, true) → f.(f_Model) ≠ "" →
  ∃ ms, parse body = Some (JObj ms) ∧
  if streams_ok ms then
    ∃ f' m out m',
      Unmarshal (dec_struct [dec_model; dec_stream]) body (mkFields "" false "") = (f', true) ∧
      f'.(f_Model) = f.(f_Model) ∧
      Unmarshal dec_rawmap body None = (Some m, true) ∧ Unmarshal dec_rawmap out None = (Some m', true) ∧
      (∀ k, raw_sem <$> m' !! k = bedrock_field m k) ∧
      bedrock_HandleAnthropicNative modelMap (Some body) n =
        let '(r, n') := (if f'.(f_Stream) then invokeStream (MapModel modelMap f.(f_Model)) out
                         else invoke (MapModel modelMap f.(f_Model)) out) n in (Ret r, n')
  else bedrock_HandleAnthropicNative modelMap (Some body) n =
         (Ret (inl (GWrap "parsing request body" (GPlain "json"))), n).
Proof using Type.
  intros Hf Hm. destruct (model_object body f Hf Hm) as (ms & m & Hp & Hu & Hd). exists ms. split; [done|].
  destruct (dec_native ms (mkFields "" false "") (mkFields "" false "") true true eq_refl) as [E1 E2].
  rewrite Hd, andb_true_l in E2. rewrite Hd in E1. cbn [fst snd andb] in E1, E2.
  assert (Unmarshal (dec_struct [dec_model; dec_stream]) body (mkFields "" false "") =
    dec_members [dec_model; dec_stream] ms (mkFields "" false "") true) as Hboth
    by (unfold Unmarshal; by rewrite Hp).
  unfold bedrock_HandleAnthropicNative. cbn [bytes_of default from_option id]. rewrite Hboth.
  destruct (dec_members [dec_model; dec_stream] _ _ _) as [f' ok]. cbn [fst snd] in *. subst ok.
  destruct (streams_ok ms); [|done].
  destruct (prepareBedrockBody_fields body m Hu) as (out & m' & Hpb & Hu' & Hk).
  exists f', m, out, m'. split_and!; [done..|]. rewrite Hpb, E1. unfold mbind, ST_bind.
  destruct (f_Stream f');
    [by destruct (invokeStream (MapModel modelMap (f_Model f)) out n)|by destruct (invoke (MapModel modelMap (f_Model f)) out n)].
Qed.

(** ** The events of a stream *)

(** What the reader of the native stream sees. *)
Inductive reads_events : reader → list (string * string) → Prop :=
| reads_events_end r r' : readEvent (S (rd_size r)) r "" "" = (EvEOF, r') → reads_events r []
| reads_events_next r ty data r' evs :
    readEvent (S (rd_size r)) r "" "" = (EvEvent ty data, r') → reads_events r' evs →
    reads_events r ((ty, data) :: evs).

(** The chunks of the service with their types. *)
Definition typed (ev : string * string) : Prop := Unmarshal dec_eventType ev.2 "" = (ev.1, true).

Lemma pump_events evs : Forall typed evs → pump ((λ ev, BChunk ev.2) <$> evs) (BClosed None) =
  (event_text newline_str <$> evs, None).
Proof using Type.
  induction 1 as [|[ty data] evs Ht _ IH]; [done|]. rewrite !fmap_cons. cbn [pump snd].
  unfold typed in Ht. cbn [fst snd] in Ht. rewrite Ht, IH. done.
Qed.

Lemma events_read_back evs : Forall tidy_event evs →
  reads_events (mkReader (concat (event_lines newline_str <$> evs)) "" None) evs.
Proof using Type.
  induction 1 as [|[ty data] evs Hev _ IH]; [by eapply reads_events_end|].
  cbn [fmap list_fmap concat]. eapply reads_events_next; [|exact IH].
  apply (readEvent_event newline_str (ty, data)); [by left|done].
Qed.

(** C29. A Bedrock stream reads back as the service sent it: the events that the
    service delivers, each a one-line JSON object with its type, come out of the
    response body as server-sent events with the same types and data, in the same
    order, and then the body ends. *)
Theorem bedrock_stream_roundtrip modelID body n n' evs :
  InvokeModelWithResponseStream modelID body n = (inr ((λ ev, BChunk ev.2) <$> evs, BClosed None), n') →
  Forall typed evs → Forall tidy_event evs →
  ∃ resp, invokeStream modelID body n = (inr resp, n') ∧ resp.(hr_StatusCode) = 200 ∧
    reads_events (NewReader resp.(hr_Body)) evs.
Proof using Type.
  intros Hi Hty Htidy. unfold invokeStream, mbind, ST_bind. rewrite Hi, pump_events by done.
  eexists. split; [done|]. split; [done|]. cbn [hr_Body]. unfold NewReader, body_text. cbn [rb_reads rb_err].
  rewrite <-(str_app_nil_r (String.concat _ _)), split_events by (by try left).
  cbn [split_lines fst snd]. rewrite app_nil_r. by apply events_read_back.
Qed.
End bedrock.

(** ** The registry *)

Section registry.
Context {N : Type} `{Net N} `{Aws N} `{Strconv}.
Implicit Types l : list (string * ProviderConfig).

Lemma register_one_name aws_ok name c (p : Provider (Up N) positive) :
  register_one aws_ok name c = RegProvider p → p.(pv_Name) = name.
Proof using Type.
  unfold register_one. intros Hr. repeat (case_decide; [subst; repeat case_match; by simplify_eq|]).
  destruct (HasPrefix name "azureopenai"); by simplify_eq.
Qed.

(** The provider of a configured name. *)
Definition provider_for (aws_ok : ProviderConfig → bool) (name : string) (c : ProviderConfig)
  : option (Provider (Up N) positive) :=
  match register_one aws_ok name c with RegProvider p => Some p | _ => None end.

Lemma register_all_lookup aws_ok l : NoDup l.*1 → ∀ r r' : Registry (Up N) positive,
  register_all aws_ok l r = Some r' →
  ∀ name, r' !! name = match (list_to_map l : gmap string ProviderConfig) !! name with
                       | Some c => from_option Some (r !! name) (provider_for aws_ok name c)
                       | None => r !! name
                       end.
Proof using Type.
  induction l as [|[n c] l IH]; intros Hnd r r' Hr name; cbn [register_all] in Hr.
  - cbn. rewrite lookup_empty. by simplify_eq.
  - rewrite fmap_cons in Hnd. cbn [fst] in Hnd. apply list.NoDup_cons in Hnd as [Hni Hnd]. rewrite list_to_map_cons.
    assert ((list_to_map l : gmap string ProviderConfig) !! n = None) as Hl by by apply not_elem_of_list_to_map_1.
    destruct (decide (name = n)) as [-> |Hne].
    + rewrite lookup_insert_eq. unfold provider_for. destruct (register_one aws_ok n c) as [p| |] eqn:E; [..|done].
      * rewrite (IH Hnd _ _ Hr n), Hl. unfold RegistryRegister. rewrite (register_one_name _ _ _ _ E). by rewrite lookup_insert_eq.
      * by rewrite (IH Hnd _ _ Hr n), Hl.
    + rewrite lookup_insert_ne by congruence. destruct (register_one aws_ok n c) as [p| |] eqn:E; [..|done].
      * rewrite (IH Hnd _ _ Hr name). unfold RegistryRegister. rewrite (register_one_name _ _ _ _ E).
        by rewrite lookup_insert_ne by congruence.
      * by rewrite (IH Hnd _ _ Hr name).
Qed.

Definition exits (aws_ok : ProviderConfig → bool) (x : string * ProviderConfig) : Prop :=
  register_one (N := N) aws_ok x.1 x.2 = RegExit.

Lemma register_all_exits aws_ok l : ∀ r : Registry (Up N) positive,
  register_all aws_ok l r = None ↔ Exists (exits aws_ok) l.
Proof using Type.
  induction l as [|[n c] l IH]; intros r; cbn [register_all]; [split; [done|by inversion 1]|].
  rewrite Exists_cons. unfold exits at 1. cbn [fst snd].
  destruct (register_one aws_ok n c); [rewrite IH; split; [by right|by intros [?|?]]..|split; [by left|done]].
Qed.

(** Registration depends on the configuration only: whatever the order in which
    the configured providers are visited, the program exits if one of them cannot
    be built, and otherwise ends up with the same registry, in which every name
    that is configured and known stands for a provider with that name, and no
    other name is registered. *)
Theorem registration_deterministic aws_ok l l' : NoDup l.*1 → l ≡ₚ l' →
  register_all (N := N) aws_ok l ∅ = register_all aws_ok l' ∅ ∧
  match register_all (N := N) aws_ok l ∅ with
  | None => Exists (exits aws_ok) l
  | Some r => ∀ name, r !! name = (list_to_map l : gmap string ProviderConfig) !! name ≫= provider_for aws_ok name ∧
      from_option (λ p, p.(pv_Name) = name) True (r !! name)
  end.
Proof using Type.
  intros Hnd Hp. assert (NoDup l'.*1) as Hnd' by by rewrite <-Hp.
  assert (∀ l r, NoDup l.*1 → register_all (N := N) aws_ok l ∅ = Some r →
    ∀ name, r !! name = (list_to_map l : gmap string ProviderConfig) !! name ≫= provider_for aws_ok name) as Hlk.
  { intros k r Hk Hr name. rewrite (register_all_lookup aws_ok k Hk ∅ r Hr name), lookup_empty.
    destruct (list_to_map k !! name); [cbn|done]. by destruct (provider_for _ _ _). }
  destruct (register_all aws_ok l ∅) as [r|] eqn:E; destruct (register_all aws_ok l' ∅) as [r'|] eqn:E'.
  - split.
    + f_equal. apply map_eq. intros name. rewrite (Hlk l r), (Hlk l' r') by done.
      by rewrite (list_to_map_proper l l').
    + intros name. rewrite (Hlk l r) by done. split; [done|]. destruct (list_to_map l !! name); [cbn|done].
      unfold provider_for. destruct (register_one _ _ _) eqn:Er; cbn; [by eapply register_one_name|done..].
  - apply register_all_exits in E'. rewrite <-Hp in E'. apply (register_all_exits aws_ok l ∅) in E'. congruence.
  - apply register_all_exits in E. rewrite Hp in E. apply (register_all_exits aws_ok l' ∅) in E. congruence.
  - split; [done|]. by apply register_all_exits in E.
Qed.
End registry.

(** ** Examples *)

Definition demo_chunks : list (string * string) :=
  [("message_start", dq "{'type':'message_start'}"); ("message_stop", dq "{'type':'message_stop'}")].

#[local] Instance demo_aws : Aws unit :=
  {| InvokeModel _ _ := λ n, (inr "{}", n);
     InvokeModelWithResponseStream _ _ := λ n, (inr ((λ ev, BChunk ev.2) <$> demo_chunks, BClosed None), n) |}.

#[local] Instance demo_net : Net unit :=
  {| Do _ := λ n, (inl (GPlain "refused"), n);
     Unix := λ n, (0, n);
     UnixNano := λ n, (0, n);
     request_error _ _ := None |}.

#[local] Existing Instance literal_floats.

Definition demo_native : string := dq "{'model':'claude-3-opus-20240229','max_tokens':5,'stream':true}".

Definition demo_odd_stream : string := dq "{'model':'claude-3-opus-20240229','stream':'yes'}".

Lemma bedrock_request_faithful_witness :
  (∃ out m', Unmarshal dec_rawmap out None = (Some m', true) ∧
    (∀ k, raw_sem <$> m' !! k = bedrock_field {[ "model" := dq "'claude-3-opus-20240229'"; "max_tokens" := "5"; "stream" := "true" ]} k) ∧
    bedrock_HandleAnthropicNative (bedrock_New ∅) (Some demo_native) tt =
      let '(r, n') := invokeStream (MapModel (bedrock_New ∅) "claude-3-opus-20240229") out tt in (Ret r, n')) ∧
  bedrock_HandleAnthropicNative (bedrock_New ∅) (Some demo_odd_stream) tt =
    (Ret (inl (GWrap "parsing request body" (GPlain "json"))), tt).
Proof.
  split.
  - destruct (bedrock_request_faithful (bedrock_New ∅) demo_native (mkFields "claude-3-opus-20240229" false "") tt)
      as (ms & Hp & Hs); [vm_compute; reflexivity|discriminate|].
    apply (f_equal (option_map (λ j, match j with JObj ms => streams_ok ms | _ => false end))) in Hp as Hok.
    assert (streams_ok ms = true) as Hok' by (injection Hok as <-; vm_compute; reflexivity).
    rewrite Hok' in Hs. destruct Hs as (f' & m & out & m' & Hf & Hm & Hu & Hu' & Hk & E).
    exists out, m'. split; [exact Hu'|].
    assert (Some m = Some {[ "model" := dq "'claude-3-opus-20240229'"; "max_tokens" := "5"; "stream" := "true" ]}) as [= ->]
      by (apply (f_equal fst) in Hu; cbn [fst] in Hu; rewrite <-Hu; vm_compute; reflexivity).
    split; [exact Hk|]. rewrite E.
    assert (f' = mkFields "claude-3-opus-20240229" true "") as ->; [|reflexivity].
    apply (f_equal fst) in Hf. cbn [fst] in Hf. rewrite <-Hf. vm_compute. reflexivity.
  - destruct (bedrock_request_faithful (bedrock_New ∅) demo_odd_stream (mkFields "claude-3-opus-20240229" false "") tt)
      as (ms & Hp & Hs); [vm_compute; reflexivity|discriminate|].
    apply (f_equal (option_map (λ j, match j with JObj ms => streams_ok ms | _ => false end))) in Hp as Hok.
    assert (streams_ok ms = false) as Hok' by (injection Hok as <-; vm_compute; reflexivity).
    by rewrite Hok' in Hs.
Defined.

Lemma bedrock_stream_roundtrip_witness :
  ∃ resp, invokeStream "id" "{}" tt = (inr resp, tt) ∧ resp.(hr_StatusCode) = 200 ∧
    reads_events (NewReader resp.(hr_Body)) demo_chunks.
Proof.
  apply (bedrock_stream_roundtrip "id" "{}" tt tt demo_chunks).
  - reflexivity.
  - repeat constructor; vm_compute; reflexivity.
  - repeat constructor.
Defined.

Definition demo_pc (url version : string) : ProviderConfig :=
  mkProviderConfig url [] "" "" "" ∅ version.

Definition demo_providers : list (string * ProviderConfig) :=
  [("openai", demo_pc "" ""); ("azureopenai-eu", demo_pc "https://h" "2024-06-01"); ("unknown", demo_pc "" "")].

Lemma registration_deterministic_witness :
  register_all (N := unit) (λ _, true) demo_providers ∅ = register_all (λ _, true) (reverse demo_providers) ∅.
Proof.
  refine (proj1 (registration_deterministic (λ _, true) demo_providers (reverse demo_providers) _ _)).
  - apply (bool_decide_eq_true_1 _). vm_compute. reflexivity.
  - symmetry. apply reverse_Permutation.
Defined.
