(* ===== verification/HttpClient.v ===== *)
(** * The upstream client: the idle timeout (internal/provider/httpclient.go)

    The client of all HTTP providers gives up on an upstream that makes no progress
    for a while: the upload and the wait for the headers, and then every gap
    between reads of the body, may take [timeout].  One exchange is a small state
    machine; the timer's function runs on its own, some time after it is due.
    Instants and durations are in nanoseconds. *)
From S2P Require Import Prelude.

(** ** Settings *)

Definition second : Z := 1000000000.

(** The transport's settings; [cs_idle] is [None] when no idle timeout wraps it. *)
Record client_settings := mkSettings {
  cs_DialTimeout : Z;
  cs_KeepAlive : Z;
  cs_TLSHandshakeTimeout : Z;
  cs_MaxIdleConns : Z;
  cs_MaxIdleConnsPerHost : Z;
  cs_IdleConnTimeout : Z;
  cs_idle : option Z
}.

Definition NewHTTPClient (timeout : Z) : client_settings :=
  mkSettings (30 * second) (30 * second) (10 * second) 0 1024 (90 * second)
    (if timeout <=? 0 then None else Some timeout).

(** ** One exchange *)

(** An error of the inner transport or body, or the timeout's own. *)
Inductive net_error := ErrInner (text : string) | ErrUpstreamIdle.

Inductive phase := Waiting | Reading | Ended.

(** [x_timer] is when the timer is due, if it is running; [x_canceled] says that the
    context of the inner request is cancelled. *)
Record exchange := mkExchange {
  x_timer : option Z;
  x_expired : bool;
  x_canceled : bool;
  x_phase : phase
}.

Section exchange.
Context (timeout : Z).

(** [RoundTrip] up to the call of the inner transport. *)
Definition begin_ (now : Z) : exchange := mkExchange (Some (now + timeout)) false false Waiting.

(** The function of the timer. *)
Definition expire (x : exchange) : exchange := mkExchange None true true x.(x_phase).

(** The rest of [RoundTrip], on the result of the inner transport. *)
Definition RoundTrip (now : Z) (err : option net_error) (x : exchange) : option net_error * exchange :=
  match err with
  | Some e => (Some (if x.(x_expired) then ErrUpstreamIdle else e), mkExchange None x.(x_expired) true Ended)
  | None => (None, mkExchange (Some (now + timeout)) x.(x_expired) x.(x_canceled) Reading)
  end.

(** [Read], on what the inner body returns. *)
Definition Read (now : Z) (n : Z) (err : option net_error) (x : exchange) : Z * option net_error * exchange :=
  let x' := if 0 <? n then mkExchange (Some (now + timeout)) x.(x_expired) x.(x_canceled) x.(x_phase) else x in
  (n, match err with Some e => Some (if x.(x_expired) then ErrUpstreamIdle else e) | None => None end, x').

Definition Close (x : exchange) : exchange := mkExchange None x.(x_expired) true Ended.

(** ** Runs *)

(** The clock, the instant of the last progress and the exchange. *)
Record xstate := mkX { xs_now : Z; xs_last : Z; xs_x : exchange }.

Inductive xstep : xstate → xstate → Prop :=
| x_passes now last x t : 0 <= t → xstep (mkX now last x) (mkX (now + t) last x)
| x_fires now last x due : x.(x_timer) = Some due → due <= now → xstep (mkX now last x) (mkX now last (expire x))
| x_headers now last x err : x.(x_phase) = Waiting →
    xstep (mkX now last x) (mkX now (if err is None then now else last) (RoundTrip now err x).2)
| x_reads now last x n err : x.(x_phase) = Reading → 0 <= n →
    xstep (mkX now last x) (mkX now (if 0 <? n then now else last) (Read now n err x).2)
| x_closes now last x : x.(x_phase) = Reading → xstep (mkX now last x) (mkX now last (Close x)).

Definition x_start (now : Z) : xstate := mkX now now (begin_ now).

(** While the exchange goes on, the timer is due [timeout] after the last progress,
    or it has run; after the end it does not run. *)
Definition timed (s : xstate) : Prop :=
  s.(xs_last) <= s.(xs_now) ∧
  match s.(xs_x).(x_timer) with
  | Some due => due = s.(xs_last) + timeout ∧ s.(xs_x).(x_phase) ≠ Ended
  | None => s.(xs_x).(x_phase) = Ended ∨ s.(xs_x).(x_expired) = true
  end ∧
  (s.(xs_x).(x_expired) = true → s.(xs_x).(x_canceled) = true).

Lemma xstep_timed s s' : xstep s s' → timed s → timed s'.
Proof using Type.
  destruct 1 as [now last x t Ht|now last x due Hd Hn|now last x err Hp|now last x n err Hp Hn|now last x Hp];
    unfold timed; cbn [xs_now xs_last xs_x]; intros (Hl & Ht' & He).
  - split_and!; [lia|done|done].
  - split_and!; [lia|by right|done].
  - destruct err as [e|]; cbn; [split_and!; [lia|by left|done]|split_and!; [lia|lia|done|done]].
  - unfold Read. cbn [snd]. destruct (Z.ltb_spec 0 n); cbn; [|done]. rewrite Hp. split_and!; try lia; done.
  - split_and!; [lia|by left|done].
Qed.

Lemma reachable_timed t0 s : rtc xstep (x_start t0) s → timed s.
Proof using Type.
  assert (timed (x_start t0)) as H0 by (unfold timed; cbn; split_and!; [lia|lia|done|done]).
  generalize dependent (x_start t0). induction 2; eauto using xstep_timed.
Qed.

(** The upstream always made progress in time. *)
Inductive prompt : xstate → xstate → Prop :=
| prompt_refl s : s.(xs_now) < s.(xs_last) + timeout → prompt s s
| prompt_step s s1 s2 : prompt s s1 → xstep s1 s2 → s2.(xs_now) < s2.(xs_last) + timeout → prompt s s2.

Lemma prompt_rtc s s' : prompt s s' → rtc xstep s s'.
Proof using Type. induction 1; [done|by eapply rtc_r]. Qed.

Lemma prompt_last s s' : prompt s s' → s'.(xs_now) < s'.(xs_last) + timeout.
Proof using Type. by destruct 1. Qed.

Lemma prompt_unexpired t0 s : prompt (x_start t0) s → s.(xs_x).(x_expired) = false.
Proof using Type.
  intros Hp. remember (x_start t0) as s0 eqn:E0.
  induction Hp as [s|s s1 s2 Hp IH Hs Hl]; [by rewrite E0|]. specialize (IH E0).
  pose proof (reachable_timed t0 s1) as Ht. rewrite <-E0 in Ht. specialize (Ht (prompt_rtc _ _ Hp)). destruct Ht as (_ & Ht & _).
  pose proof (prompt_last _ _ Hp) as Hp1.
  destruct Hs as [| now last x due Hd Hn|now last x err Hph|now last x n err Hph Hn|]; cbn in *; try done.
  - rewrite Hd in Ht. destruct Ht as [-> _]. lia.
  - by destruct err.
  - by destruct (0 <? n).
Qed.

(** C33. The idle timeout is exact: an exchange in which the upstream never lets
    [timeout] pass without progress is never cut off, however long it takes, and its
    errors are passed on as they are; once [timeout] has passed without progress
    the timer has run or may run now, which cancels the request, and from then on
    every failure is reported as the timeout; after the end no timer runs. *)
Theorem idle_timeout_exact t0 s : 0 < timeout → rtc xstep (x_start t0) s →
  (prompt (x_start t0) s → s.(xs_x).(x_expired) = false ∧
     ∀ now n e, (Read now n (Some e) s.(xs_x)).1.2 = Some e ∧ (RoundTrip now (Some e) s.(xs_x)).1 = Some e) ∧
  (s.(xs_x).(x_phase) ≠ Ended → s.(xs_last) + timeout <= s.(xs_now) →
     s.(xs_x).(x_expired) = true ∨ xstep s (mkX s.(xs_now) s.(xs_last) (expire s.(xs_x)))) ∧
  (s.(xs_x).(x_expired) = true → s.(xs_x).(x_canceled) = true ∧
     ∀ now n e, (Read now n (Some e) s.(xs_x)).1.2 = Some ErrUpstreamIdle ∧
                (RoundTrip now (Some e) s.(xs_x)).1 = Some ErrUpstreamIdle) ∧
  (s.(xs_x).(x_phase) = Ended → s.(xs_x).(x_timer) = None).
Proof using Type.
  intros Hto Hr. pose proof (reachable_timed t0 s Hr) as (Hl & Ht & He). split_and!.
  - intros Hp. pose proof (prompt_unexpired t0 s Hp) as Hx. split; [done|]. intros now n e. cbn. by rewrite Hx.
  - intros Hph Hs. destruct s as [now last x]. cbn in *. destruct (x_timer x) as [due|] eqn:Ed.
    + right. apply (x_fires now last x due); [done|lia].
    + destruct Ht as [?|?]; [done|by left].
  - intros Hx. split; [by apply He|]. intros now n e. cbn. by rewrite Hx.
  - intros Hph. destruct (x_timer (xs_x s)); [by destruct Ht|done].
Qed.
End exchange.

(** Headers after 5, a read after 8 more of a timeout of 10, then silence. *)
Definition demo_exchange : xstate :=
  mkX 25 13 (expire (Read 10 13 7 None (RoundTrip 10 5 None (begin_ 10 0)).2).2).

Lemma demo_exchange_reached : rtc (xstep 10) (x_start 10 0) demo_exchange.
Proof.
  eapply rtc_l; [apply (x_passes 10 0 0 _ 5); lia|].
  eapply rtc_l; [apply (x_headers 10 (0 + 5) 0 _ None); reflexivity|].
  eapply rtc_l; [apply (x_passes 10 (0 + 5) _ _ 8); lia|].
  eapply rtc_l; [apply (x_reads 10 (0 + 5 + 8) _ _ 7 None); [reflexivity|lia]|].
  eapply rtc_l; [apply (x_passes 10 (0 + 5 + 8) _ _ 12); lia|].
  eapply rtc_l; [eapply (x_fires 10 (0 + 5 + 8 + 12)); [reflexivity|vm_compute; discriminate]|]. apply rtc_refl.
Qed.

Lemma idle_timeout_exact_witness :
  x_canceled (xs_x demo_exchange) = true ∧
  (Read 10 30 0 (Some (ErrInner "context canceled")) (xs_x demo_exchange)).1.2 = Some ErrUpstreamIdle.
Proof.
  destruct (idle_timeout_exact 10 0 demo_exchange ltac:(lia) demo_exchange_reached) as (_ & _ & Hx & _).
  destruct (Hx eq_refl) as [Hc Hr]. split; [exact Hc|]. apply (Hr 30 0 (ErrInner "context canceled")).
Defined.
