(* ===== verification/NetIP.v ===== *)
(** * What the rate limiter uses of net/netip and net

    Addresses, their textual forms, prefixes, and the splitting of a host from
    its port, as executable functions. *)
From stdpp Require Import pretty.
From S2P Require Import Prelude GoStd Json.

(** ** Addresses *)

(** [netip.Addr]: the zero value, an IPv4 address, or an IPv6 address with its
    zone. *)
Inductive Addr :=
| AInvalid
| A4 (bits : Z)
| A6 (bits : Z) (zone : string).

#[global] Instance Addr_eq_dec : EqDecision Addr.
Proof. solve_decision. Defined.

Definition IsValid (a : Addr) : bool := match a with AInvalid => false | _ => true end.
Definition BitLen (a : Addr) : Z :=
  match a with AInvalid => 0 | A4 _ => 32 | A6 _ _ => 128 end.
Definition Is4In6 (a : Addr) : bool :=
  match a with A6 b _ => Z.shiftr b 32 =? 65535 | _ => false end.
Definition Unmap (a : Addr) : Addr :=
  match a with
  | A6 b _ => if Is4In6 a then A4 (b mod 2 ^ 32) else a
  | _ => a
  end.
Definition WithZone (z : string) (a : Addr) : Addr :=
  match a with A6 b _ => A6 b z | _ => a end.

(** ** Parsing *)

Definition c_dot : ascii := byte_of 46.
Definition c_colon : ascii := byte_of 58.
Definition c_percent : ascii := byte_of 37.
Definition c_slash : ascii := byte_of 47.

(** One decimal field: digits, no leading zero, at most 255. *)
Definition parse_octet (s : string) : option Z :=
  match s with
  | EmptyString => None
  | String c r =>
    if negb (str_forallb is_digit s) then None
    else if (code c =? 48) && negb (bool_decide (r = "")) then None
    else let v := digits_val 0 s in if 255 <? v then None else Some v
  end.

Definition parseIPv4 (s : string) : option Z :=
  match Split s c_dot with
  | [a; b; c; d] =>
    a ← parse_octet a; b ← parse_octet b; c ← parse_octet c; d ← parse_octet d;
    Some (((a * 256 + b) * 256 + c) * 256 + d)
  | _ => None
  end.

(** The hexadecimal digits a field starts with. *)
Fixpoint span_hex (s : string) : string * string :=
  match s with
  | EmptyString => ("", "")
  | String c r =>
    if is_hex c then let '(d, rest) := span_hex r in (String c d, rest) else ("", s)
  end.

Fixpoint hex_value (acc : Z) (s : string) : Z :=
  match s with EmptyString => acc | String c r => hex_value (acc * 16 + hex_val c) r end.

(** The loop over the 16-bit groups: the groups so far, where the ellipsis is,
    and the text left. *)
Fixpoint ipv6_loop (fuel : nat) (groups : list Z) (ellipsis : option nat) (s : string)
  : option (list Z * option nat * string) :=
  match fuel with
  | O => Some (groups, ellipsis, s)
  | S fuel' =>
    if (8 <=? length groups)%nat then Some (groups, ellipsis, s) else
    let '(d, rest) := span_hex s in
    if decide (d = "") then None else
    if (4 <? String.length d)%nat then None else
    match rest with
    | String c r =>
      if ascii_dec c c_dot then
        if bool_decide (ellipsis = None) && negb (length groups =? 6)%nat then None
        else if (6 <? length groups)%nat then None
        else v4 ← parseIPv4 s;
             Some (groups ++ [v4 / 65536; v4 mod 65536], ellipsis, "")
      else if negb (bool_decide (c = c_colon)) then None
      else
        let groups := groups ++ [hex_value 0 d] in
        match r with
        | EmptyString => None
        | String c2 r2 =>
          if ascii_dec c2 c_colon then
            match ellipsis with
            | Some _ => None
            | None =>
              if decide (r2 = "") then Some (groups, Some (length groups), "")
              else ipv6_loop fuel' groups (Some (length groups)) r2
            end
          else ipv6_loop fuel' groups ellipsis r
        end
    | EmptyString => Some (groups ++ [hex_value 0 d], ellipsis, "")
    end
  end.

Definition groups_value (l : list Z) : Z := foldl (λ acc g, acc * 65536 + g) 0 l.

Definition parseIPv6 (s0 : string) : option Addr :=
  '(s, zone) ← (match cut_byte c_percent s0 with
                | None => Some (s0, "")
                | Some (_, EmptyString) => None
                | Some (a, z) => Some (a, z)
                end);
  let '(s, ell) := if HasPrefix s "::" then (str_drop 2 s, Some 0%nat) else (s, None) in
  if bool_decide (ell = Some 0%nat) && bool_decide (s = "") then Some (A6 0 zone) else
  '(groups, ell, rest) ← ipv6_loop 9 [] ell s;
  if negb (bool_decide (rest = "")) then None else
  match ell with
  | None => if (length groups =? 8)%nat then Some (A6 (groups_value groups) zone) else None
  | Some i =>
    if (8 <=? length groups)%nat then None
    else Some (A6 (groups_value
                 (take i groups ++ replicate (8 - length groups) 0 ++ drop i groups)) zone)
  end.

(** The first of a dot, a colon or a percent sign decides the family. *)
Fixpoint addr_family (s : string) : option ascii :=
  match s with
  | EmptyString => None
  | String c r =>
    if bool_decide (c = c_dot) || bool_decide (c = c_colon) || bool_decide (c = c_percent)
    then Some c else addr_family r
  end.

Definition ParseAddr (s : string) : option Addr :=
  match addr_family s with
  | None => None
  | Some c =>
    if ascii_dec c c_dot then A4 <$> parseIPv4 s
    else if ascii_dec c c_colon then parseIPv6 s
    else None
  end.

(** ** Printing *)

Definition octets (b : Z) : list Z := [b / 2 ^ 24; (b / 2 ^ 16) mod 256; (b / 2 ^ 8) mod 256; b mod 256].

Definition string_of_v4 (b : Z) : string := Join (pretty <$> octets b) ".".

Fixpoint hex_str_fuel (fuel : nat) (z : Z) (acc : string) : string :=
  match fuel with
  | O => acc
  | S f => let acc := String (hex_digit (z mod 16)) acc in
           if z <? 16 then acc else hex_str_fuel f (z / 16) acc
  end.

Definition hex_str (z : Z) : string := hex_str_fuel 4 z "".

Definition groups_of (b : Z) : list Z :=
  (λ i, (b / 65536 ^ Z.of_nat (7 - i)) mod 65536) <$> seq 0 8.

(** Length of the run of zero groups that starts a list. *)
Fixpoint zero_run (l : list Z) : nat :=
  match l with g :: l' => if g =? 0 then S (zero_run l') else 0%nat | [] => 0%nat end.

(** The first of the longest runs of at least two zero groups. *)
Fixpoint best_run (i : nat) (l : list Z) (best : nat * nat) : nat * nat :=
  match l with
  | [] => best
  | _ :: l' =>
    let n := zero_run l in
    best_run (S i) l' (if (1 <? n)%nat && (best.2 <? n)%nat then (i, n) else best)
  end.

Definition string_of_v6 (b : Z) (zone : string) : string :=
  let gs := groups_of b in
  let '(at_, n) := best_run 0 gs (0%nat, 0%nat) in
  let body :=
    if (n =? 0)%nat then Join (hex_str <$> gs) ":"
    else Join (hex_str <$> take at_ gs) ":" +:+ "::" +:+ Join (hex_str <$> drop (at_ + n) gs) ":" in
  body +:+ (if decide (zone = "") then "" else String c_percent zone).

Definition AddrString (a : Addr) : string :=
  match a with
  | AInvalid => "invalid IP"
  | A4 b => string_of_v4 b
  | A6 b zone =>
    if Is4In6 a
    then "::ffff:" +:+ string_of_v4 (b mod 2 ^ 32) +:+
         (if decide (zone = "") then "" else String c_percent zone)
    else string_of_v6 b zone
  end.

(** ** Prefixes *)

Record Prefix := mkPrefix {
  pfx_addr : Addr;
  pfx_bits : Z
}.

Definition mask (width bits b : Z) : Z := Z.shiftl (Z.shiftr b (width - bits)) (width - bits).

Definition Masked (p : Prefix) : Prefix :=
  match p.(pfx_addr) with
  | AInvalid => p
  | A4 b => mkPrefix (A4 (mask 32 p.(pfx_bits) b)) p.(pfx_bits)
  | A6 b z => mkPrefix (A6 (mask 128 p.(pfx_bits) b) z) p.(pfx_bits)
  end.

(** [Prefix.Contains]: no zone, same family, same leading bits. *)
Definition PrefixContains (p : Prefix) (a : Addr) : bool :=
  match p.(pfx_addr), a with
  | A4 pb, A4 ab => Z.shiftr pb (32 - p.(pfx_bits)) =? Z.shiftr ab (32 - p.(pfx_bits))
  | A6 pb _, A6 ab EmptyString =>
    Z.shiftr pb (128 - p.(pfx_bits)) =? Z.shiftr ab (128 - p.(pfx_bits))
  | _, _ => false
  end.

(** The text before and after the last occurrence of a byte. *)
Fixpoint cut_last (c : ascii) (s : string) : option (string * string) :=
  match s with
  | EmptyString => None
  | String d r =>
    match cut_last c r with
    | Some (a, b) => Some (String d a, b)
    | None => if ascii_dec c d then Some ("", r) else None
    end
  end.

Definition parse_bits (s : string) : option Z :=
  match s with
  | EmptyString => None
  | String c r =>
    if negb (bool_decide (r = "")) && negb (in_range 49 57 (code c)) then None
    else if str_forallb is_digit s then Some (digits_val 0 s) else None
  end.

Definition ParsePrefix (s : string) : option Prefix :=
  '(ip, bits) ← cut_last c_slash s;
  a ← ParseAddr ip;
  if (match a with A6 _ (String _ _) => true | _ => false end) then None else
  b ← parse_bits bits;
  if BitLen a <? b then None else Some (mkPrefix a b).

(** ** net.SplitHostPort *)

Definition has_byte (c : ascii) (s : string) : bool :=
  match cut_byte c s with Some _ => true | None => false end.

Definition SplitHostPort (s : string) : option (string * string) :=
  let c_open := byte_of 91 in
  let c_close := byte_of 93 in
  '(before, port) ← cut_last c_colon s;
  if HasPrefix s "[" then
    '(inside, after) ← cut_byte c_close s;
    match after with
    | String c r =>
      if ascii_dec c c_colon then
        if decide (r = port) then
          let host := str_drop 1 inside in
          if has_byte c_open host || has_byte c_open after || has_byte c_close after
          then None else Some (host, port)
        else None
      else None
    | EmptyString => None
    end
  else
    if has_byte c_colon before then None
    else if has_byte c_open s || has_byte c_close s then None
    else Some (before, port).

(** ** Examples *)

Example parse_examples :
  (AddrString <$> ParseAddr "10.0.0.1", AddrString <$> ParseAddr "2001:DB8:0:0:1:0:0:1",
   AddrString <$> ParseAddr "::", AddrString <$> ParseAddr "::ffff:1.2.3.4",
   AddrString <$> ParseAddr "fe80::1%eth0", AddrString ∘ Unmap <$> ParseAddr "::ffff:1.2.3.4",
   ParseAddr "1.2.3", ParseAddr "01.2.3.4", ParseAddr "1::2::3", ParseAddr "1:2:3:4:5:6:7:8::")
  = (Some "10.0.0.1", Some "2001:db8::1:0:0:1", Some "::", Some "::ffff:1.2.3.4",
     Some "fe80::1%eth0", Some "1.2.3.4", None, None, None, None).
Proof. vm_compute. reflexivity. Qed.

Example split_examples :
  (SplitHostPort "10.0.0.1:80", SplitHostPort "[::1]:443", SplitHostPort "::1", SplitHostPort "[::1]",
   SplitHostPort "host", SplitHostPort "[a]b:1")
  = (Some ("10.0.0.1", "80"), Some ("::1", "443"), None, None, None, None).
Proof. vm_compute. reflexivity. Qed.

Example prefix_examples :
  let p := Masked <$> ParsePrefix "10.1.2.3/8" in
  ((λ p, PrefixContains p (A4 (10 * 2 ^ 24 + 5))) <$> p, ParsePrefix "10.0.0.0/33",
   ParsePrefix "10.0.0.0/08")
  = (Some true, None, None).
Proof. vm_compute. reflexivity. Qed.
