(* ===== verification/RateLimit.v ===== *)
(** * The rate limiter (internal/plugin/builtin/ratelimit/ratelimit.go)

    Token buckets per app key, per client address or global, the configuration
    that selects between them, the resolution of the client address behind
    trusted proxies, and the eviction of idle buckets.

    The buckets compute in float64.  Their code is written against the class
    [Num], with an instance for float64 and one for the rationals: the theorems
    on rates are about the rational instance, that is they hold up to the
    rounding of float64; the others hold for every instance.  Time is in
    nanoseconds. *)
From Stdlib Require Import QArith Qcanon Lqa.
From stdpp Require Import pretty.
From S2P Require Import Prelude GoStd Json Config Plugin NetIP.
Open Scope Z_scope.

(** ** Numbers *)

Class Num (F : Type) := {
  of_int : Z → F;
  nadd : F → F → F;
  nsub : F → F → F;
  nmul : F → F → F;
  ndiv : F → F → F;
  nltb : F → F → bool
}.

#[global] Instance float64_Num : Num float64 := {|
  of_int := f64_of_Z;
  nadd := SFadd 53 1024;
  nsub := SFsub 53 1024;
  nmul := SFmul 53 1024;
  ndiv := SFdiv 53 1024;
  nltb := SFltb
|}.

Definition Qc_of_Z (z : Z) : Qc := Q2Qc (inject_Z z).

#[global] Instance Qc_Num : Num Qc := {|
  of_int := Qc_of_Z;
  nadd := Qcplus;
  nsub := Qcminus;
  nmul := Qcmult;
  ndiv := Qcdiv;
  nltb := λ a b, bool_decide (a < b)%Qc
|}.

(** ** Time *)

Definition minute : Z := 60000000000.

(** [t.Sub(u)], which saturates. *)
Definition time_sub (t u : Z) : Z := Z.max (- two63) (Z.min (two63 - 1) (t - u)).

(** ** Configuration values *)

Inductive cfg_error :=
| EntryNotString (e : any)
| NotAList (v : any)
| InvalidCIDR (entry : string)
| InvalidAddress (entry : string).

Definition unknownIP : string := "unknown".

(** ** Addresses *)

Definition normalizeAddr (a : Addr) : Addr := WithZone "" (Unmap a).

Definition bracketed (s : string) : bool :=
  HasPrefix s "[" && HasPrefix (str_drop (String.length s - 1) s) "]".

Definition parseAddr (s : string) : option Addr :=
  let s := TrimSpace s in
  if decide (s = "") then None else
  match ParseAddr s with
  | Some a => Some (normalizeAddr a)
  | None =>
    match ('(host, _) ← SplitHostPort s; ParseAddr host) with
    | Some a => Some (normalizeAddr a)
    | None =>
      if bracketed s then
        normalizeAddr <$> ParseAddr (str_drop 1 (str_take (String.length s - 1) s))
      else None
    end
  end.

(** The entries as strings; a list of anything must hold strings only. *)
Fixpoint any_strings (l : list any) : cfg_error + list string :=
  match l with
  | [] => inr []
  | VStr s :: l' => match any_strings l' with inr r => inr (s :: r) | inl e => inl e end
  | e :: _ => inl (EntryNotString e)
  end.

Fixpoint parse_entries (raw : list string) : cfg_error + list Prefix :=
  match raw with
  | [] => inr []
  | entry :: raw' =>
    let entry := TrimSpace entry in
    if decide (entry = "") then parse_entries raw' else
    let head :=
      if Contains entry "/" then
        match ParsePrefix entry with
        | None => inl (InvalidCIDR entry)
        | Some pfx => inr (Masked pfx)
        end
      else
        match ParseAddr entry with
        | None => inl (InvalidAddress entry)
        | Some addr => let addr := normalizeAddr addr in inr (mkPrefix addr (BitLen addr))
        end in
    match head with
    | inl e => inl e
    | inr pfx => match parse_entries raw' with inl e => inl e | inr l => inr (pfx :: l) end
    end
  end.

Definition parseTrustedProxies (v : any) : cfg_error + list Prefix :=
  match v with
  | VList l => match any_strings l with inl e => inl e | inr raw => parse_entries raw end
  | VStrs raw => parse_entries raw
  | VNil => inr []
  | _ => inl (NotAList v)
  end.

(** ** Buckets *)

Section limiter.
Context {F : Type} `{Num F}.

Record bucket := mkBucket {
  tokens : F;
  bmax : F;
  refillPer : F;
  lastFill : Z
}.

Definition newBucket (rpm now : Z) : bucket :=
  let max := of_int rpm in
  mkBucket max max (ndiv max (of_int minute)) now.

Definition allow (b : bucket) (now : Z) : bool * bucket :=
  let elapsed := time_sub now b.(lastFill) in
  let t := nadd b.(tokens) (nmul (of_int elapsed) b.(refillPer)) in
  let t := if nltb b.(bmax) t then b.(bmax) else t in
  if nltb t (of_int 1) then (false, mkBucket t b.(bmax) b.(refillPer) now)
  else (true, mkBucket (nsub t (of_int 1)) b.(bmax) b.(refillPer) now).

(** ** The plugin *)

(** The cleanup goroutine's channel: not made, open, closed. *)
Inductive chan := NoChan | Open | Closed.

Record RateLimiter := mkRL {
  rpm : Z;
  perIP : bool;
  perAppKey : bool;
  appKeyRPM : Z;
  appKeyLimits : gmap string Z;
  buckets : gmap string bucket;
  global : option bucket;
  done_ch : chan;
  trustedProxies : list Prefix
}.

Definition New : RateLimiter := mkRL 60 false false 0 ∅ ∅ None NoChan [].

Definition set_buckets (p : RateLimiter) (m : gmap string bucket) : RateLimiter :=
  mkRL p.(rpm) p.(perIP) p.(perAppKey) p.(appKeyRPM) p.(appKeyLimits) m p.(global)
    p.(done_ch) p.(trustedProxies).
Definition set_global (p : RateLimiter) (b : bucket) : RateLimiter :=
  mkRL p.(rpm) p.(perIP) p.(perAppKey) p.(appKeyRPM) p.(appKeyLimits) p.(buckets) (Some b)
    p.(done_ch) p.(trustedProxies).

Definition positive_int (v : option any) (old : Z) : Z :=
  match v with Some (VInt z) => if 0 <? z then z else old | _ => old end.
Definition bool_or (v : option any) (old : bool) : bool :=
  match v with Some (VBool b) => b | _ => old end.

Definition key_limits (l : list (string * any)) : gmap string Z :=
  foldr (λ kv m, match kv.2 with
                 | VInt z => if 0 <? z then <[kv.1 := z]> m else m
                 | _ => m
                 end) ∅ l.

Definition initAppKeyConfig (cfg : gmap string any) (p : RateLimiter) : RateLimiter :=
  mkRL p.(rpm) p.(perIP)
    (bool_or (cfg !! "per_app_key") p.(perAppKey))
    (positive_int (cfg !! "per_app_key_rpm") p.(appKeyRPM))
    (match cfg !! "app_key_limits" with
     | Some (VMap l) => key_limits l
     | _ => p.(appKeyLimits)
     end)
    p.(buckets) p.(global) p.(done_ch) p.(trustedProxies).

Definition Init (cfg : option (gmap string any)) (now : Z) (p : RateLimiter)
  : option cfg_error * RateLimiter :=
  match cfg with
  | None => (None, p)
  | Some cfg =>
    let p := mkRL (positive_int (cfg !! "requests_per_minute") p.(rpm))
               (bool_or (cfg !! "per_ip") p.(perIP))
               p.(perAppKey) p.(appKeyRPM) p.(appKeyLimits) p.(buckets) p.(global)
               p.(done_ch) p.(trustedProxies) in
    let p := initAppKeyConfig cfg p in
    let finish proxies :=
      (None, mkRL p.(rpm) p.(perIP) p.(perAppKey) p.(appKeyRPM) p.(appKeyLimits)
               p.(buckets) (Some (newBucket p.(rpm) now))
               (if p.(perAppKey) || p.(perIP) then Open else p.(done_ch)) proxies) in
    match cfg !! "trusted_proxies" with
    | Some v =>
      match parseTrustedProxies v with
      | inl e => (Some e, p)
      | inr prefixes => finish prefixes
      end
    | None => finish p.(trustedProxies)
    end
  end.

(** Closing a closed channel panics. *)
Definition Close (p : RateLimiter) : outcome RateLimiter :=
  match p.(done_ch) with
  | NoChan => Ret p
  | Open => Ret (mkRL p.(rpm) p.(perIP) p.(perAppKey) p.(appKeyRPM) p.(appKeyLimits)
                   p.(buckets) p.(global) Closed p.(trustedProxies))
  | Closed => Panic
  end.

(** ** Client addresses *)

Definition isTrusted (p : RateLimiter) (a : Addr) : bool :=
  if negb (IsValid a) then false
  else existsb (λ pfx, PrefixContains pfx a) p.(trustedProxies).

(** The walk over the hops from the right: the first that is not a trusted proxy;
    one that does not parse ends it. *)
Fixpoint walk_hops (p : RateLimiter) (hops : list string) : option Addr :=
  match hops with
  | [] => None
  | hop :: hops' =>
    match parseAddr hop with
    | None => None
    | Some addr => if isTrusted p addr then walk_hops p hops' else Some addr
    end
  end.

Definition clientIP (p : RateLimiter) (r : Request) : string :=
  match parseAddr r.(rq_RemoteAddr) with
  | None => unknownIP
  | Some peer =>
    if negb (isTrusted p peer) then AddrString peer else
    let xff := Join (hdr_values r.(rq_Header) "X-Forwarded-For") "," in
    match (if decide (xff = "") then None
           else walk_hops p (reverse (Split xff (byte_of 44)))) with
    | Some addr => AddrString addr
    | None =>
      match list.last (hdr_values r.(rq_Header) "X-Real-IP") with
      | Some xri =>
        match parseAddr xri with
        | Some addr => if isTrusted p addr then AddrString peer else AddrString addr
        | None => AddrString peer
        end
      | None => AddrString peer
      end
    end
  end.

(** ** Requests *)

Definition resolveAppKeyRPM (p : RateLimiter) (appKey : string) : Z :=
  match p.(appKeyLimits) !! appKey with
  | Some r => r
  | None => if 0 <? p.(appKeyRPM) then p.(appKeyRPM) else p.(rpm)
  end.

Definition meta_app_key (ctx : RequestContext) : option string :=
  match ctx.(rc_Metadata) ≫= (.!! "app_key") with
  | Some (MStr s) => Some s
  | _ => None
  end.

(** A pointer to one of the plugin's buckets. *)
Inductive bref := BGlobal | BKey (k : string).

#[global] Instance bref_eq_dec : EqDecision bref.
Proof using Type. solve_decision. Defined.

Definition deref (p : RateLimiter) (r : bref) : option bucket :=
  match r with BGlobal => p.(global) | BKey k => p.(buckets) !! k end.
Definition set_ref (p : RateLimiter) (r : bref) (b : bucket) : RateLimiter :=
  match r with
  | BGlobal => set_global p b
  | BKey k => set_buckets p (<[k := b]> p.(buckets))
  end.

(** The bucket behind a pointer, made when it is not there. *)
Definition ensure (p : RateLimiter) (r : bref) (limit now : Z) : RateLimiter * bucket :=
  match deref p r with
  | Some b => (p, b)
  | None => let b := newBucket limit now in (set_ref p r b, b)
  end.

(** [None] is the panic of reading a nil request. *)
Definition getBucket (p : RateLimiter) (ctx : RequestContext) (now : Z)
  : outcome (RateLimiter * bref * bucket * Z) :=
  let get r limit := let '(p, b) := ensure p r limit now in Ret (p, r, b, limit) in
  let anonymous :=
    if p.(perIP) then
      match ctx.(rc_Request) with
      | None => Panic
      | Some r => get (BKey ("ip:" +:+ clientIP p r)) p.(rpm)
      end
    else get BGlobal p.(rpm) in
  if p.(perAppKey) then
    match meta_app_key ctx with
    | Some appKey =>
      if decide (appKey = "") then anonymous
      else get (BKey ("appkey:" +:+ appKey)) (resolveAppKeyRPM p appKey)
    | None => anonymous
    end
  else anonymous.

Definition limit_message (p : RateLimiter) (ctx : RequestContext) (effectiveRPM : Z) : string :=
  if p.(perAppKey) && bool_decide (is_Some (meta_app_key ctx))
  then "rate limit exceeded for app key (" +:+ pretty effectiveRPM +:+ " requests/minute)"
  else "rate limit exceeded (" +:+ pretty effectiveRPM +:+ " requests/minute)".

Definition refuse (ctx : RequestContext) (msg : string) : RequestContext :=
  mkRC ctx.(rc_Request) ctx.(rc_Provider) ctx.(rc_Model) ctx.(rc_Body) ctx.(rc_Metadata)
    ctx.(rc_StartTime) ctx.(rc_ResponseHeaders) true 429
    (Some (dq "{'error':{'message':'" +:+ msg +:+ dq "','type':'rate_limit_error'}}")).

Definition RLPreHTTP (p : RateLimiter) (ctx : RequestContext) (now : Z)
  : outcome (RateLimiter * RequestContext) :=
  match getBucket p ctx now with
  | Panic => Panic
  | Ret (p, r, b, effectiveRPM) =>
    let '(ok, b) := allow b now in
    let p := set_ref p r b in
    if ok then Ret (p, ctx)
    else Ret (p, refuse ctx (limit_message p ctx effectiveRPM))
  end.

Definition RLPostHTTP (p : RateLimiter) (ctx : RequestContext) : RateLimiter * RequestContext :=
  (p, ctx).
Definition RLStreamChunk (chunk : slice) : slice := chunk.

(** One tick of [cleanupLoop]; once the channel is closed the loop is over. *)
Definition cleanup (p : RateLimiter) (now : Z) : RateLimiter :=
  match p.(done_ch) with
  | Open =>
    set_buckets p
      (filter (λ kb, ¬ 10 * minute < time_sub now (lastFill kb.2)) p.(buckets))
  | _ => p
  end.

End limiter.
Arguments bucket F : clear implicits.
Arguments RateLimiter F : clear implicits.

(** ** Runs

    Requests and cleanup ticks, in the order in which they take the mutex.  A
    request that panics leaves the plugin as it was. *)

Inductive event :=
| EReq (ctx : RequestContext) (now : Z)
| ETick (now : Z).

Definition event_time (e : event) : Z := match e with EReq _ t | ETick t => t end.

Fixpoint ordered (t : Z) (evs : list event) (t' : Z) : Prop :=
  match evs with
  | [] => t <= t'
  | e :: evs' => t <= event_time e ∧ ordered (event_time e) evs' t'
  end.

Section runs.
Context {F : Type} `{Num F}.

Definition step (p : RateLimiter F) (e : event) : RateLimiter F * option (outcome RequestContext) :=
  match e with
  | EReq ctx now =>
    match RLPreHTTP p ctx now with
    | Ret (p', ctx') => (p', Some (Ret ctx'))
    | Panic => (p, Some Panic)
    end
  | ETick now => (cleanup p now, None)
  end.

(** The bucket a request is counted in; none when resolving it panics. *)
Definition bucket_ref (p : RateLimiter F) (ctx : RequestContext) : option bref :=
  match (if p.(perAppKey) then meta_app_key ctx else None) with
  | Some (String _ _ as appKey) => Some (BKey ("appkey:" +:+ appKey))
  | _ =>
    if p.(perIP) then (λ r, BKey ("ip:" +:+ clientIP p r)) <$> ctx.(rc_Request)
    else Some BGlobal
  end.

(** The limit a bucket is made with. *)
Definition ref_limit (p : RateLimiter F) (r : bref) : Z :=
  match r with
  | BKey k => if HasPrefix k "appkey:" then resolveAppKeyRPM p (str_drop 7 k) else p.(rpm)
  | BGlobal => p.(rpm)
  end.

(** The answers to all requests, and to those counted in one bucket. *)
Fixpoint run (p : RateLimiter F) (evs : list event) : list (outcome RequestContext) :=
  match evs with
  | [] => []
  | e :: evs' =>
    let '(p', a) := step p e in
    match a with Some a => a :: run p' evs' | None => run p' evs' end
  end.

Definition concerns (p : RateLimiter F) (r : bref) (e : event) : Prop :=
  match e with EReq ctx _ => bucket_ref p ctx = Some r | ETick _ => True end.

#[global] Instance concerns_dec p r e : Decision (concerns p r e).
Proof using Type. destruct e; simpl; apply _. Defined.

Fixpoint answers (r : bref) (p : RateLimiter F) (evs : list event)
  : list (outcome RequestContext) :=
  match evs with
  | [] => []
  | e :: evs' =>
    let '(p', a) := step p e in
    match a with
    | Some a => if decide (concerns p r e) then a :: answers r p' evs' else answers r p' evs'
    | None => answers r p' evs'
    end
  end.

(** *** The steps, bucket by bucket *)

Definition same_config (p q : RateLimiter F) : Prop :=
  p.(rpm) = q.(rpm) ∧ p.(perIP) = q.(perIP) ∧ p.(perAppKey) = q.(perAppKey) ∧
  p.(appKeyRPM) = q.(appKeyRPM) ∧ p.(appKeyLimits) = q.(appKeyLimits) ∧
  p.(done_ch) = q.(done_ch) ∧ p.(trustedProxies) = q.(trustedProxies).

#[global] Instance same_config_equivalence : Equivalence same_config.
Proof using Type.
  split; unfold same_config; red; intros; destruct_and?; repeat split; congruence.
Qed.

Lemma isTrusted_config p q a : same_config p q → isTrusted p a = isTrusted q a.
Proof using Type. intros (_&_&_&_&_&_&Ht). unfold isTrusted. by rewrite Ht. Qed.

Lemma walk_hops_config p q hops : same_config p q → walk_hops p hops = walk_hops q hops.
Proof using Type.
  intros Hc. induction hops as [|h hops IH]; simpl; [done|].
  destruct (parseAddr h); [|done]. by rewrite IH, (isTrusted_config p q).
Qed.

Lemma clientIP_config p q r : same_config p q → clientIP p r = clientIP q r.
Proof using Type.
  intros Hc. unfold clientIP. destruct (parseAddr (rq_RemoteAddr r)); [|done].
  rewrite (isTrusted_config p q), (walk_hops_config p q) by done.
  destruct (negb _); [done|]. destruct (if decide _ then _ else _); [done|].
  destruct (list.last _); [|done]. destruct (parseAddr _); [|done].
  by rewrite (isTrusted_config p q).
Qed.

Lemma bucket_ref_config p q ctx : same_config p q → bucket_ref p ctx = bucket_ref q ctx.
Proof using Type.
  intros Hc. pose proof Hc as (_&Hip&Hak&_). unfold bucket_ref. rewrite Hip, Hak.
  destruct (rc_Request ctx) as [r|]; simpl; [|done]. by rewrite (clientIP_config p q).
Qed.

Lemma ref_limit_config p q r : same_config p q → ref_limit p r = ref_limit q r.
Proof using Type.
  intros (Hr&_&_&Hk&Hl&_). unfold ref_limit, resolveAppKeyRPM. by rewrite Hr, Hk, Hl.
Qed.

Lemma limit_message_config p q ctx n : same_config p q → limit_message p ctx n = limit_message q ctx n.
Proof using Type. intros (_&_&Hak&_). unfold limit_message. by rewrite Hak. Qed.

Lemma set_ref_config p r b : same_config (set_ref p r b) p.
Proof using Type. by destruct r. Qed.

Lemma cleanup_config p t : same_config (cleanup p t) p.
Proof using Type. unfold cleanup. by destruct (done_ch p). Qed.

Lemma deref_set_ref (p : RateLimiter F) r b : deref (set_ref p r b) r = Some b.
Proof using Type. destruct r; simpl; [done|apply lookup_insert_eq]. Qed.

Lemma deref_set_ref_ne (p : RateLimiter F) r r' b : r ≠ r' → deref (set_ref p r b) r' = deref p r'.
Proof using Type.
  intros Hne. destruct r, r'; simpl; try done. apply lookup_insert_ne. congruence.
Qed.

Lemma set_ref_twice (p : RateLimiter F) r b b' : set_ref (set_ref p r b) r b' = set_ref p r b'.
Proof using Type.
  destruct r; [done|]. unfold set_ref, set_buckets; simpl. by rewrite insert_insert_eq.
Qed.

Lemma ip_not_appkey s : HasPrefix ("ip:" +:+ s) "appkey:" = false.
Proof. reflexivity. Qed.

Lemma appkey_prefix s : HasPrefix ("appkey:" +:+ s) "appkey:" = true.
Proof. unfold HasPrefix. simpl. by destruct s. Qed.

(** [PreHTTP] as a computation on the one bucket it picks. *)
Definition current (p : RateLimiter F) (r : bref) (now : Z) : bucket F :=
  default (newBucket (ref_limit p r) now) (deref p r).

Lemma getBucket_ref (p : RateLimiter F) ctx now :
  getBucket p ctx now =
  match bucket_ref p ctx with
  | None => Panic
  | Some r => let '(p', b) := ensure p r (ref_limit p r) now in Ret (p', r, b, ref_limit p r)
  end.
Proof using Type.
  unfold getBucket, bucket_ref.
  destruct (perAppKey p); [destruct (meta_app_key ctx) as [[|c s]|]|].
  2: { destruct (decide _) as [E|_]; [discriminate E|]. unfold ref_limit.
       by rewrite appkey_prefix. }
  all: try (destruct (decide _); [|done]).
  all: destruct (perIP p); [destruct (rc_Request ctx)|]; reflexivity.
Qed.

Lemma PreHTTP_ref (p : RateLimiter F) ctx now :
  RLPreHTTP p ctx now =
  match bucket_ref p ctx with
  | None => Panic
  | Some r =>
    let '(ok, b) := allow (current p r now) now in
    Ret (set_ref p r b,
         if ok then ctx else refuse ctx (limit_message p ctx (ref_limit p r)))
  end.
Proof using Type.
  unfold RLPreHTTP. rewrite getBucket_ref. destruct (bucket_ref p ctx) as [r|]; [|done].
  unfold ensure, current. destruct (deref p r) as [b|]; simpl.
  - destruct (allow b now) as [[] b']; [done|]. do 3 f_equal.
    apply limit_message_config, set_ref_config.
  - destruct (allow _ now) as [[] b']; rewrite set_ref_twice; [done|]. do 3 f_equal.
    apply limit_message_config, set_ref_config.
Qed.

Lemma step_config (p : RateLimiter F) e : same_config (step p e).1 p.
Proof using Type.
  destruct e as [ctx now|now]; simpl; [|apply cleanup_config]. rewrite PreHTTP_ref.
  destruct (bucket_ref p ctx) as [r|]; [|done]. destruct (allow _ now) as [ok b].
  apply set_ref_config.
Qed.

Lemma deref_cleanup (p : RateLimiter F) r t :
  deref (cleanup p t) r = deref p r ∨
  (done_ch p = Open ∧ deref (cleanup p t) r = None ∧
   ∃ b, deref p r = Some b ∧ 10 * minute < time_sub t b.(lastFill)).
Proof using Type.
  unfold cleanup. destruct (done_ch p) eqn:E; [by left| |by left].
  destruct r as [|k]; simpl; [by left|].
  destruct (buckets p !! k) as [b|] eqn:Hb.
  - destruct (decide (10 * minute < time_sub t b.(lastFill))) as [Hlt|Hlt].
    + right. split; [done|]. split; [|by exists b].
      apply map_lookup_filter_None. right. intros b' Hb' Hn. simplify_eq. by apply Hn.
    + left. by apply map_lookup_filter_Some.
  - left. apply map_lookup_filter_None. by left.
Qed.

Lemma deref_cleanup_agree p q r t :
  same_config p q → deref p r = deref q r → deref (cleanup p t) r = deref (cleanup q t) r.
Proof using Type.
  intros (_&_&_&_&_&Hd&_) Hr. unfold cleanup. rewrite Hd.
  destruct (done_ch q); [done| |done]. destruct r as [|k]; [done|]. simpl in *.
  apply option_eq. intros b. rewrite !map_lookup_filter_Some, Hr. done.
Qed.

End runs.
