(* ===== verification/RequestLog.v ===== *)
(** * The request log (internal/plugin/builtin/requestlog/requestlog.go)

    The plugin gives every request an id, keeps up to a cap of a streamed body in a
    buffer, and writes a line for every trace.  Buffers come from a pool and are
    shared by pointer: the writer of a request, and the entries of its metadata,
    are the pointer of its buffer.  A log line is its attributes. *)
From stdpp Require Import pretty.
From S2P Require Import Prelude GoStd Utf8 Plugin.

(** ** Configuration *)

Inductive log_level := LevelDebug | LevelInfo | LevelWarn | LevelError.

Record RequestLog := mkRequestLog {
  level : log_level;
  logBodies : bool;
  bodyMaxBytes : Z;
  requestIDHeader : string;
  logAppKey : bool
}.

Definition NewRequestLog : RequestLog := mkRequestLog LevelInfo false 1024 "X-Request-Id" true.

(** [unicode.ToLower] as far as it leads to ASCII: besides the capital letters,
    U+0130 and U+212A have a lower case in ASCII. *)
Definition lower_ascii (r : Z) : Z :=
  if in_range 65 90 r then r + 32 else if r =? 304 then 105 else if r =? 8490 then 107 else r.

(** [strings.ToLower(v) == w] for a word of lower-case ASCII letters. *)
Definition lower_is (v w : string) : bool := bool_decide (lower_ascii <$> runes v = runes w).

Definition parse_level (v : string) : log_level :=
  if lower_is v "debug" then LevelDebug
  else if lower_is v "warn" || lower_is v "warning" then LevelWarn
  else if lower_is v "error" then LevelError
  else LevelInfo.

(** A nil map has no entries. *)
Definition Init (cfg : option (gmap string any)) (p : RequestLog) : RequestLog :=
  let cfg := default ∅ cfg in
  mkRequestLog
    (match cfg !! "level" with Some (VStr v) => parse_level v | _ => p.(level) end)
    (match cfg !! "log_bodies" with Some (VBool v) => v | _ => p.(logBodies) end)
    (match cfg !! "body_max_bytes" with Some (VInt v) => if 0 <? v then v else p.(bodyMaxBytes) | _ => p.(bodyMaxBytes) end)
    (match cfg !! "request_id_header" with
     | Some (VStr v) => if decide (v = "") then p.(requestIDHeader) else v
     | _ => p.(requestIDHeader) end)
    (match cfg !! "log_app_key" with Some (VBool v) => v | _ => p.(logAppKey) end).

(** ** Buffers *)

Record LogState := mkLogState {
  bufs : gmap positive string;
  pool : list positive
}.

(** [bufPool.Get()]: the pool may hand out any of its buffers, the one at [pick], or
    make a new one. *)
Definition pool_get (pick : option nat) (st : LogState) : positive * LogState :=
  match (i ← pick; (λ id, (i, id)) <$> st.(pool) !! i) with
  | Some (i, id) => (id, mkLogState st.(bufs) (delete i st.(pool)))
  | None =>
    let id := fresh (dom st.(bufs) : gset positive) in
    (id, mkLogState (<[id := ""]> st.(bufs)) st.(pool))
  end.

(** [cappedWriter.Write] on the text of its buffer. *)
Definition capped_append (max : Z) (buf p : string) : string :=
  let remaining := max - Z.of_nat (String.length buf) in
  if remaining <=? 0 then buf
  else if remaining <? Z.of_nat (String.length p) then buf +:+ str_take (Z.to_nat remaining) p
  else buf +:+ p.

Definition capped_write (max : Z) (id : positive) (p : string) (st : LogState) : LogState :=
  mkLogState (alter (λ buf, capped_append max buf p) id st.(bufs)) st.(pool).

(** ** Request ids *)

Definition hex_char (z : Z) : ascii := byte_of (if z <? 10 then 48 + z else 87 + z).
Fixpoint hex_bytes (l : list Z) : string :=
  match l with
  | [] => ""
  | b :: l' => String (hex_char (b / 16)) (String (hex_char (b mod 16)) (hex_bytes l'))
  end.

(** Hexadecimal digits of a number, for the [%x] verb. *)
Fixpoint hex_digits (fuel : nat) (z : Z) (acc : string) : string :=
  match fuel with
  | O => acc
  | S fuel' => if z <? 16 then String (hex_char z) acc else hex_digits fuel' (z / 16) (String (hex_char (z mod 16)) acc)
  end.
Definition zero_pad (width : nat) (s : string) : string :=
  Nat.iter (width - String.length s) (String "0") s.
Definition fmt_x (width : nat) (z : Z) : string :=
  if z <? 0 then String "-" (zero_pad (width - 1) (hex_digits 16 (- z) "")) else zero_pad width (hex_digits 16 z "").

(** [rnd] is what the entropy source gives, if it does; else the clock and the
    counter make the id. *)
Definition generateUUID (rnd : option (list Z)) (nano seq : Z) : string :=
  match rnd with
  | None => fmt_x 16 nano +:+ fmt_x 8 seq
  | Some buf =>
    let buf := <[8%nat := Z.lor (Z.land (nth 8 buf 0) 63) 128]>
                 (<[6%nat := Z.lor (Z.land (nth 6 buf 0) 15) 64]> buf) in
    let part i n := hex_bytes (take n (drop i buf)) in
    part 0%nat 4%nat +:+ "-" +:+ part 4%nat 2%nat +:+ "-" +:+ part 6%nat 2%nat +:+ "-" +:+
    part 8%nat 2%nat +:+ "-" +:+ part 10%nat 6%nat
  end.

(** ** Hooks *)

Definition metaRequestID : string := "request_id".
Definition metaRequestBody : string := "request_body".
Definition metaResponseBody : string := "response_body".
Definition metaAppKey : string := "app_key".
Definition metaStreamBodyBuf : string := "_requestlog_buf".
Definition metaStreamSink : string := "_stream_body_sink".

Definition with_meta (md : gmap string meta_value) (rh : option Header) (rc : RequestContext) : RequestContext :=
  mkRC rc.(rc_Request) rc.(rc_Provider) rc.(rc_Model) rc.(rc_Body) (Some md) rc.(rc_StartTime) rh
    rc.(ShortCircuit) rc.(ShortCircuitStatus) rc.(ShortCircuitBody).

(** [uuid] is what [generateUUID] would return; assignment to a nil map panics. *)
Definition LogPreHTTP (p : RequestLog) (uuid : string) (pick : option nat) (rc : RequestContext) (st : LogState)
  : outcome (RequestContext * LogState) :=
  let reqID := match rc.(rc_Request) with Some r => hdr_get r.(rq_Header) p.(requestIDHeader) | None => "" end in
  let reqID := if decide (reqID = "") then uuid else reqID in
  match rc.(rc_Metadata) with
  | None => Panic
  | Some md =>
    let md := <[metaRequestID := MStr reqID]> md in
    let rh := hdr_set (default ∅ rc.(rc_ResponseHeaders)) p.(requestIDHeader) reqID in
    if p.(logBodies) then
      let '(id, st) := pool_get pick st in
      let st := mkLogState (<[id := ""]> st.(bufs)) st.(pool) in
      let md := <[metaStreamSink := MWriter id]> (<[metaStreamBodyBuf := MWriter id]>
                  (<[metaRequestBody := MBytes rc.(rc_Body)]> md)) in
      Ret (with_meta md (Some rh) rc, st)
    else Ret (with_meta md (Some rh) rc, st)
  end.

(** The writer that [PreHTTP] left. *)
Definition body_buf (rc : RequestContext) : option positive :=
  match default ∅ rc.(rc_Metadata) !! metaStreamBodyBuf with Some (MWriter id) => Some id | _ => None end.

Definition LogPostHTTP (rc : RequestContext) (st : LogState) : RequestContext * LogState :=
  match body_buf rc with
  | None => (rc, st)
  | Some id =>
    let buf := default "" (st.(bufs) !! id) in
    let md := default ∅ rc.(rc_Metadata) in
    let md := if decide (buf = "") then md
              else match md !! metaResponseBody with
                   | Some _ => md
                   | None => <[metaResponseBody := MBytes (Some buf)]> md
                   end in
    (with_meta (delete metaStreamSink (delete metaStreamBodyBuf md)) rc.(rc_ResponseHeaders) rc,
     mkLogState (<[id := ""]> st.(bufs)) (id :: st.(pool)))
  end.

Definition LogStreamChunk (p : RequestLog) (rc : RequestContext) (chunk : slice) (st : LogState)
  : slice * LogState :=
  match body_buf rc with
  | Some id => (chunk, capped_write p.(bodyMaxBytes) id (bytes_of chunk) st)
  | None => (chunk, st)
  end.

(** ** Lines *)

Inductive attr := AStr (s : string) | AInt (z : Z) | ABool (b : bool).

Definition truncate (b : string) (max : Z) : string :=
  if Z.of_nat (String.length b) <=? max then b
  else str_take (Z.to_nat max) b +:+ "...(truncated)".

Definition str_attr (md : gmap string meta_value) (key : string) : list (string * attr) :=
  match md !! key with Some (MStr v) => [(key, AStr v)] | _ => [] end.
Definition body_attr (p : RequestLog) (md : gmap string meta_value) (key : string) : list (string * attr) :=
  match md !! key with Some (MBytes v) => [(key, AStr (truncate (bytes_of v) p.(bodyMaxBytes)))] | _ => [] end.

Definition OnTrace (p : RequestLog) (t : RequestTrace) : list (string * attr) :=
  [("provider", AStr t.(tr_Provider)); ("model", AStr t.(tr_Model)); ("status", AInt t.(tr_StatusCode));
   ("duration_ms", AInt (Z.quot t.(tr_Duration) 1000000))] ++
  (match t.(tr_Metadata) with
   | None => []
   | Some md =>
     str_attr md metaRequestID ++ str_attr md "method" ++ str_attr md "path" ++
     (match md !! "streaming" with Some (MBool v) => [("streaming", ABool v)] | _ => [] end) ++
     (if p.(logAppKey) then str_attr md metaAppKey else []) ++
     (if p.(logBodies) then body_attr p md metaRequestBody ++ body_attr p md metaResponseBody else [])
   end) ++
  (match t.(tr_Error) with Some e => [("error", AStr e)] | None => [] end).

Example uuid_example :
  (generateUUID (Some [1; 2; 3; 4; 5; 6; 255; 8; 255; 10; 11; 12; 13; 14; 15; 16]) 0 0, generateUUID None 255 1) =
  ("01020304-0506-4f08-bf0a-0b0c0d0e0f10", "00000000000000ff00000001").
Proof. vm_compute. reflexivity. Qed.

(** ** The cap *)

Lemma str_take_all n s : (String.length s ≤ n)%nat → str_take n s = s.
Proof. revert n. induction s as [|c s IH]; intros [|n] Hn; cbn in *; try done; try lia. by rewrite IH by lia. Qed.

Lemma str_take_app_split n s t : str_take n (s +:+ t) = str_take n s +:+ str_take (n - String.length s) t.
Proof.
  revert n. induction s as [|c s IH]; intros [|n]; cbn [String.append String.length str_take].
  - by rewrite Nat.sub_0_r.
  - by rewrite Nat.sub_0_r.
  - by destruct t.
  - by rewrite IH.
Qed.

Lemma str_take_length n s : String.length (str_take n s) = (n `min` String.length s)%nat.
Proof. revert n. induction s as [|c s IH]; intros [|n]; cbn; try done. by rewrite IH. Qed.

Lemma capped_append_take max s p : 0 <= max →
  capped_append max (str_take (Z.to_nat max) s) p = str_take (Z.to_nat max) (s +:+ p).
Proof.
  intros Hm. unfold capped_append. rewrite str_take_length, str_take_app_split.
  destruct (Z.leb_spec (max - Z.of_nat (Z.to_nat max `min` String.length s)) 0) as [Hr|Hr].
  - replace (Z.to_nat max - String.length s)%nat with 0%nat by lia. destruct p; cbn; by rewrite str_app_nil_r.
  - replace (Z.to_nat max `min` String.length s)%nat with (String.length s) in * by lia.
    replace (Z.to_nat (max - Z.of_nat (String.length s))) with (Z.to_nat max - String.length s)%nat by lia.
    destruct (Z.ltb_spec (max - Z.of_nat (String.length s)) (Z.of_nat (String.length p))); [done|].
    by rewrite (str_take_all _ p) by lia.
Qed.

Lemma Join_snoc l x : Join (l ++ [x]) "" = Join l "" +:+ x.
Proof.
  induction l as [|y l IH]; cbn [app]; [by cbn|].
  change (y :: l ++ [x]) with (y :: (l ++ [x])). unfold Join in *.
  assert (∀ z k, String.concat "" (z :: k) = z +:+ String.concat "" k) as Hc.
  { intros z [|k0 k]; cbn; [by rewrite str_app_nil_r|done]. }
  by rewrite !Hc, IH, str_app_assoc.
Qed.

(** ** Requests in flight *)

(** The contexts of the requests, what each was given to keep, and the buffers. *)
Record InFlight := mkInFlight {
  ctxs : gmap ptr RequestContext;
  given : gmap ptr (list string);
  log : LogState
}.

(** What the transport does with the plugin: a new request, a chunk, a piece of a
    relayed body for the writer in the metadata, the post-hook, the end. *)
Inductive log_step (p : RequestLog) : InFlight → InFlight → Prop :=
| step_pre cs gs st c rc uuid pick rc' st' :
    cs !! c = None → body_buf rc = None → default ∅ rc.(rc_Metadata) !! metaStreamSink = None →
    LogPreHTTP p uuid pick rc st = Ret (rc', st') →
    log_step p (mkInFlight cs gs st) (mkInFlight (<[c := rc']> cs) (<[c := []]> gs) st')
| step_chunk cs gs st c rc chunk :
    cs !! c = Some rc →
    log_step p (mkInFlight cs gs st)
      (mkInFlight cs (alter (λ l, l ++ [bytes_of chunk]) c gs) (LogStreamChunk p rc chunk st).2)
| step_tee cs gs st c rc id piece :
    cs !! c = Some rc → default ∅ rc.(rc_Metadata) !! metaStreamSink = Some (MWriter id) →
    log_step p (mkInFlight cs gs st)
      (mkInFlight cs (alter (λ l, l ++ [piece]) c gs) (capped_write p.(bodyMaxBytes) id piece st))
| step_post cs gs st c rc :
    cs !! c = Some rc →
    log_step p (mkInFlight cs gs st)
      (mkInFlight (<[c := (LogPostHTTP rc st).1]> cs) gs (LogPostHTTP rc st).2)
| step_end cs gs st c : log_step p (mkInFlight cs gs st) (mkInFlight (delete c cs) gs st).

(** The buffer of a request holds what it was given, up to the cap; nobody else has
    it, and it is not in the pool. *)
Record owned (p : RequestLog) (f : InFlight) : Prop := {
  own_holds c rc id : f.(ctxs) !! c = Some rc → body_buf rc = Some id →
    ∃ l, f.(given) !! c = Some l ∧ f.(log).(bufs) !! id = Some (str_take (Z.to_nat p.(bodyMaxBytes)) (Join l ""));
  own_sink c rc id : f.(ctxs) !! c = Some rc → default ∅ rc.(rc_Metadata) !! metaStreamSink = Some (MWriter id) →
    body_buf rc = Some id;
  own_alone c1 c2 rc1 rc2 id : f.(ctxs) !! c1 = Some rc1 → f.(ctxs) !! c2 = Some rc2 →
    body_buf rc1 = Some id → body_buf rc2 = Some id → c1 = c2;
  own_pool c rc id : f.(ctxs) !! c = Some rc → body_buf rc = Some id → id ∉ f.(log).(pool);
  own_once : NoDup f.(log).(pool);
  own_known id : id ∈ f.(log).(pool) → id ∈ dom f.(log).(bufs)
}.

Lemma body_buf_with_meta md rh rc : body_buf (with_meta md rh rc) =
  match md !! metaStreamBodyBuf with Some (MWriter id) => Some id | _ => None end.
Proof. done. Qed.

Section ownership.
Context (p : RequestLog).
Hypothesis Hmax : 0 <= p.(bodyMaxBytes).
Implicit Types f : InFlight.

(** A buffer from the pool, or a new one, belongs to nobody. *)
Lemma pool_get_spec f pick id st : owned p f → pool_get pick f.(log) = (id, st) →
  (∀ c rc, f.(ctxs) !! c = Some rc → body_buf rc ≠ Some id) ∧ (id ∉ st.(pool)) ∧ NoDup st.(pool) ∧
  (∀ x, x ∈ st.(pool) → x ∈ f.(log).(pool)) ∧ (∀ x, x ≠ id → st.(bufs) !! x = f.(log).(bufs) !! x).
Proof using Type.
  intros Hf. unfold pool_get.
  assert (∀ i s, i ∉ dom f.(log).(bufs) → s = mkLogState (<[i := ""]> f.(log).(bufs)) f.(log).(pool) →
    (∀ c rc, (f.(ctxs) !! c = Some rc) → body_buf rc ≠ Some i) ∧ (i ∉ s.(pool)) ∧ NoDup s.(pool) ∧
    (∀ x, x ∈ s.(pool) → x ∈ f.(log).(pool)) ∧ ∀ x, x ≠ i → s.(bufs) !! x = f.(log).(bufs) !! x) as Hnew.
  { intros i s Hi ->. cbn [bufs pool]. split_and!; try done.
    - intros c rc Hc Hb. destruct (own_holds p f Hf c rc i Hc Hb) as (l & _ & Hl). apply not_elem_of_dom in Hi. congruence.
    - intros Hin. by apply Hi, (own_known p f Hf).
    - apply (own_once p f Hf).
    - intros x Hx. by rewrite lookup_insert_ne. }
  assert (fresh (dom f.(log).(bufs) : gset positive) ∉ dom f.(log).(bufs)) as Hfr by apply is_fresh.
  destruct (pick ≫= _) as [[k i]|] eqn:Ep; [|intros [= <- <-]; by apply Hnew].
  apply bind_Some in Ep as (k' & _ & (i' & Hk & [= -> ->])%fmap_Some). intros [= <- <-].
  pose proof (delete_Permutation _ _ _ Hk) as Hperm. pose proof (own_once p f Hf) as Hnd.
  rewrite Hperm in Hnd. apply list.NoDup_cons in Hnd as [Hni Hnd].
  cbn [bufs pool]. split_and!; try done.
  - intros c rc Hc Hb. apply (own_pool p f Hf c rc i' Hc Hb). rewrite Hperm. by left.
  - intros x Hx. rewrite Hperm. by right.
Qed.

Lemma pre_owned cs gs st c rc uuid pick rc' st' :
  owned p (mkInFlight cs gs st) → cs !! c = None → body_buf rc = None →
  default ∅ rc.(rc_Metadata) !! metaStreamSink = None →
  LogPreHTTP p uuid pick rc st = Ret (rc', st') → owned p (mkInFlight (<[c := rc']> cs) (<[c := []]> gs) st').
Proof using Type.
  intros Hf Hc Hb Hsink. unfold LogPreHTTP. destruct (rc_Metadata rc) as [md|] eqn:Emd; [|done].
  cbn [default from_option id] in Hsink. unfold body_buf in Hb. rewrite Emd in Hb. cbn [default from_option id] in Hb.
  assert (∀ c0 rc0, <[c := rc']> cs !! c0 = Some rc0 → c0 = c ∧ rc0 = rc' ∨ c0 ≠ c ∧ cs !! c0 = Some rc0) as Hlk.
  { intros c0 rc0. rewrite lookup_insert. case_decide; naive_solver. }
  destruct (logBodies p).
  - destruct (pool_get pick st) as [id st1] eqn:Eg. intros [= Erc Est].
    destruct (pool_get_spec _ _ _ _ Hf Eg) as (Hno & Hnp & Hnd & Hsub & Hbufs).
    assert (body_buf rc' = Some id) as Hrc' by (subst rc'; rewrite body_buf_with_meta; by rewrite lookup_insert_ne, lookup_insert_eq).
    subst st'. split; cbn [ctxs given log bufs pool].
    + intros c0 rc0 i [[-> ->]|[Hne H0]]%Hlk Hi.
      * exists []. rewrite Hrc' in Hi. simplify_eq. rewrite !lookup_insert_eq. cbn. by destruct (Z.to_nat _).
      * destruct (own_holds p _ Hf c0 rc0 i H0 Hi) as (l & Hl & Hbl). exists l. rewrite lookup_insert_ne by congruence.
        split; [done|]. assert (i ≠ id) by (intros ->; by eapply Hno). by rewrite lookup_insert_ne, Hbufs.
    + intros c0 rc0 i [[-> ->]|[Hne H0]]%Hlk Hi; [|by eapply (own_sink p _ Hf)].
      subst rc'. cbn in Hi. rewrite lookup_insert_eq in Hi. by simplify_eq.
    + intros c1 c2 rc1 rc2 i [[-> ->]|[? H1]]%Hlk [[-> ->]|[? H2]]%Hlk Hi1 Hi2; [done|..].
      * rewrite Hrc' in Hi1. simplify_eq. by destruct (Hno c2 rc2 H2).
      * rewrite Hrc' in Hi2. simplify_eq. by destruct (Hno c1 rc1 H1).
      * by eapply (own_alone p _ Hf).
    + intros c0 rc0 i [[-> ->]|[Hne H0]]%Hlk Hi; [rewrite Hrc' in Hi; by simplify_eq|].
      intros Hin%Hsub. by eapply (own_pool p _ Hf).
    + done.
    + intros i Hin. apply Hsub in Hin as Hin'. apply (own_known p _ Hf) in Hin'. cbn [log] in Hin'.
      rewrite dom_insert. apply elem_of_union. right. rewrite elem_of_dom in *. destruct Hin' as [x Hx]. exists x.
      rewrite Hbufs; [done|]. by intros ->.
  - intros [= Erc <-].
    assert (body_buf rc' = None) as Hrc' by (subst rc'; rewrite body_buf_with_meta; by rewrite lookup_insert_ne).
    split; cbn [ctxs given log].
    + intros c0 rc0 i [[-> ->]|[Hne H0]]%Hlk Hi; [congruence|].
      destruct (own_holds p _ Hf c0 rc0 i H0 Hi) as (l & Hl & Hbl). exists l. by rewrite lookup_insert_ne by congruence.
    + intros c0 rc0 i [[-> ->]|[Hne H0]]%Hlk Hi; [|by eapply (own_sink p _ Hf)].
      subst rc'. cbn in Hi. rewrite lookup_insert_ne in Hi by done. congruence.
    + intros c1 c2 rc1 rc2 i [[-> ->]|[? H1]]%Hlk [[-> ->]|[? H2]]%Hlk Hi1 Hi2; [done|congruence..|].
      by eapply (own_alone p _ Hf).
    + intros c0 rc0 i [[-> ->]|[Hne H0]]%Hlk Hi; [congruence|]. by eapply (own_pool p _ Hf).
    + apply (own_once p _ Hf).
    + apply (own_known p _ Hf).
Qed.

Lemma write_owned cs gs st c rc id piece : owned p (mkInFlight cs gs st) → cs !! c = Some rc → body_buf rc = Some id →
  owned p (mkInFlight cs (alter (λ l, l ++ [piece]) c gs) (capped_write p.(bodyMaxBytes) id piece st)).
Proof using Hmax.
  intros Hf Hc Hb. split; cbn [ctxs given log capped_write bufs pool].
  - intros c0 rc0 i H0 Hi. destruct (own_holds p _ Hf c0 rc0 i H0 Hi) as (l & Hl & Hbl). cbn [given log] in *.
    destruct (decide (c0 = c)) as [-> |Hne].
    + simplify_eq. exists (l ++ [piece]). rewrite !lookup_alter_eq, Hl, Hbl. cbn. split; [done|]. f_equal.
      rewrite Join_snoc. by apply capped_append_take.
    + exists l. rewrite lookup_alter_ne by done. split; [done|]. rewrite lookup_alter_ne; [done|].
      intros ->. apply Hne. by eapply (own_alone p _ Hf).
  - apply (own_sink p _ Hf).
  - apply (own_alone p _ Hf).
  - apply (own_pool p _ Hf).
  - apply (own_once p _ Hf).
  - intros i Hi. rewrite dom_alter. by apply (own_known p _ Hf).
Qed.

(** A chunk for a request that keeps nothing. *)
Lemma skip_owned cs gs st c rc piece : owned p (mkInFlight cs gs st) → cs !! c = Some rc → body_buf rc = None →
  owned p (mkInFlight cs (alter (λ l, l ++ [piece]) c gs) st).
Proof using Type.
  intros Hf Hc Hb. split; cbn [ctxs given log]; try apply Hf.
  intros c0 rc0 i H0 Hi. destruct (own_holds p _ Hf c0 rc0 i H0 Hi) as (l & Hl & Hbl). exists l. split; [|done].
  rewrite lookup_alter_ne; [done|]. intros ->. congruence.
Qed.

Lemma LogPostHTTP_buf rc st id : body_buf rc = Some id →
  body_buf (LogPostHTTP rc st).1 = None ∧
  default ∅ (rc_Metadata (LogPostHTTP rc st).1) !! metaStreamSink = None ∧
  (LogPostHTTP rc st).2 = mkLogState (<[id := ""]> st.(bufs)) (id :: st.(pool)).
Proof using Type.
  intros Hb. unfold LogPostHTTP. rewrite Hb. cbn [fst snd]. rewrite body_buf_with_meta.
  split; [by rewrite lookup_delete_ne, lookup_delete_eq|]. split; [|done]. cbn. by rewrite lookup_delete_eq.
Qed.

Lemma post_owned cs gs st c rc : owned p (mkInFlight cs gs st) → cs !! c = Some rc →
  owned p (mkInFlight (<[c := (LogPostHTTP rc st).1]> cs) gs (LogPostHTTP rc st).2).
Proof using Type.
  intros Hf Hc. destruct (body_buf rc) as [id|] eqn:Hb.
  2:{ unfold LogPostHTTP. rewrite Hb. cbn [fst snd]. by rewrite insert_id. }
  destruct (LogPostHTTP_buf rc st id Hb) as (Hb' & Hs' & ->). set (rc' := (LogPostHTTP rc st).1) in *. clearbody rc'.
  assert (∀ c0 rc0, <[c := rc']> cs !! c0 = Some rc0 → c0 = c ∧ rc0 = rc' ∨ c0 ≠ c ∧ cs !! c0 = Some rc0) as Hlk.
  { intros c0 rc0. rewrite lookup_insert. case_decide; naive_solver. }
  assert (∀ c0 rc0 i, c0 ≠ c → cs !! c0 = Some rc0 → body_buf rc0 = Some i → i ≠ id) as Hoth.
  { intros c0 rc0 i Hne H0 Hi ->. apply Hne. by eapply (own_alone p _ Hf). }
  split; cbn [ctxs given log bufs pool].
  - intros c0 rc0 i [[-> ->]|[Hne H0]]%Hlk Hi; [congruence|].
    destruct (own_holds p _ Hf c0 rc0 i H0 Hi) as (l & Hl & Hbl). exists l. split; [done|].
    by rewrite lookup_insert_ne by (symmetry; by eapply Hoth).
  - intros c0 rc0 i [[-> ->]|[Hne H0]]%Hlk Hi; [congruence|]. by eapply (own_sink p _ Hf).
  - intros c1 c2 rc1 rc2 i [[-> ->]|[? H1]]%Hlk [[-> ->]|[? H2]]%Hlk Hi1 Hi2; [done|congruence..|].
    by eapply (own_alone p _ Hf).
  - intros c0 rc0 i [[-> ->]|[Hne H0]]%Hlk Hi; [congruence|]. apply not_elem_of_cons. split; [by eapply Hoth|].
    by eapply (own_pool p _ Hf).
  - apply list.NoDup_cons. split; [by eapply (own_pool p _ Hf)|apply (own_once p _ Hf)].
  - intros i Hi. rewrite dom_insert. apply elem_of_union. apply elem_of_cons in Hi as [-> |Hi].
    + left. by apply elem_of_singleton.
    + right. by apply (own_known p _ Hf).
Qed.

Lemma end_owned cs gs st c : owned p (mkInFlight cs gs st) → owned p (mkInFlight (delete c cs) gs st).
Proof using Type.
  intros Hf. split; cbn [ctxs given log].
  - intros c0 rc i [_ H0]%lookup_delete_Some. by apply (own_holds p _ Hf).
  - intros c0 rc i [_ H0]%lookup_delete_Some. by apply (own_sink p _ Hf c0).
  - intros c1 c2 rc1 rc2 i [_ H1]%lookup_delete_Some [_ H2]%lookup_delete_Some. by apply (own_alone p _ Hf).
  - intros c0 rc i [_ H0]%lookup_delete_Some. by apply (own_pool p _ Hf c0).
  - apply (own_once p _ Hf).
  - apply (own_known p _ Hf).
Qed.

Lemma step_owned f f' : log_step p f f' → owned p f → owned p f'.
Proof using Hmax.
  intros Hs Hf. destruct Hs as [|cs gs st c rc chunk Hc|cs gs st c rc id piece Hc Hsink| |].
  - by eapply pre_owned.
  - unfold LogStreamChunk. destruct (body_buf rc) as [id|] eqn:Hb; [by eapply write_owned|by eapply skip_owned].
  - eapply write_owned; [done|done|]. by apply (own_sink p _ Hf c).
  - by apply post_owned.
  - by apply end_owned.
Qed.

Definition log_start : InFlight := mkInFlight ∅ ∅ (mkLogState ∅ []).

Lemma start_owned : owned p log_start.
Proof using Type. split; cbn; try done; [by constructor|]. by intros id ?%elem_of_nil. Qed.

(** C30. A captured body is the request's own: however the requests in flight are
    interleaved, and whichever buffers the pool hands out again, the buffer of a
    request holds exactly the bytes that this request was given to keep, cut at the
    cap; the post-hook publishes that text, unless there is a body already, and
    gives the buffer back. *)
Theorem captured_own_body f c rc id :
  rtc (log_step p) log_start f → f.(ctxs) !! c = Some rc → body_buf rc = Some id →
  ∃ l, f.(given) !! c = Some l ∧
    let text := str_take (Z.to_nat p.(bodyMaxBytes)) (Join l "") in
    f.(log).(bufs) !! id = Some text ∧
    default ∅ (rc_Metadata (LogPostHTTP rc f.(log)).1) !! metaResponseBody =
      (match default ∅ rc.(rc_Metadata) !! metaResponseBody with
       | Some v => Some v
       | None => if decide (text = "") then None else Some (MBytes (Some text))
       end).
Proof using Hmax.
  intros Hr Hc Hb. assert (owned p f) as Hf.
  { revert Hr. generalize start_owned. generalize log_start. intros f0 H0 Hr. induction Hr; eauto using step_owned. }
  destruct (own_holds p f Hf c rc id Hc Hb) as (l & Hl & Hbuf). exists l. split; [done|]. cbn zeta. split; [done|].
  unfold LogPostHTTP. rewrite Hb, Hbuf. cbn [default from_option]. set (text := str_take _ _).
  cbn [fst rc_Metadata with_meta default from_option Datatypes.id]. rewrite !lookup_delete_ne by done.
  destruct (default ∅ (rc_Metadata rc) !! metaResponseBody) eqn:E; case_decide; try done.
  by rewrite lookup_insert_eq.
Qed.
End ownership.

(** ** What a line shows *)

(** The log shows only what it is configured to: without [log_bodies] the line of
    a trace does not depend on the bodies in the metadata, without [log_app_key]
    not on the application key; and a body that is shown is cut at the cap. *)
Theorem log_privacy p t md v :
  t.(tr_Metadata) = Some md →
  let with_ k := mkTrace t.(tr_Provider) t.(tr_Model) t.(tr_StatusCode) t.(tr_Duration) t.(tr_Error) (Some (<[k := v]> md)) in
  (p.(logBodies) = false → OnTrace p (with_ metaRequestBody) = OnTrace p t ∧ OnTrace p (with_ metaResponseBody) = OnTrace p t) ∧
  (p.(logAppKey) = false → OnTrace p (with_ metaAppKey) = OnTrace p t) ∧
  (0 <= p.(bodyMaxBytes) → ∀ k s, k = metaRequestBody ∨ k = metaResponseBody → (k, AStr s) ∈ OnTrace p t →
     Z.of_nat (String.length s) <= p.(bodyMaxBytes) + 14).
Proof.
  intros Hmd with_. unfold OnTrace. rewrite Hmd. cbn [with_ tr_Provider tr_Model tr_StatusCode tr_Duration tr_Error tr_Metadata].
  unfold str_attr. split_and!.
  - intros ->. by rewrite !lookup_insert_ne by done.
  - intros ->. unfold body_attr. by rewrite !lookup_insert_ne by done.
  - intros Hm k s Hk Hin. assert ((k, AStr s) ∈ body_attr p md metaRequestBody ++ body_attr p md metaResponseBody) as Hb.
    { assert (∀ name a, (k, AStr s) = (name, a) → k = name) as Hname by (by intros ?? [= -> _]).
      assert (∀ name, k = name → name = "request_body" ∨ name = "response_body") as Hk' by (by intros ? <-).
      do 4 (apply elem_of_cons in Hin as [Hin|Hin]; [by apply Hname, Hk' in Hin as [?|?]|]).
      rewrite !elem_of_app in Hin.
      destruct Hin as [[Hin|[Hin|[Hin|[Hin|[Hin|Hin]]]]]|Hin]; repeat case_match; try (by apply elem_of_nil in Hin);
        try (by apply list_elem_of_singleton, Hname, Hk' in Hin as [?|?]). exact Hin. }
    assert (∀ v0, Z.of_nat (String.length (truncate v0 p.(bodyMaxBytes))) <= p.(bodyMaxBytes) + 14) as Ht.
    { intros v0. unfold truncate. destruct (Z.leb_spec (Z.of_nat (String.length v0)) p.(bodyMaxBytes)); [lia|].
      rewrite str_length_app, str_take_length. cbn. lia. }
    assert (∀ key, (k, AStr s) ∈ body_attr p md key → ∃ v0, s = truncate v0 p.(bodyMaxBytes)) as Hbody.
    { intros key Hkey. unfold body_attr in Hkey. destruct (md !! key) as [[| | |v0| | | |]|]; try by apply elem_of_nil in Hkey.
      apply list_elem_of_singleton in Hkey. injection Hkey as _ ->. by eexists. }
    apply elem_of_app in Hb as [Hb|Hb]; apply Hbody in Hb as [v0 ->]; apply Ht.
Qed.

(** ** Witnesses *)

Definition demo_log : RequestLog := mkRequestLog LevelInfo true 4 "X-Request-Id" false.
Definition demo_rc : RequestContext := mkRC None "" "" (Some "q") (Some ∅) 0 None false 0 None.
Definition demo_rc_logged : RequestContext :=
  with_meta (<[metaStreamSink := MWriter 1]> (<[metaStreamBodyBuf := MWriter 1]>
    (<[metaRequestBody := MBytes (Some "q")]> (<[metaRequestID := MStr "u"]> ∅))))
    (Some (hdr_set ∅ "X-Request-Id" "u")) demo_rc.
Definition demo_log0 : LogState := mkLogState {[1%positive := ""]} [].
Definition demo_log1 : LogState := (LogStreamChunk demo_log demo_rc_logged (Some "abc") demo_log0).2.
Definition demo_log2 : LogState := capped_write 4 1 "def" demo_log1.
Definition demo_in_flight : InFlight :=
  mkInFlight {[7%positive := demo_rc_logged]} (alter (λ l, l ++ ["def"]) 7%positive (alter (λ l, l ++ ["abc"]) 7%positive {[7%positive := []]})) demo_log2.

Lemma demo_in_flight_reached : rtc (log_step demo_log) log_start demo_in_flight.
Proof.
  eapply rtc_l; [apply (step_pre demo_log ∅ ∅ (mkLogState ∅ []) 7 demo_rc "u" None demo_rc_logged demo_log0);
    vm_compute; reflexivity|].
  eapply rtc_l; [apply (step_chunk demo_log _ _ demo_log0 7 demo_rc_logged (Some "abc")); vm_compute; reflexivity|].
  eapply rtc_l; [apply (step_tee demo_log _ _ demo_log1 7 demo_rc_logged 1 "def"); vm_compute; reflexivity|].
  apply rtc_refl.
Qed.

(** Two writes of three bytes under a cap of four leave the first four. *)
Lemma captured_own_body_witness :
  ∃ l, given demo_in_flight !! 7%positive = Some l ∧
    bufs (log demo_in_flight) !! 1%positive = Some "abcd" ∧ Join l "" = "abcdef".
Proof.
  destruct (captured_own_body demo_log ltac:(vm_compute; discriminate) demo_in_flight 7 demo_rc_logged 1
    demo_in_flight_reached) as (l & Hl & Hb & _); [vm_compute; reflexivity..|].
  exists l. split; [exact Hl|]. vm_compute in Hl. injection Hl as <-.
  split; [etransitivity; [exact Hb|vm_compute; reflexivity]|reflexivity].
Defined.

Definition demo_trace : RequestTrace :=
  mkTrace "a" "m" 200 5000000 None (Some (<[metaAppKey := MStr "k"]> (<[metaResponseBody := MBytes (Some "abcdef")]> ∅))).

Lemma log_privacy_witness :
  (∀ v, OnTrace demo_log (mkTrace "a" "m" 200 5000000 None (Some (<[metaAppKey := v]> (default ∅ demo_trace.(tr_Metadata)))))
        = OnTrace demo_log demo_trace) ∧
  (metaResponseBody, AStr "abcd...(truncated)") ∈ OnTrace demo_log demo_trace ∧
  ∀ s, (metaResponseBody, AStr s) ∈ OnTrace demo_log demo_trace → Z.of_nat (String.length s) <= 18.
Proof.
  split_and!.
  - intros v. exact (proj1 (proj2 (log_privacy demo_log demo_trace _ v eq_refl)) eq_refl).
  - change (OnTrace demo_log demo_trace) with
      [("provider", AStr "a"); ("model", AStr "m"); ("status", AInt 200); ("duration_ms", AInt 5);
       (metaResponseBody, AStr "abcd...(truncated)")]. by repeat constructor.
  - intros s Hs.
    exact (proj2 (proj2 (log_privacy demo_log demo_trace _ (MStr "") eq_refl)) ltac:(vm_compute; discriminate)
      metaResponseBody s (or_intror eq_refl) Hs).
Defined.
