(* ===== verification/Observe.v ===== *)
(** * Metrics and tracing (internal/plugin/builtin/metrics, internal/plugin/builtin/tracing)

    The two plugins that report traces to OpenTelemetry.  The instruments and the
    exporters are not under the program's control: a metrics plugin is what it
    recorded with its instruments, a tracer the spans it started. *)
From stdpp Require Import pretty.
From S2P Require Import Prelude GoStd Plugin.

(** ** Metrics *)

(** The attributes of a measurement; the key is there with [per_key_metrics]. *)
Record labels := mkLabels {
  lb_provider : string;
  lb_model : string;
  lb_status : Z;
  lb_streaming : bool;
  lb_app_key : option string
}.
#[global] Instance labels_eq_dec : EqDecision labels.
Proof. solve_decision. Defined.

Inductive measurement :=
| RequestTotal (l : labels)
| RequestDuration (ns : Z) (l : labels)
| RequestErrors (l : labels).
#[global] Instance measurement_eq_dec : EqDecision measurement.
Proof. solve_decision. Defined.

Record Metrics := mkMetrics {
  perKeyMetrics : bool;
  ready : bool;                       (* the instruments exist *)
  recorded : list measurement
}.

Definition NewMetrics : Metrics := mkMetrics false false [].

(** [instruments] says whether the exporter and the instruments can be made. *)
Definition MetricsInit (instruments : bool) (cfg : option (gmap string any)) (p : Metrics) : bool * Metrics :=
  let per_key := match default ∅ cfg !! "per_key_metrics" with Some (VBool v) => v | _ => p.(perKeyMetrics) end in
  (instruments, mkMetrics per_key (p.(ready) || instruments) p.(recorded)).

Definition trace_labels (per_key : bool) (t : RequestTrace) : labels :=
  let md := default ∅ t.(tr_Metadata) in
  mkLabels t.(tr_Provider) t.(tr_Model) t.(tr_StatusCode)
    (match md !! "streaming" with Some (MBool v) => v | _ => false end)
    (if per_key then Some (match md !! "app_key" with Some (MStr v) => v | _ => "" end) else None).

Definition trace_failed (t : RequestTrace) : bool :=
  match t.(tr_Error) with Some _ => true | None => 400 <=? t.(tr_StatusCode) end.

Definition trace_measurements (per_key : bool) (t : RequestTrace) : list measurement :=
  let l := trace_labels per_key t in
  [RequestTotal l; RequestDuration t.(tr_Duration) l] ++ (if trace_failed t then [RequestErrors l] else []).

(** Without instruments the first of them is a nil interface. *)
Definition MetricsOnTrace (t : RequestTrace) (p : Metrics) : outcome Metrics :=
  if p.(ready) then
    Ret (mkMetrics p.(perKeyMetrics) p.(ready) (p.(recorded) ++ trace_measurements p.(perKeyMetrics) t))
  else Panic.

(** ** Tracing *)

Inductive span_value := SString (s : string) | SInt (z : Z) | SBool (b : bool).
Inductive span_status := StatusOk | StatusError (description : string).

Record Span := mkSpan {
  sp_name : string;
  sp_attributes : list (string * span_value);
  sp_errors : list string;
  sp_status : option span_status;
  sp_ended : bool
}.

(** The exporter's settings are there when the plugin is not a no-op. *)
Record exporter := mkExporter { ex_endpoint : string; ex_service : string; ex_insecure : bool }.
Record Tracing := mkTracing {
  tracer : option exporter;
  spans : gmap positive Span
}.

Definition NewTracing : Tracing := mkTracing None ∅.
Definition spanMetaKey : string := "_otel_span".

(** [connect] makes the exporter, or fails. *)
Definition TracingInit (connect : exporter → bool) (cfg : option (gmap string any)) (p : Tracing) : bool * Tracing :=
  let get k := default ∅ cfg !! k in
  let endpoint := match get "endpoint" with Some (VStr v) => v | _ => "" end in
  if decide (endpoint = "") then (true, p)
  else
    let service := match get "service_name" with Some (VStr v) => if decide (v = "") then "butter" else v | _ => "butter" end in
    let insecure := match get "insecure" with Some (VBool v) => v | _ => true end in
    let e := mkExporter endpoint service insecure in
    if connect e then (true, mkTracing (Some e) p.(spans)) else (false, p).

(** Assignment to a nil map panics. *)
Definition TracingPreHTTP (rc : RequestContext) (p : Tracing) : outcome (RequestContext * Tracing) :=
  match p.(tracer) with
  | None => Ret (rc, p)
  | Some _ =>
    let name := match rc.(rc_Request) with Some r => r.(rq_Path) | None => "llm.request" end in
    let id := fresh (dom p.(spans) : gset positive) in
    let p := mkTracing p.(tracer) (<[id := mkSpan name [] [] None false]> p.(spans)) in
    match rc.(rc_Metadata) with
    | None => Panic
    | Some md =>
      Ret (mkRC rc.(rc_Request) rc.(rc_Provider) rc.(rc_Model) rc.(rc_Body) (Some (<[spanMetaKey := MSpan id]> md))
             rc.(rc_StartTime) rc.(rc_ResponseHeaders) rc.(ShortCircuit) rc.(ShortCircuitStatus) rc.(ShortCircuitBody), p)
    end
  end.

Definition TracingPostHTTP (rc : RequestContext) : RequestContext := rc.
Definition TracingStreamChunk (chunk : slice) : slice := chunk.

(** What a span is given at its end. *)
Definition span_attributes (t : RequestTrace) : list (string * span_value) :=
  let md := default ∅ t.(tr_Metadata) in
  [("butter.provider", SString t.(tr_Provider)); ("butter.model", SString t.(tr_Model));
   ("http.response.status_code", SInt t.(tr_StatusCode)); ("butter.duration_ms", SInt (Z.quot t.(tr_Duration) 1000000))] ++
  (match md !! "streaming" with Some (MBool true) => [("butter.streaming", SBool true)] | _ => [] end) ++
  (match md !! "cache" with Some (MStr v) => [("butter.cache", SString v)] | _ => [] end).

Definition final_status (t : RequestTrace) : span_status :=
  match t.(tr_Error) with
  | Some e => StatusError e
  | None => if 400 <=? t.(tr_StatusCode) then StatusError ("HTTP " +:+ pretty t.(tr_StatusCode)) else StatusOk
  end.

(** A span that has ended takes no more changes. *)
Definition end_span (t : RequestTrace) (s : Span) : Span :=
  if s.(sp_ended) then s
  else mkSpan s.(sp_name) (s.(sp_attributes) ++ span_attributes t)
         (s.(sp_errors) ++ match t.(tr_Error) with Some e => [e] | None => [] end) (Some (final_status t)) true.

Definition TracingOnTrace (t : RequestTrace) (p : Tracing) : Tracing :=
  match default ∅ t.(tr_Metadata) !! spanMetaKey with
  | Some (MSpan id) => mkTracing p.(tracer) (alter (end_span t) id p.(spans))
  | _ => p
  end.

(** ** What is measured *)

Definition count (m : measurement) (p : Metrics) : nat := length (filter (λ x, x = m) p.(recorded)).
Definition counted (P : RequestTrace → Prop) `{∀ t, Decision (P t)} (ts : list RequestTrace) : nat := length (filter P ts).

Fixpoint OnTraces (ts : list RequestTrace) (p : Metrics) : outcome Metrics :=
  match ts with
  | [] => Ret p
  | t :: ts => match MetricsOnTrace t p with Ret p => OnTraces ts p | Panic => Panic end
  end.

Lemma OnTraces_ready ts p : p.(ready) = true →
  OnTraces ts p = Ret (mkMetrics p.(perKeyMetrics) true (p.(recorded) ++ (ts ≫= trace_measurements p.(perKeyMetrics)))).
Proof.
  revert p. induction ts as [|t ts IH]; intros p Hr; cbn [OnTraces mbind list_bind].
  - rewrite app_nil_r. destruct p. cbn in *. by subst.
  - unfold MetricsOnTrace. rewrite Hr, IH by done. cbn [recorded perKeyMetrics]. by rewrite <-(assoc_L (++)).
Qed.

Lemma filter_bind {A B} (P : B → Prop) `{∀ x, Decision (P x)} (f : A → list B) l :
  filter P (l ≫= f) = l ≫= λ x, filter P (f x).
Proof. induction l as [|x l IH]; [done|]. cbn [mbind list_bind]. by rewrite list.filter_app, IH. Qed.

(** The traces for which a measurement is taken once are its count. *)
Lemma count_traces m per_key (P : RequestTrace → Prop) `{∀ t, Decision (P t)} ts :
  (∀ t, length (filter (λ x, x = m) (trace_measurements per_key t)) = if decide (P t) then 1%nat else 0%nat) →
  length (filter (λ x, x = m) (ts ≫= trace_measurements per_key)) = counted P ts.
Proof.
  intros Hm. rewrite filter_bind. induction ts as [|t ts IH]; [done|]. unfold counted in *. cbn [mbind list_bind].
  rewrite length_app, IH, Hm, list.filter_cons. by case_decide.
Qed.

Lemma measured_total per_key t l :
  length (filter (λ x, x = RequestTotal l) (trace_measurements per_key t)) = if decide (trace_labels per_key t = l) then 1%nat else 0%nat.
Proof.
  unfold trace_measurements. cbn [app]. rewrite !list.filter_cons. rewrite (decide_False (P := RequestDuration _ _ = _)) by done.
  replace (filter _ (if trace_failed t then _ else [])) with (@nil measurement)
    by (destruct (trace_failed t); [by rewrite list.filter_cons, decide_False|done]).
  repeat case_decide; simplify_eq; done.
Qed.

Lemma measured_errors per_key t l :
  length (filter (λ x, x = RequestErrors l) (trace_measurements per_key t)) =
  if decide (trace_labels per_key t = l ∧ trace_failed t = true) then 1%nat else 0%nat.
Proof.
  unfold trace_measurements. cbn [app].
  rewrite !list.filter_cons, (decide_False (P := RequestTotal _ = _)), (decide_False (P := RequestDuration _ _ = _)) by done.
  destruct (trace_failed t); [rewrite list.filter_cons|]; repeat case_decide; naive_solver.
Qed.

(** The metrics count every trace: after any traces the requests counted under
    some labels are exactly the traces with these labels, and the errors those of
    them that failed or had a status of 400 or more; without [per_key_metrics] no
    label depends on the application key. *)
Theorem metrics_exact p ts l : p.(ready) = true → p.(recorded) = [] →
  ∃ p', OnTraces ts p = Ret p' ∧
    count (RequestTotal l) p' = counted (λ t, trace_labels p.(perKeyMetrics) t = l) ts ∧
    count (RequestErrors l) p' = counted (λ t, trace_labels p.(perKeyMetrics) t = l ∧ trace_failed t = true) ts ∧
    (p.(perKeyMetrics) = false → ∀ t md k, t.(tr_Metadata) = Some md →
       trace_labels p.(perKeyMetrics) (mkTrace t.(tr_Provider) t.(tr_Model) t.(tr_StatusCode) t.(tr_Duration) t.(tr_Error)
         (Some (<["app_key" := k]> md))) = trace_labels p.(perKeyMetrics) t).
Proof.
  intros Hr Hp. rewrite OnTraces_ready by done. eexists. split; [done|]. unfold count. cbn [recorded]. rewrite Hp. cbn [app]. split_and!.
  - apply count_traces. intros t. rewrite measured_total. by repeat case_decide.
  - apply count_traces. intros t. rewrite measured_errors. by repeat case_decide.
  - intros Hk t md k Hmd. rewrite Hk. unfold trace_labels. cbn. rewrite Hmd. cbn. by rewrite lookup_insert_ne.
Qed.

(** Every request gets a span of its own, and its trace ends that span and no
    other: after [PreHTTP] and the trace with that request's metadata, whatever was
    added to it, the span has the path as its name, the attributes of the trace and
    the status that its error or its status code says; a plugin without an endpoint
    touches nothing. *)
Theorem spans_end p rc t md rc' p' : rc.(rc_Metadata) = Some md → TracingPreHTTP rc p = Ret (rc', p') →
  match p.(tracer) with
  | None => rc' = rc ∧ p' = p
  | Some _ => ∃ id md', rc'.(rc_Metadata) = Some md' ∧ p.(spans) !! id = None ∧
      (∀ id', id' ≠ id → p'.(spans) !! id' = p.(spans) !! id') ∧
      (default ∅ t.(tr_Metadata) !! spanMetaKey = md' !! spanMetaKey →
       (∀ id', id' ≠ id → (TracingOnTrace t p').(spans) !! id' = p.(spans) !! id') ∧
       (TracingOnTrace t p').(spans) !! id =
         Some (mkSpan (match rc.(rc_Request) with Some r => r.(rq_Path) | None => "llm.request" end) (span_attributes t)
                 (match t.(tr_Error) with Some e => [e] | None => [] end) (Some (final_status t)) true))
  end.
Proof.
  intros Hmd. unfold TracingPreHTTP. destruct (tracer p) as [e|] eqn:Et; [|by intros [= <- <-]].
  rewrite Hmd. intros [= <- <-]. cbn [rc_Metadata spans]. set (id := fresh _).
  assert (p.(spans) !! id = None) as Hid by (apply not_elem_of_dom, is_fresh).
  eexists id, _. split; [done|]. split; [done|]. split; [intros id' Hne; by rewrite lookup_insert_ne|].
  rewrite lookup_insert_eq. intros Ht. unfold TracingOnTrace. rewrite Ht. cbn [spans]. split.
  - intros id' Hne. by rewrite lookup_alter_ne, lookup_insert_ne.
  - by rewrite lookup_alter_eq, lookup_insert_eq.
Qed.

(** ** Witnesses *)

Definition demo_ok : RequestTrace := mkTrace "a" "m" 200 5000000 None (Some {["app_key" := MStr "k"]}).
Definition demo_failure : RequestTrace := mkTrace "a" "m" 500 7000000 (Some "boom") (Some {["app_key" := MStr "k2"]}).

Definition demo_metrics : Metrics := (MetricsInit true None NewMetrics).2.

Lemma metrics_exact_witness :
  ∃ p', OnTraces [demo_ok; demo_failure; demo_failure] demo_metrics = Ret p' ∧
    count (RequestTotal (mkLabels "a" "m" 500 false None)) p' = 2%nat ∧ count (RequestErrors (mkLabels "a" "m" 500 false None)) p' = 2%nat.
Proof.
  destruct (metrics_exact demo_metrics [demo_ok; demo_failure; demo_failure] (mkLabels "a" "m" 500 false None) eq_refl eq_refl)
    as (p' & Hr & H1 & H2 & _).
  exists p'. split; [exact Hr|].
  split; [etransitivity; [exact H1|vm_compute; reflexivity]|etransitivity; [exact H2|vm_compute; reflexivity]].
Defined.

Definition demo_tracing : Tracing := mkTracing (Some (mkExporter "localhost:4318" "butter" true)) ∅.
Definition demo_request_context : RequestContext :=
  mkRC (Some (mkRequest "POST" "/v1/chat/completions" "" ∅)) "" "" None (Some ∅) 0 None false 0 None.

Lemma spans_end_witness :
  ∃ id md', TracingPreHTTP demo_request_context demo_tracing =
      Ret (mkRC (Some (mkRequest "POST" "/v1/chat/completions" "" ∅)) "" "" None (Some md') 0 None false 0 None,
           mkTracing (tracer demo_tracing) {[id := mkSpan "/v1/chat/completions" [] [] None false]}) ∧
    sp_status <$> spans (TracingOnTrace (mkTrace "a" "m" 503 0 None (Some md'))
      (mkTracing (tracer demo_tracing) {[id := mkSpan "/v1/chat/completions" [] [] None false]})) !! id = Some (Some (StatusError "HTTP 503")).
Proof.
  pose proof (spans_end demo_tracing demo_request_context
    (mkTrace "a" "m" 503 0 None (Some (<[spanMetaKey := MSpan 1]> ∅))) ∅ _ _ eq_refl eq_refl) as (id & md' & Hm & _ & _ & Ht).
  injection Hm as <-. destruct (Ht eq_refl) as [_ Hs]. exists 1%positive, (<[spanMetaKey := MSpan 1]> ∅).
  split; [vm_compute; reflexivity|]. vm_compute. reflexivity.
Defined.
