(* ===== verification/Guard.v ===== *)
(** * The prompt injection guard: what it looks for
    (plugins/prompt-injection-guard/scan.go, patterns.go)

    The scan of chat messages for known phrases, after a normalisation that undoes
    some ways to hide them.  The scan is exact: a message is reported exactly when
    it shows a phrase to a reader who overlooks the invisible characters, the
    full-width forms and the case of letters. *)
From S2P Require Import Prelude GoStd Utf8 JsonString.

(** [unicode.ToLower]: its table is a parameter.  Into ASCII it maps, besides
    ASCII itself, the dotted capital I and the Kelvin sign. *)
Class Unicode := { lower_rune : Z → Z }.

Class UnicodeLaws `{Unicode} := {
  lower_rune_ascii r : 0 <= r < 128 → lower_rune r = if in_range 65 90 r then r + 32 else r;
  lower_rune_I : lower_rune 304 = 105;
  lower_rune_K : lower_rune 8490 = 107;
  lower_rune_high r : scalar r → 128 <= r → r ≠ 304 → r ≠ 8490 → 128 <= lower_rune r ∧ scalar (lower_rune r)
}.

(** ** Definitions *)

Record injectionPattern := mkPattern {
  ip_text : string;
  ip_category : string
}.

Record chatMessage := mkChatMessage {
  cm_Role : string;
  cm_Content : string
}.

Definition defaultPatterns : list injectionPattern :=
  [mkPattern "ignore previous instructions" "instruction_override";
   mkPattern "ignore all prior" "instruction_override";
   mkPattern "ignore all previous" "instruction_override";
   mkPattern "disregard your instructions" "instruction_override";
   mkPattern "disregard all previous" "instruction_override";
   mkPattern "forget everything" "instruction_override";
   mkPattern "forget your instructions" "instruction_override";
   mkPattern "forget all previous" "instruction_override";
   mkPattern "ignore the above" "instruction_override";
   mkPattern "disregard the above" "instruction_override";
   mkPattern "you are now a" "role_override";
   mkPattern "you are now an" "role_override";
   mkPattern "act as " "role_override";
   mkPattern "act like " "role_override";
   mkPattern "pretend you are" "role_override";
   mkPattern "pretend to be" "role_override";
   mkPattern "roleplay as" "role_override";
   mkPattern "role play as" "role_override";
   mkPattern "impersonate " "role_override";
   mkPattern "jailbreak" "jailbreak";
   mkPattern "dan mode" "jailbreak";
   mkPattern "do anything now" "jailbreak";
   mkPattern "stan mode" "jailbreak";
   mkPattern "dude mode" "jailbreak";
   mkPattern "developer mode" "jailbreak";
   mkPattern "unrestricted mode" "jailbreak";
   mkPattern "god mode" "jailbreak";
   mkPattern "sudo mode" "jailbreak";
   mkPattern "bypass your" "jailbreak";
   mkPattern "reveal your system prompt" "prompt_extraction";
   mkPattern "print your instructions" "prompt_extraction";
   mkPattern "what are your instructions" "prompt_extraction";
   mkPattern "show me your prompt" "prompt_extraction";
   mkPattern "display your system prompt" "prompt_extraction";
   mkPattern "output your instructions" "prompt_extraction";
   mkPattern "repeat your instructions" "prompt_extraction";
   mkPattern "tell me your instructions" "prompt_extraction";
   mkPattern "share your system prompt" "prompt_extraction";
   mkPattern "what is your system prompt" "prompt_extraction";
   mkPattern "from now on you will" "boundary_bypass";
   mkPattern "from now on, you will" "boundary_bypass";
   mkPattern "from now on ignore" "boundary_bypass";
   mkPattern "from now on, ignore" "boundary_bypass";
   mkPattern "override the system prompt" "boundary_bypass";
   mkPattern "override your system prompt" "boundary_bypass";
   mkPattern "new instructions:" "boundary_bypass";
   mkPattern "updated instructions:" "boundary_bypass";
   mkPattern "your new instructions" "boundary_bypass";
   mkPattern "your true self" "persona_injection";
   mkPattern "your real purpose" "persona_injection";
   mkPattern "you have no restrictions" "persona_injection";
   mkPattern "you have no rules" "persona_injection";
   mkPattern "without restrictions" "persona_injection";
   mkPattern "no ethical guidelines" "persona_injection";
   mkPattern "ignore your ethics" "persona_injection";
   mkPattern "decode the following and" "encoding_attack";
   mkPattern "base64 decode" "encoding_attack";
   mkPattern "decode and execute" "encoding_attack";
   mkPattern "decode and follow" "encoding_attack";
   mkPattern "hex decode" "encoding_attack";
   mkPattern "rot13" "encoding_attack"].

(** The copy of the list for the builds that test on the host. *)
Definition defaultPatterns_host : list injectionPattern :=
  [mkPattern "ignore previous instructions" "instruction_override";
   mkPattern "ignore all prior" "instruction_override";
   mkPattern "ignore all previous" "instruction_override";
   mkPattern "disregard your instructions" "instruction_override";
   mkPattern "disregard all previous" "instruction_override";
   mkPattern "forget everything" "instruction_override";
   mkPattern "forget your instructions" "instruction_override";
   mkPattern "forget all previous" "instruction_override";
   mkPattern "ignore the above" "instruction_override";
   mkPattern "disregard the above" "instruction_override";
   mkPattern "you are now a" "role_override";
   mkPattern "you are now an" "role_override";
   mkPattern "act as " "role_override";
   mkPattern "act like " "role_override";
   mkPattern "pretend you are" "role_override";
   mkPattern "pretend to be" "role_override";
   mkPattern "roleplay as" "role_override";
   mkPattern "role play as" "role_override";
   mkPattern "impersonate " "role_override";
   mkPattern "jailbreak" "jailbreak";
   mkPattern "dan mode" "jailbreak";
   mkPattern "do anything now" "jailbreak";
   mkPattern "stan mode" "jailbreak";
   mkPattern "dude mode" "jailbreak";
   mkPattern "developer mode" "jailbreak";
   mkPattern "unrestricted mode" "jailbreak";
   mkPattern "god mode" "jailbreak";
   mkPattern "sudo mode" "jailbreak";
   mkPattern "bypass your" "jailbreak";
   mkPattern "reveal your system prompt" "prompt_extraction";
   mkPattern "print your instructions" "prompt_extraction";
   mkPattern "what are your instructions" "prompt_extraction";
   mkPattern "show me your prompt" "prompt_extraction";
   mkPattern "display your system prompt" "prompt_extraction";
   mkPattern "output your instructions" "prompt_extraction";
   mkPattern "repeat your instructions" "prompt_extraction";
   mkPattern "tell me your instructions" "prompt_extraction";
   mkPattern "share your system prompt" "prompt_extraction";
   mkPattern "what is your system prompt" "prompt_extraction";
   mkPattern "from now on you will" "boundary_bypass";
   mkPattern "from now on, you will" "boundary_bypass";
   mkPattern "from now on ignore" "boundary_bypass";
   mkPattern "from now on, ignore" "boundary_bypass";
   mkPattern "override the system prompt" "boundary_bypass";
   mkPattern "override your system prompt" "boundary_bypass";
   mkPattern "new instructions:" "boundary_bypass";
   mkPattern "updated instructions:" "boundary_bypass";
   mkPattern "your new instructions" "boundary_bypass";
   mkPattern "your true self" "persona_injection";
   mkPattern "your real purpose" "persona_injection";
   mkPattern "you have no restrictions" "persona_injection";
   mkPattern "you have no rules" "persona_injection";
   mkPattern "without restrictions" "persona_injection";
   mkPattern "no ethical guidelines" "persona_injection";
   mkPattern "ignore your ethics" "persona_injection";
   mkPattern "decode the following and" "encoding_attack";
   mkPattern "base64 decode" "encoding_attack";
   mkPattern "decode and execute" "encoding_attack";
   mkPattern "decode and follow" "encoding_attack";
   mkPattern "hex decode" "encoding_attack";
   mkPattern "rot13" "encoding_attack"].

(** The string with the given runes. *)
Definition encode_runes (l : list Z) : string := String.concat "" (EncodeRune <$> l).

(** U+200B, U+200C, U+200D, U+202E, U+FEFF and U+00AD. *)
Definition invisible (r : Z) : bool :=
  (r =? 8203) || (r =? 8204) || (r =? 8205) || (r =? 8238) || (r =? 65279) || (r =? 173).

(** The loop of [normalize] over the runes of its argument. *)
Fixpoint strip (l : list Z) : list Z :=
  match l with
  | [] => []
  | r :: l' =>
    if invisible r then strip l'
    else if (65281 <=? r) && (r <=? 65374) then r - 65248 :: strip l'
    else r :: strip l'
  end.

Section scan.
Context `{Unicode}.

Definition ToLower (s : string) : string := encode_runes (lower_rune <$> runes s).

Definition normalize (s : string) : string := ToLower (encode_runes (strip (runes s))).

Fixpoint find_pattern (normalized : string) (ps : list injectionPattern) : option injectionPattern :=
  match ps with
  | [] => None
  | p :: ps' => if Contains normalized p.(ip_text) then Some p else find_pattern normalized ps'
  end.

Fixpoint scan (messages : list chatMessage) (roleSet : gset string) (scanAll : bool) : option injectionPattern :=
  match messages with
  | [] => None
  | msg :: messages' =>
    let role := ToLower msg.(cm_Role) in
    if negb scanAll && negb (bool_decide (role ∈ roleSet)) then scan messages' roleSet scanAll
    else
      match find_pattern (normalize msg.(cm_Content)) defaultPatterns with
      | Some p => Some p
      | None => scan messages' roleSet scanAll
      end
  end.
End scan.

(** ** Runes and texts *)

Lemma runes_fuel_more n : ∀ m s, (String.length s ≤ n)%nat → (String.length s ≤ m)%nat →
  runes_fuel n s = runes_fuel m s.
Proof.
  induction n as [|n IH]; intros [|m] s Hn Hm; destruct s as [|c s]; try done; cbn [String.length] in *; try lia.
  cbn [runes_fuel]. pose proof (DecodeRune_width (String c s) ltac:(done)) as Hw.
  destruct (DecodeRune (String c s)) as [r w]. cbn [snd] in Hw. f_equal.
  apply IH; rewrite str_drop_length; cbn [String.length]; lia.
Qed.

Lemma runes_step s : s ≠ "" → runes s = (DecodeRune s).1 :: runes (str_drop (DecodeRune s).2 s).
Proof.
  intros Hs. pose proof (DecodeRune_width s Hs) as Hw. unfold runes at 1. destruct s as [|c s]; [done|].
  cbn [String.length runes_fuel]. destruct (DecodeRune (String c s)) as [r w]. cbn [fst snd] in *. f_equal.
  unfold runes. apply runes_fuel_more; rewrite ?str_drop_length; cbn [String.length]; lia.
Qed.

Lemma runes_scalar s : Forall scalar (runes s).
Proof.
  induction s as [s IH] using str_len_ind. destruct (decide (s = "")) as [->|Hs]; [by constructor|].
  rewrite runes_step by done. constructor; [apply DecodeRune_scalar|]. apply IH. rewrite str_drop_length.
  pose proof (DecodeRune_width s Hs). destruct s; [done|]. cbn [String.length]. lia.
Qed.

Lemma encode_runes_cons r l : encode_runes (r :: l) = EncodeRune r +:+ encode_runes l.
Proof. unfold encode_runes. cbn. destruct l; cbn; [by rewrite str_app_nil_r|done]. Qed.

Lemma runes_encode l : Forall scalar l → runes (encode_runes l) = l.
Proof.
  induction 1 as [|r l Hr _ IH]; [done|]. rewrite encode_runes_cons.
  assert (EncodeRune r +:+ encode_runes l ≠ "") as Hne by (pose proof (EncodeRune_length r); by destruct (EncodeRune r); cbn in *; try lia).
  rewrite runes_step, DecodeRune_EncodeRune by done. cbn [fst snd]. by rewrite str_drop_app, IH.
Qed.

(** A phrase to look for: ASCII text without capital letters. *)
Definition phrase (p : string) : bool :=
  negb (bool_decide (p = "")) && str_forallb (λ c, (code c <? 128) && negb (is_upper c)) p.

(** The two lists are kept in sync. *)
Lemma patterns_in_sync : defaultPatterns_host = defaultPatterns.
Proof. reflexivity. Qed.

Lemma patterns_are_phrases : Forall (λ p, phrase p.(ip_text) = true) defaultPatterns.
Proof. by repeat constructor. Qed.

(** The codes of an ASCII text are its runes. *)
Lemma runes_ascii c s : code c < 128 → runes (String c s) = code c :: runes s.
Proof. intros Hc. by rewrite runes_step, DecodeRune_ascii by done. Qed.

Lemma prefix_encode p l : str_forallb (λ c, code c <? 128) p = true → Forall scalar l →
  String.prefix p (encode_runes l) = true ↔ runes p `prefix_of` l.
Proof.
  revert l. induction p as [|c p IH]; intros l Hp Hl.
  { split; [intros _; apply prefix_nil|]. intros _. by destruct (encode_runes l). }
  cbn in Hp. apply andb_prop in Hp as [Hc%Z.ltb_lt Hp]. rewrite runes_ascii by done.
  destruct Hl as [|r l Hr Hl]; [split; [done|]; by intros ?%prefix_nil_not|].
  rewrite encode_runes_cons. destruct (Z.lt_ge_cases r 128) as [Hr'|Hr'].
  - assert (EncodeRune r = String (byte_of r) "") as ->.
    { rewrite EncodeRune_scalar by done. by destruct (Z.ltb_spec r 128); [|lia]. }
    assert (code (byte_of r) = r) as Hcr by (apply code_byte_of; destruct Hr; lia).
    cbn [String.append String.prefix]. destruct (ascii_dec c (byte_of r)) as [-> |Hne].
    + rewrite IH, Hcr by done. split; [apply prefix_cons|apply prefix_cons_inv_2].
    + split; [done|]. intros Hpre%prefix_cons_inv_1. destruct Hne. apply code_inj. by rewrite Hcr.
  - destruct (EncodeRune_head r Hr ltac:(lia)) as (c0 & t & -> & Hc0 & _). cbn [String.append String.prefix].
    destruct (ascii_dec c c0) as [-> |Hne]; [lia|]. split; [done|]. intros Hpre%prefix_cons_inv_1. lia.
Qed.

Lemma Contains_high e s c p : high e → code c < 128 → Contains (e +:+ s) (String c p) = Contains s (String c p).
Proof.
  induction e as [|x e IH]; intros He Hc; [done|]. cbn in He. apply andb_true_iff in He as [Hx He].
  cbn [String.append Contains String.prefix]. destruct (ascii_dec c x) as [-> |]; [lia|]. by apply IH.
Qed.

Lemma Contains_encode p l : str_forallb (λ c, code c <? 128) p = true → p ≠ "" → Forall scalar l →
  Contains (encode_runes l) p = true ↔ ∃ a b, l = a ++ runes p ++ b.
Proof.
  intros Hp Hne. destruct p as [|c p]; [done|]. pose proof Hp as Hc. cbn in Hc. apply andb_prop in Hc as [Hc%Z.ltb_lt _].
  induction 1 as [|r l Hr Hl IH].
  { split; [done|]. intros (a & b & E). rewrite runes_ascii in E by done. by destruct a. }
  assert (Contains (encode_runes (r :: l)) (String c p) = true ↔
          String.prefix (String c p) (encode_runes (r :: l)) = true ∨ Contains (encode_runes l) (String c p) = true) as ->.
  { rewrite encode_runes_cons. destruct (Z.lt_ge_cases r 128) as [Hr'|Hr'].
    - assert (∃ x, EncodeRune r = String x "") as [x ->].
      { rewrite EncodeRune_scalar by done. by destruct (Z.ltb_spec r 128); [eexists|lia]. }
      cbn [String.append Contains]. apply orb_true_iff.
    - pose proof (EncodeRune_high r Hr ltac:(lia)) as Hh. rewrite Contains_high by done. split; [by right|]. intros [Hpre|?]; [|done].
      exfalso. destruct (EncodeRune_head r Hr ltac:(lia)) as (c0 & t & E & Hc0 & _). rewrite E in Hpre.
      cbn in Hpre. destruct (ascii_dec c c0); [subst; lia|done]. }
  rewrite IH, prefix_encode by (try done; by constructor). split.
  - intros [[b Hb]|(a & b & ->)]; [by exists [], b|]. by exists (r :: a), b.
  - intros ([|r' a] & b & E); [left; by exists b|]. right. cbn in E. simplify_eq. by exists a, b.
Qed.

(** ** What a message shows *)

(** A character of a phrase and what may stand for it: the same letter in either
    case, its full-width form, the dotted capital I and the Kelvin sign. *)
Definition same_letter (r r' : Z) : Prop := r' = r ∨ (97 <= r <= 122 ∧ r' = r - 32).
Definition resembles (r r' : Z) : Prop :=
  same_letter r r' ∨ (33 <= r' - 65248 <= 126 ∧ same_letter r (r' - 65248)) ∨ (r = 105 ∧ r' = 304) ∨ (r = 107 ∧ r' = 8490).

(** A phrase with look-alikes, and invisible characters in between. *)
Inductive hides : list Z → list Z → Prop :=
| hides_nil : hides [] []
| hides_invisible r p l : invisible r = true → hides p l → hides p (r :: l)
| hides_rune r r' p l : resembles r r' → hides p l → hides (r :: p) (r' :: l).

Definition shows (content text : string) : Prop :=
  ∃ a d b, runes content = a ++ d ++ b ∧ hides (runes text) d.

Section exact.
Context `{UnicodeLaws}.

(** What is left of a rune, lower-cased. *)
Definition reading (l : list Z) : list Z := lower_rune <$> strip l.

Lemma strip_scalar l : Forall scalar l → Forall scalar (strip l).
Proof using All.
  induction 1 as [|r l Hr _ IH]; cbn [strip]; [by constructor|].
  destruct (invisible r); [done|]. case_match eqn:E; constructor; try done. unfold scalar. lia.
Qed.

Lemma lower_scalar r : scalar r → scalar (lower_rune r).
Proof using All.
  intros Hr. destruct (Z.lt_ge_cases r 128).
  - rewrite lower_rune_ascii by (destruct Hr; lia). unfold in_range, scalar in *. case_match; lia.
  - destruct (decide (r = 304)) as [-> |]; [rewrite lower_rune_I; unfold scalar; lia|].
    destruct (decide (r = 8490)) as [-> |]; [rewrite lower_rune_K; unfold scalar; lia|].
    by apply lower_rune_high.
Qed.

Lemma normalize_reading s : normalize s = encode_runes (reading (runes s)).
Proof using All. unfold normalize, ToLower. by rewrite runes_encode by apply strip_scalar, runes_scalar. Qed.

Lemma reading_scalar l : Forall scalar l → Forall scalar (reading l).
Proof using All. intros Hl%strip_scalar. apply Forall_fmap. eapply list.Forall_impl; [exact Hl|]. intros r. apply lower_scalar. Qed.

Lemma reading_cons r l : reading (r :: l) = if invisible r then reading l
  else lower_rune (if (65281 <=? r) && (r <=? 65374) then r - 65248 else r) :: reading l.
Proof using All. unfold reading. cbn [strip]. destruct (invisible r); [done|]. by case_match. Qed.

Lemma reading_app l1 l2 : reading (l1 ++ l2) = reading l1 ++ reading l2.
Proof using All.
  induction l1 as [|r l1 IH]; [done|]. cbn [app]. rewrite !reading_cons, IH. by destruct (invisible r).
Qed.

Lemma reading_split l : ∀ a m, reading l = a ++ m → ∃ l1 l2, l = l1 ++ l2 ∧ reading l1 = a ∧ reading l2 = m.
Proof using All.
  induction l as [|r l IH]; intros a m E.
  { cbn in E. symmetry in E. apply app_eq_nil in E as [-> ->]. by exists [], []. }
  destruct a as [|x a]; [by exists [], (r :: l)|]. rewrite reading_cons in E. destruct (invisible r) eqn:Hi.
  - destruct (IH _ _ E) as (l1 & l2 & -> & E1 & E2). exists (r :: l1), l2. by rewrite reading_cons, Hi.
  - cbn in E. injection E as Ex E. destruct (IH _ _ E) as (l1 & l2 & -> & E1 & E2). exists (r :: l1), l2.
    by rewrite reading_cons, Hi, Ex, E1.
Qed.

(** A character reads as a lower-case ASCII character when it resembles it. *)
Lemma reads_as r r' : 0 <= r < 128 → ~ 65 <= r <= 90 → scalar r' →
  resembles r r' ↔ invisible r' = false ∧ lower_rune (if (65281 <=? r') && (r' <=? 65374) then r' - 65248 else r') = r.
Proof using All.
  intros Hr Hu Hr'. assert (∀ x, 0 <= x < 128 → same_letter r x ↔ lower_rune x = r) as Hl.
  { intros x Hx. rewrite lower_rune_ascii by done. unfold same_letter, in_range. case_match; lia. }
  unfold resembles, invisible. split.
  - intros [Hs|[[Hw Hs]|[[-> ->]|[-> ->]]]].
    + assert (0 <= r' < 128) by (unfold same_letter in Hs; lia). split; [lia|].
      replace ((65281 <=? r') && (r' <=? 65374)) with false by lia. by apply Hl.
    + split; [lia|]. replace ((65281 <=? r') && (r' <=? 65374)) with true by lia. apply Hl; [lia|done].
    + by rewrite lower_rune_I.
    + by rewrite lower_rune_K.
  - intros [Hi E]. destruct ((65281 <=? r') && (r' <=? 65374)) eqn:Hw.
    + right. left. split; [lia|]. apply Hl; [lia|done].
    + destruct (Z.lt_ge_cases r' 128); [left; apply Hl; [destruct Hr'; lia|done]|]. do 2 right.
      destruct (decide (r' = 304)) as [-> |]; [left; by rewrite lower_rune_I in E|].
      destruct (decide (r' = 8490)) as [-> |]; [right; by rewrite lower_rune_K in E|].
      destruct (lower_rune_high r'); [done|lia|done|done|]. lia.
Qed.

Lemma hides_reading p d : Forall (λ r, 0 <= r < 128 ∧ ~ 65 <= r <= 90) p → Forall scalar d →
  hides p d ↔ reading d = p.
Proof using All.
  intros Hp Hd. revert p Hp. induction Hd as [|r' d Hr' Hd IH]; intros p Hp.
  { split; [by inversion 1|]. intros <-. constructor. }
  rewrite reading_cons. split.
  - inversion 1 as [|r p' l Hi Hh|r r'' p' l Hre Hh]; subst.
    + rewrite Hi. by apply IH.
    + apply list.Forall_cons in Hp as [[Hr Hu] Hp]. apply reads_as in Hre as [-> ->]; [|done..]. f_equal. by apply IH.
  - destruct (invisible r') eqn:Hi; [intros E; apply hides_invisible; [done|]; by apply IH|].
    intros E. destruct p as [|r p]; [done|]. injection E as Er E. apply list.Forall_cons in Hp as [[Hr Hu] Hp].
    apply hides_rune; [by apply reads_as|by apply IH].
Qed.

Lemma phrase_runes p : phrase p = true → p ≠ "" ∧ str_forallb (λ c, code c <? 128) p = true ∧
  Forall (λ r, 0 <= r < 128 ∧ ~ 65 <= r <= 90) (runes p).
Proof using All.
  unfold phrase. intros [Hne Hp]%andb_prop. split; [intros ->; done|]. clear Hne.
  induction p as [|c p IH]; [by split; [|constructor]|]. cbn in Hp. apply andb_prop in Hp as [[Hc Hu]%andb_prop Hp].
  destruct (IH Hp) as [H1 H2]. apply Z.ltb_lt in Hc. split; [cbn; rewrite H1; lia|]. rewrite runes_ascii by done.
  constructor; [|done]. unfold is_upper, in_range in Hu. pose proof (code_range c). lia.
Qed.

Lemma contains_shows content p : phrase p = true → Contains (normalize content) p = true ↔ shows content p.
Proof using All.
  intros (Hne & Hp & Hr)%phrase_runes. rewrite normalize_reading, Contains_encode by (try done; apply reading_scalar, runes_scalar).
  pose proof (runes_scalar content) as Hs. split.
  - intros (a & b & E). destruct (reading_split _ _ _ E) as (l1 & l2 & El & Ea & E2).
    destruct (reading_split _ _ _ E2) as (d & l3 & -> & Ed & Eb). exists l1, d, l3. split; [done|].
    rewrite El in Hs. apply Forall_app in Hs as [_ [Hd _]%Forall_app]. by apply hides_reading.
  - intros (a & d & b & E & Hh). exists (reading a), (reading b). rewrite E, !reading_app. do 2 f_equal.
    rewrite E in Hs. apply Forall_app in Hs as [_ [Hd _]%Forall_app]. by apply hides_reading.
Qed.

(** ** The scan *)

Definition scanned (roleSet : gset string) (scanAll : bool) (m : chatMessage) : Prop :=
  scanAll = true ∨ ToLower m.(cm_Role) ∈ roleSet.

(** A message in scope that shows a known phrase. *)
Definition suspicious (messages : list chatMessage) roleSet scanAll (p : injectionPattern) : Prop :=
  p ∈ defaultPatterns ∧ ∃ m, m ∈ messages ∧ scanned roleSet scanAll m ∧ shows m.(cm_Content) p.(ip_text).

Lemma find_pattern_spec content ps : Forall (λ p, phrase p.(ip_text) = true) ps →
  match find_pattern (normalize content) ps with
  | Some p => p ∈ ps ∧ shows content p.(ip_text)
  | None => ∀ p, p ∈ ps → ~ shows content p.(ip_text)
  end.
Proof using All.
  induction 1 as [|p ps Hp _ IH]; cbn [find_pattern]; [by intros p ?%elem_of_nil|].
  destruct (Contains (normalize content) (ip_text p)) eqn:E.
  - split; [by left|]. by apply contains_shows.
  - destruct (find_pattern _ ps) as [q|]; [destruct IH; split; [by right|done]|].
    intros q [-> |Hq]%elem_of_cons; [|by apply IH]. rewrite <-contains_shows by done. congruence.
Qed.

Lemma scan_spec messages roleSet scanAll :
  match scan messages roleSet scanAll with
  | Some p => suspicious messages roleSet scanAll p
  | None => ∀ p, ~ suspicious messages roleSet scanAll p
  end.
Proof using All.
  induction messages as [|m ms IH]; cbn [scan]; [by intros p (_ & m & ?%elem_of_nil & _)|].
  assert (negb scanAll && negb (bool_decide (ToLower m.(cm_Role) ∈ roleSet)) = false ↔ scanned roleSet scanAll m) as Hs.
  { unfold scanned. destruct scanAll; cbn; [by split; [left|]|]. rewrite negb_false_iff, bool_decide_eq_true.
    split; [by right|by intros [|]]. }
  assert (∀ p, suspicious ms roleSet scanAll p → suspicious (m :: ms) roleSet scanAll p) as Hmore.
  { intros p (Hp & m' & Hm' & ?). split; [done|]. exists m'. split; [by right|done]. }
  pose proof (find_pattern_spec m.(cm_Content) defaultPatterns patterns_are_phrases) as Hf.
  destruct (negb scanAll && negb _) eqn:E in |- *.
  - destruct (scan ms roleSet scanAll) as [p|]; [by apply Hmore|].
    intros p (Hp & m' & [-> |Hm']%elem_of_cons & Hsc & Hsh); [|by apply (IH p); repeat split; eauto].
    apply (proj2 Hs) in Hsc. congruence.
  - apply (proj1 Hs) in E. destruct (find_pattern _ defaultPatterns) as [p|]; [destruct Hf; split; [done|]; exists m; split; [by left|done]|].
    destruct (scan ms roleSet scanAll) as [p|]; [by apply Hmore|].
    intros p (Hp & m' & [-> |Hm']%elem_of_cons & Hsc & Hsh); [by apply (Hf p)|by apply (IH p); repeat split; eauto].
Qed.
End exact.
