(* ===== verification/Sdk.v ===== *)
(** * What the host and its WASM guests exchange (plugin/sdk/sdk.go)

    The two messages of the plugin ABI and their JSON.  The host's metadata holds
    Go values, a guest's what a JSON text decodes to, so the messages are
    parameterised by the type of the metadata's values. *)
From S2P Require Import Prelude GoStd Utf8 Json JsonEnc CacheKey Plugin.

(** ** Messages *)

Record SdkRequest (V : Type) := mkSdkRequest {
  sq_Hook : string;
  sq_Provider : string;
  sq_Model : string;
  sq_Body : slice;
  sq_Headers : option (gmap string string);
  sq_Metadata : option (gmap string V)
}.
#[global] Arguments mkSdkRequest {V}.
#[global] Arguments sq_Hook {V}.
#[global] Arguments sq_Provider {V}.
#[global] Arguments sq_Model {V}.
#[global] Arguments sq_Body {V}.
#[global] Arguments sq_Headers {V}.
#[global] Arguments sq_Metadata {V}.

Record SdkResponse (V : Type) := mkSdkResponse {
  sr_Body : slice;
  sr_Metadata : option (gmap string V);
  sr_ShortCircuit : bool;
  sr_ShortCircuitBody : slice;
  sr_ShortCircuitStatus : Z
}.
#[global] Arguments mkSdkResponse {V}.
#[global] Arguments sr_Body {V}.
#[global] Arguments sr_Metadata {V}.
#[global] Arguments sr_ShortCircuit {V}.
#[global] Arguments sr_ShortCircuitBody {V}.
#[global] Arguments sr_ShortCircuitStatus {V}.

Definition zero_request {V} : SdkRequest V := mkSdkRequest "" "" "" None None None.
Definition zero_response {V} : SdkResponse V := mkSdkResponse None None false None 0.

(** ** Encoding *)

Definition b64_char (z : Z) : ascii :=
  byte_of (if z <? 26 then 65 + z else if z <? 52 then 71 + z else if z <? 62 then z - 4
           else if z =? 62 then 43 else 47).

(** [base64.StdEncoding] *)
Fixpoint base64 (s : string) : string :=
  match s with
  | EmptyString => ""
  | String a EmptyString =>
    String (b64_char (code a / 4)) (String (b64_char (code a mod 4 * 16)) "==")
  | String a (String b EmptyString) =>
    String (b64_char (code a / 4)) (String (b64_char (code a mod 4 * 16 + code b / 16))
      (String (b64_char (code b mod 16 * 4)) "="))
  | String a (String b (String c s')) =>
    String (b64_char (code a / 4)) (String (b64_char (code a mod 4 * 16 + code b / 16))
      (String (b64_char (code b mod 16 * 4 + code c / 64)) (String (b64_char (code c mod 64)) (base64 s'))))
  end.

(** A map: its members in the order of the keys. *)
Definition encode_map (m : gmap string string) : string := encode_obj (sort_members (map_to_list m)).

(** The texts of the values, if all of them can be encoded. *)
Definition map_texts {V} (enc : V → option string) (m : gmap string V) : option (gmap string string) :=
  if decide (map_Forall (λ _ v, is_Some (enc v)) m) then Some (omap enc m) else None.

Definition encode_valmap {V} (enc : V → option string) (m : option (gmap string V)) : option string :=
  encode_map <$> map_texts enc (default ∅ m).

Definition empty_map {V} (m : option (gmap string V)) : bool := bool_decide (default ∅ m = ∅).
Definition empty_bytes (b : slice) : bool := bool_decide (bytes_of b = "").

(** An encoder of a field that [omitempty] may leave out; it is not run then. *)
Definition unless (empty : bool) (text : option string) : option string := if empty then Some "" else text.

Section encode.
Context {V : Type} (enc : V → option string).

Definition encode_request (q : SdkRequest V) : option string :=
  body ← unless (empty_bytes q.(sq_Body)) (encode_raw q.(sq_Body));
  metadata ← unless (empty_map q.(sq_Metadata)) (encode_valmap enc q.(sq_Metadata));
  Some (encode_struct
    [always "hook" (encode_string q.(sq_Hook));
     omitempty (bool_decide (q.(sq_Provider) = "")) "provider" (encode_string q.(sq_Provider));
     omitempty (bool_decide (q.(sq_Model) = "")) "model" (encode_string q.(sq_Model));
     omitempty (empty_bytes q.(sq_Body)) "body" body;
     omitempty (empty_map q.(sq_Headers)) "headers" (encode_map (encode_string <$> default ∅ q.(sq_Headers)));
     omitempty (empty_map q.(sq_Metadata)) "metadata" metadata]).

Definition encode_response (r : SdkResponse V) : option string :=
  body ← unless (empty_bytes r.(sr_Body)) (encode_raw r.(sr_Body));
  metadata ← unless (empty_map r.(sr_Metadata)) (encode_valmap enc r.(sr_Metadata));
  sc_body ← unless (empty_bytes r.(sr_ShortCircuitBody)) (encode_raw r.(sr_ShortCircuitBody));
  Some (encode_struct
    [omitempty (empty_bytes r.(sr_Body)) "body" body;
     omitempty (empty_map r.(sr_Metadata)) "metadata" metadata;
     omitempty (negb r.(sr_ShortCircuit)) "short_circuit" (encode_bool r.(sr_ShortCircuit));
     omitempty (empty_bytes r.(sr_ShortCircuitBody)) "short_circuit_body" sc_body;
     omitempty (r.(sr_ShortCircuitStatus) =? 0) "short_circuit_status" (encode_int r.(sr_ShortCircuitStatus))]).
End encode.

(** A value that came out of a JSON text can be encoded. *)
Definition encode_anyv (v : anyv) : option string := Some (encode_any v).

(** ** Decoding *)

(** A member of a map: the value is stored under its key, also after an error. *)
Definition str_member (st : gmap string string * bool) (m : string * string * json) : gmap string string * bool :=
  let '(key, raw, v) := m in
  let '(s, ok) := dec_string v raw "" in (<[unquote key := s]> st.1, st.2 && ok).

Definition dec_strmap : dec (option (gmap string string)) := λ j _ t,
  match j with
  | JNull => (None, true)
  | JObj ms => let st := foldl str_member (default ∅ t, true) ms in (Some st.1, st.2)
  | _ => (t, false)
  end.

Section decode.
Context `{Strconv}.

(** A number out of range is an error; the map is not used then. *)
Definition any_member_step (st : gmap string anyv * bool) (m : string * string * json) : gmap string anyv * bool :=
  let '(key, _, v) := m in
  match decode_any v with
  | Some x => (<[unquote key := x]> st.1, st.2)
  | None => (<[unquote key := ANull]> st.1, false)
  end.

Definition dec_anymap : dec (option (gmap string anyv)) := λ j _ t,
  match j with
  | JNull => (None, true)
  | JObj ms => let st := foldl any_member_step (default ∅ t, true) ms in (Some st.1, st.2)
  | _ => (t, false)
  end.

Definition dec_request : dec (SdkRequest anyv) :=
  dec_struct
    [("hook", field sq_Hook (λ v q, mkSdkRequest v q.(sq_Provider) q.(sq_Model) q.(sq_Body) q.(sq_Headers) q.(sq_Metadata)) dec_string);
     ("provider", field sq_Provider (λ v q, mkSdkRequest q.(sq_Hook) v q.(sq_Model) q.(sq_Body) q.(sq_Headers) q.(sq_Metadata)) dec_string);
     ("model", field sq_Model (λ v q, mkSdkRequest q.(sq_Hook) q.(sq_Provider) v q.(sq_Body) q.(sq_Headers) q.(sq_Metadata)) dec_string);
     ("body", field sq_Body (λ v q, mkSdkRequest q.(sq_Hook) q.(sq_Provider) q.(sq_Model) v q.(sq_Headers) q.(sq_Metadata)) dec_raw);
     ("headers", field sq_Headers (λ v q, mkSdkRequest q.(sq_Hook) q.(sq_Provider) q.(sq_Model) q.(sq_Body) v q.(sq_Metadata)) dec_strmap);
     ("metadata", field sq_Metadata (λ v q, mkSdkRequest q.(sq_Hook) q.(sq_Provider) q.(sq_Model) q.(sq_Body) q.(sq_Headers) v) dec_anymap)].

Definition dec_response : dec (SdkResponse anyv) :=
  dec_struct
    [("body", field sr_Body (λ v r, mkSdkResponse v r.(sr_Metadata) r.(sr_ShortCircuit) r.(sr_ShortCircuitBody) r.(sr_ShortCircuitStatus)) dec_raw);
     ("metadata", field sr_Metadata (λ v r, mkSdkResponse r.(sr_Body) v r.(sr_ShortCircuit) r.(sr_ShortCircuitBody) r.(sr_ShortCircuitStatus)) dec_anymap);
     ("short_circuit", field sr_ShortCircuit (λ v r, mkSdkResponse r.(sr_Body) r.(sr_Metadata) v r.(sr_ShortCircuitBody) r.(sr_ShortCircuitStatus)) dec_bool);
     ("short_circuit_body", field sr_ShortCircuitBody (λ v r, mkSdkResponse r.(sr_Body) r.(sr_Metadata) r.(sr_ShortCircuit) v r.(sr_ShortCircuitStatus)) dec_raw);
     ("short_circuit_status", field sr_ShortCircuitStatus (λ v r, mkSdkResponse r.(sr_Body) r.(sr_Metadata) r.(sr_ShortCircuit) r.(sr_ShortCircuitBody) v) dec_int64)].
End decode.

Example base64_examples :
  (base64 "M", base64 "Ma", base64 "Man", base64 "light work.") = ("TQ==", "TWE=", "TWFu", "bGlnaHQgd29yay4=").
Proof. reflexivity. Qed.
