(* ===== verification/Guests.v ===== *)
(** * The guests (plugins/example-wasm/main.go, plugins/prompt-injection-guard/main.go)

    The two plugins of the repository that run inside the WASM host.  A guest is
    what its export computes from the input and the configuration: an exit code
    and an output. *)
From S2P Require Import Prelude GoStd Json JsonEnc CacheKey Sdk Guard.

Section guests.
Context `{Strconv} `{Unicode}.

(** [pdk.GetConfig] *)
Context (GetConfig : string → string).

(** [pdk.Output(out)], where an encoding that fails leaves no output. *)
Definition output (r : SdkResponse anyv) : Z * string := (0, default "" (encode_response encode_anyv r)).

(** [pdk.SetError(err); return 1] *)
Definition failed : Z * string := (1, "").

(** ** The example *)

Definition example_preHTTP (input : string) : Z * string :=
  match Unmarshal dec_request input zero_request with
  | (_, false) => failed
  | (req, true) =>
    let meta := default ∅ req.(sq_Metadata) in
    let meta := <["plugin_hook" := AStr "pre_http"]> (<["tagged_by" := AStr "example-wasm-plugin"]> meta) in
    let tag := GetConfig "tag" in
    let meta := if decide (tag = "") then meta else <["custom_tag" := AStr tag]> meta in
    match encode_response encode_anyv (mkSdkResponse None (Some meta) false None 0) with
    | None => failed
    | Some out => (0, out)
    end
  end.

(** ** The guard *)

Definition dec_chatMessage : dec chatMessage :=
  dec_struct
    [("role", field cm_Role (λ v m, mkChatMessage v m.(cm_Content)) dec_string);
     ("content", field cm_Content (λ v m, mkChatMessage m.(cm_Role) v) dec_string)].

(** [chatBody] has the messages only. *)
Definition dec_chatBody : dec (option (list chatMessage)) :=
  dec_struct [("messages", dec_slice (mkChatMessage "" "") dec_chatMessage)].

Definition blockBody : string :=
  dq "{'error':{'message':'Request blocked: potential prompt injection detected','type':'invalid_request_error','code':'prompt_injection_detected'}}".

Fixpoint parse_roles (l : list string) (roleSet : gset string) : gset string * bool :=
  match l with
  | [] => (roleSet, false)
  | r :: l' =>
    let trimmed := TrimSpace (ToLower r) in
    if decide (trimmed = "all") then (roleSet, true) else parse_roles l' ({[trimmed]} ∪ roleSet)
  end.

Definition scan_roles : gset string * bool :=
  let raw := GetConfig "scan_roles" in
  parse_roles (Split (if decide (raw = "") then "user,assistant" else raw) ",") ∅.

Definition tag_meta (p : injectionPattern) (meta : gmap string anyv) : gmap string anyv :=
  <["matched_category" := AStr p.(ip_category)]>
    (<["matched_pattern" := AStr p.(ip_text)]> (<["prompt_injection_detected" := ABool true]> meta)).

Definition guard_preHTTP (input : string) : Z * string :=
  match Unmarshal dec_request input zero_request with
  | (_, false) => failed
  | (req, true) =>
    let mode := GetConfig "mode" in
    let mode := if decide (mode = "") then "block" else mode in
    match Unmarshal dec_chatBody (bytes_of req.(sq_Body)) None with
    | (_, false) => output zero_response
    | (messages, true) =>
      match scan (default [] messages) scan_roles.1 scan_roles.2 with
      | None => output zero_response
      | Some p =>
        let meta := tag_meta p (default ∅ req.(sq_Metadata)) in
        if bool_decide (mode = "log") || bool_decide (mode = "tag")
        then output (mkSdkResponse None (Some meta) false None 0)
        else output (mkSdkResponse None (Some meta) true (Some blockBody) 400)
      end
    end
  end.
End guests.
