(* ===== verification/Wasm.v ===== *)
(** * The WASM plugin host (internal/plugin/wasm/plugin.go)

    A plugin of the chain whose hooks run in an instance of a compiled module,
    made for the call and closed after it.  The runtime (Extism on wazero) is a
    parameter: what it answers is arbitrary.  Hooks take the request context by
    value and return it changed; a nil dereference is a [Panic], and what the
    deferred function does is done on that path too. *)
From stdpp Require Import pretty.
From S2P Require Import Prelude GoStd Utf8 Json JsonEnc CacheKey Config Plugin Sdk.

(** ** The runtime *)

(** [sys.ExitError] has a code of its own for an abort by the context. *)
Inductive exit_code := ExitDeadlineExceeded | ExitContextCanceled | ExitOther (n : Z).
Record wasm_error := mkWasmError {
  we_text : string;
  we_exit : option exit_code
}.

Inductive ctx_error := CtxCanceled | CtxDeadlineExceeded.

Record Manifest := mkManifest {
  mf_path : string;
  mf_Config : gmap string string;
  mf_Timeout : Z;             (* milliseconds; 0 is none *)
  mf_MaxPages : option Z
}.

(** The context of one call: the request it comes from, and its time limit. *)
Record CallCtx := mkCallCtx {
  cc_base : option Request;
  cc_timeout : option Z
}.

Class Extism (N : Type) := {
  NewCompiledPlugin : Manifest → ST N (string + positive);
  CloseCompiled : positive → ST N (option string);
  NewInstance : positive → CallCtx → ST N (string + positive);
  CloseInstance : positive → ST N ();
  FunctionExists : positive → string → ST N bool;
  CallWithContext : positive → CallCtx → string → string → ST N (Z * string * option wasm_error);
  CtxErr : CallCtx → ST N (option ctx_error);
  (** the text that [%v] gives a value of the configuration *)
  FormatValue : any → string;
  (** [json.Marshal] of metadata whose type the host does not know *)
  MarshalOther : meta_value → option string
}.

(** ** The plugin *)

Record WasmPlugin := mkWasm {
  wp_name : string;
  wp_path : string;
  wp_timeout : Z;
  wp_maxPages : Z;
  wp_compiled : option positive
}.

Definition maxWASMPages : Z := 65536.

Inductive WasmOption := WithTimeout (d : Z) | WithMaxPages (pages : Z).
Definition apply_option (p : WasmPlugin) (o : WasmOption) : WasmPlugin :=
  match o with
  | WithTimeout d => mkWasm p.(wp_name) p.(wp_path) d p.(wp_maxPages) p.(wp_compiled)
  | WithMaxPages pages => mkWasm p.(wp_name) p.(wp_path) p.(wp_timeout) pages p.(wp_compiled)
  end.

Definition NewWasm (name path : string) (opts : list WasmOption) : WasmPlugin :=
  foldl apply_option (mkWasm name path DefaultWASMTimeout DefaultWASMMaxPages None) opts.

(** The error of a hook, with the sentinel that [errors.Is] finds in it, and what
    the message is made of: the name of the plugin, the hook and the cause. *)
Inductive hook_error :=
| ErrHookTimeout (plugin hook cause : string)
| ErrHookCanceled (plugin hook cause : string)
| ErrHook (plugin hook cause : string).

(** What the host and the runtime did with instances. *)
Inductive wasm_event := EvInstance (id : positive) | EvCall (id : positive) (hook : string) | EvClose (id : positive).

Record Host (N : Type) := mkHost {
  h_active : Z;
  h_events : list wasm_event;
  h_net : N
}.
#[global] Arguments mkHost {N}.
#[global] Arguments h_active {N}.
#[global] Arguments h_events {N}.
#[global] Arguments h_net {N}.

Section host.
Context {N : Type} `{Extism N} `{Strconv}.
#[local] Abbreviation HM := (ST (Host N)).

Definition run_net {A} (m : ST N A) : HM A := λ h,
  let '(a, n) := m h.(h_net) in (a, mkHost h.(h_active) h.(h_events) n).
Definition note (e : wasm_event) : HM () := λ h, (tt, mkHost h.(h_active) (h.(h_events) ++ [e]) h.(h_net)).
Definition add_active (d : Z) : HM () := λ h, (tt, mkHost (wrap64 (h.(h_active) + d)) h.(h_events) h.(h_net)).

(** [time.Duration.Milliseconds] truncates. *)
Definition manifest (p : WasmPlugin) (cfg : option (gmap string any)) : Manifest :=
  mkManifest p.(wp_path) (FormatValue <$> default ∅ cfg)
    (if 0 <? p.(wp_timeout) then Z.max (Z.quot p.(wp_timeout) 1000000) 1 else 0)
    (if 0 <? p.(wp_maxPages) then Some (Z.min p.(wp_maxPages) maxWASMPages) else None).

(** The cause of a failure to load the module, or the plugin with the module. *)
Definition WasmInit (p : WasmPlugin) (cfg : option (gmap string any)) : HM (option string * WasmPlugin) :=
  r ← run_net (NewCompiledPlugin (manifest p cfg));
  match r with
  | inl err => mret (Some err, p)
  | inr id => mret (None, mkWasm p.(wp_name) p.(wp_path) p.(wp_timeout) p.(wp_maxPages) (Some id))
  end.

Definition WasmClose (p : WasmPlugin) : HM (option string * WasmPlugin) :=
  match p.(wp_compiled) with
  | None => mret (None, p)
  | Some id =>
    r ← run_net (CloseCompiled id);
    match r with
    | Some err => mret (Some err, p)
    | None => mret (None, mkWasm p.(wp_name) p.(wp_path) p.(wp_timeout) p.(wp_maxPages) None)
    end
  end.

Definition callContext (p : WasmPlugin) (rc : RequestContext) : CallCtx :=
  mkCallCtx rc.(rc_Request) (if p.(wp_timeout) <=? 0 then None else Some p.(wp_timeout)).

Definition boundsError (p : WasmPlugin) (hook : string) (cc : CallCtx) (err : wasm_error) : HM hook_error :=
  c ← run_net (CtxErr cc);
  mret match c with
       | Some CtxCanceled => ErrHookCanceled p.(wp_name) hook err.(we_text)
       | Some CtxDeadlineExceeded => ErrHookTimeout p.(wp_name) hook err.(we_text)
       | None =>
         match err.(we_exit) with
         | Some ExitDeadlineExceeded => ErrHookTimeout p.(wp_name) hook err.(we_text)
         | Some ExitContextCanceled => ErrHookCanceled p.(wp_name) hook err.(we_text)
         | _ => ErrHook p.(wp_name) hook err.(we_text)
         end
       end.

(** ** A call *)

Definition encode_meta (v : meta_value) : option string :=
  match v with
  | MStr s => Some (encode_string s)
  | MBool b => Some (encode_bool b)
  | MInt z => Some (encode_int z)
  | MBytes None => Some "null"
  | MBytes (Some b) => Some (encode_string (base64 b))
  | MAny v => Some (encode_any v)
  | MWriter _ | MSpan _ | MOpaque => MarshalOther v
  end.

(** A header is passed on by its first value. *)
Definition first_values (h : Header) : gmap string string := omap head h.

Definition new_request (hook : string) (rc : RequestContext) (r : Request) (body : slice) : SdkRequest meta_value :=
  mkSdkRequest hook rc.(rc_Provider) rc.(rc_Model)
    (match body with Some _ => body | None => rc.(rc_Body) end) (Some (first_values r.(rq_Header))) rc.(rc_Metadata).

(** The part of [call] that has the instance; what follows it is deferred. *)
Definition with_instance (p : WasmPlugin) (hook : string) (cc : CallCtx) (rc : RequestContext) (body : slice)
    (inst : positive) : HM (outcome (hook_error + option (SdkResponse anyv))) :=
  let fail cause := ErrHook p.(wp_name) hook cause in
  exists_ ← run_net (FunctionExists inst hook);
  if negb exists_ then mret (Ret (inr None))
  else
    match rc.(rc_Request) with
    | None => mret Panic
    | Some r =>
      match encode_request encode_meta (new_request hook rc r body) with
      | None => mret (Ret (inl (fail "marshal request: json")))
      | Some input =>
        note (EvCall inst hook);;
        '(exitCode, output, err) ← run_net (CallWithContext inst cc hook input);
        match err with
        | Some err => e ← boundsError p hook cc err; mret (Ret (inl e))
        | None =>
          if negb (exitCode =? 0) then mret (Ret (inl (fail ("non-zero exit code " +:+ pretty exitCode))))
          else if decide (output = "") then mret (Ret (inr None))
          else
            match Unmarshal dec_response output zero_response with
            | (_, false) => mret (Ret (inl (fail "unmarshal response: json")))
            | (resp, true) => mret (Ret (inr (Some resp)))
            end
        end
      end
    end.

(** A hook of a plugin whose module is not loaded dereferences nil. *)
Definition call (p : WasmPlugin) (hook : string) (rc : RequestContext) (body : slice)
  : HM (outcome (hook_error + option (SdkResponse anyv))) :=
  let cc := callContext p rc in
  c ← run_net (CtxErr cc);
  match c with
  | Some e =>
    err ← boundsError p hook cc (mkWasmError (match e with CtxCanceled => "context canceled" | CtxDeadlineExceeded => "context deadline exceeded" end) None);
    mret (Ret (inl err))
  | None =>
    match p.(wp_compiled) with
    | None => mret Panic
    | Some compiled =>
      i ← run_net (NewInstance compiled cc);
      match i with
      | inl err => mret (Ret (inl (ErrHook p.(wp_name) "create instance" err)))
      | inr inst =>
        note (EvInstance inst);;
        add_active 1;;
        r ← with_instance p hook cc rc body inst;
        note (EvClose inst);;
        run_net (CloseInstance inst);;
        add_active (-1);;
        mret r
      end
    end
  end.

(** ** Hooks *)

Definition meta_of_any (v : anyv) : meta_value :=
  match v with AStr s => MStr s | ABool b => MBool b | _ => MAny v end.

Definition applyToRequestContext (rc : RequestContext) (resp : SdkResponse anyv) : RequestContext :=
  let md := default ∅ resp.(sr_Metadata) in
  let rc := if decide (md = ∅) then rc
            else mkRC rc.(rc_Request) rc.(rc_Provider) rc.(rc_Model) rc.(rc_Body)
                   (Some ((meta_of_any <$> md) ∪ default ∅ rc.(rc_Metadata))) rc.(rc_StartTime)
                   rc.(rc_ResponseHeaders) rc.(ShortCircuit) rc.(ShortCircuitStatus) rc.(ShortCircuitBody) in
  if resp.(sr_ShortCircuit) then
    mkRC rc.(rc_Request) rc.(rc_Provider) rc.(rc_Model) rc.(rc_Body) rc.(rc_Metadata) rc.(rc_StartTime)
      rc.(rc_ResponseHeaders) true
      (if resp.(sr_ShortCircuitStatus) =? 0 then 400 else resp.(sr_ShortCircuitStatus)) resp.(sr_ShortCircuitBody)
  else rc.

Definition set_body (b : slice) (rc : RequestContext) : RequestContext :=
  mkRC rc.(rc_Request) rc.(rc_Provider) rc.(rc_Model) b rc.(rc_Metadata) rc.(rc_StartTime) rc.(rc_ResponseHeaders)
    rc.(ShortCircuit) rc.(ShortCircuitStatus) rc.(ShortCircuitBody).

Definition WasmPreHTTP (p : WasmPlugin) (rc : RequestContext) : HM (outcome (RequestContext * option hook_error)) :=
  r ← call p "pre_http" rc None;
  mret match r with
       | Panic => Panic
       | Ret (inl err) => Ret (rc, Some err)
       | Ret (inr None) => Ret (rc, None)
       | Ret (inr (Some resp)) => Ret (applyToRequestContext rc resp, None)
       end.

Definition WasmPostHTTP (p : WasmPlugin) (rc : RequestContext) : HM (outcome (option hook_error)) :=
  r ← call p "post_http" rc None;
  mret match r with Panic => Panic | Ret (inl err) => Ret (Some err) | Ret (inr _) => Ret None end.

Definition WasmStreamChunk (chunk : slice) : slice := chunk.

Definition WasmPreLLM (p : WasmPlugin) (rc : RequestContext) : HM (outcome (RequestContext * option hook_error)) :=
  r ← call p "pre_llm" rc None;
  mret match r with
       | Panic => Panic
       | Ret (inl err) => Ret (rc, Some err)
       | Ret (inr None) => Ret (rc, None)
       | Ret (inr (Some resp)) =>
         let rc := applyToRequestContext rc resp in
         Ret (if decide (bytes_of resp.(sr_Body) = "") then rc else set_body resp.(sr_Body) rc, None)
       end.

Definition WasmPostLLM (p : WasmPlugin) (rc : RequestContext) (resp : Response)
  : HM (outcome (Response * option hook_error)) :=
  r ← call p "post_llm" rc resp.(r_Body);
  mret match r with
       | Panic => Panic
       | Ret (inl err) => Ret (resp, Some err)
       | Ret (inr None) => Ret (resp, None)
       | Ret (inr (Some w)) =>
         Ret (if decide (bytes_of w.(sr_Body) = "") then resp
              else mkResponse resp.(r_StatusCode) resp.(r_Headers) w.(sr_Body), None)
       end.
End host.
