(* ===== verification/SdkTheorems.v ===== *)
(** * The messages between host and guests survive their encoding

    A request that the host encodes is decoded by the guest: the hook, the body as
    a text of the same value, and some headers and metadata.  A response with
    metadata that came out of a JSON text is read back exactly.  Wrapping a body in
    a request puts it one level deeper, so bodies at the decoder's limit are not
    covered. *)
From S2P Require Import Prelude GoStd Utf8 Json JsonGrammar JsonString JsonCompact JsonEnc JsonDecode JsonMap CacheKey OpenAIFormat JsonAny Plugin Sdk.

(** ** Depth *)

Fixpoint nesting (j : json) : Z :=
  match j with
  | JArr l => 1 + (fix go l := match l with [] => 0 | x :: l' => Z.max (nesting x) (go l') end) l
  | JObj ms => 1 + (fix go ms := match ms with [] => 0 | (_, x) :: ms' => Z.max (nesting x) (go ms') end) ms
  | _ => 0
  end.

Definition elems_nesting (l : list json) : Z := foldr (λ x, Z.max (nesting x)) 0 l.
Definition members_nesting (ms : list (string * string * json)) : Z := foldr (λ m, Z.max (nesting m.2)) 0 ms.

Lemma nesting_arr l : nesting (JArr l) = 1 + elems_nesting l.
Proof. done. Qed.
Lemma nesting_obj ms : nesting (JObj ms) = 1 + members_nesting ms.
Proof. cbn. f_equal. by induction ms as [|[k x] ms IH]; cbn; [|rewrite IH]. Qed.

Lemma elems_nesting_pos l : 0 <= elems_nesting l.
Proof. unfold elems_nesting. induction l; cbn; lia. Qed.
Lemma members_nesting_pos ms : 0 <= members_nesting ms.
Proof. unfold members_nesting. induction ms; cbn; lia. Qed.

(** A text may stand as deep as its nesting allows. *)
Lemma deeper :
  (∀ d t v, jvalue d t v → ∀ d', d' + nesting v <= max_depth → jvalue d' t v) ∧
  (∀ d t vs, jelems d t vs → ∀ d', d' + elems_nesting vs <= max_depth → jelems d' t vs) ∧
  (∀ d t ms, jmembers d t ms → ∀ d', d' + members_nesting ms <= max_depth → jmembers d' t ms).
Proof.
  apply jtext_rule; intros d.
  - intros. constructor.
  - intros. constructor.
  - intros. by constructor.
  - intros. by constructor.
  - intros w _ Hw d' Hd. cbn in Hd. constructor; [lia|done].
  - intros t vs _ _ IH d'. rewrite nesting_arr. intros Hd. pose proof (elems_nesting_pos vs). constructor; [lia|]. apply IH. lia.
  - intros w _ Hw d' Hd. cbn in Hd. constructor; [lia|done].
  - intros t ms _ _ IH d'. rewrite nesting_obj. intros Hd. pose proof (members_nesting_pos ms). constructor; [lia|]. apply IH. lia.
  - intros w t v w' ? _ IH ? d' Hd. cbn in Hd. constructor; [done| |done]. apply IH. lia.
  - intros w t v w' u vs ? _ IH ? _ IHs d' Hd. cbn in Hd. constructor; [done| |done|]; [apply IH|apply IHs]; unfold elems_nesting; lia.
  - intros w k w1 w2 t v w3 ? ? ? ? _ IH ? d' Hd. cbn in Hd. constructor; try done. apply IH. lia.
  - intros w k w1 w2 t v w3 u ms ? ? ? ? _ IH ? _ IHs d' Hd. cbn in Hd. constructor; try done; [apply IH|apply IHs]; unfold members_nesting; lia.
Qed.

(** What a body compacts to. *)
Lemma compact_body body v : parse body = Some v → nesting v < max_depth →
  encode_raw (Some body) = Some (compact body) ∧ compact body ≠ "" ∧
  ∃ v', jvalue 1 (compact body) v' ∧ sem_of v' = sem_of v.
Proof.
  intros Hp Hn. split; [unfold encode_raw; by rewrite Hp|]. apply parse_grammar in Hp as (w & t & w' & Hw & Hw' & -> & Hv).
  apply (proj1 deeper _ _ _) with (d' := 1) in Hv; [|lia].
  destruct (proj1 compact_text _ _ _ Hv) as (t' & v' & Ht' & Hsem & Hs).
  assert (compact (w +:+ t +:+ w') = t') as ->.
  { unfold compact. rewrite compact_ws, Hs by done. pose proof (compact_ws w' "" Hw') as E. rewrite str_app_nil_r in E.
    rewrite E. cbn. by rewrite str_app_nil_r. }
  split; [|by exists v']. intros ->. inversion Ht' as [|? b E|? lit Hl| | | | |]; subst; [by destruct b|].
  by apply jnumber_head in Hl as (? & ? & ? & _).
Qed.

(** ** Decoders that only look at values *)

Definition by_value {T} (D : dec T) : Prop := ∀ j1 j2 r1 r2 t, sem_of j1 = sem_of j2 → D j1 r1 t = D j2 r2 t.

Ltac same_kind j1 j2 := destruct j1, j2; cbn; intros; simplify_eq/=; try done.

Lemma by_value_string : by_value dec_string.
Proof. intros j1 j2 r1 r2 t E. revert E. same_kind j1 j2. congruence. Qed.

Lemma by_value_field {S T} (get : S → T) set (D : dec T) : by_value D → by_value (field get set D).
Proof. intros HD j1 j2 r1 r2 s E. unfold field. by rewrite (HD j1 j2 r1 r2 (get s) E). Qed.

Lemma by_value_slice {T} zero (D : dec T) : by_value D → by_value (dec_slice zero D).
Proof.
  intros HD j1 j2 r1 r2 t. destruct j1 as [| | | |l1|], j2 as [| | | |l2|]; try done. rewrite !sem_of_arr. intros [= E].
  assert (∀ old, dec_list_go zero D l1 old = dec_list_go zero D l2 old) as Hgo; [|by cbn; rewrite Hgo].
  revert l2 E. induction l1 as [|x1 l1 IH]; intros [|x2 l2] E old; try done. cbn in E. injection E as E1 E2. cbn.
  rewrite (HD x1 x2 "" "" _ E1). by rewrite (IH l2 E2).
Qed.

Lemma by_value_struct {T} (fields : list (string * dec T)) :
  (∀ name D, find_field fields name = Some D → by_value D) → by_value (dec_struct fields).
Proof.
  intros Hf j1 j2 r1 r2 t. destruct j1 as [| | | | |m1], j2 as [| | | | |m2]; try done. rewrite !sem_of_members. intros [= E].
  cbn [dec_struct]. generalize true. revert t m2 E. induction m1 as [|[[k1 s1] x1] m1 IH]; intros t [|[[k2 s2] x2] m2] E ok; try done.
  rewrite !fmap_cons in E. unfold sem_member in E at 1 3. injection E as Ek Ex E. cbn [fst snd] in Ek, Ex. rewrite !dec_members_cons, Ek.
  destruct (find_field fields (unquote k2)) as [D|] eqn:HD; [|by apply IH].
  rewrite (Hf _ _ HD x1 x2 s1 s2 t Ex). by apply IH.
Qed.

Lemma Unmarshal_by_value {T} (D : dec T) b1 b2 v1 v2 t : by_value D →
  parse b1 = Some v1 → parse b2 = Some v2 → sem_of v1 = sem_of v2 → Unmarshal D b1 t = Unmarshal D b2 t.
Proof. intros HD E1 E2 E. unfold Unmarshal. rewrite E1, E2. by apply HD. Qed.

(** ** Reading at a depth *)

Lemma reads_at {T} D (Dec : dec T) t text x v : jvalue D text v → Dec v text t = (x, true) →
  reads_text (max_depth - D) Dec t text x.
Proof. intros Hv HD d Hd. exists v. split; [|done]. apply (proj1 jtext_shallower _ _ _ Hv). lia. Qed.

Lemma reads_sanitized h t s : reads h dec_string t (encode_string s) (sanitize s).
Proof.
  intros d _. eexists. split; [apply encode_string_value|]. intros raw. cbn [dec_string]. by rewrite unquote_encode.
Qed.

(** The members of an encoded map, whatever is decoded from their values. *)
Lemma encode_map_value d (m : gmap string string) (P : string → json → Prop) : d < max_depth →
  map_Forall (λ k t, ∃ v, jvalue (d + 1) t v ∧ P k v) m →
  ∃ l vs, l ≡ₚ map_to_list m ∧ Forall2 (λ p v, jvalue (d + 1) p.2 v ∧ P p.1 v) l vs ∧
    jvalue d (encode_map m) (JObj (obj_members l vs)).
Proof.
  intros Hd Hm. set (l := sort_members (map_to_list m)).
  assert (l ≡ₚ map_to_list m) as Hperm by apply sort_members_perm.
  assert (Forall (λ p, ∃ v, jvalue (d + 1) p.2 v ∧ P p.1 v) l) as Hl.
  { apply list.Forall_forall. intros [k t] Hin. rewrite Hperm in Hin. by apply elem_of_map_to_list, Hm in Hin. }
  assert (∃ vs, Forall2 (λ p v, jvalue (d + 1) p.2 v ∧ P p.1 v) l vs) as [vs Hvs].
  { clear -Hl. clearbody l. induction Hl as [|p l [v Hv] _ [vs IH]]; [by exists []|]. exists (v :: vs). by constructor. }
  exists l, vs. split; [done|]. split; [done|]. apply encode_obj_value; [done|].
  eapply list.Forall2_impl; [exact Hvs|]. by intros ?? [? _].
Qed.

Section maps.
Context `{Strconv} `{!FloatLaws}.

Definition ok_anymap (d : Z) (m : gmap string anyv) : Prop := map_Forall (λ k w, valid_utf8 k ∧ any_ok d w) m.

(** Some metadata is read, all of it good to be written again. *)
Lemma anymap_decodes d l vs : Forall2 (λ (p : string * string) v, jvalue d p.2 v ∧ is_Some (decode_any v)) l vs → ∀ m, ok_anymap d m →
  ∃ m', foldl any_member_step (m, true) (obj_members l vs) = (m', true) ∧ ok_anymap d m'.
Proof using All.
  induction 1 as [|p v l vs [Hj [w Hw]] _ IH]; intros m Hm; [by exists m|]. unfold obj_members. cbn [zip_with foldl any_member_step].
  rewrite Hw. apply IH. apply map_Forall_insert_2; [|done]. split; [|by eapply decode_any_ok].
  rewrite unquote_encode. apply valid_sanitize.
Qed.

Lemma strmap_decodes (l : list (string * string)) vs : Forall2 (λ (p : string * string) v, jvalue 2 p.2 v ∧ ∃ raw, v = JStr raw) l vs → ∀ m : gmap string string,
  ∃ m', foldl str_member (m, true) (obj_members l vs) = (m', true).
Proof using Type.
  induction 1 as [|p v l vs [_ [raw ->]] _ IH]; intros m; [by exists m|]. unfold obj_members. cbn [zip_with foldl str_member dec_string andb].
  apply IH.
Qed.

(** Metadata that came out of a text is read back exactly. *)
Lemma anymap_exact l vs (m : gmap string anyv) : Forall2 (λ (p : string * string) v, valid_utf8 p.1 ∧ ∃ w, m !! p.1 = Some w ∧ decode_any v = Some w) l vs →
  ∀ m0, ∃ ws, Forall2 (λ (p : string * string) w, m !! p.1 = Some w) l ws ∧ foldl any_member_step (m0, true) (obj_members l vs) = (foldl (λ (m : gmap string anyv) p, <[p.1 := p.2]> m) m0 (zip l.*1 ws), true).
Proof using Type.
  induction 1 as [|p v l vs (Hk & w & Hm & Hw) _ IH]; intros m0; [by exists []|]. unfold obj_members. cbn [zip_with foldl any_member_step].
  rewrite Hw, unquote_encode_valid by done. destruct (IH (<[p.1 := w]> m0)) as (ws & Hws & E). exists (w :: ws).
  split; [by constructor|]. exact E.
Qed.

Lemma zip_lookup (m : gmap string anyv) (l : list (string * string)) ws : NoDup l.*1 →
  Forall2 (λ p w, m !! p.1 = Some w) l ws → ∀ k,
  (list_to_map (zip l.*1 ws) : gmap string anyv) !! k = if decide (k ∈ l.*1) then m !! k else None.
Proof using Type.
  intros Hnd HF. induction HF as [|p w l ws Hp HF IH]; intros k; cbn; [by rewrite lookup_empty; case_decide as E; [apply elem_of_nil in E|]|].
  cbn in Hnd. apply list.NoDup_cons in Hnd as [Hni Hnd]. destruct (decide (k = p.1)) as [-> |Hne].
  - rewrite lookup_insert_eq, decide_True by by left. done.
  - rewrite lookup_insert_ne, IH by done. destruct (decide (k ∈ l.*1)) as [Hin|Hin].
    + by rewrite decide_True by by right.
    + rewrite decide_False; [done|]. by intros [?|?]%elem_of_cons.
Qed.

Lemma anymap_roundtrip (m : gmap string anyv) : ok_anymap 2 m →
  ∃ v, jvalue 1 (encode_map (encode_any <$> m)) v ∧ ∀ raw, dec_anymap v raw None = (Some m, true).
Proof using All.
  intros Hm. destruct (encode_map_value 1 (encode_any <$> m) (λ k v, valid_utf8 k ∧ ∃ w, m !! k = Some w ∧ decode_any v = Some w))
    as (l & vs & Hperm & Hvs & Hj); [done| |].
  { apply map_Forall_fmap. intros k w Hk. destruct (Hm k w Hk) as [Hv Hw]. destruct (encode_any_reads w 2 Hw) as (j & Hj & Hd).
    exists j. split; [exact Hj|]. split; [done|]. by exists w. }
  exists (JObj (obj_members l vs)). split; [done|]. intros raw. cbn [dec_anymap default from_option].
  destruct (anymap_exact l vs m) with (m0 := (∅ : gmap string anyv)) as (ws & Hws & ->); cbn [fst snd].
  { eapply list.Forall2_impl; [exact Hvs|]. by intros p v [_ ?]. }
  f_equal. f_equal. apply map_eq. intros k.
  assert (NoDup l.*1) as Hnd by (rewrite Hperm; apply NoDup_fst_map_to_list).
  rewrite fold_insert_lookup by (rewrite fst_zip; [done|rewrite length_fmap; by apply Forall2_length in Hws as ->]).
  rewrite (zip_lookup m) by done. rewrite lookup_empty. case_decide as Hin; [by destruct (m !! k)|].
  cbn. symmetry. apply eq_None_not_Some. intros [w Hw]. apply Hin. rewrite Hperm. apply list_elem_of_fmap.
  exists (k, encode_any w). split; [done|]. apply elem_of_map_to_list. by rewrite lookup_fmap, Hw.
Qed.
End maps.

(** ** Requests *)

Section requests.
Context `{Strconv} `{!FloatLaws} {V : Type} (enc : V → option string).

(** A value whose text can be read. *)
Definition readable (x : V) : Prop := ∃ t j, enc x = Some t ∧ jvalue 2 t j ∧ is_Some (decode_any j).

Lemma valmap_reads (m : gmap string V) : map_Forall (λ _, readable) m →
  ∃ text x, encode_valmap enc (Some m) = Some text ∧ reads_text (max_depth - 1) dec_anymap None text (Some x) ∧ ok_anymap 2 x.
Proof using All.
  intros Hm. unfold encode_valmap, map_texts. cbn [default from_option id].
  rewrite decide_True by (intros k x Hk; destruct (Hm k x Hk) as (t & _ & -> & _); eauto). cbn [fmap option_fmap option_map].
  destruct (encode_map_value 1 (omap enc m) (λ _ v, is_Some (decode_any v))) as (l & vs & _ & Hvs & Hj); [done| |].
  { intros k t Hk. apply lookup_omap_Some in Hk as (x & Hx & Hk). destruct (Hm k x Hk) as (t' & j & Ht & Hj & Hd).
    exists j. by simplify_eq. }
  destruct (anymap_decodes 2 l vs Hvs ∅) as (x & Hx & Hok); [done|].
  eexists _, x. split; [done|]. split; [|done]. eapply reads_at; [exact Hj|]. cbn [dec_anymap default from_option]. by rewrite Hx.
Qed.

Lemma headers_read (m : gmap string string) :
  ∃ x, reads_text (max_depth - 1) dec_strmap None (encode_map (encode_string <$> m)) (Some x).
Proof using Type.
  destruct (encode_map_value 1 (encode_string <$> m) (λ _ v, ∃ raw, v = JStr raw)) as (l & vs & _ & Hvs & Hj); [done| |].
  { apply map_Forall_fmap. intros k s _. eexists. split; [apply encode_string_value|]. by eexists. }
  destruct (strmap_decodes l vs Hvs ∅) as (x & Hx). exists x. eapply reads_at; [exact Hj|].
  cbn [dec_strmap default from_option]. by rewrite Hx.
Qed.

Lemma request_reads q body v : q.(sq_Body) = Some body → parse body = Some v → nesting v < max_depth →
  map_Forall (λ _, readable) (default ∅ q.(sq_Metadata)) →
  ∃ input headers metadata, encode_request enc q = Some input ∧
    Unmarshal dec_request input zero_request =
      (mkSdkRequest (sanitize q.(sq_Hook)) (sanitize q.(sq_Provider)) (sanitize q.(sq_Model)) (Some (compact body)) headers metadata, true) ∧
    ok_anymap 2 (default ∅ metadata).
Proof using All.
  destruct q as [hook prov model qb hs md]. cbn [sq_Hook sq_Provider sq_Model sq_Body sq_Headers sq_Metadata].
  intros -> Hp Hn Hmd. destruct (compact_body body v Hp Hn) as (Henc & Hne & v' & Hv' & _).
  assert (body ≠ "") as Hb by by intros ->.
  destruct (headers_read (default ∅ hs)) as [hx Hhx].
  destruct (valmap_reads (default ∅ md) Hmd) as (mtext & mx & Hmt & Hmr & Hmok).
  unfold encode_request. cbn [sq_Hook sq_Provider sq_Model sq_Body sq_Headers sq_Metadata].
  assert (empty_bytes (Some body) = false) as Heb by (by apply bool_decide_eq_false_2).
  rewrite !Heb. cbn [unless]. rewrite Henc. cbn [mbind option_bind].
  assert (∃ mt, unless (empty_map md) (encode_valmap enc md) = Some mt ∧ (empty_map md = false → mt = mtext)) as (mt & -> & Hmteq).
  { unfold empty_map. case_bool_decide as E; cbn [unless]; [by eexists|]. exists mtext. split; [|done].
    by destruct md as [md|]; [|cbn in E]. }
  cbn [mbind option_bind].
  exists (encode_struct
    [always "hook" (encode_string hook);
     omitempty (bool_decide (prov = "")) "provider" (encode_string prov);
     omitempty (bool_decide (model = "")) "model" (encode_string model);
     always "body" (compact body);
     omitempty (empty_map hs) "headers" (encode_map (encode_string <$> default ∅ hs));
     omitempty (empty_map md) "metadata" mt]),
   (if empty_map hs then None else Some hx), (if empty_map md then None else Some mx).
  split; [done|].
  split; [|by destruct (empty_map md)].
  apply (Unmarshal_reads (max_depth - 1 + 1)); [|lia]. apply reads_struct; [done|]. unfold zero_request.
  eapply rf_always; [done|done|apply reads_field, reads_sanitized|].
  eapply (rf_omitempty _ _ _ _ _ _ _ _ (mkSdkRequest (sanitize hook) (sanitize prov) "" None None None)); [done|done|..].
  { case_bool_decide; [by subst|]. exact (reads_field _ sq_Provider _ dec_string _ _ _ (reads_sanitized _ _ prov)). }
  eapply (rf_omitempty _ _ _ _ _ _ _ _ (mkSdkRequest (sanitize hook) (sanitize prov) (sanitize model) None None None)); [done|done|..].
  { case_bool_decide; [by subst|]. exact (reads_field _ sq_Model _ dec_string _ _ _ (reads_sanitized _ _ model)). }
  eapply rf_always; [done|done|eapply reads_text_field, reads_at; [exact Hv'|reflexivity]|].
  eapply (rf_omitempty _ _ _ _ _ _ _ _ (mkSdkRequest (sanitize hook) (sanitize prov) (sanitize model) (Some (compact body)) (if empty_map hs then None else Some hx) None)); [done|done|..].
  { destruct (empty_map hs); [done|]. exact (reads_text_field _ sq_Headers _ dec_strmap (mkSdkRequest (sanitize hook) (sanitize prov) (sanitize model) (Some (compact body)) None None) _ _ Hhx). }
  eapply rf_omitempty; [done|done| |apply rf_nil].
  destruct (empty_map md); [done|]. rewrite (Hmteq eq_refl). exact (reads_text_field _ sq_Metadata _ dec_anymap (mkSdkRequest (sanitize hook) (sanitize prov) (sanitize model) (Some (compact body)) _ None) _ _ Hmr).
Qed.
End requests.

(** ** Responses *)

Section responses.
Context `{Strconv} `{!FloatLaws}.

Lemma encode_anymap (m : gmap string anyv) : encode_valmap encode_anyv (Some m) = Some (encode_map (encode_any <$> m)).
Proof using Type.
  unfold encode_valmap, map_texts. cbn [default from_option id]. rewrite decide_True by (intros k x _; by eexists). cbn.
  do 2 f_equal. apply map_eq. intros k. rewrite lookup_omap, lookup_fmap. by destruct (m !! k).
Qed.

(** What an optional body becomes. *)
Definition fine_body (b : slice) : Prop := ∀ raw, b = Some raw → ∃ v, parse raw = Some v ∧ nesting v < max_depth.

Lemma response_reads md sc sb st : ok_anymap 2 (default ∅ md) → fine_body sb → in_int64 st →
  ∃ out, encode_response encode_anyv (mkSdkResponse None md sc sb st) = Some out ∧ out ≠ "" ∧
    Unmarshal dec_response out zero_response =
      (mkSdkResponse None (if empty_map md then None else md) sc (compact <$> sb) st, true).
Proof using All.
  intros Hmd Hsb Hst. destruct (anymap_roundtrip (default ∅ md) Hmd) as (mv & Hmv & Hmr).
  assert (∃ bt, unless (empty_bytes sb) (encode_raw sb) = Some bt ∧
    if empty_bytes sb then sb = None
    else compact <$> sb = Some bt ∧ ∃ v, jvalue 1 bt v) as (bt & Hbt & Hb).
  { destruct sb as [raw|]; [|by exists ""]. destruct (Hsb raw eq_refl) as (v & Hp & Hn).
    destruct (compact_body raw v Hp Hn) as (He & _ & v' & Hv' & _). exists (compact raw).
    assert (raw ≠ "") as Hne by by intros ->.
    assert (empty_bytes (Some raw) = false) as -> by (by apply bool_decide_eq_false_2). split; [done|]. eauto. }
  set (mt := encode_map (encode_any <$> default ∅ md)) in *.
  assert (unless (empty_map md) (encode_valmap encode_anyv md) = Some (if empty_map md then "" else mt)) as Hmt.
  { destruct md as [m|]; [|done]. destruct (empty_map (Some m)); [done|]. apply encode_anymap. }
  unfold encode_response. cbn [sr_Body sr_Metadata sr_ShortCircuit sr_ShortCircuitBody sr_ShortCircuitStatus].
  rewrite Hmt, Hbt. cbn [unless empty_bytes bytes_of default from_option]. cbn [bool_decide decide_rel mbind option_bind].
  eexists. split; [reflexivity|]. split; [done|].
  apply (Unmarshal_reads (max_depth - 1 + 1)); [|lia]. apply reads_struct; [done|]. unfold zero_response.
  eapply rf_omitempty; [done|done|reflexivity|].
  eapply (rf_omitempty _ _ _ _ _ _ _ _ (mkSdkResponse None (if empty_map md then None else md) false None 0)); [done|done|..].
  { destruct (empty_map md) eqn:E; [done|]. destruct md as [m|]; [|done].
    exact (reads_text_field _ sr_Metadata _ dec_anymap (mkSdkResponse None None false None 0) _ _ (reads_at _ _ _ _ _ _ Hmv (Hmr _))). }
  eapply (rf_omitempty _ _ _ _ _ _ _ _ (mkSdkResponse None (if empty_map md then None else md) sc None 0)); [done|done|..].
  { destruct sc; [|done]. cbn [negb]. exact (reads_field _ sr_ShortCircuit _ dec_bool (mkSdkResponse None _ false None 0) _ _ (reads_bool _ _ true)). }
  eapply (rf_omitempty _ _ _ _ _ _ _ _ (mkSdkResponse None (if empty_map md then None else md) sc (compact <$> sb) 0)); [done|done|..].
  { destruct (empty_bytes sb); [by rewrite Hb|]. destruct Hb as (-> & v & Hv).
    exact (reads_text_field _ sr_ShortCircuitBody _ dec_raw (mkSdkResponse None _ sc None 0) _ _ (reads_at _ _ _ _ _ _ Hv eq_refl)). }
  eapply rf_omitempty; [done|done| |apply rf_nil].
  destruct (Z.eqb_spec st 0) as [->|]; [done|].
  exact (reads_field _ sr_ShortCircuitStatus _ dec_int64 (mkSdkResponse None _ sc _ 0) _ _ (reads_int _ _ st Hst)).
Qed.
End responses.
