(* ===== verification/WasmTheorems.v ===== *)
(** * The WASM host: resources and containment

    Whatever a guest and the runtime do, instances do not leak and a hook changes
    no more of a request than the ABI lets it. *)
From S2P Require Import Prelude GoStd Json CacheKey Plugin Sdk Wasm.

Section host.
Context {N : Type} `{Extism N} `{Strconv}.
Implicit Types h : Host N.

(** The instances of one hook: none, or one that is closed after at most one
    call. *)
Inductive one_instance (hook : string) : list wasm_event → Prop :=
| no_instance : one_instance hook []
| unused_instance id : one_instance hook [EvInstance id; EvClose id]
| used_instance id : one_instance hook [EvInstance id; EvCall id hook; EvClose id].

Definition released (hook : string) {A} (m : ST (Host N) A) : Prop :=
  ∀ h, in_int64 h.(h_active) →
  (m h).2.(h_active) = h.(h_active) ∧
  ∃ es, (m h).2.(h_events) = h.(h_events) ++ es ∧ one_instance hook es.

(** A computation that leaves the counter and the instances alone. *)
Definition plain {A} (m : ST (Host N) A) : Prop :=
  ∀ h, (m h).2.(h_active) = h.(h_active) ∧ (m h).2.(h_events) = h.(h_events).

Lemma plain_ret {A} (a : A) : plain (mret a).
Proof using Type. done. Qed.

Lemma plain_net {A} (m : ST N A) : plain (run_net m).
Proof using Type. intros h. unfold run_net. by destruct (m (h_net h)). Qed.

Lemma plain_bind {A B} (m : ST (Host N) A) (f : A → ST (Host N) B) : plain m → (∀ a, plain (f a)) → plain (m ≫= f).
Proof using Type.
  intros Hm Hf h. rewrite ST_bind_unfold. destruct (Hm h) as [E1 E2]. destruct (m h) as [a h1]. cbn in *.
  destruct (Hf a h1) as [E3 E4]. by rewrite E3, E4.
Qed.

Lemma plain_boundsError p hook cc err : plain (boundsError p hook cc err).
Proof using Type. apply plain_bind; [apply plain_net|]. intros c. apply plain_ret. Qed.

(** The call proper notes at most one call. *)
Lemma with_instance_events p hook cc rc body inst h :
  (with_instance p hook cc rc body inst h).2.(h_active) = h.(h_active) ∧
  ((with_instance p hook cc rc body inst h).2.(h_events) = h.(h_events) ∨
   (with_instance p hook cc rc body inst h).2.(h_events) = h.(h_events) ++ [EvCall inst hook]).
Proof using Type.
  unfold with_instance. rewrite ST_bind_unfold. destruct (plain_net (FunctionExists inst hook) h) as [E1 E2].
  destruct (run_net (FunctionExists inst hook) h) as [ex h1]. cbn [fst snd] in *.
  destruct (negb ex); [cbn; auto|]. destruct (rc_Request rc) as [r|]; [|cbn; auto].
  destruct (encode_request _ _) as [input|]; [|cbn; auto]. rewrite ST_bind_unfold. cbn [note].
  rewrite <-E1, <-E2. match goal with |- context [snd (?m ?h')] => assert (plain m) as Hp; [|destruct (Hp h') as [-> ->]; cbn; auto] end.
  apply plain_bind; [apply plain_net|]. intros [[ec out] [err|]].
  - apply plain_bind; [apply plain_boundsError|]. intros e. apply plain_ret.
  - destruct (negb (ec =? 0)); [apply plain_ret|]. case_decide; [apply plain_ret|].
    destruct (Unmarshal dec_response out zero_response) as [resp [|]]; apply plain_ret.
Qed.

Lemma wrap64_back a : in_int64 a → wrap64 (wrap64 (a + 1) + -1) = a.
Proof using Type. intros Ha. rewrite wrap64_add_l, wrap64_id; [lia|]. by replace (a + 1 + -1) with a by lia. Qed.

Lemma call_released p hook rc body : released hook (call p hook rc body).
Proof using Type.
  intros h Ha. unfold call. rewrite ST_bind_unfold. destruct (plain_net (CtxErr (callContext p rc)) h) as [E1 E2].
  destruct (run_net (CtxErr (callContext p rc)) h) as [c h1]. cbn [fst snd] in *.
  assert (∀ A (m : ST (Host N) A), plain m → (m h1).2.(h_active) = h.(h_active) ∧
    ∃ es, (m h1).2.(h_events) = h.(h_events) ++ es ∧ one_instance hook es) as Hplain.
  { intros A m Hm. destruct (Hm h1) as [-> ->]. rewrite E1, E2. split; [done|]. exists []. split; [by rewrite app_nil_r|constructor]. }
  destruct c as [e|].
  { apply Hplain. apply plain_bind; [apply plain_boundsError|]. intros err. apply plain_ret. }
  destruct (wp_compiled p) as [compiled|]; [|by apply Hplain, plain_ret].
  rewrite ST_bind_unfold. destruct (plain_net (NewInstance compiled (callContext p rc)) h1) as [E3 E4].
  destruct (run_net (NewInstance compiled (callContext p rc)) h1) as [[err|inst] h2]; cbn [fst snd] in *.
  { split; [cbn; congruence|]. exists []. split; [cbn; by rewrite app_nil_r, E4|constructor]. }
  rewrite ST_bind_unfold. cbn [note fst snd]. rewrite ST_bind_unfold. cbn [add_active fst snd h_active h_events h_net].
  rewrite ST_bind_unfold. match goal with |- context [with_instance p hook ?cc rc body inst ?h3] =>
    destruct (with_instance_events p hook cc rc body inst h3) as [Ew Ee];
    destruct (with_instance p hook cc rc body inst h3) as [r h4] end. cbn [fst snd h_active h_events h_net] in *.
  rewrite ST_bind_unfold. cbn [note fst snd]. rewrite ST_bind_unfold. match goal with |- context [run_net (CloseInstance inst) ?h5] =>
    destruct (plain_net (CloseInstance inst) h5) as [Ec Ed]; destruct (run_net (CloseInstance inst) h5) as [[] h6] end.
  cbn [fst snd h_active h_events] in *. rewrite ST_bind_unfold.
  cbn [add_active fst snd h_active h_events h_net mret ST_ret]. rewrite Ec, Ed, Ew, E3, E1. split; [by apply wrap64_back|].
  rewrite E4, E2 in Ee. destruct Ee as [-> | ->]; rewrite <-!(assoc_L (++)); eexists; (split; [done|]); constructor.
Qed.

Lemma released_ret {A B} hook (m : ST (Host N) A) (f : A → B) : released hook m → released hook (m ≫= λ a, mret (f a)).
Proof using Type. intros Hm h Ha. rewrite ST_bind_unfold. specialize (Hm h Ha). by destruct (m h). Qed.

(** C31. Instances do not leak: whatever the module, the runtime and the request are,
    also when the hook is aborted, fails or panics, a hook makes at most one
    instance, calls it at most once and closes it, and the count of active
    instances is what it was. *)
Theorem instances_released p rc resp :
  released "pre_http" (WasmPreHTTP p rc) ∧ released "post_http" (WasmPostHTTP p rc) ∧
  released "pre_llm" (WasmPreLLM p rc) ∧ released "post_llm" (WasmPostLLM p rc resp).
Proof using Type. split_and!; apply released_ret, call_released. Qed.

(** ** What a hook may change *)

(** A request context after a hook: only metadata that the guest returned, and the
    short circuit, with a status. *)
Definition contained (rc rc' : RequestContext) : Prop :=
  rc'.(rc_Request) = rc.(rc_Request) ∧ rc'.(rc_Provider) = rc.(rc_Provider) ∧ rc'.(rc_Model) = rc.(rc_Model) ∧
  rc'.(rc_StartTime) = rc.(rc_StartTime) ∧ rc'.(rc_ResponseHeaders) = rc.(rc_ResponseHeaders) ∧
  (∃ md, default ∅ rc'.(rc_Metadata) = (meta_of_any <$> md) ∪ default ∅ rc.(rc_Metadata)) ∧
  ((rc'.(ShortCircuit) = rc.(ShortCircuit) ∧ rc'.(ShortCircuitStatus) = rc.(ShortCircuitStatus) ∧
    rc'.(ShortCircuitBody) = rc.(ShortCircuitBody)) ∨
   (rc'.(ShortCircuit) = true ∧ rc'.(ShortCircuitStatus) ≠ 0)).

Lemma apply_contained rc resp : contained rc (applyToRequestContext rc resp) ∧
  rc_Body (applyToRequestContext rc resp) = rc_Body rc.
Proof using Type.
  unfold contained, applyToRequestContext.
  assert (default ∅ (rc_Metadata rc) = (meta_of_any <$> (∅ : gmap string anyv)) ∪ default ∅ (rc_Metadata rc)) as Hid
    by (by rewrite fmap_empty, (left_id_L ∅ (∪))).
  destruct (decide (default ∅ (sr_Metadata resp) = ∅)) as [E|E], (sr_ShortCircuit resp); cbn; split_and!; try done;
    try (by eexists); try (by left); right; split; try done; destruct (Z.eqb_spec (sr_ShortCircuitStatus resp) 0); lia.
Qed.

Lemma contained_refl rc : contained rc rc.
Proof using Type.
  unfold contained. split_and!; try done; [|by left]. exists ∅. by rewrite fmap_empty, (left_id_L ∅ (∪)).
Qed.

Lemma with_instance_panics p hook cc rc body inst h :
  (with_instance p hook cc rc body inst h).1 = Panic → rc.(rc_Request) = None.
Proof using Type.
  unfold with_instance. rewrite ST_bind_unfold. destruct (run_net (FunctionExists inst hook) h) as [ex h1].
  cbn [fst snd]. destruct (negb ex); [done|]. destruct (rc_Request rc) as [r|]; [|done].
  destruct (encode_request _ _) as [input|]; [|done]. rewrite ST_bind_unfold. cbn [note fst snd]. rewrite ST_bind_unfold.
  destruct (run_net _ _) as [[[ec out] [err|]] h2]; cbn [fst snd].
  - rewrite ST_bind_unfold. by destruct (boundsError p hook cc err h2).
  - destruct (negb (ec =? 0)); [done|]. case_decide; [done|]. by destruct (Unmarshal dec_response out zero_response) as [resp [|]].
Qed.

Lemma call_panics p hook rc body h : (call p hook rc body h).1 = Panic → p.(wp_compiled) = None ∨ rc.(rc_Request) = None.
Proof using Type.
  unfold call. rewrite ST_bind_unfold. destruct (run_net _ h) as [[e|] h1]; cbn [fst snd].
  { rewrite ST_bind_unfold. by destruct (boundsError _ _ _ _ h1). }
  destruct (wp_compiled p) as [compiled|]; [|by left]. rewrite ST_bind_unfold.
  destruct (run_net _ h1) as [[err|inst] h2]; cbn [fst snd]; [done|]. rewrite !ST_bind_unfold. cbn [note add_active fst snd].
  rewrite ?ST_bind_unfold. match goal with |- context [with_instance p hook ?cc rc body inst ?h3] =>
    pose proof (with_instance_panics p hook cc rc body inst h3) as Hw;
    destruct (with_instance p hook cc rc body inst h3) as [r h4] end. cbn [fst snd] in *.
  rewrite ?ST_bind_unfold. cbn [note fst snd]. rewrite ?ST_bind_unfold. destruct (run_net _ _) as [[] h5]. cbn [fst snd].
  rewrite ?ST_bind_unfold. cbn. intros ->. right. by apply Hw.
Qed.

(** C32. The host contains its guests: a hook that reports an error leaves the request
    and the response as they were; otherwise a pre-hook changes metadata and the
    short circuit alone, the body only before the model and only to a text that is
    not empty, and a post-hook the body of the response alone; keys of the metadata
    are never lost; a panic only comes from a request without an HTTP request or a
    module that is not loaded. *)
Theorem guests_contained p rc resp h :
  (match (WasmPreHTTP p rc h).1 with
   | Ret (rc', Some _) => rc' = rc
   | Ret (rc', None) => contained rc rc' ∧ rc'.(rc_Body) = rc.(rc_Body)
   | Panic => p.(wp_compiled) = None ∨ rc.(rc_Request) = None
   end) ∧
  (match (WasmPreLLM p rc h).1 with
   | Ret (rc', Some _) => rc' = rc
   | Ret (rc', None) => contained rc rc' ∧ (rc'.(rc_Body) = rc.(rc_Body) ∨ bytes_of rc'.(rc_Body) ≠ "")
   | Panic => p.(wp_compiled) = None ∨ rc.(rc_Request) = None
   end) ∧
  (match (WasmPostLLM p rc resp h).1 with
   | Ret (resp', Some _) => resp' = resp
   | Ret (resp', None) => resp'.(r_StatusCode) = resp.(r_StatusCode) ∧ resp'.(r_Headers) = resp.(r_Headers) ∧
       (resp' = resp ∨ bytes_of resp'.(r_Body) ≠ "")
   | Panic => p.(wp_compiled) = None ∨ rc.(rc_Request) = None
   end).
Proof using Type.
  split_and!; unfold WasmPreHTTP, WasmPreLLM, WasmPostLLM; rewrite ST_bind_unfold; cbn [fst mret ST_ret];
    match goal with |- context [call p ?hook rc ?body h] =>
      pose proof (call_panics p hook rc body h) as Hp; destruct (call p hook rc body h) as [[[err|[r|]]|] h'] end;
    cbn [fst snd mret ST_ret] in *; auto.
  - apply apply_contained.
  - split; [apply contained_refl|done].
  - destruct (apply_contained rc r) as [Hc Hb]. case_decide; [by split; [|left]|]. split; [|by right].
    destruct Hc as (?&?&?&?&?&?&?). by split_and!.
  - split; [apply contained_refl|by left].
  - case_decide; split_and!; auto.
Qed.
End host.
