(* ===== verification/Assembly.v ===== *)
(** * The plugins of the program, together (cmd/butter/main.go, lines 116-160)

    The rate limiter, the request log, the metrics, the tracing and the WASM
    plugins as plugins of one manager: each with its name, its hooks and its state
    in the state of all of them, registered and initialised as [main] does it.  A
    panic of a hook would unwind the handler; here it raises a flag, and the
    theorems show that the flag stays down. *)
From S2P Require Import Prelude GoStd Json Config CacheKey Plugin RateLimit RequestLog Observe Sdk Wasm.

(** The error of a plugin; the chain and the manager only log its text. *)
Inductive plugin_error :=
| ELimiter (e : cfg_error)
| EInstruments
| EExporter
| ELoad (plugin path cause : string)
| EHook (e : hook_error)
| EClose (name cause : string).

(** What the plugins take from their surroundings at each step: the clock, a random
    id, which buffer of the pool is reused; and the outcomes of OpenTelemetry. *)
Class Ambient := {
  am_now : nat → Z;
  am_uuid : nat → string;
  am_pick : nat → option nat;
  am_instruments : bool;
  am_connect : exporter → bool;
  am_shutdown : string → option perr;
  am_text : plugin_error → string
}.

(** The configurations by plugin name; an entry may be a nil map. *)
Abbreviation plugin_configs := (gmap string (option (gmap string any))).

Section assembly.
Context {F : Type} `{Num F} {N : Type} `{Extism N} `{Strconv} `{Ambient}.

(** The state of all plugins; a WASM plugin comes with its count of instances. *)
Record Plugged := mkPlugged {
  pg_limiter : RateLimiter F;
  pg_log : RequestLog;
  pg_bufs : LogState;
  pg_lines : list (log_level * list (string * attr));
  pg_metrics : Metrics;
  pg_tracing : Tracing;
  pg_wasm : list (WasmPlugin * Z);
  pg_events : list wasm_event;
  pg_net : N;
  pg_tick : nat;
  pg_panicked : bool
}.

Definition set_limiter (l : RateLimiter F) (e : Plugged) : Plugged :=
  mkPlugged l e.(pg_log) e.(pg_bufs) e.(pg_lines) e.(pg_metrics) e.(pg_tracing) e.(pg_wasm) e.(pg_events) e.(pg_net)
    e.(pg_tick) e.(pg_panicked).
Definition set_log (p : RequestLog) (b : LogState) (l : list (log_level * list (string * attr))) (e : Plugged) : Plugged :=
  mkPlugged e.(pg_limiter) p b l e.(pg_metrics) e.(pg_tracing) e.(pg_wasm) e.(pg_events) e.(pg_net)
    e.(pg_tick) e.(pg_panicked).
Definition set_metrics (m : Metrics) (e : Plugged) : Plugged :=
  mkPlugged e.(pg_limiter) e.(pg_log) e.(pg_bufs) e.(pg_lines) m e.(pg_tracing) e.(pg_wasm) e.(pg_events) e.(pg_net)
    e.(pg_tick) e.(pg_panicked).
Definition set_tracing (t : Tracing) (e : Plugged) : Plugged :=
  mkPlugged e.(pg_limiter) e.(pg_log) e.(pg_bufs) e.(pg_lines) e.(pg_metrics) t e.(pg_wasm) e.(pg_events) e.(pg_net)
    e.(pg_tick) e.(pg_panicked).
Definition set_wasm (i : nat) (p : WasmPlugin) (h : Host N) (e : Plugged) : Plugged :=
  mkPlugged e.(pg_limiter) e.(pg_log) e.(pg_bufs) e.(pg_lines) e.(pg_metrics) e.(pg_tracing)
    (<[i := (p, h.(h_active))]> e.(pg_wasm)) h.(h_events) h.(h_net) e.(pg_tick) e.(pg_panicked).
Definition tick (e : Plugged) : Plugged :=
  mkPlugged e.(pg_limiter) e.(pg_log) e.(pg_bufs) e.(pg_lines) e.(pg_metrics) e.(pg_tracing) e.(pg_wasm) e.(pg_events) e.(pg_net)
    (S e.(pg_tick)) e.(pg_panicked).
Definition raise_panic (e : Plugged) : Plugged :=
  mkPlugged e.(pg_limiter) e.(pg_log) e.(pg_bufs) e.(pg_lines) e.(pg_metrics) e.(pg_tracing) e.(pg_wasm) e.(pg_events) e.(pg_net)
    e.(pg_tick) true.

#[local] Abbreviation PW := (@PWorld Plugged).
#[local] Abbreviation PM := (ST PW).

(** A step on the plugins alone. *)
Definition on_plugins {A} (a0 : A) (f : Plugged → outcome (A * Plugged)) : PM A := λ w,
  match f w.(ext) with
  | Panic => (a0, mkPWorld w.(rcs) (raise_panic w.(ext)))
  | Ret (a, e) => (a, mkPWorld w.(rcs) (tick e))
  end.

(** A step on a request: the pointer is dereferenced. *)
Definition on_request {A} (a0 : A) (c : ptr) (f : RequestContext → Plugged → outcome (A * RequestContext * Plugged)) : PM A := λ w,
  match w.(rcs) !! c with
  | None => (a0, mkPWorld w.(rcs) (raise_panic w.(ext)))
  | Some rc =>
    match f rc w.(ext) with
    | Panic => (a0, mkPWorld w.(rcs) (raise_panic w.(ext)))
    | Ret (a, rc', e) => (a, mkPWorld (<[c := rc']> w.(rcs)) (tick e))
    end
  end.

Definition the_host (active : Z) (e : Plugged) : Host N := mkHost active e.(pg_events) e.(pg_net).

(** A step of the [i]-th WASM plugin; there is no other. *)
Definition on_wasm {A} (i : nat) (f : WasmPlugin → ST (Host N) (A * WasmPlugin)) (e : Plugged) : outcome (A * Plugged) :=
  match e.(pg_wasm) !! i with
  | None => Panic
  | Some (p, active) => let '((a, p'), h) := f p (the_host active e) in Ret (a, set_wasm i p' h e)
  end.

(** ** The plugins *)

Definition limiter_plugin : Plugin Plugged := mkPlugin "ratelimit"
  (λ cfg, on_plugins None (λ e, let '(err, l) := RateLimit.Init cfg (am_now e.(pg_tick)) e.(pg_limiter) in
                                Ret (am_text ∘ ELimiter <$> err, set_limiter l e)))
  (on_plugins None (λ e, match RateLimit.Close e.(pg_limiter) with Panic => Panic | Ret l => Ret (None, set_limiter l e) end))
  (Some (mkTransport
    (λ c, on_request None c (λ rc e,
       match RLPreHTTP e.(pg_limiter) rc (am_now e.(pg_tick)) with
       | Panic => Panic
       | Ret (l, rc') => Ret (None, rc', set_limiter l e)
       end))
    (λ c, on_request None c (λ rc e, let '(l, rc') := RLPostHTTP e.(pg_limiter) rc in Ret (None, rc', set_limiter l e)))
    (λ _ chunk, mret (inr (RLStreamChunk chunk)))))
  None None.

Definition log_plugin : Plugin Plugged := mkPlugin "requestlog"
  (λ cfg, on_plugins None (λ e, Ret (None, set_log (RequestLog.Init cfg e.(pg_log)) e.(pg_bufs) e.(pg_lines) e)))
  (mret None)
  (Some (mkTransport
    (λ c, on_request None c (λ rc e,
       match LogPreHTTP e.(pg_log) (am_uuid e.(pg_tick)) (am_pick e.(pg_tick)) rc e.(pg_bufs) with
       | Panic => Panic
       | Ret (rc', b) => Ret (None, rc', set_log e.(pg_log) b e.(pg_lines) e)
       end))
    (λ c, on_request None c (λ rc e, let '(rc', b) := LogPostHTTP rc e.(pg_bufs) in
                                     Ret (None, rc', set_log e.(pg_log) b e.(pg_lines) e)))
    (λ c chunk, on_request (inr chunk) c (λ rc e, let '(chunk', b) := LogStreamChunk e.(pg_log) rc chunk e.(pg_bufs) in
                                     Ret (inr chunk', rc, set_log e.(pg_log) b e.(pg_lines) e)))))
  None
  (Some (λ t, on_plugins tt (λ e, Ret (tt, set_log e.(pg_log) e.(pg_bufs)
                                          (e.(pg_lines) ++ [(e.(pg_log).(level), OnTrace e.(pg_log) t)]) e)))).

Definition metrics_plugin : Plugin Plugged := mkPlugin "metrics"
  (λ cfg, on_plugins None (λ e, let '(ok, m) := MetricsInit am_instruments cfg e.(pg_metrics) in
                                Ret (if (ok : bool) then None else Some (am_text EInstruments), set_metrics m e)))
  (mret (am_shutdown "metrics"))
  None None
  (Some (λ t, on_plugins tt (λ e, match MetricsOnTrace t e.(pg_metrics) with
                                  | Panic => Panic
                                  | Ret m => Ret (tt, set_metrics m e)
                                  end))).

Definition tracing_plugin : Plugin Plugged := mkPlugin "tracing"
  (λ cfg, on_plugins None (λ e, let '(ok, t) := TracingInit am_connect cfg e.(pg_tracing) in
                                Ret (if (ok : bool) then None else Some (am_text EExporter), set_tracing t e)))
  (mret (am_shutdown "tracing"))
  (Some (mkTransport
    (λ c, on_request None c (λ rc e, match TracingPreHTTP rc e.(pg_tracing) with
                                     | Panic => Panic
                                     | Ret (rc', t) => Ret (None, rc', set_tracing t e)
                                     end))
    (λ c, on_request None c (λ rc e, Ret (None, TracingPostHTTP rc, e)))
    (λ _ chunk, mret (inr (TracingStreamChunk chunk)))))
  None
  (Some (λ t, on_plugins tt (λ e, Ret (tt, set_tracing (TracingOnTrace t e.(pg_tracing)) e)))).

(** A hook of a WASM plugin that is given the request. *)
Definition wasm_hook {A} (a0 : A) (i : nat) (c : ptr)
    (f : WasmPlugin → RequestContext → ST (Host N) (outcome (A * RequestContext))) : PM A :=
  on_request a0 c (λ rc e,
    match on_wasm i (λ p h, let '(r, h) := f p rc h in ((r, p), h)) e with
    | Ret (Ret (a, rc'), e') => Ret (a, rc', e')
    | _ => Panic
    end).

Definition hook_result (err : option hook_error) : option perr := am_text ∘ EHook <$> err.

Definition wasm_plugin (i : nat) (wpc : WASMPluginConfig) : Plugin Plugged := mkPlugin wpc.(wp_Name)
  (λ cfg, on_plugins None (on_wasm i (λ p, '(err, p') ← WasmInit p cfg;
            mret (am_text ∘ ELoad p.(wp_name) p.(wp_path) <$> err, p'))))
  (on_plugins None (on_wasm i (λ p, '(err, p') ← WasmClose p; mret (am_text ∘ EClose p.(wp_name) <$> err, p'))))
  (Some (mkTransport
    (λ c, wasm_hook None i c (λ p rc, r ← WasmPreHTTP p rc;
       mret match r with Panic => Panic | Ret (rc', err) => Ret (hook_result err, rc') end))
    (λ c, wasm_hook None i c (λ p rc, r ← WasmPostHTTP p rc;
       mret match r with Panic => Panic | Ret err => Ret (hook_result err, rc) end))
    (λ _ chunk, mret (inr (WasmStreamChunk chunk)))))
  (Some (mkLLM
    (λ c, wasm_hook (inr (Some c)) i c (λ p rc, r ← WasmPreLLM p rc;
       mret match r with
            | Panic => Panic
            | Ret (rc', Some err) => Ret (inl (am_text (EHook err)), rc')
            | Ret (rc', None) => Ret (inr (Some c), rc')
            end))
    (λ c resp, wasm_hook (resp, inr RSame) i c (λ p rc, r ← WasmPostLLM p rc resp;
       mret match r with
            | Panic => Panic
            | Ret (resp', Some err) => Ret ((resp', inl (am_text (EHook err))), rc)
            | Ret (resp', None) => Ret ((resp', inr RSame), rc)
            end))))
  None.

(** ** Registration *)

Definition when_configured (configs : plugin_configs) (name : string) (p : Plugin Plugged) : list (Plugin Plugged) :=
  match configs !! name with Some _ => [p] | None => [] end.

(** The plugins in the order of registration: the rate limiter first, so that it
    can reject before the others run. *)
Definition builtin_plugins (configs : plugin_configs) : list (Plugin Plugged) :=
  when_configured configs "ratelimit" limiter_plugin ++
  when_configured configs "requestlog" log_plugin ++
  when_configured configs "metrics" metrics_plugin ++
  when_configured configs "tracing" tracing_plugin.

Definition all_plugins (configs : plugin_configs) (wasm : list WASMPluginConfig) : list (Plugin Plugged) :=
  builtin_plugins configs ++ imap wasm_plugin wasm.

Definition register_plugins (configs : plugin_configs) (wasm : list WASMPluginConfig) : Manager Plugged :=
  foldl Register NewManager (all_plugins configs wasm).

(** The configuration of a WASM plugin goes under its name, over what is there. *)
Definition merge_configs (configs : plugin_configs) (wasm : list WASMPluginConfig) : plugin_configs :=
  foldl (λ m wpc, <[wpc.(wp_Name) := Some (VStr <$> wpc.(wp_Config))]> m) configs wasm.

Definition new_wasm (wpc : WASMPluginConfig) : WasmPlugin :=
  NewWasm wpc.(wp_Name) wpc.(wp_Path) [WithTimeout wpc.(wp_Timeout); WithMaxPages wpc.(wp_MaxPages)].

Definition new_plugged (wasm : list WASMPluginConfig) (net : N) : Plugged :=
  mkPlugged New NewRequestLog (mkLogState ∅ []) [] NewMetrics NewTracing ((λ wpc, (new_wasm wpc, 0)) <$> wasm) [] net 0 false.

(** [main] exits when a plugin cannot be initialised. *)
Definition start_plugins (configs : plugin_configs) (wasm : list WASMPluginConfig) (net : N) : option (Manager Plugged * PW) :=
  let m := register_plugins configs wasm in
  match InitAll m (merge_configs configs wasm) (mkPWorld ∅ (new_plugged wasm net)) with
  | (Some _, _) => None
  | (None, w) => Some (m, w)
  end.
End assembly.
