(* ===== verification/AssemblyTheorems.v ===== *)
(** * The assembled plugins: order, configuration and calm

    The rate limiter rejects before anything else runs, every plugin is given its
    own configuration, and no sequence of hooks of a program that has started
    panics or leaves a WASM instance behind. *)
From S2P Require Import Prelude GoStd Json Config CacheKey Plugin RateLimit RequestLog Observe Sdk Wasm WasmTheorems OpenAIFormat GuardTheorems Assembly.

Section assembled.
Context {F : Type} `{Num F} {N : Type} `{Extism N} `{Strconv} `{Ambient}.
#[local] Abbreviation Plugged := (Plugged (F := F) (N := N)).
#[local] Abbreviation PW := (@PWorld Plugged).
Implicit Types (w : PW) (e : Plugged) (p : Plugin Plugged) (ps : list (Plugin Plugged)).

(** ** Registration *)

Lemma register_lists ps : ∀ m,
  m_all (foldl Register m ps) = m_all m ++ ps ∧
  m_transport (foldl Register m ps) = m_transport m ++ omap pl_transport ps ∧
  m_llm (foldl Register m ps) = m_llm m ++ omap pl_llm ps ∧
  m_observability (foldl Register m ps) = m_observability m ++ omap pl_trace ps.
Proof using Type.
  induction ps as [|p ps IH]; intros m; cbn [foldl]; [by rewrite !app_nil_r|].
  destruct (IH (Register m p)) as (-> & -> & -> & ->). unfold Register. cbn [m_all m_transport m_llm m_observability].
  rewrite <-(assoc_L (++)). cbn. by destruct (pl_transport p), (pl_llm p), (pl_trace p); rewrite <-?(assoc_L (++)).
Qed.

Lemma registered configs wasm :
  m_all (register_plugins configs wasm) = all_plugins configs wasm ∧
  m_transport (register_plugins configs wasm) = omap pl_transport (all_plugins configs wasm) ∧
  m_llm (register_plugins configs wasm) = omap pl_llm (all_plugins configs wasm) ∧
  m_observability (register_plugins configs wasm) = omap pl_trace (all_plugins (F := F) (N := N) configs wasm).
Proof using Type. apply register_lists. Qed.

(** C14. The rate limiter rejects before other plugins process: when it is configured
    and refuses a request, the pre-hooks end there, whatever else is configured, and
    all that has changed is the limiter and the request, which carries the refusal:
    no id, no span, no buffer and no WASM instance. *)
Theorem refused_first configs wasm cfg c rc l rc' w :
  configs !! "ratelimit" = Some cfg → w.(rcs) !! c = Some rc →
  RLPreHTTP w.(ext).(pg_limiter) rc (am_now w.(ext).(pg_tick)) = Ret (l, rc') → rc'.(ShortCircuit) = true →
  RunPreHTTP (register_plugins configs wasm) c w =
    (tt, mkPWorld (<[c := rc']> w.(rcs)) (tick (set_limiter l w.(ext)))).
Proof using Type.
  intros Hcfg Hrc Hl Hs. unfold RunPreHTTP. destruct (registered configs wasm) as (_ & -> & _).
  unfold all_plugins, builtin_plugins, when_configured at 1. rewrite Hcfg. cbn [app omap list_omap limiter_plugin pl_transport pre_http].
  rewrite ST_bind_unfold. cbn [PreHTTP]. unfold on_request at 1. rewrite Hrc, Hl. cbn [fst snd].
  rewrite ST_bind_unfold. unfold get_state. cbn [fst snd]. unfold is_short. cbn [rcs]. by rewrite lookup_insert_eq, Hs.
Qed.

(** ** Configuration *)

Lemma merge_lookup_ne configs wasm name : Forall (λ wpc, wp_Name wpc ≠ name) wasm →
  merge_configs configs wasm !! name = configs !! name.
Proof using Type.
  revert configs. induction wasm as [|wpc wasm IH]; intros configs; [done|]. intros [Hne Hf]%list.Forall_cons.
  cbn [merge_configs foldl]. unfold merge_configs in IH. by rewrite IH, lookup_insert_ne.
Qed.

Lemma merge_lookup configs wasm wpc : NoDup (wp_Name <$> wasm) → wpc ∈ wasm →
  merge_configs configs wasm !! wp_Name wpc = Some (Some (VStr <$> wp_Config wpc)).
Proof using Type.
  revert configs. induction wasm as [|x wasm IH]; intros configs Hnd Hin; [by apply not_elem_of_nil in Hin|].
  apply list.NoDup_cons in Hnd as [Hx Hnd]. unfold merge_configs in *. cbn [foldl]. apply elem_of_cons in Hin as [->|Hin]; [|by apply IH].
  fold (merge_configs (<[wp_Name x := Some (VStr <$> wp_Config x)]> configs) wasm). rewrite merge_lookup_ne; [apply lookup_insert_eq|].
  apply list.Forall_forall. intros y Hy Heq. apply Hx. rewrite <-Heq. apply list_elem_of_fmap. eauto.
Qed.

(** Every plugin is initialised with its own configuration, as long as no two
    plugins share a name. *)
Theorem own_configuration configs wasm :
  NoDup (wp_Name <$> wasm) → Forall (λ wpc, wp_Name wpc ∉ ["ratelimit"; "requestlog"; "metrics"; "tracing"]) wasm →
  (∀ p, p ∈ builtin_plugins (F := F) (N := N) configs →
     merge_configs configs wasm !! pl_Name p = configs !! pl_Name p ∧ is_Some (configs !! pl_Name p)) ∧
  (∀ i wpc, wasm !! i = Some wpc →
     merge_configs configs wasm !! pl_Name (wasm_plugin (F := F) (N := N) i wpc) = Some (Some (VStr <$> wp_Config wpc))).
Proof using Type.
  intros Hnd Hb. split.
  - intros p Hp. assert (pl_Name p ∈ ["ratelimit"; "requestlog"; "metrics"; "tracing"] ∧ is_Some (configs !! pl_Name p)) as [Hn Hs].
    { unfold builtin_plugins, when_configured in Hp.
      repeat (apply elem_of_app in Hp as [Hp|Hp]); case_match; try (by apply not_elem_of_nil in Hp);
        apply list_elem_of_singleton in Hp as ->; (split; [cbn; set_solver|by eexists]). }
    split; [|done]. apply merge_lookup_ne. eapply list.Forall_impl; [exact Hb|]. cbn. intros wpc Hne Heq. congruence.
  - intros i wpc Hi. apply merge_lookup; [done|]. by eapply list_elem_of_lookup_2.
Qed.

(** ** Calm

    [mets] says that the metrics are initialised, [k] how many of the [n] WASM
    plugins are. *)

Definition proper (rc : RequestContext) : Prop := is_Some rc.(rc_Request) ∧ is_Some rc.(rc_Metadata).

Record calm (mets : bool) (k n : nat) (e : Plugged) : Prop := {
  calm_flag : e.(pg_panicked) = false;
  calm_channel : e.(pg_limiter).(done_ch) ≠ Closed;
  calm_count : length e.(pg_wasm) = n;
  calm_wasm i (g : WasmPlugin) a : e.(pg_wasm) !! i = Some (g, a) → a = 0 ∧ ((i < k)%nat → is_Some g.(wp_compiled));
  calm_metrics : mets = true → e.(pg_metrics).(ready) = true
}.

Record sound (D : gset ptr) (mets : bool) (k n : nat) (w : PW) : Prop := {
  sound_known : D ⊆ dom w.(rcs);
  sound_proper : map_Forall (λ _, proper) w.(rcs);
  sound_calm : calm mets k n w.(ext)
}.

Definition keeps (D : gset ptr) (mets : bool) (n : nat) {A} (m : ST PW A) : Prop :=
  ∀ w, sound D mets n n w → sound D mets n n (m w).2.

Lemma calm_tick mets k n e : calm mets k n e → calm mets k n (tick e).
Proof using Type. by intros []. Qed.

Lemma on_plugins_keeps D mets n {A} (a0 : A) f :
  (∀ e, calm mets n n e → ∃ a e', f e = Ret (a, e') ∧ calm mets n n e') → keeps D mets n (on_plugins a0 f).
Proof using Type.
  intros Hf w []. unfold on_plugins. destruct (Hf (ext w)) as (a & e' & -> & He); [done|]. split; [done..|]. by apply calm_tick.
Qed.

Lemma on_request_keeps D mets n {A} (a0 : A) c f : c ∈ D →
  (∀ rc e, proper rc → calm mets n n e → ∃ a rc' e', f rc e = Ret (a, rc', e') ∧ proper rc' ∧ calm mets n n e') →
  keeps D mets n (on_request a0 c f).
Proof using Type.
  intros Hc Hf w [HD Hp He]. unfold on_request. destruct (rcs w !! c) as [rc|] eqn:Hrc.
  2: { apply HD, elem_of_dom in Hc as [? Hc]. congruence. }
  destruct (Hf rc (ext w)) as (a & rc' & e' & -> & Hrc' & He'); [by apply (Hp c)|done|].
  split; [cbn; set_solver|by apply map_Forall_insert_2|by apply calm_tick].
Qed.

Lemma ret_keeps D mets n {A} (a : A) : keeps D mets n (mret a).
Proof using Type. by intros w. Qed.

(** The parts of the plugins' state that a hook may change. *)
Lemma calm_limiter mets k n e l : calm mets k n e → same_config l e.(pg_limiter) → calm mets k n (set_limiter l e).
Proof using Type. intros [] (_ & _ & _ & _ & _ & E & _). split; try done. cbn. by rewrite E. Qed.
Lemma calm_log mets k n e (q : RequestLog) b l : calm mets k n e → calm mets k n (set_log q b l e).
Proof using Type. by intros []. Qed.
Lemma calm_tracing mets k n e t : calm mets k n e → calm mets k n (set_tracing t e).
Proof using Type. by intros []. Qed.
Lemma calm_set_metrics mets k n e m : calm mets k n e → (mets = true → ready m = true) → calm mets k n (set_metrics m e).
Proof using Type. intros [] Hm. by split. Qed.
Lemma calm_set_wasm mets k n e i (g : WasmPlugin) h : calm mets k n e → h_active h = 0 → ((i < k)%nat → is_Some (wp_compiled g)) →
  calm mets k n (set_wasm i g h e).
Proof using Type.
  intros [] Ha Hp. split; cbn; try done; [by rewrite length_insert|]. intros j q b Hq.
  destruct (decide (i = j)) as [<-|Hne]; [|by rewrite list_lookup_insert_ne in Hq; eauto].
  apply list_lookup_insert_Some in Hq as [(_ & [= <- <-] & _)|[? _]]; [|done]. by split.
Qed.

Lemma apply_proper rc resp : proper rc → proper (applyToRequestContext rc resp).
Proof using Type.
  intros [Hr Hm]. unfold applyToRequestContext, proper. case_decide; destruct (sr_ShortCircuit resp); cbn; (split; [done|]); done || by eexists.
Qed.

(** A loaded module with a proper request: no panic, and no instance stays. *)
Lemma call_calm (g : WasmPlugin) hook rc body (h : Host N) : is_Some g.(wp_compiled) → proper rc → h.(h_active) = 0 →
  (∃ r, (call g hook rc body h).1 = Ret r) ∧ (call g hook rc body h).2.(h_active) = 0.
Proof using Type.
  intros [id Hid] [[r Hr] _] Ha. split.
  - destruct (call g hook rc body h).1 as [x|] eqn:E; [by eexists|]. apply call_panics in E as [E|E]; congruence.
  - rewrite <-Ha. apply (call_released g hook rc body h). rewrite Ha. done.
Qed.

Definition calm_hook {A} (f : WasmPlugin → RequestContext → ST (Host N) (outcome (A * RequestContext))) : Prop :=
  ∀ g rc h, is_Some g.(wp_compiled) → proper rc → h.(h_active) = 0 →
  (∃ a rc', (f g rc h).1 = Ret (a, rc') ∧ proper rc') ∧ (f g rc h).2.(h_active) = 0.

Lemma wasm_hook_keeps D mets n {A} (a0 : A) i c f : c ∈ D → (i < n)%nat → calm_hook f → keeps D mets n (wasm_hook a0 i c f).
Proof using Type.
  intros Hc Hi Hf. apply on_request_keeps; [done|]. intros rc e Hrc He. unfold on_wasm.
  destruct (pg_wasm e !! i) as [[g a]|] eqn:Hg.
  2: { apply lookup_ge_None in Hg. rewrite (calm_count _ _ _ _ He) in Hg. lia. }
  destruct (calm_wasm _ _ _ _ He _ _ _ Hg) as [-> Hid]. destruct (Hf g rc (the_host 0 e)) as [(r & rc' & E & Hrc') Ha]; auto.
  destruct (f g rc (the_host 0 e)) as [r' h]. cbn in *. subst r'. eexists _, _, _. split; [done|]. split; [done|].
  apply calm_set_wasm; auto.
Qed.

Record keeps_hooks (D : gset ptr) (mets : bool) (n : nat) p : Prop := {
  kh_transport t c : pl_transport p = Some t → c ∈ D →
    keeps D mets n (PreHTTP t c) ∧ keeps D mets n (PostHTTP t c) ∧ ∀ chunk, keeps D mets n (StreamChunk t c chunk);
  kh_llm t c : pl_llm p = Some t → c ∈ D →
    keeps D mets n (PreLLM t c) ∧ (∀ w, match (PreLLM t c w).1 with inr c' => c' = Some c | inl _ => True end) ∧
    ∀ resp, keeps D mets n (PostLLM t c resp);
  kh_trace f t : pl_trace p = Some f → keeps D mets n (f t)
}.

Lemma PreHTTP_proper (l : RateLimiter F) rc now : proper rc →
  ∃ l' rc', RLPreHTTP l rc now = Ret (l', rc') ∧ same_config l' l ∧ proper rc'.
Proof using Type.
  intros [[r Hr] Hm]. rewrite PreHTTP_ref. assert (is_Some (bucket_ref l rc)) as [ref ->].
  { unfold bucket_ref. rewrite Hr. cbn. repeat case_match; eauto. }
  destruct (allow _ _) as [ok b]. eexists _, _. split; [done|]. split; [apply set_ref_config|].
  destruct ok; (split; [by exists r|done]).
Qed.

Lemma limiter_keeps D mets n : keeps_hooks D mets n limiter_plugin.
Proof using Type.
  split; cbn; [|done..]. intros t c [= <-] Hc. cbn. split_and!; [| |intros; apply ret_keeps]; apply on_request_keeps; try done.
  - intros rc e Hrc He. destruct (PreHTTP_proper (pg_limiter e) rc (am_now (pg_tick e)) Hrc) as (l & rc' & -> & Hl & Hp).
    eauto 8 using calm_limiter.
  - intros rc e Hrc He. eexists _, _, _. split; [done|]. split; [done|]. by apply calm_limiter.
Qed.

Lemma log_keeps D mets n : keeps_hooks D mets n log_plugin.
Proof using Type.
  split; cbn; [|done|].
  - intros t c [= <-] Hc. cbn. split_and!; [| |intros chunk]; apply on_request_keeps; try done; intros rc e [Hr [md Hm]] He.
    + unfold LogPreHTTP. rewrite Hm. destruct (logBodies _); [destruct (pool_get _ _) as [id st]|];
        (eexists _, _, _; split; [done|]; split; [by split; [|eexists]|by apply calm_log]).
    + destruct (LogPostHTTP rc (pg_bufs e)) as [rc' b] eqn:E. eexists _, _, _. split; [done|]. split; [|by apply calm_log].
      revert E. unfold LogPostHTTP. destruct (body_buf rc); intros [= <- <-]; by split; [|eexists].
    + destruct (LogStreamChunk _ _ _ _) as [ch b]. eexists _, _, _. split; [done|]. split; [by split; [|eexists]|by apply calm_log].
  - intros f t [= <-]. apply on_plugins_keeps. intros e He. eexists _, _. split; [done|]. by apply calm_log.
Qed.

Lemma metrics_keeps D n : keeps_hooks D true n metrics_plugin.
Proof using Type.
  split; cbn; [done..|]. intros f t [= <-]. apply on_plugins_keeps. intros e He. unfold MetricsOnTrace.
  rewrite (calm_metrics _ _ _ _ He) by done. eexists _, _. split; [done|]. by apply calm_set_metrics.
Qed.

Lemma tracing_keeps D mets n : keeps_hooks D mets n tracing_plugin.
Proof using Type.
  split; cbn; [|done|].
  - intros t c [= <-] Hc. cbn. split_and!; [| |intros; apply ret_keeps]; apply on_request_keeps; try done; intros rc e [Hr [md Hm]] He.
    + unfold TracingPreHTTP. rewrite Hm. destruct (tracer _); (eexists _, _, _; split; [done|]; split; [by split; [|eexists]|by apply calm_tracing]).
    + eexists _, _, _. split; [done|]. split; [by split; [|eexists]|done].
  - intros f t [= <-]. apply on_plugins_keeps. intros e He. eexists _, _. split; [done|]. by apply calm_tracing.
Qed.

(** A hook that makes one call and goes on with its result. *)
Ltac calm_call :=
  intros g rc h Hg Hrc Ha; rewrite !ST_bind_unfold; cbn [fst snd mret ST_ret];
  unfold WasmPreHTTP, WasmPostHTTP, WasmPreLLM, WasmPostLLM; rewrite ?ST_bind_unfold; cbn [fst snd mret ST_ret];
  match goal with |- context [call g ?hook rc ?body h] =>
    destruct (call_calm g hook rc body h Hg Hrc Ha) as [[r ->] ->] end.

Lemma wasm_keeps D mets n i wpc : (i < n)%nat → keeps_hooks D mets n (wasm_plugin i wpc).
Proof using Type.
  intros Hi. split; cbn; [| |done].
  - intros t c [= <-] Hc. cbn. split_and!; [| |intros; apply ret_keeps]; apply wasm_hook_keeps; try done; calm_call; (split; [|done]).
    + destruct r as [err|[resp|]]; eauto 6 using apply_proper.
    + destruct r; eauto.
  - intros t c [= <-] Hc. cbn. split_and!.
    + apply wasm_hook_keeps; try done. calm_call. split; [|done]. destruct r as [err|[resp|]]; eauto. eexists _, _. split; [done|].
      case_decide; [by apply apply_proper|]. by apply (apply_proper rc resp).
    + intros w. unfold wasm_hook, on_request. destruct (rcs w !! c) as [rc|]; [|done]. destruct (on_wasm _ _ _) as [[[[a rc']|] e']|] eqn:E; try done.
      cbn. revert E. unfold on_wasm. destruct (pg_wasm (ext w) !! i) as [[g a']|]; [|done].
      rewrite ST_bind_unfold. destruct (WasmPreLLM g rc _) as [[[rc'' [err|]]|] h]; cbn; intros [= <- <- <-]; done.
    + intros resp. apply wasm_hook_keeps; try done. calm_call. split; [|done]. destruct r as [err|[w|]]; eauto.
Qed.

(** ** The chain *)

Lemma bind_keeps D mets n {A B} (m : ST PW A) (f : A → ST PW B) : keeps D mets n m → (∀ a, keeps D mets n (f a)) → keeps D mets n (m ≫= f).
Proof using Type. intros Hm Hf w Hw. rewrite ST_bind_unfold. by apply Hf, Hm. Qed.

Section chain.
Context (D : gset ptr) (mets : bool) (n : nat) (c : ptr) (Hc : c ∈ D).

Lemma pre_http_keeps ps : Forall (keeps_hooks D mets n) ps → keeps D mets n (pre_http c (omap pl_transport ps)).
Proof using Hc.
  induction 1 as [|p ps Hp _ IH]; cbn; [apply ret_keeps|]. destruct (pl_transport p) as [t|] eqn:Et; [|done]. cbn.
  destruct (kh_transport _ _ _ _ Hp t c Et Hc) as [Hpre _]. apply bind_keeps; [done|]. intros _ w Hw. rewrite ST_bind_unfold. cbn.
  destruct (is_short c w); [done|]. by apply IH.
Qed.

Lemma post_http_keeps ps : Forall (keeps_hooks D mets n) ps → keeps D mets n (post_http c (omap pl_transport ps)).
Proof using Hc.
  induction 1 as [|p ps Hp _ IH]; cbn; [apply ret_keeps|]. destruct (pl_transport p) as [t|] eqn:Et; [|done]. cbn.
  destruct (kh_transport _ _ _ _ Hp t c Et Hc) as (_ & Hpost & _). by apply bind_keeps.
Qed.

Lemma stream_chunk_keeps ps : Forall (keeps_hooks D mets n) ps → ∀ chunk, keeps D mets n (stream_chunk c (omap pl_transport ps) chunk).
Proof using Hc.
  induction 1 as [|p ps Hp _ IH]; intros chunk; cbn; [apply ret_keeps|]. destruct (pl_transport p) as [t|] eqn:Et; [|done]. cbn.
  destruct (kh_transport _ _ _ _ Hp t c Et Hc) as (_ & _ & Hch). apply bind_keeps; [done|]. intros [err|chunk']; apply IH.
Qed.

Lemma pre_llm_keeps ps : Forall (keeps_hooks D mets n) ps →
  keeps D mets n (pre_llm (Some c) (omap pl_llm ps)) ∧ ∀ w, (pre_llm (Some c) (omap pl_llm ps) w).1 = Some c.
Proof using Hc.
  induction 1 as [|p ps Hp _ [IH IHc]]; cbn; [by split; [apply ret_keeps|]|]. destruct (pl_llm p) as [t|] eqn:Et; [|done]. cbn.
  destruct (kh_llm _ _ _ _ Hp t c Et Hc) as (Hpre & Hr & _). split; intros w; [intros Hw|]; rewrite ST_bind_unfold; specialize (Hr w);
    [apply Hpre in Hw|]; destruct (PreLLM t c w) as [[err|c'] w']; cbn in *; subst; auto.
Qed.

Lemma post_llm_keeps ps : Forall (keeps_hooks D mets n) ps → ∀ resp, keeps D mets n (post_llm c (omap pl_llm ps) resp).
Proof using Hc.
  induction 1 as [|p ps Hp _ IH]; intros resp; cbn; [apply ret_keeps|]. destruct (pl_llm p) as [t|] eqn:Et; [|done]. cbn.
  destruct (kh_llm _ _ _ _ Hp t c Et Hc) as (_ & _ & Hpost). destruct resp as [resp|]; [|apply ret_keeps].
  apply bind_keeps; [done|]. intros [r [err|[|r'|]]]; apply IH.
Qed.
End chain.

Lemma emit_trace_keeps D mets n t fs : (∀ f, f ∈ fs → keeps D mets n (f t)) → keeps D mets n (emit_trace (Ext := Plugged) fs t).
Proof using Type.
  induction fs as [|f fs IH]; intros Hf; cbn; [apply ret_keeps|]. apply bind_keeps; [apply Hf; left|]. intros _. apply IH. intros g Hg.
  apply Hf. by right.
Qed.

(** ** Runs *)

(** What the transport does with the chain: a new request, the hooks for a request,
    the trace of one, in any order of the plugins, and a tick of the limiter. *)
Inductive chain_call :=
| CNew (c : ptr) (rc : RequestContext)
| CPre (c : ptr)
| CPost (c : ptr)
| CChunk (c : ptr) (chunk : slice)
| CPreLLM (c : ptr)
| CPostLLM (c : ptr) (resp : Response)
| CTrace (t : RequestTrace) (order : list (RequestTrace → ST PW ()))
| CTick (now : Z).

Definition run_call (m : Manager Plugged) (k : chain_call) (w : PW) : PW :=
  match k with
  | CNew c rc => mkPWorld (<[c := rc]> w.(rcs)) w.(ext)
  | CPre c => (RunPreHTTP m c w).2
  | CPost c => (RunPostHTTP m c w).2
  | CChunk c chunk => (RunStreamChunk m c chunk w).2
  | CPreLLM c => (RunPreLLM m c w).2
  | CPostLLM c resp => (RunPostLLM m c resp w).2
  | CTrace t order => (emit_trace order t w).2
  | CTick now => mkPWorld w.(rcs) (set_limiter (cleanup w.(ext).(pg_limiter) now) w.(ext))
  end.

(** A request is created with its HTTP request and a metadata map, before its hooks
    run. *)
Fixpoint calls_ok (m : Manager Plugged) (D : gset ptr) (ks : list chain_call) : Prop :=
  match ks with
  | [] => True
  | CNew c rc :: ks => proper rc ∧ calls_ok m ({[c]} ∪ D) ks
  | (CPre c | CPost c | CChunk c _ | CPreLLM c | CPostLLM c _) :: ks => c ∈ D ∧ calls_ok m D ks
  | CTrace _ order :: ks => order ≡ₚ m_observability m ∧ calls_ok m D ks
  | CTick _ :: ks => calls_ok m D ks
  end.

Lemma omap_reverse {A B} (f : A → option B) l : reverse (omap f l) = omap f (reverse l).
Proof using Type.
  induction l as [|x l IH]; [done|]. rewrite reverse_cons, omap_app, <-IH. cbn [omap list_omap].
  destruct (f x); [by rewrite reverse_cons|by rewrite app_nil_r].
Qed.

Definition metrics_on (configs : plugin_configs) : bool := bool_decide (is_Some (configs !! "metrics")).

Lemma all_keep D configs wasm : Forall (keeps_hooks D (metrics_on configs) (length wasm)) (all_plugins configs wasm).
Proof using Type.
  unfold all_plugins, builtin_plugins, when_configured. rewrite !Forall_app. split_and!.
  - case_match; [|done]. constructor; [apply limiter_keeps|done].
  - case_match; [|done]. constructor; [apply log_keeps|done].
  - unfold metrics_on. destruct (configs !! "metrics"); [|done]. constructor; [|done].
    rewrite bool_decide_eq_true_2 by eauto. apply metrics_keeps.
  - case_match; [|done]. constructor; [apply tracing_keeps|done].
  - apply Forall_lookup_2. intros i p Hi. rewrite list_lookup_imap in Hi. destruct (wasm !! i) as [wpc|] eqn:Hw; [|done].
    injection Hi as <-. apply wasm_keeps. by eapply lookup_lt_Some.
Qed.

Lemma run_call_sound configs wasm D k w :
  calls_ok (register_plugins configs wasm) D [k] → sound D (metrics_on configs) (length wasm) (length wasm) w →
  sound (match k with CNew c _ => {[c]} ∪ D | _ => D end) (metrics_on configs) (length wasm) (length wasm)
    (run_call (register_plugins configs wasm) k w).
Proof using Type.
  pose proof (all_keep D configs wasm) as Hall. destruct (registered configs wasm) as (_ & Ht & Hl & Ho).
  pose proof (proj2 (Forall_reverse _ _) Hall) as Hrev.
  intros Hk Hw. destruct k as [c rc|c|c|c chunk|c|c resp|t order|now]; cbn [calls_ok run_call] in *.
  - destruct Hw as [HD Hp He], Hk as [Hrc _]. split; cbn; [rewrite dom_insert_L; by apply union_mono_l|by apply map_Forall_insert_2|done].
  - unfold RunPreHTTP. rewrite Ht. apply pre_http_keeps; [apply Hk|done..].
  - unfold RunPostHTTP. rewrite Ht, omap_reverse. apply post_http_keeps; [apply Hk|done..].
  - unfold RunStreamChunk. rewrite Ht, omap_reverse. apply stream_chunk_keeps; [apply Hk|done..].
  - unfold RunPreLLM. rewrite Hl. apply pre_llm_keeps; [apply Hk|done..].
  - unfold RunPostLLM. rewrite Hl, omap_reverse. apply post_llm_keeps; [apply Hk|done..].
  - apply emit_trace_keeps; [|done]. intros f Hf. destruct Hk as [Hk _]. rewrite Hk, Ho in Hf.
    apply list_elem_of_omap in Hf as (p & Hp & Hf). eapply kh_trace; [|exact Hf]. by apply (proj1 (list.Forall_forall _ _) Hall).
  - destruct Hw as [HD Hp He]. split; [done..|]. apply calm_limiter; [done|]. apply cleanup_config.
Qed.

Lemma run_calls_sound configs wasm ks : ∀ D w,
  calls_ok (register_plugins configs wasm) D ks → sound D (metrics_on configs) (length wasm) (length wasm) w →
  ∃ D', sound D' (metrics_on configs) (length wasm) (length wasm) (foldl (λ w k, run_call (register_plugins configs wasm) k w) w ks).
Proof using Type.
  induction ks as [|k ks IH]; intros D w Hk Hw; [by exists D|]. cbn [foldl].
  eapply (IH (match k with CNew c _ => {[c]} ∪ D | _ => D end)); [|apply run_call_sound; [|done]];
    destruct k; cbn in *; intuition.
Qed.

(** ** Start and end *)

Lemma init_all_app cfgs ps qs w :
  init_all cfgs (ps ++ qs) w = match init_all cfgs ps w with (None, w') => init_all cfgs qs w' | r => r end.
Proof using Type.
  revert w. induction ps as [|p ps IH]; intros w; [done|]. cbn [app init_all]. rewrite !ST_bind_unfold.
  destruct (pl_Init p _ w) as [[err|] w']; cbn [fst snd]; [done|apply IH].
Qed.

Lemma init_one cfgs p w w' : init_all cfgs [p] w = (None, w') → pl_Init p (mjoin (cfgs !! pl_Name p)) w = (None, w').
Proof using Type.
  cbn [init_all]. rewrite ST_bind_unfold. destruct (pl_Init p _ w) as [[err|] w1]; cbn; [done|]. by intros [= <-].
Qed.

Lemma Init_channel cfg now (l : RateLimiter F) : l.(done_ch) ≠ Closed → (RateLimit.Init cfg now l).2.(done_ch) ≠ Closed.
Proof using Type.
  intros Hl. destruct cfg as [cfg|]; [|done]. unfold RateLimit.Init. cbn.
  destruct (cfg !! "trusted_proxies") as [v|]; [destruct (parseTrustedProxies v)|]; cbn; try done; by destruct (_ || _).
Qed.

Definition starts (mets mets' : bool) (k k' n : nat) p : Prop :=
  ∀ cfg w w', sound ∅ mets k n w → pl_Init p cfg w = (None, w') → sound ∅ mets' k' n w'.

Lemma on_plugins_starts mets mets' k k' n w (f : Plugged → outcome (option perr * Plugged)) w' :
  (∀ e, calm mets k n e → ∃ err e', f e = Ret (err, e') ∧ (err = None → calm mets' k' n e')) →
  sound ∅ mets k n w → on_plugins None f w = (None, w') → sound ∅ mets' k' n w'.
Proof using Type.
  intros Hf [HD Hp He]. unfold on_plugins. destruct (Hf _ He) as (err & e' & -> & He'). intros [= -> <-].
  split; [done..|]. by apply calm_tick, He'.
Qed.

Lemma limiter_starts mets k n : starts mets mets k k n limiter_plugin.
Proof using Type.
  intros cfg w w'. apply on_plugins_starts. intros e [].
  pose proof (Init_channel cfg (am_now (pg_tick e)) (pg_limiter e)) as Hc. destruct (RateLimit.Init _ _ _) as [err l].
  eexists _, _. split; [done|]. intros _. split; try done. by apply Hc.
Qed.

Lemma log_starts mets k n : starts mets mets k k n log_plugin.
Proof using Type. intros cfg w w'. apply on_plugins_starts. intros e He. eexists _, _. split; [done|]. intros _. by apply calm_log. Qed.

Lemma metrics_starts mets k n : starts mets true k k n metrics_plugin.
Proof using Type.
  intros cfg w w'. apply on_plugins_starts. intros e []. cbn. eexists _, _. split; [done|].
  destruct am_instruments; [|done]. intros _. split; try done. intros _. cbn. apply orb_true_r.
Qed.

Lemma tracing_starts mets k n : starts mets mets k k n tracing_plugin.
Proof using Type.
  intros cfg w w'. apply on_plugins_starts. intros e He. destruct (TracingInit _ _ _) as [ok t].
  eexists _, _. split; [done|]. intros _. by apply calm_tracing.
Qed.

Lemma wasm_starts mets k n wpc : (k < n)%nat → starts mets mets k (S k) n (wasm_plugin k wpc).
Proof using Type.
  intros Hk cfg w w'. apply on_plugins_starts. intros e He. unfold on_wasm.
  destruct (pg_wasm e !! k) as [[g a]|] eqn:Hg; [|apply lookup_ge_None in Hg; rewrite (calm_count _ _ _ _ He) in Hg; lia].
  destruct (calm_wasm _ _ _ _ He _ _ _ Hg) as [-> _]. unfold WasmInit. rewrite !ST_bind_unfold.
  pose proof (plain_net (NewCompiledPlugin (manifest g cfg)) (the_host 0 e)) as [Ha _].
  destruct (run_net _ _) as [[err|id] h]; cbn in *; eexists _, _; (split; [done|]); [done|]. intros _.
  destruct He as [Hfl Hch Hn Hw Hm]. split; cbn; try done; [by rewrite length_insert|]. intros j q b Hq.
  destruct (decide (k = j)) as [<-|Hne].
  - apply list_lookup_insert_Some in Hq as [(_ & [= <- <-] & _)|[? _]]; [|done]. by split; [|eexists].
  - rewrite list_lookup_insert_ne in Hq by done. destruct (Hw _ _ _ Hq) as [? Hj]. split; [done|]. intros ?. apply Hj. lia.
Qed.

Lemma when_starts mets mets' k n configs name p cfgs w w' : starts mets mets' k k n p →
  sound ∅ mets k n w → init_all cfgs (when_configured configs name p) w = (None, w') →
  sound ∅ (match configs !! name with Some _ => mets' | None => mets end) k n w'.
Proof using Type.
  intros Hp Hw. unfold when_configured. destruct (configs !! name); [|by intros [= <-]]. intros Hi%init_one. by eapply Hp.
Qed.

Lemma wasm_all_start cfgs mets n l : ∀ k w w', (k + length l = n)%nat → sound ∅ mets k n w →
  init_all cfgs (imap (λ i, wasm_plugin (k + i)) l) w = (None, w') → sound ∅ mets n n w'.
Proof using Type.
  induction l as [|wpc l IH]; intros k w w' Hn Hw.
  - intros [= <-]. cbn in Hn. rewrite Nat.add_0_r in Hn. by subst k.
  - rewrite imap_cons, Nat.add_0_r. change (?p :: ?ps) with ([p] ++ ps). rewrite init_all_app.
    destruct (init_all cfgs [wasm_plugin k wpc] w) as [[err|] w1] eqn:E1; [done|]. apply init_one in E1. cbn in Hn.
    apply (wasm_starts mets k n wpc) in E1; [|lia|done]. intros Hi. apply (IH (S k) w1); [lia|done|].
    rewrite <-Hi. f_equal. apply imap_ext. intros i x _. cbn. by rewrite Nat.add_succ_r.
Qed.

Lemma new_sound wasm net : sound ∅ false 0 (length wasm) (mkPWorld ∅ (new_plugged wasm net)).
Proof using Type.
  split; [set_solver|apply map_Forall_empty|]. split; cbn; try done; [by rewrite length_fmap|]. intros i g a Hi.
  apply list_lookup_fmap_Some in Hi as (wpc & [= -> ->] & _). split; [done|lia].
Qed.

(** A program that has started is calm. *)
Lemma start_sound configs wasm net m w : start_plugins configs wasm net = Some (m, w) →
  m = register_plugins configs wasm ∧ sound ∅ (metrics_on configs) (length wasm) (length wasm) w.
Proof using Type.
  unfold start_plugins, InitAll. destruct (registered configs wasm) as (-> & _). unfold all_plugins, builtin_plugins.
  set (cfgs := merge_configs configs wasm). set (w0 := mkPWorld _ _). destruct (init_all _ _ w0) as [[err|] w'] eqn:E; [done|].
  intros [= <- <-]. split; [done|]. pose proof (new_sound wasm net : sound _ _ _ _ w0) as H0w.
  rewrite <-!(assoc_L (++)), init_all_app in E.
  destruct (init_all cfgs (when_configured configs "ratelimit" _) w0) as [[?|] w1] eqn:E1; [done|].
  eapply when_starts in E1; [|apply limiter_starts|exact H0w]. rewrite init_all_app in E.
  destruct (init_all cfgs (when_configured configs "requestlog" _) w1) as [[?|] w2] eqn:E2; [done|].
  eapply when_starts in E2; [|apply log_starts|exact E1]. rewrite init_all_app in E.
  destruct (init_all cfgs (when_configured configs "metrics" _) w2) as [[?|] w3] eqn:E3; [done|].
  eapply when_starts in E3; [|apply metrics_starts|exact E2]. rewrite init_all_app in E.
  destruct (init_all cfgs (when_configured configs "tracing" _) w3) as [[?|] w4] eqn:E4; [done|].
  eapply when_starts in E4; [|apply tracing_starts|exact E3].
  unfold metrics_on. destruct (configs !! "ratelimit"), (configs !! "requestlog"), (configs !! "tracing");
    (eapply (wasm_all_start cfgs _ _ wasm 0); [done| |exact E]);
    destruct (configs !! "metrics"); exact E4.
Qed.

Definition steady (n : nat) (w : PW) : Prop :=
  w.(ext).(pg_panicked) = false ∧ w.(ext).(pg_limiter).(done_ch) ≠ Closed ∧ length w.(ext).(pg_wasm) = n.

Lemma close_all_app ps qs w : (close_all (ps ++ qs) w).2 = (close_all qs (close_all ps w).2).2.
Proof using Type. revert w. induction ps as [|p ps IH]; intros w; [done|]. cbn [app close_all]. rewrite !ST_bind_unfold. apply IH. Qed.

Lemma close_all_steady n ps : Forall (λ p, ∀ w, steady n w → steady n (pl_Close p w).2) ps →
  ∀ w, steady n w → steady n (close_all ps w).2.
Proof using Type.
  induction 1 as [|p ps Hp _ IH]; intros w Hw; [done|]. cbn [close_all]. rewrite ST_bind_unfold. by apply IH, Hp.
Qed.

Lemma wasm_close_steady n i wpc w : (i < n)%nat → steady n w → steady n (pl_Close (wasm_plugin i wpc) w).2.
Proof using Type.
  intros Hi (Hf & Hd & Hn). cbn [pl_Close wasm_plugin]. unfold on_plugins, on_wasm.
  destruct (pg_wasm (ext w) !! i) as [[g a]|] eqn:Hg; [|apply lookup_ge_None in Hg; lia].
  destruct ((_ : ST (Host N) _) (the_host a (ext w))) as [[err g'] h]. split_and!; cbn; try done. by rewrite length_insert.
Qed.

(** The limiter is closed last, and once. *)
Lemma CloseAll_calm configs wasm w : steady (length wasm) w →
  (CloseAll (register_plugins configs wasm) w).2.(ext).(pg_panicked) = false.
Proof using Type.
  intros Hw. unfold CloseAll. destruct (registered configs wasm) as (-> & _). unfold all_plugins, builtin_plugins.
  rewrite <-!(assoc_L (++)), reverse_app, close_all_app.
  assert (steady (length wasm) (close_all (reverse (when_configured configs "requestlog" log_plugin ++
    when_configured configs "metrics" metrics_plugin ++ when_configured configs "tracing" tracing_plugin ++ imap wasm_plugin wasm)) w).2)
    as (Hf & Hd & _).
  { apply close_all_steady; [|done]. rewrite Forall_reverse, !Forall_app. unfold when_configured.
    split_and!; [(case_match; [constructor; [by intros w'|done]|done])..|].
    apply Forall_lookup_2. intros i p Hi. rewrite list_lookup_imap in Hi. destruct (wasm !! i) as [wpc|] eqn:Hwi; [|done].
    injection Hi as <-. intros w'. apply wasm_close_steady. by eapply lookup_lt_Some. }
  unfold when_configured at 1. destruct (configs !! "ratelimit"); [|done]. cbn [reverse rev_append close_all].
  rewrite ST_bind_unfold. cbn. unfold on_plugins, RateLimit.Close. by destruct (done_ch _) eqn:E.
Qed.

(** Once the program has started its plugins never panic: whatever is configured,
    whatever guests, runtime, clock and clients do and in whatever order requests
    run their hooks, no hook dereferences nil, writes to a nil map or uses a missing
    instrument; between hooks every WASM module is loaded and has no instance left;
    and closing the plugins at the end does not panic either. *)
Theorem plugins_calm configs wasm net m w ks :
  start_plugins configs wasm net = Some (m, w) → calls_ok m ∅ ks →
  let w' := foldl (λ w k, run_call m k w) w ks in
  w'.(ext).(pg_panicked) = false ∧
  Forall (λ gw, is_Some gw.1.(wp_compiled) ∧ gw.2 = 0) w'.(ext).(pg_wasm) ∧
  (CloseAll m w').2.(ext).(pg_panicked) = false.
Proof using Type.
  intros [-> Hw]%start_sound Hk w'. destruct (run_calls_sound configs wasm ks ∅ w Hk Hw) as [D [_ _ He]].
  fold w' in He. destruct He as [Hf Hc Hn Hwasm _]. split_and!; [done| |by apply CloseAll_calm].
  apply Forall_lookup_2. intros i [g a] Hi. destruct (Hwasm i g a Hi) as [-> Hg]. split; [|done].
  apply Hg. rewrite <-Hn. by eapply lookup_lt_Some.
Qed.
End assembled.

(** ** Witnesses *)

Definition demo_ambient : Ambient :=
  {| am_now n := Z.of_nat n; am_uuid _ := "id"; am_pick _ := Some 0%nat; am_instruments := true; am_connect _ := true;
     am_shutdown _ := None; am_text _ := "error" |}.
Definition demo_configs : plugin_configs :=
  <["ratelimit" := Some {["requests_per_minute" := VInt 1]}]> (<["requestlog" := Some {["log_bodies" := VBool true]}]>
  (<["metrics" := None]> {["tracing" := Some {["endpoint" := VStr "localhost:4318"]}]})).
Definition demo_guard_config : WASMPluginConfig := Config.mkWASM "guard" "guard.wasm" ∅ DefaultWASMTimeout DefaultWASMMaxPages.

Definition demo_started : option (Manager (@Plugged float64 nat) * @PWorld (@Plugged float64 nat)) :=
  @start_plugins float64 _ nat (demo_guard block_cfg) literal_floats demo_ambient demo_configs [demo_guard_config] 0%nat.
Definition demo_plugins : Manager (@Plugged float64 nat) := @register_plugins float64 _ nat (demo_guard block_cfg) literal_floats demo_ambient demo_configs [demo_guard_config].
Definition demo_world : @PWorld (@Plugged float64 nat) := from_option snd (mkPWorld ∅ (new_plugged [] 0%nat)) demo_started.
Definition demo_asks : RequestContext := mkRC (Some (mkRequest "POST" "/v1/chat/completions" "192.0.2.1:1" ∅)) "" "" (Some "{}") (Some ∅) 0 None false 0 None.

(** A request that goes through, and a second one that the limiter refuses. *)
Definition demo_calls : list (@chain_call float64 nat) :=
  [CNew 1 demo_asks; CPre 1; CPreLLM 1; CPost 1; CTrace demo_ok (m_observability demo_plugins); CNew 2 demo_asks; CPre 2].

Lemma demo_inits : bool_decide (is_Some (InitAll demo_plugins (merge_configs demo_configs [demo_guard_config])
  (mkPWorld ∅ (new_plugged [demo_guard_config] 0%nat))).1) = false.
Proof. vm_compute. reflexivity. Qed.

Lemma demo_starts : demo_started = Some (demo_plugins, demo_world).
Proof.
  pose proof demo_inits as Hi. unfold demo_world, demo_started, start_plugins. fold demo_plugins.
  destruct (InitAll demo_plugins _ _) as [[err|] w']; [done|reflexivity].
Qed.

Lemma demo_calls_ok : calls_ok demo_plugins ∅ demo_calls.
Proof.
  assert (proper demo_asks) by (split; by eexists). cbn [demo_calls calls_ok]. split_and!; try done; set_solver.
Qed.

Lemma plugins_calm_witness :
  let w' := foldl (λ w k, run_call demo_plugins k w) demo_world demo_calls in
  pg_panicked (ext w') = false ∧ Forall (λ gw, is_Some (wp_compiled gw.1) ∧ gw.2 = 0) (pg_wasm (ext w')) ∧
  pg_panicked (ext (CloseAll demo_plugins w').2) = false.
Proof.
  exact (@plugins_calm float64 _ nat (demo_guard block_cfg) literal_floats demo_ambient demo_configs [demo_guard_config] 0%nat
    demo_plugins demo_world demo_calls demo_starts demo_calls_ok).
Defined.

(** The second request of the run is refused, and has not reached the guard. *)
Definition demo_before : @PWorld (@Plugged float64 nat) :=
  foldl (λ w k, run_call demo_plugins k w) demo_world (take 6 demo_calls).

Definition refusal {A} (o : outcome (A * RequestContext)) : bool :=
  match o with Ret (_, rc') => rc'.(ShortCircuit) && (rc'.(ShortCircuitStatus) =? 429) | Panic => false end.

Lemma refusal_Ret {A} (o : outcome (A * RequestContext)) : refusal o = true →
  ∃ l rc', o = Ret (l, rc') ∧ ShortCircuit rc' = true ∧ ShortCircuitStatus rc' = 429.
Proof. destruct o as [[l rc']|]; [|done]. cbn. intros [Hs Hst%Z.eqb_eq]%andb_true_iff. eauto 6. Qed.

Lemma demo_refused :
  refusal (RLPreHTTP (pg_limiter (ext demo_before)) demo_asks (@am_now demo_ambient (pg_tick (ext demo_before)))) = true.
Proof. vm_compute. reflexivity. Qed.

Lemma demo_arrived : rcs demo_before !! 2%positive = Some demo_asks.
Proof. vm_compute. reflexivity. Qed.

Lemma demo_limited : demo_configs !! "ratelimit" = Some (Some {["requests_per_minute" := VInt 1]}).
Proof. reflexivity. Qed.

Lemma refused_first_witness : ∃ l rc', ShortCircuitStatus rc' = 429 ∧
  RunPreHTTP (@register_plugins float64 _ nat (demo_guard block_cfg) literal_floats demo_ambient demo_configs [demo_guard_config]) 2 demo_before =
    (tt, mkPWorld (<[2%positive := rc']> (rcs demo_before)) (tick (set_limiter l (ext demo_before)))).
Proof.
  destruct (refusal_Ret _ demo_refused) as (l & rc' & E & Hs & Hst). exists l, rc'. split; [exact Hst|].
  exact (@refused_first float64 _ nat (demo_guard block_cfg) literal_floats demo_ambient demo_configs [demo_guard_config] _ 2%positive
    demo_asks l rc' demo_before demo_limited demo_arrived E Hs).
Defined.
