(* ===== verification/Startup.v ===== *)
(** * Start-up (cmd/butter/main.go, internal/transport/server.go, internal/version)

    What [main] makes of a configuration once the plugins have started: the cache
    with the backend that is asked for, the options of the server and the server
    with its settings. *)
From stdpp Require Import pretty.
From S2P Require Import Prelude GoStd Config MemoryCache Redis Plugin Engine Persist RequestLog Management Transport Native Assembly.

(** ** The version (internal/version/version.go) *)

Record build_info := mkBuild { Version : string; Commit : string; Date : string }.
Definition dev_build : build_info := mkBuild "dev" "none" "unknown".

Definition version_line (b : build_info) (go os arch : string) : string :=
  let nl := String (byte_of 10) "" in
  "version: " +:+ b.(Version) +:+ nl +:+ "commit: " +:+ b.(Commit) +:+ nl +:+ "built: " +:+ b.(Date) +:+ nl +:+
  "go: " +:+ go +:+ nl +:+ "platform: " +:+ os +:+ "/" +:+ arch.

(** ** The cache *)

(** Either implementation behind the interface. *)
Inductive backend (R : Type) := BMemory (m : Memory) | BRedis (r : Redis R).
#[global] Arguments BMemory {R} m.
#[global] Arguments BRedis {R} r.

#[global] Instance backend_Cache {R} `{RedisServer R} : Cache (backend R) := {|
  Get k now c := match c with
                 | BMemory m => let '(v, m) := Get k now m in (v, BMemory m)
                 | BRedis r => let '(v, r) := Get k now r in (v, BRedis r)
                 end;
  Set_ k v ttl now c := match c with BMemory m => BMemory (Set_ k v ttl now m) | BRedis r => BRedis (Set_ k v ttl now r) end;
  Len c := match c with BMemory m => Len m | BRedis r => Len r end
|}.

(** Whichever it is, it keeps the laws the engine relies on. *)
#[global] Instance backend_CacheLaws {R} `{RedisLaws R} : CacheLaws (backend R).
Proof.
  refine {| cache_wf c := match c with BMemory m => cache_wf m | BRedis r => cache_wf r end;
            may_hold c := match c with BMemory m => may_hold m | BRedis r => may_hold r end |}.
  - intros k t [m|r] Hc; cbn; [pose proof (Get_wf k t m Hc) as Hw|pose proof (Get_wf k t r Hc) as Hw]; revert Hw; cbn;
      [destruct (MemGet _ _ _)|destruct (RedisGet _ _ _)]; done.
  - intros k v ttl t [m|r] Hc; cbn; [apply (Set_wf k v ttl t m Hc)|apply (Set_wf k v ttl t r Hc)].
  - intros k t [m|r] v Hc; cbn; [pose proof (Get_holds k t m v Hc) as Hw|pose proof (Get_holds k t r v Hc) as Hw]; revert Hw; cbn;
      [destruct (MemGet _ _ _)|destruct (RedisGet _ _ _)]; done.
  - intros k t [m|r] k' v Hc; cbn; [pose proof (Get_keeps k t m k' v Hc) as Hw|pose proof (Get_keeps k t r k' v Hc) as Hw]; revert Hw; cbn;
      [destruct (MemGet _ _ _)|destruct (RedisGet _ _ _)]; done.
  - intros k v ttl t [m|r] k' v' Hc; cbn; [apply (Set_keeps k v ttl t m k' v' Hc)|apply (Set_keeps k v ttl t r k' v' Hc)].
Defined.

(** [None]: the program exits, because Redis does not answer. *)
Definition open_cache {R} `{RedisServer R} (dial : string → string → Z → R) (c : CacheConfig) : option (option (backend R)) :=
  if negb c.(cc_Enabled) then Some None
  else if decide (c.(cc_Backend) = "redis") then
    match NewRedis dial c.(cc_Redis).(rd_Address) c.(cc_Redis).(rd_Password) c.(cc_Redis).(rd_DB) c.(cc_Redis).(rd_KeyPrefix) with
    | Some r => Some (Some (BRedis r))
    | None => None
    end
  else Some (Some (BMemory (NewMemory c.(cc_MaxEntries)))).

Definition with_cache {Ext Strm R} (c : option (backend R)) (ttl : Z) (e : Engine Ext Strm) (s : Env Ext (backend R))
  : Engine Ext Strm * Env Ext (backend R) :=
  match c with Some c => SetCache c ttl e s | None => (e, s) end.

(** ** The server *)

Inductive ServerOption :=
| WithMetricsHandler
| WithAppKeyStore (header : string) (requireKey : bool)
| WithAppKeyDefaultTTL (ttl : Z).

(** What the options set. *)
Record settings := mkSettings { set_conf : ServerConf; set_store : bool; set_metrics_handler : bool }.

Definition apply_server_option (s : settings) (o : ServerOption) : settings :=
  let c := s.(set_conf) in
  match o with
  | WithMetricsHandler => mkSettings c s.(set_store) true
  | WithAppKeyStore header requireKey =>
    mkSettings (mkServerConf header requireKey c.(appKeyTTL) c.(maxBodyBytes) c.(writeTimeout)) true s.(set_metrics_handler)
  | WithAppKeyDefaultTTL ttl =>
    if 0 <? ttl then
      mkSettings (mkServerConf c.(appKeyHeader) c.(appKeyRequire) ttl c.(maxBodyBytes) c.(writeTimeout)) s.(set_store) s.(set_metrics_handler)
    else s
  end.

(** The limits of the HTTP server. *)
Record http_server := mkHttpServer {
  hs_Addr : string;
  hs_ReadTimeout : Z;
  hs_ReadHeaderTimeout : Z;
  hs_WriteTimeout : Z;
  hs_IdleTimeout : Z;
  hs_MaxHeaderBytes : Z
}.

Definition NewServer {Ext Strm} (cfg : ServerConfig) (e : Engine Ext Strm) (chain : option (Manager Ext)) (opts : list ServerOption)
  : Server Ext Strm * bool * http_server :=
  let s := foldl apply_server_option
             (mkSettings (mkServerConf "" false 0 (new_cap cfg.(sv_MaxRequestBytes)) cfg.(sv_WriteTimeout)) false false) opts in
  (mkHServer s.(set_conf) e chain s.(set_store), s.(set_metrics_handler),
   mkHttpServer cfg.(sv_Address) cfg.(sv_ReadTimeout)
     (if cfg.(sv_ReadHeaderTimeout) =? 0 then DefaultReadHeaderTimeout else cfg.(sv_ReadHeaderTimeout))
     cfg.(sv_WriteTimeout)
     (if cfg.(sv_IdleTimeout) =? 0 then DefaultIdleTimeout else cfg.(sv_IdleTimeout))
     (if cfg.(sv_MaxHeaderBytes) =? 0 then DefaultMaxHeaderBytes else cfg.(sv_MaxHeaderBytes))).

(** The line that every request leaves in the log, on its level. *)
Definition access_line (r : Request) (duration : Z) : log_level * list (string * attr) :=
  (if decide (r.(rq_Path) = "/healthz") then LevelDebug else LevelInfo,
   [("method", AStr r.(rq_Method)); ("path", AStr r.(rq_Path)); ("duration", AInt duration)]).

(** ** [main], from the plugins on *)

Definition metrics_option (configs : plugin_configs) : list ServerOption :=
  match configs !! "metrics" with Some _ => [WithMetricsHandler] | None => [] end.

Definition server_options (configs : plugin_configs) (a : AppKeysConfig) : list ServerOption :=
  metrics_option configs ++
  (if a.(ak_Enabled) then
     WithAppKeyStore a.(ak_Header) a.(ak_RequireKey) :: (if 0 <? a.(ak_DefaultTTL) then [WithAppKeyDefaultTTL a.(ak_DefaultTTL)] else [])
   else []).

Definition start_server {Ext Strm R} `{RedisServer R} (dial : string → string → Z → R) (c : Config) (configs : plugin_configs)
    (reg : Registry Ext Strm) (m : Manager Ext) (s : Env Ext (backend R))
  : option ((Server Ext Strm * bool * http_server) * Env Ext (backend R)) :=
  match open_cache dial c.(CacheCfg) with
  | None => None
  | Some cache =>
    let '(e, s) := with_cache cache c.(CacheCfg).(cc_TTL) (NewEngine reg c (Some m)) s in
    Some (NewServer c.(Config.Server) e (Some m) (server_options configs c.(AppKeys)), s)
  end.

(** The end: the watcher stops, the HTTP server drains, and then the last flush of
    the keys comes before the plugins are closed, whatever its outcome. *)
Definition stop_program `{Storage} {Ext} (close_ok : bool) (p : option Persister) (m : Manager Ext) (w : PWorld Ext)
  : option close_error * option Persister * PWorld Ext :=
  let '(err, p) := Persist.Close close_ok p in (err, p, (CloseAll m w).2).

(** The server is as configured.  Whatever the configuration, no limit of the HTTP
    server that guards against slow clients is off, a request body is not limited to
    nothing, and a limit that is set is kept; keys are checked exactly when they are
    enabled, with the header, the requirement and the lifetime of the configuration;
    and the metrics are served exactly when the plugin is configured. *)
Theorem server_as_configured {Ext Strm R} `{RedisServer R} dial c configs (reg : Registry Ext Strm) m s sv metrics hs s' :
  start_server (R := R) dial c configs reg m s = Some ((sv, metrics, hs), s') →
  let cfg := c.(Config.Server) in
  hs.(hs_ReadHeaderTimeout) = or_int cfg.(sv_ReadHeaderTimeout) DefaultReadHeaderTimeout ∧ hs.(hs_ReadHeaderTimeout) ≠ 0 ∧
  hs.(hs_IdleTimeout) = or_int cfg.(sv_IdleTimeout) DefaultIdleTimeout ∧ hs.(hs_IdleTimeout) ≠ 0 ∧
  hs.(hs_MaxHeaderBytes) = or_int cfg.(sv_MaxHeaderBytes) DefaultMaxHeaderBytes ∧ hs.(hs_MaxHeaderBytes) ≠ 0 ∧
  sv.(sv_conf).(maxBodyBytes) = or_int cfg.(sv_MaxRequestBytes) DefaultMaxRequestBytes ∧ sv.(sv_conf).(maxBodyBytes) ≠ 0 ∧
  sv.(sv_store) = c.(AppKeys).(ak_Enabled) ∧ (metrics = true ↔ is_Some (configs !! "metrics")) ∧
  (c.(AppKeys).(ak_Enabled) = true →
     sv.(sv_conf).(appKeyHeader) = c.(AppKeys).(ak_Header) ∧ sv.(sv_conf).(appKeyRequire) = c.(AppKeys).(ak_RequireKey) ∧
     sv.(sv_conf).(appKeyTTL) = Z.max 0 c.(AppKeys).(ak_DefaultTTL)).
Proof.
  unfold start_server. destruct (open_cache _ _) as [cache|]; [|done]. destruct (with_cache _ _ _ _) as [e s1].
  intros [= <- <- <- <-]. unfold server_options, metrics_option, or_int, new_cap, NewServer.
  destruct (ak_Enabled (AppKeys c)) eqn:Ea, (Z.ltb_spec 0 (ak_DefaultTTL (AppKeys c))), (configs !! "metrics") eqn:Em; cbn;
    try (rewrite (proj2 (Z.ltb_lt _ _)) by done); cbn; split_and!; try done; try (by intros [? ?]); try (match goal with |- context [?x =? 0] => by destruct (Z.eqb_spec x 0) end);
    try (intros _; split_and!; [done..|lia]); try (by eexists).
Qed.
