(* ===== verification/Sent.v ===== *)
(** * What the program sends

    The requests that reach the network while a handler runs, related to the calls
    in the engine's log: if every provider only sends requests that are fit for the
    name it is registered under, and hooks and streams send nothing, then whatever
    a handler sends is fit for a provider that it called.

    [sent] reads the requests off the outside world; [ok name q] says that [q] is
    fit for the provider [name]. *)
From S2P Require Import Prelude GoStd Json Config StreamDetect Token Store Usage MemoryCache CacheKey Plugin Engine EngineProofs.
From S2P Require Import Management Transport TransportTheorems Native Upstream.

(** The keys that are configured for a provider, or none. *)
Definition own_key (st : engineState) (name key : string) : Prop :=
  key = "" ∨ ∃ ks k, st.(keys) !! name = Some ks ∧ k ∈ ks ∧ key = k.(k_Key).

(** Client headers with the gateway's credentials, if there are any. *)
Definition credentialed {Ext Strm} (st : engineState) (name : string) (p : Provider Ext Strm) (client h : Header) : Prop :=
  h = client ∨ ∃ key, key ≠ "" ∧ own_key st name key ∧
    h = match SetAuthHeader p with
        | Some setter => setter client key
        | None => hdr_set client "Authorization" ("Bearer " +:+ key)
        end.

Section sent.
Context {Ext : Type} (sent : Ext → list HTTPRequest).

(** A computation on the world sends requests in [P]. *)
Definition emits {A} (P : HTTPRequest → Prop) (m : ST Ext A) : Prop :=
  ∀ x, ∃ qs, sent (m x).2 = sent x ++ qs ∧ Forall P qs.
(** A hook sends nothing. *)
Definition idle_hook {A} (m : ST (PWorld Ext) A) : Prop := ∀ w, sent (m w).2.(ext) = sent w.(ext).

(** The provider registered under a name sends what is fit for that name. *)
Record fit_provider {Strm} (st : engineState) (client : Header) (ok : string → HTTPRequest → Prop)
    (name : string) (p : Provider Ext Strm) : Prop := {
  fit_chat ctx req : own_key st name req.(cq_APIKey) → emits (ok name) (ChatCompletion p ctx req);
  fit_stream ctx req : own_key st name req.(cq_APIKey) → emits (ok name) (ChatCompletionStream p ctx req);
  fit_embed f ctx req : Embeddings p = Some f → own_key st name req.(eq_APIKey) → emits (ok name) (f ctx req);
  fit_native f ctx body h : HandleAnthropicNative p = Some f → credentialed st name p client h → emits (ok name) (f ctx body h);
  fit_pass ctx method path body h : credentialed st name p client h →
    emits (ok name) (Passthrough p ctx method ("/" +:+ path) body h)
}.

Record idle_chain (m : Manager Ext) : Prop := {
  idle_pre p : idle_hook (RunPreHTTP m p);
  idle_post p : idle_hook (RunPostHTTP m p);
  idle_chunk p chunk : idle_hook (RunStreamChunk m p chunk);
  idle_pre_llm p : idle_hook (RunPreLLM m p);
  idle_post_llm p resp : idle_hook (RunPostLLM m p resp)
}.

Section accounted.
Context {C Strm : Type} `{Cache C} `{Strconv}.
Context (cvt : float64 → Z).
Context (ok : string → HTTPRequest → Prop).
Implicit Types s : Env Ext C.
Implicit Types e : Engine Ext Strm.

Definition sent_of s : list HTTPRequest := sent s.(plug).(ext).

(** Every request that is sent is fit for a provider that is called. *)
Definition accounted (es : list event) (qs : list HTTPRequest) : Prop :=
  Forall (λ q, ∃ name, name ∈ call_names es ∧ ok name q) qs.

Definition acc {A} (Q : A → Prop) (m : EM Ext C A) : Prop := ∀ s a s', m s = Ret (a, s') →
  ∃ es qs, s'.(events) = s.(events) ++ es ∧ sent_of s' = sent_of s ++ qs ∧ accounted es qs ∧ Q a.
Abbreviation acc_ m := (acc (λ _, True) m).

Lemma accounted_app es1 q1 es2 q2 : accounted es1 q1 → accounted es2 q2 → accounted (es1 ++ es2) (q1 ++ q2).
Proof using Type.
  intros H1 H2. apply Forall_app. rewrite call_names_app.
  split; [eapply list.Forall_impl; [exact H1|]|eapply list.Forall_impl; [exact H2|]]; cbn; intros q (name & Hn & Hq);
    exists name; (split; [|done]); apply elem_of_app; auto.
Qed.

Lemma acc_bind {A B} (Q1 : A → Prop) (Q : B → Prop) (m : EM Ext C A) f :
  acc Q1 m → (∀ a, Q1 a → acc Q (f a)) → acc Q (m ≫= f).
Proof using Type.
  intros Hm Hf s b s2 (a & s1 & E1 & E2)%EM_bind_inv. destruct (Hm _ _ _ E1) as (e1 & q1 & Ev1 & Se1 & A1 & HQ).
  destruct (Hf a HQ _ _ _ E2) as (e2 & q2 & Ev2 & Se2 & A2 & HQ2). exists (e1 ++ e2), (q1 ++ q2).
  rewrite Ev2, Ev1, Se2, Se1, !app_assoc. auto using accounted_app.
Qed.

Lemma acc_bind_ {A B} (Q : B → Prop) (m : EM Ext C A) f : acc_ m → (∀ a, acc Q (f a)) → acc Q (m ≫= f).
Proof using Type. intros Hm Hf. eapply acc_bind; [exact Hm|auto]. Qed.

(** A step that leaves the world as far as it shows in [sent]. *)
Lemma acc_step {A} (Q : A → Prop) (m : EM Ext C A) :
  (∀ s a s', m s = Ret (a, s') → (∃ es, s'.(events) = s.(events) ++ es) ∧ sent_of s' = sent_of s ∧ Q a) → acc Q m.
Proof using Type.
  intros Hm s a s' Hr. destruct (Hm _ _ _ Hr) as ([es Ev] & Se & HQ). exists es, []. rewrite app_nil_r. split_and!; [done..|constructor|done].
Qed.

Lemma acc_ret {A} (Q : A → Prop) (a : A) : Q a → acc Q (mret a).
Proof using Type. intros HQ. apply acc_step. intros s ? ? [= <- <-]. split; [exists []; by rewrite app_nil_r|done]. Qed.
Lemma acc_panic {A} (Q : A → Prop) : acc Q panic.
Proof using Type. by intros s a s'. Qed.
Lemma acc_log ev : acc_ (log ev).
Proof using Type. apply acc_step. intros s a s' [= <- <-]. split; [by eexists|done]. Qed.
Lemma acc_clock : acc_ clock_now.
Proof using Type. apply acc_step. intros s a s' [= <- <-]. split; [exists []; by rewrite app_nil_r|done]. Qed.
Lemma acc_IntN n : acc_ (IntN n).
Proof using Type.
  apply acc_step. unfold IntN. intros s a s'. destruct (n <=? 0); [done|]. intros [= <- <-]. split; [exists []; by rewrite app_nil_r|done].
Qed.
Lemma acc_deref p : acc_ (deref p).
Proof using Type.
  apply acc_step. unfold deref. intros s a s'. destruct (_ !! _); [|done]. intros [= <- <-]. split; [exists []; by rewrite app_nil_r|done].
Qed.
Lemma acc_store_rc p rc : acc_ (store_rc p rc).
Proof using Type. apply acc_step. intros s a s' [= <- <-]. split; [exists []; by rewrite app_nil_r|done]. Qed.
Lemma acc_alloc rc : acc_ (alloc rc).
Proof using Type. apply acc_step. intros s a s' [= <- <-]. split; [exists []; by rewrite app_nil_r|done]. Qed.
Lemma acc_get_cache : acc_ get_cache.
Proof using Type. apply acc_step. intros s a s' [= <- <-]. split; [exists []; by rewrite app_nil_r|done]. Qed.
Lemma acc_put_cache c : acc_ (put_cache c).
Proof using Type. apply acc_step. intros s a s' [= <- <-]. split; [exists []; by rewrite app_nil_r|done]. Qed.

Lemma acc_hook {A} (m : ST (PWorld Ext) A) : idle_hook m → acc_ (run_hook m).
Proof using Type.
  intros Hm. apply acc_step. unfold run_hook. intros s a s'. specialize (Hm (plug s)). destruct (m (plug s)) as [b w].
  intros [= <- <-]. split; [exists []; by rewrite app_nil_r|done].
Qed.

Lemma acc_ext {A} (m : ST Ext A) : emits (λ _, False) m → acc_ (run_ext m).
Proof using Type.
  intros Hm. apply acc_step. unfold run_ext. intros s a s'. destruct (Hm (ext (plug s))) as (qs & Hs & Hf).
  destruct (m (ext (plug s))) as [b x]. intros [= <- <-]. split; [exists []; by rewrite app_nil_r|].
  destruct qs as [|q qs]; [|by apply list.Forall_cons in Hf as [? _]]. unfold sent_of. cbn in *. by rewrite Hs, app_nil_r.
Qed.

(** A call of a provider, with its entry in the log. *)
Lemma acc_call {A B} (Q : B → Prop) op name key model (m : ST Ext A) (k : A → EM Ext C B) :
  emits (ok name) m → (∀ a, acc Q (k a)) → acc Q (log (ECall op name key model);; r ← run_ext m; k r).
Proof using Type.
  intros Hm Hk s b s2 ([] & s1 & [= <-] & E)%EM_bind_inv. apply EM_bind_inv in E as (a & s' & E & Ek).
  unfold run_ext in E. cbn [plug events cache time rnd] in E. destruct (Hm (ext (plug s))) as (qs & Hs & Hf).
  destruct (m (ext (plug s))) as [a' x]. injection E as <- <-. destruct (Hk _ _ _ _ Ek) as (e2 & q2 & Ev & Se & A2 & HQ).
  exists ([ECall op name key model] ++ e2), (qs ++ q2). unfold sent_of in *. cbn [plug events ext snd] in *.
  rewrite Ev, Se, Hs, !app_assoc. split_and!; try done. apply accounted_app; [|done].
  eapply list.Forall_impl; [exact Hf|]. intros q Hq. exists name. split; [by left|done].
Qed.
End accounted.
End sent.

Create HintDb sent discriminated.
#[export] Hint Resolve acc_panic acc_log acc_clock acc_IntN acc_deref acc_store_rc acc_alloc acc_get_cache acc_put_cache : sent.

(** [acc_tac] follows the structure of a method that calls no provider. *)
Ltac acc_tac :=
  repeat first
    [ solve [auto with sent]
    | apply acc_ret; solve [done]
    | apply acc_bind_; [|intros ?]
    | match goal with |- acc _ _ _ (match ?x with _ => _ end) => destruct x end
    | match goal with |- acc _ _ _ (let '_ := ?x in _) => destruct x end ].

(** ** The engine *)

Section engine.
Context {Ext C Strm : Type} `{Cache C} `{Strconv}.
Context (cvt : float64 → Z) (sent : Ext → list HTTPRequest) (ok : string → HTTPRequest → Prop) (client : Header).
Context (e : Engine Ext Strm).
Context (Hchain : ∀ m, e.(chain) = Some m → idle_chain sent m).
Context (Hreg : ∀ name p, e.(registry) !! name = Some p → fit_provider sent e.(st) client ok name p).
#[local] Abbreviation acc := (acc (C := C) sent ok).
#[local] Abbreviation acc_ m := (acc (λ _, True) m).

Lemma pick_key_own r ks key : pick_key r ks = Some key → ∃ k, k ∈ ks ∧ key = k.(k_Key).
Proof using Type.
  revert r. induction ks as [|k ks IH]; intros r; cbn [pick_key]; [done|]. case_match.
  - intros [= <-]. exists k. split; [by left|done].
  - intros (k' & Hk & ->)%IH. exists k'. split; [by right|done].
Qed.

Lemma acc_selectKey name model : acc (own_key e.(st) name) (selectKey e.(st) name model).
Proof using Type.
  unfold selectKey, own_key. destruct (keys (st e) !! name) as [ks|] eqn:Hk; cbn [default from_option id]; [|apply acc_ret; by left].
  assert (∀ k, k ∈ List.filter (key_serves model) ks → k ∈ ks) as Hsub.
  { intros k Hin. apply list_elem_of_In, filter_In in Hin as [Hin _]. by apply list_elem_of_In. }
  assert (∀ k, k ∈ List.filter (key_serves model) ks → k_Key k = "" ∨ ∃ ks' k', Some ks = Some ks' ∧ k' ∈ ks' ∧ k_Key k = k_Key k') as Hown.
  { intros k Hin. right. exists ks, k. auto. }
  destruct ks as [|k1 ks]; [apply acc_ret; by left|].
  destruct (List.filter (key_serves model) (k1 :: ks)) as [|k0 [|k2 el]]; [apply acc_ret; by left|apply acc_ret, Hown; by left|].
  apply acc_bind_; [apply acc_IntN|]. intros r. apply acc_ret.
  destruct (pick_key r (k0 :: k2 :: el)) as [key|] eqn:Hp; cbn [default from_option id]; [|apply Hown; by left].
  apply pick_key_own in Hp as (k & Hin & ->). by apply Hown.
Qed.

Lemma acc_set_provider pctx name : acc_ (set_provider pctx name).
Proof using Type. unfold set_provider. acc_tac. Qed.

Lemma acc_backoff k attempt : acc_ (if 0 <? k then backoff cvt e.(st) attempt else mret tt).
Proof using Type. unfold backoff. acc_tac. Qed.

Lemma acc_pre_hooks ctx model body : acc_ (pre_hooks e ctx model body).
Proof using Hchain.
  unfold pre_hooks. destruct (chain e) as [m|] eqn:Hm; [|by apply acc_ret].
  apply acc_bind_; [acc_tac|]. intros p. apply acc_bind_; [by apply acc_hook, idle_pre_llm, Hchain|]. intros q. acc_tac.
Qed.

Lemma acc_post_hooks pctx resp : acc_ (post_hooks e pctx resp).
Proof using Hchain.
  unfold post_hooks. destruct (chain e) as [m|] eqn:Hm; [|by apply acc_ret]. destruct pctx as [p|]; [|by apply acc_ret].
  apply acc_bind_; [by apply acc_hook, idle_post_llm, Hchain|]. intros q. acc_tac.
Qed.

Lemma acc_cache_lookup pctx names body : acc_ (cache_lookup pctx names body).
Proof using Type. unfold cache_lookup. acc_tac. Qed.
Lemma acc_cache_store name body resp : acc_ (cache_store e name body resp).
Proof using Type. unfold cache_store. acc_tac. Qed.

Lemma acc_auth_headers p name model : acc (credentialed e.(st) name p client) (auth_headers e p name model client).
Proof using Type.
  unfold auth_headers. case_decide; [apply acc_ret; by left|]. eapply acc_bind; [apply acc_selectKey|]. intros key Hkey.
  case_decide; apply acc_ret; [by left|]. right. eauto.
Qed.

(** ** The loops *)

Lemma acc_attempts {R} (body : Z → EM Ext C (step R)) : (∀ a, acc_ (body a)) → ∀ n a last, acc_ (attempt_loop n a body last).
Proof using Type.
  intros Hb n. induction n as [|n IH]; intros a last; cbn [attempt_loop]; [by apply acc_ret|].
  apply acc_bind_; [apply Hb|]. intros [r err|err|err]; [by apply acc_ret|apply IH|by apply acc_ret].
Qed.

Lemma acc_providers {R} (try : string → option gerror → EM Ext C (outcome_of R)) :
  (∀ name last, acc_ (try name last)) → ∀ names last, acc_ (provider_loop names try last).
Proof using Type.
  intros Ht names. induction names as [|name names IH]; intros last; cbn [provider_loop]; [by apply acc_ret|].
  apply acc_bind_; [apply Ht|]. intros [r err|last']; [by apply acc_ret|apply IH].
Qed.

Lemma acc_with_provider {R} name (k : Provider Ext Strm → EM Ext C (outcome_of R)) :
  (∀ p, e.(registry) !! name = Some p → acc_ (k p)) → acc_ (with_provider e name k).
Proof using Type.
  intros Hk. unfold with_provider, RegistryGet. destruct (registry e !! name) as [p|] eqn:Hp; [by apply Hk|by apply acc_ret].
Qed.

Lemma acc_Dispatch ctx body : acc_ (Dispatch cvt e ctx body).
Proof using Hchain Hreg.
  unfold Dispatch. destruct (parseAndRoute _ _) as [err|[req names]]; [by apply acc_ret|].
  destruct (enforceScopes _ _ _) as [err|names']; [by apply acc_ret|].
  apply acc_bind_; [apply acc_pre_hooks|]. intros [[pctx body'] model]. apply acc_bind_; [apply acc_cache_lookup|].
  intros [resp|]; [by apply acc_ret|]. apply acc_providers. intros name last. apply acc_with_provider. intros p Hp.
  apply acc_attempts. intros a. unfold chat_attempt. apply acc_bind_; [apply acc_backoff|]. intros [].
  eapply acc_bind; [apply acc_selectKey|]. intros key Hkey. apply acc_call; [by apply Hreg|].
  intros [err|resp]; [by apply acc_ret|]. apply acc_bind_; [apply acc_set_provider|]. intros [].
  apply acc_bind_; [apply acc_post_hooks|]. intros resp'. apply acc_bind_; [apply acc_log|]. intros [].
  apply acc_bind_; [apply acc_cache_store|]. intros []. by apply acc_ret.
Qed.

Lemma acc_DispatchStream ctx body : acc_ (DispatchStream cvt e ctx body).
Proof using Hchain Hreg.
  unfold DispatchStream. destruct (parseAndRoute _ _) as [err|[req names]]; [by apply acc_ret|].
  destruct (enforceScopes _ _ _) as [err|names']; [by apply acc_ret|].
  apply acc_bind_; [apply acc_pre_hooks|]. intros [[pctx body'] model].
  apply acc_providers. intros name last. apply acc_with_provider. intros p Hp.
  apply acc_attempts. intros a. unfold stream_attempt. apply acc_bind_; [apply acc_backoff|]. intros [].
  eapply acc_bind; [apply acc_selectKey|]. intros key Hkey. apply acc_call; [by apply Hreg|].
  intros [err|resp]; [by apply acc_ret|]. apply acc_bind_; [apply acc_set_provider|]. intros []. by apply acc_ret.
Qed.

Lemma acc_DispatchEmbeddings ctx body : acc_ (DispatchEmbeddings cvt e ctx body).
Proof using Hreg.
  unfold DispatchEmbeddings. destruct (Unmarshal _ _ _) as [partial [|]]; [|by apply acc_ret].
  case_decide; [by apply acc_ret|]. case_decide; [by apply acc_ret|].
  destruct (enforceScopes _ _ _) as [err|names']; [by apply acc_ret|].
  apply acc_providers. intros name last. apply acc_with_provider. intros p Hp.
  destruct (Embeddings p) as [f|] eqn:Hf; [|by apply acc_ret].
  apply acc_attempts. intros a. unfold embed_attempt. apply acc_bind_; [apply acc_backoff|]. intros [].
  eapply acc_bind; [apply acc_selectKey|]. intros key Hkey. apply acc_call; [by eapply fit_embed; [apply Hreg|..]|].
  intros [err|resp]; by apply acc_ret.
Qed.

Lemma acc_DispatchNative ctx body : acc_ (DispatchAnthropicNative cvt e ctx body client).
Proof using Hreg.
  unfold DispatchAnthropicNative. destruct (Unmarshal _ _ _) as [partial [|]]; [|by apply acc_ret].
  case_decide; [by apply acc_ret|]. case_decide; [by apply acc_ret|].
  destruct (enforceScopes _ _ _) as [err|names']; [by apply acc_ret|].
  apply acc_bind_; [acc_tac|]. intros [].
  apply acc_providers. intros name last. apply acc_with_provider. intros p Hp.
  destruct (HandleAnthropicNative p) as [f|] eqn:Hf; [|by apply acc_ret].
  apply acc_attempts. intros a. unfold native_attempt. apply acc_bind_; [apply acc_backoff|]. intros [].
  eapply acc_bind; [apply acc_auth_headers|]. intros h Hh. apply acc_call; [by eapply fit_native; [apply Hreg|..]|].
  intros [err|resp]; [by apply acc_ret|]. apply acc_bind_; [apply acc_set_provider|]. intros []. by apply acc_ret.
Qed.

Lemma acc_DispatchPassthrough ctx name method path body :
  acc_ (DispatchPassthrough e ctx name method ("/" +:+ path) body client).
Proof using Hreg.
  unfold DispatchPassthrough, RegistryGet. destruct (registry e !! name) as [p|] eqn:Hp; [|by apply acc_ret].
  destruct (negb _); [by apply acc_ret|]. eapply acc_bind; [apply acc_auth_headers|]. intros h Hh.
  intros s a s' Hr. eapply (acc_call sent ok (λ _, True) OpPassthrough name "" "" (Passthrough p ctx method ("/" +:+ path) body h) mret).
  - by apply Hreg.
  - intros r. by apply acc_ret.
  - rewrite <-Hr. unfold mbind, EM_bind, mret, EM_ret. cbn. by destruct (run_ext _ _) as [[? ?]|].
Qed.
End engine.

(** ** The handlers *)

Section handlers.
Context {Ext C : Type} (sent : Ext → list HTTPRequest) (ok : string → HTTPRequest → Prop).

Definition tacc {A} (m : TM Ext C A) : Prop := ∀ t a t', m t = Ret (a, t') →
  ∃ es qs, t'.(t_env).(events) = t.(t_env).(events) ++ es ∧
    sent_of sent t'.(t_env) = sent_of sent t.(t_env) ++ qs ∧ accounted ok es qs.

Lemma tacc_bind {A B} (m : TM Ext C A) (f : A → TM Ext C B) : tacc m → (∀ a, tacc (f a)) → tacc (m ≫= f).
Proof using Type.
  intros Hm Hf t b t2 (a & t1 & E1 & E2)%TM_bind_inv. destruct (Hm _ _ _ E1) as (e1 & q1 & Ev1 & Se1 & A1).
  destruct (Hf a _ _ _ E2) as (e2 & q2 & Ev2 & Se2 & A2). exists (e1 ++ e2), (q1 ++ q2).
  rewrite Ev2, Ev1, Se2, Se1, !app_assoc. auto using accounted_app.
Qed.

Lemma tacc_env {A} (m : TM Ext C A) : (∀ t a t', m t = Ret (a, t') → t'.(t_env) = t.(t_env)) → tacc m.
Proof using Type. intros Hm t a t' ->%Hm. exists [], []. rewrite !app_nil_r. split_and!; [done..|constructor]. Qed.
Lemma tacc_ret {A} (a : A) : tacc (mret a).
Proof using Type. apply tacc_env. by intros t ? ? [= _ <-]. Qed.
Lemma tacc_panic {A} : tacc (A := A) tpanic.
Proof using Type. by intros t a t'. Qed.
Lemma tacc_engine {A} (m : EM Ext C A) : acc sent ok (λ _, True) m → tacc (engine_run m).
Proof using Type.
  intros Hm t a t'. unfold engine_run. destruct (m (t_env t)) as [[b s']|] eqn:E; [|done]. intros [= <- <-].
  destruct (Hm _ _ _ E) as (es & qs & ? & ? & ? & _). by exists es, qs.
Qed.
Lemma tacc_keys {A} (m : ST World A) : tacc (keys_run m).
Proof using Type. apply tacc_env. unfold keys_run. intros t a t'. destruct (m _). by intros [= _ <-]. Qed.
Lemma tacc_spawn j : tacc (spawn j).
Proof using Type. apply tacc_env. by intros t a t' [= _ <-]. Qed.
Lemma tacc_outcome {A} (o : outcome A) : tacc (lift_outcome o).
Proof using Type. apply tacc_env. unfold lift_outcome. intros t a t'. destruct o; [by intros [= _ <-]|done]. Qed.
End handlers.

#[export] Hint Resolve tacc_ret tacc_panic tacc_keys tacc_spawn tacc_outcome : sent.

(** [tacc_tac] follows the structure of a handler. *)
Ltac tacc_tac :=
  repeat first
    [ solve [auto with sent]
    | apply tacc_engine; solve [auto with sent]
    | apply tacc_bind; [|intros ?]
    | match goal with |- tacc _ _ (match ?x with _ => _ end) => destruct x eqn:? end
    | match goal with |- tacc _ _ (let '_ := ?x in _) => destruct x end ].

Section transport.
Context {Ext C Strm : Type} `{Cache C} `{Strconv}.
Context (cvt : float64 → Z).
Context (Next : Strm → ST Ext next_result) (SinkWrite : positive → string → ST Ext bool).
Context (can_flush can_deadline : bool).
Context (sent : Ext → list HTTPRequest) (ok : string → HTTPRequest → Prop) (client : Header).
Context (s : Server Ext Strm).
Context (Hchain : ∀ m, s.(sv_chain) = Some m → idle_chain sent m).
Context (Hengine : ∀ m, s.(sv_engine).(chain) = Some m → idle_chain sent m).
Context (Hreg : ∀ name p, s.(sv_engine).(registry) !! name = Some p → fit_provider sent s.(sv_engine).(st) client ok name p).
Context (Hnext : ∀ x, emits sent (λ _, False) (Next x)).
Context (Hsink : ∀ id piece, emits sent (λ _, False) (SinkWrite id piece)).
#[local] Abbreviation tacc := (tacc (C := C) sent ok).

Lemma tacc_WriteHeader code : tacc (WriteHeader code).
Proof using Type. unfold WriteHeader. tacc_tac. Qed.
#[local] Hint Resolve tacc_WriteHeader : sent.
Lemma tacc_send r : tacc (send r).
Proof using Type. unfold send. tacc_tac. Qed.
Lemma tacc_new_context r name body : tacc (new_context r name body).
Proof using Type. unfold new_context. tacc_tac. Qed.
Lemma tacc_run_pre p body : tacc (run_pre s p body).
Proof using Hchain.
  unfold run_pre. destruct (sv_chain s) as [m|] eqn:Hm; [|tacc_tac].
  apply tacc_bind; [by apply tacc_engine, acc_hook, idle_pre, Hchain|]. intros ?. tacc_tac.
Qed.
Lemma tacc_run_post p : tacc (run_post s p).
Proof using Hchain.
  unfold run_post. destruct (sv_chain s) as [m|] eqn:Hm; [|tacc_tac]. by apply tacc_engine, acc_hook, idle_post, Hchain.
Qed.
Lemma tacc_emitTrace p r status streaming err : tacc (emitTrace s p r status streaming err).
Proof using Type. clear Hchain. unfold emitTrace. tacc_tac. Qed.
Lemma tacc_set_response_body p body : tacc (set_response_body p body).
Proof using Type. unfold set_response_body. tacc_tac. Qed.
Lemma tacc_track r p stream pt ct : tacc (track s r p stream pt ct).
Proof using Type. unfold track. tacc_tac. Qed.
Lemma tacc_extend window disabled : tacc (extend can_deadline window disabled).
Proof using Type. unfold extend. tacc_tac. Qed.
#[local] Hint Resolve tacc_send tacc_new_context tacc_run_pre tacc_run_post tacc_emitTrace tacc_set_response_body tacc_track tacc_extend : sent.
Lemma tacc_deadline : tacc (newStreamDeadline can_deadline s).
Proof using Type. unfold newStreamDeadline. tacc_tac. Qed.
Lemma tacc_failed r p streaming err : tacc (dispatch_failed s r p streaming err).
Proof using Type. unfold dispatch_failed. tacc_tac. Qed.
Lemma tacc_relay_response p resp : tacc (relay_response p resp).
Proof using Type. unfold relay_response. tacc_tac. Qed.
#[local] Hint Resolve tacc_deadline tacc_failed tacc_relay_response : sent.

Lemma tacc_chunk_hook p chunk : tacc (match s.(sv_chain) with
  | None => mret chunk | Some m => engine_run (run_hook (RunStreamChunk m p chunk)) end).
Proof using Hchain. destruct (sv_chain s) as [m|] eqn:Hm; [by apply tacc_engine, acc_hook, idle_chunk, Hchain|tacc_tac]. Qed.

Lemma tacc_relay fuel p stream : ∀ sink disabled outs, tacc (relay Next can_deadline fuel s p stream sink disabled outs).
Proof using Hchain Hnext.
  induction fuel as [|fuel IH]; intros sink disabled outs; cbn [relay]; [tacc_tac|].
  apply tacc_bind; [by apply tacc_engine, acc_ext|]. intros [chunk| |err]; [|tacc_tac..].
  apply tacc_bind; [apply tacc_chunk_hook|]. intros chunk'. tacc_tac.
Qed.

Lemma tacc_handleStream fuel r body p : tacc (handleStream cvt Next can_flush can_deadline fuel s r body p).
Proof using Hchain Hengine Hreg Hnext.
  unfold handleStream. destruct (negb can_flush); [tacc_tac|]. apply tacc_bind; [tacc_tac|]. intros body'.
  apply tacc_bind; [by eapply tacc_engine, acc_DispatchStream|]. intros [[stream|] [err|]]; [tacc_tac| |tacc_tac..].
  apply tacc_bind; [tacc_tac|]. intros rc. apply tacc_bind; [tacc_tac|]. intros d.
  apply tacc_bind; [apply tacc_relay|]. intros [[e sink] outs]. tacc_tac.
Qed.

Lemma tacc_chat fuel r : tacc (handleChatCompletions cvt Next can_flush can_deadline fuel s r).
Proof using Hchain Hengine Hreg Hnext.
  unfold handleChatCompletions. destruct (readLimitedBody _ _) as [rep|data]; [tacc_tac|].
  apply tacc_bind; [tacc_tac|]. intros p. apply tacc_bind; [tacc_tac|]. intros [rep|body]; [tacc_tac|].
  destruct (isStreamRequest _); [apply tacc_handleStream|].
  apply tacc_bind; [by eapply tacc_engine, acc_Dispatch|]. intros [[resp|] [err|]]; tacc_tac.
Qed.

Lemma tacc_embeddings r : tacc (handleEmbeddings cvt s r).
Proof using Hchain Hreg.
  unfold handleEmbeddings. destruct (readLimitedBody _ _) as [rep|data]; [tacc_tac|].
  apply tacc_bind; [tacc_tac|]. intros p. apply tacc_bind; [tacc_tac|]. intros [rep|body]; [tacc_tac|].
  apply tacc_bind; [by eapply tacc_engine, acc_DispatchEmbeddings|]. intros [[resp|] [err|]]; tacc_tac.
Qed.

Lemma tacc_copy flush window pieces : ∀ disabled outs, tacc (copy can_deadline flush window pieces disabled outs).
Proof using Type.
  unfold copy, client_write. induction pieces as [|piece pieces IH]; intros disabled outs; [tacc_tac|].
  destruct (decide _); [apply IH|]. tacc_tac.
Qed.

Lemma tacc_copy_tee flush window sink_id pieces : ∀ disabled sink outs,
  tacc (copy_tee SinkWrite can_deadline flush window sink_id pieces disabled sink outs).
Proof using Hsink.
  unfold copy_tee, client_write. induction pieces as [|piece pieces IH]; intros disabled sink outs; [tacc_tac|].
  destruct (decide _); [apply IH|]. apply tacc_bind; [tacc_tac|]. intros w.
  apply tacc_bind; [|intros [|]; tacc_tac]. destruct sink_id; [by apply tacc_engine, acc_ext|tacc_tac].
Qed.

Lemma tacc_relay_messages r p resp : tacc (relay_messages SinkWrite can_flush can_deadline s r p resp).
Proof using Hsink.
  unfold relay_messages. apply tacc_bind; [tacc_tac|]. intros rc. apply tacc_bind; [tacc_tac|]. intros [].
  destruct (isSSEResponse resp); [|tacc_tac]. apply tacc_bind; [tacc_tac|]. intros d. apply tacc_bind; [tacc_tac|].
  intros rc'. apply tacc_bind; [apply tacc_copy_tee|]. intros [sink outs]. tacc_tac.
Qed.

Lemma tacc_messages r : forwarded_headers r = client → tacc (handleAnthropicMessages cvt SinkWrite can_flush can_deadline s r).
Proof using Hchain Hreg Hsink.
  intros Hr. unfold handleAnthropicMessages. rewrite Hr. destruct (readLimitedBody _ _) as [rep|data]; [tacc_tac|].
  apply tacc_bind; [tacc_tac|]. intros p. apply tacc_bind; [tacc_tac|]. intros [rep|body]; [tacc_tac|].
  apply tacc_bind; [by eapply tacc_engine, acc_DispatchNative|]. intros [[resp|] [err|]]; [tacc_tac| |tacc_tac..].
  apply tacc_bind; [tacc_tac|]. intros []. apply tacc_bind; [tacc_tac|]. intros []. apply tacc_relay_messages.
Qed.

Lemma tacc_passthrough r provider path : forwarded_headers r = client →
  tacc (handleNativePassthrough can_flush can_deadline s r provider path).
Proof using Hchain Hreg.
  intros Hr. unfold handleNativePassthrough. rewrite Hr. apply tacc_bind; [tacc_tac|]. intros p.
  apply tacc_bind; [tacc_tac|]. intros [rep|body]; [tacc_tac|].
  apply tacc_bind; [by eapply tacc_engine, acc_DispatchPassthrough|]. intros [err|resp]; [tacc_tac|].
  do 4 (apply tacc_bind; [tacc_tac|]; intros ?). apply tacc_bind; [apply tacc_copy|]. intros outs. tacc_tac.
Qed.

Lemma tacc_tracking next r : (∀ r', r'.(h_req) = r.(h_req) → tacc (next r')) → tacc (withAppKeyTracking s next r).
Proof using Type.
  intros Hn. unfold withAppKeyTracking. destruct (decide _); [destruct (appKeyRequire _); [tacc_tac|by apply Hn]|].
  destruct (negb _); [tacc_tac|]. apply tacc_bind; [tacc_tac|]. intros [record|]; [|by apply Hn].
  apply tacc_bind; [tacc_tac|]. intros active. destruct (negb active); [tacc_tac|]. apply Hn. by destruct (GetScopes record).
Qed.

(** Whatever the server sends while it serves a request is accounted for. *)
Lemma tacc_served fuel metrics rest path r : forwarded_headers r = client → (∀ ep r', tacc (rest ep r')) →
  tacc (ServeHTTP cvt Next SinkWrite can_flush can_deadline fuel s metrics rest path r).
Proof using Hchain Hengine Hreg Hnext Hsink.
  intros Hr Hrest. assert (∀ r', h_req r' = h_req r → forwarded_headers r' = client) as Hr'.
  { intros r' E. unfold forwarded_headers in *. by rewrite E. }
  unfold ServeHTTP. destruct (route _ _ _ _) as [code|ep]; [tacc_tac|].
  assert (∀ h, (∀ r', h_req r' = h_req r → tacc (h r')) → tacc ((if sv_store s then withAppKeyTracking s h else h) r)) as Hw.
  { intros h Hh. destruct (sv_store s); [by apply tacc_tracking|by apply Hh]. }
  destruct ep; try apply Hrest; try apply Hw.
  - intros. apply tacc_chat.
  - intros. apply tacc_embeddings.
  - intros. by apply tacc_messages, Hr'.
  - apply tacc_send.
  - apply tacc_send.
  - by apply tacc_passthrough.
Qed.
End transport.
