(* ===== verification/Whole.v ===== *)
(** * The whole program (cmd/butter/main.go)

    The parts of the program put together: the providers over the network, the
    plugins of the configuration, the key store with its database, the engine, the
    cache and the server, as [main] wires them; and the program as it runs, which
    serves requests, runs the goroutines they leave, polls the configuration file and
    flushes the keys, in any order.

    [Whole] is what plugins and providers act on: each works on its own part.  A
    handler runs in one go; one that panics is dropped by net/http and is no step
    here. *)
From S2P Require Import Prelude GoStd Json JsonScan Config Token Store Usage MemoryCache Redis CacheKey Plugin Engine OpenAIFormat.
From S2P Require Import Management ManagementTheorems Transport Native TransportTheorems Upstream Bedrock RateLimit RequestLog Observe Sdk Wasm Persist Assembly Startup.

Section whole.
Context {F : Type} `{Num F} {W : Type} `{Extism W} `{Strconv} `{Ambient}.
Context {N : Type} `{Net N} `{Aws N} {R : Type} `{RedisServer R} `{Storage}.
#[local] Abbreviation Plugged := (@Plugged F W).

Record Whole := mkWhole { wh_plugins : Plugged; wh_up : Up N }.

(** ** Each part on its own *)

Definition on_up {A} (m : ST (Up N) A) : ST Whole A := λ x,
  let '(a, u) := m x.(wh_up) in (a, mkWhole x.(wh_plugins) u).

Definition on_plugged {A} (m : ST (PWorld Plugged) A) : ST (PWorld Whole) A := λ w,
  let '(a, w') := m (mkPWorld w.(rcs) w.(ext).(wh_plugins)) in
  (a, mkPWorld w'.(rcs) (mkWhole w'.(ext) w.(ext).(wh_up))).

Definition lift_provider (p : Provider (Up N) positive) : Provider Whole positive :=
  mkProvider p.(pv_Name) (λ ctx req, on_up (ChatCompletion p ctx req)) (λ ctx req, on_up (ChatCompletionStream p ctx req))
    (λ ctx method path body h, on_up (Passthrough p ctx method path body h)) (SupportsOperation p)
    ((λ f ctx req, on_up (f ctx req)) <$> Embeddings p) (SetAuthHeader p)
    ((λ f ctx body h, on_up (f ctx body h)) <$> HandleAnthropicNative p).

Definition lift_transport (t : TransportPlugin Plugged) : TransportPlugin Whole :=
  mkTransport (λ c, on_plugged (PreHTTP t c)) (λ c, on_plugged (PostHTTP t c)) (λ c chunk, on_plugged (StreamChunk t c chunk)).
Definition lift_llm (t : LLMPlugin Plugged) : LLMPlugin Whole :=
  mkLLM (λ c, on_plugged (PreLLM t c)) (λ c resp, on_plugged (PostLLM t c resp)).
Definition lift_trace (f : RequestTrace → ST (PWorld Plugged) ()) (t : RequestTrace) : ST (PWorld Whole) () :=
  on_plugged (f t).
Definition lift_plugin (p : Plugin Plugged) : Plugin Whole :=
  mkPlugin p.(pl_Name) (λ cfg, on_plugged (pl_Init p cfg)) (on_plugged (pl_Close p))
    (lift_transport <$> pl_transport p) (lift_llm <$> pl_llm p) (lift_trace <$> pl_trace p).
Definition lift_manager (m : Manager Plugged) : Manager Whole :=
  mkManager (lift_plugin <$> m_all m) (lift_transport <$> m_transport m) (lift_llm <$> m_llm m) (lift_trace <$> m_observability m).

(** [stream.Next()] *)
Definition StreamNext (p : positive) : ST Whole next_result := on_up (Upstream.Next p).

(** The writer that the request log leaves in the metadata: it takes every write. *)
Definition BodyWrite (id : positive) (piece : string) : ST Whole bool := λ x,
  let e := x.(wh_plugins) in
  (true, mkWhole (Assembly.set_log e.(pg_log) (capped_write e.(pg_log).(bodyMaxBytes) id piece e.(pg_bufs)) e.(pg_lines) e) x.(wh_up)).

(** ** Start-up *)

(** The key store, and the database if there is one; [None]: the program exits.  The
    database is what [bolt.Open] gives. *)
Definition open_keys (a : AppKeysConfig) (clk : nat → Z) (file : option DB) : option (World * option DB) :=
  if negb a.(ak_Enabled) then Some (mkWorld NewStore clk [], None)
  else if a.(ak_Persistence).(ap_Enabled) then
    match file with
    | None => None
    | Some d => let '(ok, s) := boot a.(ak_Keys) clk d in if ok then Some (s.(world), Some s.(db)) else None
    end
  else Some ((provision_all a.(ak_Keys) (mkWorld NewStore clk [])).2, None).

(** What the program finds when it starts. *)
Record surroundings := mkSurroundings {
  su_aws : ProviderConfig → bool;
  su_dial : string → string → Z → R;
  su_file : option DB;
  su_clock : nat → Z;
  su_time : nat → Z;
  su_rnd : nat → Z;
  su_wasm : W;
  su_net : N;
  su_obs : file_obs
}.

Record Running := mkRunning {
  ru_server : Transport.Server Whole positive;
  ru_metrics : bool;
  ru_http : http_server;
  ru_state : TState Whole (backend R);
  ru_db : option DB;
  ru_watch : Watcher
}.

(** [main], from the loaded configuration to the started server; [providers] are the
    configured ones in the order of the iteration. *)
Definition program (su : surroundings) (c : Config) (configs : plugin_configs) (providers : list (string * ProviderConfig))
  : option Running :=
  match register_all su.(su_aws) providers NewRegistry with
  | None => None
  | Some reg =>
    match start_plugins configs c.(WASMPlugins) su.(su_wasm) with
    | None => None
    | Some (m, w) =>
      match open_keys c.(AppKeys) su.(su_clock) su.(su_file) with
      | None => None
      | Some (keys, d) =>
        let x := mkPWorld w.(rcs) (mkWhole w.(ext) (mkUp su.(su_net) ∅)) in
        match start_server su.(su_dial) c configs (lift_provider <$> reg) (lift_manager m) (mkEnv x None su.(su_time) su.(su_rnd) []) with
        | None => None
        | Some ((sv, metrics, hs), s) => Some (mkRunning sv metrics hs (mkT s keys []) d (WatcherStart zero_time su.(su_obs)))
        end
      end
    end
  end.

(** ** The running program *)

(** The request of the management API behind an endpoint. *)
Definition request_of (rnd : option (list Z)) (b : Body) (ep : endpoint) : option request :=
  match ep with
  | EpKeyCreate => Some (QCreate rnd b)
  | EpKeyList => Some QList
  | EpKeyUsage key => Some (QUsage key)
  | EpKeyRevoke key => Some (QRevoke key)
  | EpKeyUpdate key => Some (QUpdate key b)
  | EpKeyRotate key => Some (QRotate rnd key b)
  | EpKeyPurge key => Some (QPurge key)
  | EpUsageAggregate => Some QAggregate
  | _ => None
  end.

(** The management API, and the metrics, whose page is the exporter's. *)
Definition manage_route (UnmarshalTime : string → option Z) (rnd : option (list Z)) (page : string) (s : ServerConf)
    (ep : endpoint) (r : HReq) : TM Whole (backend R) answer :=
  match request_of rnd r.(h_body) ep with
  | Some q => rep ← keys_run (manage UnmarshalTime s q); send rep
  | None => send (mkReply 200 ∅ (BRaw (Some page)))
  end.

(** What else an incoming request depends on: its connection, how many reads of a
    stream it lives to see, and what the management handlers take. *)
Record connection := mkConnection {
  cn_flush : bool;
  cn_deadline : bool;
  cn_reads : nat;
  cn_entropy : option (list Z);
  cn_page : string
}.

Context (cvt : float64 → Z) (UnmarshalTime : string → option Z) (yaml : string → option Config) (env : gmap string string).

Definition serve (P : Running) (cn : connection) (path : list string) (r : HReq) : TM Whole (backend R) answer :=
  ServeHTTP cvt StreamNext BodyWrite cn.(cn_flush) cn.(cn_deadline) cn.(cn_reads) P.(ru_server) P.(ru_metrics)
    (manage_route UnmarshalTime cn.(cn_entropy) cn.(cn_page) P.(ru_server).(sv_conf)) path r.

(** The callbacks of the store reach the database. *)
Definition settle (P : Running) (t : TState Whole (backend R)) : Running :=
  mkRunning P.(ru_server) P.(ru_metrics) P.(ru_http)
    (mkT t.(t_env) (mkWorld t.(t_keys).(store) t.(t_keys).(clock) []) t.(t_jobs))
    ((λ d, (run_effects t.(t_keys).(effects) d).2) <$> P.(ru_db)) P.(ru_watch).

(** [engine.Reload(newCfg)] *)
Definition reload (c : Config) (sv : Transport.Server Whole positive) : Transport.Server Whole positive :=
  mkHServer sv.(sv_conf) (Reload sv.(sv_engine) c) sv.(sv_chain) sv.(sv_store).

(** A poll of the watcher, with the callback. *)
Definition poll (obs : file_obs) (P : Running) : Running :=
  let w := check yaml env obs P.(ru_watch) in
  let sv := match w.(delivered) with
            | c :: rest => if decide (length rest = length P.(ru_watch).(delivered)) then reload c P.(ru_server) else P.(ru_server)
            | [] => P.(ru_server)
            end in
  mkRunning sv P.(ru_metrics) P.(ru_http) P.(ru_state) P.(ru_db) w.

(** A goroutine that a handler left: a usage record, or a trace for the plugins in
    some order. *)
Definition run_left (order : list (RequestTrace → ST (PWorld Whole) ())) (j : job) (rest : list job) (P : Running) : Running :=
  let t := P.(ru_state) in
  match j with
  | JUsage _ _ _ _ _ => settle P (mkT t.(t_env) (run_job j t.(t_keys)).2 rest)
  | JTrace tr =>
    let s := t.(t_env) in
    settle P (mkT (mkEnv (emit_trace order tr s.(plug)).2 s.(cache) s.(time) s.(rnd) s.(events)) t.(t_keys) rest)
  end.

(** The persister's ticker. *)
Definition flush_keys (P : Running) : Running :=
  match P.(ru_db) with
  | None => P
  | Some d =>
    let s := (flush (mkSys P.(ru_state).(t_keys) d)).2 in
    mkRunning P.(ru_server) P.(ru_metrics) P.(ru_http) (mkT P.(ru_state).(t_env) s.(world) P.(ru_state).(t_jobs)) (Some s.(db)) P.(ru_watch)
  end.

(** The rate limiter's ticker. *)
Definition evict (now : Z) (P : Running) : Running :=
  let t := P.(ru_state) in
  let s := t.(t_env) in
  let x := s.(plug).(ext) in
  let e := set_limiter (cleanup x.(wh_plugins).(pg_limiter) now) x.(wh_plugins) in
  mkRunning P.(ru_server) P.(ru_metrics) P.(ru_http)
    (mkT (mkEnv (mkPWorld s.(plug).(rcs) (mkWhole e x.(wh_up))) s.(cache) s.(time) s.(rnd) s.(events)) t.(t_keys) t.(t_jobs))
    P.(ru_db) P.(ru_watch).

Inductive label :=
| LServe (cn : connection) (path : list string) (r : HReq) (a : answer)
| LPoll (obs : file_obs)
| LLeft (j : job)
| LFlush
| LEvict (now : Z).

Inductive pstep (P : Running) : label → Running → Prop :=
| step_serve cn path r a t' : incoming r → serve P cn path r P.(ru_state) = Ret (a, t') →
    pstep P (LServe cn path r a) (settle P t')
| step_poll obs : pstep P (LPoll obs) (poll obs P)
| step_left order j js1 js2 m : P.(ru_state).(t_jobs) = js1 ++ j :: js2 → P.(ru_server).(sv_chain) = Some m →
    order ≡ₚ m.(m_observability) → pstep P (LLeft j) (run_left order j (js1 ++ js2) P)
| step_flush : pstep P LFlush (flush_keys P)
| step_evict now : pstep P (LEvict now) (evict now P).

Inductive runs (P : Running) : list label → Running → Prop :=
| runs_nil : runs P [] P
| runs_snoc ls l P1 P2 : runs P ls P1 → pstep P1 l P2 → runs P (ls ++ [l]) P2.

(** [main], once a signal comes and the server has drained. *)
Definition shutdown (close_ok : bool) (m : Manager Whole) (P : Running)
  : option close_error * option Persister * PWorld Whole :=
  stop_program close_ok ((λ d, mkPersister (mkSys P.(ru_state).(t_keys) d) true false false false) <$> P.(ru_db)) m
    P.(ru_state).(t_env).(plug).

(** ** What no step changes *)

Implicit Types P : Running.

(** The configuration in force: the last one that the watcher delivered. *)
Definition in_force (c : Config) P : Config := default c (head P.(ru_watch).(delivered)).

(** The providers and the plugins stay, and the engine's keys are those of the
    configuration in force. *)
Record intact (c : Config) (store : bool) (reg : Registry (Up N) positive) (m : Manager Plugged) P : Prop := {
  in_chain : P.(ru_server).(sv_chain) = Some (lift_manager m);
  in_engine : P.(ru_server).(sv_engine).(chain) = Some (lift_manager m);
  in_registry : P.(ru_server).(sv_engine).(registry) = lift_provider <$> reg;
  in_store : P.(ru_server).(sv_store) = store;
  in_state : P.(ru_server).(sv_engine).(st) = newEngineState (in_force c P)
}.

Lemma poll_intact c store reg m obs P : intact c store reg m P → intact c store reg m (poll obs P).
Proof using Type.
  intros [H1' H2' H3' H4' H5']. unfold poll, check, in_force in *.
  assert (intact c store reg m P) as Hsame by by split.
  assert (∀ w, w = P.(ru_watch) → match w.(delivered) with
    | c' :: rest => if decide (length rest = length P.(ru_watch).(delivered)) then reload c' P.(ru_server) else P.(ru_server)
    | [] => P.(ru_server) end = P.(ru_server)) as Hw.
  { intros w ->. destruct (delivered (ru_watch P)) as [|c' rest]; [done|]. rewrite decide_False; [done|]. cbn [length]. lia. }
  destruct (fo_stat obs) as [mtime|]; [|rewrite Hw by done; by destruct Hsame].
  destruct (negb _); [rewrite Hw by done; by destruct Hsame|].
  destruct (Load yaml env _) as [err|c']; [rewrite Hw by done; by destruct Hsame|].
  cbn [delivered]. rewrite decide_True by done. by split.
Qed.

Lemma step_intact c store reg m P l P' : pstep P l P' → intact c store reg m P → intact c store reg m P'.
Proof using Type.
  intros Hs Hi. destruct Hs as [cn path r a t' _ _|obs|order j js1 js2 m' _ _ _| |now]; [by destruct Hi|by apply poll_intact|..|by destruct Hi].
  - by destruct j, Hi.
  - unfold flush_keys. destruct (ru_db P); by destruct Hi.
Qed.

Lemma runs_intact c store reg m P ls P' : runs P ls P' → intact c store reg m P → intact c store reg m P'.
Proof using Type. induction 1 as [|ls l P1 P2 _ IH Hs]; [done|]. intros Hi. eapply step_intact; [exact Hs|auto]. Qed.

Lemma program_intact su c configs providers P : program su c configs providers = Some P → ∃ reg m w,
  register_all su.(su_aws) providers NewRegistry = Some reg ∧ start_plugins configs c.(WASMPlugins) su.(su_wasm) = Some (m, w) ∧
  intact c c.(AppKeys).(ak_Enabled) reg m P ∧ P.(ru_state).(t_env).(plug) = mkPWorld w.(rcs) (mkWhole w.(ext) (mkUp su.(su_net) ∅)).
Proof using Type.
  unfold program. destruct (register_all _ _ _) as [reg|]; [|done]. destruct (start_plugins _ _ _) as [[m w]|]; [|done].
  destruct (open_keys _ _ _) as [[keys d]|]; [|done]. unfold start_server. destruct (open_cache _ _) as [cache|]; [|done].
  destruct (with_cache _ _ _ _) as [e s] eqn:He. destruct (NewServer _ _ _ _) as [[sv metrics] hs] eqn:Hn. intros [= <-].
  exists reg, m, w. split; [done|]. split; [done|].
  assert (e.(registry) = lift_provider <$> reg ∧ e.(st) = newEngineState c ∧ e.(chain) = Some (lift_manager m) ∧
    s.(plug) = mkPWorld w.(rcs) (mkWhole w.(ext) (mkUp su.(su_net) ∅))) as (H1' & H2' & H3' & H4').
  { unfold with_cache in He. destruct cache; injection He as <- <-; done. }
  injection Hn as <- <- <-. split; [split; try done|done].
  cbn. unfold server_options, metrics_option. destruct (ak_Enabled (AppKeys c)), (Z.ltb_spec 0 (ak_DefaultTTL (AppKeys c))), (configs !! "metrics"); cbn;
    rewrite ?(proj2 (Z.ltb_lt _ _)) by done; done.
Qed.
End whole.
