(* ===== verification/Confined.v ===== *)
(** * Where the adapters send, and with what credentials

    The network with a log of the requests that are sent, and for each adapter: what
    it sends goes below its base URL, and the values of its headers are the client's,
    constants, or keys that are configured for it. *)
From S2P Require Import Prelude GoStd Json GoUrl JsonScan Config Store Usage CacheKey Plugin Engine Management Transport.
From S2P Require Import OpenAIFormat Anthropic Gemini Upstream Bedrock BedrockTheorems Sent.

(** ** The log of the network *)

Record wired (N : Type) := mkWired { wr_sent : list HTTPRequest; wr_net : N }.
Arguments mkWired {N} _ _.
Arguments wr_sent {N} _.
Arguments wr_net {N} _.

(** The network below, with every request noted. *)
#[global] Instance wired_Net {N} `{Net N} : Net (wired N) := {|
  Do q n := let '(r, n') := Do q n.(wr_net) in (r, mkWired (n.(wr_sent) ++ [q]) n');
  Unix n := let '(t, n') := Unix n.(wr_net) in (t, mkWired n.(wr_sent) n');
  UnixNano n := let '(t, n') := UnixNano n.(wr_net) in (t, mkWired n.(wr_sent) n');
  request_error := request_error (N := N)
|}.
#[global] Instance wired_Aws {N} `{Aws N} : Aws (wired N) := {|
  InvokeModel model body n := let '(r, n') := InvokeModel model body n.(wr_net) in (r, mkWired n.(wr_sent) n');
  InvokeModelWithResponseStream model body n :=
    let '(r, n') := InvokeModelWithResponseStream model body n.(wr_net) in (r, mkWired n.(wr_sent) n')
|}.

Definition up_sent {N} (u : Up (wired N)) : list HTTPRequest := wr_sent (up_net u).

(** ** Fit requests *)

(** Below a base URL, up to the query. *)
Definition addressed (base : string) (q : HTTPRequest) : Prop :=
  ∃ path, hq_URL q = (cut_query (base +:+ "/" +:+ path)).1.

(** A value that may go to a provider: a constant, one of the client's, or a key that
    is configured for this provider. *)
Definition fit_value (st : engineState) (name : string) (client : Header) (v : string) : Prop :=
  v = "application/json" ∨ v = anthropicVersion ∨
  (∃ k vs, client !! k = Some vs ∧ v ∈ vs) ∨
  (∃ ks k, st.(keys) !! name = Some ks ∧ k ∈ ks ∧ k.(k_Key) ≠ "" ∧ (v = k.(k_Key) ∨ v = "Bearer " +:+ k.(k_Key))).

Definition sealed (st : engineState) (client : Header) (name : string) (q : HTTPRequest) : Prop :=
  map_Forall (λ _ vs, Forall (fit_value st name client) vs) (hq_Header q).

(** The base URL of a configured provider. *)
Definition default_url (name : string) : string :=
  if decide (name = "openrouter") then "https://openrouter.ai/api/v1"
  else if decide (name = "openai") then "https://api.openai.com/v1"
  else if decide (name = "anthropic") then "https://api.anthropic.com/v1"
  else if decide (name = "groq") then "https://api.groq.com/openai/v1"
  else if decide (name = "mistral") then "https://api.mistral.ai/v1"
  else if decide (name = "together") then "https://api.together.xyz/v1"
  else if decide (name = "fireworks") then "https://api.fireworks.ai/inference/v1"
  else if decide (name = "gemini") then "https://generativelanguage.googleapis.com"
  else if decide (name = "perplexity") then "https://api.perplexity.ai"
  else "".
Definition base_url (name : string) (pc : ProviderConfig) : string :=
  trim_slashes (if decide (pc.(pc_BaseURL) = "") then default_url name else pc.(pc_BaseURL)).

(** ** Headers *)

Section headers.
Context (V : string → Prop).
#[local] Abbreviation all_values h := (map_Forall (λ _, Forall V) (h : Header)).

Lemma values_set h k v : all_values h → V v → all_values (hdr_set h k v).
Proof using Type. intros Hh Hv. apply map_Forall_insert_2; [by repeat constructor|done]. Qed.

Lemma values_add h k v : all_values h → V v → all_values (hdr_add h k v).
Proof using Type.
  intros Hh Hv. apply map_Forall_insert_2; [|done]. apply Forall_app. split; [|by repeat constructor].
  unfold hdr_values. destruct (h !! CanonicalKey k) as [vs|] eqn:E; [by apply (Hh _ _ E)|constructor].
Qed.

Lemma values_add_all client h : all_values client → all_values h → all_values (add_headers [] (Some client) h).
Proof using Type.
  intros Hc Hh. unfold add_headers. cbn [default from_option id].
  assert (Forall (λ kv, Forall V kv.2) (map_to_list client)) as Hl.
  { apply list.Forall_forall. intros [k vs] Hin%elem_of_map_to_list. by apply (Hc k vs). }
  revert h Hh. induction Hl as [|[k vs] l Hvs Hl IH]; intros h Hh; cbn [foldl]; [done|]. apply IH. clear IH Hl.
  rewrite decide_False by (apply not_elem_of_nil). cbn [fst snd] in *. revert h Hh.
  induction Hvs as [|v vs Hv Hvs IH]; intros h Hh; cbn [foldl]; [done|]. by apply IH, values_add.
Qed.
End headers.

(** ** What is sent *)

Section emits.
Context {Ext : Type} (sent : Ext → list HTTPRequest) (P : HTTPRequest → Prop).

Lemma emits_ret {A} (a : A) : emits sent P (mret a).
Proof using Type. intros x. exists []. by rewrite app_nil_r. Qed.
Lemma emits_bind {A B} (m : ST Ext A) (f : A → ST Ext B) : emits sent P m → (∀ a, emits sent P (f a)) → emits sent P (m ≫= f).
Proof using Type.
  intros Hm Hf x. rewrite ST_bind_unfold. destruct (Hm x) as (q1 & E1 & F1), (Hf (m x).1 (m x).2) as (q2 & E2 & F2).
  exists (q1 ++ q2). rewrite E2, E1, app_assoc. split; [done|by apply Forall_app].
Qed.
Lemma emits_nothing {A} (m : ST Ext A) : (∀ x, sent (m x).2 = sent x) → emits sent P m.
Proof using Type. intros Hm x. exists []. rewrite Hm, app_nil_r. by split. Qed.
End emits.

#[export] Hint Resolve emits_ret : sent.

(** [emits_tac] follows the structure of an adapter's method. *)
Ltac emits_tac :=
  repeat first
    [ solve [auto with sent]
    | apply emits_bind; [|intros ?]
    | match goal with |- emits _ _ (match ?x with _ => _ end) => destruct x end
    | match goal with |- emits _ _ (let '_ := ?x in _) => destruct x end ].

Section adapters.
Context {N : Type} `{Net N} `{Aws N} `{Strconv}.
Context (st : engineState) (client : Header).
#[local] Abbreviation emits := (emits (@up_sent N)).

Lemma emits_Do (P : HTTPRequest → Prop) q : P q → emits P (net_run (Do q)).
Proof using Type.
  intros Hq u. exists [q]. unfold net_run, up_sent. cbn. destruct (Do q _). cbn. split; [done|by repeat constructor].
Qed.
Lemma emits_Unix P : emits P (net_run Unix).
Proof using Type. apply emits_nothing. intros u. unfold net_run, up_sent. cbn. by destruct (Unix _). Qed.
Lemma emits_UnixNano P : emits P (net_run UnixNano).
Proof using Type. apply emits_nothing. intros u. unfold net_run, up_sent. cbn. by destruct (UnixNano _). Qed.
Lemma emits_stream P s : emits P (new_stream s).
Proof using Type. by apply emits_nothing. Qed.
#[local] Hint Resolve emits_Unix emits_UnixNano emits_stream : sent.

(** Reading a stream sends nothing. *)
Lemma anthropic_Next_sent fuel r state : ∀ n : wired N, wr_sent (anthropic_Next fuel r state n).2 = wr_sent n.
Proof using Type.
  revert r state. induction fuel as [|fuel IH]; intros r state n; cbn [anthropic_Next]; [done|].
  destruct (readEvent _ _ _ _) as [[eventType data| |err] r']; [|done..]. rewrite ST_bind_unfold.
  assert (wr_sent (Unix n).2 = wr_sent n) as <- by (cbn; by destruct (Unix _)).
  destruct (translateStreamEvent _ _ _ _) as [[err|[[text|] [|]]] state']; done.
Qed.

Lemma gemini_Next_sent fuel r state : ∀ n : wired N, wr_sent (gemini_Next fuel r state n).2 = wr_sent n.
Proof using Type.
  revert r. induction fuel as [|fuel IH]; intros r n; cbn [gemini_Next]; [done|].
  destruct (ReadLine r) as [[line rs] r']. cbv zeta.
  assert (∀ k, wr_sent ((k : ST (wired N) (next_result * reader)) n).2 = wr_sent n → wr_sent ((match rs with
    | RdErr e => mret (NErr e, r') | RdEOF => if decide (line = "") then mret (NEof, r') else k | RdOk => k end) n).2 = wr_sent n) as Hk.
  { intros k Hk. destruct rs; [done| |done]. by destruct (decide _). }
  apply Hk. clear Hk. destruct (decide (TrimSpace line = "")); [apply IH|]. destruct (negb _); [apply IH|]. rewrite ST_bind_unfold.
  assert (wr_sent (Unix n).2 = wr_sent n) as <- by (cbn; by destruct (Unix _)).
  destruct (translateStreamChunk _ _ _) as [err|[[text|] ?]]; done.
Qed.

Lemma Next_idle P p : emits P (Next p).
Proof using Type.
  apply emits_nothing. intros u. unfold Next, up_sent. destruct (up_streams u !! p) as [[r|r state|r state]|]; [| | |done].
  - by destruct (sse_Next _ _).
  - pose proof (anthropic_Next_sent (S (rd_size r)) r state (up_net u)) as Hs. by destruct (anthropic_Next _ _ _ _) as [[[? ?] ?] ?].
  - pose proof (gemini_Next_sent (S (rd_size r)) r state (up_net u)) as Hs. by destruct (gemini_Next _ _ _ _) as [[? ?] ?].
Qed.

(** ** The adapters *)

(** What the provider [name] at [base] may send. *)
Definition fits (base : string) (name : string) (q : HTTPRequest) : Prop := addressed base q ∧ sealed st client name q.

Lemma NewRequest_fits base name method path body q :
  NewRequest (N := wired N) method (base +:+ "/" +:+ path) body = inr q → fits base name q.
Proof using Type. unfold NewRequest. destruct (request_error _ _); [done|]. intros [= <-]. split; [by exists path|apply map_Forall_empty]. Qed.

Lemma set_header_fits base name k v q : fits base name q → fit_value st name client v → fits base name (set_header k v q).
Proof using Type. intros [Ha Hs] Hv. split; [done|]. by apply values_set. Qed.

Lemma with_query_fits base name params q : fits base name q → fits base name (with_query params q).
Proof using Type. intros [Ha Hs]. unfold with_query. by destruct (decide _). Qed.

Lemma own_key_fit name key : own_key st name key → key ≠ "" → fit_value st name client key ∧ fit_value st name client ("Bearer " +:+ key).
Proof using Type. intros [?|(ks & k & Hk & Hin & ->)] Hne; [done|]. split; do 3 right; exists ks, k; auto. Qed.

Lemma client_values name : map_Forall (λ _, Forall (fit_value st name client)) client.
Proof using Type. intros k vs Hk. apply list.Forall_forall. intros v Hv. do 2 right. left. eauto. Qed.

Lemma add_all_fits {Strm} base name (p : Provider (Up (wired N)) Strm) h q :
  (∀ setter hd key, SetAuthHeader p = Some setter → ∃ k v, setter hd key = hdr_set hd k v ∧ (v = key ∨ v = "Bearer " +:+ key)) →
  credentialed st name p client h → fits base name q → fits base name (add_all h q).
Proof using Type.
  intros Hp Hh [Ha Hs]. split; [done|]. apply values_add_all; [|done]. pose proof (client_values name) as Hc.
  destruct Hh as [->|(key & Hne & Hk & ->)]; [done|]. destruct (own_key_fit name key Hk Hne) as [H1' H2'].
  destruct (SetAuthHeader p) as [setter|]; [|by apply values_set].
  destruct (Hp setter client key eq_refl) as (k & v & -> & [->| ->]); by apply values_set.
Qed.

Lemma json_fit name : fit_value st name client "application/json".
Proof using Type. by left. Qed.
Lemma version_fit name : fit_value st name client anthropicVersion.
Proof using Type. by right; left. Qed.
#[local] Hint Resolve json_fit version_fit : sent.

Lemma anthropic_setter (base : string) setter hd key : SetAuthHeader (anthropic_Provider (N := wired N) base) = Some setter →
  ∃ k v, setter hd key = hdr_set hd k v ∧ (v = key ∨ v = "Bearer " +:+ key).
Proof using Type. intros [= <-]. eexists _, _. split; [reflexivity|by left]. Qed.

Lemma anthropic_build_fits base name body key q : own_key st name key →
  anthropic_buildRequest (N := wired N) base body key = inr q → fits base name q.
Proof using Type.
  intros Hk. unfold anthropic_buildRequest. destruct (NewRequest _ _ _) as [err|q0] eqn:E; [done|]. intros [= <-].
  apply NewRequest_fits with (name := name) in E. assert (fits base name (set_header "anthropic-version" anthropicVersion
    (set_header "Content-Type" "application/json" q0))) as Hq by auto using set_header_fits with sent.
  destruct (decide (key = "")); [done|]. apply set_header_fits; [done|]. by apply own_key_fit.
Qed.

Lemma anthropic_fit base name : fit_provider up_sent st client (fits base) name (anthropic_Provider base).
Proof using Type.
  split; cbn [anthropic_Provider ChatCompletion ChatCompletionStream Embeddings HandleAnthropicNative Passthrough]; [| |done|..].
  - intros ctx req Hk. unfold anthropic_ChatCompletion. destruct (Anthropic.translateRequest _); [emits_tac|].
    destruct (anthropic_buildRequest _ _ _) as [err|q] eqn:E; [emits_tac|]. apply anthropic_build_fits with (name := name) in E; [|done].
    apply emits_bind; [by apply emits_Do|]. intros r. emits_tac.
  - intros ctx req Hk. unfold anthropic_ChatCompletionStream. destruct (Anthropic.translateRequest _); [emits_tac|].
    destruct (anthropic_buildRequest _ _ _) as [err|q] eqn:E; [emits_tac|]. apply anthropic_build_fits with (name := name) in E; [|done].
    apply emits_bind; [by apply emits_Do|]. intros r. emits_tac.
  - intros f ctx body h [= <-] Hh. unfold anthropic_HandleAnthropicNative. destruct (NewRequest _ _ _) as [err|q] eqn:E; [emits_tac|].
    apply NewRequest_fits with (name := name) in E. apply emits_bind; [|intros r; emits_tac]. apply emits_Do.
    by eapply add_all_fits; [apply (anthropic_setter base)|..].
  - intros ctx method path body h Hh. unfold anthropic_Passthrough, plain_Passthrough.
    destruct (NewRequest _ _ _) as [err|q] eqn:E; [emits_tac|]. apply NewRequest_fits with (name := name) in E. apply emits_Do.
    by eapply add_all_fits; [apply (anthropic_setter base)|..].
Qed.

Lemma openaicompat_setter (o : OpenAICompat) setter hd key : SetAuthHeader (openaicompat_Provider (N := wired N) o) = Some setter →
  ∃ k v, setter hd key = hdr_set hd k v ∧ (v = key ∨ v = "Bearer " +:+ key).
Proof using Type.
  intros [= <-]. unfold openaicompat_SetAuthHeader. destruct (decide _); eexists _, _; (split; [reflexivity|]); [by right|by left].
Qed.

Lemma openaicompat_build_fits (o : OpenAICompat) name method path body key q : own_key st name key →
  openaicompat_buildRequest (N := wired N) o method ("/" +:+ path) body key = inr q → fits o.(oa_baseURL) name q.
Proof using Type.
  intros Hk. unfold openaicompat_buildRequest. destruct (NewRequest _ _ _) as [err|q0] eqn:E; [done|]. intros [= <-].
  apply NewRequest_fits with (name := name) in E. apply with_query_fits.
  assert (fits (oa_baseURL o) name (set_header "Content-Type" "application/json" q0)) as Hq by auto using set_header_fits with sent.
  destruct (decide (key = "")); [done|]. destruct (own_key_fit name key Hk) as [? ?]; [done|].
  destruct (decide _); by apply set_header_fits.
Qed.

Lemma openaicompat_call_fit (o : OpenAICompat) name path failed reading body key : own_key st name key →
  emits (fits o.(oa_baseURL) name) (openaicompat_call o ("/" +:+ path) failed reading body key).
Proof using Type.
  intros Hk. unfold openaicompat_call. destruct (openaicompat_buildRequest _ _ _ _ _) as [err|q] eqn:E; [emits_tac|].
  apply openaicompat_build_fits with (name := name) in E; [|done]. apply emits_bind; [by apply emits_Do|]. intros r. emits_tac.
Qed.

Lemma openaicompat_fit (o : OpenAICompat) name : fit_provider up_sent st client (fits o.(oa_baseURL)) name (openaicompat_Provider o).
Proof using Type.
  split; cbn [openaicompat_Provider ChatCompletion ChatCompletionStream Embeddings HandleAnthropicNative Passthrough]; [| | |done|].
  - intros ctx req Hk. by apply (openaicompat_call_fit o name "chat/completions").
  - intros ctx req Hk. unfold openaicompat_ChatCompletionStream. destruct (openaicompat_buildRequest _ _ _ _ _) as [err|q] eqn:E; [emits_tac|].
    apply (openaicompat_build_fits o name "POST" "chat/completions") in E; [|done].
    apply emits_bind; [by apply emits_Do|]. intros r. emits_tac.
  - intros f ctx req [= <-] Hk. by apply (openaicompat_call_fit o name "embeddings").
  - intros ctx method path body h Hh. unfold openaicompat_Passthrough. destruct (NewRequest _ _ _) as [err|q] eqn:E; [emits_tac|].
    apply NewRequest_fits with (name := name) in E. apply emits_Do, with_query_fits.
    by eapply add_all_fits; [apply (openaicompat_setter o)|..].
Qed.

Lemma gemini_build_fits base name model stream body key q : own_key st name key →
  gemini_buildRequest (N := wired N) base model stream body key = inr q → fits base name q.
Proof using Type.
  intros Hk. unfold gemini_buildRequest, gemini_url. destruct (NewRequest _ _ _) as [err|q0] eqn:E; [done|]. intros [= <-].
  apply NewRequest_fits with (name := name) in E.
  assert (fits base name (set_header "Content-Type" "application/json" q0)) as Hq by auto using set_header_fits with sent.
  destruct (decide (key = "")); [done|]. apply set_header_fits; [done|]. by apply own_key_fit.
Qed.

Lemma gemini_fit base name : fit_provider up_sent st client (fits base) name (gemini_Provider base).
Proof using Type.
  split; cbn [gemini_Provider ChatCompletion ChatCompletionStream Embeddings HandleAnthropicNative Passthrough]; [| |done|done|].
  - intros ctx req Hk. unfold gemini_ChatCompletion. destruct (Gemini.translateRequest _) as [err|[body model]]; [emits_tac|].
    destruct (gemini_buildRequest _ _ _ _ _) as [err|q] eqn:E; [emits_tac|]. apply gemini_build_fits with (name := name) in E; [|done].
    apply emits_bind; [by apply emits_Do|]. intros r. emits_tac.
  - intros ctx req Hk. unfold gemini_ChatCompletionStream. destruct (Gemini.translateRequest _) as [err|[body model]]; [emits_tac|].
    destruct (gemini_buildRequest _ _ _ _ _) as [err|q] eqn:E; [emits_tac|]. apply gemini_build_fits with (name := name) in E; [|done].
    apply emits_bind; [by apply emits_Do|]. intros r. emits_tac.
  - intros ctx method path body h Hh. unfold gemini_Passthrough, plain_Passthrough. apply emits_bind; [|intros r; emits_tac].
    destruct (NewRequest _ _ _) as [err|q] eqn:E; [emits_tac|]. apply NewRequest_fits with (name := name) in E. apply emits_Do.
    by eapply add_all_fits; [|exact Hh|].
Qed.

(** Bedrock's requests are made by the client of AWS. *)
Lemma bedrock_fit modelMap base name : fit_provider up_sent st client (fits base) name (bedrock_Provider modelMap).
Proof using Type.
  split; cbn [bedrock_Provider ChatCompletion ChatCompletionStream Embeddings HandleAnthropicNative Passthrough]; try (intros; emits_tac; done).
  intros f ctx body h [= <-] _. apply emits_bind; [|intros o; emits_tac]. apply emits_nothing. intros u.
  unfold net_run, bedrock_HandleAnthropicNative, up_sent. destruct (Unmarshal _ _ _) as [partial [|]]; [|done].
  destruct (prepareBedrockBody _) as [body'|]; [|done]. rewrite ST_bind_unfold.
  unfold invoke, invokeStream. destruct (f_Stream partial); rewrite ST_bind_unfold; cbn;
    [destruct (InvokeModelWithResponseStream _ _ _)|destruct (InvokeModel _ _ _)]; done.
Qed.

(** ** Registration *)

Lemma register_one_fit aws_ok name pc p : register_one (N := wired N) aws_ok name pc = RegProvider p →
  fit_provider up_sent st client (fits (base_url name pc)) name p.
Proof using Type.
  unfold register_one, base_url, default_url.
  repeat (destruct (decide (name = _)) as [->|?]; [|]); cbn [decide]; intros Hr.
  all: try (injection Hr as <-; first [apply (openaicompat_fit (preset _ _ _))|apply anthropic_fit|apply gemini_fit]).
  - destruct (aws_ok pc); [|done]. injection Hr as <-. apply bedrock_fit.
  - destruct (HasPrefix _ _); [|done]. destruct (decide (pc_APIVersion pc = "")); [done|]. injection Hr as <-.
    assert ((if decide (pc_BaseURL pc = "") then "" else pc_BaseURL pc) = pc_BaseURL pc) as -> by (by destruct (decide _)).
    apply (openaicompat_fit (azureopenai_New _ _ _)).
Qed.
End adapters.
