(* ===== verification/WholeTheorems.v ===== *)
(** * The whole program: where requests go

    The hooks of plugins and the reading of streams send nothing, the providers are
    those of the configuration, and so every request that the running program ever
    sends upstream belongs to a request that it served: it goes to a configured
    provider that the presented key allows, with credentials of that provider. *)
From S2P Require Import Prelude GoStd Json GoUrl Config Token Store Usage MemoryCache Redis CacheKey Plugin Engine EngineProofs OpenAIFormat.
From S2P Require Import Management Transport Native TransportTheorems NativeTheorems Upstream Bedrock BedrockTheorems RateLimit RequestLog Observe.
From S2P Require Import Sdk Wasm GuardTheorems Persist Assembly AssemblyTheorems Startup Sent Whole Confined.

Section lifted.
Context {F : Type} `{Num F} {W : Type} `{Extism W} `{Strconv} `{Ambient}.
Context {N : Type} `{Net N} `{Aws N}.
#[local] Abbreviation Whole := (@Whole F W (wired N)).
#[local] Abbreviation Plugged := (@Plugged F W).

Definition whole_sent (x : Whole) : list HTTPRequest := up_sent (wh_up x).

(** ** Providers *)

Lemma emits_on_up {A} P (m : ST (Up (wired N)) A) : emits up_sent P m → emits whole_sent P (on_up m).
Proof using Type.
  intros Hm x. destruct (Hm (wh_up x)) as (qs & E & Hf). exists qs. unfold on_up, whole_sent. by destruct (m (wh_up x)).
Qed.

Lemma lift_fit st client ok name (p : Provider (Up (wired N)) positive) : fit_provider up_sent st client ok name p →
  fit_provider whole_sent st client ok name (lift_provider p).
Proof using Type.
  intros []. split; cbn [lift_provider ChatCompletion ChatCompletionStream Passthrough Embeddings HandleAnthropicNative].
  - intros. by apply emits_on_up, fit_chat.
  - intros. by apply emits_on_up, fit_stream.
  - intros f ctx req (g & Hg & ->)%fmap_Some Hk. by apply emits_on_up, (fit_embed g).
  - intros f ctx body h (g & Hg & ->)%fmap_Some Hh. by apply emits_on_up, (fit_native g).
  - intros. by apply emits_on_up, fit_pass.
Qed.

Lemma StreamNext_idle p : emits whole_sent (λ _, False) (StreamNext p).
Proof using Type. apply emits_on_up, Next_idle. Qed.
Lemma BodyWrite_idle id piece : emits whole_sent (λ _, False) (BodyWrite id piece).
Proof using Type. by apply emits_nothing. Qed.

(** ** Hooks *)

#[local] Abbreviation idle m := (idle_hook whole_sent m).

Lemma idle_plugged {A} (m : ST (PWorld Plugged) A) : idle (on_plugged m).
Proof using Type. intros w. unfold on_plugged. by destruct (m _). Qed.
Lemma idle_ret {A} (a : A) : idle (mret a).
Proof using Type. done. Qed.
Lemma idle_state : idle get_state.
Proof using Type. done. Qed.
Lemma idle_bind {A B} (m : ST (PWorld Whole) A) (f : A → ST (PWorld Whole) B) : idle m → (∀ a, idle (f a)) → idle (m ≫= f).
Proof using Type. intros Hm Hf w. rewrite ST_bind_unfold. by rewrite Hf, Hm. Qed.
#[local] Hint Resolve idle_plugged idle_ret idle_state : sent.

(** [idle_tac] follows the structure of the chain. *)
Ltac idle_tac := repeat first
  [ solve [auto with sent]
  | apply idle_bind; [|intros ?]
  | match goal with |- idle_hook _ (match ?x with _ => _ end) => destruct x end ].

Lemma lift_idle m : idle_chain whole_sent (lift_manager m).
Proof using Type.
  destruct m as [all tr llm obs]. split; unfold RunPreHTTP, RunPostHTTP, RunStreamChunk, RunPreLLM, RunPostLLM; cbn [lift_manager m_transport m_llm].
  - intros p. induction tr as [|t tr IH]; cbn [fmap list_fmap pre_http lift_transport PreHTTP PostHTTP StreamChunk lift_llm PreLLM PostLLM]; idle_tac.
  - intros p. rewrite <-fmap_reverse. generalize (reverse tr). clear tr. intros tr. induction tr as [|t tr IH]; cbn [fmap list_fmap post_http lift_transport PreHTTP PostHTTP StreamChunk lift_llm PreLLM PostLLM]; idle_tac.
  - intros p. rewrite <-fmap_reverse. generalize (reverse tr). clear tr. intros tr. induction tr as [|t tr IH]; intros chunk; cbn [fmap list_fmap stream_chunk lift_transport PreHTTP PostHTTP StreamChunk lift_llm PreLLM PostLLM]; idle_tac.
  - intros p. generalize (Some p). clear p. induction llm as [|t llm IH]; intros p; cbn [fmap list_fmap pre_llm lift_transport PreHTTP PostHTTP StreamChunk lift_llm PreLLM PostLLM]; idle_tac.
  - intros p resp. rewrite <-fmap_reverse. generalize (reverse llm) (Some resp). clear llm resp. intros llm.
    induction llm as [|t llm IH]; intros resp; cbn [fmap list_fmap post_llm lift_transport PreHTTP PostHTTP StreamChunk lift_llm PreLLM PostLLM]; idle_tac.
Qed.

Lemma emit_trace_idle order t : Forall (λ f, ∃ g, f = lift_trace g) order → idle (emit_trace order t).
Proof using Type.
  induction 1 as [|f order (g & ->) _ IH]; cbn [emit_trace]; unfold lift_trace; idle_tac.
Qed.
End lifted.

(** ** The running program *)

Section running.
Context {F : Type} `{Num F} {W : Type} `{Extism W} `{Strconv} `{Ambient}.
Context {N : Type} `{Net N} `{Aws N} {R : Type} `{RedisServer R} `{Storage}.
Context (cvt : float64 → Z) (UnmarshalTime : string → option Z) (yaml : string → option Config) (env : gmap string string).
#[local] Abbreviation Running := (@Running F W (wired N) R).
#[local] Abbreviation runs := (runs cvt UnmarshalTime yaml env).
#[local] Abbreviation pstep := (pstep cvt UnmarshalTime yaml env).
Implicit Types P : Running.

(** The requests sent so far. *)
Definition sent_by P : list HTTPRequest := sent_of whole_sent P.(ru_state).(t_env).

(** ** The providers *)

(** What a configured provider is sent while [P] serves a request with these headers. *)
Definition fit_for (c : Config) P (client : Header) (name : string) (q : HTTPRequest) : Prop :=
  ∃ pc, c.(Providers) !! name = Some pc ∧ addressed (base_url name pc) q ∧
    sealed (newEngineState (in_force c P)) client name q.

Lemma fit_weaken {Ext Strm} (sent : Ext → list HTTPRequest) s client (ok ok' : string → HTTPRequest → Prop) name (p : Provider Ext Strm) :
  (∀ q, ok name q → ok' name q) → fit_provider sent s client ok name p → fit_provider sent s client ok' name p.
Proof using Type.
  intros Hok. assert (∀ A (m : ST Ext A), emits sent (ok name) m → emits sent (ok' name) m) as He.
  { intros A m Hm x. destruct (Hm x) as (qs & ? & ?). exists qs. split; [done|]. eapply list.Forall_impl; eauto. }
  intros []. split; eauto.
Qed.

Lemma registered_fit aws_ok providers c (reg : Registry (Up (wired N)) positive) s client name p :
  providers ≡ₚ map_to_list c.(Providers) → register_all aws_ok providers ∅ = Some reg → reg !! name = Some p →
  ∃ pc, c.(Providers) !! name = Some pc ∧ fit_provider up_sent s client (fits s client (base_url name pc)) name p.
Proof using Type.
  intros Hl Hreg Hp. assert (NoDup providers.*1) as Hnd by (rewrite Hl; apply NoDup_fst_map_to_list).
  rewrite (register_all_lookup aws_ok providers Hnd ∅ reg Hreg name), lookup_empty in Hp.
  assert ((list_to_map providers : gmap string ProviderConfig) = c.(Providers)) as Hm.
  { rewrite <-(list_to_map_to_list c.(Providers)). by apply list_to_map_proper. }
  rewrite Hm in Hp. destruct (Providers c !! name) as [pc|]; [|done]. exists pc. split; [done|].
  unfold provider_for in Hp. destruct (register_one aws_ok name pc) as [p'| |] eqn:E; [|done..]. injection Hp as <-.
  by eapply register_one_fit.
Qed.

Section served.
Context (c : Config) (aws_ok : ProviderConfig → bool) (providers : list (string * ProviderConfig)).
Context (reg : Registry (Up (wired N)) positive) (m : Manager (@Plugged F W)).
Context (Hl : providers ≡ₚ map_to_list c.(Providers)) (Hreg : register_all aws_ok providers ∅ = Some reg).

Lemma serve_accounted store P cn path r : intact c store reg m P →
  tacc whole_sent (fit_for c P (forwarded_headers r)) (serve cvt UnmarshalTime P cn path r).
Proof using Hl Hreg.
  intros [H1' H2' H3' _ H5']. unfold serve. apply tacc_served with (client := forwarded_headers r); [..|done|].
  - intros m'. rewrite H1'. intros [= <-]. apply lift_idle.
  - intros m'. rewrite H2'. intros [= <-]. apply lift_idle.
  - intros name p. rewrite H3', H5', lookup_fmap. intros (p0 & Hp & ->)%fmap_Some. apply lift_fit.
    destruct (registered_fit aws_ok providers c reg (newEngineState (in_force c P)) (forwarded_headers r) name p0) as (pc & Hpc & Hf); [done..|].
    eapply fit_weaken; [|exact Hf]. intros q [Ha Hs]. by exists pc.
  - apply StreamNext_idle.
  - apply BodyWrite_idle.
  - intros ep r'. unfold manage_route. destruct (request_of _ _ _); [|apply tacc_send]. apply tacc_bind; [apply tacc_keys|]. intros rep. apply tacc_send.
Qed.

(** The keys in the store bind the calls, as far as a request presents one. *)
Definition scoped P (path : list string) (r : HReq) (name : string) : Prop :=
  ∀ record, c.(AppKeys).(ak_Enabled) = true → path ∈ keyed_paths → r.(h_req).(rq_Method) = "POST" →
  presented P.(ru_server) r ≠ "" → recs P.(ru_state).(t_keys) !! presented P.(ru_server) r = Some record →
  IsProviderAllowed record.(scopes) name = true.

Lemma serve_scoped P cn path r a t' es : intact c c.(AppKeys).(ak_Enabled) reg m P → incoming r →
  serve cvt UnmarshalTime P cn path r P.(ru_state) = Ret (a, t') →
  t'.(t_env).(events) = P.(ru_state).(t_env).(events) ++ es → ∀ name, name ∈ call_names es → scoped P path r name.
Proof using Type.
  intros Hi Hr Hrun Hes name Hname record Hen Hp Hm Hne Hk.
  destruct (served_keyed cvt StreamNext BodyWrite cn.(cn_flush) cn.(cn_deadline) cn.(cn_reads) P.(ru_server) P.(ru_metrics)
    (manage_route UnmarshalTime cn.(cn_entropy) cn.(cn_page) P.(ru_server).(sv_conf)) path r) as (next & E & Hnext);
    [by rewrite (in_store _ _ _ _ _ Hi)|done..|].
  unfold serve in Hrun. unfold served in E. rewrite E in Hrun.
  destruct (tracking_scopes P.(ru_server) r P.(ru_state) a t' record next) as (es' & Hes' & Hc);
    [by rewrite (in_store _ _ _ _ _ Hi)|done..|].
  assert (es' = es) as -> by (apply (app_inv_head (events (t_env (ru_state P)))); congruence). by apply Hc.
Qed.

(** One step: what is sent belongs to the request that is served. *)
Lemma step_sent P l P' : intact c c.(AppKeys).(ak_Enabled) reg m P → pstep P l P' →
  ∃ qs, sent_by P' = sent_by P ++ qs ∧
    Forall (λ q, ∃ cn path r a name, l = LServe cn path r a ∧ fit_for c P (forwarded_headers r) name q ∧ scoped P path r name) qs.
Proof using Hl Hreg.
  intros Hi Hs. destruct Hs as [cn path r a t' Hr Hrun|obs|order j js1 js2 m' _ Hm Ho| |now].
  - destruct (serve_accounted _ P cn path r Hi _ _ _ Hrun) as (es & qs & Hes & Hqs & Ha). exists qs. split; [done|].
    eapply list.Forall_impl; [exact Ha|]. cbn. intros q (name & Hn & Hq). exists cn, path, r, a, name. split_and!; [done..|].
    by eapply serve_scoped.
  - exists []. rewrite app_nil_r. by split.
  - exists []. rewrite app_nil_r. split; [|done]. destruct j as [| tr]; [done|]. unfold sent_by, sent_of. cbn.
    apply emit_trace_idle. rewrite (in_chain _ _ _ _ _ Hi) in Hm. injection Hm as <-. cbn in Ho. apply list.Forall_forall.
    intros f Hf. rewrite Ho in Hf. apply list_elem_of_fmap in Hf as (g & -> & _). by exists g.
  - exists []. rewrite app_nil_r. unfold flush_keys. by destruct (ru_db P).
  - exists []. rewrite app_nil_r. by split.
Qed.
End served.

End running.

(** ** A run

    Two providers with a key each, every built-in plugin and a guard; the key of the
    client may only use the second provider. *)

#[local] Existing Instances literal_floats demo_ambient toy_storage.
#[local] Instance gate_guard : Extism nat := demo_guard block_cfg.
#[local] Instance gate_net : Net unit :=
  {| Do _ := λ n, (inl (GPlain "refused"), n); Unix := λ n, (0, n); UnixNano := λ n, (0, n); request_error _ _ := None |}.
#[local] Instance gate_aws : Aws unit :=
  {| InvokeModel _ _ := λ n, (inl (mkAwsError None ""), n); InvokeModelWithResponseStream _ _ := λ n, (inl (mkAwsError None ""), n) |}.

Definition gate_provider (key : string) : ProviderConfig := mkProviderConfig "" [mkKey key 1 []] "" "" "" ∅ "".
Definition gate_config : Config :=
  applyDefaults (mkConfig (mkServer "" 0 0 0 0 0 0)
    {["openai" := gate_provider "sk-o"; "anthropic" := gate_provider "sk-a"]}
    (mkRouting "" {["m" := mkRoute ["openai"; "anthropic"] "priority"]} (mkFailover false 0 (mkBackoff 0 (S754_zero false) 0) []))
    [demo_guard_config] (mkCacheConfig true "" 0 0 (Config.mkRedis "" "" 0 ""))
    (mkAppKeys true true "" 0 [mkAppKeyEntry key_b "b" [] ["anthropic"]] (mkPersistence false "" 0))).

Abbreviation gate_surroundings := (@surroundings nat (wired unit) (gmap string (string * Z))).
Definition gate_su : gate_surroundings :=
  mkSurroundings (λ _, true) (λ _ _ _, ∅) None (λ _, 1) (λ _, 1) (λ _, 0) 0%nat (mkWired [] tt) (mkObs None None).

Definition gate_program : option (@Running float64 nat (wired unit) (gmap string (string * Z))) :=
  program gate_su gate_config demo_configs (map_to_list gate_config.(Providers)).

Definition gate_connection : connection := mkConnection true true 9 None "".
Definition gate_path : list string := ["v1"; "chat"; "completions"].
Definition gate_request : HReq := demo_request key_b "{'model':'m','messages':[{'role':'user','content':'hi'}]}".
Abbreviation gate_serve P := (Whole.serve (λ _, 0) (λ _, None) P gate_connection gate_path gate_request P.(ru_state)).

(** One request goes out: to the second provider, with its key. *)
Definition gate_check : bool :=
  match gate_program with
  | None => false
  | Some P0 =>
    match gate_serve P0 with
    | Panic => false
    | Ret (a, t') =>
      match sent_by (settle P0 t') with
      | [q] => bool_decide (hq_URL q = "https://api.anthropic.com/v1/messages") &&
               bool_decide (hdr_get (hq_Header q) "x-api-key" = "sk-a")
      | _ => false
      end
    end
  end.
Lemma gate_checked : gate_check = true.
Proof. vm_compute. reflexivity. Qed.

Lemma gate_run : ∃ P0 a P q, gate_program = Some P0 ∧
  runs (λ _, 0) (λ _, None) (λ _, None) ∅ P0 [LServe gate_connection gate_path gate_request a] P ∧
  sent_by P = [q] ∧ hq_URL q = "https://api.anthropic.com/v1/messages".
Proof.
  pose proof gate_checked as Hc. unfold gate_check in Hc. destruct gate_program as [P0|] eqn:Hp; [|discriminate].
  destruct (gate_serve P0) as [[a t']|] eqn:Hs; [|discriminate].
  destruct (sent_by (settle P0 t')) as [|q [|]] eqn:Hq; [discriminate| |discriminate].
  apply andb_true_iff in Hc as [Hu%bool_decide_eq_true_1 _].
  exists P0, a, (settle P0 t'), q. split_and!; [reflexivity| |exact Hq|exact Hu].
  apply (runs_snoc _ _ _ _ P0 [] _ P0); [constructor|]. apply step_serve; [by split|exact Hs].
Qed.

