(* ===== verification/Calm.v ===== *)
(** * The whole program: its plugins stay calm

    The engine and the handlers run the hooks on the request contexts that they have
    made themselves, and neither providers nor the relay touch what the plugins keep:
    so nothing that the running program does makes a plugin panic.  Nor does any plugin
    touch a chunk of a stream, so the client gets the chunks as the provider sent them. *)
From S2P Require Import Prelude GoStd Json Config StreamDetect Token Store Usage MemoryCache Redis CacheKey Plugin Engine EngineProofs OpenAIFormat.
From S2P Require Import Management Transport Native TransportTheorems Upstream Bedrock RateLimit RequestLog Observe Sdk Wasm WasmTheorems GuardTheorems.
From S2P Require Import Persist Assembly AssemblyTheorems Startup Sent Confined Whole WholeTheorems.

Section calm.
Context {F : Type} `{Num F} {W : Type} `{Extism W} `{Strconv} `{Ambient}.
Context {N : Type} `{Net N} `{Aws N} {C : Type} `{Cache C}.
#[local] Abbreviation Whole := (@Whole F W N).
#[local] Abbreviation Plugged := (@Plugged F W).
Context (configs : plugin_configs) (wasm : list WASMPluginConfig).
#[local] Abbreviation mets := (metrics_on configs).
#[local] Abbreviation n := (length wasm).
#[local] Abbreviation chain_of := (register_plugins configs wasm).
#[local] Abbreviation lifted := (lift_manager (N := N) chain_of).

(** The world as the plugins see it. *)
Definition seen (w : PWorld Whole) : PWorld Plugged := mkPWorld w.(rcs) w.(ext).(wh_plugins).

(** The plugins are calm, and know the requests in [D]. *)
Definition good (D : gset ptr) (w : PWorld Whole) : Prop := sound D mets n n (seen w).

(** A hook of the chain, a step on the rest of the world. *)
Definition calm_step {A} (D : gset ptr) (m : ST (PWorld Whole) A) : Prop := ∀ w, good D w → good D (m w).2.
Definition tame {A} (m : ST Whole A) : Prop := ∀ x, calm mets n n x.(wh_plugins) → calm mets n n (m x).2.(wh_plugins).

Lemma tame_up {A} (m : ST (Up N) A) : tame (on_up m).
Proof using Type. intros x Hx. unfold on_up. by destruct (m _). Qed.
Lemma tame_next p : tame (StreamNext p).
Proof using Type. apply tame_up. Qed.
Lemma tame_write id piece : tame (BodyWrite id piece).
Proof using Type. intros x Hx. by apply calm_log. Qed.

(** ** Hooks

    A lifted chain runs as the chain does on what the plugins see. *)

(** [m'] is [m] on the whole world. *)
Definition mirrors {A} (m : ST (PWorld Plugged) A) (m' : ST (PWorld Whole) A) : Prop :=
  ∀ w, (m' w).1 = (m (seen w)).1 ∧ seen (m' w).2 = (m (seen w)).2.

Lemma mirrors_lift {A} (m : ST (PWorld Plugged) A) : mirrors m (on_plugged m).
Proof using Type. intros w. unfold on_plugged, seen. by destruct (m _) as [a [r e]]. Qed.
Lemma mirrors_ret {A} (a : A) : mirrors (mret a) (mret a).
Proof using Type. done. Qed.
Lemma mirrors_bind {A B} (m : ST (PWorld Plugged) A) m' (f : A → ST (PWorld Plugged) B) f' :
  mirrors m m' → (∀ a, mirrors (f a) (f' a)) → mirrors (m ≫= f) (m' ≫= f').
Proof using Type.
  intros Hm Hf w. rewrite !ST_bind_unfold. destruct (Hm w) as [<- <-]. apply Hf.
Qed.
Lemma mirrors_short c (f g : ST (PWorld Plugged) ()) f' g' : mirrors f f' → mirrors g g' →
  mirrors (w ← get_state; if is_short c w then f else g) (w ← get_state; if is_short c w then f' else g').
Proof using Type.
  intros Hf Hg w. rewrite !ST_bind_unfold. cbn [get_state fst snd].
  assert (is_short c w = is_short c (seen w)) as -> by done. destruct (is_short c (seen w)); auto.
Qed.

Lemma mirrors_pre c ps : mirrors (pre_http c ps) (pre_http c (lift_transport (N := N) <$> ps)).
Proof using Type.
  induction ps as [|t ps IH]; cbn [fmap list_fmap pre_http]; [apply mirrors_ret|]. apply mirrors_bind; [apply mirrors_lift|].
  intros _. apply mirrors_short; [apply mirrors_ret|done].
Qed.
Lemma mirrors_post c ps : mirrors (post_http c ps) (post_http c (lift_transport (N := N) <$> ps)).
Proof using Type.
  induction ps as [|t ps IH]; cbn [fmap list_fmap post_http]; [apply mirrors_ret|]. by apply mirrors_bind; [apply mirrors_lift|].
Qed.
Lemma mirrors_chunk c ps : ∀ chunk, mirrors (stream_chunk c ps chunk) (stream_chunk c (lift_transport (N := N) <$> ps) chunk).
Proof using Type.
  induction ps as [|t ps IH]; intros chunk; cbn [fmap list_fmap stream_chunk]; [apply mirrors_ret|].
  apply mirrors_bind; [apply mirrors_lift|]. intros [err|chunk']; apply IH.
Qed.
Lemma mirrors_pre_llm ps : ∀ c, mirrors (pre_llm c ps) (pre_llm c (lift_llm (N := N) <$> ps)).
Proof using Type.
  induction ps as [|t ps IH]; intros c; cbn [fmap list_fmap pre_llm]; [apply mirrors_ret|]. destruct c as [c|]; [|apply mirrors_ret].
  apply mirrors_bind; [apply mirrors_lift|]. intros [err|c']; apply IH.
Qed.
Lemma mirrors_post_llm c ps : ∀ resp, mirrors (post_llm c ps resp) (post_llm c (lift_llm (N := N) <$> ps) resp).
Proof using Type.
  induction ps as [|t ps IH]; intros resp; cbn [fmap list_fmap post_llm]; [apply mirrors_ret|]. destruct resp as [resp|]; [|apply mirrors_ret].
  apply mirrors_bind; [apply mirrors_lift|]. intros [r [err|[|r'|]]]; apply IH.
Qed.
Lemma mirrors_trace t fs : mirrors (emit_trace fs t) (emit_trace (lift_trace (N := N) <$> fs) t).
Proof using Type.
  induction fs as [|f fs IH]; cbn [fmap list_fmap emit_trace]; [apply mirrors_ret|]. by apply mirrors_bind; [apply mirrors_lift|].
Qed.

(** The calls of the chain on a known request. *)
Lemma mirrored D {A} (m : ST (PWorld Plugged) A) m' : mirrors m m' → keeps D mets n m → calm_step D m'.
Proof using Type. intros Hm Hk w Hw. unfold good. destruct (Hm w) as [_ ->]. by apply Hk. Qed.

Section hooks.
Context (p : ptr).
#[local] Abbreviation steps m := (calm_step {[p]} m).

Lemma by_call {A} (m : ST (PWorld Plugged) A) m' k : mirrors m m' → calls_ok chain_of {[p]} [k] →
  (∀ w, run_call chain_of k w = (m w).2) → (match k with CNew _ _ => False | _ => True end) → steps m'.
Proof using Type.
  intros Hm Hk Hr Hnew. eapply mirrored; [exact Hm|]. intros w Hw. rewrite <-Hr.
  pose proof (run_call_sound configs wasm {[p]} k w Hk Hw) as Hs. by destruct k.
Qed.

Lemma pre_steps : steps (RunPreHTTP lifted p).
Proof using Type. by apply (by_call (RunPreHTTP chain_of p) _ (CPre p)); [apply mirrors_pre|split; [set_solver|]|..]. Qed.
Lemma post_steps : steps (RunPostHTTP lifted p).
Proof using Type.
  apply (by_call (RunPostHTTP chain_of p) _ (CPost p)); [|split; [set_solver|done]|done..].
  unfold RunPostHTTP. cbn [lift_manager m_transport]. rewrite <-fmap_reverse. apply mirrors_post.
Qed.
Lemma chunk_steps chunk : steps (RunStreamChunk lifted p chunk).
Proof using Type.
  apply (by_call (RunStreamChunk chain_of p chunk) _ (CChunk p chunk)); [|split; [set_solver|done]|done..].
  unfold RunStreamChunk. cbn [lift_manager m_transport]. rewrite <-fmap_reverse. apply mirrors_chunk.
Qed.
Lemma pre_llm_steps : steps (RunPreLLM lifted p).
Proof using Type. by apply (by_call (RunPreLLM chain_of p) _ (CPreLLM p)); [apply mirrors_pre_llm|split; [set_solver|]|..]. Qed.
Lemma post_llm_steps resp : steps (RunPostLLM lifted p resp).
Proof using Type.
  apply (by_call (RunPostLLM chain_of p resp) _ (CPostLLM p resp)); [|split; [set_solver|done]|done..].
  unfold RunPostLLM. cbn [lift_manager m_llm]. rewrite <-fmap_reverse. apply mirrors_post_llm.
Qed.

Lemma pre_llm_same w : (RunPreLLM lifted p w).1 = Some p.
Proof using Type.
  unfold RunPreLLM. cbn [lift_manager m_llm]. destruct (mirrors_pre_llm (m_llm chain_of) (Some p) w) as [-> _].
  destruct (registered (F := F) (N := W) configs wasm) as (_ & _ & -> & _).
  apply (pre_llm_keeps {[p]} mets n p); [set_solver|apply all_keep].
Qed.

(** ** The engine *)

(** What is done for the request [p] keeps the plugins calm. *)
Definition kept {A} (Q : A → Prop) (m : EM Whole C A) : Prop :=
  ∀ s a s', good {[p]} s.(plug) → m s = Ret (a, s') → good {[p]} s'.(plug) ∧ Q a.
#[local] Abbreviation kept_ m := (kept (λ _, True) m).

Lemma kept_bind {A B} (Q1 : A → Prop) (Q : B → Prop) (m : EM Whole C A) f : kept Q1 m → (∀ a, Q1 a → kept Q (f a)) → kept Q (m ≫= f).
Proof using Type.
  intros Hm Hf s b s2 Hs (a & s1 & E1 & E2)%EM_bind_inv. destruct (Hm _ _ _ Hs E1) as [Hs1 HQ]. by apply (Hf a HQ s1).
Qed.
Lemma kept_bind_ {A B} (Q : B → Prop) (m : EM Whole C A) f : kept_ m → (∀ a, kept Q (f a)) → kept Q (m ≫= f).
Proof using Type. intros Hm Hf. eapply kept_bind; [exact Hm|auto]. Qed.

Lemma kept_same {A} (Q : A → Prop) (m : EM Whole C A) : (∀ s a s', m s = Ret (a, s') → s'.(plug) = s.(plug) ∧ Q a) → kept Q m.
Proof using Type. intros Hm s a s' Hs Hr. by destruct (Hm _ _ _ Hr) as [-> ?]. Qed.
Lemma kept_ret {A} (Q : A → Prop) (a : A) : Q a → kept Q (mret a).
Proof using Type. intros Ha. apply kept_same. by intros s ? ? [= <- <-]. Qed.
Lemma kept_panic {A} (Q : A → Prop) : kept Q panic.
Proof using Type. by intros s a s'. Qed.
Lemma kept_log ev : kept_ (Engine.log ev).
Proof using Type. apply kept_same. by intros s a s' [= <- <-]. Qed.
Lemma kept_clock : kept_ clock_now.
Proof using Type. apply kept_same. by intros s a s' [= <- <-]. Qed.
Lemma kept_IntN k : kept_ (IntN k).
Proof using Type. apply kept_same. unfold IntN. intros s a s'. destruct (k <=? 0); [done|]. by intros [= <- <-]. Qed.
Lemma kept_get_cache : kept_ get_cache.
Proof using Type. apply kept_same. by intros s a s' [= <- <-]. Qed.
Lemma kept_put_cache c : kept_ (put_cache c).
Proof using Type. apply kept_same. by intros s a s' [= <- <-]. Qed.
Lemma kept_deref q : kept proper (Engine.deref q).
Proof using Type.
  unfold Engine.deref. intros s a s' Hs. destruct (rcs (plug s) !! q) as [rc|] eqn:E; [|done]. intros [= <- <-]. split; [done|].
  by apply (sound_proper _ _ _ _ _ Hs q).
Qed.
Lemma kept_store q rc : proper rc → kept_ (store_rc q rc).
Proof using Type.
  intros Hrc s a s' [HD Hp He] [= <- <-]. split; [|done].
  split; cbn; [rewrite dom_insert_L; by apply union_subseteq_r'|by apply map_Forall_insert_2|done].
Qed.
Lemma kept_hook {A} (m : ST (PWorld Whole) A) : steps m → kept (λ a, ∃ w, a = (m w).1) (run_hook m).
Proof using Type.
  intros Hm s a s' Hs. unfold run_hook. specialize (Hm _ Hs). destruct (m (plug s)) as [b w] eqn:E. intros [= <- <-]. cbn in Hm.
  split; [done|]. exists (plug s). by rewrite E.
Qed.
Lemma kept_hook_ {A} (m : ST (PWorld Whole) A) : steps m → kept_ (run_hook m).
Proof using Type. intros Hm s a s' Hs Hr. by destruct (kept_hook m Hm _ _ _ Hs Hr). Qed.
Lemma kept_ext {A} (m : ST Whole A) : tame m → kept_ (run_ext m).
Proof using Type.
  intros Hm s a s' [HD Hp He]. unfold run_ext. specialize (Hm _ He). destruct (m (ext (plug s))) as [b x]. intros [= <- <-].
  split; [|done]. by split.
Qed.
End hooks.
End calm.

#[export] Hint Resolve kept_panic kept_log kept_clock kept_IntN kept_get_cache kept_put_cache : sent.

(** [kept_tac] follows the structure of a method that runs no hook. *)
Ltac kept_tac :=
  repeat first
    [ solve [auto with sent]
    | apply kept_ret; solve [done]
    | apply kept_bind_; [|intros ?]
    | match goal with |- kept _ _ _ _ (match ?x with _ => _ end) => destruct x end
    | match goal with |- kept _ _ _ _ (let '_ := ?x in _) => destruct x end ].

Section engine.
Context {F : Type} `{Num F} {W : Type} `{Extism W} `{Strconv} `{Ambient}.
Context {N : Type} `{Net N} `{Aws N} {C : Type} `{Cache C}.
#[local] Abbreviation Whole := (@Whole F W N).
Context (cvt : float64 → Z) (configs : plugin_configs) (wasm : list WASMPluginConfig) (p : ptr).
Context (e : Engine Whole positive).
Context (Hchain : e.(chain) = Some (lift_manager (register_plugins configs wasm))).
Context (Hreg : ∀ name q, e.(registry) !! name = Some q → ∃ q0, q = lift_provider q0).
#[local] Abbreviation kept := (kept (F := F) (W := W) (N := N) (C := C) configs wasm p).
#[local] Abbreviation kept_ m := (kept (λ _, True) m).

Lemma set_provider_proper name rc : proper rc → proper (rc_set_provider name rc).
Proof using Type. by intros []. Qed.
Lemma set_model_proper model body rc : proper rc → proper (rc_set_model_body model body rc).
Proof using Type. by intros []. Qed.
Lemma set_metadata_proper md rc : proper rc → proper (rc_set_metadata md rc).
Proof using Type. intros []. split; [done|by eexists]. Qed.

(** A change of a request that is read first. *)
Lemma kept_update {B} (Q : B → Prop) q (k : RequestContext → EM Whole C B) : (∀ rc, proper rc → kept Q (k rc)) → kept Q (rc ← Engine.deref q; k rc).
Proof using Type. intros Hk. eapply kept_bind; [apply kept_deref|done]. Qed.

Lemma kept_set_provider pctx name : kept_ (set_provider pctx name).
Proof using Type. unfold set_provider. destruct pctx; [|kept_tac]. apply kept_update. intros rc Hrc. by apply kept_store, set_provider_proper. Qed.

Lemma kept_backoff k attempt : kept_ (if 0 <? k then backoff cvt e.(st) attempt else mret tt).
Proof using Type. unfold backoff. kept_tac. Qed.
Lemma kept_selectKey name model : kept_ (selectKey e.(st) name model).
Proof using Type. unfold selectKey. kept_tac. Qed.
Lemma kept_auth q name model h : kept_ (auth_headers e q name model h).
Proof using Type.
  unfold auth_headers. case_decide; [kept_tac|]. apply kept_bind_; [apply kept_selectKey|]. intros key. kept_tac.
Qed.

Lemma kept_pre_hooks ctx model body : GetRequestContext ctx = Some p → kept (λ x, x.1.1 = Some p) (pre_hooks e ctx model body).
Proof using Hchain.
  intros Hp. unfold pre_hooks. rewrite Hchain, Hp. apply (kept_bind _ _ _ (λ q, q = p)).
  - apply kept_update. intros rc Hrc. apply kept_bind_; [by apply kept_store, set_model_proper|]. intros []. by apply kept_ret.
  - intros q ->. eapply kept_bind; [apply kept_hook, pre_llm_steps|]. intros q (w & ->). rewrite pre_llm_same.
    apply kept_update. intros rc _. by apply kept_ret.
Qed.

Lemma kept_post_hooks resp : kept_ (post_hooks e (Some p) resp).
Proof using Hchain.
  unfold post_hooks. rewrite Hchain. apply kept_bind_; [apply kept_hook_, post_llm_steps|]. intros x. kept_tac.
Qed.

Lemma kept_cache_lookup pctx names body : kept_ (cache_lookup pctx names body).
Proof using Type.
  unfold cache_lookup. apply kept_bind_; [kept_tac|]. intros [c|]; [|kept_tac]. destruct (negb _); [kept_tac|]. destruct names as [|first names]; [kept_tac|].
  apply kept_bind_; [kept_tac|]. intros t. destruct (Get _ t c) as [cached c']. apply kept_bind_; [kept_tac|]. intros [].
  destruct cached as [text|]; [|kept_tac]. apply kept_bind_; [|intros []; kept_tac]. destruct pctx as [q|]; [|kept_tac].
  apply kept_update. intros rc Hrc. apply kept_bind_; [by apply kept_store, set_provider_proper|]. intros [].
  apply kept_update. intros rc' Hrc'. destruct (rc_Metadata rc'); [|kept_tac]. by apply kept_store, set_metadata_proper.
Qed.
Lemma kept_cache_store name body resp : kept_ (cache_store e name body resp).
Proof using Type. unfold cache_store. kept_tac. Qed.

Lemma kept_attempts {R : Type} (body : Z → EM Whole C (Engine.step R)) : (∀ a, kept_ (body a)) → ∀ k a last, kept_ (attempt_loop k a body last).
Proof using Type.
  intros Hb k. induction k as [|k IH]; intros a last; cbn [attempt_loop]; [kept_tac|].
  apply kept_bind_; [apply Hb|]. intros [r err|err|err]; [kept_tac|apply IH|kept_tac].
Qed.
Lemma kept_providers {R : Type} (try : string → option gerror → EM Whole C (outcome_of R)) :
  (∀ name last, kept_ (try name last)) → ∀ names last, kept_ (provider_loop names try last).
Proof using Type.
  intros Ht names. induction names as [|name names IH]; intros last; cbn [provider_loop]; [kept_tac|].
  apply kept_bind_; [apply Ht|]. intros [r err|last']; [kept_tac|apply IH].
Qed.
Lemma kept_with_provider {R : Type} name (k : Provider Whole positive → EM Whole C (outcome_of R)) :
  (∀ q, kept_ (k (lift_provider q))) → kept_ (with_provider e name k).
Proof using Hreg.
  intros Hk. unfold with_provider, RegistryGet. destruct (registry e !! name) as [q|] eqn:Hq; [|kept_tac].
  destruct (Hreg _ _ Hq) as [q0 ->]. apply Hk.
Qed.
#[local] Hint Resolve kept_set_provider kept_backoff kept_selectKey kept_auth kept_post_hooks kept_cache_lookup kept_cache_store : sent.

(** A call of a provider in an attempt. *)
Lemma kept_call {A B} ev (m : ST (Up N) A) (k : A → EM Whole C B) : (∀ a, kept_ (k a)) →
  kept_ (Engine.log ev;; r ← run_ext (on_up m); k r).
Proof using Type. intros Hk. apply kept_bind_; [kept_tac|]. intros []. apply kept_bind_; [apply kept_ext, tame_up|done]. Qed.

Lemma kept_Dispatch ctx body : GetRequestContext ctx = Some p → kept_ (Dispatch cvt e ctx body).
Proof using Hchain Hreg.
  intros Hp. unfold Dispatch. destruct (parseAndRoute _ _) as [err|[req names]]; [kept_tac|].
  destruct (enforceScopes _ _ _) as [err|names']; [kept_tac|]. eapply kept_bind; [by apply kept_pre_hooks|].
  intros [[pctx body'] model] Hctx. cbn in Hctx. subst pctx. apply kept_bind_; [kept_tac|].
  intros [resp|]; [kept_tac|]. apply kept_providers. intros name last. apply kept_with_provider. intros q.
  apply kept_attempts. intros a. unfold chat_attempt. apply kept_bind_; [kept_tac|]. intros []. apply kept_bind_; [kept_tac|].
  intros key. apply kept_call. intros [err|resp]; kept_tac.
Qed.

Lemma kept_DispatchStream ctx body : GetRequestContext ctx = Some p → kept_ (DispatchStream cvt e ctx body).
Proof using Hchain Hreg.
  intros Hp. unfold DispatchStream. destruct (parseAndRoute _ _) as [err|[req names]]; [kept_tac|].
  destruct (enforceScopes _ _ _) as [err|names']; [kept_tac|]. eapply kept_bind; [by apply kept_pre_hooks|].
  intros [[pctx body'] model] Hctx. cbn in Hctx. subst pctx.
  apply kept_providers. intros name last. apply kept_with_provider. intros q.
  apply kept_attempts. intros a. unfold stream_attempt. apply kept_bind_; [kept_tac|]. intros []. apply kept_bind_; [kept_tac|].
  intros key. apply kept_call. intros [err|resp]; kept_tac.
Qed.

Lemma kept_DispatchEmbeddings ctx body : kept_ (DispatchEmbeddings cvt e ctx body).
Proof using Hreg.
  unfold DispatchEmbeddings. destruct (Unmarshal _ _ _) as [partial [|]]; [|kept_tac].
  case_decide; [kept_tac|]. case_decide; [kept_tac|]. destruct (enforceScopes _ _ _) as [err|names']; [kept_tac|].
  apply kept_providers. intros name last. apply kept_with_provider. intros q. cbn [lift_provider Embeddings].
  destruct (Embeddings q) as [f|]; cbn [fmap option_fmap option_map]; [|kept_tac].
  apply kept_attempts. intros a. unfold embed_attempt. apply kept_bind_; [kept_tac|]. intros []. apply kept_bind_; [kept_tac|].
  intros key. apply kept_call. intros [err|resp]; kept_tac.
Qed.

Lemma kept_DispatchNative ctx body h : GetRequestContext ctx = Some p → kept_ (DispatchAnthropicNative cvt e ctx body h).
Proof using Hreg.
  intros Hp. unfold DispatchAnthropicNative. rewrite Hp. destruct (Unmarshal _ _ _) as [partial [|]]; [|kept_tac].
  case_decide; [kept_tac|]. case_decide; [kept_tac|]. destruct (enforceScopes _ _ _) as [err|names']; [kept_tac|].
  apply kept_bind_; [apply kept_update; intros rc Hrc; by apply kept_store, set_model_proper|]. intros [].
  apply kept_providers. intros name last. apply kept_with_provider. intros q. cbn [lift_provider HandleAnthropicNative].
  destruct (HandleAnthropicNative q) as [f|]; cbn [fmap option_fmap option_map]; [|kept_tac].
  apply kept_attempts. intros a. unfold native_attempt. apply kept_bind_; [kept_tac|]. intros []. apply kept_bind_; [kept_tac|].
  intros hd. apply kept_call. intros [err|resp]; kept_tac.
Qed.

Lemma kept_DispatchPassthrough ctx name method path body h : kept_ (DispatchPassthrough e ctx name method path body h).
Proof using Hreg.
  unfold DispatchPassthrough, RegistryGet. destruct (registry e !! name) as [q|] eqn:Hq; [|kept_tac].
  destruct (negb _); [kept_tac|]. apply kept_bind_; [kept_tac|]. intros hd. destruct (Hreg _ _ Hq) as [q0 ->].
  apply kept_bind_; [kept_tac|]. intros []. apply kept_ext, tame_up.
Qed.
End engine.

(** ** The handlers *)

Section logic.
Context {F : Type} `{Num F} {W : Type} `{Extism W} `{Strconv} `{Ambient} {N C : Type}.
#[local] Abbreviation Whole := (@Whole F W N).
Context (configs : plugin_configs) (wasm : list WASMPluginConfig) (D : gset ptr).
#[local] Abbreviation good t := (good configs wasm D t.(t_env).(plug)).

Definition hkept {A} (Q : A → Prop) (m : TM Whole C A) : Prop := ∀ t a t', good t → m t = Ret (a, t') → good t' ∧ Q a.

Lemma hkept_bind {A B} (Q1 : A → Prop) (Q : B → Prop) (m : TM Whole C A) f : hkept Q1 m → (∀ a, Q1 a → hkept Q (f a)) → hkept Q (m ≫= f).
Proof using Type.
  intros Hm Hf t b t2 Ht (a & t1 & E1 & E2)%TM_bind_inv. destruct (Hm _ _ _ Ht E1) as [Ht1 HQ]. by apply (Hf a HQ t1).
Qed.
Lemma hkept_bind_ {A B} (Q : B → Prop) (m : TM Whole C A) f : hkept (λ _, True) m → (∀ a, hkept Q (f a)) → hkept Q (m ≫= f).
Proof using Type. intros Hm Hf. eapply hkept_bind; [exact Hm|auto]. Qed.
Lemma hkept_env {A} (m : TM Whole C A) : (∀ t a t', m t = Ret (a, t') → t'.(t_env) = t.(t_env)) → hkept (λ _, True) m.
Proof using Type. intros Hm t a t' Ht Hr. by rewrite (Hm _ _ _ Hr). Qed.
Lemma hkept_ret {A} (a : A) : hkept (λ _, True) (mret a).
Proof using Type. apply hkept_env. by intros t ? ? [= _ <-]. Qed.
Lemma hkept_panic {A} (Q : A → Prop) : hkept Q tpanic.
Proof using Type. by intros t a t'. Qed.
Lemma hkept_keys {A} (m : ST World A) : hkept (λ _, True) (keys_run m).
Proof using Type. apply hkept_env. unfold keys_run. intros t a t'. destruct (m _). by intros [= _ <-]. Qed.
Lemma hkept_spawn j : hkept (λ _, True) (spawn j).
Proof using Type. apply hkept_env. by intros t a t' [= _ <-]. Qed.
Lemma hkept_outcome {A} (o : outcome A) : hkept (λ _, True) (lift_outcome o).
Proof using Type. apply hkept_env. unfold lift_outcome. intros t a t'. destruct o; [by intros [= _ <-]|done]. Qed.
Lemma hkept_WriteHeader code : hkept (λ _, True) (WriteHeader code).
Proof using Type. unfold WriteHeader. destruct (in_range _ _ _); [apply hkept_ret|apply hkept_panic]. Qed.
Lemma hkept_send r : hkept (λ _, True) (send r).
Proof using Type. apply hkept_bind_; [apply hkept_WriteHeader|]. intros []. apply hkept_ret. Qed.
End logic.

#[export] Hint Resolve hkept_ret hkept_panic hkept_keys hkept_spawn hkept_outcome hkept_WriteHeader hkept_send : sent.

Section handlers.
Context {F : Type} `{Num F} {W : Type} `{Extism W} `{Strconv} `{Ambient}.
Context {N : Type} `{Net N} `{Aws N} {C : Type} `{Cache C}.
#[local] Abbreviation Whole := (@Whole F W N).
Context (cvt : float64 → Z) (configs : plugin_configs) (wasm : list WASMPluginConfig) (can_flush can_deadline : bool).
Context (s : Transport.Server Whole positive).
Context (Hsv : s.(sv_chain) = Some (lift_manager (register_plugins configs wasm))).
Context (Hchain : s.(sv_engine).(chain) = Some (lift_manager (register_plugins configs wasm))).
Context (Hreg : ∀ name q, s.(sv_engine).(registry) !! name = Some q → ∃ q0, q = lift_provider q0).
#[local] Abbreviation hkept D m := (hkept (F := F) (W := W) (N := N) (C := C) configs wasm D (λ _, True) m).

Lemma hkept_engine_ p {A} (Q : A → Prop) (m : EM Whole C A) : kept configs wasm p Q m → Calm.hkept configs wasm {[p]} Q (engine_run m).
Proof using Type.
  intros Hm t a t' Ht. unfold engine_run. destruct (m (t_env t)) as [[b s']|] eqn:E; [|done]. intros [= <- <-]. by apply (Hm _ _ _ Ht E).
Qed.

Ltac hkept_tac :=
  repeat first
    [ solve [auto with sent]
    | apply hkept_engine_; solve [auto with sent]
    | apply hkept_bind_; [|intros ?]
    | match goal with |- Calm.hkept _ _ _ _ (match ?x with _ => _ end) => destruct x end
    | match goal with |- Calm.hkept _ _ _ _ (let '_ := ?x in _) => destruct x end ].

(** A new request is known from then on. *)
Lemma new_context_good {A} r name body (k : ptr → TM Whole C A) : (∀ p, hkept {[p]} (k p)) → hkept ∅ (p ← new_context r name body; k p).
Proof using Type.
  intros Hk t a t' Ht (p & t1 & E1 & E2)%TM_bind_inv. unfold new_context in E1. apply TM_bind_inv in E1 as (now & t2 & E1 & E3).
  unfold engine_run in E1, E3. cbn in E1. injection E1 as <- <-. cbn in E3. injection E3 as <- <-.
  apply Hk in E2 as [[_ Hp He] _]; [by split; [split; [apply empty_subseteq|..]|]|]. destruct Ht as [_ Hp He].
  split; cbn; [|apply map_Forall_insert_2; [|done]|done]; [|split; by eexists].
  rewrite dom_insert_L. apply union_subseteq_l.
Qed.

Section known.
Context (p : ptr).

Lemma hkept_deref q : Calm.hkept (F := F) (W := W) (C := C) (N := N) configs wasm {[p]} proper (engine_run (Engine.deref q)).
Proof using Type. apply hkept_engine_, kept_deref. Qed.
Lemma hkept_deref_ q : hkept {[p]} (engine_run (Engine.deref q)).
Proof using Type. intros t a t' Ht Hr. by destruct (hkept_deref q _ _ _ Ht Hr). Qed.
#[local] Hint Resolve hkept_deref_ : sent.

Lemma hkept_run_pre body : hkept {[p]} (run_pre s p body).
Proof using Hsv.
  unfold run_pre. rewrite Hsv. apply hkept_bind_; [apply hkept_engine_, kept_hook_, pre_steps|]. intros []. hkept_tac.
Qed.
Lemma hkept_run_post : hkept {[p]} (run_post s p).
Proof using Hsv. unfold run_post. rewrite Hsv. apply hkept_engine_, kept_hook_, post_steps. Qed.
Lemma hkept_emitTrace r status streaming err : hkept {[p]} (emitTrace s p r status streaming err).
Proof using Type. unfold emitTrace. clear Hsv. hkept_tac. Qed.
Lemma hkept_set_response_body body : hkept {[p]} (set_response_body p body).
Proof using Type.
  eapply hkept_bind; [apply hkept_deref|]. intros rc Hrc. destruct (rc_Metadata rc); [|hkept_tac].
  by apply hkept_engine_, kept_store, set_metadata_proper.
Qed.
Lemma hkept_track r stream pt ct : hkept {[p]} (track s r p stream pt ct).
Proof using Type. unfold track. hkept_tac. Qed.
Lemma hkept_extend window disabled : hkept {[p]} (extend can_deadline window disabled).
Proof using Type. unfold extend. hkept_tac. Qed.
#[local] Hint Resolve hkept_run_pre hkept_run_post hkept_emitTrace hkept_set_response_body hkept_track hkept_extend : sent.
Lemma hkept_deadline : hkept {[p]} (newStreamDeadline can_deadline s).
Proof using Type. unfold newStreamDeadline. hkept_tac. Qed.
Lemma hkept_failed r streaming err : hkept {[p]} (dispatch_failed s r p streaming err).
Proof using Type. unfold dispatch_failed. hkept_tac. Qed.
Lemma hkept_relay_response resp : hkept {[p]} (relay_response p resp).
Proof using Type. unfold relay_response. hkept_tac. Qed.
#[local] Hint Resolve hkept_deadline hkept_failed hkept_relay_response : sent.

Lemma hkept_relay fuel stream : ∀ sink disabled outs, hkept {[p]} (relay StreamNext can_deadline fuel s p stream sink disabled outs).
Proof using Hsv.
  induction fuel as [|fuel IH]; intros sink disabled outs; cbn [relay]; [hkept_tac|].
  apply hkept_bind_; [apply hkept_engine_, kept_ext, tame_next|]. intros [chunk| |err]; [|hkept_tac..]. rewrite Hsv.
  apply hkept_bind_; [apply hkept_engine_, kept_hook_, chunk_steps|]. intros chunk'. hkept_tac.
Qed.

Lemma hkept_handleStream fuel r body : hkept {[p]} (handleStream cvt StreamNext can_flush can_deadline fuel s r body p).
Proof using Hsv Hchain Hreg.
  unfold handleStream. destruct (negb can_flush); [hkept_tac|]. apply hkept_bind_; [hkept_tac|]. intros body'.
  apply hkept_bind_; [by apply hkept_engine_, kept_DispatchStream|]. intros [[stream|] [err|]]; [hkept_tac| |hkept_tac..].
  apply hkept_bind_; [hkept_tac|]. intros rc. apply hkept_bind_; [hkept_tac|]. intros d.
  apply hkept_bind_; [apply hkept_relay|]. intros [[e sink] outs]. hkept_tac.
Qed.

Lemma hkept_copy flush window pieces : ∀ disabled outs, hkept {[p]} (copy can_deadline flush window pieces disabled outs).
Proof using Type.
  unfold copy, client_write. induction pieces as [|piece pieces IH]; intros disabled outs; [hkept_tac|].
  destruct (decide _); [apply IH|]. hkept_tac.
Qed.

Lemma hkept_copy_tee flush window sink_id pieces : ∀ disabled sink outs,
  hkept {[p]} (copy_tee BodyWrite can_deadline flush window sink_id pieces disabled sink outs).
Proof using Type.
  unfold copy_tee, client_write. induction pieces as [|piece pieces IH]; intros disabled sink outs; [hkept_tac|].
  destruct (decide _); [apply IH|]. apply hkept_bind_; [hkept_tac|]. intros w.
  apply hkept_bind_; [|intros [|]; hkept_tac]. destruct sink_id; [apply hkept_engine_, kept_ext, tame_write|hkept_tac].
Qed.

Lemma hkept_relay_messages r resp : hkept {[p]} (relay_messages BodyWrite can_flush can_deadline s r p resp).
Proof using Type.
  unfold relay_messages. apply hkept_bind_; [hkept_tac|]. intros rc. apply hkept_bind_; [hkept_tac|]. intros [].
  destruct (isSSEResponse resp); [|hkept_tac]. apply hkept_bind_; [hkept_tac|]. intros d. apply hkept_bind_; [hkept_tac|].
  intros rc'. apply hkept_bind_; [apply hkept_copy_tee|]. intros [sink outs]. hkept_tac.
Qed.

(** What follows the pre-hooks. *)
Lemma after_pre body (k : slice → TM Whole C answer) : (∀ b, hkept {[p]} (k b)) →
  hkept {[p]} (pre ← run_pre s p body; match pre with inl rep => send rep | inr b => k b end).
Proof using Hsv. intros Hk. apply hkept_bind_; [apply hkept_run_pre|]. intros [rep|b]; [hkept_tac|apply Hk]. Qed.

End known.
#[local] Hint Resolve hkept_deref_ hkept_run_post hkept_emitTrace hkept_set_response_body hkept_track : sent.
#[local] Hint Resolve hkept_deadline hkept_failed hkept_relay_response : sent.

Lemma good_chat fuel r : hkept ∅ (handleChatCompletions cvt StreamNext can_flush can_deadline fuel s r).
Proof using Hsv Hchain Hreg.
  unfold handleChatCompletions. destruct (readLimitedBody _ _) as [rep|data]; [hkept_tac|].
  apply new_context_good. intros p. apply after_pre. intros body. destruct (isStreamRequest _); [apply hkept_handleStream|].
  apply hkept_bind_; [by apply hkept_engine_, kept_Dispatch|]. intros [[resp|] [err|]]; hkept_tac.
Qed.
Lemma good_embeddings r : hkept ∅ (handleEmbeddings cvt s r).
Proof using Hsv Hreg.
  unfold handleEmbeddings. destruct (readLimitedBody _ _) as [rep|data]; [hkept_tac|].
  apply new_context_good. intros p. apply after_pre. intros body.
  apply hkept_bind_; [by apply hkept_engine_, kept_DispatchEmbeddings|]. intros [[resp|] [err|]]; hkept_tac.
Qed.
Lemma good_messages r : hkept ∅ (handleAnthropicMessages cvt BodyWrite can_flush can_deadline s r).
Proof using Hsv Hreg.
  unfold handleAnthropicMessages. destruct (readLimitedBody _ _) as [rep|data]; [hkept_tac|].
  apply new_context_good. intros p. apply after_pre. intros body.
  apply hkept_bind_; [by apply hkept_engine_, kept_DispatchNative|]. intros [[resp|] [err|]]; [hkept_tac| |hkept_tac..].
  apply hkept_bind_; [hkept_tac|]. intros []. apply hkept_bind_; [hkept_tac|]. intros []. apply hkept_relay_messages.
Qed.
Lemma good_passthrough r provider path : hkept ∅ (handleNativePassthrough can_flush can_deadline s r provider path).
Proof using Hsv Hreg.
  unfold handleNativePassthrough. apply new_context_good. intros p. apply after_pre. intros body.
  apply hkept_bind_; [by apply hkept_engine_, kept_DispatchPassthrough|]. intros [err|resp]; [hkept_tac|].
  do 4 (apply hkept_bind_; [hkept_tac|]; intros ?). apply hkept_bind_; [apply hkept_copy|]. intros outs. hkept_tac.
Qed.

Lemma good_tracking next r : (∀ r', hkept ∅ (next r')) → hkept ∅ (withAppKeyTracking s next r).
Proof using Type.
  intros Hn. unfold withAppKeyTracking. destruct (decide _); [destruct (appKeyRequire _); [hkept_tac|by apply Hn]|].
  destruct (negb _); [hkept_tac|]. apply hkept_bind_; [hkept_tac|]. intros [record|]; [|by apply Hn].
  apply hkept_bind_; [hkept_tac|]. intros active. destruct (negb active); [hkept_tac|apply Hn].
Qed.

(** Serving a request keeps the plugins calm. *)
Lemma good_served fuel metrics rest path r : (∀ ep r', hkept ∅ (rest ep r')) →
  hkept ∅ (ServeHTTP cvt StreamNext BodyWrite can_flush can_deadline fuel s metrics rest path r).
Proof using Hsv Hchain Hreg.
  intros Hrest. unfold ServeHTTP. destruct (route _ _ _ _) as [code|ep]; [hkept_tac|].
  assert (∀ h, (∀ r', hkept ∅ (h r')) → hkept ∅ ((if sv_store s then withAppKeyTracking s h else h) r)) as Hw.
  { intros h Hh. destruct (sv_store s); [by apply good_tracking|by apply Hh]. }
  destruct ep; try apply Hrest; try apply Hw.
  - intros. apply good_chat.
  - intros. apply good_embeddings.
  - intros. apply good_messages.
  - apply hkept_send.
  - apply hkept_send.
  - apply good_passthrough.
Qed.
End handlers.

(** ** The running program *)

Section chunks.
Context {F : Type} `{Num F} {W : Type} `{Extism W} `{Strconv} `{Ambient}.
Context {N : Type} `{Net N}.
#[local] Abbreviation Whole := (@Whole F W N).
Context (configs : plugin_configs) (wasm : list WASMPluginConfig).

(** The stream hook of a plugin hands on the chunk that it is given. *)
Definition passes_chunks (q : Plugin (@Plugged F W)) : Prop :=
  ∀ t c chunk w, pl_transport q = Some t → (StreamChunk t c chunk w).1 = inr chunk.

Lemma log_passes : passes_chunks log_plugin.
Proof using Type.
  intros t c chunk w [= <-]. cbn [StreamChunk]. unfold on_request. destruct (rcs w !! c) as [rc|]; [|done].
  unfold LogStreamChunk. by destruct (body_buf rc).
Qed.
Lemma all_pass : Forall passes_chunks (all_plugins configs wasm).
Proof using Type.
  unfold all_plugins, builtin_plugins, when_configured. rewrite !Forall_app. split_and!.
  - case_match; [|done]. constructor; [by intros t ??? [= <-]|done].
  - case_match; [|done]. constructor; [apply log_passes|done].
  - case_match; [|done]. by constructor.
  - case_match; [|done]. constructor; [by intros t ??? [= <-]|done].
  - apply Forall_lookup_2. intros i q Hi. rewrite list_lookup_imap in Hi. destruct (wasm !! i); [|done].
    injection Hi as <-. by intros t ??? [= <-].
Qed.

Lemma hooks_pass c ps : Forall passes_chunks ps → ∀ chunk (w : PWorld Whole),
  ∃ w', stream_chunk c (lift_transport <$> omap pl_transport ps) chunk w = (chunk, w') ∧ wh_up (ext w') = wh_up (ext w).
Proof using Type.
  induction 1 as [|q ps Hq _ IH]; intros chunk w; [by exists w|]. cbn [omap list_omap].
  destruct (pl_transport q) as [t|] eqn:Ht; [|apply IH]. cbn [fmap list_fmap stream_chunk].
  rewrite ST_bind_unfold. cbn [lift_transport StreamChunk]. unfold on_plugged. set (w0 := mkPWorld _ _).
  pose proof (Hq t c chunk w0 Ht) as E. destruct (StreamChunk t c chunk w0) as [r w1]. cbn [fst snd] in *. subst r.
  set (w2 := mkPWorld (rcs w1) _). destruct (IH chunk w2) as (w' & Hw & Hu). by exists w'; rewrite Hu.
Qed.

Lemma chain_passes c chunk (w : PWorld Whole) :
  ∃ w', RunStreamChunk (lift_manager (register_plugins configs wasm)) c chunk w = (chunk, w') ∧ wh_up (ext w') = wh_up (ext w).
Proof using Type.
  unfold RunStreamChunk. cbn [lift_manager m_transport]. destruct (registered (F := F) (N := W) configs wasm) as (_ & -> & _).
  rewrite <-fmap_reverse, omap_reverse. apply hooks_pass, Forall_reverse, all_pass.
Qed.

(** So a stream that yields chunks is handed on chunk by chunk. *)
Lemma yields_handed s p stream u cs u' :
  s.(sv_chain) = Some (lift_manager (register_plugins configs wasm)) → yields Upstream.Next stream u cs u' →
  ∀ w : PWorld Whole, wh_up (ext w) = u →
  ∃ w', handed StreamNext s p stream w ((λ c, (c, c)) <$> cs) w' ∧ wh_up (ext w') = u'.
Proof using Type.
  intros Hs. induction 1 as [u u' Hn|u c u1 cs u' Hn _ IH]; intros w Hw.
  - eexists. split; [apply handed_end with (x' := mkWhole (wh_plugins (ext w)) u')|done].
    unfold StreamNext, on_up. by rewrite Hw, Hn.
  - destruct (chain_passes p c (mkPWorld (rcs w) (mkWhole (wh_plugins (ext w)) u1))) as (w1 & Hc & Hu).
    destruct (IH w1 Hu) as (w' & Hh & Hw'). exists w'. split; [|done]. cbn [fmap list_fmap]. eapply handed_chunk; [| |exact Hh].
    + unfold StreamNext, on_up. by rewrite Hw, Hn.
    + unfold hand_on. by rewrite Hs.
Qed.
End chunks.

Section running.
Context {F : Type} `{Num F} {W : Type} `{Extism W} `{Strconv} `{Ambient}.
Context {N : Type} `{Net N} `{Aws N} {R : Type} `{RedisServer R} `{Storage}.
Context (cvt : float64 → Z) (UnmarshalTime : string → option Z) (yaml : string → option Config) (env : gmap string string).
#[local] Abbreviation Running := (@Running F W N R).
#[local] Abbreviation runs := (runs cvt UnmarshalTime yaml env).
#[local] Abbreviation pstep := (pstep cvt UnmarshalTime yaml env).
Implicit Types P : Running.

Lemma mirrors_close ps : mirrors (close_all ps) (close_all (lift_plugin (N := N) <$> ps : list (Plugin (@Whole F W N)))).
Proof using Type.
  induction ps as [|t ps IH]; cbn [fmap list_fmap close_all]; [apply mirrors_ret|]. by apply mirrors_bind; [apply mirrors_lift|].
Qed.

Section steps.
Context (c : Config) (configs : plugin_configs) (store : bool) (reg : Registry (Up N) positive).
#[local] Abbreviation m := (register_plugins (F := F) (N := W) configs c.(WASMPlugins)).
#[local] Abbreviation calm P := (good configs c.(WASMPlugins) ∅ P.(ru_state).(t_env).(plug)).

Lemma serve_calm P cn path r a t' : intact c store reg m P → calm P →
  serve cvt UnmarshalTime P cn path r P.(ru_state) = Ret (a, t') → calm (settle P t').
Proof using Type.
  intros [H1' H2' H3' _ _] Hc Hr. apply (good_served cvt configs c.(WASMPlugins) cn.(cn_flush) cn.(cn_deadline) P.(ru_server) H1' H2') in Hr as [Hg _];
    [exact Hg| | |exact Hc].
  - intros name q. rewrite H3', lookup_fmap. intros (q0 & _ & ->)%fmap_Some. by exists q0.
  - intros ep r'. unfold manage_route. destruct (request_of _ _ _); [|apply hkept_send]. apply hkept_bind_; [apply hkept_keys|]. intros rep. apply hkept_send.
Qed.

Lemma trace_calm P order tr rest : calm P → order ≡ₚ m_observability (lift_manager m) → calm (run_left order (JTrace tr) rest P).
Proof using Type.
  intros Hc Ho. unfold run_left. cbn. apply Permutation_map_inv in Ho as (fs & -> & Hfs).
  change (map (lift_trace (N := N)) fs) with (lift_trace (N := N) <$> fs).
  apply (mirrored configs c.(WASMPlugins) ∅ (emit_trace fs tr)); [apply mirrors_trace| |done].
  intros w Hw. by apply (run_call_sound configs c.(WASMPlugins) ∅ (CTrace tr fs) w).
Qed.

Lemma step_calm P l P' : intact c store reg m P → calm P → pstep P l P' → calm P'.
Proof using Type.
  intros Hi Hc Hs. destruct Hs as [cn path r a t' _ Hr|obs|order j js1 js2 m' _ Hm Ho| |now].
  - by eapply serve_calm.
  - done.
  - rewrite (in_chain _ _ _ _ _ Hi) in Hm. injection Hm as <-. destruct j; [done|by apply trace_calm].
  - unfold flush_keys. by destruct (ru_db P).
  - destruct Hc as [HD Hp He]. split; [done..|]. apply calm_limiter; [done|]. apply cleanup_config.
Qed.
End steps.

(** C4. No plugin of the running program panics.  Whatever the configuration, the guests,
    the upstreams, the clients and the clock do, and in whatever order the program serves
    requests on any endpoint, delivers traces, reloads its configuration, flushes its keys
    and evicts buckets: the plugins are only called on requests that exist and are whole, so
    none has panicked; every WASM module is loaded and has no instance left over; and
    closing the plugins at shutdown does not panic either. *)
Theorem program_calm su c configs providers P0 ls P close_ok m :
  program su c configs providers = Some P0 → runs P0 ls P → P.(ru_server).(sv_chain) = Some m →
  let e := P.(ru_state).(t_env).(plug).(ext).(wh_plugins) in
  e.(pg_panicked) = false ∧ Forall (λ gw, is_Some gw.1.(wp_compiled) ∧ gw.2 = 0) e.(pg_wasm) ∧
  (shutdown close_ok m P).2.(ext).(wh_plugins).(pg_panicked) = false.
Proof using Type.
  intros Hp Hruns Hm. destruct (program_intact _ _ _ _ _ Hp) as (reg & m0 & w & _ & Hst & Hi & Hw).
  apply start_sound in Hst as [-> Hs]. pose proof (runs_intact _ _ _ _ _ _ _ _ _ _ _ Hruns Hi) as HiP.
  rewrite (in_chain _ _ _ _ _ HiP) in Hm. injection Hm as <-.
  assert (good configs c.(WASMPlugins) ∅ P.(ru_state).(t_env).(plug)) as Hg.
  { clear HiP. induction Hruns as [|ls l P1 P2 Hruns IH Hstep]; [rewrite Hw; by destruct w|]. eapply step_calm; [|exact IH|exact Hstep].
    by eapply runs_intact. }
  destruct Hg as [_ _ He]. pose proof He as [Hf Hc Hn Hwasm _]. split_and!; [exact Hf| |].
  - apply Forall_lookup_2. intros i [g a] Hi'. destruct (Hwasm i g a Hi') as [-> Hgw]. split; [|done].
    apply Hgw. rewrite <-Hn. by eapply lookup_lt_Some.
  - unfold shutdown, stop_program. destruct (Persist.Close _ _) as [err p]. cbn [snd].
    unfold CloseAll. cbn [lift_manager m_all]. rewrite <-fmap_reverse.
    destruct (mirrors_close (reverse (m_all (register_plugins configs c.(WASMPlugins)))) P.(ru_state).(t_env).(plug)) as [_ E].
    assert (∀ w' : PWorld (@Whole F W N), pg_panicked (wh_plugins (ext w')) = pg_panicked (ext (seen w'))) as -> by done.
    rewrite E. apply CloseAll_calm. by split.
Qed.

(** C11. The running program relays a stream faithfully.  In any reachable state of the
    program, with whatever built-in plugins and guests are configured, when the provider's
    stream yields some chunks and then ends: the relay, given more reads than there are
    chunks, comes to that end; it has written every chunk through the chain's hooks as the
    provider sent it, in order, each as one SSE frame that is flushed and has its write
    deadline set first, then the end marker; and it has counted the usage of those chunks. *)
Theorem stream_relayed su c configs providers P0 ls P can_deadline p stream u cs u' fuel sink d outs (t : TState (@Whole F W N) (backend R)) :
  program su c configs providers = Some P0 → runs P0 ls P → yields Upstream.Next stream u cs u' →
  (length cs < fuel)%nat → t.(t_env).(plug).(ext).(wh_up) = u →
  ∃ deadlines t', length deadlines = S (length cs) ∧
    relay StreamNext can_deadline fuel P.(ru_server) p stream sink d outs t =
    Ret ((RelayEOF, foldl (λ k chunk, FeedChunk k (bytes_of chunk)) sink cs,
          outs ++ concat (zip_with (frame can_deadline d) deadlines ((sse <$> cs) ++ [done_marker]))), t') ∧
    t'.(t_env).(plug).(ext).(wh_up) = u'.
Proof using Type.
  intros Hp Hruns Hy Hf Ht. destruct (program_intact _ _ _ _ _ Hp) as (reg & m0 & w & _ & Hst & Hi & _).
  apply start_sound in Hst as [-> _]. pose proof (in_chain _ _ _ _ _ (runs_intact _ _ _ _ _ _ _ _ _ _ _ Hruns Hi)) as Hs.
  destruct (yields_handed configs c.(WASMPlugins) P.(ru_server) p stream u cs u' Hs Hy _ Ht) as (w' & Hh & Hw').
  destruct (relay_handed StreamNext can_deadline _ _ _ _ _ _ Hh fuel sink d outs t) as (dls & t' & Hl & Hr & Hpl);
    [by rewrite length_fmap|done|].
  exists dls, t'. rewrite Hl, length_fmap, Hr, Hpl. split; [done|]. split; [|done].
  assert (∀ f, (∀ c, f c = c) → f <$> cs = cs) as Hid by (intros f Hf'; rewrite <-(list_fmap_id cs) at 2; by apply list_fmap_ext).
  rewrite <-!list_fmap_compose, !Hid by done. done.
Qed.
End running.

(** ** The run of the example *)

#[local] Existing Instances literal_floats demo_ambient toy_storage gate_guard gate_net gate_aws.

Lemma program_calm_witness : ∃ P0 l P m, gate_program = Some P0 ∧ runs (λ _, 0) (λ _, None) (λ _, None) ∅ P0 [l] P ∧
  P.(ru_server).(sv_chain) = Some m ∧
  P.(ru_state).(t_env).(plug).(ext).(wh_plugins).(pg_panicked) = false ∧
  Forall (λ gw, is_Some gw.1.(wp_compiled) ∧ gw.2 = 0) P.(ru_state).(t_env).(plug).(ext).(wh_plugins).(pg_wasm) ∧
  (shutdown true m P).2.(ext).(wh_plugins).(pg_panicked) = false.
Proof.
  destruct gate_run as (P0 & a & P & q & Hp & Hr & _ & _).
  destruct (program_intact _ _ _ _ _ Hp) as (reg & m & w & _ & _ & Hi & _).
  pose proof (in_chain _ _ _ _ _ (runs_intact _ _ _ _ _ _ _ _ _ _ _ Hr Hi)) as Hm.
  exists P0, (LServe gate_connection gate_path gate_request a), P, (lift_manager m). split; [exact Hp|]. split; [exact Hr|]. split; [exact Hm|].
  exact (program_calm (λ _, 0) (λ _, None) (λ _, None) ∅ gate_su gate_config demo_configs (map_to_list gate_config.(Providers)) P0
    [LServe gate_connection gate_path gate_request a] P true (lift_manager m) Hp Hr Hm).
Defined.

(** The stream of an OpenAI-compatible provider with two chunks, and the state of the run
    when it has been opened. *)
Definition two_chunks : list string := [dq "data: {'id':'1'}"; "data: {}"].
Definition two_reader : reader := NewReader (mkRespBody [String.concat Anthropic.newline_str (two_chunks ++ ["data: [DONE]"; ""])] None).
Definition two_up : Up (wired unit) := mkUp (mkWired [] tt) {[ 1%positive := SseStream two_reader ]}.
Definition with_up {F W N C} (u : Up N) (t : TState (@Whole F W N) C) : TState (@Whole F W N) C :=
  let e := t.(t_env) in
  mkT (mkEnv (mkPWorld e.(plug).(rcs) (mkWhole e.(plug).(ext).(wh_plugins) u)) e.(Engine.cache) e.(Engine.time) e.(Engine.rnd) e.(Engine.events))
    t.(t_keys) t.(t_jobs).

Lemma two_yields : ∃ u', yields Upstream.Next 1%positive two_up (Some <$> two_chunks) u'.
Proof.
  eexists. eapply yields_chunk; [vm_compute; reflexivity|]. eapply yields_chunk; [vm_compute; reflexivity|].
  apply yields_end. vm_compute. reflexivity.
Qed.

Lemma stream_relayed_witness : ∃ P0 l P u', gate_program = Some P0 ∧ runs (λ _, 0) (λ _, None) (λ _, None) ∅ P0 [l] P ∧
  yields Upstream.Next 1%positive two_up (Some <$> two_chunks) u' ∧
  ∃ deadlines t', length deadlines = 3%nat ∧
    relay StreamNext true 3 P.(ru_server) 1%positive 1%positive (mkPair 0 0) false [] (with_up two_up P.(ru_state)) =
    Ret ((RelayEOF, foldl (λ k chunk, FeedChunk k (bytes_of chunk)) (mkPair 0 0) (Some <$> two_chunks),
          concat (zip_with (frame true false) deadlines ((sse <$> (Some <$> two_chunks)) ++ [done_marker]))), t') ∧
    t'.(t_env).(plug).(ext).(wh_up) = u'.
Proof.
  destruct gate_run as (P0 & a & P & q & Hp & Hr & _ & _). destruct two_yields as (u' & Hy).
  exists P0, (LServe gate_connection gate_path gate_request a), P, u'. split; [exact Hp|]. split; [exact Hr|]. split; [exact Hy|].
  exact (stream_relayed (λ _, 0) (λ _, None) (λ _, None) ∅ gate_su gate_config demo_configs (map_to_list gate_config.(Providers)) P0
    [LServe gate_connection gate_path gate_request a] P true 1%positive 1%positive two_up (Some <$> two_chunks) u' 3 (mkPair 0 0) false []
    (with_up two_up P.(ru_state)) Hp Hr Hy ltac:(vm_compute; lia) eq_refl).
Defined.
