(* ===== verification/Revoked.v ===== *)
(** * The whole program: a revoked key stays out

    Traffic does not touch the records of the keys, the management API cannot take a
    revocation back, and a revoked key is turned away before anything runs. *)
From S2P Require Import Prelude GoStd Json JsonScan Config Token Store Usage MemoryCache Redis CacheKey Plugin Engine EngineProofs OpenAIFormat.
From S2P Require Import Management ManagementTheorems Transport Native TransportTheorems NativeTheorems Upstream Bedrock RateLimit RequestLog Observe.
From S2P Require Import Sdk Wasm GuardTheorems Persist Assembly AssemblyTheorems Startup Whole WholeTheorems.

(** ** Traffic *)

Section still.
Context {Ext C Strm : Type} `{Cache C} `{Strconv}.
Context (cvt : float64 → Z) (Next : Strm → ST Ext next_result) (SinkWrite : positive → string → ST Ext bool) (can_flush can_deadline : bool).
Context (s : Transport.Server Ext Strm).

(** The records of the keys stay as they are. *)
Definition still {A} (m : TM Ext C A) : Prop := ∀ t a t', m t = Ret (a, t') → recs t'.(t_keys) = recs t.(t_keys).

Lemma still_tspec {A} (m : TM Ext C A) Q : tspec m Q → still m.
Proof using Type. intros Hm t a t' Hr. by destruct (Hm _ _ _ Hr). Qed.
Lemma still_bind {A B} (m : TM Ext C A) (f : A → TM Ext C B) : still m → (∀ a, still (f a)) → still (m ≫= f).
Proof using Type. intros Hm Hf t b t2 (a & t1 & E1 & E2)%TM_bind_inv. rewrite (Hf _ _ _ _ E2). by eapply Hm. Qed.
Lemma still_engine {A} (m : EM Ext C A) : still (engine_run m).
Proof using Type. intros t a t'. unfold engine_run. destruct (m (t_env t)) as [[b e]|]; [|done]. by intros [= _ <-]. Qed.
Lemma still_quiet {A} (m : TM Ext C A) : quiet m → still m.
Proof using Type. apply still_tspec. Qed.
Lemma still_send r : still (send r).
Proof using Type. apply still_quiet, quiet_send. Qed.

Lemma still_chat fuel r : still (handleChatCompletions cvt Next can_flush can_deadline fuel s r).
Proof using Type. eapply still_tspec, handleChat_run. Qed.
Lemma still_embeddings r : still (handleEmbeddings cvt s r).
Proof using Type. eapply still_tspec, handleEmbeddings_run. Qed.
Lemma still_messages r : still (handleAnthropicMessages cvt SinkWrite can_flush can_deadline s r).
Proof using Type. eapply still_tspec, handleMessages_run. Qed.
Lemma still_trace p r status streaming err : still (emitTrace s p r status streaming err).
Proof using Type. eapply still_tspec, emitTrace_spec. Qed.

Lemma still_passthrough r provider path : still (handleNativePassthrough can_flush can_deadline s r provider path).
Proof using Type.
  unfold handleNativePassthrough. apply still_bind; [apply still_quiet, quiet_new_context|]. intros p.
  apply still_bind; [apply still_quiet, quiet_run_pre|]. intros [rep|body]; [apply still_send|].
  apply still_bind; [apply still_engine|]. intros [err|resp].
  - apply still_bind; [apply still_quiet, quiet_WriteHeader|]. intros []. apply still_bind; [apply still_trace|]. intros [].
    apply still_quiet, quiet_ret.
  - apply still_bind; [apply still_quiet, quiet_run_post|]. intros []. apply still_bind; [apply still_trace|]. intros [].
    apply still_bind; [apply still_quiet, quiet_WriteHeader|]. intros []. apply still_bind; [eapply still_tspec, newStreamDeadline_spec|].
    intros d. apply still_bind; [eapply still_tspec, copy_spec|]. intros outs. apply still_quiet, quiet_ret.
Qed.

Lemma still_tracking next r : (∀ r', still (next r')) → still (withAppKeyTracking s next r).
Proof using Type.
  intros Hn. unfold withAppKeyTracking. destruct (decide _); [destruct (appKeyRequire _); [apply still_send|apply Hn]|].
  destruct (negb _); [apply still_send|]. apply still_bind; [by apply still_quiet, quiet_keys|]. intros [record|]; [|apply Hn].
  apply still_bind; [apply still_quiet, quiet_keys, IsActive_recs|]. intros active. destruct (negb active); [apply still_send|apply Hn].
Qed.

(** Everything but the management API. *)
Lemma still_served fuel metrics rest path r :
  (∀ ep, route s.(sv_store) metrics r.(h_req).(rq_Method) path = inr ep → still (rest ep r)) →
  still (ServeHTTP cvt Next SinkWrite can_flush can_deadline fuel s metrics rest path r).
Proof using Type.
  intros Hrest. unfold ServeHTTP. destruct (route _ _ _ _) as [code|ep]; [apply still_send|].
  assert (∀ h, (∀ r', still (h r')) → still ((if sv_store s then withAppKeyTracking s h else h) r)) as Hw.
  { intros h Hh. destruct (sv_store s); [by apply still_tracking|apply Hh]. }
  destruct ep; try (by apply Hrest); try apply Hw.
  - intros. apply still_chat.
  - intros. apply still_embeddings.
  - intros. apply still_messages.
  - apply still_send.
  - apply still_send.
  - apply still_passthrough.
Qed.
End still.

(** ** The running program *)

Section running.
Context {F : Type} `{Num F} {W : Type} `{Extism W} `{Strconv} `{Ambient}.
Context {N : Type} `{Net N} `{Aws N} {R : Type} `{RedisServer R} `{Storage}.
Context (cvt : float64 → Z) (UnmarshalTime : string → option Z) (yaml : string → option Config) (env : gmap string string).
#[local] Abbreviation Running := (@Running F W N R).
#[local] Abbreviation runs := (runs cvt UnmarshalTime yaml env).
#[local] Abbreviation pstep := (pstep cvt UnmarshalTime yaml env).
Implicit Types P : Running.

(** A request that can end the revocation of a key: its purge, and the creation or
    rotation that draws the very same token again. *)
Definition reissues (key : string) (l : label) : Prop :=
  match l with
  | LServe cn path r _ => ∃ metrics ep q, route true metrics r.(h_req).(rq_Method) path = inr ep ∧
      request_of cn.(cn_entropy) r.(h_body) ep = Some q ∧ replaces_req key q
  | _ => False
  end.

Section key.
Context (key : string) (time : Z) (Htime : time ≠ 0).
#[local] Abbreviation dead P := (revoked_at (recs P.(ru_state).(t_keys)) key time).

Lemma manage_dead s rnd page ep r (t : TState _ _) a t' :
  (∀ q, request_of rnd r.(h_body) ep = Some q → ¬ replaces_req key q) → revoked_at (recs t.(t_keys)) key time →
  manage_route (F := F) (W := W) (N := N) (R := R) UnmarshalTime rnd page s ep r t = Ret (a, t') → revoked_at (recs t'.(t_keys)) key time.
Proof using Htime.
  intros Hq Hd. unfold manage_route. destruct (request_of rnd _ ep) as [q|]; [|intros Hr; by rewrite (still_send _ _ _ _ Hr)].
  intros (rep & t1 & E1 & E2)%TM_bind_inv. rewrite (still_send _ _ _ _ E2). unfold keys_run in E1.
  pose proof (manage_keeps_revoked UnmarshalTime s q t.(t_keys) key time Htime (Hq q eq_refl) Hd) as Hk.
  destruct (manage UnmarshalTime s q (t_keys t)) as [rep' w]. by injection E1 as <- <-.
Qed.

Lemma serve_dead P cn path r a t' : P.(ru_server).(sv_store) = true → ¬ reissues key (LServe cn path r a) → dead P →
  serve cvt UnmarshalTime P cn path r P.(ru_state) = Ret (a, t') → revoked_at (recs t'.(t_keys)) key time.
Proof using Htime.
  intros Hs Hre Hd Hr. unfold serve in Hr.
  set (rest := manage_route UnmarshalTime cn.(cn_entropy) cn.(cn_page) P.(ru_server).(sv_conf)) in Hr.
  assert ((∀ ep, route P.(ru_server).(sv_store) P.(ru_metrics) r.(h_req).(rq_Method) path = inr ep → still (rest ep r)) →
    revoked_at (recs t'.(t_keys)) key time) as Hst.
  { intros Hst. by rewrite (still_served cvt _ _ _ _ _ _ _ _ _ _ Hst _ _ _ Hr). }
  rewrite Hs in Hst. destruct (route true P.(ru_metrics) r.(h_req).(rq_Method) path) as [code|ep] eqn:Hroute; [by apply Hst|].
  destruct (request_of cn.(cn_entropy) r.(h_body) ep) as [q|] eqn:Hq.
  - clear Hst. unfold ServeHTTP in Hr. rewrite Hs, Hroute in Hr. assert (rest ep r P.(ru_state) = Ret (a, t')) as Hm by (by destruct ep).
    eapply manage_dead; [|exact Hd|exact Hm]. intros q' Hq' Hu. apply Hre. by exists P.(ru_metrics), ep, q'.
  - apply Hst. intros ep' [= <-]. unfold rest, manage_route. rewrite Hq. apply still_send.
Qed.

Lemma step_dead c store reg m P l P' : intact c store reg m P → store = true → ¬ reissues key l → dead P → pstep P l P' → dead P'.
Proof using Htime.
  intros Hi -> Hre Hd Hs. destruct Hs as [cn path r a t' _ Hr|obs|order j js1 js2 m' _ _ _| |now].
  - by apply (serve_dead P cn path r a t' (in_store _ _ _ _ _ Hi) Hre Hd Hr).
  - done.
  - destruct j as [k model stream pt ct|tr]; [|done]. by apply (run_op_keeps_revoked (ORecord k model stream pt ct)).
  - unfold flush_keys. destruct (ru_db P) as [d|]; [|done]. cbn. unfold flush. cbn [world].
    destruct (List_spec P.(ru_state).(t_keys)) as [_ E]. destruct (List_ _) as [snaps w]. destruct (Update _ _). cbn in *.
    by rewrite E.
  - done.
Qed.

Lemma runs_dead c reg m P ls P' : runs P ls P' → intact c true reg m P → Forall (λ l, ¬ reissues key l) ls → dead P → dead P'.
Proof using Htime.
  induction 1 as [|ls l P1 P2 Hruns IH Hstep]; [done|]. intros Hi [Hls Hl]%Forall_app Hd. apply list.Forall_cons in Hl as [Hl _].
  eapply step_dead; [|done|exact Hl|by apply IH|exact Hstep]. by eapply runs_intact.
Qed.
End key.

(** C2. A revoked key stays out for as long as the program runs.  From the moment its
    record carries a revocation, and whatever is served, recorded, reloaded and flushed
    after that, short of a purge of the key (or of its token being drawn again): every
    chat, embeddings or messages request that presents it is answered 401, and nothing
    else happens: no hook, no provider, no cache, no counter, no goroutine. *)
Theorem revoked_stays_out su c configs providers P0 ls1 P1 key record ls2 P2 cn path r a P3 :
  program su c configs providers = Some P0 → c.(AppKeys).(ak_Enabled) = true → runs P0 ls1 P1 →
  recs P1.(ru_state).(t_keys) !! key = Some record → record.(RevokedAt) ≠ 0 →
  runs P1 ls2 P2 → Forall (λ l, ¬ reissues key l) ls2 →
  path ∈ keyed_paths → r.(h_req).(rq_Method) = "POST" → presented P2.(ru_server) r = key → IsValid key = true →
  pstep P2 (LServe cn path r a) P3 →
  (∃ msg, a = AReply (writeError 401 msg)) ∧ P3.(ru_state).(t_env) = P2.(ru_state).(t_env) ∧
  P3.(ru_state).(t_jobs) = P2.(ru_state).(t_jobs) ∧ recs P3.(ru_state).(t_keys) = recs P2.(ru_state).(t_keys).
Proof using Type.
  intros Hp Hen H1' Hk Hrev H2' Hre Hpath Hm Hpres Hv Hs. destruct (program_intact _ _ _ _ _ Hp) as (reg & m & w & _ & _ & Hi & _).
  rewrite Hen in Hi. pose proof (runs_intact _ _ _ _ _ _ _ _ _ _ _ H1' Hi) as Hi1. pose proof (runs_intact _ _ _ _ _ _ _ _ _ _ _ H2' Hi1) as Hi2.
  destruct (runs_dead key record.(RevokedAt) Hrev _ _ _ _ _ _ H2' Hi1 Hre) as (record' & Hk' & Hrev'); [by exists record|].
  inversion Hs as [cn' path' r' a' t' _ Hr| | | |]; subst cn' path' r' a' P3. unfold serve in Hr.
  destruct (served_keyed cvt StreamNext BodyWrite cn.(cn_flush) cn.(cn_deadline) cn.(cn_reads) P2.(ru_server) P2.(ru_metrics)
    (manage_route UnmarshalTime cn.(cn_entropy) cn.(cn_page) P2.(ru_server).(sv_conf)) path r) as (next & E & _); [apply Hi2|done..|].
  unfold served in E. rewrite E in Hr.
  assert (key ≠ "") as Hne by (intros ->; discriminate Hv). subst key.
  destruct (tracking_inactive P2.(ru_server) r P2.(ru_state) record' Hne Hv Hk') as (msg & w' & Hw & Hgo).
  { unfold status_at. destruct (Z.eqb_spec record'.(RevokedAt) 0); [congruence|done]. }
  rewrite Hgo in Hr. injection Hr as <- <-. split; [by exists msg|]. by split_and!.
Qed.
End running.

(** ** A run

    The key is revoked over the API, the configuration is polled, and the key is
    presented. *)

#[local] Existing Instances literal_floats demo_ambient toy_storage gate_guard gate_net gate_aws.

Definition revoke_request : HReq := mkHReq (mkRequest "DELETE" "/v1/app-keys/b" "10.0.0.1:1" ∅) (mkBody "" false) None None.
Definition revoke_path : list string := ["v1"; "app-keys"; key_b].
Abbreviation revoke_serve P := (serve (λ _, 0) (λ _, None) P gate_connection revoke_path revoke_request P.(ru_state)).
Abbreviation polled P := (poll (λ _, None) ∅ (mkObs None None) P).

Definition revoke_check : bool :=
  match gate_program with
  | None => false
  | Some P0 =>
    match revoke_serve P0 with
    | Panic => false
    | Ret (_, t1) =>
      let P1 := settle P0 t1 in
      match recs P1.(ru_state).(t_keys) !! key_b with
      | None => false
      | Some record =>
        negb (record.(RevokedAt) =? 0) && bool_decide (presented (polled P1).(ru_server) gate_request = key_b) &&
        match gate_serve (polled P1) with Ret _ => true | Panic => false end
      end
    end
  end.
Lemma revoke_checked : revoke_check = true.
Proof. vm_compute. reflexivity. Qed.

Lemma revoked_stays_out_witness : ∃ P0 ls1 P1 record ls2 P2 a P3,
  gate_program = Some P0 ∧ runs (λ _, 0) (λ _, None) (λ _, None) ∅ P0 ls1 P1 ∧ record.(RevokedAt) ≠ 0 ∧
  runs (λ _, 0) (λ _, None) (λ _, None) ∅ P1 ls2 P2 ∧
  pstep (λ _, 0) (λ _, None) (λ _, None) ∅ P2 (LServe gate_connection gate_path gate_request a) P3 ∧
  (∃ msg, a = AReply (writeError 401 msg)) ∧ P3.(ru_state).(t_env) = P2.(ru_state).(t_env) ∧
  P3.(ru_state).(t_jobs) = P2.(ru_state).(t_jobs) ∧ recs P3.(ru_state).(t_keys) = recs P2.(ru_state).(t_keys).
Proof.
  pose proof revoke_checked as Hc. unfold revoke_check in Hc. destruct gate_program as [P0|] eqn:Hp; [|discriminate].
  destruct (revoke_serve P0) as [[a1 t1]|] eqn:H1'; [|discriminate]. cbv zeta in Hc. set (P1 := settle P0 t1) in *.
  destruct (recs P1.(ru_state).(t_keys) !! key_b) as [record|] eqn:Hk; [|discriminate].
  apply andb_true_iff in Hc as [[Hrev%negb_true_iff%Z.eqb_neq Hpres%bool_decide_eq_true_1]%andb_true_iff Hs].
  destruct (gate_serve (polled P1)) as [[a t3]|] eqn:H3'; [|discriminate].
  assert (runs (λ _, 0) (λ _, None) (λ _, None) ∅ P0 [LServe gate_connection revoke_path revoke_request a1] P1) as Hr1.
  { apply (runs_snoc _ _ _ _ P0 [] _ P0); [constructor|]. apply step_serve; [by split|exact H1']. }
  assert (runs (λ _, 0) (λ _, None) (λ _, None) ∅ P1 [LPoll (mkObs None None)] (polled P1)) as Hr2.
  { apply (runs_snoc _ _ _ _ P1 [] _ P1); [constructor|]. apply step_poll. }
  assert (pstep (λ _, 0) (λ _, None) (λ _, None) ∅ (polled P1) (LServe gate_connection gate_path gate_request a) (settle (polled P1) t3)) as Hr3.
  { apply step_serve; [by split|exact H3']. }
  assert (Forall (λ l : label, ¬ reissues key_b l) [LPoll (mkObs None None)]) as Hre by (repeat constructor; intros []).
  eexists P0, _, P1, record, _, (polled P1), a, (settle (polled P1) t3). split; [reflexivity|]. split; [exact Hr1|]. split; [exact Hrev|].
  split; [exact Hr2|]. split; [exact Hr3|].
  exact (revoked_stays_out (λ _, 0) (λ _, None) (λ _, None) ∅ gate_su gate_config demo_configs (map_to_list gate_config.(Providers)) P0 _ P1
    key_b record _ (polled P1) gate_connection gate_path gate_request a (settle (polled P1) t3) Hp eq_refl Hr1 Hk Hrev Hr2 Hre
    ltac:(left) eq_refl Hpres eq_refl Hr3).
Defined.
