(* ===== verification/RateLimitTheorems.v ===== *)
(** * What the rate limiter guarantees

    Client addresses cannot be forged past the trusted proxies; buckets do not
    interfere; in exact arithmetic a bucket admits at most its limit plus what
    time refills, and evicting idle buckets changes no answer. *)
From Stdlib Require Import QArith Qcanon Lqa.
From S2P Require Import Prelude GoStd Json Config Plugin NetIP RateLimit.
Open Scope Z_scope.

(** ** Rationals *)

Lemma Qc_of_Z_le a b : (Qc_of_Z a <= Qc_of_Z b)%Qc ↔ a <= b.
Proof.
  unfold Qc_of_Z, Qcle, Q2Qc; simpl. rewrite !Qred_correct. by rewrite <-Zle_Qle.
Qed.

(** [qc_solve] proves linear facts on canonical rationals. *)
Ltac qc_to_q :=
  repeat match goal with
  | H : (_ = _ :> Qc) |- _ => apply (f_equal this) in H
  end;
  repeat match goal with
  | |- (_ = _ :> Qc) => apply Qc_is_canon
  end;
  unfold Qcle, Qclt, Qcdiv, Qcminus, Qcplus, Qcmult, Qcopp, Qcinv, Q2Qc in *; simpl this in *;
  rewrite ?Qred_correct in *.
Ltac qc_lra := qc_to_q; lra.

(** ** Isolation *)

Section isolation.
Context {F : Type} `{Num F}.

(** Two plugins that agree on one bucket. *)
Definition agree (r : bref) (p q : RateLimiter F) : Prop :=
  same_config p q ∧ deref p r = deref q r.

Lemma step_agree r p q e :
  agree r p q → concerns p r e →
  agree r (step p e).1 (step q e).1 ∧ (step p e).2 = (step q e).2.
Proof using Type.
  intros [Hc Hr] He. destruct e as [ctx now|now]; simpl in *.
  - rewrite !PreHTTP_ref, <-(bucket_ref_config p q), He by done.
    unfold current. rewrite Hr, (ref_limit_config p q) by done.
    destruct (allow _ now) as [ok b]. simpl. rewrite (limit_message_config p q) by done.
    split; [|done]. split; [|by rewrite !deref_set_ref].
    by rewrite !set_ref_config.
  - split; [|done]. split; [by rewrite !cleanup_config|by apply deref_cleanup_agree].
Qed.

Lemma step_other r (p : RateLimiter F) e : ¬ concerns p r e → agree r (step p e).1 p.
Proof using Type.
  intros He. split; [apply step_config|].
  destruct e as [ctx now|now]; simpl in *; [|done]. rewrite PreHTTP_ref.
  destruct (bucket_ref p ctx) as [r'|]; [|done]. destruct (allow _ now) as [ok b]. simpl.
  apply deref_set_ref_ne. congruence.
Qed.

Lemma concerns_config (p q : RateLimiter F) r e : same_config p q → concerns p r e ↔ concerns q r e.
Proof using Type.
  intros Hc. destruct e; simpl; [|done]. by rewrite (bucket_ref_config p q).
Qed.

Lemma answers_agree r p q evs :
  agree r p q → answers r p evs = answers r q (filter (concerns p r) evs).
Proof using Type.
  revert p q. induction evs as [|e evs IH]; intros p q Hpq; [done|].
  rewrite filter_cons. cbn [answers].
  assert (Hf : filter (concerns p r) evs = filter (concerns (step p e).1 r) evs).
  { apply list_filter_iff. intros e'. apply concerns_config. symmetry. apply step_config. }
  destruct (decide (concerns p r e)) as [He|He].
  - destruct (step_agree r p q e Hpq He) as [Hs Ha]. cbn [answers].
    rewrite Hf. destruct (step p e) as [p' a], (step q e) as [q' a']. simpl in *. subst a'.
    rewrite (IH p' q' Hs). destruct a; [|done].
    destruct (decide (concerns q r e)) as [|Hn]; [done|].
    destruct Hn. by rewrite <-(concerns_config p q) by apply Hpq.
  - pose proof (step_other r p e He) as Ho. rewrite Hf.
    assert (Hq : agree r (step p e).1 q).
    { destruct Ho as [Ho1 Ho2], Hpq as [Hp1 Hp2]. split; [by rewrite Ho1|congruence]. }
    destruct (step p e) as [p' a]. simpl in *. rewrite (IH p' q Hq). by destruct a.
Qed.

(** Buckets are isolated: the answers to the requests counted in one bucket
    (an app key's, a client address's, the global one) are the same when every
    request counted elsewhere is taken out of the run. *)
Theorem bucket_isolation (p : RateLimiter F) (r : bref) (evs : list event) :
  answers r p evs = answers r p (filter (concerns p r) evs).
Proof using Type. by apply answers_agree. Qed.

End isolation.

(** ** Rates, in exact arithmetic *)

Lemma Qc_of_Z_add a b : Qc_of_Z (a + b) = (Qc_of_Z a + Qc_of_Z b)%Qc.
Proof. unfold Qc_of_Z. rewrite inject_Z_plus. qc_to_q. reflexivity. Qed.

Lemma Qc_of_Z_mul a b : Qc_of_Z (a * b) = (Qc_of_Z a * Qc_of_Z b)%Qc.
Proof. unfold Qc_of_Z. rewrite inject_Z_mult. qc_to_q. reflexivity. Qed.

Lemma Qc_of_Z_0 : Qc_of_Z 0 = 0%Qc.
Proof. by apply Qc_is_canon. Qed.

Lemma Qc_of_Z_1 : Qc_of_Z 1 = 1%Qc.
Proof. by apply Qc_is_canon. Qed.

Definition rate (limit : Z) : Qc := (Qc_of_Z limit / Qc_of_Z minute)%Qc.

Lemma rate_minute limit : (Qc_of_Z minute * rate limit)%Qc = Qc_of_Z limit.
Proof. unfold rate. apply Qcmult_div_r. intros E. by apply (f_equal this) in E. Qed.

Lemma rate_nonneg limit : 0 <= limit → (0 <= rate limit)%Qc.
Proof.
  intros Hl. apply (Qcmult_lt_0_le_reg_r _ _ (Qc_of_Z minute)).
  { done. }
  rewrite (Qcmult_comm (rate limit)), rate_minute, Qcmult_0_l, <-Qc_of_Z_0.
  by apply Qc_of_Z_le.
Qed.

(** More time refills proportionally more. *)
Lemma refill_mono limit d d' :
  0 <= limit → d <= d' → (Qc_of_Z d * rate limit <= Qc_of_Z d' * rate limit)%Qc.
Proof.
  intros Hl Hd. apply Qcmult_le_compat_r; [by apply Qc_of_Z_le|by apply rate_nonneg].
Qed.

Lemma refill_add limit d d' :
  (Qc_of_Z (d + d') * rate limit)%Qc = (Qc_of_Z d * rate limit + Qc_of_Z d' * rate limit)%Qc.
Proof. by rewrite Qc_of_Z_add, Qcmult_plus_distr_l. Qed.

Lemma refill_nonneg limit d : 0 <= limit → 0 <= d → (0 <= Qc_of_Z d * rate limit)%Qc.
Proof.
  intros Hl Hd. pose proof (refill_mono limit 0 d Hl Hd) as Hm.
  by rewrite Qc_of_Z_0, Qcmult_0_l in Hm.
Qed.

Lemma time_sub_nonneg t u : u <= t → 0 <= time_sub t u.
Proof. unfold time_sub, two63. lia. Qed.

Lemma time_sub_step t t' u : t <= t' → time_sub t u <= time_sub t' u <= time_sub t u + (t' - t).
Proof. unfold time_sub, two63. lia. Qed.

Lemma time_sub_same t : time_sub t t = 0.
Proof. unfold time_sub, two63. lia. Qed.

Record bucket_wf (limit clock : Z) (b : bucket Qc) : Prop := {
  wf_max : b.(bmax) = Qc_of_Z limit;
  wf_refill : b.(refillPer) = rate limit;
  wf_nonneg : (0 <= b.(tokens))%Qc;
  wf_full : (b.(tokens) <= Qc_of_Z limit)%Qc;
  wf_time : b.(lastFill) <= clock
}.

(** The tokens a bucket holds at a time, before the request is counted. *)
Definition refilled (b : bucket Qc) (now : Z) : Qc :=
  let t := (b.(tokens) + Qc_of_Z (time_sub now b.(lastFill)) * b.(refillPer))%Qc in
  if bool_decide (b.(bmax) < t)%Qc then b.(bmax) else t.

Lemma allow_refilled b now :
  allow b now =
  if bool_decide (refilled b now < 1)%Qc
  then (false, mkBucket (refilled b now) b.(bmax) b.(refillPer) now)
  else (true, mkBucket (refilled b now - 1)%Qc b.(bmax) b.(refillPer) now).
Proof. unfold allow, refilled. cbn. by rewrite Qc_of_Z_1. Qed.

Section one_bucket.
Context (limit clock : Z) (b : bucket Qc).
Hypothesis Hlimit : 1 <= limit.
Hypothesis Hb : bucket_wf limit clock b.

Lemma limit_ge_1 : (1 <= Qc_of_Z limit)%Qc.
Proof using Hlimit. rewrite <-Qc_of_Z_1. by apply Qc_of_Z_le. Qed.

Lemma refilled_bounds now :
  clock <= now → (0 <= refilled b now)%Qc ∧ (refilled b now <= Qc_of_Z limit)%Qc.
Proof using Hlimit Hb.
  intros Hn. destruct Hb as [Hm Hr H0 Hf Ht]. unfold refilled. rewrite Hm, Hr.
  pose proof (refill_nonneg limit (time_sub now (lastFill b)) ltac:(lia)
    ltac:(apply time_sub_nonneg; lia)) as Hre.
  pose proof limit_ge_1. set (e := (_ * rate limit)%Qc) in *. case_bool_decide as Hlt.
  - split; [|apply Qcle_refl]. qc_lra.
  - split; [qc_lra|]. by apply Qcnot_lt_le.
Qed.

Lemma refilled_grow t t' :
  clock <= t → t <= t' → (refilled b t' <= refilled b t + Qc_of_Z (t' - t) * rate limit)%Qc.
Proof using Hlimit Hb.
  intros Hc Ht. destruct Hb as [Hm Hr H0 Hf Hl]. unfold refilled. rewrite Hm, Hr.
  pose proof (time_sub_step t t' (lastFill b) Ht) as [_ Hstep].
  pose proof (refill_mono limit _ _ ltac:(lia) Hstep) as Hmono. rewrite refill_add in Hmono.
  pose proof (refill_nonneg limit (t' - t) ltac:(lia) ltac:(lia)) as Hd.
  set (e := (Qc_of_Z (time_sub t _) * _)%Qc) in *. set (e' := (Qc_of_Z (time_sub t' _) * _)%Qc) in *.
  set (d := (_ * rate limit)%Qc) in *.
  case_bool_decide as H1; case_bool_decide as H2; try apply Qcnot_lt_le in H1;
    try apply Qcnot_lt_le in H2; qc_lra.
Qed.

(** After a minute without requests a bucket is full. *)
Lemma refilled_idle now :
  minute <= time_sub now b.(lastFill) → refilled b now = Qc_of_Z limit.
Proof using Hlimit Hb.
  intros Hi. destruct Hb as [Hm Hr H0 Hf Hl]. unfold refilled. rewrite Hm, Hr.
  pose proof (refill_mono limit _ _ ltac:(lia) Hi) as Hmono. rewrite rate_minute in Hmono.
  set (e := (Qc_of_Z (time_sub now _) * _)%Qc) in *.
  case_bool_decide as H1; [done|]. apply Qcnot_lt_le in H1.
  apply Qcle_antisym; [done|]. qc_lra.
Qed.

Lemma refilled_now t : clock <= t → b.(lastFill) = t → refilled b t = b.(tokens).
Proof using Hlimit Hb.
  intros Hc Ht. destruct Hb as [Hm Hr H0 Hf Hl]. unfold refilled.
  rewrite Ht, time_sub_same, Qc_of_Z_0, Qcmult_0_l, Qcplus_0_r, Hm.
  case_bool_decide as H1; [|done]. destruct (Qclt_not_le _ _ H1 Hf).
Qed.

End one_bucket.

(** A request takes one token when it is admitted. *)
Lemma allow_spec limit clock b now :
  1 <= limit → bucket_wf limit clock b → clock <= now →
  bucket_wf limit now (allow b now).2 ∧
  refilled (allow b now).2 now = (refilled b now - if (allow b now).1 then 1 else 0)%Qc.
Proof.
  intros Hl Hb Hc. destruct (refilled_bounds _ _ _ Hl Hb now Hc) as [H0 Hf].
  assert (Hwf : bucket_wf limit now (allow b now).2).
  { destruct Hb as [Hm Hr _ _ _]. rewrite allow_refilled.
    case_bool_decide as H1; split; simpl; try done; try apply Qcnot_lt_le in H1; qc_lra. }
  split; [done|]. rewrite (refilled_now limit now) by (done || (rewrite allow_refilled; by case_bool_decide)).
  rewrite allow_refilled. case_bool_decide; simpl; [|done]. ring.
Qed.

Lemma newBucket_wf limit now : 1 <= limit → bucket_wf limit now (newBucket limit now).
Proof.
  intros Hl. pose proof (limit_ge_1 limit Hl). split; simpl; try done; qc_lra.
Qed.

Lemma refilled_newBucket limit now : 1 <= limit → refilled (newBucket limit now) now = Qc_of_Z limit.
Proof. intros Hl. by rewrite (refilled_now limit now) by (done || by apply newBucket_wf). Qed.

(** *** The plugin's buckets *)

Record wf (clock : Z) (p : RateLimiter Qc) : Prop := {
  wf_limits : ∀ r, 1 <= ref_limit p r;
  wf_buckets : ∀ r b, deref p r = Some b → bucket_wf (ref_limit p r) clock b
}.

Definition avail (p : RateLimiter Qc) (r : bref) (now : Z) : Qc := refilled (current p r now) now.

Lemma bucket_wf_later limit t t' b : t <= t' → bucket_wf limit t b → bucket_wf limit t' b.
Proof. intros Ht []. split; [done..|lia]. Qed.

Lemma current_wf clock p r now :
  wf clock p → clock <= now → bucket_wf (ref_limit p r) now (current p r now).
Proof.
  intros [Hl Hb] Hn. unfold current. destruct (deref p r) as [b|] eqn:E; simpl.
  - apply (bucket_wf_later _ clock); [done|]. by apply Hb.
  - by apply newBucket_wf.
Qed.

Lemma avail_bounds clock p r now :
  wf clock p → clock <= now → (0 <= avail p r now)%Qc ∧ (avail p r now <= Qc_of_Z (ref_limit p r))%Qc.
Proof.
  intros Hwf Hn. eapply refilled_bounds; [apply Hwf|by eapply current_wf|lia].
Qed.

Lemma avail_grow clock p r t t' :
  wf clock p → clock <= t → t <= t' →
  (avail p r t' <= avail p r t + Qc_of_Z (t' - t) * rate (ref_limit p r))%Qc.
Proof.
  intros [Hl Hb] Hc Ht. unfold avail, current. destruct (deref p r) as [b|] eqn:E; simpl.
  - apply (refilled_grow (ref_limit p r) clock b); auto.
  - rewrite !refilled_newBucket by auto.
    pose proof (refill_nonneg (ref_limit p r) (t' - t) ltac:(specialize (Hl r); lia) ltac:(lia)).
    set (d := (_ * rate _)%Qc) in *. qc_lra.
Qed.

(** What the answers of a run admit. *)
Definition admitted (a : outcome RequestContext) : bool :=
  match a with Ret c => negb (ShortCircuit c) | Panic => false end.

Definition cost (p : RateLimiter Qc) (r : bref) (e : event) : Z :=
  match (step p e).2 with
  | Some a => if decide (concerns p r e) then if admitted a then 1 else 0 else 0
  | None => 0
  end.

Lemma evicted_full clock p r b t :
  wf clock p → deref p r = Some b → 10 * minute < time_sub t b.(lastFill) →
  refilled b t = Qc_of_Z (ref_limit p r).
Proof.
  intros [Hl Hb] Hr Ht. apply (refilled_idle (ref_limit p r) clock b); auto.
  unfold minute in *. lia.
Qed.

Lemma step_wf clock p e : wf clock p → clock <= event_time e → wf (event_time e) (step p e).1.
Proof.
  intros Hwf Ht. pose proof Hwf as [Hl Hb]. pose proof (step_config p e) as Hc. split.
  { intros r. rewrite (ref_limit_config _ p) by done. apply Hl. }
  intros r b Hr. rewrite (ref_limit_config _ p) by done.
  assert (Hkeep : deref p r = Some b → bucket_wf (ref_limit p r) (event_time e) b).
  { intros Hr'. apply (bucket_wf_later _ clock); auto. }
  destruct e as [ctx now|now]; simpl in *.
  - rewrite PreHTTP_ref in Hr. destruct (bucket_ref p ctx) as [r'|]; [|by apply Hkeep].
    destruct (allow _ now) as [ok b'] eqn:Ea. simpl in Hr.
    destruct (decide (r' = r)) as [->|Hne].
    + rewrite deref_set_ref in Hr. injection Hr as ->.
      pose proof (current_wf clock p r now Hwf Ht) as Hcur.
      pose proof (allow_spec _ _ _ now (Hl r) Hcur ltac:(lia)) as [Hok _].
      by rewrite Ea in Hok.
    + rewrite deref_set_ref_ne in Hr by done. by apply Hkeep.
  - destruct (deref_cleanup p r now) as [E|(_&E&_)]; [|congruence].
    apply Hkeep. congruence.
Qed.

Lemma step_avail clock p r e :
  wf clock p → clock <= event_time e →
  (avail (step p e).1 r (event_time e) <= avail p r (event_time e) - Qc_of_Z (cost p r e))%Qc.
Proof.
  intros Hwf Ht. pose proof Hwf as [Hl Hb]. pose proof (step_config p e) as Hc.
  unfold avail, current, cost, decide. rewrite (ref_limit_config _ p) by done.
  destruct e as [ctx now|now]; cbn [event_time step] in *.
  - destruct (concerns_dec p r (EReq ctx now)) as [Hcn|Hcn]; simpl in Hcn.
    + rewrite PreHTTP_ref, Hcn. destruct (allow (current p r now) now) as [ok b'] eqn:Ea. simpl.
      rewrite deref_set_ref. simpl.
      pose proof (current_wf clock p r now Hwf Ht) as Hcur.
      pose proof (allow_spec _ _ _ now (Hl r) Hcur ltac:(lia)) as [_ Heq].
      rewrite Ea in Heq. simpl in Heq. rewrite Heq. unfold current.
      destruct ok; simpl; [|rewrite Qc_of_Z_0; qc_lra].
      destruct (ShortCircuit ctx); simpl; rewrite ?Qc_of_Z_0, ?Qc_of_Z_1; qc_lra.
    + rewrite PreHTTP_ref. destruct (bucket_ref p ctx) as [r'|]; simpl.
      2: { rewrite Qc_of_Z_0. qc_lra. }
      destruct (allow (current p r' now) now) as [ok b']. simpl.
      rewrite deref_set_ref_ne, Qc_of_Z_0 by congruence. qc_lra.
  - cbn [fst snd]. rewrite Qc_of_Z_0. destruct (deref_cleanup p r now) as [->|(_&->&b&Hr&Hi)]; [qc_lra|].
    rewrite Hr. simpl. rewrite (evicted_full clock p r b), refilled_newBucket by auto. qc_lra.
Qed.

Definition admissions (r : bref) (p : RateLimiter Qc) (evs : list event) : Z :=
  Z.of_nat (length (filter (λ a, admitted a = true) (answers r p evs))).

Lemma admissions_cons r p e evs :
  admissions r p (e :: evs) = cost p r e + admissions r (step p e).1 evs.
Proof.
  unfold admissions, cost. cbn [answers]. destruct (step p e) as [p' [a|]]; simpl; [|done].
  case_decide; [|done]. rewrite filter_cons.
  destruct (admitted a); simpl; lia.
Qed.

Lemma admissions_bound r p t evs t' :
  wf t p → ordered t evs t' →
  (Qc_of_Z (admissions r p evs) <= avail p r t + Qc_of_Z (t' - t) * rate (ref_limit p r))%Qc.
Proof.
  revert p t. induction evs as [|e evs IH]; intros p t Hwf Ho.
  - simpl in Ho. pose proof (avail_bounds t p r t Hwf ltac:(lia)) as [H0 _].
    pose proof (refill_nonneg (ref_limit p r) (t' - t) ltac:(pose proof (wf_limits _ _ Hwf r); lia)
      ltac:(lia)) as Hd.
    change (admissions r p []) with 0. rewrite Qc_of_Z_0.
    set (d := (_ * rate _)%Qc) in *. qc_lra.
  - destruct Ho as [Ht Ho]. rewrite admissions_cons, Qc_of_Z_add.
    pose proof (IH _ _ (step_wf _ _ _ Hwf Ht) Ho) as IHe.
    rewrite (ref_limit_config _ p) in IHe by apply step_config.
    pose proof (step_avail t p r e Hwf Ht) as Hs.
    pose proof (avail_grow t p r t (event_time e) Hwf ltac:(lia) Ht) as Hg.
    replace (t' - t) with ((t' - event_time e) + (event_time e - t)) by lia.
    rewrite refill_add. set (d1 := (_ * rate _)%Qc) in *. set (d2 := (_ * rate _)%Qc) in *.
    qc_lra.
Qed.

(** *** A configured plugin *)

Lemma key_limits_pos l k z : key_limits l !! k = Some z → 1 <= z.
Proof.
  induction l as [|[k' v] l IH]; simpl; [done|]. destruct v; try done.
  destruct (Z.ltb_spec 0 z0); [|done]. destruct (decide (k' = k)) as [->|].
  - rewrite lookup_insert_eq. intros [= <-]. lia.
  - rewrite lookup_insert_ne by done. done.
Qed.

Lemma positive_int_pos v old : 1 <= old → 1 <= positive_int v old.
Proof. unfold positive_int. intros. repeat case_match; lia. Qed.

Lemma config_wf (p : RateLimiter Qc) :
  1 <= p.(rpm) → (∀ k z, p.(appKeyLimits) !! k = Some z → 1 <= z) → ∀ r, 1 <= ref_limit p r.
Proof.
  intros Hr Hk r. unfold ref_limit, resolveAppKeyRPM.
  destruct r; [done|]. case_match; [|done]. case_match; [by eapply Hk|].
  destruct (Z.ltb_spec 0 (appKeyRPM p)); lia.
Qed.

Lemma Init_wf cfg now p : Init cfg now New = (None, p) → wf now p.
Proof.
  assert (Hlim : ∀ q : RateLimiter Qc, (∃ c, q.(appKeyLimits) =
     match c with Some (VMap l) => key_limits l | _ => (New (F := Qc)).(appKeyLimits) end) →
     1 <= q.(rpm) → ∀ r, 1 <= ref_limit q r).
  { intros q [c Hq] Hr. apply config_wf; [done|]. rewrite Hq. intros k z.
    destruct c as [[]|]; try apply key_limits_pos; done. }
  destruct cfg as [cfg|]; simpl.
  2: { intros [= <-]. split; [apply config_wf; simpl; [lia|done]|]. by intros [|k] b. }
  intros Hi.
  assert (∃ pr, p = mkRL (positive_int (cfg !! "requests_per_minute") 60) (bool_or (cfg !! "per_ip") false)
     (bool_or (cfg !! "per_app_key") false) (positive_int (cfg !! "per_app_key_rpm") 0)
     (match cfg !! "app_key_limits" with Some (VMap l) => key_limits l | _ => ∅ end) ∅
     (Some (newBucket (positive_int (cfg !! "requests_per_minute") 60) now))
     (if bool_or (cfg !! "per_app_key") false || bool_or (cfg !! "per_ip") false then Open else NoChan) pr)
    as [pr ->] by (repeat case_match; simplify_eq; by eexists).
  clear Hi. assert (Hp : 1 <= positive_int (cfg !! "requests_per_minute") 60)
    by (apply positive_int_pos; lia).
  split.
  - apply Hlim; simpl; [by eexists|done].
  - intros [|k] b; [|done]. intros [= <-]. by apply newBucket_wf.
Qed.

(** C39. In exact arithmetic, the limiter limits: whatever the configuration,
    however requests, other clients' requests and evictions of idle buckets are
    interleaved, from start-up at [t0] to a time [t1] a bucket of limit [L] per
    minute admits at most [L * (1 + (t1 - t0) / 1 minute)] requests. *)
Theorem rate_bound cfg t0 (p : RateLimiter Qc) (r : bref) (evs : list event) t1 :
  Init cfg t0 New = (None, p) → ordered t0 evs t1 →
  minute * admissions r p evs <= ref_limit p r * (minute + (t1 - t0)).
Proof.
  intros Hi Ho. apply Init_wf in Hi. pose proof (admissions_bound r p t0 evs t1 Hi Ho) as Hb.
  pose proof (avail_bounds t0 p r t0 Hi ltac:(lia)) as [_ Ha].
  apply Qc_of_Z_le. rewrite !Qc_of_Z_mul, Qc_of_Z_add, Qcmult_plus_distr_r.
  eapply Qcle_trans.
  - rewrite Qcmult_comm. apply Qcmult_le_compat_r; [exact Hb|done].
  - rewrite Qcmult_plus_distr_l. apply Qcplus_le_compat.
    + by apply Qcmult_le_compat_r.
    + rewrite <-Qcmult_assoc, (Qcmult_comm (rate _)), rate_minute, Qcmult_comm. apply Qcle_refl.
Qed.

(** *** Eviction *)

Definition is_request (e : event) : Prop := match e with EReq _ _ => True | ETick _ => False end.

#[global] Instance is_request_dec e : Decision (is_request e).
Proof. destruct e; simpl; apply _. Defined.

(** [p] has forgotten some of the buckets [q] keeps, all of them idle for long. *)
Record forgets (clock : Z) (p q : RateLimiter Qc) : Prop := {
  fg_config : same_config p q;
  fg_wf : wf clock q;
  fg_buckets r : deref p r = deref q r ∨
    (deref p r = None ∧ ∃ b, deref q r = Some b ∧ 10 * minute < time_sub clock b.(lastFill))
}.

Lemma allow_forgotten clock p q r now :
  forgets clock p q → clock <= now → allow (current p r now) now = allow (current q r now) now.
Proof.
  intros [Hc Hwf Hb] Hn. unfold current. rewrite (ref_limit_config p q) by done.
  destruct (Hb r) as [->|(->&b&Hq&Hi)]; [done|]. rewrite Hq. simpl.
  assert (Hi' : 10 * minute < time_sub now (lastFill b)).
  { pose proof (time_sub_step clock now (lastFill b) Hn). lia. }
  pose proof (wf_limits _ _ Hwf r) as Hl. pose proof (wf_buckets _ _ Hwf r b Hq) as [Hm Hr _ _ _].
  rewrite !allow_refilled, (evicted_full clock q r b), refilled_newBucket by done.
  by rewrite Hm, Hr.
Qed.

Lemma forgets_request clock p q ctx now :
  forgets clock p q → clock <= now →
  forgets now (step p (EReq ctx now)).1 (step q (EReq ctx now)).1 ∧
  (step p (EReq ctx now)).2 = (step q (EReq ctx now)).2.
Proof.
  intros Hf Hn. pose proof Hf as [Hc Hwf Hb].
  pose proof (step_wf clock q (EReq ctx now) Hwf Hn) as Hwf'.
  assert (Hlater : ∀ b, 10 * minute < time_sub clock (lastFill b) →
                        10 * minute < time_sub now (lastFill (F := Qc) b)).
  { intros b. pose proof (time_sub_step clock now (lastFill b) Hn). lia. }
  assert (Hcfg : same_config (step p (EReq ctx now)).1 (step q (EReq ctx now)).1)
    by by rewrite !step_config.
  simpl in *. rewrite !PreHTTP_ref in *. rewrite (bucket_ref_config p q) in * by done.
  destruct (bucket_ref q ctx) as [r|]; simpl in *.
  - rewrite (allow_forgotten clock p q r now Hf Hn) in *.
    destruct (allow _ now) as [ok b]. simpl in *.
    rewrite (limit_message_config p q), (ref_limit_config p q) by done.
    split; [|done]. split; [done..|]. intros r'.
    destruct (decide (r = r')) as [->|Hne]; [left; by rewrite !deref_set_ref|].
    rewrite !deref_set_ref_ne by done. destruct (Hb r') as [?|(?&b'&?&?)]; [by left|].
    right. split; [done|]. exists b'. auto.
  - split; [|done]. split; [done..|]. intros r'.
    destruct (Hb r') as [?|(?&b'&?&?)]; [by left|]. right. split; [done|]. exists b'. auto.
Qed.

Lemma forgets_tick clock p q now :
  forgets clock p q → clock <= now → forgets now (cleanup p now) q.
Proof.
  intros [Hc [Hl Hw] Hb] Hn. split.
  - by rewrite cleanup_config.
  - split; [done|]. intros r b Hr. apply (bucket_wf_later _ clock); auto.
  - intros r. destruct (deref_cleanup p r now) as [->|(_&->&b&Hp&Hi)].
    + destruct (Hb r) as [?|(?&b&?&?)]; [by left|]. right. split; [done|]. exists b.
      split; [done|]. pose proof (time_sub_step clock now (lastFill b) Hn). lia.
    + right. split; [done|]. exists b. destruct (Hb r) as [<-|(?&_)]; [done|congruence].
Qed.

Lemma run_forgets clock p q evs t' :
  forgets clock p q → ordered clock evs t' → run p evs = run q (filter is_request evs).
Proof.
  revert clock p q. induction evs as [|e evs IH]; intros clock p q Hf Ho; [done|].
  destruct Ho as [Ht Ho]. rewrite filter_cons. destruct e as [ctx now|now].
  - rewrite decide_True by done. cbn [run].
    destruct (forgets_request clock p q ctx now Hf Ht) as [Hf' Ha].
    destruct (step p _) as [p' a], (step q _) as [q' a']. simpl in *. subst a'.
    rewrite (IH now p' q' Hf' Ho). by destruct a.
  - rewrite decide_False by (intros []). cbn [run step].
    apply (IH now); [by apply (forgets_tick clock)|done].
Qed.

(** In exact arithmetic, evicting idle buckets is invisible: a run with
    cleanup ticks answers every request as the run without them does. *)
Theorem eviction_invisible cfg t0 (p : RateLimiter Qc) (evs : list event) t1 :
  Init cfg t0 New = (None, p) → ordered t0 evs t1 →
  run p evs = run p (filter is_request evs).
Proof.
  intros Hi Ho. apply Init_wf in Hi. eapply run_forgets; [|done].
  split; [done..|]. by left.
Qed.

(** ** Client addresses *)

Lemma Split_not_nil s c : Split s c ≠ [].
Proof. destruct s; simpl; [done|]. destruct (ascii_dec _ _); [done|]. by destruct (Split s c). Qed.

Lemma Split_app a b c : Split (a +:+ String c b) c = Split a c ++ Split b c.
Proof.
  induction a as [|x a IH]; simpl.
  - by destruct (ascii_dec c c).
  - destruct (ascii_dec x c); [by rewrite IH|]. rewrite IH.
    destruct (Split a c) eqn:E; [by apply Split_not_nil in E|done].
Qed.

Section addresses.
Context {F : Type} `{Num F}.
Implicit Types p : RateLimiter F.

Definition trusted_hop p (hop : string) : Prop :=
  ∃ a, parseAddr hop = Some a ∧ isTrusted p a = true.

Lemma walk_hops_app p hops hop rest a :
  Forall (trusted_hop p) hops → parseAddr hop = Some a → isTrusted p a = false →
  walk_hops p (hops ++ hop :: rest) = Some a.
Proof using Type.
  intros Ht Ha Hn. induction hops as [|h hops IH]; simpl.
  - by rewrite Ha, Hn.
  - apply Forall_cons_iff in Ht as [(b&Hb&Hbt) Ht]. rewrite Hb, Hbt. by apply IH.
Qed.

(** C40. Behind trusted proxies a client cannot choose its bucket: when the peer
    is a trusted proxy and the X-Forwarded-For lines, joined, end in hops of
    which the first is the untrusted address the outermost proxy saw and the
    others are trusted proxies, the request is counted under that address,
    whatever text the client put before them. *)
Theorem forwarded_rightmost p (r : Request) (peer a : Addr) (suffix hop : string) (tail : list string) :
  parseAddr r.(rq_RemoteAddr) = Some peer → isTrusted p peer = true →
  let xff := Join (hdr_values r.(rq_Header) "X-Forwarded-For") "," in
  (xff = suffix ∨ ∃ forged, xff = forged +:+ "," +:+ suffix) →
  Split suffix (byte_of 44) = hop :: tail →
  parseAddr hop = Some a → isTrusted p a = false → Forall (trusted_hop p) tail →
  clientIP p r = AddrString a.
Proof using Type.
  intros Hp Ht xff Hx Hs Ha Hn Htail. unfold clientIP. rewrite Hp, Ht. cbn [negb]. fold xff.
  assert (Hhops : ∃ pre, Split xff (byte_of 44) = pre ++ hop :: tail).
  { destruct Hx as [->|[forged ->]]; [by exists []|].
    exists (Split forged (byte_of 44)). rewrite <-Hs. apply Split_app. }
  destruct Hhops as [pre Hhops].
  destruct (decide (xff = "")) as [E|_].
  - rewrite E in Hhops. destruct pre as [|? [|]]; simplify_eq/=.
  - rewrite Hhops, reverse_app, reverse_cons, <-app_assoc. cbn [app].
    by rewrite (walk_hops_app p (reverse tail) hop _ a) by (done || by apply Forall_reverse).
Qed.

(** A client that connects directly cannot choose its bucket: from a peer that
    is not a trusted proxy, two requests without an app key are counted in the
    same bucket whatever their headers. *)
Theorem direct_peer_bucket p (ctx ctx' : RequestContext) (r r' : Request) (peer : Addr) :
  rc_Request ctx = Some r → rc_Request ctx' = Some r' →
  meta_app_key ctx = None → meta_app_key ctx' = None →
  rq_RemoteAddr r = rq_RemoteAddr r' →
  parseAddr (rq_RemoteAddr r) = Some peer → isTrusted p peer = false →
  bucket_ref p ctx = bucket_ref p ctx'.
Proof using Type.
  intros Hr Hr' Hk Hk' Hsame Hp Hn. unfold bucket_ref. rewrite Hr, Hr', Hk, Hk'. simpl.
  unfold clientIP. rewrite <-Hsame, Hp, Hn. by destruct (perAppKey p).
Qed.

(** *** Trusted proxies *)

Lemma normalize_zone a : ∀ b z, normalizeAddr a = A6 b z → z = "".
Proof. intros b z. unfold normalizeAddr. destruct (Unmap a); simpl; congruence. Qed.

Lemma single_host_contains x a :
  normalizeAddr a = a → IsValid a = true →
  PrefixContains (mkPrefix (normalizeAddr x) (BitLen (normalizeAddr x))) a = true ↔
  normalizeAddr x = a.
Proof.
  intros Ha Hv. unfold PrefixContains. simpl.
  destruct (normalizeAddr x) as [|b|b z] eqn:E, a as [|b'|b' z']; try done.
  - simpl. rewrite Z.eqb_eq, !Z.shiftr_0_r. naive_solver.
  - apply normalize_zone in E as ->. apply normalize_zone in Ha as ->. simpl.
    rewrite Z.eqb_eq, !Z.shiftr_0_r. naive_solver.
Qed.

Lemma shiftr_mask w n b : 0 <= w - n → Z.shiftr (mask w n b) (w - n) = Z.shiftr b (w - n).
Proof.
  intros Hn. unfold mask. rewrite Z.shiftr_shiftl_l, Z.sub_diag by lia. apply Z.shiftl_0_r.
Qed.

Lemma ParsePrefix_bits s pfx : ParsePrefix s = Some pfx → pfx_bits pfx <= BitLen (pfx_addr pfx).
Proof.
  unfold ParsePrefix. intros Hs. destruct (cut_last c_slash s) as [[ip bits]|]; [|done]. simpl in Hs.
  destruct (ParseAddr ip) as [a|]; [|done]. simpl in Hs. case_match; [done|].
  destruct (parse_bits bits) as [b|]; [|done]. simpl in Hs.
  destruct (Z.ltb_spec (BitLen a) b); [done|]. by injection Hs as <-.
Qed.

Lemma Masked_contains pfx a :
  pfx_bits pfx <= BitLen (pfx_addr pfx) → PrefixContains (Masked pfx) a = PrefixContains pfx a.
Proof.
  destruct pfx as [[|b|b z] n]; simpl; intros Hn; unfold PrefixContains; simpl; [done|..].
  - destruct a; [done| |done]. by rewrite shiftr_mask by lia.
  - destruct a as [| |b' [|]]; try done. by rewrite shiftr_mask by lia.
Qed.

(** What an entry of the list denotes: a network, or one host. *)
Definition entry_covers (entry : string) (a : Addr) : Prop :=
  let e := TrimSpace entry in
  e ≠ "" ∧
  if Contains e "/" then ∃ pfx, ParsePrefix e = Some pfx ∧ PrefixContains pfx a = true
  else normalizeAddr <$> ParseAddr e = Some a.

Lemma parse_entries_covers raw ps a :
  parse_entries raw = inr ps → normalizeAddr a = a → IsValid a = true →
  existsb (λ pfx, PrefixContains pfx a) ps = true ↔ Exists (λ entry, entry_covers entry a) raw.
Proof.
  intros Hp Ha Hv. revert ps Hp. induction raw as [|e raw IH]; intros ps Hp; cbn [parse_entries] in Hp.
  { injection Hp as <-. by rewrite Exists_nil. }
  rewrite Exists_cons. unfold entry_covers at 1.
  destruct (decide (TrimSpace e = "")) as [E|E]; [rewrite (IH ps Hp); naive_solver|].
  destruct (Contains (TrimSpace e) "/").
  - destruct (ParsePrefix (TrimSpace e)) as [pfx|] eqn:Hpfx; [|done].
    destruct (parse_entries raw) as [|l]; [done|]. injection Hp as <-. cbn [existsb].
    rewrite orb_true_iff, (IH l eq_refl), Masked_contains by by eapply ParsePrefix_bits.
    naive_solver.
  - destruct (ParseAddr (TrimSpace e)) as [x|]; [|done].
    destruct (parse_entries raw) as [|l]; [done|]. injection Hp as <-. cbn [existsb].
    rewrite orb_true_iff, (IH l eq_refl), single_host_contains by done. simpl. naive_solver.
Qed.

(** The entries of a configured list. *)
Definition entries_of (v : any) : list string :=
  match v with
  | VStrs l => l
  | VList l => omap (λ e, match e with VStr s => Some s | _ => None end) l
  | _ => []
  end.

Lemma any_strings_entries l raw : any_strings l = inr raw → raw = entries_of (VList l).
Proof.
  revert raw. induction l as [|e l IH]; intros raw; simpl; [congruence|].
  destruct e; try done. destruct (any_strings l) as [|r]; [done|]. intros [= <-].
  simpl. f_equal. by apply IH.
Qed.

(** The configured proxies are the trusted ones: after [trusted_proxies] was
    accepted, an address in the form [parseAddr] gives is trusted exactly when
    some non-empty entry of the list is a network that contains it or is its
    own text, ports and brackets aside. *)
Theorem trusted_proxies_exact p (v : any) (ps : list Prefix) (a : Addr) :
  parseTrustedProxies v = inr ps → p.(trustedProxies) = ps →
  normalizeAddr a = a → IsValid a = true →
  isTrusted p a = true ↔ Exists (λ entry, entry_covers entry a) (entries_of v).
Proof using Type.
  intros Hv Hp Ha Hok. unfold isTrusted. rewrite Hok, Hp. simpl.
  destruct v; simpl in Hv; try done.
  - injection Hv as <-. by rewrite Exists_nil.
  - destruct (any_strings l) as [|raw] eqn:E; [done|]. apply any_strings_entries in E as <-.
    by apply parse_entries_covers.
  - by apply parse_entries_covers.
Qed.

(** A network written in 4-in-6 form matches no address: addresses are unmapped
    before they are looked up, networks are not. *)
Theorem mapped_network_matches_nothing (b bits : Z) (zone : string) (a : Addr) :
  Is4In6 (A6 b zone) = true → 96 <= bits <= 128 →
  PrefixContains (mkPrefix (A6 b zone) bits) (normalizeAddr a) = false.
Proof.
  intros Hm Hb. unfold PrefixContains. cbn [pfx_addr pfx_bits].
  destruct (normalizeAddr a) as [| |b' [|]] eqn:E; try done.
  apply Z.eqb_neq. intros Heq. unfold Is4In6 in Hm. apply Z.eqb_eq in Hm.
  assert (H32 : ∀ x, Z.shiftr x 32 = Z.shiftr (Z.shiftr x (128 - bits)) (32 - (128 - bits))).
  { intros x. rewrite Z.shiftr_shiftr by lia. f_equal. lia. }
  rewrite H32, Heq, <-H32 in Hm. unfold normalizeAddr in E.
  destruct a as [|?|b0 z]; try discriminate E. unfold Unmap, Is4In6 in E.
  destruct (Z.shiftr b0 32 =? 65535) eqn:E2; [discriminate E|].
  injection E as ->. by apply Z.eqb_neq in E2.
Qed.

End addresses.

(** ** Examples and witnesses *)

Definition proxied_cfg : option (gmap string any) :=
  Some (<["requests_per_minute" := VInt 2]> (<["per_ip" := VBool true]>
     (<["per_app_key" := VBool true]>
     (<["trusted_proxies" := VList [VStr "10.0.0.0/8"; VStr "192.0.2.7"]]> ∅)))).

Definition proxied : RateLimiter Qc := (Init proxied_cfg 0 New).2.

Lemma proxied_init : Init proxied_cfg 0 New = (None, proxied).
Proof. rewrite (surjective_pairing (Init _ _ _)). f_equal. Qed.

Definition request_from (remote : string) (xff : list string) : Request :=
  mkRequest "POST" "/v1/chat/completions" remote {[ "X-Forwarded-For" := xff ]}.

Definition context_of (r : Request) (meta : gmap string meta_value) : RequestContext :=
  mkRC (Some r) "" "" None (Some meta) 0 None false 0 None.

Definition app_request (key : string) : RequestContext :=
  context_of (request_from "198.51.100.4:5000" []) {[ "app_key" := MStr key ]}.

(** Float64: with three requests per minute the fourth in a row is refused, and
    twenty seconds later one more passes. *)
Example float_bucket :
  let p := (Init (F := float64) (Some {[ "requests_per_minute" := VInt 3 ]}) 0 New).2 in
  let c := context_of (request_from "198.51.100.4:5000" []) ∅ in
  admitted <$> run p [EReq c 0; EReq c 0; EReq c 1000000000; EReq c 1000000000;
                      EReq c 21000000000; EReq c 21000000000]
  = [true; true; true; false; true; false].
Proof. vm_compute. reflexivity. Qed.

Example refusal_message :
  let c := app_request "btr_a" in
  (λ a, match a with Ret c => (ShortCircuitStatus c, bytes_of (ShortCircuitBody c)) | Panic => (0, "") end)
    <$> list.last (run proxied [EReq c 0; EReq c 0; EReq c 0])
  = Some (429, dq "{'error':{'message':'rate limit exceeded for app key (2 requests/minute)','type':'rate_limit_error'}}").
Proof. vm_compute. reflexivity. Qed.

Definition sample_run : list event :=
  [EReq (app_request "btr_a") 5; EReq (app_request "btr_a") 6; EReq (app_request "btr_b") 7;
   EReq (app_request "btr_a") 8; ETick (11 * minute); EReq (app_request "btr_a") (11 * minute)].

Lemma rate_bound_witness :
  admissions (BKey "appkey:btr_a") proxied sample_run = 3 ∧
  minute * admissions (BKey "appkey:btr_a") proxied sample_run
    <= ref_limit proxied (BKey "appkey:btr_a") * (minute + (12 * minute - 0)).
Proof.
  split; [vm_compute; reflexivity|].
  apply (rate_bound proxied_cfg 0 proxied); [exact proxied_init|].
  unfold sample_run, minute. simpl. lia.
Defined.

Lemma eviction_invisible_witness :
  length (run proxied sample_run) = 5%nat ∧
  run proxied sample_run = run proxied (filter is_request sample_run).
Proof.
  split; [vm_compute; reflexivity|].
  apply (eviction_invisible proxied_cfg 0 proxied _ (12 * minute)); [exact proxied_init|].
  unfold sample_run, minute. simpl. lia.
Defined.

Lemma forwarded_rightmost_witness :
  clientIP proxied (request_from "10.1.1.1:443" ["1.1.1.1, junk"; "203.0.113.9:77, 10.0.0.3"])
  = AddrString (A4 (203 * 2 ^ 24 + 113 * 2 ^ 8 + 9)).
Proof.
  apply (forwarded_rightmost proxied
           (request_from "10.1.1.1:443" ["1.1.1.1, junk"; "203.0.113.9:77, 10.0.0.3"])
           (A4 (10 * 2 ^ 24 + 2 ^ 16 + 2 ^ 8 + 1)) (A4 (203 * 2 ^ 24 + 113 * 2 ^ 8 + 9))
           "203.0.113.9:77, 10.0.0.3" "203.0.113.9:77" [" 10.0.0.3"]);
    [vm_compute; reflexivity..| | | | |].
  - right. exists "1.1.1.1, junk". vm_compute. reflexivity.
  - vm_compute. reflexivity.
  - vm_compute. reflexivity.
  - vm_compute. reflexivity.
  - constructor; [|constructor]. exists (A4 (10 * 2 ^ 24 + 3)). split; vm_compute; reflexivity.
Defined.

Lemma direct_peer_bucket_witness :
  bucket_ref proxied (context_of (request_from "198.51.100.4:5000" ["1.1.1.1"]) ∅) =
  bucket_ref proxied (context_of (request_from "198.51.100.4:5000" ["2.2.2.2"]) ∅).
Proof.
  eapply (direct_peer_bucket proxied _ _ (request_from "198.51.100.4:5000" ["1.1.1.1"])
           (request_from "198.51.100.4:5000" ["2.2.2.2"])
           (A4 (198 * 2 ^ 24 + 51 * 2 ^ 16 + 100 * 2 ^ 8 + 4)));
    vm_compute; reflexivity.
Defined.

Lemma trusted_proxies_exact_witness :
  isTrusted proxied (A4 (192 * 2 ^ 24 + 2 * 2 ^ 8 + 7)) = true ↔
  Exists (λ entry, entry_covers entry (A4 (192 * 2 ^ 24 + 2 * 2 ^ 8 + 7)))
    (entries_of (VList [VStr "10.0.0.0/8"; VStr "192.0.2.7"])).
Proof.
  eapply (trusted_proxies_exact proxied); vm_compute; reflexivity.
Defined.
